(* ===== verification/_CoqProject ===== *)
-Q . S2P
Prelude.v
Text.v
Json.v
Ids.v
Limits.v
BTree.v
ToolTypes.v
Progress.v
ToolSet.v
ModelError.v
Message.v
Request.v
Failure.v
Assembler.v
History.v
Wire.v
Prompt.v
Event.v
EventSpec.v
Redaction.v
Control.v
ControlSpec.v
Locking.v
LockProgress.v
Options.v
World.v
Steps.v
PortCall.v
Conformance.v
LockTests.v
Driver.v
RunnerTools.v
Runner.v
Accounts.v
RunnerInv.v
Blame.v
RunnerSpec.v
Cooperative.v
Observed.v
Responsive.v
Handle.v
Session.v
Echo.v
HostExample.v
Witnesses.v
DriverTests.v
RunnerTests.v
