(* ===== verification/Prelude.v ===== *)
(** * MiniCore Runtime: a verification development

    MiniCore (src/src/) is an in-process agent runtime. A host starts one
    [AgentLoop]: a task that asks a prompt provider for messages, sends them to a
    model, streams the answer, runs the tools the model calls behind an optional
    policy, and repeats until the model answers without tools, something fails or
    the loop is cancelled. The host steers it through handles (cancel, update,
    answer) that other threads hold, watches a lossy event stream, and receives
    exactly one report. The host's ports (model, prompt provider, policy, tools,
    inputs) are trait objects that may fail, hang or panic.

    ** The files

    Values and rules, pure functions of their arguments:
    - [Prelude]: results, widths, notations and tactics. [BTree]: [BTreeMap].
    - [Text], [Json]: value.rs and model/replay.rs: bounded text, normalisation,
      the budgets of JSON values. [serde_json] is the class [SerdeJson].
    - [Ids]: ids.rs, tool names, model references. [Limits]: limits.rs, usage.rs,
      model/usage.rs. [Options]: [LoopOptions] of agent_loop/mod.rs.
    - [ToolTypes], [ToolSet], [Progress]: tools/ and interaction.rs; what a progress
      emitter promises is the class [ToolProgressEmitter]. [ModelError]: error.rs,
      model/error.rs. [Message], [Request]: model/message.rs, request.rs,
      response.rs, port.rs.
    - [Failure]: time.rs and model/driver/failure.rs: deadlines and the retry
      decision. [Assembler]: model/driver/assembler.rs. [History]: history.rs and
      execution.rs. [Prompt]: the default provider of prompt.rs.
    - [Wire]: what crosses a process boundary. The class [Wire] is the interface of
      a serde type, [WireLaws] its promise; the instances are the Deserialize and
      Serialize impls of all these files, their laws are proved from the
      constructors' lemmas and used by the types that contain them.
    - [Redaction]: their Debug impls.

    Shared state, as records with one function per atomic step:
    - [Event]: the event queue and its loss counters (agent_loop/event.rs).
      [EventSpec]: the automaton of what a subscriber may see.
    - [Control]: the control plane (agent_loop/control.rs): the cancel and finish
      marker, updates, revisions, interactions, the completion channel.
      [ControlSpec]: an abstract machine of three phases that it refines.
      [Locking]: the same methods access by access, with the mutex, the threads
      that call them and the destructors that call back; [LockProgress]: that this
      never gets stuck. They justify the atomic steps of [Control].

    The runner task, as computations over both:
    - [World]: the monad [exec] over the shared state, the clock and an oracle of
      the host and the other threads. [Steps]: the rules its proofs use.
    - [PortCall]: [run_port_call] (port_call.rs). [Driver]: the model driver
      (model/driver.rs) and [run_model] (agent_loop/runner/model.rs).
    - [RunnerTools]: agent_loop/runner/tools.rs. [Runner]: agent_loop/runner.rs,
      the rest of runner/model.rs and [AgentLoop::start].
    - [Accounts]: the usage a loop holds against the responses it recorded.
      [RunnerInv]: the invariant of its turns and its end. [Blame]: who is to blame
      when its body panics. [RunnerSpec]: what a loop guarantees. [Observed]: that what
      it emits is a run of the automaton. [Responsive]: where a loop may wait, and that it ends.
      [Cooperative]: what it does when the host does its part.

    The host's side:
    - [Handle]: agent_loop/handle.rs, and [join], [shutdown] and the drop of
      [AgentLoop], as calls of a thread that runs beside the runner's task.
    - [Session]: the agent of examples/memory_agent.rs, which composes start, run
      and join into a chat, and chats into a conversation. [Echo]: its model and its
      [main].
    - [HostExample]: the host of examples/agent_loop.rs, its four scenarios run.
    - [Witnesses]: concrete loops and chats the theorems are applied to.
      [Conformance], [LockTests]: the unit tests that stand beside the code, replayed.
      [DriverTests], [RunnerTests]: the tests of model/driver/tests and of
      agent_loop/runner/tests.rs, run on the models of the driver and of the loop.

    A definition has the name of the Rust item (a method gets its type as a prefix
    where two share a name). A function that mutates takes and returns the state;
    a function that can panic gives [None], or [Panicked] in [exec]. The body of
    [run_loop_inner] is cut at its phases: [iteration] is one turn of its [loop],
    [take_boundary], [prepare_prompt], [issue_request], [use_response] and
    [tool_round] the phases, [Locals] its local variables.

    ** The environment

    Before each access to shared state the runner lets the environment take any
    finite number of atomic steps ([tick]): cancellations, updates, answers,
    receptions of events, the passing of time. What a host future does at each
    poll (pending, panic, ready with any value), whether a synchronous host call
    panics and what entropy gives are lists of the [World]; [w_trace] and [w_sink_ops]
    record, for the theorems only, the calls the runner made and what both sides did
    to the event queue. A theorem over all worlds is one over all hosts, schedules
    and failures. Past the end of its list a host future is pending for good, and
    past the end of [w_env] the other threads do nothing and time stands still: a
    world is a finite prefix of a history. A run is [Paused] when it waits at the end of that prefix; [paused_resting] says
    that this is the only place where it may. Statements on [Paused] runs are the
    safety of every prefix.

    The destructors of a host's future or stream may panic when the call that owns
    it returns, those of configurations and of the runner's locals as well, and so may
    [LoopInputs::take]: if that happens before the loop is sealed, the loop ends with
    the report of a panic, which has neither inputs, requests nor usage ([crashed]). A
    discarded configuration is dropped by [drop_config], which swallows panics as the
    code does.

    Assumed: a timer fires at the first poll at which it is due; at most one
    destructor panics per call and none while a panic unwinds (both abort the
    process); the runtime does not drop the runner task (a thread that joins is told
    when it is, [HoTaskEnd None]).

    ** Fuel

    [run_loop_turns] gets one more turn than there are polls of the prompt
    provider left, since every turn that continues has completed a prompt;
    [attempt_loop] gets the maximal number of attempts of the options. A wait
    recurses on its [patience]: the polls its own future has left and the batches
    the other threads have left, so that it pauses only when nobody is left to act.
    The awaits of [Handle] recurse on the batches left. That the fuel suffices is
    part of the theorems ([OutOfFuel] is [False] in each of them).

    ** What is shown

    - A loop ends exactly once, with one report ([run_loop_delivers_once]); it does
      end when it is cancelled or its deadline passes, even if the host hangs
      ([run_loop_returns]); it completes, with exactly the expected history, the
      inputs that steer it included, when the host does its part
      ([run_loop_completes]); the report accounts for requests, revisions and tool
      rounds, and a limit on the rounds is one on the requests
      ([run_loop_accounts]), and its usage is that of the recorded responses
      ([run_loop_usage]); its history is well formed ([run_loop_history]) and
      can be issued again ([run_loop_history_reissues]); cancellation is
      authoritative ([cancellation_is_authoritative], [cancelled_loop_ends]).
    - The runner does not panic by itself: when its body panics before its end, a
      destructor of the host or [LoopInputs::take] did, or the clock is within a day of
      the end of its range ([body_blamed]). The report of such a panic is the one
      exception to what the theorems say of reports and of the stream; what the
      documents promise for it too is refuted in [RunnerTests]
      ([panic_loses_taken_inputs], [panic_denies_issued_request],
      [panic_overrides_cancellation]).
    - Whatever is emitted is a run of the contract of the event stream, and the stream
      of a loop that returned ends with the outcome of its report
      ([event_stream_contract]).
    - The control plane refines a machine with three phases ([control_refines]);
      it has one decision, one seal and monotone revisions, and what is taken is the
      update accepted last ([control_linearization], [control_updates]). Its methods are atomic although
      their accesses are not ([control_linearizable]), and no call stays stuck on its
      mutex ([control_calls_end]). The loss counters of the event queue are exact
      ([sink_accounting]).
    - The report reaches everybody who waits ([report_reaches_waiters]); a wait
      misses no wake-up ([handle_wait_delivers]) and the owner's last call leaves
      the loop decided ([owner_call_ends]).
    - A chat replies with what its own loop reported or fails cleanly ([chat_contract]), and a conversation of any
      length can go on ([conversation_reissues]); the example's agent answers every
      question it is asked ([memory_agent_echoes]).
    - Calls into the host, through whatever port, are isolated ([port_call_contract]); a model call is
      retried only when that is safe ([model_call_contract], [evaluate_retry_spec],
      [model_error_invariant]); the policy fails closed and every tool call gets
      one result ([policy_fails_closed], [tool_batch_contract]).
    - Assembly does not depend on how a stream was cut ([assembler_chunking],
      [assembler_finish], [assembled_calls]); what is accepted by one validation is
      accepted by the next ([tool_exchange_spec], [ModelResponse_assistant_message],
      [default_prompt_projection]).
    - What a peer sends is well typed once read ([wire_values_are_valid]), what is
      well typed survives the wire ([wire_roundtrip]), and debug output shows sizes
      and names only ([debug_redacts]).
    - Every validation accepts exactly what its bounds say, and every encoding
      round-trips (the theorems of [Text], [Json], [Ids], [Limits], [ToolTypes],
      [ToolSet], [History]).

    ** What is not modelled

    The bytes of a serialization format (a type's wire form is the tree the format
    decodes to) and the errors of serde's derived code beyond "not this shape";
    [LoopHandle::watch_state], which hands out the receiver of a watch channel;
    tokio, of which channels, tokens, timers and tasks are modelled by their
    documented behaviour; accessors and plain context records (tools/context.rs);
    the printing of the examples; the provider gate, the integration
    tests, those of the driver's tests that are about a full or closed
    progress channel, two calls at once or which object was dropped, and the test of
    tools/input.rs, which is about the escaping of serde_json. The accesses of [Locking] are sequentially
    consistent, which is what SeqCst and the mutex ask for. *)

From stdpp Require Export base tactics list gmap numbers option.
From stdpp Require Export strings.
From Stdlib Require Ascii String.

(** ** Notations and scopes *)

Declare Scope runtime_scope.
Delimit Scope runtime_scope with rt.

(** ** Fallible computations: Rust's [Result<A, E>] *)

Inductive result (E A : Type) : Type :=
| Ok (a : A)
| Err (e : E).
Arguments Ok {E A} a.
Arguments Err {E A} e.

#[export] Instance result_eq_dec (E A : Type) `{EqDecision E, EqDecision A} :
  EqDecision (result E A).
Proof. solve_decision. Defined.

#[export] Instance result_ret (E : Type) : MRet (result E) := λ A a, Ok a.
#[export] Instance result_bind (E : Type) : MBind (result E) :=
  λ A B f r, match r with Ok a => f a | Err e => Err e end.
#[export] Instance result_fmap (E : Type) : FMap (result E) :=
  λ A B f r, match r with Ok a => Ok (f a) | Err e => Err e end.

(** [Result::map_err], [Result::is_ok], [Result::is_err], [Option::ok_or]. *)
Definition map_err {E F A : Type} (f : E → F) (r : result E A) : result F A :=
  match r with Ok a => Ok a | Err e => Err (f e) end.

Definition is_ok {E A : Type} (r : result E A) : bool :=
  match r with Ok _ => true | Err _ => false end.

Definition is_err {E A : Type} (r : result E A) : bool := negb (is_ok r).

Definition ok_or {E A : Type} (o : option A) (e : E) : result E A :=
  match o with Some a => Ok a | None => Err e end.

(** [if c { return Err(e) }; k] *)
Definition guard_err {E A : Type} (c : bool) (e : E) (k : result E A) : result E A :=
  if c then Err e else k.

Lemma result_bind_Ok {E A B : Type} (f : A → result E B) (r : result E A) (b : B) :
  (r ≫= f) = Ok b ↔ ∃ a, r = Ok a ∧ f a = Ok b.
Proof. destruct r; simpl; naive_solver. Qed.

Lemma result_bind_Err {E A B : Type} (f : A → result E B) (r : result E A) (e : E) :
  (r ≫= f) = Err e ↔ r = Err e ∨ ∃ a, r = Ok a ∧ f a = Err e.
Proof. destruct r; simpl; naive_solver. Qed.

Lemma map_err_Ok {E F A : Type} (f : E → F) (r : result E A) (a : A) :
  map_err f r = Ok a ↔ r = Ok a.
Proof. destruct r; naive_solver. Qed.

Lemma map_err_Err {E F A : Type} (f : E → F) (r : result E A) (e : F) :
  map_err f r = Err e ↔ ∃ e', r = Err e' ∧ f e' = e.
Proof. destruct r; naive_solver. Qed.

Lemma ok_or_Ok {E A : Type} (o : option A) (e : E) (a : A) :
  ok_or o e = Ok a ↔ o = Some a.
Proof. destruct o; naive_solver. Qed.

Lemma guard_err_Ok {E A : Type} (c : bool) (e : E) (k : result E A) (a : A) :
  guard_err c e k = Ok a ↔ c = false ∧ k = Ok a.
Proof. destruct c; naive_solver. Qed.

Lemma is_ok_true {E A : Type} (r : result E A) : is_ok r = true ↔ ∃ a, r = Ok a.
Proof. destruct r; naive_solver. Qed.

Lemma is_err_true {E A : Type} (r : result E A) : is_err r = true ↔ ∃ e, r = Err e.
Proof. destruct r; naive_solver. Qed.

(** A computation that is seen to have succeeded gives the value it gives. *)
Definition computed {E A : Type} (o : option (result E A)) (d : A) : A :=
  match o with Some (Ok a) => a | _ => d end.

Lemma computed_ok {E A : Type} (o : option (result E A)) (d : A) :
  match o with Some (Ok _) => true | _ => false end = true → o = Some (Ok (computed o d)).
Proof. by destruct o as [[]|]. Qed.

(** ** Machine integers *)

Definition u8_MAX : N := 255.
Definition u16_MAX : N := 65535.
Definition u32_MAX : N := 4294967295.
Definition u64_MAX : N := 18446744073709551615.
(** The crate is built for 64-bit targets. *)
Definition usize_MAX : N := u64_MAX.

Section width.
  Variable max : N.

Definition checked_add (a b : N) : option N :=
  if (a + b <=? max)%N then Some (a + b)%N else None.

Definition checked_mul (a b : N) : option N :=
  if (a * b <=? max)%N then Some (a * b)%N else None.

Definition saturating_add (a b : N) : N := N.min (a + b) max.

Definition wrapping_add (a b : N) : N := ((a + b) mod (max + 1))%N.

Lemma checked_add_Some a b c :
  checked_add a b = Some c ↔ c = (a + b)%N ∧ (a + b ≤ max)%N.
Proof.
  unfold checked_add. destruct (N.leb_spec (a + b) max); split;
    intros; destruct_and?; simplify_eq; auto with lia.
Qed.

Lemma checked_add_None a b : checked_add a b = None ↔ (max < a + b)%N.
Proof.
  unfold checked_add. destruct (N.leb_spec (a + b) max); split;
    intros; simplify_eq; auto with lia.
Qed.

Lemma checked_add_exact a b : (a + b ≤ max)%N → checked_add a b = Some (a + b)%N.
Proof. intros Hab. by apply checked_add_Some. Qed.

Lemma saturating_add_le a b : (saturating_add a b ≤ max)%N.
Proof. unfold saturating_add. lia. Qed.

Lemma saturating_add_exact a b :
  (a + b ≤ max)%N → saturating_add a b = (a + b)%N.
Proof. unfold saturating_add. lia. Qed.

Lemma wrapping_add_exact a b :
  (a + b ≤ max)%N → wrapping_add a b = (a + b)%N.
Proof. intros. unfold wrapping_add. apply N.mod_small. lia. Qed.
End width.

(** [usize::saturating_sub] *)
Definition saturating_sub (a b : N) : N := (a - b)%N.

(** ** Automation *)

(** Turns boolean tests on [N] into propositions, in hypotheses and goal. *)
Ltac bools :=
  repeat match goal with
  | H : _ && _ = true |- _ => apply andb_true_iff in H as [? ?]
  | H : _ || _ = false |- _ => apply orb_false_iff in H as [? ?]
  | H : negb _ = true |- _ => apply negb_true_iff in H
  | H : negb _ = false |- _ => apply negb_false_iff in H
  | H : (_ <=? _)%N = true |- _ => apply N.leb_le in H
  | H : (_ <=? _)%N = false |- _ => apply N.leb_gt in H
  | H : (_ <? _)%N = true |- _ => apply N.ltb_lt in H
  | H : (_ <? _)%N = false |- _ => apply N.ltb_ge in H
  | H : (_ =? _)%N = true |- _ => apply N.eqb_eq in H
  | H : (_ =? _)%N = false |- _ => apply N.eqb_neq in H
  | |- _ && _ = true => apply andb_true_iff; split
  | |- _ || _ = false => apply orb_false_iff; split
  | |- negb _ = true => apply negb_true_iff
  | |- (_ <=? _)%N = true => apply N.leb_le
  | |- (_ <=? _)%N = false => apply N.leb_gt
  | |- (_ <? _)%N = true => apply N.ltb_lt
  | |- (_ <? _)%N = false => apply N.ltb_ge
  | |- (_ =? _)%N = true => apply N.eqb_eq
  | |- (_ =? _)%N = false => apply N.eqb_neq
  end.

(** Opens a chain of binds, guards and error maps that ended in [Ok]. *)
Ltac ok_inv :=
  repeat match goal with
  | H : (_ ≫= _) = Ok _ |- _ => apply result_bind_Ok in H as (? & ? & H)
  | H : map_err _ _ = Ok _ |- _ => apply map_err_Ok in H
  | H : guard_err _ _ _ = Ok _ |- _ => apply guard_err_Ok in H as [? H]
  | H : ok_or _ _ = Ok _ |- _ => apply ok_or_Ok in H
  | H : Ok _ = Ok _ |- _ => injection H as H; subst
  | H : Err _ = Ok _ |- _ => discriminate H
  | H : Ok _ = Err _ |- _ => discriminate H
  end.

(** ** Lists *)

Lemma forallb_Forall {A : Type} (p : A → bool) (l : list A) :
  forallb p l = true ↔ Forall (λ x, p x = true) l.
Proof. rewrite forallb_forall, List.Forall_forall. done. Qed.

Lemma existsb_Exists {A : Type} (p : A → bool) (l : list A) :
  existsb p l = true ↔ Exists (λ x, p x = true) l.
Proof. rewrite existsb_exists, List.Exists_exists. done. Qed.

Lemma existsb_false {A : Type} (p : A → bool) (l : list A) :
  existsb p l = false ↔ Forall (λ x, p x = false) l.
Proof.
  induction l as [|x l IH]; simpl; [done|].
  rewrite orb_false_iff, IH. split; [intros []; by constructor|by inversion 1].
Qed.

Create HintDb runtime.
#[export] Hint Resolve saturating_add_le : runtime.
#[export] Hint Rewrite @result_bind_Ok @map_err_Ok @ok_or_Ok @guard_err_Ok : runtime.

(** ** Interleavings of two sequences *)

Inductive interleaves {A : Type} : list A → list A → list A → Prop :=
| InterleavesNil : interleaves [] [] []
| InterleavesLeft x l k m : interleaves l k m → interleaves (x :: l) k (x :: m)
| InterleavesRight x l k m : interleaves l k m → interleaves l (x :: k) (x :: m).

Fixpoint merges {A : Type} (l : list A) : list A → list (list A) :=
  match l with
  | [] => λ k, [k]
  | x :: l' => fix go k :=
      match k with
      | [] => [x :: l']
      | y :: k' => (cons x <$> merges l' (y :: k')) ++ (cons y <$> go k')
      end
  end.

Lemma merges_complete {A : Type} (l k m : list A) : interleaves l k m → m ∈ merges l k.
Proof.
  assert (∀ l : list A, merges l [] = [l]) as Hnil by by intros [].
  induction 1 as [|x l k m _ IH|x l k m _ IH]; [by apply list_elem_of_singleton|..].
  - destruct k as [|y k]; rewrite ?Hnil in *.
    + apply list_elem_of_singleton in IH as ->. by apply list_elem_of_singleton.
    + simpl. apply elem_of_app. left. by apply list_elem_of_fmap_2.
  - destruct l as [|y l]; simpl in *.
    + apply list_elem_of_singleton in IH as ->. by apply list_elem_of_singleton.
    + apply elem_of_app. right. by apply list_elem_of_fmap_2.
Qed.
