(* ===== verification/Text.v ===== *)
(** * Text: UTF-8 strings, bounded text and text normalisation

    Models the text half of src/src/value.rs. A Rust [str] is the list of its
    Unicode scalar values; its byte length and its bytes are those of its
    UTF-8 encoding. *)

From S2P Require Import Prelude.
Local Open Scope N_scope.

(** ** Rust's [str] *)

Notation str := (list N) (only parsing).

Definition LF : N := 10.
Definition CR : N := 13.
Definition TAB : N := 9.

(** ASCII literals. *)
Definition lit (s : string) : str := Ascii.N_of_ascii <$> String.list_ascii_of_string s.

Definition is_scalar (c : N) : bool :=
  (c <? 0xD800) || ((0xE000 <=? c) && (c <=? 0x10FFFF)).

(** [char::len_utf8] and the UTF-8 encoding of one scalar value. *)
Definition len_utf8 (c : N) : N :=
  if c <? 0x80 then 1 else if c <? 0x800 then 2 else if c <? 0x10000 then 3 else 4.

Definition encode_utf8 (c : N) : list N :=
  if c <? 0x80 then [c]
  else if c <? 0x800 then
    [N.lor 0xC0 (N.shiftr c 6); N.lor 0x80 (N.land c 0x3F)]
  else if c <? 0x10000 then
    [N.lor 0xE0 (N.shiftr c 12); N.lor 0x80 (N.land (N.shiftr c 6) 0x3F);
     N.lor 0x80 (N.land c 0x3F)]
  else
    [N.lor 0xF0 (N.shiftr c 18); N.lor 0x80 (N.land (N.shiftr c 12) 0x3F);
     N.lor 0x80 (N.land (N.shiftr c 6) 0x3F); N.lor 0x80 (N.land c 0x3F)].

(** [str::len] counts bytes; [str::bytes] lists them. *)
Fixpoint str_len (s : str) : N :=
  match s with [] => 0 | c :: s => len_utf8 c + str_len s end.

Definition str_bytes (s : str) : list N := s ≫= encode_utf8.

Definition str_is_empty (s : str) : bool :=
  match s with [] => true | _ => false end.

(** The order of [str] (and of the newtypes deriving [Ord]): lexicographic on
    bytes, which the standard library documents to be the order of the code
    points. *)
Fixpoint bytes_cmp (a b : list N) : comparison :=
  match a, b with
  | [], [] => Eq
  | [], _ :: _ => Lt
  | _ :: _, [] => Gt
  | x :: a, y :: b => match (x ?= y) with Eq => bytes_cmp a b | o => o end
  end.

Definition str_cmp (a b : str) : comparison := bytes_cmp a b.

(** [char::is_control]: general category Cc. *)
Definition is_control (c : N) : bool :=
  (c <? 0x20) || ((0x7F <=? c) && (c <=? 0x9F)).

(** [u8::is_ascii_alphanumeric]. *)
Definition is_ascii_alphanumeric (b : N) : bool :=
  ((48 <=? b) && (b <=? 57)) || ((65 <=? b) && (b <=? 90)) || ((97 <=? b) && (b <=? 122)).

Definition strip_prefix_char (p : N) (s : str) : option str :=
  match s with c :: r => if c =? p then Some r else None | [] => None end.

Fixpoint ends_with_char (p : N) (s : str) : bool :=
  match s with [] => false | [c] => c =? p | _ :: r => ends_with_char p r end.

(** [str::strip_prefix] with a string pattern. *)
Fixpoint strip_prefix (p s : str) : option str :=
  match p, s with
  | [], s => Some s
  | a :: p, b :: s => if a =? b then strip_prefix p s else None
  | _ :: _, [] => None
  end.

(** [str::is_char_boundary] and the slice [&s[..i]] at a boundary. *)
Fixpoint is_char_boundary (s : str) (i : N) : bool :=
  (i =? 0) ||
  match s with
  | [] => false
  | c :: r => if i <? len_utf8 c then false else is_char_boundary r (i - len_utf8 c)
  end.

Fixpoint str_slice_to (s : str) (i : N) : str :=
  match s with
  | [] => []
  | c :: r => if i <? len_utf8 c then [] else c :: str_slice_to r (i - len_utf8 c)
  end.

(** ** Bounded text *)

Definition MAX_TEXT_BYTES : N := 256 * 1024.

Inductive ValueError :=
| InvalidText | TextLimitTooLarge | TextTooLarge | JsonLimitTooLarge
| JsonTooLarge | JsonTooDeep | JsonTooManyNodes | JsonSerialization.

#[export] Instance ValueError_eq_dec : EqDecision ValueError.
Proof. solve_decision. Defined.

Record BoundedText := mkBoundedText { as_str : str }.

#[export] Instance BoundedText_eq_dec : EqDecision BoundedText.
Proof. solve_decision. Defined.

Definition BoundedText_MAX_BYTES : N := MAX_TEXT_BYTES.

Definition BoundedText_new_with_max_bytes (value : str) (max_bytes : N) :
    result ValueError BoundedText :=
  guard_err (BoundedText_MAX_BYTES <? max_bytes) TextLimitTooLarge $
  guard_err (max_bytes <? str_len value) TextTooLarge $
  Ok (mkBoundedText value).

Definition BoundedText_new (value : str) : result ValueError BoundedText :=
  BoundedText_new_with_max_bytes value BoundedText_MAX_BYTES.

Definition byte_len (t : BoundedText) : N := str_len (as_str t).
Definition BoundedText_is_empty (t : BoundedText) : bool := str_is_empty (as_str t).

(** [BoundedTextVisitor]: deserialization of a string goes through [new]. *)
Definition BoundedText_visit_str (value : str) : result ValueError BoundedText :=
  BoundedText_new value.

(** ** Text validity and normalisation *)

Definition text_char_ok (c : N) : bool := negb (is_control c) || (c =? LF) || (c =? TAB).

Definition valid_text (value : str) (maximum : N) (allow_empty : bool) : bool :=
  (allow_empty || negb (str_is_empty value))
  && (str_len value <=? maximum)
  && forallb text_char_ok value.

(** [std::borrow::Cow<str>]. *)
Inductive cow := Borrowed (s : str) | Owned (s : str).
Definition cow_str (c : cow) : str := match c with Borrowed s | Owned s => s end.

(** The [while let Some(c) = chars.next()] loop with its one-character peek. *)
Fixpoint normalize_chars (s : str) : str :=
  match s with
  | [] => []
  | c :: rest =>
      if c =? CR then
        LF :: match rest with
              | d :: rest' => if d =? LF then normalize_chars rest' else normalize_chars rest
              | [] => []
              end
      else if (c =? LF) || (c =? TAB) then c :: normalize_chars rest
      else if is_control c then 32 :: normalize_chars rest
      else c :: normalize_chars rest
  end.

Definition normalize_model_text (value : str) : cow :=
  if valid_text value usize_MAX true then Borrowed value
  else Owned (normalize_chars value).

(** ** Facts about strings *)

Lemma len_utf8_pos c : 0 < len_utf8 c.
Proof. unfold len_utf8. repeat case_match; lia. Qed.

Lemma len_utf8_encode c : N.of_nat (length (encode_utf8 c)) = len_utf8 c.
Proof. unfold len_utf8, encode_utf8. repeat case_match; done. Qed.

Lemma str_bytes_cons c s : str_bytes (c :: s) = encode_utf8 c ++ str_bytes s.
Proof. done. Qed.

Lemma str_len_bytes s : N.of_nat (length (str_bytes s)) = str_len s.
Proof.
  induction s as [|c s IH]; [done|]. cbn [str_len].
  rewrite str_bytes_cons, length_app, Nat2N.inj_add, len_utf8_encode, IH. done.
Qed.

Lemma str_len_app a b : str_len (a ++ b) = str_len a + str_len b.
Proof. induction a; simpl; lia. Qed.

Lemma str_bytes_app a b : str_bytes (a ++ b) = str_bytes a ++ str_bytes b.
Proof. unfold str_bytes. apply bind_app. Qed.

Lemma str_len_0 s : str_len s = 0 ↔ s = [].
Proof. destruct s as [|c s]; simpl; [done|]. pose proof (len_utf8_pos c). split; [lia|done]. Qed.

Lemma str_is_empty_true s : str_is_empty s = true ↔ s = [].
Proof. by destruct s. Qed.

Lemma str_is_empty_false s : str_is_empty s = false ↔ s ≠ [].
Proof. by destruct s. Qed.

Lemma str_len_ge_length (s : str) : N.of_nat (length s) ≤ str_len s.
Proof. induction s as [|c s IH]; simpl; [lia|]. pose proof (len_utf8_pos c). lia. Qed.

Lemma BoundedText_new_with_max_bytes_Ok v m t :
  BoundedText_new_with_max_bytes v m = Ok t ↔
  m ≤ BoundedText_MAX_BYTES ∧ str_len v ≤ m ∧ t = mkBoundedText v.
Proof.
  unfold BoundedText_new_with_max_bytes. rewrite !guard_err_Ok, !N.ltb_ge.
  split; [intros (?&?&[=])|intros (?&?&->)]; auto.
Qed.

Lemma BoundedText_new_Ok v t :
  BoundedText_new v = Ok t ↔ str_len v ≤ BoundedText_MAX_BYTES ∧ t = mkBoundedText v.
Proof.
  unfold BoundedText_new. rewrite BoundedText_new_with_max_bytes_Ok.
  split; [intros (?&?&?)|intros (?&?)]; auto using N.le_refl.
Qed.

(** The order on strings. *)

Lemma bytes_cmp_refl a : bytes_cmp a a = Eq.
Proof. induction a as [|x a IH]; simpl; [done|]. by rewrite N.compare_refl. Qed.

Lemma bytes_cmp_eq a b : bytes_cmp a b = Eq ↔ a = b.
Proof.
  split; [|intros ->; apply bytes_cmp_refl].
  revert b. induction a as [|x a IH]; intros [|y b]; simpl; try done.
  destruct (x ?= y) eqn:E; try done.
  apply N.compare_eq_iff in E as ->. intros H. f_equal. auto.
Qed.

Lemma bytes_cmp_antisym a b : bytes_cmp b a = CompOpp (bytes_cmp a b).
Proof.
  revert b. induction a as [|x a IH]; intros [|y b]; simpl; try done.
  rewrite (N.compare_antisym x y). destruct (x ?= y); simpl; auto.
Qed.

Lemma bytes_cmp_trans a b c :
  bytes_cmp a b = Lt → bytes_cmp b c = Lt → bytes_cmp a c = Lt.
Proof.
  revert b c. induction a as [|x a IH]; intros [|y b] [|z c]; simpl; try done.
  destruct (x ?= y) eqn:E1; destruct (y ?= z) eqn:E2; try done;
    repeat match goal with
    | H : (_ ?= _) = Eq |- _ => apply N.compare_eq_iff in H; subst
    | H : (_ ?= _) = Lt |- _ => rewrite N.compare_lt_iff in H
    end.
  - rewrite N.compare_refl. eauto.
  - intros _ _. by apply N.compare_lt_iff in E2 as ->.
  - intros _ _. by apply N.compare_lt_iff in E1 as ->.
  - intros _ _. assert (x < z) as ->%N.compare_lt_iff by lia. done.
Qed.

Lemma str_slice_to_prefix s i : str_slice_to s i `prefix_of` s.
Proof.
  revert i. induction s as [|c s IH]; intros i; simpl; [done|].
  case_match; [apply prefix_nil|]. by apply prefix_cons.
Qed.

Lemma str_slice_to_len s i : is_char_boundary s i = true → str_len (str_slice_to s i) = i.
Proof.
  revert i. induction s as [|c s IH]; intros i; simpl.
  - rewrite orb_false_r. intros ->%N.eqb_eq. done.
  - pose proof (len_utf8_pos c). case_match; bools.
    + rewrite orb_false_r. intros ->%N.eqb_eq. done.
    + intros [Hi|Hb]%orb_true_iff; bools; [lia|]. simpl. rewrite (IH _ Hb). lia.
Qed.

Lemma str_slice_to_all s : str_slice_to s (str_len s) = s.
Proof.
  induction s as [|c s IH]; simpl; [done|].
  case_match; bools; [lia|].
  replace (len_utf8 c + str_len s - len_utf8 c) with (str_len s) by lia. by rewrite IH.
Qed.

(** A slice cut anywhere is the slice at the last boundary before it. *)
Lemma str_slice_to_le s i : str_len (str_slice_to s i) ≤ i.
Proof.
  revert i. induction s as [|c s IH]; intros i; simpl; [lia|].
  case_match; bools; simpl; [lia|]. specialize (IH (i - len_utf8 c)). lia.
Qed.

(** A slice keeps as many whole characters as fit. *)
Lemma str_slice_to_maximal s i c r :
  s = str_slice_to s i ++ c :: r → i < str_len (str_slice_to s i) + len_utf8 c.
Proof.
  revert i. induction s as [|d s IH]; intros i; simpl.
  - intros H. by destruct (str_slice_to [] i).
  - case_match; bools; simpl; [intros [= -> ->]; lia|].
    intros [= H']. specialize (IH _ H'). lia.
Qed.

(** ** Facts about normalisation *)

Lemma text_char_ok_CR : text_char_ok CR = false.
Proof. done. Qed.

Lemma valid_text_spec v m e :
  valid_text v m e = true ↔
  (e = true ∨ v ≠ []) ∧ str_len v ≤ m ∧ Forall (λ c, text_char_ok c = true) v.
Proof.
  unfold valid_text. rewrite !andb_true_iff, orb_true_iff, negb_true_iff,
    str_is_empty_false, N.leb_le, forallb_Forall. tauto.
Qed.

Lemma cow_str_normalize v : cow_str (normalize_model_text v) = normalize_chars v.
Proof.
  unfold normalize_model_text. destruct (valid_text v usize_MAX true) eqn:E; [|done].
  apply valid_text_spec in E as (_ & _ & H). simpl.
  induction H as [|c v Hc Hv IH]; [done|]. simpl.
  destruct (N.eqb_spec c CR) as [->|]; [done|].
  unfold text_char_ok in Hc.
  destruct ((c =? LF) || (c =? TAB)) eqn:E1; [by rewrite <- IH|].
  destruct (is_control c); [|by rewrite <- IH]. simpl in Hc. congruence.
Qed.

(** One character of the loop, and the two shapes of its step. *)
Definition normalize_char (c : N) : N :=
  if c =? CR then LF else if text_char_ok c then c else 32.

Definition crlf (c : N) (r : str) : bool :=
  (c =? CR) && match r with d :: _ => d =? LF | [] => false end.

Lemma normalize_chars_crlf r : normalize_chars (CR :: LF :: r) = LF :: normalize_chars r.
Proof. done. Qed.

Lemma normalize_chars_cons c r :
  crlf c r = false → normalize_chars (c :: r) = normalize_char c :: normalize_chars r.
Proof.
  unfold crlf, normalize_char, text_char_ok. simpl.
  destruct (c =? CR) eqn:E.
  - intros H. f_equal. destruct r as [|d r]; [done|]. simpl in H. by rewrite H.
  - intros _. destruct (c =? LF), (c =? TAB), (is_control c); done.
Qed.

Lemma crlf_true c r : crlf c r = true ↔ c = CR ∧ ∃ r', r = LF :: r'.
Proof.
  unfold crlf. split.
  - intros [->%N.eqb_eq H]%andb_true_iff. destruct r as [|d r]; [done|].
    apply N.eqb_eq in H as ->. eauto.
  - intros [-> [r' ->]]. done.
Qed.

Lemma normalize_ind (P : str → Prop) :
  P [] →
  (∀ r, P r → P (CR :: LF :: r)) →
  (∀ c r, crlf c r = false → P r → P (c :: r)) →
  ∀ s, P s.
Proof.
  intros H0 H2 H1 s. cut (P s ∧ ∀ c, P (c :: s)); [tauto|].
  induction s as [|c s [IH IHc]].
  - split; [done|]. intros c. apply H1; [|done]. unfold crlf. by rewrite andb_false_r.
  - split; [done|]. intros d. destruct (crlf d (c :: s)) eqn:E; [|auto].
    apply crlf_true in E as [-> [r' [= -> ->]]]. auto.
Qed.

Lemma normalize_char_ok c : text_char_ok (normalize_char c) = true.
Proof. unfold normalize_char. repeat case_match; bools; done. Qed.

Lemma normalize_char_len c : len_utf8 (normalize_char c) ≤ len_utf8 c.
Proof.
  unfold normalize_char. pose proof (len_utf8_pos c).
  repeat case_match; bools; subst; change (len_utf8 LF) with 1; change (len_utf8 32) with 1; lia.
Qed.

Lemma normalize_char_id c : text_char_ok c = true → normalize_char c = c.
Proof.
  unfold normalize_char. intros H. rewrite H. case_match; bools; [|done]. by subst.
Qed.

Lemma normalize_chars_ok s : Forall (λ c, text_char_ok c = true) (normalize_chars s).
Proof.
  induction s as [|r IH|c r Hc IH] using normalize_ind; [constructor|..].
  - rewrite normalize_chars_crlf. by constructor.
  - rewrite normalize_chars_cons by done. constructor; [apply normalize_char_ok|done].
Qed.

Lemma normalize_chars_len s : str_len (normalize_chars s) ≤ str_len s.
Proof.
  induction s as [|r IH|c r Hc IH] using normalize_ind; [done|..].
  - rewrite normalize_chars_crlf. simpl. change (len_utf8 LF) with 1. change (len_utf8 CR) with 1. lia.
  - rewrite normalize_chars_cons by done. simpl. pose proof (normalize_char_len c). lia.
Qed.

Lemma normalize_chars_id s : Forall (λ c, text_char_ok c = true) s → normalize_chars s = s.
Proof.
  induction 1 as [|c s Hc Hs IH]; [done|].
  rewrite normalize_chars_cons, IH, normalize_char_id; [done|done|].
  apply not_true_iff_false. intros [-> _]%crlf_true. done.
Qed.

Lemma normalize_chars_nil s : normalize_chars s = [] ↔ s = [].
Proof.
  destruct s as [|c s]; [done|]. simpl. repeat case_match; done.
Qed.

(** Normalising a concatenation: a CRLF pair may straddle the cut. *)
Lemma normalize_chars_app a b :
  normalize_chars (a ++ b) =
  normalize_chars a ++
  normalize_chars (if ends_with_char CR a then default b (strip_prefix_char LF b) else b).
Proof.
  induction a as [|r IH|c r Hc IH] using normalize_ind; [done|..].
  - rewrite <- !app_comm_cons, !normalize_chars_crlf, IH. simpl. by destruct r.
  - destruct r as [|d r].
    + simpl (ends_with_char CR [c]). destruct b as [|e b].
      { rewrite (app_nil_r [c]).
        replace (if c =? CR then _ else _) with (@nil N) by (by destruct (c =? CR)).
        by rewrite app_nil_r. }
      rewrite (normalize_chars_cons c []) by done. change ([c] ++ e :: b) with (c :: e :: b).
      simpl strip_prefix_char. destruct (crlf c (e :: b)) eqn:E.
      * apply crlf_true in E as [-> [b' [= -> ->]]]. done.
      * rewrite normalize_chars_cons by done. unfold crlf in E.
        destruct (c =? CR); [|done]. simpl in E. by rewrite E.
    + rewrite (normalize_chars_cons c (d :: r)) by done.
      rewrite <- app_comm_cons, (normalize_chars_cons c (((d :: r) ++ b))) by done.
      by rewrite IH.
Qed.

#[export] Hint Resolve normalize_chars_ok normalize_chars_len normalize_char_ok : runtime.

(** ** Property *)

(** C39: text that enters a model message is made legal, and only when it has to
    be. The normalised text holds no control character but line feeds and tabs, is
    never longer in bytes and is empty only for an empty input; normalising twice
    changes nothing; and the text is borrowed, unchanged, exactly when it was legal
    as it came (on the machine's address range). *)
Theorem normalize_model_text_spec (value : str) :
  let text := cow_str (normalize_model_text value) in
  Forall (λ c, text_char_ok c = true) text ∧ str_len text ≤ str_len value ∧
  (text = [] ↔ value = []) ∧ cow_str (normalize_model_text text) = text ∧
  (normalize_model_text value = Borrowed value ↔ valid_text value usize_MAX true = true) ∧
  (text = value ↔ Forall (λ c, text_char_ok c = true) value).
Proof.
  cbv zeta. rewrite !cow_str_normalize. pose proof (normalize_chars_ok value) as Hok.
  split_and!; auto using normalize_chars_len, normalize_chars_nil, normalize_chars_id.
  - unfold normalize_model_text. by destruct (valid_text value usize_MAX true).
  - split; [congruence|]. apply normalize_chars_id.
Qed.
