(* ===== verification/Json.v ===== *)
(** * JSON values: bounds and provider replay

    Models the JSON half of src/src/value.rs ([validate_json_size],
    [validate_json_shape], [JsonCountingWriter], [json_bytes]) and
    src/src/model/replay.rs ([ProviderReplay]). The crate [serde_json] is a
    parameter: the class [SerdeJson] names the operations the code calls and
    [SerdeJsonLaws] the documented facts the theorems rely on. *)

From S2P Require Import Prelude Text.
Local Open Scope N_scope.

(** ** [serde_json::Value] and the operations used from the crate *)

Class SerdeNumber := {
  number : Type;
  number_eq_dec :: EqDecision number;
  number_as_u64 : number → option N;
  number_of_u64 : N → number;
}.

Inductive Value `{SerdeNumber} :=
| JNull
| JBool (b : bool)
| JNumber (n : number)
| JString (s : str)
| JArray (vs : list Value)
| JObject (kvs : list (str * Value)).

(** [serde_json::to_writer] hands the compact encoding to the writer piece by
    piece; [to_writer_chunks] lists the pieces (each a list of bytes). A struct
    is written as the object of its fields. *)
Class SerdeJson := {
  sj_number :: SerdeNumber;
  to_writer_chunks : Value → list (list N);
  to_string : Value → str;
  from_str : str → option Value;
}.

Class SerdeJsonLaws `{SerdeJson} : Prop := {
  to_string_bytes : ∀ v, str_bytes (to_string v) = concat (to_writer_chunks v);
}.

Class SerdeNumberLaws `{SerdeNumber} : Prop := {
  number_as_u64_of_u64 : ∀ n, n ≤ u64_MAX → number_as_u64 (number_of_u64 n) = Some n;
}.

Section value.
Context `{SerdeNumber}.

Fixpoint Value_rect' (P : Value → Prop)
    (Hnull : P JNull) (Hbool : ∀ b, P (JBool b)) (Hnum : ∀ n, P (JNumber n))
    (Hstr : ∀ s, P (JString s))
    (Harr : ∀ vs, Forall P vs → P (JArray vs))
    (Hobj : ∀ kvs, Forall (λ kv, P kv.2) kvs → P (JObject kvs)) (v : Value) : P v :=
  let rec := Value_rect' P Hnull Hbool Hnum Hstr Harr Hobj in
  match v with
  | JNull => Hnull
  | JBool b => Hbool b
  | JNumber n => Hnum n
  | JString s => Hstr s
  | JArray vs =>
      Harr vs ((fix go vs : Forall P vs :=
        match vs with [] => Forall_nil_2 _ | v :: vs => Forall_cons_2 _ _ _ (rec v) (go vs) end) vs)
  | JObject kvs =>
      Hobj kvs ((fix go kvs : Forall (λ kv, P kv.2) kvs :=
        match kvs with
        | [] => Forall_nil_2 _
        | (k, v) :: kvs => Forall_cons_2 (λ kv, P kv.2) (k, v) kvs (rec v) (go kvs)
        end) kvs)
  end.

#[export] Instance Value_eq_dec : EqDecision Value.
Proof.
  refine (fix go (v w : Value) : Decision (v = w) :=
    let _ : EqDecision Value := go in
    match v, w with
    | JNull, JNull => left eq_refl
    | JBool a, JBool b => cast_if (decide (a = b))
    | JNumber a, JNumber b => cast_if (decide (a = b))
    | JString a, JString b => cast_if (decide (a = b))
    | JArray a, JArray b => cast_if (decide (a = b))
    | JObject a, JObject b => cast_if (decide (a = b))
    | _, _ => right _
    end); abstract congruence.
Defined.

Definition is_object (v : Value) : bool :=
  match v with JObject _ => true | _ => false end.

(** The number of nodes of a value, and the depth of its deepest node (the root
    has depth zero): the reference the bounds are stated against. *)
Fixpoint json_nodes (v : Value) : N :=
  match v with
  | JArray vs => 1 + foldr (λ v n, json_nodes v + n) 0 vs
  | JObject kvs => 1 + foldr (λ kv n, json_nodes kv.2 + n) 0 kvs
  | _ => 1
  end.

Fixpoint json_depth (v : Value) : N :=
  match v with
  | JArray vs => foldr (λ v n, N.max (1 + json_depth v) n) 0 vs
  | JObject kvs => foldr (λ kv n, N.max (1 + json_depth kv.2) n) 0 kvs
  | _ => 0
  end.

(** ** The pre-order walk with a running node counter

    [entry depth nodes] is what the function does on entering a node: its
    checks, and the incremented counter. [values_of] are the children, visited
    in order with [depth + 1]. *)
Fixpoint visit_shape {E : Type} (entry : N → N → result E N)
    (value : Value) (depth nodes : N) : result E N :=
  nodes ← entry depth nodes;
  match value with
  | JArray values =>
      (fix go values nodes : result E N :=
        match values with
        | [] => Ok nodes
        | v :: values => nodes ← visit_shape entry v (depth + 1) nodes; go values nodes
        end) values nodes
  | JObject values =>
      (fix go values nodes : result E N :=
        match values with
        | [] => Ok nodes
        | kv :: values => nodes ← visit_shape entry kv.2 (depth + 1) nodes; go values nodes
        end) values nodes
  | JNull | JBool _ | JNumber _ | JString _ => Ok nodes
  end.

Definition MAX_JSON_BYTES : N := 64 * 1024.
Definition MAX_JSON_DEPTH : N := 32.
Definition MAX_JSON_NODES : N := 4096.

Definition json_shape_entry (depth nodes : N) : result ValueError N :=
  guard_err (MAX_JSON_DEPTH <? depth) JsonTooDeep $
  let nodes := nodes + 1 in
  guard_err (MAX_JSON_NODES <? nodes) JsonTooManyNodes $
  Ok nodes.

Definition validate_json_shape (value : Value) (depth nodes : N) : result ValueError N :=
  visit_shape json_shape_entry value depth nodes.
End value.
Arguments Value : clear implicits.
Arguments Value {_}.

(** ** Counting writers *)

(** [std::io::Write::write_all] as [serde_json] drives it: each non-empty piece
    is written; the first failing write ends the serialization with an error. *)
Section write_all.
  Context {W : Type} (write : W → N → result unit W).

Fixpoint write_pieces (w : W) (pieces : list (list N)) : result unit W :=
  match pieces with
  | [] => Ok w
  | p :: pieces =>
      match p with
      | [] => write_pieces w pieces
      | _ => w ← write w (N.of_nat (length p)); write_pieces w pieces
      end
  end.
End write_all.

Record JsonCountingWriter := mkJsonCountingWriter {
  jw_max_bytes : N;
  jw_written : N;
  jw_exceeded : bool;
}.

Definition JsonCountingWriter_new (max_bytes : N) : JsonCountingWriter :=
  mkJsonCountingWriter max_bytes 0 false.

(** [write] mutates the writer and returns [io::Result<usize>]: the pair of the
    writer afterwards and whether the call succeeded. *)
Definition JsonCountingWriter_write (w : JsonCountingWriter) (len : N) :
    JsonCountingWriter * bool :=
  let remaining := saturating_sub (jw_max_bytes w) (jw_written w) in
  if remaining <? len then
    (mkJsonCountingWriter (jw_max_bytes w) (jw_written w) true, false)
  else
    (mkJsonCountingWriter (jw_max_bytes w) (jw_written w + len) (jw_exceeded w), true).

(** [serde_json::to_writer(&mut sink, value)]: the sink afterwards and whether
    serialization succeeded. *)
Fixpoint counting_to_writer (w : JsonCountingWriter) (pieces : list (list N)) :
    JsonCountingWriter * bool :=
  match pieces with
  | [] => (w, true)
  | [] :: pieces => counting_to_writer w pieces
  | p :: pieces =>
      match JsonCountingWriter_write w (N.of_nat (length p)) with
      | (w, true) => counting_to_writer w pieces
      | (w, false) => (w, false)
      end
  end.

Section json.
Context `{SerdeJson}.

Definition validate_json_size (value : Value) (max_bytes : N) : result ValueError () :=
  guard_err (MAX_JSON_BYTES <? max_bytes) JsonLimitTooLarge $
  _ ← validate_json_shape value 0 0;
  match counting_to_writer (JsonCountingWriter_new max_bytes) (to_writer_chunks value) with
  | (_, true) => Ok ()
  | (sink, false) => if jw_exceeded sink then Err JsonTooLarge else Err JsonSerialization
  end.

(** [json_bytes]: [None] is the panic of [expect]. *)
Definition json_bytes (value : Value) : option N :=
  match counting_to_writer (JsonCountingWriter_new usize_MAX) (to_writer_chunks value) with
  | (sink, true) => Some (jw_written sink)
  | (_, false) => None
  end.

(** The length in bytes of the compact encoding. *)
Definition json_len (value : Value) : N :=
  N.of_nat (length (concat (to_writer_chunks value))).

(** ** Provider replay (src/src/model/replay.rs) *)

Definition REPLAY_MAX_BYTES : N := 256 * 1024.
Definition REPLAY_MAX_DEPTH : N := 32.
Definition REPLAY_MAX_NODES : N := 16384.

Record ProviderReplay := mkProviderReplay {
  pr_format : str;
  pr_payload : Value;
  pr_bytes : N;
}.

#[export] Instance ProviderReplay_eq_dec : EqDecision ProviderReplay.
Proof. solve_decision. Defined.

(** Every rejection is the one error [ModelValueError::InvalidProviderReplay]. *)
Inductive ReplayError := InvalidProviderReplay.

Definition replay_shape_entry (depth nodes : N) : result ReplayError N :=
  let nodes := nodes + 1 in
  guard_err ((REPLAY_MAX_DEPTH <? depth) || (REPLAY_MAX_NODES <? nodes))
    InvalidProviderReplay $
  Ok nodes.

Definition validate_shape (value : Value) (depth nodes : N) : result ReplayError N :=
  visit_shape replay_shape_entry value depth nodes.

Definition symbolic_byte (b : N) : bool :=
  is_ascii_alphanumeric b || (b =? 95) || (b =? 45) || (b =? 46) || (b =? 58) || (b =? 47).

(** [CountingWriter::write]. *)
Definition CountingWriter_write (written : N) (len : N) : result unit N :=
  if saturating_sub REPLAY_MAX_BYTES written <? len then Err ()
  else Ok (written + len).

(** The envelope the [Serialize] derive writes: [bytes] is skipped. *)
Definition replay_envelope (format : str) (payload : Value) : Value :=
  JObject [(lit "format", JString format); (lit "payload", payload)].

Definition ProviderReplay_new (format : str) (payload : Value) :
    result ReplayError ProviderReplay :=
  guard_err (str_is_empty format || (128 <? str_len format)
             || negb (forallb symbolic_byte (str_bytes format)))
    InvalidProviderReplay $
  _ ← validate_shape payload 0 0;
  let replay := mkProviderReplay format payload 0 in
  written ← map_err (λ _, InvalidProviderReplay)
    (write_pieces CountingWriter_write 0 (to_writer_chunks (replay_envelope format payload)));
  Ok (mkProviderReplay format payload written).
End json.

(** ** Facts *)

Section visit.
Context `{SerdeNumber} {E : Type} (entry : N → N → result E N) (D M : N).
Hypothesis entry_spec : ∀ d n m, entry d n = Ok m ↔ d ≤ D ∧ n + 1 ≤ M ∧ m = n + 1.

(** A list of children, each visited at depth [d]. *)
Fixpoint visit_all (vs : list Value) (d n : N) : result E N :=
  match vs with
  | [] => Ok n
  | v :: vs => n ← visit_shape entry v d n; visit_all vs d n
  end.

Lemma visit_shape_array vs d n :
  visit_shape entry (JArray vs) d n = (n ← entry d n; visit_all vs (d + 1) n).
Proof.
  simpl. destruct (entry d n) as [m|]; [|done]. simpl.
  revert m. induction vs as [|v vs IH]; intros m; [done|]. simpl.
  by destruct (visit_shape entry v (d + 1) m); simpl.
Qed.

Lemma visit_shape_object kvs d n :
  visit_shape entry (JObject kvs) d n = (n ← entry d n; visit_all (kvs.*2) (d + 1) n).
Proof.
  simpl. destruct (entry d n) as [m|]; [|done]. simpl.
  revert m. induction kvs as [|[k v] kvs IH]; intros m; [done|]. simpl.
  by destruct (visit_shape entry v (d + 1) m); simpl.
Qed.

Lemma json_nodes_object kvs : json_nodes (JObject kvs) = json_nodes (JArray (kvs.*2)).
Proof.
  cbn [json_nodes]. f_equal. induction kvs as [|[k v] kvs IH]; [done|].
  cbn [foldr fmap list_fmap snd]. by rewrite IH.
Qed.

Lemma json_depth_object kvs : json_depth (JObject kvs) = json_depth (JArray (kvs.*2)).
Proof.
  cbn [json_depth]. induction kvs as [|[k v] kvs IH]; [done|].
  cbn [foldr fmap list_fmap snd]. by rewrite IH.
Qed.

(** An error of the walk is an error of one of its entries. *)
Lemma visit_all_Err vs e :
  Forall (λ v, ∀ d n, visit_shape entry v d n = Err e → ∃ d' n', entry d' n' = Err e) vs →
  ∀ d n, visit_all vs d n = Err e → ∃ d' n', entry d' n' = Err e.
Proof.
  induction 1 as [|v vs Hv Hvs IH]; intros d n; [done|]. cbn [visit_all].
  intros [?|(? & _ & ?)]%result_bind_Err; eauto.
Qed.

Lemma visit_shape_Err v e : ∀ d n,
  visit_shape entry v d n = Err e → ∃ d' n', entry d' n' = Err e.
Proof.
  induction v as [| | | |vs IH|kvs IH] using Value_rect'; intros d0 n0;
    rewrite ?visit_shape_array, ?visit_shape_object.
  1-4: cbn [visit_shape]; destruct (entry d0 n0) eqn:He; simpl; [done|intros [= ->]; eauto].
  - intros [?|(? & _ & ?)]%result_bind_Err; [eauto|]. by eapply visit_all_Err.
  - intros [?|(? & _ & ?)]%result_bind_Err; [eauto|].
    eapply visit_all_Err; [|done]. by apply Forall_fmap.
Qed.

Lemma visit_all_spec vs :
  Forall (λ v, ∀ d n m, visit_shape entry v d n = Ok m ↔
     d + json_depth v ≤ D ∧ n + json_nodes v ≤ M ∧ m = n + json_nodes v) vs →
  ∀ d n m, d ≤ D → n ≤ M →
  visit_all vs (d + 1) n = Ok m ↔
    d + json_depth (JArray vs) ≤ D ∧ n + json_nodes (JArray vs) ≤ M + 1 ∧
    m + 1 = n + json_nodes (JArray vs).
Proof.
  induction 1 as [|v vs Hv Hvs IH]; intros d n m Hd Hn.
  - simpl. split; [intros [= ->]; lia|intros (?&?&?); f_equal; lia].
  - cbn [visit_all]. rewrite result_bind_Ok. cbn [json_depth json_nodes foldr] in *.
    split.
    + intros (k & Hk & Hm). apply Hv in Hk as (?&?&->). apply IH in Hm; lia.
    + intros (?&?&?). exists (n + json_nodes v). split; [apply Hv; lia|].
      apply IH; lia.
Qed.

Lemma visit_shape_spec v : ∀ d n m,
  visit_shape entry v d n = Ok m ↔
  d + json_depth v ≤ D ∧ n + json_nodes v ≤ M ∧ m = n + json_nodes v.
Proof.
  assert (Hleaf : ∀ d n m, (n0 ← entry d n; Ok n0) = Ok m ↔
    d + 0 ≤ D ∧ n + 1 ≤ M ∧ m = n + 1).
  { intros d n m. rewrite result_bind_Ok, N.add_0_r. split.
    - intros (k & ?%entry_spec & [= ->]). done.
    - intros ?%entry_spec. eauto. }
  assert (Harr : ∀ vs, Forall (λ v, ∀ d n m, visit_shape entry v d n = Ok m ↔
     d + json_depth v ≤ D ∧ n + json_nodes v ≤ M ∧ m = n + json_nodes v) vs →
     ∀ d n m, (n0 ← entry d n; visit_all vs (d + 1) n0) = Ok m ↔
     d + json_depth (JArray vs) ≤ D ∧ n + json_nodes (JArray vs) ≤ M ∧
     m = n + json_nodes (JArray vs)).
  { intros vs Hvs d n m. rewrite result_bind_Ok. pose proof (visit_all_spec vs Hvs d) as Hall.
    assert (1 ≤ json_nodes (JArray vs)) by (simpl; lia). split.
    - intros (k & (?&?&->)%entry_spec & Hm). apply Hall in Hm; lia.
    - intros (?&?&?). exists (n + 1). rewrite entry_spec, Hall by lia. lia. }
  induction v as [| | | |vs IH|kvs IH] using Value_rect'; intros d k m; try apply Hleaf.
  - rewrite visit_shape_array. by apply Harr.
  - rewrite visit_shape_object, json_depth_object, json_nodes_object.
    apply Harr. by apply Forall_map.
Qed.
End visit.

Lemma json_nodes_pos `{SerdeNumber} v : 1 ≤ json_nodes v.
Proof. destruct v; simpl; lia. Qed.

Section json_facts.
Context `{SerdeJson}.

Lemma validate_json_shape_spec v n :
  validate_json_shape v 0 0 = Ok n ↔
  json_depth v ≤ MAX_JSON_DEPTH ∧ json_nodes v ≤ MAX_JSON_NODES ∧ n = json_nodes v.
Proof.
  unfold validate_json_shape.
  rewrite (visit_shape_spec _ MAX_JSON_DEPTH MAX_JSON_NODES); [done|].
  intros d k m. unfold json_shape_entry. rewrite !guard_err_Ok, !N.ltb_ge.
  split; [intros (?&?&[=])|intros (?&?&->)]; auto.
Qed.

Lemma validate_shape_spec v n :
  validate_shape v 0 0 = Ok n ↔
  json_depth v ≤ REPLAY_MAX_DEPTH ∧ json_nodes v ≤ REPLAY_MAX_NODES ∧ n = json_nodes v.
Proof.
  unfold validate_shape.
  rewrite (visit_shape_spec _ REPLAY_MAX_DEPTH REPLAY_MAX_NODES); [done|].
  intros d k m. unfold replay_shape_entry. rewrite !guard_err_Ok, orb_false_iff, !N.ltb_ge.
  split; [intros ([??]&[=])|intros (?&?&->)]; auto.
Qed.

Lemma counting_to_writer_spec ps : ∀ max w,
  w ≤ max →
  let total := w + N.of_nat (length (concat ps)) in
  (total ≤ max →
    counting_to_writer (mkJsonCountingWriter max w false) ps
    = (mkJsonCountingWriter max total false, true)) ∧
  (max < total →
    ∃ w', counting_to_writer (mkJsonCountingWriter max w false) ps
    = (mkJsonCountingWriter max w' true, false)).
Proof.
  induction ps as [|p ps IH]; intros max w Hw total; subst total.
  - simpl. rewrite N.add_0_r. split; [done|lia].
  - simpl concat. rewrite length_app, Nat2N.inj_add. destruct p as [|b p].
    { simpl. rewrite N.add_0_l. by apply IH. }
    cbn [counting_to_writer].
    unfold JsonCountingWriter_write, saturating_sub. cbn [jw_max_bytes jw_written jw_exceeded].
    destruct (N.ltb_spec (max - w) (N.of_nat (length (b :: p)))).
    + split; [lia|]. intros _. eauto.
    + destruct (IH max (w + N.of_nat (length (b :: p)))) as [IH1 IH2]; [lia|].
      rewrite <- N.add_assoc in IH1, IH2. done.
Qed.

Lemma replay_write_spec ps : ∀ w t,
  w ≤ REPLAY_MAX_BYTES →
  write_pieces CountingWriter_write w ps = Ok t ↔
  t = w + N.of_nat (length (concat ps)) ∧ t ≤ REPLAY_MAX_BYTES.
Proof.
  induction ps as [|p ps IH]; intros w t Hw.
  - simpl. rewrite N.add_0_r. split; [intros [= ->]|intros [-> ?]]; auto.
  - simpl. rewrite length_app, Nat2N.inj_add. destruct p as [|b p].
    { simpl. rewrite N.add_0_l. by apply IH. }
    set (k := N.of_nat (length (b :: p))).
    assert (Hk : CountingWriter_write w k =
      if REPLAY_MAX_BYTES - w <? k then Err () else Ok (w + k)) by done.
    rewrite Hk. destruct (N.ltb_spec (REPLAY_MAX_BYTES - w) k); simpl.
    + split; [done|lia].
    + rewrite IH by lia. rewrite N.add_assoc. done.
Qed.

Lemma json_bytes_spec v : json_len v ≤ usize_MAX → json_bytes v = Some (json_len v).
Proof.
  intros Hv. unfold json_bytes, JsonCountingWriter_new.
  destruct (counting_to_writer_spec (to_writer_chunks v) usize_MAX 0) as [H1 _]; [lia|].
  rewrite N.add_0_l in H1. rewrite (H1 Hv). done.
Qed.

Lemma json_bytes_None v : json_bytes v = None → usize_MAX < json_len v.
Proof.
  intros E. destruct (N.le_gt_cases (json_len v) usize_MAX) as [Hl|Hl]; [|done].
  by rewrite json_bytes_spec in E.
Qed.

Lemma json_bytes_Some v n : json_bytes v = Some n → n = json_len v ∧ json_len v ≤ usize_MAX.
Proof.
  unfold json_bytes, JsonCountingWriter_new. intros E.
  destruct (counting_to_writer_spec (to_writer_chunks v) usize_MAX 0) as [H1 H2]; [lia|].
  rewrite N.add_0_l in H1, H2.
  destruct (N.le_gt_cases (json_len v) usize_MAX) as [Hl|Hl].
  - rewrite (H1 Hl) in E. by injection E as <-.
  - destruct (H2 Hl) as [w' Hw]. by rewrite Hw in E.
Qed.
End json_facts.

(** ** Properties *)

Section json_properties.
Context `{SerdeJson}.

Lemma validate_json_size_exact (v : Value) (max : N) :
  (validate_json_size v max = Ok () ↔
   max ≤ MAX_JSON_BYTES ∧ json_depth v ≤ MAX_JSON_DEPTH ∧
   json_nodes v ≤ MAX_JSON_NODES ∧ json_len v ≤ max) ∧
  validate_json_size v max ≠ Err JsonSerialization.
Proof.
  unfold validate_json_size, json_len, JsonCountingWriter_new.
  destruct (counting_to_writer_spec (to_writer_chunks v) max 0) as [H1 H2]; [lia|].
  rewrite N.add_0_l in H1, H2. unfold guard_err.
  destruct (N.ltb_spec MAX_JSON_BYTES max); [split; [split; [done|lia]|done]|].
  destruct (validate_json_shape v 0 0) as [n|e] eqn:E; simpl.
  - apply validate_json_shape_spec in E as (?&?&->).
    destruct (N.le_gt_cases (N.of_nat (length (concat (to_writer_chunks v)))) max) as [Hl|Hl].
    + rewrite (H1 Hl). split; [tauto|done].
    + destruct (H2 Hl) as [w' ->]. simpl. split; [split; [done|lia]|done].
  - split.
    + split; [done|]. intros (_ & ? & ? & _).
      assert (validate_json_shape v 0 0 = Ok (json_nodes v)) as E'
        by (by apply validate_json_shape_spec).
      congruence.
    + intros [= ->].
      apply visit_shape_Err in E as (d & n & E).
      unfold json_shape_entry, guard_err in E. by repeat case_match.
Qed.

(** C40: [validate_json_size] accepts exactly the values that are within the
    requested byte budget of their compact encoding (itself at most 64 KiB), at
    most 32 levels deep and at most 4096 nodes large; and it never reports a
    serialization failure, whatever the value. *)
Theorem validate_json_size_spec (v : Value) (max : N) :
  (validate_json_size v max = Ok () ↔
   max ≤ MAX_JSON_BYTES ∧ json_depth v ≤ MAX_JSON_DEPTH ∧
   json_nodes v ≤ MAX_JSON_NODES ∧ json_len v ≤ max) ∧
  validate_json_size v max ≠ Err JsonSerialization.
Proof. apply validate_json_size_exact. Qed.

Lemma ProviderReplay_new_Ok (format : str) (payload : Value) (r : ProviderReplay) :
  ProviderReplay_new format payload = Ok r ↔
  (format ≠ [] ∧ str_len format ≤ 128 ∧
   Forall (λ b, symbolic_byte b = true) (str_bytes format)) ∧
  json_depth payload ≤ REPLAY_MAX_DEPTH ∧ json_nodes payload ≤ REPLAY_MAX_NODES ∧
  json_len (replay_envelope format payload) ≤ REPLAY_MAX_BYTES ∧
  r = mkProviderReplay format payload (json_len (replay_envelope format payload)).
Proof.
  unfold ProviderReplay_new. rewrite guard_err_Ok, !orb_false_iff, str_is_empty_false,
    N.ltb_ge, negb_false_iff, forallb_Forall, result_bind_Ok.
  split.
  - intros ([[??]?] & n & (?&?&->)%validate_shape_spec & H').
    apply result_bind_Ok in H' as (w & Hw & [= <-]). apply map_err_Ok in Hw.
    apply replay_write_spec in Hw as [-> Hl]; [|lia]. rewrite N.add_0_l in *.
    unfold json_len. auto 10.
  - intros ((?&?&?) & ? & ? & ? & ->). split; [done|]. exists (json_nodes payload).
    split; [by apply validate_shape_spec|].
    cbn zeta. rewrite (proj2 (map_err_Ok _ _ (json_len (replay_envelope format payload)))).
    + done.
    + apply replay_write_spec; [lia|]. done.
Qed.

End json_properties.

(** ** A small instance of the parameters

    Enough of a JSON printer for the witnesses: unsigned numbers, escapes for the
    quote and the backslash, one chunk; the parser reads the empty object. *)
Module demo.

Fixpoint digits (fuel : nat) (n : N) : str :=
  match fuel with
  | O => []
  | S fuel => (if n <? 10 then [] else digits fuel (n / 10)) ++ [48 + n mod 10]
  end.

Definition quote (s : str) : str :=
  [34] ++ (s ≫= λ c, if (c =? 34) || (c =? 92) then [92; c] else [c]) ++ [34].

#[export] Instance number : SerdeNumber := {
  number := N;
  number_as_u64 n := if n <=? u64_MAX then Some n else None;
  number_of_u64 n := n;
}.

Fixpoint join (l : list str) : str :=
  match l with [] => [] | [x] => x | x :: l => x ++ [44] ++ join l end.

Fixpoint render (v : Value) : str :=
  match v with
  | JNull => lit "null"
  | JBool b => if b then lit "true" else lit "false"
  | JNumber n => digits 20 n
  | JString s => quote s
  | JArray vs => [91] ++ join (map render vs) ++ [93]
  | JObject kvs => [123] ++ join (map (λ kv, quote kv.1 ++ [58] ++ render kv.2) kvs) ++ [125]
  end.

#[export] Instance json : SerdeJson := {
  sj_number := number;
  to_writer_chunks v := [str_bytes (render v)];
  to_string := render;
  from_str s := if bool_decide (s = lit "{}") then Some (JObject []) else None;
}.

#[export] Instance number_laws : SerdeNumberLaws.
Proof. split. intros n Hn. simpl. by rewrite (proj2 (N.leb_le _ _) Hn). Qed.

#[export] Instance json_laws : SerdeJsonLaws.
Proof. split. intros v. simpl. by rewrite app_nil_r. Qed.
End demo.
