(* ===== verification/Ids.v ===== *)
(** * Identifiers

    Models src/src/ids.rs (runtime identifiers and [ToolCallId]), [ToolName] of
    src/src/tools/types.rs and [ModelRef] of src/src/model/model_ref.rs. The
    source of random bytes is a parameter: the list of results successive calls
    of [getrandom::fill] give. *)

From S2P Require Import Prelude Text.
Local Open Scope N_scope.

(** ** Runtime identifiers: 16 bytes written as a prefix and 32 hex digits *)

Inductive IdError := InvalidPrefix | IdInvalidLength | InvalidHex | ZeroPayload | EntropyUnavailable.

#[export] Instance IdError_eq_dec : EqDecision IdError.
Proof. solve_decision. Defined.

Definition decode_lower_hex (value : N) : option N :=
  if (48 <=? value) && (value <=? 57) then Some (value - 48)
  else if (97 <=? value) && (value <=? 102) then Some (value - 97 + 10)
  else None.

(** The loop over [as_chunks::<2>()]: a trailing odd byte is not visited. *)
Fixpoint decode_hex_pairs (payload : list N) : result IdError (list N) :=
  match payload with
  | high :: low :: rest =>
      high ← ok_or (decode_lower_hex high) InvalidHex;
      low ← ok_or (decode_lower_hex low) InvalidHex;
      bytes ← decode_hex_pairs rest;
      Ok (N.lor (N.shiftl high 4) low :: bytes)
  | _ => Ok []
  end.

Definition decode_runtime_id (value prefix : str) : result IdError (list N) :=
  payload ← ok_or (strip_prefix prefix value) InvalidPrefix;
  guard_err (negb (str_len payload =? 32)) IdInvalidLength $
  bytes ← decode_hex_pairs (str_bytes payload);
  guard_err (forallb (λ b, b =? 0) bytes) ZeroPayload $
  Ok bytes.

Definition hex_digit (d : N) : N := if d <? 10 then 48 + d else 97 + (d - 10).

Definition encode_runtime_id (prefix : str) (bytes : list N) : str :=
  prefix ++ (bytes ≫= λ b, [hex_digit (N.shiftr b 4); hex_digit (N.land b 15)]).

(** [random_nonzero_bytes]: loops until a fill is not all zero. [fills] is what
    the successive fills give ([None]: it fails); past its end the source fails, so
    it never gives zeros for ever. *)
Fixpoint random_nonzero_bytes (fills : list (option (list N))) :
    result IdError (list N) * list (option (list N)) :=
  match fills with
  | [] => (Err EntropyUnavailable, [])
  | None :: fills => (Err EntropyUnavailable, fills)
  | Some bytes :: fills =>
      if existsb (λ b, negb (b =? 0)) bytes then (Ok bytes, fills)
      else random_nonzero_bytes fills
  end.

(** The newtypes [InteractionId] and [LoopId] over [[u8; 16]]. *)
Record InteractionId := mkInteractionId { interaction_id_bytes : list N }.
Record LoopId := mkLoopId { loop_id_bytes : list N }.

#[export] Instance InteractionId_eq_dec : EqDecision InteractionId.
Proof. solve_decision. Defined.
#[export] Instance LoopId_eq_dec : EqDecision LoopId.
Proof. solve_decision. Defined.

Definition InteractionId_from_str (value : str) : result IdError InteractionId :=
  mkInteractionId <$> decode_runtime_id value (lit "int_").
Definition LoopId_from_str (value : str) : result IdError LoopId :=
  mkLoopId <$> decode_runtime_id value (lit "lup_").
Definition InteractionId_to_string (id : InteractionId) : str :=
  encode_runtime_id (lit "int_") (interaction_id_bytes id).
Definition LoopId_to_string (id : LoopId) : str :=
  encode_runtime_id (lit "lup_") (loop_id_bytes id).

Definition InteractionId_new (fills : list (option (list N))) :
    result IdError InteractionId * list (option (list N)) :=
  let '(bytes, fills) := random_nonzero_bytes fills in (mkInteractionId <$> bytes, fills).
Definition LoopId_new (fills : list (option (list N))) :
    result IdError LoopId * list (option (list N)) :=
  let '(bytes, fills) := random_nonzero_bytes fills in (mkLoopId <$> bytes, fills).

(** ** Symbolic names *)

Inductive NameError := InvalidLength | InvalidGrammar.
#[export] Instance NameError_eq_dec : EqDecision NameError.
Proof. solve_decision. Defined.

Record ToolCallId := mkToolCallId { tool_call_id_str : str }.
#[export] Instance ToolCallId_eq_dec : EqDecision ToolCallId.
Proof. solve_decision. Defined.
#[export] Instance ToolCallId_countable : Countable ToolCallId.
Proof.
  apply (inj_countable' tool_call_id_str mkToolCallId). by intros [].
Defined.

Definition opaque_byte (byte : N) : bool :=
  ((0x21 <=? byte) && (byte <=? 0x7E)) && negb (byte =? 34) && negb (byte =? 92).

Inductive ToolCallIdError := ToolCallIdInvalidLength | NonPrintable.
#[export] Instance ToolCallIdError_eq_dec : EqDecision ToolCallIdError.
Proof. solve_decision. Defined.

Definition ToolCallId_new (value : str) : result ToolCallIdError ToolCallId :=
  guard_err (str_is_empty value || (256 <? str_len value)) ToolCallIdInvalidLength $
  guard_err (negb (forallb opaque_byte (str_bytes value))) NonPrintable $
  Ok (mkToolCallId value).

Record ToolName := mkToolName { tool_name_str : str }.
#[export] Instance ToolName_eq_dec : EqDecision ToolName.
Proof. solve_decision. Defined.

Definition ToolName_from_str (value : str) : result NameError ToolName :=
  guard_err (str_is_empty value || (64 <? str_len value)) InvalidLength $
  guard_err (negb (forallb (λ b, is_ascii_alphanumeric b || (b =? 95) || (b =? 45))
               (str_bytes value))) InvalidGrammar $
  Ok (mkToolName value).

(** The derived [Ord] of [ToolName(Box<str>)]. *)
Definition ToolName_cmp (a b : ToolName) : comparison :=
  str_cmp (tool_name_str a) (tool_name_str b).

Record ModelRef := mkModelRef { model_ref_str : str }.
#[export] Instance ModelRef_eq_dec : EqDecision ModelRef.
Proof. solve_decision. Defined.

Definition model_ref_byte (b : N) : bool :=
  is_ascii_alphanumeric b || (b =? 95) || (b =? 45) || (b =? 46) || (b =? 58) || (b =? 47).

Definition ModelRef_from_str (value : str) : result NameError ModelRef :=
  guard_err (str_is_empty value || (256 <? str_len value)) InvalidLength $
  guard_err (negb (forallb model_ref_byte (str_bytes value))) InvalidGrammar $
  Ok (mkModelRef value).

(** ** Facts *)

Lemma lor_ge_l a b : a ≤ N.lor a b.
Proof. apply N.ldiff_le. apply N.bits_inj. intros i. rewrite N.ldiff_spec, N.lor_spec, N.bits_0. by destruct (N.testbit a i), (N.testbit b i). Qed.

Lemma encode_utf8_ascii c :
  Forall (λ b, b < 0x80) (encode_utf8 c) → encode_utf8 c = [c].
Proof.
  unfold encode_utf8. repeat case_match; bools; [done|..];
    intros Hf; apply Forall_inv in Hf;
    match type of Hf with N.lor ?a ?b < _ => pose proof (lor_ge_l a b); lia end.
Qed.

Lemma str_bytes_ascii s : Forall (λ b, b < 0x80) (str_bytes s) → str_bytes s = s.
Proof.
  induction s as [|c s IH]; [done|]. rewrite str_bytes_cons.
  intros [Hc Hs]%Forall_app. rewrite encode_utf8_ascii, IH; done.
Qed.

Lemma str_bytes_ascii_id s : Forall (λ c, c < 0x80) s → str_bytes s = s.
Proof.
  induction 1 as [|c s Hc Hs IH]; [done|]. rewrite str_bytes_cons, IH.
  unfold encode_utf8. case_match; [done|]. bools. lia.
Qed.

Lemma strip_prefix_Some p s r : strip_prefix p s = Some r ↔ s = p ++ r.
Proof.
  revert s. induction p as [|a p IH]; intros [|b s]; simpl; try naive_solver.
  destruct (N.eqb_spec a b); [subst|]; naive_solver.
Qed.

Definition hex_range (d : N) : Prop := 48 ≤ d ≤ 57 ∨ 97 ≤ d ≤ 102.

Lemma decode_lower_hex_Some c d :
  decode_lower_hex c = Some d ↔ d < 16 ∧ c = hex_digit d.
Proof.
  unfold decode_lower_hex, hex_digit. split.
  - repeat case_match; intros; simplify_eq; bools; lia.
  - intros [Hd ->]. repeat case_match; bools; try lia; f_equal; try lia.
    all: repeat match goal with H : _ && _ = false |- _ => apply andb_false_iff in H end.
    all: naive_solver (bools; lia).
Qed.

Lemma decode_hex_digit d : d < 16 → decode_lower_hex (hex_digit d) = Some d.
Proof. intros. by apply decode_lower_hex_Some. Qed.

Lemma hex_digit_ascii d : d < 16 → hex_digit d < 0x80.
Proof. unfold hex_digit. case_match; bools; lia. Qed.

Lemma nibbles b : b < 256 → N.lor (N.shiftl (N.shiftr b 4) 4) (N.land b 15) = b.
Proof.
  intros _. apply N.bits_inj. intros i.
  rewrite N.lor_spec, N.land_spec. change 15 with (N.ones 4).
  destruct (N.lt_ge_cases i 4).
  - rewrite N.shiftl_spec_low, N.ones_spec_low by done. by rewrite andb_true_r.
  - rewrite N.shiftl_spec_high', N.shiftr_spec', N.ones_spec_high, andb_false_r, orb_false_r by done.
    f_equal. lia.
Qed.

Lemma nibbles_lor h l :
  h < 16 → l < 16 →
  let b := N.lor (N.shiftl h 4) l in
  b < 256 ∧ N.shiftr b 4 = h ∧ N.land b 15 = l.
Proof.
  intros Hh Hl. assert (Hb : N.lor (N.shiftl h 4) l = h * 16 + l).
  { rewrite N.shiftl_mul_pow2. change (2 ^ 4) with 16.
    rewrite <- N.lxor_lor, <- N.add_nocarry_lxor; [done|..].
    all: apply N.bits_inj; intros i; rewrite N.land_spec, N.bits_0.
    all: change 16 with (2 ^ 4); rewrite <- N.shiftl_mul_pow2.
    all: destruct (N.lt_ge_cases i 4);
      [rewrite N.shiftl_spec_low by done; done|].
    all: rewrite (N.bits_above_log2 l), andb_false_r; [done|].
    all: destruct (N.eq_dec l 0) as [->|]; [simpl; lia|].
    all: apply N.log2_lt_pow2; [lia|]. all: apply N.lt_le_trans with 16; [done|].
    all: change 16 with (2 ^ 4); apply N.pow_le_mono_r; lia. }
  simpl. rewrite Hb. change 15 with (N.ones 4).
  rewrite N.land_ones, N.shiftr_div_pow2. change (2 ^ 4) with 16.
  repeat split; [lia|..].
  - rewrite N.div_add_l by lia. rewrite N.div_small; lia.
  - rewrite N.add_comm, N.Div0.mod_add. apply N.mod_small. lia.
Qed.

Definition hex_pairs (bytes : list N) : list N :=
  bytes ≫= λ b, [hex_digit (N.shiftr b 4); hex_digit (N.land b 15)].

Lemma shiftr4_lt b : b < 256 → N.shiftr b 4 < 16.
Proof.
  intros. rewrite N.shiftr_div_pow2. change (2 ^ 4) with 16. apply N.Div0.div_lt_upper_bound. lia.
Qed.

Lemma land15_lt b : N.land b 15 < 16.
Proof. change 15 with (N.ones 4). rewrite N.land_ones. apply N.mod_lt. done. Qed.

#[local] Hint Resolve shiftr4_lt land15_lt hex_digit_ascii : runtime.

Lemma hex_pairs_ascii bs :
  Forall (λ b, b < 256) bs → Forall (λ c, c < 0x80) (hex_pairs bs).
Proof.
  induction 1 as [|b bs Hb Hbs IH]; [constructor|].
  change (hex_pairs (b :: bs)) with
    (hex_digit (N.shiftr b 4) :: hex_digit (N.land b 15) :: hex_pairs bs).
  repeat constructor; auto with runtime.
Qed.

Lemma hex_pairs_length bs : length (hex_pairs bs) = (2 * length bs)%nat.
Proof.
  induction bs as [|b bs IH]; [done|].
  change (hex_pairs (b :: bs)) with
    (hex_digit (N.shiftr b 4) :: hex_digit (N.land b 15) :: hex_pairs bs).
  cbn [length]. rewrite IH. lia.
Qed.

Lemma decode_hex_pairs_encode bs :
  Forall (λ b, b < 256) bs → decode_hex_pairs (hex_pairs bs) = Ok bs.
Proof.
  induction 1 as [|b bs Hb Hbs IH]; [done|].
  change (hex_pairs (b :: bs)) with
    (hex_digit (N.shiftr b 4) :: hex_digit (N.land b 15) :: hex_pairs bs).
  cbn [decode_hex_pairs].
  rewrite !decode_hex_digit by auto with runtime.
  simpl. rewrite IH. simpl. by rewrite nibbles.
Qed.

Lemma decode_hex_pairs_Ok ps : ∀ bs k,
  length ps = (2 * k)%nat → decode_hex_pairs ps = Ok bs →
  ps = hex_pairs bs ∧ Forall (λ b, b < 256) bs ∧ length bs = k.
Proof.
  induction ps as [ps IH] using (induction_ltof1 _ (@length N)); unfold ltof in IH.
  intros bs k Hlen. destruct ps as [|a [|b ps]]; cbn [decode_hex_pairs length] in *.
  - intros [= <-]. simpl. split; [done|]. split; [constructor|]. simpl. lia.
  - lia.
  - intros H. ok_inv. destruct k as [|k]; [lia|].
    match goal with H : decode_hex_pairs _ = _ |- _ => apply (IH ps ltac:(lia) _ k) in H as (->&?&?); [|lia] end.
    repeat match goal with H : decode_lower_hex _ = _ |- _ => apply decode_lower_hex_Some in H as [? ->] end.
    edestruct (nibbles_lor x x0) as (?&Hh&Hl); [done..|].
    cbn [length]. split; [|split; [by constructor|lia]].
    unfold hex_pairs at 2. cbn. by rewrite Hh, Hl.
Qed.

(** ** Round trips *)

Lemma decode_runtime_id_Ok (prefix value : str) (bytes : list N) :
  (length bytes = 16%nat ∧ Forall (λ b, b < 256) bytes ∧ Exists (λ b, b ≠ 0) bytes ∧
   value = encode_runtime_id prefix bytes)
  ↔ decode_runtime_id value prefix = Ok bytes.
Proof.
  unfold decode_runtime_id, encode_runtime_id. fold (hex_pairs bytes). split.
  - intros (Hlen & Hb & Hnz & ->).
    rewrite (proj2 (strip_prefix_Some _ _ (hex_pairs bytes)) eq_refl). simpl.
    pose proof (hex_pairs_ascii _ Hb) as Ha.
    rewrite <- str_len_bytes, (str_bytes_ascii_id _ Ha), hex_pairs_length, Hlen. simpl.
    rewrite decode_hex_pairs_encode by done. simpl.
    replace (forallb (λ b, b =? 0) bytes) with false; [done|].
    symmetry. apply not_true_iff_false. rewrite forallb_Forall. intros Hz.
    apply Exists_exists in Hnz as (b & Hin & Hb0). rewrite List.Forall_forall in Hz.
    apply Hb0, N.eqb_eq, Hz. by apply list_elem_of_In.
  - intros (x & Hp & H)%result_bind_Ok. apply ok_or_Ok, strip_prefix_Some in Hp as ->.
    apply guard_err_Ok in H as [Hlen (bs & Hd & H)%result_bind_Ok]. bools.
    apply guard_err_Ok in H as [Hz [= ->]].
    assert (length (str_bytes x) = (2 * 16)%nat) as Hl2.
    { apply Nat2N.inj. rewrite str_len_bytes. done. }
    apply (decode_hex_pairs_Ok _ _ _ Hl2) in Hd as (Hx & Hb & Hl).
    rewrite str_bytes_ascii in Hx; [|rewrite Hx; by apply hex_pairs_ascii].
    subst x. repeat split; try done.
    destruct (decide (Exists (λ b, b ≠ 0) bytes)) as [|Hn]; [done|]. exfalso.
    apply not_true_iff_false in Hz. apply Hz, forallb_Forall, List.Forall_forall.
    intros b Hin%list_elem_of_In. apply N.eqb_eq. destruct (decide (b = 0)); [done|].
    exfalso. apply Hn, Exists_exists. eauto.
Qed.

(** C38: every 16-byte payload that is not all zero survives printing and parsing,
    and parsing accepts nothing else: an accepted string is the canonical
    (lower-case, prefixed, 32-digit) print of the bytes it denotes. *)
Theorem runtime_id_roundtrip (prefix value : str) (bytes : list N) :
  (length bytes = 16%nat ∧ Forall (λ b, b < 256) bytes ∧ Exists (λ b, b ≠ 0) bytes ∧
   value = encode_runtime_id prefix bytes)
  ↔ decode_runtime_id value prefix = Ok bytes.
Proof. apply decode_runtime_id_Ok. Qed.

(** An identifier drawn from the random source is never zero, and printing it
    and parsing it back gives it again. *)
Lemma random_nonzero_bytes_nonzero fills bytes rest :
  random_nonzero_bytes fills = (Ok bytes, rest) → Exists (λ b, b ≠ 0) bytes.
Proof.
  revert rest. induction fills as [|[bs|] fills IH]; intros rest; simpl; [done| |done].
  case_match eqn:E; [|apply IH]. intros [= <- <-].
  apply existsb_Exists in E. eapply Exists_impl; [done|]. simpl. intros b ?. by bools.
Qed.
