(* ===== verification/Limits.v ===== *)
(** * Limits and usage accounting

    Models src/src/limits.rs ([LoopLimits]), [ModelLimits] of
    src/src/model/request.rs, src/src/model/usage.rs ([Usage]) and
    src/src/usage.rs ([UsageAccumulator]). *)

From S2P Require Import Prelude Text Json.
Local Open Scope N_scope.

(** ** Loop limits *)

Definition MAX_TOOL_CALLS_PER_RESPONSE : N := 64.
Definition MAX_TOOL_NAME_BYTES : N := 64.

Record LoopLimits := mkLoopLimits {
  max_user_input_bytes : N;
  max_model_text_bytes : N;
  max_model_reasoning_bytes : N;
  max_tool_calls_per_response : N;
  max_tool_name_bytes : N;
  max_tool_schema_bytes : N;
  max_tool_arguments_bytes : N;
  max_tool_output_bytes : N;
}.

Definition LoopLimits_default : LoopLimits := {|
  max_user_input_bytes := BoundedText_MAX_BYTES;
  max_model_text_bytes := BoundedText_MAX_BYTES;
  max_model_reasoning_bytes := BoundedText_MAX_BYTES;
  max_tool_calls_per_response := MAX_TOOL_CALLS_PER_RESPONSE;
  max_tool_name_bytes := MAX_TOOL_NAME_BYTES;
  max_tool_schema_bytes := MAX_JSON_BYTES;
  max_tool_arguments_bytes := MAX_JSON_BYTES;
  max_tool_output_bytes := BoundedText_MAX_BYTES;
|}.

Inductive LoopLimitsError := InvalidBounds.

Definition LoopLimits_validate (l : LoopLimits) : result LoopLimitsError () :=
  guard_err
    ((max_user_input_bytes l =? 0)
     || (BoundedText_MAX_BYTES <? max_user_input_bytes l)
     || (max_model_text_bytes l =? 0)
     || (BoundedText_MAX_BYTES <? max_model_text_bytes l)
     || (max_model_reasoning_bytes l =? 0)
     || (BoundedText_MAX_BYTES <? max_model_reasoning_bytes l)
     || (max_tool_calls_per_response l =? 0)
     || (MAX_TOOL_CALLS_PER_RESPONSE <? max_tool_calls_per_response l)
     || (max_tool_name_bytes l =? 0)
     || (MAX_TOOL_NAME_BYTES <? max_tool_name_bytes l)
     || (max_tool_schema_bytes l =? 0)
     || (MAX_JSON_BYTES <? max_tool_schema_bytes l)
     || (max_tool_arguments_bytes l =? 0)
     || (MAX_JSON_BYTES <? max_tool_arguments_bytes l)
     || (max_tool_output_bytes l =? 0)
     || (BoundedText_MAX_BYTES <? max_tool_output_bytes l))
    InvalidBounds $
  Ok ().

(** ** Per-request model limits *)

Record ModelLimits := mkModelLimits {
  context_window_tokens : option N;
  max_output_tokens : option N;
}.
#[export] Instance ModelLimits_eq_dec : EqDecision ModelLimits.
Proof. solve_decision. Defined.

Inductive ModelLimitsError := ModelLimitsZero.

Definition ModelLimits_new (cw mo : option N) : result ModelLimitsError ModelLimits :=
  guard_err (bool_decide (cw = Some 0) || bool_decide (mo = Some 0)) ModelLimitsZero $
  Ok (mkModelLimits cw mo).

Definition ModelLimits_default : ModelLimits := mkModelLimits None None.

(** ** Token usage *)

Record Usage := mkUsage {
  input_tokens : option N;
  output_tokens : option N;
  reasoning_tokens : option N;
  cache_read_tokens : option N;
  cache_write_tokens : option N;
  provider_total_tokens : option N;
}.
#[export] Instance Usage_eq_dec : EqDecision Usage.
Proof. solve_decision. Defined.

Definition Usage_from_optional (i o r : option N) : Usage :=
  mkUsage i o r None None None.
Definition Usage_new (i o r : N) : Usage :=
  Usage_from_optional (Some i) (Some o) (Some r).
Definition Usage_default : Usage := mkUsage None None None None None None.

Definition with_cache_read_tokens (u : Usage) (v : option N) : Usage :=
  mkUsage (input_tokens u) (output_tokens u) (reasoning_tokens u)
    v (cache_write_tokens u) (provider_total_tokens u).
Definition with_cache_write_tokens (u : Usage) (v : option N) : Usage :=
  mkUsage (input_tokens u) (output_tokens u) (reasoning_tokens u)
    (cache_read_tokens u) v (provider_total_tokens u).
Definition with_provider_total_tokens (u : Usage) (v : option N) : Usage :=
  mkUsage (input_tokens u) (output_tokens u) (reasoning_tokens u)
    (cache_read_tokens u) (cache_write_tokens u) v.

Definition total_tokens (u : Usage) : option N :=
  match input_tokens u, output_tokens u, reasoning_tokens u with
  | Some input, Some output, Some reasoning =>
      match checked_add u64_MAX input output with
      | Some total => checked_add u64_MAX total reasoning
      | None => None
      end
  | _, _, _ => None
  end.

Definition sum_field (lhs rhs : option N) : result () (option N) :=
  match lhs, rhs with
  | Some lhs, Some rhs => Some <$> ok_or (checked_add u64_MAX lhs rhs) ()
  | Some lhs, None => Ok (Some lhs)
  | None, rhs => Ok rhs
  end.

Definition sum_usage (lhs rhs : Usage) : result () Usage :=
  i ← sum_field (input_tokens lhs) (input_tokens rhs);
  o ← sum_field (output_tokens lhs) (output_tokens rhs);
  r ← sum_field (reasoning_tokens lhs) (reasoning_tokens rhs);
  cr ← sum_field (cache_read_tokens lhs) (cache_read_tokens rhs);
  cw ← sum_field (cache_write_tokens lhs) (cache_write_tokens rhs);
  pt ← sum_field (provider_total_tokens lhs) (provider_total_tokens rhs);
  Ok (with_provider_total_tokens (with_cache_write_tokens (with_cache_read_tokens
        (Usage_from_optional i o r) cr) cw) pt).

(** [UsageAccumulator::add]: the accumulator afterwards and the result; a failed
    sum leaves the accumulated value alone. *)
Definition UsageAccumulator_add (acc value : Usage) : Usage * result () () :=
  match sum_usage acc value with
  | Ok total => (total, Ok ())
  | Err e => (acc, Err e)
  end.

(** ** Facts *)

Lemma LoopLimits_validate_Ok l :
  LoopLimits_validate l = Ok () ↔
  (1 ≤ max_user_input_bytes l ≤ BoundedText_MAX_BYTES) ∧
  (1 ≤ max_model_text_bytes l ≤ BoundedText_MAX_BYTES) ∧
  (1 ≤ max_model_reasoning_bytes l ≤ BoundedText_MAX_BYTES) ∧
  (1 ≤ max_tool_calls_per_response l ≤ MAX_TOOL_CALLS_PER_RESPONSE) ∧
  (1 ≤ max_tool_name_bytes l ≤ MAX_TOOL_NAME_BYTES) ∧
  (1 ≤ max_tool_schema_bytes l ≤ MAX_JSON_BYTES) ∧
  (1 ≤ max_tool_arguments_bytes l ≤ MAX_JSON_BYTES) ∧
  (1 ≤ max_tool_output_bytes l ≤ BoundedText_MAX_BYTES).
Proof.
  unfold LoopLimits_validate. rewrite guard_err_Ok, !orb_false_iff, !N.eqb_neq, !N.ltb_ge.
  split; [|intros]; [intros [H _]|split; [|done]]; destruct_and?; repeat split; lia.
Qed.

(** The fields of a usage report, as functions. *)
Definition usage_fields : list (Usage → option N) :=
  [input_tokens; output_tokens; reasoning_tokens; cache_read_tokens;
   cache_write_tokens; provider_total_tokens].

Lemma Usage_ext u v : Forall (λ f, f u = f v) usage_fields → u = v.
Proof.
  intros H. destruct u, v. repeat (apply Forall_cons in H as [? H]). simpl in *. congruence.
Qed.

(** The sum of what a field reports over several requests: [None] when no
    request reported it. *)
Definition reported (f : Usage → option N) (us : list Usage) : list N := omap f us.
Definition field_sum (f : Usage → option N) (us : list Usage) : N :=
  foldr N.add 0 (reported f us).
Definition field_total (f : Usage → option N) (us : list Usage) : option N :=
  match reported f us with [] => None | _ => Some (field_sum f us) end.

(** Accumulation over the requests of a loop, in order. *)
Fixpoint accumulate (acc : Usage) (us : list Usage) : result () Usage :=
  match us with
  | [] => Ok acc
  | u :: us =>
      match UsageAccumulator_add acc u with
      | (acc, Ok _) => accumulate acc us
      | (_, Err e) => Err e
      end
  end.

Lemma sum_field_Ok l r t :
  sum_field l r = Ok t ↔
  t = match l, r with
      | Some a, Some b => Some (a + b) | Some a, None => Some a | None, r => r
      end ∧ (default 0 l + default 0 r ≤ u64_MAX ∨ l = None ∨ r = None).
Proof.
  destruct l as [a|], r as [b|]; simpl; [|naive_solver..].
  unfold ok_or, checked_add. destruct (N.leb_spec (a + b) u64_MAX); simpl; [naive_solver|].
  split; [done|]. intros [_ [?|[?|?]]]; [lia|done|done].
Qed.

Lemma sum_usage_Ok a b t :
  sum_usage a b = Ok t ↔ Forall (λ f, sum_field (f a) (f b) = Ok (f t)) usage_fields.
Proof.
  unfold sum_usage. split.
  - intros H. ok_inv. repeat constructor; done.
  - intros H. repeat (apply Forall_cons in H as [-> H]; simpl). f_equal. by destruct t.
Qed.

Definition usage_wf (u : Usage) : Prop :=
  Forall (λ f, default 0 (f u) ≤ u64_MAX) usage_fields.

Lemma sum_field_fits l r :
  default 0 l + default 0 r ≤ u64_MAX → ∃ t, sum_field l r = Ok t.
Proof. intros H. eexists. apply sum_field_Ok. eauto. Qed.

Lemma sum_usage_fits a b :
  Forall (λ f, default 0 (f a) + default 0 (f b) ≤ u64_MAX) usage_fields →
  ∃ t, sum_usage a b = Ok t.
Proof.
  intros H. unfold sum_usage.
  repeat (apply Forall_cons in H as [Hf%sum_field_fits H]; destruct Hf as [? ->]; simpl).
  eauto.
Qed.

Lemma reported_cons f u us :
  reported f (u :: us) = match f u with Some a => a :: reported f us | None => reported f us end.
Proof. done. Qed.

Lemma field_total_cons f u us :
  field_total f (u :: us) =
  match f u, field_total f us with
  | Some a, Some b => Some (a + b) | Some a, None => Some a | None, t => t
  end.
Proof.
  unfold field_total, field_sum. rewrite reported_cons. generalize (reported f us). intros l.
  destruct (f u) as [a|], l as [|b l]; simpl; f_equal; lia.
Qed.

Lemma field_sum_cons f u us : field_sum f (u :: us) = default 0 (f u) + field_sum f us.
Proof. unfold field_sum. rewrite reported_cons. by destruct (f u). Qed.

Lemma sum_usage_wf a b t :
  usage_wf a → usage_wf b → sum_usage a b = Ok t → usage_wf t.
Proof.
  unfold usage_wf. rewrite sum_usage_Ok, !List.Forall_forall. intros Ha Hb Ht f Hf.
  specialize (Ha f Hf). specialize (Hb f Hf).
  specialize (Ht f Hf). apply sum_field_Ok in Ht as [-> Ht].
  destruct (f a), (f b); simpl in *; try lia. destruct Ht as [|[|]]; [lia|done|done].
Qed.

Lemma accumulate_spec us : ∀ acc t,
  usage_wf acc → Forall usage_wf us →
  accumulate acc us = Ok t ↔
  Forall (λ f, f t = field_total f (acc :: us) ∧ field_sum f (acc :: us) ≤ u64_MAX)
    usage_fields.
Proof.
  induction us as [|u us IH]; intros acc t Hacc Hus.
  - simpl. split.
    + intros [= ->]. eapply Forall_impl; [exact Hacc|]. intros f Hf.
      rewrite field_total_cons, field_sum_cons.
      change (field_sum f []) with 0. rewrite N.add_0_r. split; [by destruct (f t)|exact Hf].
    + intros H. f_equal. symmetry. apply Usage_ext. eapply Forall_impl; [exact H|].
      intros f [-> _]. rewrite field_total_cons. by destruct (f acc).
  - apply Forall_cons in Hus as [Hu Hus]. cbn [accumulate]. unfold UsageAccumulator_add.
    destruct (sum_usage acc u) as [acc'|e] eqn:E.
    + rewrite IH; [|by apply (sum_usage_wf acc u)|done]. apply sum_usage_Ok in E.
      assert (Forall (λ f, field_total f (acc' :: us) = field_total f (acc :: u :: us) ∧
        field_sum f (acc' :: us) = field_sum f (acc :: u :: us)) usage_fields) as Heq.
      { eapply Forall_impl; [exact E|]. intros f [Hf _]%sum_field_Ok.
        rewrite !field_total_cons, !field_sum_cons, Hf.
        destruct (f acc), (f u), (field_total f us); simpl; split;
          first [lia | done | f_equal; lia]. }
      rewrite !List.Forall_forall in *. split; intros H f Hf; destruct (H f Hf), (Heq f Hf);
        split; congruence.
    + split; [done|]. intros H. exfalso.
      destruct (sum_usage_fits acc u) as [t' Ht']; [|congruence].
      eapply Forall_impl; [exact H|]. intros f [_ Hf]. rewrite !field_sum_cons in Hf. lia.
Qed.

(** ** Properties *)

(** Summing the usage of a loop's requests succeeds exactly when every
    field's reported counts fit 64 bits together; then each total is the sum of
    the requests that reported the field, and is missing only when none did. *)
Theorem usage_accumulation (us : list Usage) (total : Usage) :
  Forall usage_wf us →
  accumulate Usage_default us = Ok total ↔
  Forall (λ f, f total = field_total f us ∧ field_sum f us ≤ u64_MAX) usage_fields.
Proof.
  intros Hus. rewrite accumulate_spec; [|by repeat constructor|done].
  assert (Hd : Forall (λ f, f Usage_default = None) usage_fields) by (by repeat constructor).
  rewrite !List.Forall_forall in *. split; intros H f Hf; specialize (H f Hf);
    rewrite field_total_cons, field_sum_cons, (Hd f Hf) in *; done.
Qed.

Lemma usage_accumulation_witness :
  accumulate Usage_default
    [Usage_default; with_cache_read_tokens (Usage_from_optional (Some 2) None None) (Some 3);
     Usage_from_optional None (Some 4) None; Usage_from_optional (Some 5) None None]
  = Ok (with_cache_read_tokens (Usage_from_optional (Some 7) (Some 4) None) (Some 3)).
Proof.
  apply usage_accumulation; [repeat constructor; vm_compute; discriminate|].
  repeat constructor; vm_compute; discriminate.
Defined.

(** The default limits are valid, and validation accepts exactly the
    limits whose every budget is non-zero and within its absolute cap. *)
Theorem loop_limits_bounds (l : LoopLimits) :
  LoopLimits_validate LoopLimits_default = Ok () ∧
  (LoopLimits_validate l = Ok () ↔
    Forall (λ '(value, cap), 1 ≤ value ≤ cap)
      [(max_user_input_bytes l, 262144); (max_model_text_bytes l, 262144);
       (max_model_reasoning_bytes l, 262144); (max_tool_calls_per_response l, 64);
       (max_tool_name_bytes l, 64); (max_tool_schema_bytes l, 65536);
       (max_tool_arguments_bytes l, 65536); (max_tool_output_bytes l, 262144)]).
Proof.
  split; [done|]. rewrite LoopLimits_validate_Ok.
  split; [intros; destruct_and?; repeat constructor; assumption|].
  unfold BoundedText_MAX_BYTES, MAX_TEXT_BYTES, MAX_TOOL_CALLS_PER_RESPONSE,
    MAX_TOOL_NAME_BYTES, MAX_JSON_BYTES.
  intros H. repeat (apply Forall_cons in H as [? H]). cbv beta iota in *. lia.
Qed.
