(* ===== verification/BTree.v ===== *)
(** * Ordered maps

    [std::collections::BTreeMap] as the list of its entries in key order. *)

From stdpp Require Import sorting.
From S2P Require Import Prelude Text Ids.

(** What the map relies on: the derived [Ord] of the key type. *)
Class Ord (K : Type) := cmp : K → K → comparison.
Class OrdLaws (K : Type) `{Ord K} : Prop := {
  cmp_eq : ∀ a b : K, cmp a b = Eq ↔ a = b;
  cmp_antisym : ∀ a b : K, cmp b a = CompOpp (cmp a b);
  cmp_trans : ∀ a b c : K, cmp a b = Lt → cmp b c = Lt → cmp a c = Lt;
}.

Section btree.
Context {K V : Type} `{OrdLaws K}.

Definition BTreeMap : Type := list (K * V).

Fixpoint BTreeMap_get (m : list (K * V)) (k : K) : option V :=
  match m with
  | [] => None
  | (k', v) :: m => match cmp k k' with Eq => Some v | _ => BTreeMap_get m k end
  end.

Definition BTreeMap_contains_key (m : list (K * V)) (k : K) : bool :=
  match BTreeMap_get m k with Some _ => true | None => false end.

Fixpoint BTreeMap_insert (m : list (K * V)) (k : K) (v : V) : list (K * V) :=
  match m with
  | [] => [(k, v)]
  | (k', v') :: m =>
      match cmp k k' with
      | Lt => (k, v) :: (k', v') :: m
      | Eq => (k', v) :: m
      | Gt => (k', v') :: BTreeMap_insert m k v
      end
  end.

(** Keys strictly increasing. *)
Definition key_lt (a b : K) : Prop := cmp a b = Lt.
Definition btree_ok (m : list (K * V)) : Prop := StronglySorted key_lt (m.*1).

Lemma cmp_refl (a : K) : cmp a a = Eq.
Proof. by apply cmp_eq. Qed.

Lemma key_lt_ne (a b : K) : key_lt a b → a ≠ b.
Proof. unfold key_lt. intros Hlt ->. by rewrite cmp_refl in Hlt. Qed.

Lemma key_lt_gt (a b : K) : cmp a b = Gt → key_lt b a.
Proof. unfold key_lt. intros E. by rewrite cmp_antisym, E. Qed.

Lemma BTreeMap_get_insert m k v k' :
  BTreeMap_get (BTreeMap_insert m k v) k' =
  match cmp k' k with Eq => Some v | _ => BTreeMap_get m k' end.
Proof.
  induction m as [|[a w] m IH]; simpl; [done|].
  destruct (cmp k a) eqn:E; simpl; [|done|].
  - apply cmp_eq in E as ->. by destruct (cmp k' a).
  - rewrite IH. destruct (cmp k' a) eqn:E1, (cmp k' k) eqn:E2; try done.
    apply cmp_eq in E1 as ->, E2 as ->. by rewrite cmp_refl in E.
Qed.

Lemma BTreeMap_insert_keys m k v (P : K → Prop) :
  P k → Forall P (m.*1) → Forall P ((BTreeMap_insert m k v).*1).
Proof.
  intros Hk. induction m as [|[a w] m IH]; simpl; [by repeat constructor|].
  intros Hm. pose proof (Forall_inv Hm). pose proof (Forall_inv_tail Hm).
  destruct (cmp k a); simpl; repeat constructor; auto.
Qed.

Lemma BTreeMap_insert_ok m k v : btree_ok m → btree_ok (BTreeMap_insert m k v).
Proof.
  unfold btree_ok. induction m as [|[a w] m IH]; simpl; [by repeat constructor|].
  intros [Hm Ha]%StronglySorted_inv. destruct (cmp k a) eqn:E; simpl.
  - by constructor.
  - constructor; [by constructor|]. constructor; [done|].
    eapply Forall_impl; [exact Ha|]. intros b Hb. by eapply cmp_trans.
  - constructor; [auto|]. apply BTreeMap_insert_keys; [by apply key_lt_gt|done].
Qed.

Lemma BTreeMap_get_In m k v : BTreeMap_get m k = Some v → (k, v) ∈ m.
Proof.
  induction m as [|[a w] m IH]; simpl; [done|].
  destruct (cmp k a) eqn:E; [|intros; right; auto..].
  apply cmp_eq in E as ->. intros [= ->]. left.
Qed.

Lemma BTreeMap_In_get m k v : btree_ok m → (k, v) ∈ m → BTreeMap_get m k = Some v.
Proof.
  unfold btree_ok. induction m as [|[a w] m IH]; simpl; [by intros _ ?%elem_of_nil|].
  intros [Hm Ha]%StronglySorted_inv [[= -> ->]|Hin]%elem_of_cons; [by rewrite cmp_refl|].
  assert (key_lt a k) as Hlt.
  { eapply Forall_forall in Ha; [exact Ha|]. apply list_elem_of_fmap. by exists (k, v). }
  unfold key_lt in Hlt. rewrite cmp_antisym, Hlt. simpl. auto.
Qed.

Lemma BTreeMap_contains_key_false m k :
  btree_ok m → BTreeMap_contains_key m k = false ↔ k ∉ m.*1.
Proof.
  intros Hm. unfold BTreeMap_contains_key. split.
  - intros Hn ([k' v] & -> & Hin)%list_elem_of_fmap. simpl in *.
    by rewrite (BTreeMap_In_get _ _ _ Hm Hin) in Hn.
  - intros Hn. destruct (BTreeMap_get m k) eqn:E; [|done]. exfalso.
    apply Hn, list_elem_of_fmap. exists (k, v). split; [done|]. by apply BTreeMap_get_In.
Qed.

(** Inserting a key above all the others appends it. *)
Lemma BTreeMap_insert_snoc m k v :
  Forall (λ k', key_lt k' k) (m.*1) → BTreeMap_insert m k v = m ++ [(k, v)].
Proof.
  induction m as [|[a w] m IH]; simpl; [done|]. intros Hf.
  pose proof (Forall_inv Hf) as Ha. unfold key_lt in Ha.
  rewrite (cmp_antisym a k), Ha. simpl. f_equal. apply IH. by apply Forall_inv_tail in Hf.
Qed.

(** What inserting a new key adds is one entry. *)
Lemma BTreeMap_insert_elem_of m k v e :
  btree_ok m → k ∉ m.*1 → e ∈ BTreeMap_insert m k v ↔ e = (k, v) ∨ e ∈ m.
Proof.
  induction m as [|[a w] m IH]; simpl; intros Hm Hk.
  - rewrite elem_of_cons. done.
  - apply StronglySorted_inv in Hm as [Hm _].
    rewrite not_elem_of_cons in Hk. destruct Hk as [Hne Hk].
    destruct (cmp k a) eqn:E; [by apply cmp_eq in E| |].
    + by rewrite elem_of_cons.
    + rewrite !elem_of_cons, IH by done. tauto.
Qed.

Lemma BTreeMap_get_Some m k v : btree_ok m → BTreeMap_get m k = Some v ↔ (k, v) ∈ m.
Proof. split; [apply BTreeMap_get_In|by apply BTreeMap_In_get]. Qed.
End btree.

#[export] Hint Resolve BTreeMap_insert_ok : runtime.

(** ** The key type the code uses *)

#[export] Instance ToolName_ord : Ord ToolName := ToolName_cmp.

#[export] Instance ToolName_ord_laws : OrdLaws ToolName.
Proof.
  split; unfold cmp, ToolName_ord, ToolName_cmp, str_cmp.
  - intros [a] [b]. simpl. rewrite bytes_cmp_eq. naive_solver.
  - intros. apply bytes_cmp_antisym.
  - intros ???. apply bytes_cmp_trans.
Qed.
