(* ===== verification/ToolTypes.v ===== *)
(** * Tool values: specifications, invocations, results, inputs, approvals

    Models src/src/tools/{types,input,policy,progress,tool}.rs and
    src/src/interaction.rs: the values that cross the boundary between the loop
    and its tools, each with the check its constructor performs. The wire
    structs of the hand-written [Deserialize] implementations are records; what
    the serde derive does to fill them is not part of the crate. *)

From S2P Require Import Prelude Text Json Ids.
Local Open Scope N_scope.

(** ** Errors (tools/types.rs, tools/policy.rs, tools/progress.rs) *)

Inductive ToolError :=
| ToolCancelled | ToolFailedError | ToolTimedOut | ToolPanicked
| InvalidInvocation | ToolInternal.
#[export] Instance ToolError_eq_dec : EqDecision ToolError.
Proof. solve_decision. Defined.

Inductive ToolValueError := ToolInvalidText | InvalidSchema | InvalidAnswer.
#[export] Instance ToolValueError_eq_dec : EqDecision ToolValueError.
Proof. solve_decision. Defined.

Inductive ToolResultOutcome :=
| OutcomeSuccess | OutcomeFailed | OutcomeDenied | OutcomeCancelled | OutcomeInputProvided.
#[export] Instance ToolResultOutcome_eq_dec : EqDecision ToolResultOutcome.
Proof. solve_decision. Defined.

Inductive ToolPolicyError :=
| PolicyCancelled | PolicyFailedError | InvalidDecision | PolicyPanicked | PolicyInternal.
#[export] Instance ToolPolicyError_eq_dec : EqDecision ToolPolicyError.
Proof. solve_decision. Defined.

Inductive ToolProgressError := ProgressInvalidText | CompletedExceedsTotal.

(** [serde::de::Error::custom], of a message or of a value's own error. *)
Inductive DeError :=
| DeMessage (message : string)
| DeToolValue (e : ToolValueError)
| DeValue (e : ValueError).

(** ** Input requests and answers (tools/input.rs) *)

Inductive ToolInputAnswerKind := KindText | KindSingleChoice.
#[export] Instance ToolInputAnswerKind_eq_dec : EqDecision ToolInputAnswerKind.
Proof. solve_decision. Defined.

Record ToolInputRequest := mkToolInputRequest {
  tir_prompt : BoundedText;
  tir_choices : list BoundedText;
  tir_answer_kind : ToolInputAnswerKind;
}.
#[export] Instance ToolInputRequest_eq_dec : EqDecision ToolInputRequest.
Proof. solve_decision. Defined.

Record ToolInputRequestWire := mkToolInputRequestWire {
  tirw_prompt : BoundedText;
  tirw_choices : list BoundedText;
  tirw_answer_kind : ToolInputAnswerKind;
}.

Inductive ToolInputAnswer :=
| AnswerText (text : BoundedText)
| AnswerChoice (index : N).
#[export] Instance ToolInputAnswer_eq_dec : EqDecision ToolInputAnswer.
Proof. solve_decision. Defined.

Definition ToolInputRequest_validate (r : ToolInputRequest) : result ToolValueError () :=
  if negb (valid_text (as_str (tir_prompt r)) 8192 false)
     || (32 <? N.of_nat (length (tir_choices r)))
     || existsb (λ choice, negb (valid_text (as_str choice) 1024 false)) (tir_choices r)
     || (bool_decide (tir_answer_kind r = KindSingleChoice)
         && match tir_choices r with [] => true | _ => false end)
  then Err ToolInvalidText
  else Ok ().

Definition ToolInputRequest_new (prompt : str) (choices : list BoundedText)
    (answer_kind : ToolInputAnswerKind) : result ToolValueError ToolInputRequest :=
  prompt ← map_err (λ _, ToolInvalidText) (BoundedText_new_with_max_bytes prompt 8192);
  let request := mkToolInputRequest prompt choices answer_kind in
  _ ← ToolInputRequest_validate request;
  Ok request.

Definition ToolInputRequest_deserialize (value : ToolInputRequestWire) :
    result DeError ToolInputRequest :=
  map_err DeToolValue
    (ToolInputRequest_new (as_str (tirw_prompt value)) (tirw_choices value)
       (tirw_answer_kind value)).

Definition validate_answer_text (value : str) : result ToolValueError () :=
  if valid_text value 8192 false then Ok () else Err InvalidAnswer.

Definition ToolInputAnswer_validate (answer : ToolInputAnswer) (request : ToolInputRequest) :
    result ToolValueError () :=
  match answer, tir_answer_kind request with
  | AnswerText value, KindText =>
      if is_ok (validate_answer_text (as_str value)) then Ok () else Err InvalidAnswer
  | AnswerChoice index, KindSingleChoice =>
      if index <? N.of_nat (length (tir_choices request)) then Ok () else Err InvalidAnswer
  | _, _ => Err InvalidAnswer
  end.

(** [serde_json::Map::get]. *)
Definition map_get `{SerdeNumber} (object : list (str * Value)) (key : str) : option Value :=
  (λ p, p.2.2) <$> list_find (λ kv, kv.1 = key) object.

Definition value_as_object `{SerdeNumber} (v : Value) : option (list (str * Value)) :=
  match v with JObject kvs => Some kvs | _ => None end.
Definition value_as_str `{SerdeNumber} (v : Value) : option str :=
  match v with JString s => Some s | _ => None end.
Definition value_as_u64 `{SerdeNumber} (v : Value) : option N :=
  match v with JNumber n => number_as_u64 n | _ => None end.

Definition ToolInputAnswer_deserialize `{SerdeNumber} (value : Value) :
    result DeError ToolInputAnswer :=
  object ← ok_or (value_as_object value)
    (DeMessage "tool input answer must be an object");
  guard_err (negb (N.of_nat (length object) =? 2))
    (DeMessage "tool input answer has unknown fields") $
  kind ← ok_or (map_get object (lit "kind") ≫= value_as_str)
    (DeMessage "tool input answer kind must be a string");
  data ← ok_or (map_get object (lit "data"))
    (DeMessage "tool input answer data is missing");
  if bool_decide (kind = lit "text") then
    text ← ok_or (value_as_str data)
      (DeMessage "tool input text answer must be a string");
    _ ← map_err DeToolValue (validate_answer_text text);
    text ← map_err DeValue (BoundedText_new_with_max_bytes text 8192);
    Ok (AnswerText text)
  else if bool_decide (kind = lit "choice") then
    choice ← ok_or (value_as_object data)
      (DeMessage "tool input choice answer must be an object");
    guard_err (negb (N.of_nat (length choice) =? 1)
               || bool_decide (map_get choice (lit "index") = None))
      (DeMessage "tool input choice has unknown fields") $
    index ← ok_or (map_get choice (lit "index") ≫= value_as_u64)
      (DeMessage "tool input choice index must be an integer");
    guard_err (usize_MAX <? index) (DeMessage "tool input choice index is too large") $
    Ok (AnswerChoice index)
  else Err (DeMessage "unknown tool input answer kind").

(** The derived [Serialize]: adjacently tagged, snake case. *)
Definition ToolInputAnswer_serialize `{SerdeNumber} (answer : ToolInputAnswer) : Value :=
  match answer with
  | AnswerText text =>
      JObject [(lit "kind", JString (lit "text")); (lit "data", JString (as_str text))]
  | AnswerChoice index =>
      JObject [(lit "kind", JString (lit "choice"));
               (lit "data", JObject [(lit "index", JNumber (number_of_u64 index))])]
  end.

(** [encode_result]: [None] is the panic of indexing [choices()] out of range. *)
Definition encode_result `{SerdeJson} (answer : ToolInputAnswer) (request : ToolInputRequest) :
    option str :=
  match answer with
  | AnswerText answer =>
      Some (to_string (JObject [(lit "answer", JString (as_str answer))]))
  | AnswerChoice index =>
      choice ← tir_choices request !! N.to_nat index;
      Some (to_string (JObject [(lit "choice_index", JNumber (number_of_u64 index));
                                (lit "choice", JString (as_str choice))]))
  end.

(** ** Policy values (tools/policy.rs) *)

Definition MAX_TOOL_POLICY_TEXT_BYTES : N := 8192.

Inductive ApprovalRisk := RiskLow | RiskMedium | RiskHigh.
#[export] Instance ApprovalRisk_eq_dec : EqDecision ApprovalRisk.
Proof. solve_decision. Defined.

Record ApprovalRequest := mkApprovalRequest { ar_prompt : BoundedText; ar_risk : ApprovalRisk }.
#[export] Instance ApprovalRequest_eq_dec : EqDecision ApprovalRequest.
Proof. solve_decision. Defined.

Inductive ApprovalDecision := AllowOnce | DenyApproval.
#[export] Instance ApprovalDecision_eq_dec : EqDecision ApprovalDecision.
Proof. solve_decision. Defined.

Inductive ToolDecision :=
| DecisionAllow
| DecisionDeny (reason : BoundedText)
| DecisionRequireApproval (request : ApprovalRequest).

Definition validate_policy_text (value : str) : result ToolPolicyError () :=
  if valid_text value MAX_TOOL_POLICY_TEXT_BYTES false then Ok () else Err InvalidDecision.

Definition checked_policy_text (value : str) : result ToolPolicyError BoundedText :=
  _ ← validate_policy_text value;
  map_err (λ _, InvalidDecision) (BoundedText_new_with_max_bytes value MAX_TOOL_POLICY_TEXT_BYTES).

Definition ApprovalRequest_validate (r : ApprovalRequest) : result ToolPolicyError () :=
  validate_policy_text (as_str (ar_prompt r)).

Definition ApprovalRequest_new (prompt : str) (risk : ApprovalRisk) :
    result ToolPolicyError ApprovalRequest :=
  prompt ← checked_policy_text prompt;
  let request := mkApprovalRequest prompt risk in
  _ ← ApprovalRequest_validate request;
  Ok request.

Definition ToolDecision_validate (d : ToolDecision) : result ToolPolicyError () :=
  match d with
  | DecisionAllow => Ok ()
  | DecisionDeny reason => validate_policy_text (as_str reason)
  | DecisionRequireApproval request => ApprovalRequest_validate request
  end.

Definition ToolDecision_deny (reason : str) : result ToolPolicyError ToolDecision :=
  reason ← checked_policy_text reason;
  let decision := DecisionDeny reason in
  _ ← ToolDecision_validate decision;
  Ok decision.

Definition ToolDecision_require_approval (request : ApprovalRequest) :
    result ToolPolicyError ToolDecision :=
  let decision := DecisionRequireApproval request in
  _ ← ToolDecision_validate decision;
  Ok decision.

(** ** Progress (tools/progress.rs) *)

Record ToolProgress := mkToolProgress {
  tp_message : option BoundedText;
  tp_completed : option N;
  tp_total : option N;
}.
#[export] Instance ToolProgress_eq_dec : EqDecision ToolProgress.
Proof. solve_decision. Defined.

Definition ToolProgress_validate (p : ToolProgress) : result ToolProgressError () :=
  guard_err
    match tp_message p with
    | Some message => negb (valid_text (as_str message) BoundedText_MAX_BYTES true)
    | None => false
    end ProgressInvalidText $
  match tp_completed p, tp_total p with
  | Some completed, Some total =>
      if total <? completed then Err CompletedExceedsTotal else Ok ()
  | _, _ => Ok ()
  end.

Definition ToolProgress_new (message : option BoundedText) (completed total : option N) :
    result ToolProgressError ToolProgress :=
  let progress := mkToolProgress message completed total in
  _ ← ToolProgress_validate progress;
  Ok progress.

(** ** Specifications, outputs and invocations (tools/tool.rs) *)

Definition MAX_TOOL_DESCRIPTION_BYTES : N := 4096.

Record ToolOutput := mkToolOutput { to_content : BoundedText }.
#[export] Instance ToolOutput_eq_dec : EqDecision ToolOutput.
Proof. solve_decision. Defined.

Definition ToolOutput_new (content : str) : result ToolValueError ToolOutput :=
  guard_err (negb (valid_text content MAX_TEXT_BYTES true)) ToolInvalidText $
  content ← map_err (λ _, ToolInvalidText) (BoundedText_new_with_max_bytes content MAX_TEXT_BYTES);
  Ok (mkToolOutput content).

(** [ToolOutputWire] is the one field [content]. *)
Definition ToolOutput_deserialize (content : BoundedText) : result DeError ToolOutput :=
  map_err DeToolValue (ToolOutput_new (as_str content)).

Section spec.
Context `{SerdeJson}.

Record ToolSpec := mkToolSpec {
  ts_name : ToolName;
  ts_description : BoundedText;
  ts_input_schema : Value;
}.
#[export] Instance ToolSpec_eq_dec : EqDecision ToolSpec.
Proof. solve_decision. Defined.

Definition ToolSpec_validate (s : ToolSpec) : result ToolValueError () :=
  guard_err (negb (valid_text (as_str (ts_description s)) MAX_TOOL_DESCRIPTION_BYTES false))
    ToolInvalidText $
  guard_err (negb (is_object (ts_input_schema s))
             || is_err (validate_json_size (ts_input_schema s) MAX_JSON_BYTES))
    InvalidSchema $
  Ok ().

Definition ToolSpec_new (name : ToolName) (description : str) (input_schema : Value) :
    result ToolValueError ToolSpec :=
  description ← map_err (λ _, ToolInvalidText)
    (BoundedText_new_with_max_bytes description MAX_TOOL_DESCRIPTION_BYTES);
  let spec := mkToolSpec name description input_schema in
  _ ← ToolSpec_validate spec;
  Ok spec.

(** [None] is the panic of [json_bytes]. *)
Definition validate_for_bindings (s : ToolSpec) (max_name_bytes max_schema_bytes : N) :
    option (result ToolValueError ()) :=
  if (max_name_bytes <? str_len (tool_name_str (ts_name s)))
     || (N.min max_schema_bytes MAX_TOOL_DESCRIPTION_BYTES <? byte_len (ts_description s))
  then Some (Err ToolInvalidText)
  else
    schema_bytes ← json_bytes (ts_input_schema s);
    Some (if max_schema_bytes <? schema_bytes then Err InvalidSchema else Ok ()).

Record ToolInvocation := mkToolInvocation {
  ti_tool_call_id : ToolCallId;
  ti_tool_name : ToolName;
  ti_arguments : Value;
}.
#[export] Instance ToolInvocation_eq_dec : EqDecision ToolInvocation.
Proof. solve_decision. Defined.

Definition ToolInvocation_new (id : ToolCallId) (name : ToolName) (arguments : Value) :
    result ToolError ToolInvocation :=
  guard_err (negb (is_object arguments) || is_err (validate_json_size arguments MAX_JSON_BYTES))
    InvalidInvocation $
  Ok (mkToolInvocation id name arguments).
End spec.

Inductive ToolExecutionOutcome :=
| ExecCompleted (output : ToolOutput)
| ExecRequestInput (request : ToolInputRequest).

(** ** Interactions (interaction.rs) *)

Inductive InteractionKind :=
| KindApproval (request : ApprovalRequest)
| KindToolInput (request : ToolInputRequest).
#[export] Instance InteractionKind_eq_dec : EqDecision InteractionKind.
Proof. solve_decision. Defined.

Record PendingInteraction := mkPendingInteraction {
  pi_interaction_id : InteractionId;
  pi_tool_call_id : ToolCallId;
  pi_tool_name : ToolName;
  pi_kind : InteractionKind;
}.
#[export] Instance PendingInteraction_eq_dec : EqDecision PendingInteraction.
Proof. solve_decision. Defined.

Inductive InteractionAnswer :=
| AnswerApproval (decision : ApprovalDecision)
| AnswerToolInput (answer : ToolInputAnswer).
#[export] Instance InteractionAnswer_eq_dec : EqDecision InteractionAnswer.
Proof. solve_decision. Defined.

Definition InteractionAnswer_validate (answer : InteractionAnswer) (kind : InteractionKind) :
    result ToolValueError () :=
  match answer, kind with
  | AnswerApproval _, KindApproval _ => Ok ()
  | AnswerToolInput answer, KindToolInput request => ToolInputAnswer_validate answer request
  | _, _ => Err InvalidAnswer
  end.

Definition PendingInteraction_validate_answer (p : PendingInteraction)
    (answer : InteractionAnswer) : result ToolValueError () :=
  InteractionAnswer_validate answer (pi_kind p).

(** ** Facts *)

Lemma ToolOutput_new_Ok s o :
  ToolOutput_new s = Ok o ↔ valid_text s MAX_TEXT_BYTES true = true ∧ o = mkToolOutput (mkBoundedText s).
Proof.
  unfold ToolOutput_new. rewrite guard_err_Ok, negb_false_iff, result_bind_Ok.
  split.
  - intros (Hv & t & (_&_&->)%map_err_Ok%BoundedText_new_with_max_bytes_Ok & [= <-]). done.
  - intros (Hv & ->). split; [done|]. exists (mkBoundedText s). split; [|done].
    apply map_err_Ok, BoundedText_new_with_max_bytes_Ok.
    apply valid_text_spec in Hv as (_&?&_). repeat split; auto with lia.
Qed.

Lemma ToolInputRequest_validate_Ok r :
  ToolInputRequest_validate r = Ok () ↔
  valid_text (as_str (tir_prompt r)) 8192 false = true ∧
  N.of_nat (length (tir_choices r)) ≤ 32 ∧
  Forall (λ c, valid_text (as_str c) 1024 false = true) (tir_choices r) ∧
  (tir_answer_kind r = KindSingleChoice → tir_choices r ≠ []).
Proof.
  unfold ToolInputRequest_validate.
  assert (∀ b : bool, (if b then Err ToolInvalidText else Ok ()) = Ok () ↔ b = false) as ->
    by (by intros []).
  rewrite !orb_false_iff, negb_false_iff, N.ltb_ge, existsb_false, andb_false_iff,
    bool_decide_eq_false.
  setoid_rewrite negb_false_iff.
  split.
  - intros (((?&?)&?)&Hk). repeat split; try done. intros Hc. destruct Hk; [done|].
    by destruct (tir_choices r).
  - intros (?&?&?&Hk). repeat split; try done. destruct (tir_answer_kind r); [by left|].
    right. destruct (tir_choices r); [|done]. by destruct Hk.
Qed.

Lemma validate_answer_text_Ok s :
  validate_answer_text s = Ok () ↔ valid_text s 8192 false = true.
Proof. unfold validate_answer_text. by case_match. Qed.

Lemma ToolInputAnswer_validate_Ok a r :
  ToolInputAnswer_validate a r = Ok () ↔
  match a with
  | AnswerText t => tir_answer_kind r = KindText ∧ valid_text (as_str t) 8192 false = true
  | AnswerChoice i => tir_answer_kind r = KindSingleChoice ∧ i < N.of_nat (length (tir_choices r))
  end.
Proof.
  unfold ToolInputAnswer_validate. destruct a as [t|i], (tir_answer_kind r); try naive_solver.
  - unfold validate_answer_text. destruct (valid_text _ _ _); naive_solver.
  - case_match; bools; split; try naive_solver; [|lia..].
    intros [? ?]. lia.
Qed.

Lemma ToolDecision_deny_Ok s d :
  ToolDecision_deny s = Ok d ↔
  valid_text s MAX_TOOL_POLICY_TEXT_BYTES false = true ∧ d = DecisionDeny (mkBoundedText s).
Proof.
  unfold ToolDecision_deny, checked_policy_text, validate_policy_text. simpl. split.
  - intros H. ok_inv. case_match; [|done].
    match goal with H : BoundedText_new_with_max_bytes _ _ = _ |- _ =>
      apply BoundedText_new_with_max_bytes_Ok in H as (_&_&->) end. done.
  - intros [Hv ->]. pose proof Hv as (_&Hl&_)%valid_text_spec. rewrite Hv. simpl.
    rewrite (proj2 (map_err_Ok _ _ (mkBoundedText s)));
      [|by apply BoundedText_new_with_max_bytes_Ok].
    simpl. unfold validate_policy_text. simpl. by rewrite Hv.
Qed.

(** ** Properties *)

(** An input answer survives its own serialization exactly when its text is
    non-empty, free of control characters and at most 8192 bytes; an index (a
    [u64], on the 64-bit targets the crate is built for) always survives. *)
Theorem tool_input_answer_roundtrip `{SerdeNumberLaws} (a b : ToolInputAnswer) :
  match a with AnswerText _ => True | AnswerChoice i => i ≤ u64_MAX end →
  ToolInputAnswer_deserialize (ToolInputAnswer_serialize a) = Ok b ↔
  b = a ∧ match a with AnswerText t => valid_text (as_str t) 8192 false = true | _ => True end.
Proof.
  intros Ha. destruct a as [[s]|i].
  - change (ToolInputAnswer_deserialize _) with
      (_ ← map_err DeToolValue (validate_answer_text s);
       text ← map_err DeValue (BoundedText_new_with_max_bytes s 8192);
       Ok (AnswerText text) : result DeError ToolInputAnswer).
    simpl. split.
    + intros H'. ok_inv.
      match goal with H : validate_answer_text _ = _ |- _ =>
        destruct x; apply validate_answer_text_Ok in H end.
      match goal with H : BoundedText_new_with_max_bytes _ _ = _ |- _ =>
        apply BoundedText_new_with_max_bytes_Ok in H as (_&_&->) end. done.
    + intros [-> Hv]. rewrite (proj2 (validate_answer_text_Ok s) Hv). simpl.
      apply valid_text_spec in Hv as (_&Hl&_).
      rewrite (proj2 (map_err_Ok _ _ (mkBoundedText s))); [done|].
      by apply BoundedText_new_with_max_bytes_Ok.
  - unfold ToolInputAnswer_deserialize. simpl. rewrite number_as_u64_of_u64 by done.
    simpl. unfold usize_MAX. rewrite (proj2 (N.ltb_ge _ _) Ha). simpl. split.
    + by intros [= <-].
    + by intros [-> _].
Qed.

(** An answer the control plane accepted for an input request can always be
    encoded (indexing the choices cannot panic), and what is encoded is the answer
    text or the chosen choice. *)
Theorem validated_answer_encodes `{SerdeJson} (a : ToolInputAnswer) (r : ToolInputRequest) :
  InteractionAnswer_validate (AnswerToolInput a) (KindToolInput r) = Ok () →
  ∃ v, encode_result a r = Some (to_string v) ∧
  match a with
  | AnswerText t => v = JObject [(lit "answer", JString (as_str t))]
  | AnswerChoice i => ∃ c, tir_choices r !! N.to_nat i = Some c ∧
      v = JObject [(lit "choice_index", JNumber (number_of_u64 i)); (lit "choice", JString (as_str c))]
  end.
Proof.
  simpl. intros Hv%ToolInputAnswer_validate_Ok. destruct a as [t|i]; simpl.
  - eauto.
  - destruct Hv as [_ Hi].
    destruct (lookup_lt_is_Some_2 (tir_choices r) (N.to_nat i)) as [c Hc]; [lia|].
    rewrite Hc. simpl. eauto.
Qed.

Definition demo_request : ToolInputRequest :=
  mkToolInputRequest (mkBoundedText (lit "pick")) [mkBoundedText (lit "red")] KindSingleChoice.

Lemma tool_input_answer_roundtrip_witness :
  ToolInputAnswer_deserialize (H := demo.number) (ToolInputAnswer_serialize (AnswerChoice 0))
  = Ok (AnswerChoice 0).
Proof.
  apply (tool_input_answer_roundtrip (H := demo.number) (H0 := demo.number_laws)
    (AnswerChoice 0) (AnswerChoice 0)).
  - apply N.le_0_l.
  - split; [reflexivity|exact I].
Defined.

Lemma validated_answer_encodes_witness :
  ∃ v, encode_result (H := demo.json) (AnswerChoice 0) demo_request
    = Some (to_string (SerdeJson := demo.json) v) ∧
  ∃ c, tir_choices demo_request !! 0%nat = Some c ∧
    v = JObject [(lit "choice_index", JNumber (number_of_u64 0)); (lit "choice", JString (as_str c))].
Proof. apply (validated_answer_encodes (H := demo.json) (AnswerChoice 0) demo_request). reflexivity. Defined.
