(* ===== verification/Progress.v ===== *)
(** * Emitting tool progress

    Models the sink of src/src/tools/progress.rs. What the sink promises to a tool,
    and expects from whoever stands behind it, is the class [ToolProgressEmitter]:
    the state of the emitter, its one operation, and the progress it has taken so
    far. The runner's emitter is [LoopToolProgress] of [RunnerTools.v]. *)

From S2P Require Import Prelude Text Json Ids Limits ToolTypes.
Local Open Scope N_scope.

(** The trait: [emit] answers whether the progress was taken, and takes it exactly
    then. *)
Class ToolProgressEmitter (S : Type) : Type := {
  emitter_emit : S → ToolProgress → S * bool;
  emitter_taken : S → list ToolProgress;
  emitter_law : ∀ s progress, emitter_taken (emitter_emit s progress).1
    = emitter_taken s ++ (if (emitter_emit s progress).2 then [progress] else []);
}.

Definition NoopToolProgressEmitter (S : Type) : ToolProgressEmitter S := {|
  emitter_emit := λ s _, (s, false);
  emitter_taken := λ _, [];
  emitter_law := λ _ _, eq_refl;
|}.

(** The sink owns an emitter; cloning it shares the emitter, so it is a value. *)
Record ToolProgressSink (S : Type) := mkToolProgressSink { tps_inner : ToolProgressEmitter S }.
Arguments mkToolProgressSink {S} _.
Arguments tps_inner {S} _.

Definition ToolProgressSink_default (S : Type) : ToolProgressSink S :=
  mkToolProgressSink (NoopToolProgressEmitter S).
Definition ToolProgressSink_from_emitter {S : Type} (emitter : ToolProgressEmitter S) : ToolProgressSink S :=
  mkToolProgressSink emitter.

Definition ToolProgressSink_emit {S : Type} (sink : ToolProgressSink S) (s : S) (progress : ToolProgress) :
    S * bool :=
  if is_err (ToolProgress_validate progress) then (s, false)
  else @emitter_emit S (tps_inner sink) s progress.

(** What a tool emits during one poll, with the answers it gets. *)
Fixpoint emit_all {S : Type} (sink : ToolProgressSink S) (s : S) (ps : list ToolProgress) : S * list bool :=
  match ps with
  | [] => (s, [])
  | p :: ps =>
      let '(s, taken) := ToolProgressSink_emit sink s p in
      let '(s, answers) := emit_all sink s ps in
      (s, taken :: answers)
  end.

(** ** Facts *)

(** The progress whose answer was yes. *)
Definition answered (ps : list ToolProgress) (answers : list bool) : list ToolProgress :=
  omap (λ x, if x.2 : bool then Some x.1 else None) (zip ps answers).

Lemma ToolProgressSink_emit_spec {S : Type} (sink : ToolProgressSink S) s p :
  let '(s', taken) := ToolProgressSink_emit sink s p in
  @emitter_taken S (tps_inner sink) s' = @emitter_taken S (tps_inner sink) s ++ (if taken then [p] else []) ∧
  (taken = true → ToolProgress_validate p = Ok ()).
Proof.
  unfold ToolProgressSink_emit. destruct (ToolProgress_validate p) as [[]|e]; simpl.
  - pose proof (@emitter_law S (tps_inner sink) s p) as Hl. by destruct (emitter_emit s p).
  - split; [by rewrite app_nil_r|done].
Qed.

(** Whatever the emitter: it has taken exactly what it said yes to, in order, and
    all of it is valid. *)
Lemma emit_all_spec {S : Type} (sink : ToolProgressSink S) ps : ∀ s,
  let '(s', answers) := emit_all sink s ps in
  length answers = length ps ∧
  @emitter_taken S (tps_inner sink) s' = @emitter_taken S (tps_inner sink) s ++ answered ps answers ∧
  Forall (λ p, ToolProgress_validate p = Ok ()) (answered ps answers).
Proof.
  induction ps as [|p ps IH]; intros s; cbn [emit_all]; [by rewrite app_nil_r|].
  pose proof (ToolProgressSink_emit_spec sink s p) as Hp. destruct (ToolProgressSink_emit sink s p) as [s1 taken].
  specialize (IH s1). destruct (emit_all sink s1 ps) as [s' answers].
  destruct IH as (Hl & Ht & Hv), Hp as [Hp Hok]. split_and!.
  - simpl. by rewrite Hl.
  - rewrite Ht, Hp, <- app_assoc. by destruct taken.
  - destruct taken; [|done]. constructor; [by apply Hok|done].
Qed.

(** The default sink takes nothing. *)
Lemma default_takes_nothing {S : Type} ps : ∀ s : S,
  emit_all (ToolProgressSink_default S) s ps = (s, replicate (length ps) false).
Proof.
  induction ps as [|p ps IH]; intros s; [done|]. cbn [emit_all]. unfold ToolProgressSink_emit.
  destruct (is_err _); simpl; by rewrite IH.
Qed.
