(* ===== verification/ToolSet.v ===== *)
(** * The frozen tool catalogue

    Models src/src/tools/set.rs. An [Arc<dyn Tool>] is an opaque handle; what
    its [spec()] returns is a parameter ([None]: it panics). *)

From stdpp Require Import sorting.
From S2P Require Import Prelude Text Json Ids BTree ToolTypes.
Local Open Scope N_scope.

Inductive ToolSetError := DuplicateTool | ToolSetPanicked.
#[export] Instance ToolSetError_eq_dec : EqDecision ToolSetError.
Proof. solve_decision. Defined.

Section set.
Context `{SerdeJson}.

Record EnabledTool := mkEnabledTool { et_implementation : N; et_spec : ToolSpec }.
Record RegisteredTool := mkRegisteredTool { rt_tool : N; rt_spec : ToolSpec }.

Record ToolSetBuilder := mkToolSetBuilder {
  tsb_tools : list (ToolName * RegisteredTool);
  tsb_error : option ToolSetError;
}.

Record ToolSet := mkToolSet {
  tset_specs : list ToolSpec;
  tset_enabled : list (ToolName * EnabledTool);
}.

Definition ToolSetBuilder_default : ToolSetBuilder := mkToolSetBuilder [] None.
Definition ToolSet_default : ToolSet := mkToolSet [] [].

Definition EnabledTools_get (s : ToolSet) (name : ToolName) : option EnabledTool :=
  BTreeMap_get (tset_enabled s) name.

Definition ToolSet_get (s : ToolSet) (name : ToolName) : option N :=
  et_implementation <$> EnabledTools_get s name.

Definition ToolSet_contains (s : ToolSet) (name : ToolName) : bool :=
  BTreeMap_contains_key (tset_enabled s) name.

(** [enabled] is a [BTreeSet]: its elements, in order. *)
Definition specs_for (s : ToolSet) (enabled : list ToolName) : list ToolSpec :=
  omap (λ name, et_spec <$> EnabledTools_get s name) enabled.

Variable spec_of : N → option ToolSpec.

Definition register_arc (b : ToolSetBuilder) (tool : N) : ToolSetBuilder :=
  if bool_decide (tsb_error b ≠ None) then b
  else
    match spec_of tool with
    | None => mkToolSetBuilder (tsb_tools b) (Some ToolSetPanicked)
    | Some spec =>
        let name := ts_name spec in
        if BTreeMap_contains_key (tsb_tools b) name then
          mkToolSetBuilder (tsb_tools b) (Some DuplicateTool)
        else
          mkToolSetBuilder (BTreeMap_insert (tsb_tools b) name (mkRegisteredTool tool spec)) None
    end.

(** The [for] loop of [build] over the registered tools, in key order. *)
Fixpoint build_loop (tools : list (ToolName * RegisteredTool)) (specs : list ToolSpec)
    (entries : list (ToolName * EnabledTool)) : ToolSet :=
  match tools with
  | [] => mkToolSet specs entries
  | (name, registered) :: tools =>
      build_loop tools (specs ++ [rt_spec registered])
        (BTreeMap_insert entries name (mkEnabledTool (rt_tool registered) (rt_spec registered)))
  end.

Definition build (b : ToolSetBuilder) : result ToolSetError ToolSet :=
  match tsb_error b with
  | Some error => Err error
  | None => Ok (build_loop (tsb_tools b) [] [])
  end.

(** A builder after a sequence of registrations. *)
Definition register_all (tools : list N) : ToolSetBuilder :=
  foldl register_arc ToolSetBuilder_default tools.

(** The comparison [ModelRequest::new] makes of two neighbouring specs. *)
Definition spec_lt (a b : ToolSpec) : Prop := ToolName_cmp (ts_name a) (ts_name b) = Lt.

(** What a built set promises to the runner. *)
Record toolset_ok (s : ToolSet) : Prop := {
  tset_sorted : StronglySorted spec_lt (tset_specs s);
  tset_entries : btree_ok (tset_enabled s);
  tset_agree : tset_specs s = (λ e, et_spec (snd e)) <$> tset_enabled s;
  tset_names : Forall (λ e, ts_name (et_spec e.2) = e.1) (tset_enabled s);
}.

(** ** Facts *)

Definition enable (e : ToolName * RegisteredTool) : ToolName * EnabledTool :=
  (e.1, mkEnabledTool (rt_tool e.2) (rt_spec e.2)).

Definition registered_ok (m : list (ToolName * RegisteredTool)) : Prop :=
  btree_ok m ∧ Forall (λ e, ts_name (rt_spec e.2) = e.1 ∧ spec_of (rt_tool e.2) = Some (rt_spec e.2)) m.

Lemma build_loop_spec tools : ∀ specs entries,
  btree_ok (entries ++ (enable <$> tools)) →
  build_loop tools specs entries =
  mkToolSet (specs ++ ((λ e, rt_spec e.2) <$> tools)) (entries ++ (enable <$> tools)).
Proof.
  induction tools as [|[n r] tools IH]; intros specs entries Hok; simpl.
  - by rewrite !app_nil_r.
  - replace (BTreeMap_insert entries n _) with (entries ++ [enable (n, r)]).
    + rewrite IH; rewrite <- !app_assoc; done.
    + symmetry. apply BTreeMap_insert_snoc. revert Hok. unfold btree_ok.
      rewrite fmap_app. simpl. intros Hs.
      apply Forall_forall. intros k Hk.
      apply (StronglySorted_app_1_elem_of _ _ _ _ _ Hs); [done|]. left.
Qed.

Lemma register_arc_ok b tool :
  registered_ok (tsb_tools b) → registered_ok (tsb_tools (register_arc b tool)).
Proof.
  unfold register_arc. intros [Hb Hf]. case_bool_decide; [done|].
  destruct (spec_of tool) as [spec|] eqn:E; [|done].
  destruct (BTreeMap_contains_key _ _) eqn:Hc; [done|]. simpl.
  split; [by apply BTreeMap_insert_ok|].
  apply BTreeMap_contains_key_false in Hc; [|done].
  apply Forall_forall. intros e [->|He]%BTreeMap_insert_elem_of; [done| |done..].
  rewrite Forall_forall in Hf. auto.
Qed.

(** The builder after [tools]: without an error, it holds exactly those tools,
    whose specifications all came and had distinct names; with one, they did
    not. *)
Definition builder_inv (tools : list N) (b : ToolSetBuilder) : Prop :=
  registered_ok (tsb_tools b) ∧
  match tsb_error b with
  | None => ∃ specs, mapM spec_of tools = Some specs ∧ NoDup (ts_name <$> specs) ∧
      (∀ n, n ∈ (tsb_tools b).*1 ↔ n ∈ ts_name <$> specs) ∧
      (∀ t, t ∈ tools ↔ ∃ n r, (n, r) ∈ tsb_tools b ∧ rt_tool r = t)
  | Some _ => ¬ ∃ specs, mapM spec_of tools = Some specs ∧ NoDup (ts_name <$> specs)
  end.

Lemma mapM_snoc_Some tools tool specs :
  mapM spec_of (tools ++ [tool]) = Some specs ↔
  ∃ specs' spec, mapM spec_of tools = Some specs' ∧ spec_of tool = Some spec ∧
    specs = specs' ++ [spec].
Proof.
  rewrite !mapM_Some. split.
  - intros (l1 & l2 & H1 & H2 & ->)%Forall2_app_inv_l.
    apply Forall2_cons_inv_l in H2 as (y & l3 & Hy & ->%Forall2_nil_inv_l & ->).
    exists l1, y. by rewrite mapM_Some.
  - intros (l1 & y & H1%mapM_Some & Hy & ->). apply Forall2_app; [done|]. by constructor.
Qed.

Lemma register_arc_inv tools b tool :
  builder_inv tools b → builder_inv (tools ++ [tool]) (register_arc b tool).
Proof.
  intros [Hok Hinv]. split; [by apply register_arc_ok|].
  assert (Hpre : ∀ specs, mapM spec_of (tools ++ [tool]) = Some specs →
    NoDup (ts_name <$> specs) →
    ∃ specs' spec, mapM spec_of tools = Some specs' ∧ spec_of tool = Some spec ∧
      NoDup (ts_name <$> specs') ∧ ts_name spec ∉ ts_name <$> specs').
  { intros specs (specs' & spec & H1 & H2 & ->)%mapM_snoc_Some Hnd.
    rewrite fmap_app in Hnd. apply NoDup_app in Hnd as (Hn1 & Hn2 & _).
    exists specs', spec. repeat split; try done. intros Hin. apply (Hn2 _ Hin). left. }
  unfold register_arc. destruct (tsb_error b) as [e|] eqn:Eb.
  { simpl. rewrite Eb. intros (specs & Hm & Hnd).
    destruct (Hpre _ Hm Hnd) as (specs' & spec & ? & _ & ? & _). eauto. }
  destruct Hinv as (specs & Hm & Hnd & Hkeys & Htools). simpl.
  destruct (spec_of tool) as [spec|] eqn:Es; simpl.
  2: { intros (? & Hm' & Hnd'). by destruct (Hpre _ Hm' Hnd') as (? & ? & _ & ? & _). }
  destruct Hok as [Hbt Hf].
  destruct (BTreeMap_contains_key (tsb_tools b) (ts_name spec)) eqn:Hc; simpl.
  - intros (? & Hm' & Hnd').
    destruct (Hpre _ Hm' Hnd') as (specs' & spec' & Hs & [= <-] & _ & Hn).
    rewrite Hm in Hs. injection Hs as <-. apply Hn, Hkeys.
    destruct (decide (ts_name spec ∈ (tsb_tools b).*1)) as [|Hni]; [done|].
    apply BTreeMap_contains_key_false in Hni; [|done]. congruence.
  - apply BTreeMap_contains_key_false in Hc; [|done].
    exists (specs ++ [spec]). split; [apply mapM_snoc_Some; eauto|].
    rewrite fmap_app. simpl. split; [|split].
    + apply NoDup_app. repeat split; [done| |apply NoDup_singleton].
      intros n Hn ->%list_elem_of_singleton. by apply Hc, Hkeys.
    + intros n. rewrite elem_of_app, list_elem_of_singleton, <- Hkeys, !list_elem_of_fmap.
      setoid_rewrite BTreeMap_insert_elem_of; [|done..].
      split; [intros (e & -> & [->|?]); eauto|].
      intros [(e & -> & ?)| ->]; [eauto|]. eexists; split; [|by left]; done.
    + intros t. rewrite elem_of_app, list_elem_of_singleton, Htools.
      setoid_rewrite BTreeMap_insert_elem_of; [|done..].
      split; [intros [(n & r & ? & ?)| ->]|intros (n & r & [[= -> ->]|?] & ?)]; eauto 10.
Qed.

Lemma builder_inv_register_all tools : builder_inv tools (register_all tools).
Proof.
  induction tools as [|tool tools IH] using rev_ind.
  - split; [repeat constructor|]. exists []. simpl. repeat split; try by constructor.
    + by intros ?%elem_of_nil.
    + by intros ?%elem_of_nil.
    + by intros ?%elem_of_nil.
    + by intros (? & ? & ?%elem_of_nil & _).
  - unfold register_all. rewrite foldl_app. by apply register_arc_inv.
Qed.

Lemma build_Ok b s :
  registered_ok (tsb_tools b) → build b = Ok s →
  tsb_error b = None ∧
  s = mkToolSet ((λ e, rt_spec e.2) <$> tsb_tools b) (enable <$> tsb_tools b).
Proof.
  intros [Hb _]. unfold build. destruct (tsb_error b); [done|].
  rewrite build_loop_spec.
  - intros [= <-]. done.
  - simpl. unfold btree_ok in *. by rewrite <- list_fmap_compose.
Qed.

Lemma registered_toolset_ok m :
  registered_ok m → toolset_ok (mkToolSet ((λ e, rt_spec e.2) <$> m) (enable <$> m)).
Proof.
  intros [Hb Hf]. split; simpl.
  - unfold btree_ok in Hb. induction m as [|[n r] m IH]; simpl in *; [constructor|].
    apply StronglySorted_inv in Hb as [Hb Hn]. apply Forall_cons in Hf as [[Hr _] Hf].
    constructor; [auto|]. rewrite Forall_forall in Hn. rewrite Forall_forall in Hf.
    apply Forall_forall. intros s (e & -> & He)%list_elem_of_fmap.
    destruct (Hf _ He) as [Hen _]. unfold spec_lt. simpl in Hr. rewrite Hen, Hr.
    apply Hn, list_elem_of_fmap. by exists e.
  - unfold btree_ok in *. by rewrite <- list_fmap_compose.
  - rewrite <- list_fmap_compose. done.
  - apply Forall_fmap. eapply Forall_impl; [exact Hf|]. by intros e [He _].
Qed.

(** ** Properties *)

(** C35: building a tool set from a sequence of registrations succeeds exactly when
    no specification panicked and the names are distinct. The set then holds its
    specs strictly increasing by name (the order [ModelRequest::new] demands),
    the catalogue and the lookup table agree, and looking a name up gives the one
    registered tool whose specification has that name. *)
Theorem tool_set_build (tools : list N) :
  (is_ok (build (register_all tools)) = true ↔
   ∃ specs, mapM spec_of tools = Some specs ∧ NoDup (ts_name <$> specs)) ∧
  ∀ s, build (register_all tools) = Ok s →
    toolset_ok s ∧
    ∀ name t, ToolSet_get s name = Some t ↔
      t ∈ tools ∧ ∃ spec, spec_of t = Some spec ∧ ts_name spec = name.
Proof.
  destruct (builder_inv_register_all tools) as [Hok Hinv]. split.
  - unfold build. destruct (tsb_error _); simpl; [by split|]. naive_solver.
  - intros s [Hn ->]%build_Ok; [|done]. split; [by apply registered_toolset_ok|].
    rewrite Hn in Hinv. destruct Hinv as (specs & Hm & Hnd & Hkeys & Htools).
    intros name t. rewrite Htools. unfold ToolSet_get, EnabledTools_get. simpl.
    rewrite fmap_Some. setoid_rewrite BTreeMap_get_Some;
      [|unfold btree_ok; rewrite <- list_fmap_compose; apply Hok].
    destruct Hok as [Hb Hf]. rewrite Forall_forall in Hf. split.
    + intros (e & ([n r] & [= -> ->] & Hin)%list_elem_of_fmap & ->). simpl.
      destruct (Hf _ Hin) as [? ?]. split; eauto.
    + intros ((n & r & Hin & <-) & spec & Hs & <-).
      destruct (Hf _ Hin) as [Hn1 Hn2]. simpl in *. simplify_eq.
      exists (mkEnabledTool (rt_tool r) (rt_spec r)). split; [|done].
      apply list_elem_of_fmap. by exists (ts_name (rt_spec r), r).
Qed.
End set.

(** Two tools registered out of order. *)
Definition demo_spec_of (tool : N) : option (ToolSpec (H := demo.json)) :=
  Some (mkToolSpec (mkToolName (lit (if tool =? 0 then "write" else "read"))) (mkBoundedText (lit "a tool")) (JObject [])).

Lemma tool_set_build_witness :
  ∃ s, build (register_all demo_spec_of [0; 1]) = Ok s ∧ ToolSet_get s (mkToolName (lit "write")) = Some 0.
Proof.
  destruct (tool_set_build demo_spec_of [0; 1]) as [_ Hs].
  eexists. split; [reflexivity|]. apply (Hs _ eq_refl). split; [left|]. eexists. split; reflexivity.
Defined.
