(* ===== verification/ModelError.v ===== *)
(** * Diagnostics and model errors

    Models src/src/error.rs and src/src/model/error.rs. *)

From S2P Require Import Prelude Text.
Local Open Scope N_scope.

Inductive DiagnosticCategory :=
| CatConfiguration | CatModel | CatTool | CatPolicy | CatContext | CatCancellation | CatInternal.
#[export] Instance DiagnosticCategory_eq_dec : EqDecision DiagnosticCategory.
Proof. solve_decision. Defined.

Inductive DiagnosticCode :=
| CodeInvalidConfiguration | CodeModelTimeout | CodeModelMalformedResponse
| CodeModelUnavailable | CodeRuntimeTerminated | CodeContextFailed | CodePolicyDenied
| CodePolicyFailed | CodeToolNotFound | CodeToolTimeout | CodeToolFailed
| CodeInteractionNotFound | CodeInteractionKindMismatch | CodeTurnBudgetExceeded
| CodeInternal.
#[export] Instance DiagnosticCode_eq_dec : EqDecision DiagnosticCode.
Proof. solve_decision. Defined.

Record DiagnosticSummary := mkDiagnosticSummary {
  ds_code : DiagnosticCode;
  ds_category : DiagnosticCategory;
  ds_message : BoundedText;
  ds_retryable : bool;
}.
#[export] Instance DiagnosticSummary_eq_dec : EqDecision DiagnosticSummary.
Proof. solve_decision. Defined.

Definition DiagnosticSummary_new (code : DiagnosticCode) (category : DiagnosticCategory)
    (message : BoundedText) (retryable : bool) : result ValueError DiagnosticSummary :=
  if negb (valid_text (as_str message) BoundedText_MAX_BYTES true) then Err InvalidText
  else Ok (mkDiagnosticSummary code category message retryable).

(** [bounded_static]: [None] is the panic of either [expect]. *)
Definition bounded_static (code : DiagnosticCode) (category : DiagnosticCategory)
    (message : string) (retryable : bool) : option DiagnosticSummary :=
  match BoundedText_new (lit message) with
  | Err _ => None
  | Ok message =>
      match DiagnosticSummary_new code category message retryable with
      | Err _ => None
      | Ok summary => Some summary
      end
  end.

(** What [bounded_static] gives for a message that fits. *)
Definition static_diagnostic (code : DiagnosticCode) (category : DiagnosticCategory)
    (message : string) (retryable : bool) : DiagnosticSummary :=
  mkDiagnosticSummary code category (mkBoundedText (lit message)) retryable.

Lemma bounded_static_spec code category message retryable :
  valid_text (lit message) MAX_TEXT_BYTES true = true →
  bounded_static code category message retryable
  = Some (static_diagnostic code category message retryable).
Proof.
  intros Hv. unfold bounded_static.
  pose proof Hv as (_ & Hl & _)%valid_text_spec.
  rewrite (proj2 (BoundedText_new_Ok _ (mkBoundedText (lit message)))) by done.
  unfold DiagnosticSummary_new. simpl. unfold BoundedText_MAX_BYTES. by rewrite Hv.
Qed.

(** ** Model errors *)

Inductive DeliveryState := NotStarted | Started | DeliveryUnknown.
#[export] Instance DeliveryState_eq_dec : EqDecision DeliveryState.
Proof. solve_decision. Defined.

Inductive ModelValueError :=
| MvInvalidText | EmptyReasoningContent | EmptyMessages | EmptyAssistantParts
| InvalidToolArguments | OrphanToolResult | DuplicateToolResult | IncompleteToolExchange
| EmptyResponseParts | DuplicateToolCallId | DuplicateToolCallIndex | InvalidToolCallOrder
| InvalidDescriptor | InvalidEvent | MvInvalidProviderReplay | InvalidTools.
#[export] Instance ModelValueError_eq_dec : EqDecision ModelValueError.
Proof. solve_decision. Defined.

Inductive ModelErrorKind :=
| KInvalidRequest | KUnavailable | KProviderUnavailable | KAuthMissing | KAuthRejected
| KRateLimited | KQuotaExceeded | KContextOverflow | KTimeout | KTransportUnavailable
| KCancelled | KInvalidProviderResponse | KIncompleteResponse | KStreamInterrupted
| KRequestOutcomeUnknown | KUnexpectedToolCall | KPanicked | KInternal.
#[export] Instance ModelErrorKind_eq_dec : EqDecision ModelErrorKind.
Proof. solve_decision. Defined.

(** A [Duration] is its number of nanoseconds. *)
Inductive RetryHint := RetryNever | Retryable (retry_after : option N).
#[export] Instance RetryHint_eq_dec : EqDecision RetryHint.
Proof. solve_decision. Defined.

Record ModelError := mkModelError {
  me_kind : ModelErrorKind;
  me_delivery : DeliveryState;
  me_retry_hint : RetryHint;
  me_diagnostic : DiagnosticSummary;
}.
#[export] Instance ModelError_eq_dec : EqDecision ModelError.
Proof. solve_decision. Defined.

Definition set_retryable (d : DiagnosticSummary) (b : bool) : DiagnosticSummary :=
  mkDiagnosticSummary (ds_code d) (ds_category d) (ds_message d) b.

Definition ModelError_not_started (kind : ModelErrorKind) (retry_after : option N)
    (diagnostic : DiagnosticSummary) : ModelError :=
  mkModelError kind NotStarted (Retryable retry_after) (set_retryable diagnostic true).
Definition ModelError_started (kind : ModelErrorKind) (diagnostic : DiagnosticSummary) : ModelError :=
  mkModelError kind Started RetryNever (set_retryable diagnostic false).
Definition ModelError_unknown (kind : ModelErrorKind) (diagnostic : DiagnosticSummary) : ModelError :=
  mkModelError kind DeliveryUnknown RetryNever (set_retryable diagnostic false).
Definition ModelError_permanent (kind : ModelErrorKind) (delivery : DeliveryState)
    (diagnostic : DiagnosticSummary) : ModelError :=
  mkModelError kind delivery RetryNever (set_retryable diagnostic false).

(** [ModelErrorWire], and the hand-written [Deserialize] of [ModelError]; the
    error is the one custom message. *)
Record ModelErrorWire := mkModelErrorWire {
  mew_kind : ModelErrorKind;
  mew_delivery : DeliveryState;
  mew_retry_hint : RetryHint;
  mew_diagnostic : DiagnosticSummary;
}.

Definition ModelError_deserialize (wire : ModelErrorWire) : result string ModelError :=
  match mew_retry_hint wire with
  | Retryable retry_after =>
      if bool_decide (mew_delivery wire ≠ NotStarted) then
        Err "retryable model error requires delivery state NotStarted"%string
      else Ok (ModelError_not_started (mew_kind wire) retry_after (mew_diagnostic wire))
  | RetryNever =>
      Ok (ModelError_permanent (mew_kind wire) (mew_delivery wire) (mew_diagnostic wire))
  end.

(** The derived [Serialize] writes the four fields. *)
Definition ModelError_serialize (e : ModelError) : ModelErrorWire :=
  mkModelErrorWire (me_kind e) (me_delivery e) (me_retry_hint e) (me_diagnostic e).

(** The fields are private: every error comes from a constructor. *)
Inductive model_error_built : ModelError → Prop :=
| built_not_started k r d : model_error_built (ModelError_not_started k r d)
| built_started k d : model_error_built (ModelError_started k d)
| built_unknown k d : model_error_built (ModelError_unknown k d)
| built_permanent k s d : model_error_built (ModelError_permanent k s d)
| built_deserialize w e : ModelError_deserialize w = Ok e → model_error_built e.

(** A retryable hint goes with delivery [NotStarted] only, and the diagnostic's
    flag says whether the hint is retryable. *)
Definition model_error_ok (e : ModelError) : Prop :=
  match me_retry_hint e with
  | Retryable _ => me_delivery e = NotStarted ∧ ds_retryable (me_diagnostic e) = true
  | RetryNever => ds_retryable (me_diagnostic e) = false
  end.

Lemma model_error_ok_deserialize w e : ModelError_deserialize w = Ok e → model_error_ok e.
Proof. unfold ModelError_deserialize. repeat case_match; intros [= <-]; done. Qed.

Lemma model_error_roundtrip e : model_error_ok e → ModelError_deserialize (ModelError_serialize e) = Ok e.
Proof.
  destruct e as [k d [|r] [c g m b]]; unfold model_error_ok; simpl; [by intros ->|by intros [-> ->]].
Qed.

(** C34: every model error that exists, built or deserialized, is retryable only if
    the request was never started, and its diagnostic flag agrees with its hint;
    and deserialization accepts exactly the errors with that invariant up to the
    flag, giving back what was serialized. *)
Theorem model_error_invariant (e : ModelError) :
  (model_error_built e → model_error_ok e) ∧
  (model_error_ok e ↔ ModelError_deserialize (ModelError_serialize e) = Ok e).
Proof.
  split.
  - destruct 1; try done. by eapply model_error_ok_deserialize.
  - split; [apply model_error_roundtrip|apply model_error_ok_deserialize].
Qed.

(** Whatever a peer serialized, a deserialized model error claims to be
    retryable exactly when the wire does, and only with delivery [NotStarted];
    every other combination is refused. *)
Theorem model_error_deserialize_spec (w : ModelErrorWire) :
  match ModelError_deserialize w with
  | Ok e => me_kind e = mew_kind w ∧ me_delivery e = mew_delivery w ∧
      me_retry_hint e = mew_retry_hint w ∧
      (mew_retry_hint w ≠ RetryNever → mew_delivery w = NotStarted)
  | Err _ => mew_retry_hint w ≠ RetryNever ∧ mew_delivery w ≠ NotStarted
  end.
Proof.
  unfold ModelError_deserialize. destruct w as [k d [|r] g]; simpl; [naive_solver|].
  case_bool_decide as Hd; [done|]. simpl. by subst.
Qed.
