(* ===== verification/Message.v ===== *)
(** * Canonical model messages

    Models src/src/model/message.rs: assistant parts, tool calls, messages and
    the check of the tool calls of one assistant message. *)

From S2P Require Import Prelude Text Json Ids ToolTypes ModelError.
Local Open Scope N_scope.

Definition MAX_MODEL_MESSAGE_TEXT_BYTES : N := 262144.

(** ** Reasoning *)

Record ReasoningContent := mkReasoningContent {
  rc_text : option str;
  rc_summary : option str;
  rc_encrypted : option str;
  rc_signature : option str;
}.
#[export] Instance ReasoningContent_eq_dec : EqDecision ReasoningContent.
Proof. solve_decision. Defined.

Definition normalize_optional_text (value : option str) (maximum : N) :
    result ModelValueError (option str) :=
  match value with
  | None => Ok None
  | Some value =>
      let text := cow_str (normalize_model_text value) in
      if maximum <? str_len text then Err MvInvalidText else Ok (Some text)
  end.

Definition validate_optional_opaque (value : option str) (maximum : N) :
    result ModelValueError () :=
  match value with
  | None => Ok ()
  | Some value =>
      if str_is_empty value || (maximum <? str_len value)
         || existsb (λ byte, negb ((0x21 <=? byte) && (byte <=? 0x7E))
                              || (byte =? 34) || (byte =? 92)) (str_bytes value)
      then Err MvInvalidText else Ok ()
  end.

Definition ReasoningContent_new (text summary encrypted signature : option str) :
    result ModelValueError ReasoningContent :=
  text ← normalize_optional_text text 262144;
  summary ← normalize_optional_text summary 131072;
  _ ← validate_optional_opaque encrypted 262144;
  _ ← validate_optional_opaque signature 16384;
  guard_err (bool_decide (text = None) && bool_decide (summary = None)
             && bool_decide (encrypted = None) && bool_decide (signature = None))
    EmptyReasoningContent $
  Ok (mkReasoningContent text summary encrypted signature).

Section message.
Context `{SerdeJson}.

(** ** Tool calls *)

Record ToolCall := mkToolCall {
  tc_tool_call_id : ToolCallId;
  tc_name : ToolName;
  tc_arguments : Value;
  tc_call_index : N;
}.
#[export] Instance ToolCall_eq_dec : EqDecision ToolCall.
Proof. solve_decision. Defined.

Definition ToolCall_new_with_max_bytes (id : ToolCallId) (name : ToolName) (arguments : Value)
    (call_index max_bytes : N) : result ModelValueError ToolCall :=
  guard_err (negb (is_object arguments) || is_err (validate_json_size arguments max_bytes))
    InvalidToolArguments $
  Ok (mkToolCall id name arguments call_index).

Definition ToolCall_new (id : ToolCallId) (name : ToolName) (arguments : Value)
    (call_index : N) : result ModelValueError ToolCall :=
  ToolCall_new_with_max_bytes id name arguments call_index MAX_JSON_BYTES.

(** ** Assistant parts *)

Inductive AssistantPart :=
| PartText (text : str)
| PartReasoning (reasoning : ReasoningContent)
| PartToolCall (call : ToolCall).
#[export] Instance AssistantPart_eq_dec : EqDecision AssistantPart.
Proof. solve_decision. Defined.

Definition AssistantPart_validate (p : AssistantPart) : result ModelValueError () :=
  match p with
  | PartText text =>
      if valid_text text MAX_MODEL_MESSAGE_TEXT_BYTES true then Ok () else Err MvInvalidText
  | PartReasoning _ | PartToolCall _ => Ok ()
  end.

Definition as_tool_call (p : AssistantPart) : option ToolCall :=
  match p with PartToolCall call => Some call | PartText _ | PartReasoning _ => None end.

(** The derived wire enum has the constructors of the part itself. *)
Definition AssistantPart_deserialize (wire : AssistantPart) : result ModelValueError AssistantPart :=
  let value :=
    match wire with
    | PartText text => PartText (cow_str (normalize_model_text text))
    | PartReasoning reasoning => PartReasoning reasoning
    | PartToolCall call => PartToolCall call
    end in
  _ ← AssistantPart_validate value;
  Ok value.

(** The [for] loop with its two sets and the expected index. *)
Fixpoint tool_call_order_loop (parts : list AssistantPart) (ids : gset ToolCallId)
    (indices : gset N) (expected_index : N) : result ModelValueError () :=
  match parts with
  | [] => Ok ()
  | part :: parts =>
      _ ← AssistantPart_validate part;
      match as_tool_call part with
      | None => tool_call_order_loop parts ids indices expected_index
      | Some call =>
          guard_err (bool_decide (tc_call_index call ∈ indices)) DuplicateToolCallIndex $
          guard_err (negb (tc_call_index call =? expected_index)) InvalidToolCallOrder $
          guard_err (bool_decide (tc_tool_call_id call ∈ ids)) DuplicateToolCallId $
          expected_index ← ok_or (checked_add u32_MAX expected_index 1) InvalidToolCallOrder;
          tool_call_order_loop parts ({[tc_tool_call_id call]} ∪ ids)
            ({[tc_call_index call]} ∪ indices) expected_index
      end
  end.

Definition validate_tool_call_order (parts : list AssistantPart) : result ModelValueError () :=
  tool_call_order_loop parts ∅ ∅ 0.

Definition normalize_parts (parts : list AssistantPart) : list AssistantPart :=
  (λ part,
    match part with
    | PartText text =>
        match normalize_model_text text with
        | Owned normalized => PartText normalized
        | Borrowed _ => PartText text
        end
    | _ => part
    end) <$> parts.

(** ** Messages *)

Inductive ModelMessage :=
| MsgSystem (text : str)
| MsgUser (text : str)
| MsgAssistant (parts : list AssistantPart)
| MsgAssistantWithReplay (parts : list AssistantPart) (provider_replay : ProviderReplay)
| MsgTool (tool_call_id : ToolCallId) (output : ToolOutput) (outcome : ToolResultOutcome).
#[export] Instance ModelMessage_eq_dec : EqDecision ModelMessage.
Proof. solve_decision. Defined.

Definition ModelMessage_validate (m : ModelMessage) : result ModelValueError () :=
  match m with
  | MsgSystem text | MsgUser text =>
      if valid_text text MAX_MODEL_MESSAGE_TEXT_BYTES false then Ok () else Err MvInvalidText
  | MsgAssistant parts =>
      match parts with
      | [] => Err EmptyAssistantParts
      | _ => validate_tool_call_order parts
      end
  | MsgAssistantWithReplay parts _ => validate_tool_call_order parts
  | MsgTool _ _ _ => Ok ()
  end.

Definition ModelMessage_system (text : str) : result ModelValueError ModelMessage :=
  guard_err (negb (valid_text text MAX_MODEL_MESSAGE_TEXT_BYTES false)) MvInvalidText $
  Ok (MsgSystem text).

Definition ModelMessage_user (text : str) : result ModelValueError ModelMessage :=
  guard_err (negb (valid_text text MAX_MODEL_MESSAGE_TEXT_BYTES false)) MvInvalidText $
  Ok (MsgUser text).

Definition assistant_with_provider_replay (parts : list AssistantPart)
    (provider_replay : option ProviderReplay) : result ModelValueError ModelMessage :=
  let parts := normalize_parts parts in
  let message :=
    match provider_replay with
    | Some provider_replay => MsgAssistantWithReplay parts provider_replay
    | None => MsgAssistant parts
    end in
  _ ← ModelMessage_validate message;
  Ok message.

Definition ModelMessage_assistant (parts : list AssistantPart) :
    result ModelValueError ModelMessage :=
  assistant_with_provider_replay parts None.

Definition tool_with_outcome (id : ToolCallId) (output : ToolOutput)
    (outcome : ToolResultOutcome) : result ModelValueError ModelMessage :=
  Ok (MsgTool id output outcome).

(** [ModelMessageWire], with its two assistant shapes, and the hand-written
    [Deserialize]. *)
Inductive ModelMessageWire :=
| WireSystem (text : str)
| WireUser (text : str)
| WireLegacy (parts : list AssistantPart)
| WireReplay (parts : list AssistantPart) (provider_replay : option ProviderReplay)
| WireTool (tool_call_id : ToolCallId) (output : ToolOutput) (outcome : ToolResultOutcome).

Definition ModelMessage_deserialize (wire : ModelMessageWire) :
    result ModelValueError ModelMessage :=
  value ← match wire with
    | WireSystem text => Ok (MsgSystem text)
    | WireUser text => Ok (MsgUser text)
    | WireLegacy parts => Ok (MsgAssistant parts)
    | WireReplay parts replay => assistant_with_provider_replay parts replay
    | WireTool id output outcome => Ok (MsgTool id output outcome)
    end;
  _ ← ModelMessage_validate value;
  Ok value.

(** The [Serialize] implementation: which wire shape each message takes. *)
Definition ModelMessage_serialize (m : ModelMessage) : ModelMessageWire :=
  match m with
  | MsgSystem text => WireSystem text
  | MsgUser text => WireUser text
  | MsgAssistant parts => WireLegacy parts
  | MsgAssistantWithReplay parts replay => WireReplay parts (Some replay)
  | MsgTool id output outcome => WireTool id output outcome
  end.

(** ** Facts *)

Definition tool_calls (parts : list AssistantPart) : list ToolCall := omap as_tool_call parts.

Definition part_ok (p : AssistantPart) : Prop := AssistantPart_validate p = Ok ().

Lemma part_ok_text s :
  part_ok (PartText s) ↔ valid_text s MAX_MODEL_MESSAGE_TEXT_BYTES true = true.
Proof. unfold part_ok. simpl. by case_match. Qed.

(** Call indices counting up from [k]. *)
Fixpoint calls_ordered (k : N) (calls : list ToolCall) : Prop :=
  match calls with
  | [] => True
  | c :: calls => tc_call_index c = k ∧ calls_ordered (k + 1) calls
  end.

Lemma calls_ordered_lookup calls : ∀ k,
  calls_ordered k calls ↔
  ∀ i c, calls !! i = Some c → tc_call_index c = k + N.of_nat i.
Proof.
  induction calls as [|c calls IH]; intros k; simpl.
  - split; [|done]. intros _ i c. by rewrite lookup_nil.
  - rewrite IH. split.
    + intros [<- H'] [|i] d; simpl; [intros [= ->]; lia|]. intros ->%H'. lia.
    + intros H'. split; [rewrite (H' 0%nat c); [lia|done]|].
      intros i d Hi. rewrite (H' (S i) d Hi). lia.
Qed.

Lemma result_unit_bind {E A} (r : result E ()) (k : result E A) a :
  (r ≫= λ _, k) = Ok a ↔ r = Ok () ∧ k = Ok a.
Proof. destruct r as [[]|]; simpl; naive_solver. Qed.

Lemma tool_call_order_loop_spec parts : ∀ ids indices k,
  (∀ i, i ∈ indices → i < k) → k ≤ u32_MAX →
  tool_call_order_loop parts ids indices k = Ok () ↔
  Forall part_ok parts ∧
  calls_ordered k (tool_calls parts) ∧
  NoDup (tc_tool_call_id <$> tool_calls parts) ∧
  Forall (λ id, id ∉ ids) (tc_tool_call_id <$> tool_calls parts) ∧
  k + N.of_nat (length (tool_calls parts)) ≤ u32_MAX.
Proof.
  induction parts as [|p parts IH]; intros ids indices k Hidx Hk.
  { simpl. split; [|done]. intros _. repeat split; try constructor. lia. }
  cbn [tool_call_order_loop]. rewrite result_unit_bind, Forall_cons. fold (part_ok p).
  unfold tool_calls. cbn [omap list_omap].
  destruct (as_tool_call p) as [call|] eqn:Ec; fold (tool_calls parts);
    [|rewrite IH by done; tauto].
  rewrite !guard_err_Ok, !bool_decide_eq_false, negb_false_iff, N.eqb_eq.
  cbn [calls_ordered fmap list_fmap length]. rewrite NoDup_cons, Forall_cons.
  change (list_fmap _ _ tc_tool_call_id (tool_calls parts))
    with (tc_tool_call_id <$> tool_calls parts).
  destruct (decide (tc_call_index call = k)) as [Hi|Hi]; [|naive_solver].
  destruct (N.le_gt_cases (k + 1) u32_MAX) as [Hk1|Hk1].
  - rewrite (proj2 (checked_add_Some u32_MAX k 1 (k + 1))) by done. simpl.
    rewrite IH; [|set_unfold; intros i [->|Hx%Hidx]; lia|done].
    rewrite (Forall_forall _ (tc_tool_call_id <$> tool_calls parts)).
    rewrite (Forall_forall _ (tc_tool_call_id <$> tool_calls parts)).
    split.
    + intros (Hp & _ & _ & Hni & Hps & Ho & Hnd & Hf & Hl).
      repeat split; try done; [|set_solver|lia].
      intros Hin. apply (Hf _ Hin). set_solver.
    + intros ([Hp Hps] & [_ Ho] & [Hn Hnd] & [Hni Hf] & Hl).
      repeat split; try done; [intros Hx%Hidx; lia|set_solver|lia].
  - rewrite (proj2 (checked_add_None u32_MAX k 1)) by lia. simpl.
    split; [naive_solver|]. lia.
Qed.

(** What the check of one assistant message accepts. *)
Definition parts_ok (parts : list AssistantPart) : Prop :=
  Forall part_ok parts ∧
  (∀ i c, tool_calls parts !! i = Some c → tc_call_index c = N.of_nat i) ∧
  NoDup (tc_tool_call_id <$> tool_calls parts) ∧
  N.of_nat (length (tool_calls parts)) ≤ u32_MAX.

Lemma validate_tool_call_order_Ok parts :
  validate_tool_call_order parts = Ok () ↔ parts_ok parts.
Proof.
  unfold validate_tool_call_order, parts_ok. rewrite tool_call_order_loop_spec by set_solver by lia.
  rewrite calls_ordered_lookup. setoid_rewrite N.add_0_l.
  assert (Forall (λ id, id ∉ (∅ : gset ToolCallId)) (tc_tool_call_id <$> tool_calls parts)).
  { apply Forall_forall. set_solver. }
  tauto.
Qed.

Definition message_ok (m : ModelMessage) : Prop := ModelMessage_validate m = Ok ().

Lemma normalize_parts_tool_calls parts : tool_calls (normalize_parts parts) = tool_calls parts.
Proof.
  unfold tool_calls, normalize_parts. induction parts as [|p parts IH]; [done|].
  cbn [fmap list_fmap omap list_omap].
  destruct p as [s| |]; simpl; [destruct (normalize_model_text s)| |]; simpl;
    [exact IH..|by f_equal].
Qed.

Lemma normalize_parts_id parts : Forall part_ok parts → normalize_parts parts = parts.
Proof.
  induction 1 as [|p parts Hp Hps IH]; [done|]. cbn [normalize_parts fmap list_fmap].
  f_equal; [|done]. destruct p as [s| |]; try done.
  apply part_ok_text, valid_text_spec in Hp as (_ & Hl & Hc).
  unfold normalize_model_text. rewrite (proj2 (valid_text_spec _ _ _)); [done|].
  split; [by left|]. split; [|done]. etransitivity; [exact Hl|]. vm_compute. discriminate.
Qed.
End message.
