(* ===== verification/Request.v ===== *)
(** * Model requests, responses and stream events

    Models src/src/model/request.rs, src/src/model/response.rs and the
    descriptor of src/src/model/port.rs. *)

From stdpp Require Import sorting.
From S2P Require Import Prelude Text Json Ids Limits BTree ToolTypes ToolSet ModelError Message.
Local Open Scope N_scope.

Inductive ReasoningPreference :=
| ReasonAuto | ReasonDisabled | ReasonLow | ReasonMedium | ReasonHigh | ReasonXHigh
| ReasonMax | ReasonUltra.
#[export] Instance ReasoningPreference_eq_dec : EqDecision ReasoningPreference.
Proof. solve_decision. Defined.

(** ** Descriptors (model/port.rs); the set of preferences is listed. *)

Record ModelDescriptor := mkModelDescriptor {
  md_model_ref : ModelRef;
  md_context_window : N;
  md_supported_reasoning : list ReasoningPreference;
  md_supports_tools : bool;
}.
#[export] Instance ModelDescriptor_eq_dec : EqDecision ModelDescriptor.
Proof. solve_decision. Defined.

Definition ModelDescriptor_validate (d : ModelDescriptor) : result ModelValueError () :=
  if (md_context_window d =? 0)
     || match md_supported_reasoning d with [] => true | _ => false end
  then Err InvalidDescriptor
  else Ok ().

Definition ModelDescriptor_new (r : ModelRef) (w : N) (s : list ReasoningPreference) (t : bool) :
    result ModelValueError ModelDescriptor :=
  let descriptor := mkModelDescriptor r w s t in
  _ ← ModelDescriptor_validate descriptor;
  Ok descriptor.

Definition supports_reasoning (d : ModelDescriptor) (p : ReasoningPreference) : bool :=
  bool_decide (p ∈ md_supported_reasoning d).

Section request.
Context `{SerdeJson}.

(** ** Requests *)

Record ModelRequest := mkModelRequest {
  mr_messages : list ModelMessage;
  mr_tools : list ToolSpec;
  mr_limits : ModelLimits;
  mr_reasoning : ReasoningPreference;
}.

(** The [for] loop with its two sets of call identifiers. *)
Fixpoint tool_exchange_loop (messages : list ModelMessage) (pending completed : gset ToolCallId) :
    result ModelValueError () :=
  match messages with
  | [] => if bool_decide (pending = ∅) then Ok () else Err IncompleteToolExchange
  | message :: messages =>
      match message with
      | MsgAssistant parts | MsgAssistantWithReplay parts _ =>
          guard_err (negb (bool_decide (pending = ∅))) IncompleteToolExchange $
          _ ← ModelMessage_validate message;
          tool_exchange_loop messages
            (foldl (λ pending part,
               match as_tool_call part with
               | Some call => {[tc_tool_call_id call]} ∪ pending
               | None => pending
               end) pending parts) ∅
      | MsgTool tool_call_id _ _ =>
          guard_err (bool_decide (tool_call_id ∈ completed)) DuplicateToolResult $
          guard_err (bool_decide (pending = ∅) || negb (bool_decide (tool_call_id ∈ pending)))
            OrphanToolResult $
          tool_exchange_loop messages (pending ∖ {[tool_call_id]}) ({[tool_call_id]} ∪ completed)
      | MsgSystem _ | MsgUser _ =>
          guard_err (negb (bool_decide (pending = ∅))) IncompleteToolExchange $
          _ ← ModelMessage_validate message;
          tool_exchange_loop messages pending ∅
      end
  end.

Definition validate_tool_exchange (messages : list ModelMessage) : result ModelValueError () :=
  tool_exchange_loop messages ∅ ∅.

Definition with_validated_tools (messages : list ModelMessage) (tools : list ToolSpec)
    (limits : ModelLimits) (reasoning : ReasoningPreference) :
    result ModelValueError ModelRequest :=
  guard_err (match messages with [] => true | _ => false end) EmptyMessages $
  _ ← validate_tool_exchange messages;
  Ok (mkModelRequest messages tools limits reasoning).

(** [tools.windows(2).any(|pair| pair[0].name() >= pair[1].name())] *)
Fixpoint tools_out_of_order (tools : list ToolSpec) : bool :=
  match tools with
  | a :: ((b :: _) as rest) =>
      match ToolName_cmp (ts_name a) (ts_name b) with
      | Lt => tools_out_of_order rest
      | Eq | Gt => true
      end
  | _ => false
  end.

Definition ModelRequest_new (messages : list ModelMessage) (tools : list ToolSpec)
    (limits : ModelLimits) (reasoning : ReasoningPreference) :
    result ModelValueError ModelRequest :=
  guard_err (tools_out_of_order tools) InvalidTools $
  with_validated_tools messages tools limits reasoning.

(** ** Responses *)

Inductive ModelFinishReason :=
| FinishStop | FinishToolCalls | FinishLength | FinishContentFiltered | FinishRefused
| FinishUnknown.
#[export] Instance ModelFinishReason_eq_dec : EqDecision ModelFinishReason.
Proof. solve_decision. Defined.

Record ModelResponse := mkModelResponse {
  resp_parts : list AssistantPart;
  resp_finish_reason : ModelFinishReason;
  resp_usage : option Usage;
  resp_provider_replay : option ProviderReplay;
}.
#[export] Instance ModelResponse_eq_dec : EqDecision ModelResponse.
Proof. solve_decision. Defined.

Definition ModelResponse_new_with_provider_replay (parts : list AssistantPart)
    (finish_reason : ModelFinishReason) (usage : option Usage)
    (provider_replay : option ProviderReplay) : result ModelValueError ModelResponse :=
  let parts := normalize_parts parts in
  guard_err (match parts with [] => true | _ => false end
             && bool_decide (provider_replay = None)) EmptyResponseParts $
  _ ← validate_tool_call_order parts;
  Ok (mkModelResponse parts finish_reason usage provider_replay).

Definition ModelResponse_new (parts : list AssistantPart) (finish_reason : ModelFinishReason)
    (usage : option Usage) : result ModelValueError ModelResponse :=
  ModelResponse_new_with_provider_replay parts finish_reason usage None.

(** ** Stream events *)

Definition MAX_MODEL_EVENT_TEXT_BYTES : N := 64 * 1024.

Inductive ModelEvent :=
| EvTextDelta (delta : BoundedText)
| EvReasoningDelta (delta : BoundedText)
| EvToolCallStart (tool_call_id : ToolCallId) (tool_name : ToolName)
| EvToolCallArgumentsDelta (tool_call_id : ToolCallId) (delta : BoundedText)
| EvToolCallEnd (tool_call_id : ToolCallId)
| EvUsage (usage : Usage)
| EvProviderReplay (replay : ProviderReplay)
| EvFinish (reason : ModelFinishReason).

Definition ModelEvent_validate (e : ModelEvent) : result ModelValueError () :=
  match e with
  | EvTextDelta delta | EvReasoningDelta delta | EvToolCallArgumentsDelta _ delta =>
      if byte_len delta <=? MAX_MODEL_EVENT_TEXT_BYTES then Ok () else Err InvalidEvent
  | EvToolCallStart _ _ | EvToolCallEnd _ | EvUsage _ | EvProviderReplay _ | EvFinish _ => Ok ()
  end.

Definition checked_event_text (value : str) : result ModelValueError BoundedText :=
  map_err (λ _, InvalidEvent) (BoundedText_new_with_max_bytes value MAX_MODEL_EVENT_TEXT_BYTES).

Definition ModelEvent_text_delta (delta : str) : result ModelValueError ModelEvent :=
  delta ← checked_event_text delta; Ok (EvTextDelta delta).
Definition ModelEvent_reasoning_delta (delta : str) : result ModelValueError ModelEvent :=
  delta ← checked_event_text delta; Ok (EvReasoningDelta delta).
Definition ModelEvent_tool_call_arguments_delta (id : ToolCallId) (delta : str) :
    result ModelValueError ModelEvent :=
  delta ← checked_event_text delta; Ok (EvToolCallArgumentsDelta id delta).

(** ** The reference: what a well-formed exchange is *)

Definition message_parts (m : ModelMessage) : option (list AssistantPart) :=
  match m with
  | MsgAssistant parts | MsgAssistantWithReplay parts _ => Some parts
  | _ => None
  end.

Definition is_plain (m : ModelMessage) : Prop :=
  match m with MsgSystem _ | MsgUser _ => True | _ => False end.

Definition call_ids (parts : list AssistantPart) : list ToolCallId :=
  tc_tool_call_id <$> tool_calls parts.

(** A tool result, as the message that carries it. *)
Definition result_message (r : ToolCallId * ToolOutput * ToolResultOutcome) : ModelMessage :=
  MsgTool r.1.1 r.1.2 r.2.

(** Every assistant message is followed at once by one result for each of its
    calls, in some order, and by nothing else before the next message. *)
Inductive exchange_ok : list ModelMessage → Prop :=
| exchange_nil : exchange_ok []
| exchange_plain m ms : is_plain m → message_ok m → exchange_ok ms → exchange_ok (m :: ms)
| exchange_assistant m parts results ms :
    message_parts m = Some parts → message_ok m →
    (λ r, r.1.1) <$> results ≡ₚ call_ids parts →
    exchange_ok ms →
    exchange_ok (m :: (result_message <$> results) ++ ms).

(** ** Facts *)

Lemma pending_fold parts pending :
  foldl (λ pending part,
    match as_tool_call part with
    | Some call => {[tc_tool_call_id call]} ∪ pending
    | None => pending
    end) pending parts
  = list_to_set (call_ids parts) ∪ (pending : gset ToolCallId).
Proof.
  revert pending. induction parts as [|p parts IH]; intros pending; simpl; [set_solver|].
  rewrite IH. unfold call_ids, tool_calls. cbn [omap list_omap].
  destruct (as_tool_call p); simpl; set_solver.
Qed.

(** The rest of an exchange whose calls [pending] are still without a result. *)
Definition completes (pending : gset ToolCallId) (ms : list ModelMessage) : Prop :=
  ∃ results rest, ms = (result_message <$> results) ++ rest ∧
    (λ r, r.1.1) <$> results ≡ₚ elements pending ∧ exchange_ok rest.

Lemma completes_empty ms : completes ∅ ms ↔ exchange_ok ms.
Proof.
  unfold completes. rewrite elements_empty. split.
  - intros (results & rest & -> & Hp & Hr). apply Permutation_nil_r, fmap_nil_inv in Hp as ->. done.
  - intros Hr. by exists [], ms.
Qed.

Lemma completes_not_tool pending m ms :
  (∀ id o oc, m ≠ MsgTool id o oc) → completes pending (m :: ms) → pending = ∅.
Proof.
  intros Hm (results & rest & Heq & Hp & _). destruct results as [|r results].
  - symmetry in Hp. apply Permutation_nil_r, elements_empty_inv in Hp. by apply leibniz_equiv.
  - injection Heq as -> _. by destruct (Hm r.1.1 r.1.2 r.2).
Qed.

Lemma exchange_ok_not_tool id o oc ms : ¬ exchange_ok (MsgTool id o oc :: ms).
Proof. by inversion 1. Qed.

Lemma completes_tool pending id o oc ms :
  completes pending (MsgTool id o oc :: ms) ↔
  id ∈ pending ∧ completes (pending ∖ {[id]}) ms.
Proof.
  unfold completes. split.
  - intros ([|[[id' o'] oc'] results] & rest & Heq & Hp & Hr).
    { simpl in Heq. subst. by apply exchange_ok_not_tool in Hr. }
    injection Heq as <- <- <- ->. simpl in Hp.
    assert (id ∈ pending) as Hin.
    { apply elem_of_elements. rewrite <- Hp. left. }
    split; [done|]. exists results, rest. repeat split; [|done].
    rewrite (union_difference_singleton_L id pending) in Hp by done.
    rewrite elements_union_singleton in Hp by set_solver. by apply Permutation_cons_inv in Hp.
  - intros (Hin & results & rest & -> & Hp & Hr).
    exists ((id, o, oc) :: results), rest. repeat split; [|done]. simpl.
    rewrite (union_difference_singleton_L id pending) at 1 by done.
    rewrite elements_union_singleton by set_solver. by constructor.
Qed.

Lemma completes_plain m ms :
  is_plain m → completes ∅ (m :: ms) ↔ message_ok m ∧ exchange_ok ms.
Proof.
  intros Hm. rewrite completes_empty. split.
  - inversion 1; subst; [done|]. by destruct m.
  - intros []. by constructor.
Qed.

Lemma message_ok_parts m parts :
  message_parts m = Some parts → message_ok m → parts_ok parts.
Proof.
  unfold message_ok. destruct m; simpl; try done; intros [= ->].
  - destruct parts; [done|]. by intros ?%validate_tool_call_order_Ok.
  - by intros ?%validate_tool_call_order_Ok.
Qed.

Lemma completes_assistant m parts ms :
  message_parts m = Some parts →
  completes ∅ (m :: ms) ↔
  message_ok m ∧ completes (list_to_set (call_ids parts)) ms.
Proof.
  intros Hm. rewrite completes_empty. split.
  - inversion 1 as [|? ? Hpl|? parts' results ms' Hp Hok Hperm Hms]; subst.
    { by destruct m. }
    split; [done|]. exists results, ms'. simplify_eq. repeat split; [|done].
    rewrite elements_list_to_set; [done|]. by apply (message_ok_parts m parts).
  - intros (Hok & results & rest & -> & Hp & Hr).
    apply (exchange_assistant _ parts); try done.
    rewrite elements_list_to_set in Hp; [done|]. by apply (message_ok_parts m parts).
Qed.

Lemma tool_exchange_loop_spec ms : ∀ pending completed,
  pending ## completed →
  tool_exchange_loop ms pending completed = Ok () ↔ completes pending ms.
Proof.
  induction ms as [|m ms IH]; intros pending completed Hdisj.
  { simpl. case_bool_decide as Hp.
    - subst. rewrite completes_empty. split; [constructor|done].
    - split; [done|]. intros (results & rest & Heq & Hperm & _).
      symmetry in Heq. apply app_eq_nil in Heq as [Heq ->]. apply fmap_nil_inv in Heq as ->.
      symmetry in Hperm. apply Permutation_nil_r, elements_empty_inv in Hperm.
      by apply leibniz_equiv in Hperm. }
  destruct (decide (pending = ∅)) as [->|Hne].
  - destruct m as [t|t|parts|parts rp|id o oc]; cbn [tool_exchange_loop];
      rewrite ?bool_decide_eq_true_2 by done; simpl (negb _); cbn [guard_err].
    1-2: rewrite result_unit_bind, IH, completes_empty, completes_plain by set_solver; done.
    1-2: rewrite result_unit_bind, pending_fold, union_empty_r_L, IH by set_solver;
         rewrite (completes_assistant _ parts) by done; done.
    rewrite guard_err_Ok. simpl. rewrite completes_tool. set_solver.
  - assert (Hd : bool_decide (pending = ∅) = false) by (by apply bool_decide_eq_false).
    destruct m as [t|t|parts|parts rp|id o oc]; cbn [tool_exchange_loop];
      rewrite Hd; simpl (negb false); cbn [guard_err orb].
    1-4: split; [done|]; intros Hc; by apply completes_not_tool in Hc.
    rewrite !guard_err_Ok, !bool_decide_eq_false, negb_false_iff, bool_decide_eq_true,
      IH, completes_tool by set_solver. set_solver.
Qed.

Lemma validate_tool_exchange_Ok ms : validate_tool_exchange ms = Ok () ↔ exchange_ok ms.
Proof.
  unfold validate_tool_exchange. rewrite tool_exchange_loop_spec by set_solver.
  apply completes_empty.
Qed.

Lemma tools_out_of_order_sorted tools :
  tools_out_of_order tools = false ↔ StronglySorted spec_lt tools.
Proof.
  induction tools as [|a [|b rest] IH].
  - split; [constructor|done].
  - split; [repeat constructor|done].
  - change (tools_out_of_order (a :: b :: rest)) with
      (match ToolName_cmp (ts_name a) (ts_name b) with
       | Lt => tools_out_of_order (b :: rest) | _ => true end).
    split.
    + destruct (ToolName_cmp _ _) eqn:E; try done. intros Hs%IH.
      pose proof Hs as [_ Hf]%StronglySorted_inv. constructor; [done|]. constructor; [done|].
      eapply Forall_impl; [exact Hf|]. intros c Hc. unfold spec_lt in *.
      by eapply (cmp_trans (K := ToolName)).
    + intros [Hs Hf]%StronglySorted_inv. apply Forall_inv in Hf. unfold spec_lt in Hf.
      rewrite Hf. by apply IH.
Qed.

(** [ModelRequest::new] builds a request exactly from a non-empty well-formed
    exchange and a tool list strictly increasing by name. *)
Lemma ModelRequest_new_Ok ms ts l p r :
  ModelRequest_new ms ts l p = Ok r ↔
  (ms ≠ [] ∧ exchange_ok ms ∧ StronglySorted spec_lt ts) ∧ r = mkModelRequest ms ts l p.
Proof.
  unfold ModelRequest_new, with_validated_tools.
  rewrite !guard_err_Ok, tools_out_of_order_sorted, result_unit_bind, validate_tool_exchange_Ok. destruct ms; naive_solver.
Qed.

(** ** Properties *)

(** C29: the imperative check of a message list accepts exactly the well-formed
    exchanges: non-assistant messages valid on their own, and each assistant
    message valid and followed at once by exactly one result for each of its tool
    calls. *)
Theorem tool_exchange_spec (ms : list ModelMessage) :
  validate_tool_exchange ms = Ok () ↔ exchange_ok ms.
Proof. apply validate_tool_exchange_Ok. Qed.

(** A response is accepted exactly when its (normalised) parts pass the
    tool-call check and it is not empty; the stored parts are valid, so building
    an assistant message from an accepted response cannot fail and changes
    nothing. *)
Theorem ModelResponse_assistant_message parts reason usage replay (r : ModelResponse) :
  ModelResponse_new_with_provider_replay parts reason usage replay = Ok r →
  parts_ok (resp_parts r) ∧
  (resp_parts r = [] → is_Some (resp_provider_replay r)) ∧
  resp_parts r = normalize_parts parts ∧
  assistant_with_provider_replay (resp_parts r) (resp_provider_replay r) =
    Ok (match resp_provider_replay r with
        | Some p => MsgAssistantWithReplay (resp_parts r) p
        | None => MsgAssistant (resp_parts r)
        end).
Proof.
  unfold ModelResponse_new_with_provider_replay. rewrite guard_err_Ok, result_unit_bind.
  intros (He & Hv & [= <-]). simpl. pose proof Hv as Hok%validate_tool_call_order_Ok.
  split; [done|]. split; [|split; [done|]].
  - intros Hn. rewrite Hn in He. simpl in He. destruct replay; [done|].
    by rewrite bool_decide_eq_true_2 in He.
  - unfold assistant_with_provider_replay.
    rewrite (normalize_parts_id (normalize_parts parts)) by apply Hok.
    destruct replay as [p|]; simpl; [by rewrite Hv|].
    destruct (normalize_parts parts) as [|q qs] eqn:E; [by rewrite bool_decide_eq_true_2 in He|].
    by rewrite Hv.
Qed.
End request.

Definition demo_response : ModelResponse (H := demo.json) :=
  mkModelResponse [PartText (lit "hi")] FinishStop None None.

Lemma ModelResponse_assistant_message_witness :
  assistant_with_provider_replay (resp_parts demo_response) None
  = Ok (MsgAssistant (resp_parts demo_response)).
Proof.
  apply (ModelResponse_assistant_message [PartText (lit "hi")] FinishStop None None demo_response).
  reflexivity.
Defined.
