(* ===== verification/Failure.v ===== *)
(** * Deadlines and the retry policy

    Models src/src/time.rs and the synchronous part of
    src/src/model/driver/failure.rs. An instant ([std::time::Instant] or the tokio
    wrapper of it) is its number of nanoseconds since an arbitrary origin; its
    largest value is that of a [timespec] with a signed 64-bit second. A
    [Duration] is its number of nanoseconds. *)

From S2P Require Import Prelude Text ModelError.
Local Open Scope N_scope.

Definition NANOS : N := 1000000000.
Definition INSTANT_MAX : N := 9223372036854775807 * NANOS + 999999999.
Definition DURATION_MAX : N := 18446744073709551615 * NANOS + 999999999.

Definition instant_checked_add (now d : N) : option N := checked_add INSTANT_MAX now d.
Definition duration_checked_mul (d k : N) : option N := checked_mul DURATION_MAX d k.

(** ** time.rs *)

Inductive DeadlineSource := DsTurn | DsPort.
#[export] Instance DeadlineSource_eq_dec : EqDecision DeadlineSource.
Proof. solve_decision. Defined.

Record EffectiveDeadline := mkEffectiveDeadline {
  ed_standard : N;
  ed_tokio : N;
  ed_source : DeadlineSource;
}.

Inductive DeadlineOverflow := mkDeadlineOverflow.

Definition effective_deadline_from (now turn_deadline port_timeout : N) :
    result DeadlineOverflow EffectiveDeadline :=
  port_deadline ← ok_or (instant_checked_add now port_timeout) mkDeadlineOverflow;
  let '(tokio, source) :=
    if turn_deadline <=? port_deadline then (turn_deadline, DsTurn)
    else (port_deadline, DsPort) in
  Ok (mkEffectiveDeadline tokio tokio source).

(** ** failure.rs *)

Definition MAX_MODEL_RETRY_DELAY : N := 30 * NANOS.

Record RetryPolicySnapshot := mkRetryPolicySnapshot {
  rp_max_attempts : N;
  rp_base_delay : N;
}.

Record ModelDriverFailure := mkModelDriverFailure {
  mdf_error : ModelError;
  mdf_deadline_source : option DeadlineSource;
}.

Definition ModelDriverFailure_ordinary (e : ModelError) : ModelDriverFailure :=
  mkModelDriverFailure e None.
Definition ModelDriverFailure_deadline (e : ModelError) (s : DeadlineSource) : ModelDriverFailure :=
  mkModelDriverFailure e (Some s).

Record AttemptFailure := mkAttemptFailure {
  af_error : ModelError;
  af_observed_event : bool;
  af_deadline_source : option DeadlineSource;
}.

Definition AttemptFailure_new (e : ModelError) (observed : bool) : AttemptFailure :=
  mkAttemptFailure e observed None.
Definition AttemptFailure_deadline (e : ModelError) (observed : bool) (s : DeadlineSource) :
    AttemptFailure :=
  mkAttemptFailure e observed (Some s).
Definition into_driver_failure (f : AttemptFailure) : ModelDriverFailure :=
  mkModelDriverFailure (af_error f) (af_deadline_source f).

(** The body of the [for _ in 0..retry_index] loop, and the loop. *)
Definition exponential_step (exponential : N) : N :=
  N.min (default MAX_MODEL_RETRY_DELAY (duration_checked_mul exponential 2))
    MAX_MODEL_RETRY_DELAY.

Definition delay_for_retry (p : RetryPolicySnapshot) (retry_index : N) (retry_after : option N) :
    option N :=
  let exponential := Nat.iter (N.to_nat retry_index) exponential_step (rp_base_delay p) in
  match retry_after with
  | Some value =>
      if MAX_MODEL_RETRY_DELAY <? value then None else Some (N.max value exponential)
  | None => Some exponential
  end.

(** [retry_fits], with the reading of the clock as an argument. *)
Definition retry_fits (now deadline delay : N) : bool :=
  match instant_checked_add now delay with
  | Some retry_at => retry_at <? deadline
  | None => false
  end.

Definition evaluate_retry (p : RetryPolicySnapshot) (attempt : N) (failure : AttemptFailure)
    (now deadline : N) : option N :=
  if (rp_max_attempts p <=? attempt + 1) || af_observed_event failure
     || bool_decide (me_delivery (af_error failure) ≠ NotStarted)
  then None
  else
    match me_retry_hint (af_error failure) with
    | RetryNever => None
    | Retryable retry_after =>
        delay ← delay_for_retry p attempt retry_after;
        if retry_fits now deadline delay then Some delay else None
    end.

Definition observed_delivery (observed_event : bool) : DeliveryState :=
  if observed_event then Started else DeliveryUnknown.

Definition normalize_after_event (error : ModelError) (observed_event : bool) : ModelError :=
  if observed_event
     && (bool_decide (me_delivery error ≠ Started) || bool_decide (me_retry_hint error ≠ RetryNever))
  then ModelError_started (me_kind error) (me_diagnostic error)
  else error.

Definition generated_error_text (kind : ModelErrorKind) : DiagnosticCode * string :=
  match kind with
  | KCancelled => (CodeRuntimeTerminated, "model request cancelled"%string)
  | KTimeout => (CodeModelTimeout, "model request timed out"%string)
  | KPanicked => (CodeInternal, "model driver panicked"%string)
  | KInvalidRequest => (CodeInvalidConfiguration, "invalid model request"%string)
  | KInvalidProviderResponse | KUnexpectedToolCall | KIncompleteResponse =>
      (CodeModelMalformedResponse, "invalid model provider response"%string)
  | KProviderUnavailable | KUnavailable => (CodeModelUnavailable, "model provider unavailable"%string)
  | _ => (CodeInternal, "model operation failed"%string)
  end.

(** The static texts fit ([generated_error_text_fits]), so the two [expect]s of
    the code do not fire and the diagnostic is the static one. *)
Definition generated_error (kind : ModelErrorKind) (delivery : DeliveryState) : ModelError :=
  let '(code, msg) := generated_error_text kind in
  let diagnostic := static_diagnostic code CatModel msg false in
  match delivery with
  | NotStarted => ModelError_permanent kind NotStarted diagnostic
  | Started => ModelError_started kind diagnostic
  | DeliveryUnknown => ModelError_unknown kind diagnostic
  end.

(** ** Facts *)

Lemma generated_error_text_fits kind :
  let '(code, msg) := generated_error_text kind in
  bounded_static code CatModel msg false = Some (static_diagnostic code CatModel msg false).
Proof. destruct kind; vm_compute; reflexivity. Qed.

Lemma generated_error_kind k d : me_kind (generated_error k d) = k.
Proof. by destruct k, d. Qed.
Lemma generated_error_delivery k d : me_delivery (generated_error k d) = d.
Proof. by destruct k, d. Qed.
Lemma generated_error_hint k d : me_retry_hint (generated_error k d) = RetryNever.
Proof. by destruct k, d. Qed.
Lemma generated_error_ok k d : model_error_ok (generated_error k d).
Proof. by destruct k, d. Qed.

#[export] Hint Rewrite generated_error_kind generated_error_delivery generated_error_hint : runtime.

Lemma effective_deadline_from_Ok now turn timeout d :
  effective_deadline_from now turn timeout = Ok d ↔
  now + timeout ≤ INSTANT_MAX ∧
  d = (if turn <=? now + timeout then mkEffectiveDeadline turn turn DsTurn
       else mkEffectiveDeadline (now + timeout) (now + timeout) DsPort).
Proof.
  unfold effective_deadline_from. rewrite result_bind_Ok. setoid_rewrite ok_or_Ok.
  unfold instant_checked_add. setoid_rewrite checked_add_Some. split.
  - intros (p & [-> ?] & Hd). split; [done|]. by destruct (turn <=? _); injection Hd as <-.
  - intros [? ->]. exists (now + timeout). split; [by split|]. by destruct (turn <=? now + timeout).
Qed.

Lemma exponential_step_le e : exponential_step e ≤ MAX_MODEL_RETRY_DELAY.
Proof. unfold exponential_step. lia. Qed.

(** With a base within the cap the delay is the doubled base, capped. *)
Lemma exponential_iter n base :
  base ≤ MAX_MODEL_RETRY_DELAY →
  Nat.iter n exponential_step base = N.min (base * 2 ^ N.of_nat n) MAX_MODEL_RETRY_DELAY.
Proof.
  intros Hb. induction n as [|n IH]; [simpl; lia|].
  cbn [Nat.iter nat_rect]. change (nat_rect _ base (λ _, exponential_step) n)
    with (Nat.iter n exponential_step base). rewrite IH.
  rewrite Nat2N.inj_succ, N.pow_succ_r'. unfold exponential_step, duration_checked_mul, checked_mul.
  set (x := base * 2 ^ N.of_nat n). replace (base * (2 * 2 ^ N.of_nat n)) with (x * 2) by lia.
  assert (MAX_MODEL_RETRY_DELAY * 2 ≤ DURATION_MAX) by (vm_compute; discriminate).
  rewrite (proj2 (N.leb_le _ _)) by lia. simpl. lia.
Qed.

Lemma evaluate_retry_Some p attempt f now deadline delay :
  evaluate_retry p attempt f now deadline = Some delay ↔
  attempt + 1 < rp_max_attempts p ∧ af_observed_event f = false ∧
  me_delivery (af_error f) = NotStarted ∧
  (∃ after, me_retry_hint (af_error f) = Retryable after ∧
    delay_for_retry p attempt after = Some delay) ∧
  now + delay < deadline ∧ now + delay ≤ INSTANT_MAX.
Proof.
  unfold evaluate_retry.
  destruct (N.leb_spec (rp_max_attempts p) (attempt + 1)); [simpl; split; [done|lia]|].
  destruct (af_observed_event f); [simpl; naive_solver|]. simpl.
  case_bool_decide as Hd; [naive_solver|].
  destruct (me_retry_hint (af_error f)) as [|after]; [naive_solver|].
  unfold retry_fits, instant_checked_add.
  destruct (delay_for_retry p attempt after) as [d|] eqn:E; simpl; [|naive_solver].
  destruct (checked_add INSTANT_MAX now d) as [at_|] eqn:Ea.
  - apply checked_add_Some in Ea as [-> ?]. destruct (N.ltb_spec (now + d) deadline).
    + split; [intros [= <-]|intros (_&_&_&(?&[= <-]&Hd')&_)].
      * repeat split; eauto.
      * congruence.
    + split; [done|]. intros (_&_&_&(?&[= <-]&Hd')&?&_). simplify_eq. lia.
  - apply checked_add_None in Ea. split; [done|].
    intros (_&_&_&(?&[= <-]&Hd')&_&?). simplify_eq. lia.
Qed.

(** Within the cap, so is every delay. *)
Lemma evaluate_retry_delay p attempt f now deadline delay :
  rp_base_delay p ≤ MAX_MODEL_RETRY_DELAY → evaluate_retry p attempt f now deadline = Some delay →
  delay ≤ MAX_MODEL_RETRY_DELAY.
Proof.
  intros Hb (_ & _ & _ & (after & _ & Hd) & _)%evaluate_retry_Some. unfold delay_for_retry in Hd.
  rewrite exponential_iter in Hd by done. destruct after as [v|]; [|injection Hd as <-; lia].
  destruct (N.ltb_spec MAX_MODEL_RETRY_DELAY v); [done|]. injection Hd as <-. lia.
Qed.

Lemma normalize_after_event_ok e b : model_error_ok e → model_error_ok (normalize_after_event e b).
Proof. unfold normalize_after_event. by case_match. Qed.

Lemma normalize_after_event_observed e :
  me_delivery (normalize_after_event e true) = Started ∧
  me_retry_hint (normalize_after_event e true) = RetryNever.
Proof.
  unfold normalize_after_event. simpl. destruct e as [k d h g]; simpl.
  destruct (decide (d = Started)), (decide (h = RetryNever));
    rewrite ?bool_decide_eq_false_2 by naive_solver; subst; simpl;
    repeat case_bool_decide; try done; naive_solver.
Qed.

(** ** Properties *)

(** The effective deadline of a call is the earlier of the turn deadline and
    the port's own timeout, attributed to the turn on a tie; it exists unless the
    clock plus the timeout overflows an instant. *)
Theorem effective_deadline_spec (now turn timeout : N) :
  match effective_deadline_from now turn timeout with
  | Ok d => now + timeout ≤ INSTANT_MAX ∧
      ed_tokio d = N.min turn (now + timeout) ∧ ed_standard d = ed_tokio d ∧
      (ed_source d = DsTurn ↔ turn ≤ now + timeout)
  | Err _ => INSTANT_MAX < now + timeout
  end.
Proof.
  destruct (effective_deadline_from now turn timeout) as [d|e] eqn:E.
  - apply effective_deadline_from_Ok in E as [Hm ->].
    destruct (N.leb_spec turn (now + timeout)); simpl; repeat split; try done; lia.
  - destruct (N.le_gt_cases (now + timeout) INSTANT_MAX); [|done]. exfalso.
    unfold effective_deadline_from, instant_checked_add in E.
    rewrite (proj2 (checked_add_Some _ _ _ (now + timeout))) in E by done. simpl in E.
    by destruct (turn <=? now + timeout).
Qed.

(** C28: the retry policy grants a delay only before the last attempt, only for an
    error that says it is retryable, was not started and came before any stream
    event, and only if the retry falls before the deadline; the delay is the
    exponential backoff capped at 30 seconds, or the provider's own longer wait,
    and never exceeds 30 seconds. *)
Theorem evaluate_retry_spec p attempt f now deadline delay :
  rp_base_delay p ≤ MAX_MODEL_RETRY_DELAY →
  evaluate_retry p attempt f now deadline = Some delay →
  attempt + 1 < rp_max_attempts p ∧
  af_observed_event f = false ∧ me_delivery (af_error f) = NotStarted ∧
  (∃ after, me_retry_hint (af_error f) = Retryable after ∧
    delay = N.max (default 0 after)
      (N.min (rp_base_delay p * 2 ^ attempt) MAX_MODEL_RETRY_DELAY)) ∧
  delay ≤ MAX_MODEL_RETRY_DELAY ∧ now + delay < deadline.
Proof.
  intros Hb (?&?&?&(after & Ha & Hdel)&?&?)%evaluate_retry_Some.
  unfold delay_for_retry in Hdel. rewrite exponential_iter, N2Nat.id in Hdel by done.
  assert (delay = N.max (default 0 after)
      (N.min (rp_base_delay p * 2 ^ attempt) MAX_MODEL_RETRY_DELAY) ∧
      delay ≤ MAX_MODEL_RETRY_DELAY) as [??].
  { destruct after as [v|]; simpl in *; [|injection Hdel as <-; lia].
    destruct (N.ltb_spec MAX_MODEL_RETRY_DELAY v); [done|]. injection Hdel as <-. lia. }
  eauto 10.
Qed.

Definition demo_policy : RetryPolicySnapshot := mkRetryPolicySnapshot 3 NANOS.
Definition demo_failure : AttemptFailure :=
  AttemptFailure_new (ModelError_not_started KUnavailable (Some (3 * NANOS))
    (static_diagnostic CodeInternal CatModel "down" false)) false.

Lemma evaluate_retry_spec_witness :
  evaluate_retry demo_policy 1 demo_failure 5 (10 * NANOS) = Some (3 * NANOS) ∧
  5 + 3 * NANOS < 10 * NANOS.
Proof.
  split; [reflexivity|].
  apply (evaluate_retry_spec demo_policy 1 demo_failure 5 (10 * NANOS) (3 * NANOS)).
  - vm_compute. discriminate.
  - reflexivity.
Defined.
