(* ===== verification/Assembler.v ===== *)
(** * The stream assembler

    Models src/src/model/driver/assembler.rs: the accumulator that turns the
    events of one provider stream into a canonical response. A push returns the
    mutated assembler with its result, because the code mutates it before some of
    its errors; [None] is a panic ([expect], or indexing out of range). *)

From S2P Require Import Prelude Text Json Ids Limits ToolTypes ModelError Message Request Failure.
Local Open Scope N_scope.

Section assembler.
Context `{SerdeJson}.

Inductive PartSlot := SlotText | SlotReasoning | SlotTool (index : nat).

Record ToolAssembly := mkToolAssembly {
  ta_tool_call_id : ToolCallId;
  ta_name : ToolName;
  ta_arguments_text : str;
  ta_call : option ToolCall;
  ta_call_index : N;
}.

Record Assembler := mkAssembler {
  as_request_tools : list ToolSpec;
  as_limits : LoopLimits;
  as_slots : list PartSlot;
  as_text : str;
  as_reasoning : str;
  as_text_ended_with_cr : bool;
  as_reasoning_ended_with_cr : bool;
  as_tools : list ToolAssembly;
  as_usage : option Usage;
  as_provider_replay : option ProviderReplay;
  as_finish_reason : option ModelFinishReason;
  as_observed_event : bool;
}.

Inductive ModelDriverProgress :=
| ProgressText (delta : BoundedText)
| ProgressReasoning (delta : BoundedText).

Definition Assembler_new (request_tools : list ToolSpec) (limits : LoopLimits) : Assembler :=
  mkAssembler request_tools limits [] [] [] false false [] None None None false.

(** Field updates. *)
Definition set_text (a : Assembler) slots text : Assembler :=
  mkAssembler (as_request_tools a) (as_limits a) slots text (as_reasoning a)
    (as_text_ended_with_cr a) (as_reasoning_ended_with_cr a) (as_tools a) (as_usage a)
    (as_provider_replay a) (as_finish_reason a) (as_observed_event a).
Definition set_reasoning (a : Assembler) slots reasoning : Assembler :=
  mkAssembler (as_request_tools a) (as_limits a) slots (as_text a) reasoning
    (as_text_ended_with_cr a) (as_reasoning_ended_with_cr a) (as_tools a) (as_usage a)
    (as_provider_replay a) (as_finish_reason a) (as_observed_event a).
Definition set_crs (a : Assembler) t r : Assembler :=
  mkAssembler (as_request_tools a) (as_limits a) (as_slots a) (as_text a) (as_reasoning a)
    t r (as_tools a) (as_usage a) (as_provider_replay a) (as_finish_reason a)
    (as_observed_event a).
Definition set_tools (a : Assembler) slots tools : Assembler :=
  mkAssembler (as_request_tools a) (as_limits a) slots (as_text a) (as_reasoning a)
    (as_text_ended_with_cr a) (as_reasoning_ended_with_cr a) tools (as_usage a)
    (as_provider_replay a) (as_finish_reason a) (as_observed_event a).
Definition set_ends (a : Assembler) usage replay reason observed : Assembler :=
  mkAssembler (as_request_tools a) (as_limits a) (as_slots a) (as_text a) (as_reasoning a)
    (as_text_ended_with_cr a) (as_reasoning_ended_with_cr a) (as_tools a) usage replay
    reason observed.

Definition set_observed_event (a : Assembler) : Assembler :=
  set_ends a (as_usage a) (as_provider_replay a) (as_finish_reason a) true.

(** The two messages of [assembler_error] are static and fit. *)
Definition assembler_error (kind : ModelErrorKind) : ModelError :=
  let message :=
    match kind with
    | KUnexpectedToolCall => "unexpected tool call in model response"%string
    | _ => "invalid model provider response"%string
    end in
  ModelError_started kind (static_diagnostic CodeModelMalformedResponse CatModel message false).

(** [append_bounded]: the new text, if it fits. *)
Definition append_bounded (target delta : str) (maximum : N) : result ModelError str :=
  length ← ok_or (checked_add usize_MAX (str_len target) (str_len delta))
    (assembler_error KInvalidProviderResponse);
  guard_err (maximum <? length) (assembler_error KInvalidProviderResponse) $
  Ok (target ++ delta).

(** [normalized_delta]: the delta and the new value of [ended_with_cr]. *)
Definition normalized_delta (delta : BoundedText) (ended_with_cr : bool) :
    option (BoundedText * bool) :=
  if BoundedText_is_empty delta then Some (delta, ended_with_cr)
  else
    let raw := as_str delta in
    let text := if ended_with_cr then default raw (strip_prefix_char LF raw) else raw in
    let ended_with_cr := ends_with_char CR raw in
    let fresh text :=
      match BoundedText_new text with
      | Ok delta => Some (delta, ended_with_cr)
      | Err _ => None
      end in
    match normalize_model_text text with
    | Borrowed text => if str_len text =? str_len raw then Some (delta, ended_with_cr) else fresh text
    | Owned text => fresh text
    end.

(** [tool_mut]: where the first call with this identifier is. *)
Definition tool_mut (tools : list ToolAssembly) (id : ToolCallId) :
    result ModelError (nat * ToolAssembly) :=
  ok_or (list_find (λ tool, ta_tool_call_id tool = id) tools)
    (assembler_error KInvalidProviderResponse).

Definition push_outcome : Type := Assembler * result ModelError (option ModelDriverProgress).

Definition push_text_delta (a : Assembler) (delta : BoundedText) : option push_outcome :=
  '(delta, ended) ← normalized_delta delta (as_text_ended_with_cr a);
  let a := set_crs a ended (as_reasoning_ended_with_cr a) in
  if BoundedText_is_empty delta then Some (a, Ok None)
  else
    let a :=
      if str_is_empty (as_text a) then set_text a (as_slots a ++ [SlotText]) (as_text a) else a in
    match append_bounded (as_text a) (as_str delta) (max_model_text_bytes (as_limits a)) with
    | Err e => Some (a, Err e)
    | Ok text => Some (set_text a (as_slots a) text, Ok (Some (ProgressText delta)))
    end.

Definition push_reasoning_delta (a : Assembler) (delta : BoundedText) : option push_outcome :=
  '(delta, ended) ← normalized_delta delta (as_reasoning_ended_with_cr a);
  let a := set_crs a (as_text_ended_with_cr a) ended in
  if BoundedText_is_empty delta then Some (a, Ok None)
  else
    let a :=
      if str_is_empty (as_reasoning a)
      then set_reasoning a (as_slots a ++ [SlotReasoning]) (as_reasoning a) else a in
    match append_bounded (as_reasoning a) (as_str delta)
            (max_model_reasoning_bytes (as_limits a)) with
    | Err e => Some (a, Err e)
    | Ok text => Some (set_reasoning a (as_slots a) text, Ok (Some (ProgressReasoning delta)))
    end.

Definition push_tool_call_start (a : Assembler) (id : ToolCallId) (name : ToolName) : push_outcome :=
  if negb (existsb (λ tool, bool_decide (ts_name tool = name)) (as_request_tools a))
  then (a, Err (assembler_error KUnexpectedToolCall))
  else if (max_tool_calls_per_response (as_limits a) <=? N.of_nat (length (as_tools a)))
          || existsb (λ tool, bool_decide (ta_tool_call_id tool = id)) (as_tools a)
  then (a, Err (assembler_error KInvalidProviderResponse))
  else
    let index := length (as_tools a) in
    if u32_MAX <? N.of_nat index then (a, Err (assembler_error KInvalidProviderResponse))
    else
      (set_tools a (as_slots a ++ [SlotTool index])
         (as_tools a ++ [mkToolAssembly id name [] None (N.of_nat index)]), Ok None).

Definition push_tool_call_arguments_delta (a : Assembler) (id : ToolCallId)
    (delta : BoundedText) : push_outcome :=
  let delta := cow_str (normalize_model_text (as_str delta)) in
  match tool_mut (as_tools a) id with
  | Err e => (a, Err e)
  | Ok (i, tool) =>
      if bool_decide (ta_call tool ≠ None)
      then (a, Err (assembler_error KInvalidProviderResponse))
      else
        match append_bounded (ta_arguments_text tool) delta MAX_JSON_BYTES with
        | Err e => (a, Err e)
        | Ok text =>
            (set_tools a (as_slots a)
               (<[i := mkToolAssembly (ta_tool_call_id tool) (ta_name tool) text
                         (ta_call tool) (ta_call_index tool)]> (as_tools a)), Ok None)
        end
  end.

Definition push_tool_call_end (a : Assembler) (id : ToolCallId) : push_outcome :=
  match tool_mut (as_tools a) id with
  | Err e => (a, Err e)
  | Ok (i, tool) =>
      if bool_decide (ta_call tool ≠ None) || str_is_empty (ta_arguments_text tool)
      then (a, Err (assembler_error KInvalidProviderResponse))
      else
        match from_str (ta_arguments_text tool) with
        | None => (a, Err (assembler_error KInvalidProviderResponse))
        | Some arguments =>
            match ToolCall_new_with_max_bytes (ta_tool_call_id tool) (ta_name tool) arguments
                    (ta_call_index tool) (max_tool_arguments_bytes (as_limits a)) with
            | Err _ => (a, Err (assembler_error KInvalidProviderResponse))
            | Ok call =>
                (set_tools a (as_slots a)
                   (<[i := mkToolAssembly (ta_tool_call_id tool) (ta_name tool)
                             (ta_arguments_text tool) (Some call) (ta_call_index tool)]>
                      (as_tools a)), Ok None)
            end
        end
  end.

Definition push (a : Assembler) (event : ModelEvent) : option push_outcome :=
  let invalid := Err (assembler_error KInvalidProviderResponse) in
  if bool_decide (as_finish_reason a ≠ None) || is_err (ModelEvent_validate event)
  then Some (a, invalid)
  else
    match event with
    | EvTextDelta delta => push_text_delta a delta
    | EvReasoningDelta delta => push_reasoning_delta a delta
    | EvToolCallStart id name => Some (push_tool_call_start a id name)
    | EvToolCallArgumentsDelta id delta => Some (push_tool_call_arguments_delta a id delta)
    | EvToolCallEnd id => Some (push_tool_call_end a id)
    | EvUsage usage =>
        let a' := set_ends a (Some usage) (as_provider_replay a) (as_finish_reason a)
                    (as_observed_event a) in
        Some (a', if bool_decide (as_usage a ≠ None) then invalid else Ok None)
    | EvProviderReplay replay =>
        let a' := set_ends a (as_usage a) (Some replay) (as_finish_reason a)
                    (as_observed_event a) in
        Some (a', if bool_decide (as_provider_replay a ≠ None) then invalid else Ok None)
    | EvFinish reason =>
        if existsb (λ tool, bool_decide (ta_call tool = None)) (as_tools a) then Some (a, invalid)
        else
          Some (set_ends a (as_usage a) (as_provider_replay a) (Some reason)
                  (as_observed_event a), Ok None)
    end.

(** The [for slot in self.slots] loop: [text] and [reasoning] are taken by the
    first slot that needs them, a tool's call by its slot. *)
Fixpoint finish_slots (slots : list PartSlot) (text reasoning : str)
    (tools : list ToolAssembly) (parts : list AssistantPart) :
    option (result ModelError (list AssistantPart)) :=
  match slots with
  | [] => Some (Ok parts)
  | SlotText :: slots => finish_slots slots [] reasoning tools (parts ++ [PartText text])
  | SlotReasoning :: slots =>
      match ReasoningContent_new (Some reasoning) None None None with
      | Err _ => Some (Err (assembler_error KInvalidProviderResponse))
      | Ok r => finish_slots slots text [] tools (parts ++ [PartReasoning r])
      end
  | SlotTool index :: slots =>
      tool ← tools !! index;
      call ← ta_call tool;
      finish_slots slots text reasoning
        (<[index := mkToolAssembly (ta_tool_call_id tool) (ta_name tool)
                      (ta_arguments_text tool) None (ta_call_index tool)]> tools)
        (parts ++ [PartToolCall call])
  end.

Definition finish (a : Assembler) : option (result ModelError ModelResponse) :=
  match as_finish_reason a with
  | None =>
      Some (Err (generated_error KIncompleteResponse (observed_delivery (as_observed_event a))))
  | Some reason =>
      let has_tools := match as_tools a with [] => false | _ => true end in
      if (has_tools && negb (bool_decide (reason = FinishToolCalls)
                             || bool_decide (reason = FinishUnknown)))
         || (negb has_tools && bool_decide (reason = FinishToolCalls))
      then Some (Err (assembler_error KInvalidProviderResponse))
      else if (bool_decide (reason = FinishContentFiltered) || bool_decide (reason = FinishRefused))
              && str_is_empty (as_text a)
      then Some (Err (assembler_error KInvalidProviderResponse))
      else
        parts ← finish_slots (as_slots a) (as_text a) (as_reasoning a) (as_tools a) [];
        Some (parts ← parts;
              map_err (λ _, assembler_error KInvalidProviderResponse)
                (ModelResponse_new_with_provider_replay parts reason
                   (Some (default Usage_default (as_usage a))) (as_provider_replay a)))
  end.

(** The stream loop of the driver, as far as the assembler sees it: the events
    that arrived, pushed until one is refused. The progress is what the pushes
    returned. *)
Fixpoint push_all (a : Assembler) (events : list ModelEvent) :
    option (result ModelError (Assembler * list ModelDriverProgress)) :=
  match events with
  | [] => Some (Ok (a, []))
  | event :: events =>
      '(a, r) ← push (set_observed_event a) event;
      match r with
      | Err e => Some (Err e)
      | Ok progress =>
          rest ← push_all a events;
          Some ('(a, ps) ← rest; Ok (a, option_list progress ++ ps))
      end
  end.

(** ** Facts: deltas *)

Definition raw_text_of (e : ModelEvent) : str :=
  match e with EvTextDelta d => as_str d | _ => [] end.
Definition raw_reasoning_of (e : ModelEvent) : str :=
  match e with EvReasoningDelta d => as_str d | _ => [] end.
Definition raw_text (events : list ModelEvent) : str := events ≫= raw_text_of.
Definition raw_reasoning (events : list ModelEvent) : str := events ≫= raw_reasoning_of.

Definition progress_text_of (p : ModelDriverProgress) : str :=
  match p with ProgressText d => as_str d | ProgressReasoning _ => [] end.
Definition progress_reasoning_of (p : ModelDriverProgress) : str :=
  match p with ProgressReasoning d => as_str d | ProgressText _ => [] end.
Definition progress_text (ps : list ModelDriverProgress) : str := ps ≫= progress_text_of.
Definition progress_reasoning (ps : list ModelDriverProgress) : str := ps ≫= progress_reasoning_of.

Lemma ends_with_char_app p a b :
  b ≠ [] → ends_with_char p (a ++ b) = ends_with_char p b.
Proof.
  intros Hb. induction a as [|c a IH]; [done|]. simpl.
  destruct (a ++ b) as [|d r] eqn:E; [|done]. apply app_eq_nil in E as [_ ->]. done.
Qed.

Lemma strip_prefix_char_len p s : str_len (default s (strip_prefix_char p s)) ≤ str_len s.
Proof. destruct s as [|c s]; simpl; [done|]. case_match; simpl; lia. Qed.

Lemma strip_prefix_char_len_eq p s :
  str_len (default s (strip_prefix_char p s)) = str_len s → default s (strip_prefix_char p s) = s.
Proof.
  destruct s as [|c s]; simpl; [done|]. pose proof (len_utf8_pos c).
  case_match; simpl; [lia|done].
Qed.

(** One delta, against everything received so far. *)
Lemma normalized_delta_spec raw d :
  str_len (as_str d) ≤ BoundedText_MAX_BYTES →
  ∃ d', normalized_delta d (ends_with_char CR raw) = Some (d', ends_with_char CR (raw ++ as_str d)) ∧
    normalize_chars (raw ++ as_str d) = normalize_chars raw ++ as_str d' ∧
    str_len (as_str d') ≤ str_len (as_str d).
Proof.
  intros Hd. unfold normalized_delta, BoundedText_is_empty.
  destruct (str_is_empty (as_str d)) eqn:Ee.
  { apply str_is_empty_true in Ee. exists d. by rewrite Ee, !app_nil_r. }
  apply str_is_empty_false in Ee. rewrite ends_with_char_app by done.
  rewrite (normalize_chars_app raw (as_str d)).
  set (text := if ends_with_char CR raw then default (as_str d) (strip_prefix_char LF (as_str d))
               else as_str d).
  assert (Hlen : str_len text ≤ str_len (as_str d)).
  { unfold text. case_match; [apply strip_prefix_char_len|lia]. }
  assert (Heq : str_len text = str_len (as_str d) → text = as_str d).
  { unfold text. case_match; [apply strip_prefix_char_len_eq|done]. }
  assert (Hnew : ∀ t, str_len t ≤ str_len text → BoundedText_new t = Ok (mkBoundedText t)).
  { intros t Ht. apply BoundedText_new_Ok. split; [lia|done]. }
  pose proof (cow_str_normalize text) as Hcow. pose proof (normalize_chars_len text) as Hnl.
  destruct (normalize_model_text text) as [t|t] eqn:En; simpl in Hcow; subst t.
  - assert (normalize_chars text = text) as Hid.
    { unfold normalize_model_text in En. case_match; [by injection En as <-|done]. }
    rewrite Hid in *. destruct (N.eqb_spec (str_len text) (str_len (as_str d))) as [He|].
    + exists d. rewrite (Heq He). done.
    + rewrite Hnew by done. by exists (mkBoundedText text).
  - rewrite Hnew by done. eexists. split; [done|]. simpl. split; [done|lia].
Qed.

Lemma append_bounded_Ok t d m t' :
  append_bounded t d m = Ok t' ↔ str_len (t ++ d) ≤ m ∧ str_len (t ++ d) ≤ usize_MAX ∧ t' = t ++ d.
Proof.
  unfold append_bounded. rewrite result_bind_Ok, str_len_app. setoid_rewrite ok_or_Ok.
  setoid_rewrite checked_add_Some. setoid_rewrite guard_err_Ok. setoid_rewrite N.ltb_ge.
  split; [intros (l & [-> ?] & ? & [= <-]); done|intros (? & ? & ->); eauto].
Qed.

Lemma append_bounded_Err t d m e :
  append_bounded t d m = Err e → e = assembler_error KInvalidProviderResponse.
Proof.
  unfold append_bounded, ok_or, guard_err. case_match; simpl; [case_match|]; by intros [= <-].
Qed.

(** ** Facts: the invariant of a running assembler *)

Definition slot_index (s : PartSlot) : option nat :=
  match s with SlotTool i => Some i | _ => None end.

Definition call_of (t : ToolAssembly) (limits : LoopLimits) (c : ToolCall) : Prop :=
  from_str (ta_arguments_text t) = Some (tc_arguments c) ∧
  ToolCall_new_with_max_bytes (ta_tool_call_id t) (ta_name t) (tc_arguments c)
    (ta_call_index t) (max_tool_arguments_bytes limits) = Ok c.

Record tool_ok (tools : list ToolSpec) (limits : LoopLimits) (i : nat) (t : ToolAssembly) : Prop := {
  tok_index : ta_call_index t = N.of_nat i;
  tok_offered : Exists (λ s, ts_name s = ta_name t) tools;
  tok_call : ∀ c, ta_call t = Some c → call_of t limits c;
}.

Record asm_inv (tools : list ToolSpec) (limits : LoopLimits) (events : list ModelEvent)
    (a : Assembler) : Prop := {
  ai_tools : as_request_tools a = tools;
  ai_limits : as_limits a = limits;
  ai_text : as_text a = normalize_chars (raw_text events);
  ai_text_cr : as_text_ended_with_cr a = ends_with_char CR (raw_text events);
  ai_text_len : str_len (as_text a) ≤ max_model_text_bytes limits;
  ai_reasoning : as_reasoning a = normalize_chars (raw_reasoning events);
  ai_reasoning_cr : as_reasoning_ended_with_cr a = ends_with_char CR (raw_reasoning events);
  ai_reasoning_len : str_len (as_reasoning a) ≤ max_model_reasoning_bytes limits;
  ai_slots_nodup : NoDup (as_slots a);
  ai_slot_text : SlotText ∈ as_slots a ↔ as_text a ≠ [];
  ai_slot_reasoning : SlotReasoning ∈ as_slots a ↔ as_reasoning a ≠ [];
  ai_slot_tools : omap slot_index (as_slots a) = seq 0 (length (as_tools a));
  ai_tools_ok : ∀ i t, as_tools a !! i = Some t → tool_ok tools limits i t;
  ai_tools_nodup : NoDup (ta_tool_call_id <$> as_tools a);
  ai_tools_len : N.of_nat (length (as_tools a)) ≤ max_tool_calls_per_response limits;
  ai_finish : is_Some (as_finish_reason a) → Forall (λ t, is_Some (ta_call t)) (as_tools a);
  ai_observed : as_observed_event a = bool_decide (events ≠ []);
}.

Lemma asm_inv_new tools limits : asm_inv tools limits [] (Assembler_new tools limits).
Proof.
  split; simpl; try done; try lia; try constructor; try set_solver.
Qed.

Lemma raw_text_snoc es e : raw_text (es ++ [e]) = raw_text es ++ raw_text_of e.
Proof. unfold raw_text. rewrite bind_app. simpl. by rewrite app_nil_r. Qed.
Lemma raw_reasoning_snoc es e : raw_reasoning (es ++ [e]) = raw_reasoning es ++ raw_reasoning_of e.
Proof. unfold raw_reasoning. rewrite bind_app. simpl. by rewrite app_nil_r. Qed.

Lemma observed_snoc {A} (es : list A) e : true = bool_decide (es ++ [e] ≠ []).
Proof. symmetry. apply bool_decide_eq_true. by destruct es. Qed.

Lemma slots_snoc_other slots s n :
  slot_index s = None → omap slot_index slots = seq 0 n → omap slot_index (slots ++ [s]) = seq 0 n.
Proof. intros Hs <-. rewrite omap_app. simpl. rewrite Hs. by rewrite app_nil_r. Qed.

Lemma NoDup_snoc {A} (l : list A) x : NoDup l → x ∉ l → NoDup (l ++ [x]).
Proof. intros. apply NoDup_app. split; [done|]. split; [set_solver|apply NoDup_singleton]. Qed.

Lemma tools_slot_lt a tools limits es i :
  asm_inv tools limits es a → SlotTool i ∈ as_slots a ↔ (i < length (as_tools a))%nat.
Proof.
  intros Hi. assert (i ∈ omap slot_index (as_slots a) ↔ (i < length (as_tools a))%nat) as <-.
  { rewrite (ai_slot_tools _ _ _ _ Hi), elem_of_seq. lia. }
  rewrite list_elem_of_omap. split; [by exists (SlotTool i)|].
  intros ([| |j] & Hin & Hj); try done. by injection Hj as ->.
Qed.

(** Dispatches the fields of the invariant a step leaves alone. *)
Ltac keep_inv Hi :=
  split; simpl; rewrite ?raw_text_snoc, ?raw_reasoning_snoc, ?app_nil_r;
  try (apply Hi); try (apply observed_snoc).

Section step.
Context (tools : list ToolSpec) (limits : LoopLimits).
Implicit Types (a : Assembler) (es : list ModelEvent).

Lemma push_text_delta_step a es d :
  asm_inv tools limits es a → as_finish_reason a = None →
  str_len (as_str d) ≤ BoundedText_MAX_BYTES →
  ∃ a' r, push_text_delta (set_observed_event a) d = Some (a', r) ∧
  match r with
  | Ok p => asm_inv tools limits (es ++ [EvTextDelta d]) a' ∧
      as_text a' = as_text a ++ progress_text (option_list p) ∧
      progress_reasoning (option_list p) = []
  | Err e => e = assembler_error KInvalidProviderResponse
  end.
Proof.
  intros Hi Hfin Hd. unfold push_text_delta. cbn [as_text_ended_with_cr set_observed_event set_ends].
  rewrite (ai_text_cr _ _ _ _ Hi).
  destruct (normalized_delta_spec (raw_text es) d Hd) as (d' & -> & Hn & _). simpl.
  unfold BoundedText_is_empty. destruct (str_is_empty (as_str d')) eqn:Ee.
  { apply str_is_empty_true in Ee. rewrite Ee, app_nil_r in Hn. do 2 eexists. split; [done|].
    split; [|by rewrite app_nil_r]. keep_inv Hi; simpl; rewrite ?Hn; try apply Hi; done. }
  apply str_is_empty_false in Ee.
  pose proof (ai_text _ _ _ _ Hi) as Ht. rewrite <- Ht in Hn.
  destruct (str_is_empty (as_text a)) eqn:Et; simpl;
    rewrite (ai_limits _ _ _ _ Hi);
    (destruct (append_bounded _ _ _) as [t'|e] eqn:Ea; [|do 2 eexists; split; [done|]]).
  all: try (by apply append_bounded_Err in Ea).
  all: apply append_bounded_Ok in Ea as (Hl & _ & ->); do 2 eexists; (split; [done|]);
    (split; [|simpl; by rewrite app_nil_r]).
  - apply str_is_empty_true in Et.
    assert (SlotText ∉ as_slots a) as Hns.
    { rewrite (ai_slot_text _ _ _ _ Hi), Et. tauto. }
    keep_inv Hi; simpl; try done.
    + by apply NoDup_snoc; [apply Hi|].
    + rewrite Et. simpl. split; [done|set_solver].
    + rewrite <- (ai_slot_reasoning _ _ _ _ Hi). set_solver.
    + apply slots_snoc_other; [done|apply Hi].
  - apply str_is_empty_false in Et. keep_inv Hi; simpl; try done.
    rewrite (ai_slot_text _ _ _ _ Hi). split; [|done]. intros _ [? ?]%app_eq_nil. done.
Qed.
Lemma push_reasoning_delta_step a es d :
  asm_inv tools limits es a → as_finish_reason a = None →
  str_len (as_str d) ≤ BoundedText_MAX_BYTES →
  ∃ a' r, push_reasoning_delta (set_observed_event a) d = Some (a', r) ∧
  match r with
  | Ok p => asm_inv tools limits (es ++ [EvReasoningDelta d]) a' ∧
      as_reasoning a' = as_reasoning a ++ progress_reasoning (option_list p) ∧
      progress_text (option_list p) = []
  | Err e => e = assembler_error KInvalidProviderResponse
  end.
Proof.
  intros Hi Hfin Hd. unfold push_reasoning_delta. cbn [as_reasoning_ended_with_cr set_observed_event set_ends].
  rewrite (ai_reasoning_cr _ _ _ _ Hi).
  destruct (normalized_delta_spec (raw_reasoning es) d Hd) as (d' & -> & Hn & _). simpl.
  unfold BoundedText_is_empty. destruct (str_is_empty (as_str d')) eqn:Ee.
  { apply str_is_empty_true in Ee. rewrite Ee, app_nil_r in Hn. do 2 eexists. split; [done|].
    split; [|by rewrite app_nil_r]. keep_inv Hi; simpl; rewrite ?Hn; try apply Hi; done. }
  apply str_is_empty_false in Ee.
  pose proof (ai_reasoning _ _ _ _ Hi) as Ht. rewrite <- Ht in Hn.
  destruct (str_is_empty (as_reasoning a)) eqn:Et; simpl;
    rewrite (ai_limits _ _ _ _ Hi);
    (destruct (append_bounded _ _ _) as [t'|e] eqn:Ea; [|do 2 eexists; split; [done|]]).
  all: try (by apply append_bounded_Err in Ea).
  all: apply append_bounded_Ok in Ea as (Hl & _ & ->); do 2 eexists; (split; [done|]);
    (split; [|simpl; by rewrite app_nil_r]).
  - apply str_is_empty_true in Et.
    assert (SlotReasoning ∉ as_slots a) as Hns.
    { rewrite (ai_slot_reasoning _ _ _ _ Hi), Et. tauto. }
    keep_inv Hi; simpl; try done.
    + by apply NoDup_snoc; [apply Hi|].
    + rewrite <- (ai_slot_text _ _ _ _ Hi). set_solver.
    + rewrite Et. simpl. split; [done|set_solver].
    + apply slots_snoc_other; [done|apply Hi].
  - apply str_is_empty_false in Et. keep_inv Hi; simpl; try done.
    rewrite (ai_slot_reasoning _ _ _ _ Hi). split; [|done]. intros _ [? ?]%app_eq_nil. done.
Qed.

Lemma asm_inv_set_tool a es e i t t' :
  asm_inv tools limits es a → as_finish_reason a = None →
  raw_text_of e = [] → raw_reasoning_of e = [] →
  as_tools a !! i = Some t → ta_tool_call_id t' = ta_tool_call_id t →
  tool_ok tools limits i t' →
  asm_inv tools limits (es ++ [e])
    (set_tools (set_observed_event a) (as_slots a) (<[i := t']> (as_tools a))).
Proof.
  intros Hi Hfin He1 He2 Ht Hid Hok.
  keep_inv Hi; simpl; rewrite ?He1, ?He2, ?app_nil_r, ?length_insert; try apply Hi.
  - intros j u. destruct (decide (i = j)) as [<-|Hne].
    + rewrite list_lookup_insert_eq by (by eapply lookup_lt_Some). by intros [= <-].
    + rewrite list_lookup_insert_ne by done. apply Hi.
  - rewrite list_fmap_insert, Hid, list_insert_id; [apply Hi|]. by rewrite list_lookup_fmap, Ht.
  - rewrite Hfin. by intros [? ?].
Qed.

Lemma tool_mut_Ok a id i t :
  tool_mut (as_tools a) id = Ok (i, t) → as_tools a !! i = Some t ∧ ta_tool_call_id t = id.
Proof. unfold tool_mut. intros (?&?&?)%ok_or_Ok%list_find_Some. done. Qed.

Lemma tool_mut_Err a id e :
  tool_mut (as_tools a) id = Err e → e = assembler_error KInvalidProviderResponse.
Proof. unfold tool_mut, ok_or. case_match; [done|]. by intros [= <-]. Qed.

Lemma push_tool_call_start_step a es id name :
  asm_inv tools limits es a → as_finish_reason a = None →
  match push_tool_call_start (set_observed_event a) id name with
  | (a', Ok p) => asm_inv tools limits (es ++ [EvToolCallStart id name]) a' ∧ p = None
  | (_, Err e) => ∃ k, e = assembler_error k
  end.
Proof.
  intros Hi Hfin. unfold push_tool_call_start.
  cbn [as_request_tools as_tools as_limits as_slots set_observed_event set_ends].
  rewrite (ai_tools _ _ _ _ Hi), (ai_limits _ _ _ _ Hi).
  destruct (existsb _ tools) eqn:Eo; simpl; [|by eexists].
  destruct (_ || _) eqn:El; [by eexists|]. destruct (u32_MAX <? _); [by eexists|].
  bools. match goal with H : existsb _ _ = false |- _ => apply existsb_false in H; rename H into Hf end.
  split; [|done]. keep_inv Hi; simpl; try (rewrite length_app; simpl); try done.
  - apply NoDup_snoc; [apply Hi|]. rewrite (tools_slot_lt _ _ _ _ _ Hi). lia.
  - rewrite <- (ai_slot_text _ _ _ _ Hi). set_solver.
  - rewrite <- (ai_slot_reasoning _ _ _ _ Hi). set_solver.
  - rewrite omap_app, (ai_slot_tools _ _ _ _ Hi), seq_app. done.
  - intros j u [Hj|[? Hj]]%lookup_app_Some; [by apply Hi|].
    apply list_lookup_singleton_Some in Hj as [Hj <-]. split; simpl; [lia| |done].
    apply existsb_Exists in Eo. eapply Exists_impl; [exact Eo|]. intros s Hs.
    by apply bool_decide_eq_true in Hs.
  - rewrite fmap_app. apply NoDup_snoc; [apply Hi|]. simpl.
    intros (u & -> & Hu)%list_elem_of_fmap. rewrite Forall_forall in Hf.
    apply Hf in Hu. by apply bool_decide_eq_false in Hu.
  - lia.
  - rewrite Hfin. by intros [? ?].
Qed.

Lemma push_tool_call_arguments_delta_step a es id d :
  asm_inv tools limits es a → as_finish_reason a = None →
  match push_tool_call_arguments_delta (set_observed_event a) id d with
  | (a', Ok p) => asm_inv tools limits (es ++ [EvToolCallArgumentsDelta id d]) a' ∧ p = None
  | (_, Err e) => ∃ k, e = assembler_error k
  end.
Proof.
  intros Hi Hfin. unfold push_tool_call_arguments_delta. cbn [as_tools set_observed_event set_ends].
  destruct (tool_mut (as_tools a) id) as [[i t]|e] eqn:Et;
    [|apply tool_mut_Err in Et as ->; by eexists].
  apply tool_mut_Ok in Et as [Ht Hid]. case_bool_decide as Hc; [by eexists|].
  destruct (append_bounded _ _ _) as [text|e] eqn:Ea.
  - split; [|done]. apply (asm_inv_set_tool a es _ i t); try done.
    destruct (ai_tools_ok _ _ _ _ Hi i t Ht) as [Hx Ho Hcall]. split; simpl; [done..|].
    intros c Hc'. congruence.
  - apply append_bounded_Err in Ea as ->. by eexists.
Qed.

Lemma push_tool_call_end_step a es id :
  asm_inv tools limits es a → as_finish_reason a = None →
  match push_tool_call_end (set_observed_event a) id with
  | (a', Ok p) => asm_inv tools limits (es ++ [EvToolCallEnd id]) a' ∧ p = None
  | (_, Err e) => ∃ k, e = assembler_error k
  end.
Proof.
  intros Hi Hfin. unfold push_tool_call_end. cbn [as_tools as_limits set_observed_event set_ends].
  destruct (tool_mut (as_tools a) id) as [[i t]|e] eqn:Et;
    [|apply tool_mut_Err in Et as ->; by eexists].
  apply tool_mut_Ok in Et as [Ht Hid]. destruct (_ || _); [by eexists|].
  destruct (from_str _) as [args|] eqn:Ej; [|by eexists].
  destruct (ToolCall_new_with_max_bytes _ _ _ _ _) as [call|] eqn:Ec; [|by eexists].
  split; [|done]. apply (asm_inv_set_tool a es _ i t); try done.
  destruct (ai_tools_ok _ _ _ _ Hi i t Ht) as [Hx Ho _]. split; simpl; [done..|].
  intros c [= <-]. rewrite (ai_limits _ _ _ _ Hi) in Ec. pose proof Ec as Ec'.
  unfold ToolCall_new_with_max_bytes in Ec'. apply guard_err_Ok in Ec' as [_ [= <-]].
  split; simpl; done.
Qed.

(** An event that carries no text, or no reasoning, leaves that of the assembler. *)
Lemma textless_event_step a es e a' :
  asm_inv tools limits es a → asm_inv tools limits (es ++ [e]) a' → raw_text_of e = [] →
  as_text a' = as_text a.
Proof.
  intros Hi Hi' He. rewrite (ai_text _ _ _ _ Hi'), raw_text_snoc, He, app_nil_r. symmetry. apply Hi.
Qed.
Lemma reasonless_event_step a es e a' :
  asm_inv tools limits es a → asm_inv tools limits (es ++ [e]) a' → raw_reasoning_of e = [] →
  as_reasoning a' = as_reasoning a.
Proof.
  intros Hi Hi' He. rewrite (ai_reasoning _ _ _ _ Hi'), raw_reasoning_snoc, He, app_nil_r. symmetry. apply Hi.
Qed.
Lemma quiet_event_step a es e a' :
  asm_inv tools limits es a → asm_inv tools limits (es ++ [e]) a' →
  raw_text_of e = [] → raw_reasoning_of e = [] →
  asm_inv tools limits (es ++ [e]) a' ∧
  as_text a' = as_text a ++ progress_text (option_list None) ∧
  as_reasoning a' = as_reasoning a ++ progress_reasoning (option_list None).
Proof.
  intros Hi Hi' Ht Hr. simpl. rewrite !app_nil_r. eauto using textless_event_step, reasonless_event_step.
Qed.

(** A validated text fits the bounded text of the progress. *)
Lemma event_text_fits d :
  is_err (if byte_len d <=? MAX_MODEL_EVENT_TEXT_BYTES then Ok () else Err InvalidEvent) = false →
  str_len (as_str d) ≤ BoundedText_MAX_BYTES.
Proof.
  unfold byte_len. destruct (N.leb_spec (str_len (as_str d)) MAX_MODEL_EVENT_TEXT_BYTES); [|done].
  intros _. etransitivity; [done|]. vm_compute. discriminate.
Qed.

Lemma push_step a es e :
  asm_inv tools limits es a →
  ∃ a' r, push (set_observed_event a) e = Some (a', r) ∧
  match r with
  | Ok p => asm_inv tools limits (es ++ [e]) a' ∧
      as_text a' = as_text a ++ progress_text (option_list p) ∧
      as_reasoning a' = as_reasoning a ++ progress_reasoning (option_list p)
  | Err e => ∃ k, e = assembler_error k
  end.
Proof.
  intros Hi. unfold push. cbn [as_finish_reason set_observed_event set_ends].
  destruct (bool_decide (as_finish_reason a ≠ None) || is_err (ModelEvent_validate e)) eqn:Eg.
  { do 2 eexists. split; [done|]. by eexists. }
  bools. apply bool_decide_eq_false, dec_stable in H0.
  rename H1 into Hv.
  destruct e as [d|d|id name|id d|id|u|rp|reason]; simpl in Hv.
  - destruct (push_text_delta_step a es d Hi H0 (event_text_fits d Hv)) as (a' & r & -> & Hr).
    do 2 eexists. split; [done|]. destruct r; [|by eexists]. destruct Hr as (Hi' & Ht & Hr).
    rewrite Hr, app_nil_r. eauto using reasonless_event_step.
  - destruct (push_reasoning_delta_step a es d Hi H0 (event_text_fits d Hv)) as (a' & r & -> & Hr).
    do 2 eexists. split; [done|]. destruct r; [|by eexists]. destruct Hr as (Hi' & Ht & Hr).
    rewrite Hr, app_nil_r. eauto using textless_event_step.
  - pose proof (push_tool_call_start_step a es id name Hi H0) as Hs.
    destruct (push_tool_call_start _ _ _) as [a' [p|e]]; do 2 eexists; (split; [done|]); [|done].
    destruct Hs as [Hs ->]. by apply quiet_event_step.
  - pose proof (push_tool_call_arguments_delta_step a es id d Hi H0) as Hs.
    destruct (push_tool_call_arguments_delta _ _ _) as [a' [p|e]]; do 2 eexists; (split; [done|]); [|done].
    destruct Hs as [Hs ->]. by apply quiet_event_step.
  - pose proof (push_tool_call_end_step a es id Hi H0) as Hs.
    destruct (push_tool_call_end _ _) as [a' [p|e]]; do 2 eexists; (split; [done|]); [|done].
    destruct Hs as [Hs ->]. by apply quiet_event_step.
  - do 2 eexists. split; [done|]. case_bool_decide; [by eexists|].
    apply quiet_event_step; [done| |done..]. keep_inv Hi.
  - do 2 eexists. split; [done|]. case_bool_decide; [by eexists|].
    apply quiet_event_step; [done| |done..]. keep_inv Hi.
  - cbn [as_tools set_observed_event set_ends]. destruct (existsb _ _) eqn:Ee;
      do 2 eexists; (split; [done|]); [by eexists|].
    apply quiet_event_step; [done| |done..]. keep_inv Hi. intros _. apply existsb_false in Ee.
    eapply Forall_impl; [exact Ee|]. intros t Ht. by apply bool_decide_eq_false, not_eq_None_Some in Ht.
Qed.

Lemma progress_text_app ps qs : progress_text (ps ++ qs) = progress_text ps ++ progress_text qs.
Proof. apply bind_app. Qed.
Lemma progress_reasoning_app ps qs :
  progress_reasoning (ps ++ qs) = progress_reasoning ps ++ progress_reasoning qs.
Proof. apply bind_app. Qed.

Lemma push_all_step events : ∀ a es,
  asm_inv tools limits es a →
  ∃ r, push_all a events = Some r ∧
  match r with
  | Ok (a', ps) => asm_inv tools limits (es ++ events) a' ∧
      as_text a' = as_text a ++ progress_text ps ∧
      as_reasoning a' = as_reasoning a ++ progress_reasoning ps
  | Err e => ∃ k, e = assembler_error k
  end.
Proof.
  induction events as [|e events IH]; intros a es Hi; cbn [push_all].
  { eexists. split; [done|]. simpl. rewrite !app_nil_r. done. }
  destruct (push_step a es e Hi) as (a1 & r & -> & Hr). simpl.
  destruct r as [p|e']; [|eexists; split; [done|exact Hr]].
  destruct Hr as (Hi1 & Ht1 & Hr1).
  destruct (IH a1 (es ++ [e]) Hi1) as (r & -> & Hr). simpl.
  eexists. split; [done|]. destruct r as [[a' ps]|e']; simpl; [|done].
  destruct Hr as (Hi' & Ht' & Hr'). rewrite <- app_assoc in Hi'.
  rewrite progress_text_app, progress_reasoning_app, !app_assoc, <- Ht1, <- Hr1. done.
Qed.

(** *** [finish] *)

Definition slot_part (text reasoning : str) (ts : list ToolAssembly) (s : PartSlot) :
    option AssistantPart :=
  match s with
  | SlotText => Some (PartText text)
  | SlotReasoning => Some (PartReasoning (mkReasoningContent (Some reasoning) None None None))
  | SlotTool i => t ← ts !! i; c ← ta_call t; Some (PartToolCall c)
  end.

Lemma omap_ext_in {A B} (f g : A → option B) (l : list A) :
  (∀ x, x ∈ l → f x = g x) → omap f l = omap g l.
Proof.
  induction l as [|x l IH]; intros Hfg; [done|]. cbn [omap list_omap].
  rewrite Hfg by left. rewrite IH; [done|]. intros y Hy. apply Hfg. by right.
Qed.

Lemma finish_slots_spec slots : ∀ text reasoning ts parts,
  NoDup slots →
  (∀ i, SlotTool i ∈ slots → ∃ t c, ts !! i = Some t ∧ ta_call t = Some c) →
  (SlotReasoning ∈ slots → ReasoningContent_new (Some reasoning) None None None
     = Ok (mkReasoningContent (Some reasoning) None None None)) →
  finish_slots slots text reasoning ts parts
  = Some (Ok (parts ++ omap (slot_part text reasoning ts) slots)).
Proof.
  induction slots as [|s slots IH]; intros text reasoning ts parts Hnd Htool Hreas.
  { simpl. by rewrite app_nil_r. }
  apply NoDup_cons in Hnd as [Hs Hnd]. cbn [omap list_omap].
  destruct s as [| |i]; cbn [finish_slots slot_part].
  - rewrite IH; [|done|set_solver..]. rewrite <- app_assoc. simpl. do 4 f_equal.
    apply omap_ext_in. intros [| |j] Hj; done.
  - rewrite Hreas by set_solver.
    rewrite IH; [|done|set_solver..]. rewrite <- app_assoc. simpl. do 4 f_equal.
    apply omap_ext_in. intros [| |j] Hj; done.
  - destruct (Htool i) as (t & c & Ht & Hc); [set_solver|]. rewrite Ht. simpl. rewrite Hc. simpl.
    assert (Hne : ∀ j, SlotTool j ∈ slots → i ≠ j) by (by intros j Hj ->).
    rewrite IH; [|done| |set_solver].
    + rewrite <- app_assoc. simpl. do 4 f_equal. apply omap_ext_in. intros [| |j] Hj; try done.
      simpl. by rewrite list_lookup_insert_ne by auto.
    + intros j Hj. rewrite list_lookup_insert_ne by auto. apply Htool. set_solver.
Qed.

Definition finished_parts a : list AssistantPart :=
  omap (slot_part (as_text a) (as_reasoning a) (as_tools a)) (as_slots a).

Lemma normalized_text_ok s m :
  str_len (normalize_chars s) ≤ m → valid_text (normalize_chars s) m true = true.
Proof. intros. apply valid_text_spec. auto using normalize_chars_ok. Qed.

Lemma reasoning_of_normalized s :
  str_len (normalize_chars s) ≤ 262144 →
  ReasoningContent_new (Some (normalize_chars s)) None None None
  = Ok (mkReasoningContent (Some (normalize_chars s)) None None None).
Proof.
  intros Hl. unfold ReasoningContent_new, normalize_optional_text.
  rewrite cow_str_normalize, (normalize_chars_id (normalize_chars s)) by apply normalize_chars_ok.
  rewrite (proj2 (N.ltb_ge _ _)) by done. simpl.
  done.
Qed.

Lemma finished_calls a es :
  asm_inv tools limits es a → is_Some (as_finish_reason a) →
  Some <$> tool_calls (finished_parts a) = ta_call <$> as_tools a.
Proof.
  intros Hi Hfin. pose proof (ai_finish _ _ _ _ Hi Hfin) as Hall.
  assert (tool_calls (finished_parts a)
    = omap (λ i, t ← as_tools a !! i; ta_call t) (omap slot_index (as_slots a))) as ->.
  { unfold tool_calls, finished_parts.
    induction (as_slots a) as [|s l IHl]; [done|]. cbn [omap list_omap].
    destruct s as [| |i]; simpl; [done..|].
    destruct (as_tools a !! i) as [t|]; simpl; [|done]. destruct (ta_call t); simpl; [|done].
    by f_equal. }
  rewrite (ai_slot_tools _ _ _ _ Hi). clear Hi Hfin.
  induction (as_tools a) as [|t l IHl] using rev_ind; [done|].
  apply Forall_app in Hall as [Hl [[c Hc] _]%Forall_cons].
  rewrite length_app, seq_app, omap_app, !fmap_app, <- IHl by done. f_equal.
  - f_equal. apply omap_ext_in. intros i [_ Hi]%elem_of_seq. by rewrite lookup_app_l by lia.
  - simpl. rewrite lookup_app_r, Nat.sub_diag by lia. simpl. by rewrite Hc.
Qed.

Hypothesis limits_valid : LoopLimits_validate limits = Ok ().

Lemma limits_text : max_model_text_bytes limits ≤ 262144.
Proof. apply LoopLimits_validate_Ok in limits_valid. apply limits_valid. Qed.
Lemma limits_reasoning : max_model_reasoning_bytes limits ≤ 262144.
Proof. apply LoopLimits_validate_Ok in limits_valid. apply limits_valid. Qed.
Lemma limits_calls : max_tool_calls_per_response limits ≤ 64.
Proof. apply LoopLimits_validate_Ok in limits_valid. apply limits_valid. Qed.

Lemma finished_call_lookup a es i c :
  asm_inv tools limits es a → is_Some (as_finish_reason a) →
  tool_calls (finished_parts a) !! i = Some c →
  ∃ t, as_tools a !! i = Some t ∧ tool_ok tools limits i t ∧ call_of t limits c.
Proof.
  intros Hi Hfin Hc.
  assert ((Some <$> tool_calls (finished_parts a)) !! i = Some (Some c)) as Hc'
    by (by rewrite list_lookup_fmap, Hc).
  rewrite (finished_calls _ _ Hi Hfin), list_lookup_fmap in Hc'.
  apply fmap_Some in Hc' as (t & Ht & Hcall). pose proof (ai_tools_ok _ _ _ _ Hi i t Ht) as Hok.
  exists t. split_and!; [done..|]. by apply (tok_call _ _ _ _ Hok).
Qed.

Lemma call_of_fields t c :
  call_of t limits c →
  tc_tool_call_id c = ta_tool_call_id t ∧ tc_name c = ta_name t ∧
  tc_call_index c = ta_call_index t ∧ is_object (tc_arguments c) = true ∧
  is_err (validate_json_size (tc_arguments c) (max_tool_arguments_bytes limits)) = false.
Proof.
  intros [_ Hc]. unfold ToolCall_new_with_max_bytes in Hc.
  apply guard_err_Ok in Hc as [Hg Hc]. bools. injection Hc as <-. simpl in *. done.
Qed.

Lemma finished_ids a es :
  asm_inv tools limits es a → is_Some (as_finish_reason a) →
  tc_tool_call_id <$> tool_calls (finished_parts a) = ta_tool_call_id <$> as_tools a.
Proof.
  intros Hi Hfin. pose proof (finished_calls _ _ Hi Hfin) as Hc.
  apply list_eq. intros i. rewrite !list_lookup_fmap.
  destruct (tool_calls (finished_parts a) !! i) as [c|] eqn:Ec; simpl.
  - destruct (finished_call_lookup _ _ _ _ Hi Hfin Ec) as (t & Ht & _ & Hcall).
    rewrite Ht. simpl. by apply call_of_fields in Hcall as (-> & _).
  - apply lookup_ge_None in Ec. apply (f_equal length) in Hc. rewrite !length_fmap in Hc.
    rewrite lookup_ge_None_2; [done|lia].
Qed.

Lemma finished_parts_ok a es :
  asm_inv tools limits es a → is_Some (as_finish_reason a) → parts_ok (finished_parts a).
Proof.
  intros Hi Hfin. pose proof limits_text. pose proof limits_calls. split_and!.
  - apply Forall_forall. intros p (s & _ & Hs)%list_elem_of_omap.
    destruct s as [| |j]; simpl in Hs.
    + injection Hs as <-. apply part_ok_text. rewrite (ai_text _ _ _ _ Hi).
      apply normalized_text_ok. rewrite <- (ai_text _ _ _ _ Hi).
      etransitivity; [apply Hi|done].
    + by injection Hs as <-.
    + destruct (as_tools a !! j) as [t|]; simpl in Hs; [|done].
      destruct (ta_call t); [|done]. by injection Hs as <-.
  - intros i c Hc. destruct (finished_call_lookup _ _ _ _ Hi Hfin Hc) as (t & _ & Hok & Hcall).
    apply call_of_fields in Hcall as (_ & _ & -> & _). apply Hok.
  - rewrite (finished_ids _ _ Hi Hfin). apply Hi.
  - pose proof (ai_tools_len _ _ _ _ Hi). pose proof (finished_calls _ _ Hi Hfin) as Hc.
    apply (f_equal length) in Hc. rewrite !length_fmap in Hc. rewrite Hc. unfold u32_MAX. lia.
Qed.

(** When [finish] accepts what was assembled. *)
Definition finish_accepts a (reason : ModelFinishReason) : Prop :=
  (as_tools a ≠ [] → reason = FinishToolCalls ∨ reason = FinishUnknown) ∧
  (as_tools a = [] → reason ≠ FinishToolCalls) ∧
  (reason = FinishContentFiltered ∨ reason = FinishRefused → as_text a ≠ []) ∧
  (as_slots a ≠ [] ∨ is_Some (as_provider_replay a)).

Definition finished_response a (reason : ModelFinishReason) : ModelResponse :=
  mkModelResponse (finished_parts a) reason (Some (default Usage_default (as_usage a)))
    (as_provider_replay a).

Lemma finished_slots a es :
  asm_inv tools limits es a → is_Some (as_finish_reason a) →
  finish_slots (as_slots a) (as_text a) (as_reasoning a) (as_tools a) []
  = Some (Ok (finished_parts a)).
Proof.
  intros Hi Hfin. rewrite finish_slots_spec; [done|apply Hi|..].
  - intros i Hin. apply (tools_slot_lt _ _ _ _ _ Hi), lookup_lt_is_Some_2 in Hin as [t Ht].
    pose proof (ai_finish _ _ _ _ Hi Hfin) as Hall. rewrite Forall_forall in Hall.
    destruct (Hall t) as [c Hc]; [by eapply list_elem_of_lookup_2|]. eauto.
  - intros _. rewrite (ai_reasoning _ _ _ _ Hi). apply reasoning_of_normalized.
    rewrite <- (ai_reasoning _ _ _ _ Hi). etransitivity; [apply Hi|]. apply limits_reasoning.
Qed.

Lemma finished_parts_nil a es :
  asm_inv tools limits es a → is_Some (as_finish_reason a) →
  finished_parts a = [] ↔ as_slots a = [].
Proof.
  intros Hi Hfin. split; [|unfold finished_parts; by intros ->].
  intros Hn. destruct (as_slots a) as [|s l] eqn:El; [done|].
  pose proof (finished_calls _ _ Hi Hfin) as Hc. rewrite Hn in Hc. simpl in Hc.
  symmetry in Hc. apply fmap_nil_inv in Hc. unfold finished_parts in Hn. rewrite El in Hn.
  destruct s as [| |i]; [done..|].
  assert (SlotTool i ∈ as_slots a) as Hin by (rewrite El; left).
  apply (tools_slot_lt _ _ _ _ _ Hi) in Hin. rewrite Hc in Hin. simpl in Hin. lia.
Qed.

(** The three refusals of [finish] leave exactly what it accepts. *)
Lemma finish_checks_accept a reason :
  (finished_parts a = [] ↔ as_slots a = []) →
  (match as_tools a with [] => false | _ => true end
     && negb (bool_decide (reason = FinishToolCalls) || bool_decide (reason = FinishUnknown)))
  || (negb match as_tools a with [] => false | _ => true end && bool_decide (reason = FinishToolCalls)) = false →
  (bool_decide (reason = FinishContentFiltered) || bool_decide (reason = FinishRefused))
    && str_is_empty (as_text a) = false →
  match finished_parts a with [] => true | _ => false end && bool_decide (as_provider_replay a = None) = false →
  finish_accepts a reason.
Proof.
  intros Hnil E1 E2 E3. split_and!.
  - intros Ht. destruct (as_tools a); [done|]. simpl in E1.
    by rewrite orb_false_r, negb_false_iff, orb_true_iff, !bool_decide_eq_true in E1.
  - intros Ht ->. by rewrite Ht in E1.
  - intros Hr Ht. rewrite Ht in E2. destruct Hr as [->| ->]; done.
  - destruct (as_provider_replay a); [right; eauto|left].
    rewrite <- Hnil. destruct (finished_parts a); done.
Qed.

Lemma finish_spec a es :
  asm_inv tools limits es a →
  ∃ r, finish a = Some r ∧
  (∀ resp, r = Ok resp ↔ ∃ reason, as_finish_reason a = Some reason ∧
     finish_accepts a reason ∧ resp = finished_response a reason) ∧
  (∀ e, r = Err e → model_error_ok e ∧ me_retry_hint e = RetryNever ∧
     (me_delivery e = Started ∨ es = [] ∧ me_delivery e = DeliveryUnknown)).
Proof.
  intros Hi. unfold finish. destruct (as_finish_reason a) as [reason|] eqn:Er.
  2: { eexists. split; [done|]. split; [naive_solver|]. intros e [= <-].
       rewrite generated_error_hint, generated_error_delivery, (ai_observed _ _ _ _ Hi).
       split; [apply generated_error_ok|]. split; [done|].
       case_bool_decide; [by left|by right]. }
  assert (is_Some (as_finish_reason a)) as Hfin by (by rewrite Er).
  assert (∀ k, model_error_ok (assembler_error k) ∧ me_retry_hint (assembler_error k) = RetryNever ∧
     (me_delivery (assembler_error k) = Started ∨ es = [] ∧ me_delivery (assembler_error k) = DeliveryUnknown))
    as Herr by (intros k; split_and!; [done..|by left]).
  assert (∀ k, ¬ finish_accepts a reason →
    (∀ resp, Err (assembler_error k) = Ok resp ↔ ∃ reason', Some reason = Some reason' ∧
     finish_accepts a reason' ∧ resp = finished_response a reason') ∧
    (∀ e, Err (assembler_error k) = Err (A := ModelResponse) e → model_error_ok e ∧ me_retry_hint e = RetryNever ∧
     (me_delivery e = Started ∨ es = [] ∧ me_delivery e = DeliveryUnknown))) as Hrej.
  { intros k Hn. split; [naive_solver|]. intros e [= <-]. apply Herr. }
  rewrite (finished_slots _ _ Hi Hfin). simpl.
  pose proof (finished_parts_nil _ _ Hi Hfin) as Hnil.
  pose proof (finished_parts_ok _ _ Hi Hfin) as Hok.
  destruct (_ || _) eqn:E1.
  { eexists. split; [done|]. apply Hrej. intros (H1 & H2 & _ & _).
    destruct (as_tools a); simpl in E1; rewrite ?orb_false_r, ?bool_decide_eq_true in E1; [tauto|].
    destruct H1 as [->| ->]; done. }
  destruct ((bool_decide (reason = FinishContentFiltered) || _) && _) eqn:E2.
  { eexists. split; [done|]. apply Hrej. intros (_ & _ & H3 & _).
    apply andb_true_iff in E2 as [E2 Ht%str_is_empty_true].
    rewrite orb_true_iff, !bool_decide_eq_true in E2. tauto. }
  unfold ModelResponse_new_with_provider_replay. rewrite normalize_parts_id by apply Hok.
  destruct ((match finished_parts a with [] => true | _ => false end)
            && bool_decide (as_provider_replay a = None)) eqn:E3; cbn [guard_err map_err].
  { eexists. split; [done|]. apply Hrej. intros (_ & _ & _ & H4).
    apply andb_true_iff in E3 as [E3 Hrp%bool_decide_eq_true]. rewrite Hrp in H4. destruct H4 as [H4|[? ?]]; [|done].
    apply H4, Hnil. by destruct (finished_parts a). }
  apply validate_tool_call_order_Ok in Hok. rewrite Hok. simpl.
  pose proof (finish_checks_accept a reason Hnil E1 E2 E3) as Hacc.
  eexists. split; [done|]. split; [|naive_solver].
  intros resp. split; [intros [= <-]; eauto|]. intros (? & [= <-] & _ & ->). done.
Qed.

(** ** Properties *)

(** C25: assembling a stream is independent of how the provider cut it: whatever
    events arrive, no push panics; if none is refused, the assembled text and
    reasoning are the normalisation of the concatenated raw deltas (a CRLF cut in
    two included), the progress forwarded to the host concatenates to exactly
    that text, and both are within their budgets. A refusal is a started,
    never-retried error. *)
Theorem assembler_chunking (events : list ModelEvent) :
  match push_all (Assembler_new tools limits) events with
  | Some (Ok (a, progress)) =>
      as_text a = normalize_chars (raw_text events) ∧ progress_text progress = as_text a ∧
      as_reasoning a = normalize_chars (raw_reasoning events) ∧
      progress_reasoning progress = as_reasoning a ∧
      str_len (as_text a) ≤ max_model_text_bytes limits ∧
      str_len (as_reasoning a) ≤ max_model_reasoning_bytes limits
  | Some (Err e) => me_delivery e = Started ∧ me_retry_hint e = RetryNever
  | None => False
  end.
Proof using Type.
  destruct (push_all_step events _ [] (asm_inv_new tools limits)) as (r & -> & Hr).
  destruct r as [[a ps]|e]; [|by destruct Hr as [k ->]].
  destruct Hr as (Hi & Ht & Hr). simpl in Ht, Hr. rewrite Ht, Hr. split_and!; try done.
  - rewrite <- Ht. apply Hi.
  - rewrite <- Hr. apply Hi.
  - rewrite <- Ht. apply Hi.
  - rewrite <- Hr. apply Hi.
Qed.

(** C26: under valid limits, [finish] never panics (each slot finds its completed
    call), and it accepts exactly a finished stream whose reason agrees with the
    presence of tool calls, whose refusal has a text and which is not empty; the
    response it builds has valid parts, and its errors are never retryable. *)
Theorem assembler_finish events a progress :
  push_all (Assembler_new tools limits) events = Some (Ok (a, progress)) →
  ∃ r, finish a = Some r ∧
  (∀ resp, r = Ok resp ↔ ∃ reason, as_finish_reason a = Some reason ∧
     finish_accepts a reason ∧ resp = finished_response a reason ∧
     parts_ok (resp_parts resp)) ∧
  (∀ e, r = Err e → me_retry_hint e = RetryNever ∧
     (me_delivery e = Started ∨ events = [] ∧ me_delivery e = DeliveryUnknown)).
Proof.
  intros Hp. destruct (push_all_step events _ [] (asm_inv_new tools limits)) as (r & Hr & Hi).
  rewrite Hp in Hr. injection Hr as <-. destruct Hi as [Hi _].
  destruct (finish_spec _ _ Hi) as (r & Hf & Hok & He). exists r. split; [done|]. split.
  - intros resp. rewrite Hok. split; [|naive_solver].
    intros (reason & Hreason & Hacc & ->). exists reason. split_and!; [done..|].
    apply (finished_parts_ok _ _ Hi). eauto.
  - intros e ->. by apply He.
Qed.

(** C27: every tool call of an assembled response names a tool the request offered,
    is numbered by its position, and carries a JSON object within the argument
    budget; there are at most the configured number of calls, with distinct
    identifiers. *)
Theorem assembled_calls events a progress resp :
  push_all (Assembler_new tools limits) events = Some (Ok (a, progress)) →
  finish a = Some (Ok resp) →
  N.of_nat (length (tool_calls (resp_parts resp))) ≤ max_tool_calls_per_response limits ∧
  NoDup (tc_tool_call_id <$> tool_calls (resp_parts resp)) ∧
  ∀ i c, tool_calls (resp_parts resp) !! i = Some c →
    tc_call_index c = N.of_nat i ∧
    Exists (λ s, ts_name s = tc_name c) tools ∧
    is_object (tc_arguments c) = true ∧
    validate_json_size (tc_arguments c) (max_tool_arguments_bytes limits) = Ok ().
Proof.
  intros Hp Hf. destruct (push_all_step events _ [] (asm_inv_new tools limits)) as (r & Hr & Hi).
  rewrite Hp in Hr. injection Hr as <-. destruct Hi as [Hi _].
  destruct (finish_spec _ _ Hi) as (r & Hf' & Hok & _). rewrite Hf in Hf'. injection Hf' as <-.
  destruct (proj1 (Hok resp) eq_refl) as (reason & Hreason & _ & ->).
  assert (is_Some (as_finish_reason a)) as Hfin by eauto. simpl. split_and!.
  - pose proof (finished_calls _ _ Hi Hfin) as Hc. apply (f_equal length) in Hc.
    rewrite !length_fmap in Hc. rewrite Hc. apply Hi.
  - rewrite (finished_ids _ _ Hi Hfin). apply Hi.
  - intros i c Hc. destruct (finished_call_lookup _ _ _ _ Hi Hfin Hc) as (t & _ & Ht & Hcall).
    apply call_of_fields in Hcall as (_ & -> & -> & ? & Hv). split_and!; [apply Ht..|done|].
    destruct (validate_json_size _ _) as [[]|]; done.
Qed.
End step.
End assembler.

(** ** Witnesses *)

Definition demo_call_id : ToolCallId := mkToolCallId (lit "c1").
Definition demo_spec : ToolSpec (H := demo.json) :=
  mkToolSpec (mkToolName (lit "read")) (mkBoundedText (lit "read a file")) (JObject []).
Definition demo_events : list (ModelEvent (H := demo.json)) :=
  [EvTextDelta (mkBoundedText (lit "a" ++ [CR])); EvTextDelta (mkBoundedText ([LF] ++ lit "b"));
   EvToolCallStart demo_call_id (mkToolName (lit "read"));
   EvToolCallArgumentsDelta demo_call_id (mkBoundedText (lit "{}"));
   EvToolCallEnd demo_call_id; EvFinish FinishToolCalls].

(** What the events above assemble to. *)
Definition demo_pushed :
    option (result ModelError (Assembler (H := demo.json) * list ModelDriverProgress)) :=
  push_all (Assembler_new [demo_spec] LoopLimits_default) demo_events.
Definition demo_assembler : Assembler (H := demo.json) * list ModelDriverProgress :=
  computed demo_pushed (Assembler_new [] LoopLimits_default, []).
Definition demo_assembled : ModelResponse (H := demo.json) :=
  computed (finish (demo_assembler.1)) (mkModelResponse [] FinishStop None None).

Lemma demo_pushed_ok :
  push_all (Assembler_new [demo_spec] LoopLimits_default) demo_events
  = Some (Ok (demo_assembler.1, demo_assembler.2)).
Proof.
  rewrite <- surjective_pairing. unfold demo_assembler, demo_pushed. apply computed_ok.
  vm_compute. reflexivity.
Qed.

Lemma demo_finished_ok : finish demo_assembler.1 = Some (Ok demo_assembled).
Proof. unfold demo_assembled. apply computed_ok. vm_compute. reflexivity. Qed.

Lemma assembler_finish_witness :
  as_finish_reason demo_assembler.1 = Some FinishToolCalls ∧ parts_ok (resp_parts demo_assembled).
Proof.
  destruct (assembler_finish [demo_spec] LoopLimits_default eq_refl demo_events
    demo_assembler.1 demo_assembler.2 demo_pushed_ok) as (r & Hr & Hok & _).
  rewrite demo_finished_ok in Hr. injection Hr as <-.
  split; [vm_compute; reflexivity|].
  destruct (proj1 (Hok demo_assembled) eq_refl) as (_ & _ & _ & _ & Hp). exact Hp.
Defined.

Lemma assembled_calls_witness :
  N.of_nat (length (tool_calls (resp_parts demo_assembled))) ≤ 64.
Proof.
  apply (assembled_calls [demo_spec] LoopLimits_default eq_refl demo_events
    demo_assembler.1 demo_assembler.2 demo_assembled demo_pushed_ok demo_finished_ok).
Defined.
