(* ===== verification/History.v ===== *)
(** * History and execution configuration

    Models src/src/history.rs and src/src/execution.rs. The host objects a
    configuration holds ([Arc<dyn Model>], [Arc<dyn ToolPolicy>],
    [Arc<dyn PromptProvider>]) are opaque handles; what [descriptor()] returns for
    a model is a parameter ([None]: it panics). *)

From S2P Require Import Prelude Text Json Ids Limits BTree ToolTypes ToolSet ModelError Message Request.
Local Open Scope N_scope.

(** ** execution.rs *)

Inductive UserInputError := UserInputInvalidText.

Inductive UserInput := UserText (text : BoundedText).
#[export] Instance UserInput_eq_dec : EqDecision UserInput.
Proof. solve_decision. Defined.

Definition UserInput_text (value : str) : result UserInputError UserInput :=
  text ← map_err (λ _, UserInputInvalidText) (BoundedText_new value);
  guard_err (BoundedText_is_empty text) UserInputInvalidText $
  Ok (UserText text).

Definition as_text (input : UserInput) : str := match input with UserText text => as_str text end.

(** [ConfigRevision(u64)] *)
Definition INITIAL_REVISION : N := 0.
Definition ConfigRevision_next (r : N) : N := saturating_add u64_MAX r 1.

Inductive ExecutionConfigError :=
| ModelDescriptorPanicked | EcInvalidDescriptor | UnsupportedReasoning | ToolsUnsupported
| EcInvalidTools.

(** ** history.rs *)

Inductive UserMessageKind := KindPrompt | KindSteering.
#[export] Instance UserMessageKind_eq_dec : EqDecision UserMessageKind.
Proof. solve_decision. Defined.

Record UserHistory := mkUserHistory {
  uh_loop_id : LoopId;
  uh_kind : UserMessageKind;
  uh_input : UserInput;
}.
#[export] Instance UserHistory_eq_dec : EqDecision UserHistory.
Proof. solve_decision. Defined.

Record ToolResultHistory := mkToolResultHistory {
  trh_loop_id : LoopId;
  trh_request_index : N;
  trh_call_id : ToolCallId;
  trh_tool_name : ToolName;
  trh_outcome : ToolResultOutcome;
  trh_output : ToolOutput;
}.
#[export] Instance ToolResultHistory_eq_dec : EqDecision ToolResultHistory.
Proof. solve_decision. Defined.

Record SummaryHistory := mkSummaryHistory { sh_content : BoundedText }.
#[export] Instance SummaryHistory_eq_dec : EqDecision SummaryHistory.
Proof. solve_decision. Defined.

Section history.
Context `{SerdeJson}.

Record ExecutionConfig := mkExecutionConfig {
  ec_model : N;
  ec_descriptor : ModelDescriptor;
  ec_reasoning : ReasoningPreference;
  ec_tools : ToolSet;
  ec_policy : option N;
  ec_prompt : N;
}.

Definition ExecutionConfig_new (descriptor_of : N → option ModelDescriptor) (model : N)
    (reasoning : ReasoningPreference) (tools : ToolSet) (policy : option N) (prompt : N) :
    result ExecutionConfigError ExecutionConfig :=
  descriptor ← ok_or (descriptor_of model) ModelDescriptorPanicked;
  _ ← map_err (λ _, EcInvalidDescriptor) (ModelDescriptor_validate descriptor);
  guard_err (negb (supports_reasoning descriptor reasoning)) UnsupportedReasoning $
  guard_err (match tset_specs tools with [] => false | _ => true end
             && negb (md_supports_tools descriptor)) ToolsUnsupported $
  Ok (mkExecutionConfig model descriptor reasoning tools policy prompt).

(** [validate_against_limits]; [None] is the panic of [json_bytes]. *)
Fixpoint validate_specs (specs : list ToolSpec) (limits : LoopLimits) :
    option (result ExecutionConfigError ()) :=
  match specs with
  | [] => Some (Ok ())
  | spec :: specs =>
      r ← validate_for_bindings spec (max_tool_name_bytes limits) (max_tool_schema_bytes limits);
      match r with
      | Err _ => Some (Err EcInvalidTools)
      | Ok () => validate_specs specs limits
      end
  end.

Definition validate_against_limits (config : ExecutionConfig) (limits : LoopLimits) :
    option (result ExecutionConfigError ()) :=
  validate_specs (tset_specs (ec_tools config)) limits.

Record AssistantHistory := mkAssistantHistory {
  ah_loop_id : LoopId;
  ah_request_index : N;
  ah_model : ModelRef;
  ah_reasoning : ReasoningPreference;
  ah_content : list AssistantPart;
  ah_provider_replay : option ProviderReplay;
  ah_finish_reason : ModelFinishReason;
  ah_usage : Usage;
}.
#[export] Instance AssistantHistory_eq_dec : EqDecision AssistantHistory.
Proof. solve_decision. Defined.

Inductive HistoryItem :=
| HiUser (user : UserHistory)
| HiAssistant (assistant : AssistantHistory)
| HiToolResult (result : ToolResultHistory)
| HiSummary (summary : SummaryHistory).
#[export] Instance HistoryItem_eq_dec : EqDecision HistoryItem.
Proof. solve_decision. Defined.

(** [HistoryView::iter]: the base, then the delta. *)
Record HistoryView := mkHistoryView { hv_base : list HistoryItem; hv_appended : list HistoryItem }.
Definition HistoryView_iter (v : HistoryView) : list HistoryItem := hv_base v ++ hv_appended v.
Definition HistoryView_len (v : HistoryView) : N :=
  N.of_nat (length (hv_base v)) + N.of_nat (length (hv_appended v)).
Definition HistoryView_is_empty (v : HistoryView) : bool :=
  match hv_base v, hv_appended v with [], [] => true | _, _ => false end.

Record WorkingHistory := mkWorkingHistory { wh_base : list HistoryItem; wh_appended : list HistoryItem }.
Definition WorkingHistory_new (base : list HistoryItem) : WorkingHistory := mkWorkingHistory base [].
Definition WorkingHistory_view (w : WorkingHistory) : HistoryView :=
  mkHistoryView (wh_base w) (wh_appended w).
Definition append_user (w : WorkingHistory) (item : UserHistory) : WorkingHistory :=
  mkWorkingHistory (wh_base w) (wh_appended w ++ [HiUser item]).
Definition append_assistant (w : WorkingHistory) (item : AssistantHistory) : WorkingHistory :=
  mkWorkingHistory (wh_base w) (wh_appended w ++ [HiAssistant item]).
Definition append_tool_result (w : WorkingHistory) (item : ToolResultHistory) : WorkingHistory :=
  mkWorkingHistory (wh_base w) (wh_appended w ++ [HiToolResult item]).

(** *** The size estimate; [None] is a panic, of [json_bytes] or of a plain
    addition that overflows (a build with overflow checks). *)

Definition usize_sum (ns : list N) : N := foldl (saturating_add usize_MAX) 0 ns.

Definition opt_len (s : option str) : N := from_option str_len 0 s.

Definition estimate_part_bytes (p : AssistantPart) : option N :=
  match p with
  | PartText text => Some (str_len text)
  | PartReasoning r =>
      Some (saturating_add usize_MAX
        (saturating_add usize_MAX
          (saturating_add usize_MAX (opt_len (rc_text r)) (opt_len (rc_summary r)))
          (opt_len (rc_encrypted r)))
        (opt_len (rc_signature r)))
  | PartToolCall call =>
      bytes ← json_bytes (tc_arguments call);
      checked_add usize_MAX (str_len (tool_name_str (tc_name call))) bytes
  end.

Definition estimate_item_bytes (i : HistoryItem) : option N :=
  match i with
  | HiUser user => Some (str_len (as_text (uh_input user)))
  | HiAssistant assistant =>
      parts ← mapM estimate_part_bytes (ah_content assistant);
      Some (saturating_add usize_MAX (usize_sum parts)
        (from_option pr_bytes 0 (ah_provider_replay assistant)))
  | HiToolResult r =>
      bytes ← checked_add usize_MAX (str_len (tool_call_id_str (trh_call_id r)))
        (str_len (tool_name_str (trh_tool_name r)));
      checked_add usize_MAX bytes (byte_len (to_content (trh_output r)))
  | HiSummary s => Some (byte_len (sh_content s))
  end.

Definition estimate_history_bytes (items : list HistoryItem) : option N :=
  usize_sum <$> mapM estimate_item_bytes items.

(** ** Facts *)

Lemma ExecutionConfig_new_Ok descriptor_of model reasoning tools policy prompt c :
  ExecutionConfig_new descriptor_of model reasoning tools policy prompt = Ok c ↔
  ∃ d, descriptor_of model = Some d ∧
    md_context_window d ≠ 0 ∧ md_supported_reasoning d ≠ [] ∧
    reasoning ∈ md_supported_reasoning d ∧
    (tset_specs tools ≠ [] → md_supports_tools d = true) ∧
    c = mkExecutionConfig model d reasoning tools policy prompt.
Proof.
  unfold ExecutionConfig_new. rewrite result_bind_Ok. setoid_rewrite ok_or_Ok.
  apply exist_proper. intros d. rewrite result_unit_bind, map_err_Ok, !guard_err_Ok.
  unfold ModelDescriptor_validate, supports_reasoning.
  rewrite negb_false_iff, bool_decide_eq_true.
  assert ((if (md_context_window d =? 0) || match md_supported_reasoning d with [] => true | _ => false end
           then Err InvalidDescriptor else Ok ()) = Ok () ↔
    md_context_window d ≠ 0 ∧ md_supported_reasoning d ≠ []) as ->.
  { destruct (N.eqb_spec (md_context_window d) 0), (md_supported_reasoning d); naive_solver. }
  destruct (tset_specs tools), (md_supports_tools d); simpl; naive_solver.
Qed.

Lemma usize_sum_min ns : usize_sum ns = N.min (foldr N.add 0 ns) usize_MAX.
Proof.
  unfold usize_sum. assert (∀ a, a ≤ usize_MAX →
    foldl (saturating_add usize_MAX) a ns = N.min (a + foldr N.add 0 ns) usize_MAX) as Hg.
  { induction ns as [|n ns IH]; intros a Ha; simpl; [lia|].
    rewrite IH by apply saturating_add_le. unfold saturating_add. lia. }
  by rewrite Hg.
Qed.

(** The sizes the estimate approximates, and the items whose own sizes fit the
    address range (every item in memory). *)
Definition part_size (p : AssistantPart) : N :=
  match p with
  | PartText text => str_len text
  | PartReasoning r =>
      opt_len (rc_text r) + opt_len (rc_summary r) + opt_len (rc_encrypted r) + opt_len (rc_signature r)
  | PartToolCall call => str_len (tool_name_str (tc_name call)) + json_len (tc_arguments call)
  end.
Definition item_size (i : HistoryItem) : N :=
  match i with
  | HiUser user => str_len (as_text (uh_input user))
  | HiAssistant a =>
      foldr N.add 0 (part_size <$> ah_content a) + from_option pr_bytes 0 (ah_provider_replay a)
  | HiToolResult r =>
      str_len (tool_call_id_str (trh_call_id r)) + str_len (tool_name_str (trh_tool_name r))
      + byte_len (to_content (trh_output r))
  | HiSummary s => byte_len (sh_content s)
  end.
Definition item_fits (i : HistoryItem) : Prop :=
  match i with
  | HiAssistant a => Forall (λ c, part_size (PartToolCall c) ≤ usize_MAX) (tool_calls (ah_content a))
  | i => item_size i ≤ usize_MAX
  end.

Lemma estimate_part_spec p :
  match p with PartToolCall _ => part_size p ≤ usize_MAX | _ => True end →
  ∃ n, estimate_part_bytes p = Some n ∧ N.min n usize_MAX = N.min (part_size p) usize_MAX.
Proof.
  destruct p as [text|r|call]; cbn [estimate_part_bytes part_size]; intros Hp.
  - by eexists.
  - eexists. split; [done|]. unfold saturating_add. lia.
  - rewrite json_bytes_spec by lia. simpl. rewrite checked_add_exact by done. by eexists.
Qed.

(** Saturating at the end is saturating all along. *)
Lemma sum_min {A} (f : A → option N) (g : A → N) xs :
  Forall (λ x, ∃ n, f x = Some n ∧ N.min n usize_MAX = N.min (g x) usize_MAX) xs →
  ∃ ns, mapM f xs = Some ns ∧
    N.min (foldr N.add 0 ns) usize_MAX = N.min (foldr N.add 0 (g <$> xs)) usize_MAX.
Proof.
  induction 1 as [|x xs (n & E & Hn) _ (ns & Es & Hns)]; [by exists []|].
  exists (n :: ns). rewrite fmap_cons. simpl. rewrite E. simpl. rewrite Es. simpl. split; [done|]. lia.
Qed.

Lemma estimate_item_spec i : item_fits i →
  ∃ n, estimate_item_bytes i = Some n ∧ N.min n usize_MAX = N.min (item_size i) usize_MAX.
Proof.
  destruct i as [user|a|r|s]; cbn [estimate_item_bytes item_size item_fits]; intros Hi.
  - by eexists.
  - destruct (sum_min estimate_part_bytes part_size (ah_content a)) as (ns & -> & Hns).
    { apply Forall_forall. intros p Hp. apply estimate_part_spec. destruct p as [| |c]; try done.
      rewrite Forall_forall in Hi. apply Hi. apply list_elem_of_omap. eauto. }
    simpl. eexists. split; [done|]. rewrite usize_sum_min. unfold saturating_add. lia.
  - rewrite checked_add_exact by lia. simpl. rewrite checked_add_exact by done. by eexists.
  - by eexists.
Qed.

(** ** Properties *)

(** What an execution configuration guarantees. [ExecutionConfig::new] accepts
    exactly a model whose descriptor (which it did not panic to give) is valid,
    supports the reasoning asked for, and supports tools if any are offered, and it
    stores that descriptor; the configuration fits a loop's limits exactly when
    every tool's name, description and encoded schema do. *)
Theorem execution_config_spec descriptor_of model reasoning tools policy prompt c limits :
  (ExecutionConfig_new descriptor_of model reasoning tools policy prompt = Ok c ↔
    ∃ d, descriptor_of model = Some d ∧
      md_context_window d ≠ 0 ∧ md_supported_reasoning d ≠ [] ∧
      reasoning ∈ md_supported_reasoning d ∧
      (tset_specs tools ≠ [] → md_supports_tools d = true) ∧
      c = mkExecutionConfig model d reasoning tools policy prompt) ∧
  (validate_against_limits c limits = Some (Ok ()) ↔
    Forall (λ s, str_len (tool_name_str (ts_name s)) ≤ max_tool_name_bytes limits ∧
      byte_len (ts_description s) ≤ N.min (max_tool_schema_bytes limits) MAX_TOOL_DESCRIPTION_BYTES ∧
      json_len (ts_input_schema s) ≤ N.min (max_tool_schema_bytes limits) usize_MAX)
      (tset_specs (ec_tools c))).
Proof.
  split; [apply ExecutionConfig_new_Ok|]. unfold validate_against_limits.
  induction (tset_specs (ec_tools c)) as [|s specs IH]; [done|].
  rewrite Forall_cons, <- IH. cbn [validate_specs]. unfold validate_for_bindings.
  destruct (_ || _) eqn:E; bools.
  { split; [done|]. intros [(Hn & Hd & _) _]. apply orb_true_iff in E as [?|?]; bools; lia. }
  destruct (json_bytes (ts_input_schema s)) as [n|] eqn:Ej; simpl.
  - apply json_bytes_Some in Ej as [-> Hj]. destruct (_ <? _) eqn:El; bools; [split; [done|lia]|].
    split; [intros Hs; split; [lia|done]|by intros [_ Hs]].
  - apply json_bytes_None in Ej. split; [done|lia].
Qed.

(** The history estimate is exact up to saturation: the bytes of every text,
    tool call (name and encoded arguments), replay payload and tool result, summed,
    or the greatest [usize] once the sum passes it; it never panics on items that
    fit in memory one by one. *)
Theorem history_estimate_spec (items : list HistoryItem) :
  Forall item_fits items →
  estimate_history_bytes items = Some (N.min (foldr N.add 0 (item_size <$> items)) usize_MAX).
Proof.
  intros Hf. destruct (sum_min estimate_item_bytes item_size items) as (ns & E & Hns).
  { eapply Forall_impl; [exact Hf|]. apply estimate_item_spec. }
  unfold estimate_history_bytes. rewrite E. simpl. by rewrite usize_sum_min, Hns.
Qed.
End history.

Definition demo_items : list (HistoryItem (H := demo.json)) :=
  [HiUser (mkUserHistory (mkLoopId [1]) KindPrompt (UserText (mkBoundedText (lit "go"))));
   HiToolResult (mkToolResultHistory (mkLoopId [1]) 0 (mkToolCallId (lit "c1")) (mkToolName (lit "read"))
     OutcomeSuccess (mkToolOutput (mkBoundedText (lit "out"))))].

Lemma history_estimate_spec_witness : Forall item_fits demo_items ∧ estimate_history_bytes demo_items = Some 11.
Proof.
  assert (Forall item_fits demo_items) as Hf by (repeat constructor; vm_compute; discriminate).
  split; [exact Hf|]. rewrite (history_estimate_spec demo_items Hf). reflexivity.
Defined.
