(* ===== verification/Wire.v ===== *)
(** * The wire: what serde reads and writes

    Models the hand-written [Deserialize] impls of the crate over the trees that
    serde's derived code walks: a wire type holds raw strings, numbers and JSON
    values where the type holds checked ones. [Wire] is the interface of a type
    that crosses a process boundary, [WireLaws] what it promises: whatever is read
    is well formed, and what is well formed can be written and read back. The
    derived walk of a struct, a list or an option reads its fields in order. *)

From stdpp Require Import sorting.
From S2P Require Import Prelude Text Json Ids Limits BTree ToolTypes ToolSet ModelError Message Request History.
Local Open Scope N_scope.

(** [serde::de::Error::custom], by the error it wraps, or a derived impl's own. *)
Inductive WireError :=
| WeToolCallId (e : ToolCallIdError) | WeName (e : NameError) | WeText (e : ValueError)
| WeModelValue (e : ModelValueError) | WeTool (e : ToolValueError) | WeToolError (e : ToolError)
| WeId (e : IdError) | WeLimits (e : ModelLimitsError) | WeReplay (e : ReplayError) | WeDe (e : DeError)
| WeMessage (message : string) | WeUnknownVariant | WeOutOfRange.

(** ** The interface *)

Class Wire (T W : Type) := {
  serialize : T → W;
  deserialize : W → result WireError T;
  valid : T → Prop;
}.
Class WireLaws (T W : Type) `{Wire T W} : Prop := {
  deserialize_valid w x : deserialize w = Ok x → valid x;
  deserialize_serialize x : valid x → deserialize (serialize x) = Ok x;
}.
#[export] Hint Mode Wire ! - : typeclass_instances.

(** Splits the success of a chain of checks. *)
Ltac wire_inv :=
  repeat match goal with
  | H : (_ ≫= _) = Ok _ |- _ => apply result_bind_Ok in H as (? & ? & H)
  | H : map_err _ _ = Ok _ |- _ => apply map_err_Ok in H
  | H : guard_err _ _ _ = Ok _ |- _ => apply guard_err_Ok in H as [? H]
  | H : Ok _ = Ok _ |- _ => injection H as ?; subst
  | H : deserialize _ = Ok _ |- _ => apply deserialize_valid in H
  end.

(** *** The derived walks *)

Section derived.
Context {T W : Type} `{HW : Wire T W} `{HL : !WireLaws T W}.

Fixpoint deserialize_all (ws : list W) : result WireError (list T) :=
  match ws with
  | [] => Ok []
  | w :: ws => x ← deserialize w; xs ← deserialize_all ws; Ok (x :: xs)
  end.

#[export] Instance wire_list : Wire (list T) (list W) :=
  {| serialize xs := serialize <$> xs; deserialize := deserialize_all; valid := Forall valid |}.
#[export] Instance wire_list_laws : WireLaws (list T) (list W).
Proof.
  split.
  - intros ws. induction ws as [|w ws IH]; intros xs E; simpl in E; wire_inv; [constructor|].
    constructor; [done|by apply IH].
  - intros xs. cbn [deserialize serialize valid wire_list]. induction 1 as [|x xs Hx _ IH]; [done|].
    rewrite fmap_cons. cbn [deserialize_all]. rewrite deserialize_serialize by done. cbn. by rewrite IH.
Qed.

#[export] Instance wire_option : Wire (option T) (option W) :=
  {| serialize o := serialize <$> o;
     deserialize o := match o with None => Ok None | Some w => Some <$> deserialize w end;
     valid o := from_option valid True o |}.
#[export] Instance wire_option_laws : WireLaws (option T) (option W).
Proof.
  split.
  - intros [w|] x E; simpl in E; [|by injection E as <-].
    destruct (deserialize w) as [y|] eqn:Ew; [|done]. injection E as <-. simpl. by eapply deserialize_valid.
  - intros [x|] Hx; [|done]. simpl in *. by rewrite deserialize_serialize.
Qed.
End derived.

(** An enum of plain variants is its variant's name. *)
Class Variants (T : Type) `{EqDecision T} := {
  variants : list (string * T);
  variants_names : NoDup (fst <$> variants);
  variants_all x : x ∈ snd <$> variants;
}.

Section enum.
Context {T : Type} `{Variants T}.

Definition variant_name (x : T) : string :=
  from_option (λ p, p.2.1) ""%string (list_find (λ v, v.2 = x) variants).
Definition variant_of (name : string) : option T :=
  (λ p, p.2.2) <$> list_find (λ v, v.1 = name) variants.

#[export] Instance wire_enum : Wire T string :=
  {| serialize := variant_name; deserialize name := ok_or (variant_of name) WeUnknownVariant;
     valid _ := True |}.
#[export] Instance wire_enum_laws : WireLaws T string.
Proof.
  split; [done|]. intros x _. simpl. apply ok_or_Ok. unfold variant_name, variant_of.
  pose proof (variants_all x) as Hin. apply list_elem_of_fmap in Hin as ([n y] & Hy & Hin). simpl in Hy. subst x.
  destruct (list_find_elem_of (λ v, v.2 = y) variants (n, y) Hin eq_refl) as [[i [n' y']] E]. simpl in E.
  rewrite E. apply list_find_Some in E as (Hi & Hy & _). simpl in Hy. subst y'. cbn [from_option fst snd].
  assert (list_find (λ v, v.1 = n') variants = Some (i, (n', y))) as ->; [|done].
  apply list_find_Some. split; [done|]. split; [done|]. intros j [m z] Hj Hlt Hm. simpl in Hm. subst m.
  pose proof variants_names as Hnd. eapply (NoDup_lookup _ i j n') in Hnd; [lia|..]; rewrite list_lookup_fmap.
  - by rewrite Hi.
  - by rewrite Hj.
Qed.
End enum.

Lemma deserialize_variant `{Variants T} (x : T) : deserialize (serialize x) = Ok x.
Proof. by apply deserialize_serialize. Qed.

(** The names serde gives the variants ([rename_all = "snake_case"]). *)
Ltac variants_tac := first [by apply (bool_decide_unpack _); vm_compute | intros []; simpl; set_solver].

#[export] Instance ToolResultOutcome_variants : Variants ToolResultOutcome.
Proof.
  refine {| variants := [("success", OutcomeSuccess); ("failed", OutcomeFailed); ("denied", OutcomeDenied);
    ("cancelled", OutcomeCancelled); ("input_provided", OutcomeInputProvided)]%string |}; abstract variants_tac.
Defined.
#[export] Instance ReasoningPreference_variants : Variants ReasoningPreference.
Proof.
  refine {| variants := [("auto", ReasonAuto); ("disabled", ReasonDisabled); ("low", ReasonLow);
    ("medium", ReasonMedium); ("high", ReasonHigh); ("xhigh", ReasonXHigh); ("max", ReasonMax);
    ("ultra", ReasonUltra)]%string |}; abstract variants_tac.
Defined.
#[export] Instance ModelFinishReason_variants : Variants ModelFinishReason.
Proof.
  refine {| variants := [("stop", FinishStop); ("tool_calls", FinishToolCalls); ("length", FinishLength);
    ("content_filtered", FinishContentFiltered); ("refused", FinishRefused); ("unknown", FinishUnknown)]%string |};
    abstract variants_tac.
Defined.
#[export] Instance DeliveryState_variants : Variants DeliveryState.
Proof.
  refine {| variants := [("not_started", NotStarted); ("started", Started); ("unknown", DeliveryUnknown)]%string |};
    abstract variants_tac.
Defined.
#[export] Instance DiagnosticCategory_variants : Variants DiagnosticCategory.
Proof.
  refine {| variants := [("configuration", CatConfiguration); ("model", CatModel); ("tool", CatTool);
    ("policy", CatPolicy); ("context", CatContext); ("cancellation", CatCancellation);
    ("internal", CatInternal)]%string |}; abstract variants_tac.
Defined.
#[export] Instance DiagnosticCode_variants : Variants DiagnosticCode.
Proof.
  refine {| variants := [("invalid_configuration", CodeInvalidConfiguration); ("model_timeout", CodeModelTimeout);
    ("model_malformed_response", CodeModelMalformedResponse); ("model_unavailable", CodeModelUnavailable);
    ("runtime_terminated", CodeRuntimeTerminated); ("context_failed", CodeContextFailed);
    ("policy_denied", CodePolicyDenied); ("policy_failed", CodePolicyFailed); ("tool_not_found", CodeToolNotFound);
    ("tool_timeout", CodeToolTimeout); ("tool_failed", CodeToolFailed);
    ("interaction_not_found", CodeInteractionNotFound);
    ("interaction_kind_mismatch", CodeInteractionKindMismatch);
    ("turn_budget_exceeded", CodeTurnBudgetExceeded); ("internal", CodeInternal)]%string |}; abstract variants_tac.
Defined.
#[export] Instance ModelErrorKind_variants : Variants ModelErrorKind.
Proof.
  refine {| variants := [("invalid_request", KInvalidRequest); ("unavailable", KUnavailable);
    ("provider_unavailable", KProviderUnavailable); ("auth_missing", KAuthMissing);
    ("auth_rejected", KAuthRejected); ("rate_limited", KRateLimited); ("quota_exceeded", KQuotaExceeded);
    ("context_overflow", KContextOverflow); ("timeout", KTimeout);
    ("transport_unavailable", KTransportUnavailable); ("cancelled", KCancelled);
    ("invalid_provider_response", KInvalidProviderResponse); ("incomplete_response", KIncompleteResponse);
    ("stream_interrupted", KStreamInterrupted); ("request_outcome_unknown", KRequestOutcomeUnknown);
    ("unexpected_tool_call", KUnexpectedToolCall); ("panicked", KPanicked); ("internal", KInternal)]%string |};
    abstract variants_tac.
Defined.

#[export] Instance UserMessageKind_variants : Variants UserMessageKind.
Proof. refine {| variants := [("prompt", KindPrompt); ("steering", KindSteering)]%string |}; abstract variants_tac. Defined.

(** *** Strings and numbers *)

(** [deserialize_from_str] of value.rs: the string is parsed by [FromStr]. *)
Definition deserialize_from_str {T E : Type} (parse : str → result E T) (custom : E → WireError) (value : str) :
    result WireError T := map_err custom (parse value).

(** An unsigned number of the given width. *)
Definition deserialize_uint (max n : N) : result WireError N := guard_err (max <? n) WeOutOfRange $ Ok n.

Definition name_bytes (p : N → bool) (max : N) (s : str) : Prop :=
  s ≠ [] ∧ str_len s ≤ max ∧ forallb p (str_bytes s) = true.
Definition name_byte (b : N) : bool := is_ascii_alphanumeric b || (b =? 95) || (b =? 45).

Lemma name_guard {E T : Type} (p : N → bool) max s (e1 e2 : E) (x y : T) :
  guard_err (str_is_empty s || (max <? str_len s)) e1
    (guard_err (negb (forallb p (str_bytes s))) e2 (Ok x)) = Ok y ↔ name_bytes p max s ∧ y = x.
Proof.
  unfold name_bytes. rewrite !guard_err_Ok, orb_false_iff, str_is_empty_false, N.ltb_ge, negb_false_iff. naive_solver.
Qed.

#[export] Instance wire_ToolCallId : Wire ToolCallId str :=
  {| serialize := tool_call_id_str; deserialize := deserialize_from_str ToolCallId_new WeToolCallId;
     valid id := name_bytes opaque_byte 256 (tool_call_id_str id) |}.
#[export] Instance wire_ToolCallId_laws : WireLaws ToolCallId str.
Proof.
  split.
  - intros w x E. apply map_err_Ok, name_guard in E as [Hw ->]. done.
  - intros [s] Hs. by apply map_err_Ok, name_guard.
Qed.

#[export] Instance wire_ToolName : Wire ToolName str :=
  {| serialize := tool_name_str; deserialize := deserialize_from_str ToolName_from_str WeName;
     valid name := name_bytes name_byte 64 (tool_name_str name) |}.
#[export] Instance wire_ToolName_laws : WireLaws ToolName str.
Proof.
  split.
  - intros w x E. apply map_err_Ok, (name_guard name_byte) in E as [Hw ->]. done.
  - intros [s] Hs. by apply map_err_Ok, (name_guard name_byte).
Qed.

#[export] Instance wire_ModelRef : Wire ModelRef str :=
  {| serialize := model_ref_str; deserialize := deserialize_from_str ModelRef_from_str WeName;
     valid r := name_bytes model_ref_byte 256 (model_ref_str r) |}.
#[export] Instance wire_ModelRef_laws : WireLaws ModelRef str.
Proof.
  split.
  - intros w x E. apply map_err_Ok, name_guard in E as [Hw ->]. done.
  - intros [s] Hs. by apply map_err_Ok, name_guard.
Qed.

(** A payload of 16 bytes that is not all zero. *)
Definition payload_ok (bytes : list N) : Prop :=
  length bytes = 16%nat ∧ Forall (λ b, b < 256) bytes ∧ Exists (λ b, b ≠ 0) bytes.

Lemma decode_runtime_id_payload value prefix bytes : decode_runtime_id value prefix = Ok bytes → payload_ok bytes.
Proof. intros (? & ? & ? & _)%decode_runtime_id_Ok. by repeat split. Qed.
Lemma decode_encode_runtime_id prefix bytes :
  payload_ok bytes → decode_runtime_id (encode_runtime_id prefix bytes) prefix = Ok bytes.
Proof. intros (? & ? & ?). by apply decode_runtime_id_Ok. Qed.

#[export] Instance wire_LoopId : Wire LoopId str :=
  {| serialize := LoopId_to_string; deserialize := deserialize_from_str LoopId_from_str WeId;
     valid id := payload_ok (loop_id_bytes id) |}.
#[export] Instance wire_LoopId_laws : WireLaws LoopId str.
Proof.
  split.
  - intros w x E. apply map_err_Ok in E. unfold LoopId_from_str in E.
    destruct (decode_runtime_id w (lit "lup_")) as [bs|] eqn:Ed; [|done]. injection E as <-.
    by eapply decode_runtime_id_payload.
  - intros [bs] Hb. cbn [serialize deserialize wire_LoopId]. apply map_err_Ok. unfold LoopId_from_str, LoopId_to_string.
    by rewrite decode_encode_runtime_id.
Qed.

#[export] Instance wire_InteractionId : Wire InteractionId str :=
  {| serialize := InteractionId_to_string; deserialize := deserialize_from_str InteractionId_from_str WeId;
     valid id := payload_ok (interaction_id_bytes id) |}.
#[export] Instance wire_InteractionId_laws : WireLaws InteractionId str.
Proof.
  split.
  - intros w x E. apply map_err_Ok in E. unfold InteractionId_from_str in E.
    destruct (decode_runtime_id w (lit "int_")) as [bs|] eqn:Ed; [|done]. injection E as <-.
    by eapply decode_runtime_id_payload.
  - intros [bs] Hb. cbn [serialize deserialize wire_InteractionId]. apply map_err_Ok. unfold InteractionId_from_str, InteractionId_to_string.
    by rewrite decode_encode_runtime_id.
Qed.

#[export] Instance wire_BoundedText : Wire BoundedText str :=
  {| serialize := as_str; deserialize := deserialize_from_str BoundedText_visit_str WeText;
     valid t := byte_len t ≤ BoundedText_MAX_BYTES |}.
#[export] Instance wire_BoundedText_laws : WireLaws BoundedText str.
Proof.
  split.
  - intros w x E. apply map_err_Ok, BoundedText_new_Ok in E as [Hw ->]. done.
  - intros [s] Hs. by apply map_err_Ok, BoundedText_new_Ok.
Qed.

(** *** Reasoning *)

Record ReasoningContentWire := mkReasoningContentWire {
  rcw_text : option str;
  rcw_summary : option str;
  rcw_encrypted : option str;
  rcw_signature : option str;
}.

Definition ReasoningContent_deserialize (value : ReasoningContentWire) : result WireError ReasoningContent :=
  map_err WeModelValue
    (ReasoningContent_new (rcw_text value) (rcw_summary value) (rcw_encrypted value) (rcw_signature value)).

Definition opt_text (max : N) (t : option str) : Prop := from_option (λ s, valid_text s max true = true) True t.
Definition opt_opaque (max : N) (t : option str) : Prop := from_option (name_bytes opaque_byte max) True t.

Record reasoning_ok (r : ReasoningContent) : Prop := {
  ro_text : opt_text 262144 (rc_text r);
  ro_summary : opt_text 131072 (rc_summary r);
  ro_encrypted : opt_opaque 262144 (rc_encrypted r);
  ro_signature : opt_opaque 16384 (rc_signature r);
  ro_some : r ≠ mkReasoningContent None None None None;
}.

Lemma normalize_optional_text_Ok v max t :
  normalize_optional_text v max = Ok t → opt_text max t.
Proof.
  destruct v as [v|]; simpl; [|by intros [= <-]]. rewrite cow_str_normalize.
  destruct (N.ltb_spec max (str_len (normalize_chars v))); [done|]. intros [= <-]. apply valid_text_spec.
  split; [by left|]. split; [done|]. apply normalize_chars_ok.
Qed.
Lemma normalize_optional_text_id max t : opt_text max t → normalize_optional_text t max = Ok t.
Proof.
  destruct t as [t|]; [|done]. intros (_ & Hl & Hc)%valid_text_spec. simpl. rewrite cow_str_normalize.
  rewrite (normalize_chars_id t Hc). by destruct (N.ltb_spec max (str_len t)); [lia|].
Qed.
Lemma existsb_negb {A} (p : A → bool) l : existsb (λ x, negb (p x)) l = negb (forallb p l).
Proof. induction l as [|x l IH]; [done|]. simpl. by rewrite IH, negb_andb. Qed.
Lemma existsb_ext_fun {A} (p q : A → bool) l : (∀ x, p x = q x) → existsb p l = existsb q l.
Proof. intros E. induction l as [|x l IH]; [done|]. simpl. by rewrite E, IH. Qed.
Lemma validate_optional_opaque_Ok v max : validate_optional_opaque v max = Ok () ↔ opt_opaque max v.
Proof.
  destruct v as [v|]; [|done]. unfold validate_optional_opaque.
  rewrite (existsb_ext_fun _ (λ b, negb (opaque_byte b))), existsb_negb.
  - simpl. unfold name_bytes. destruct (_ || _) eqn:E.
    + split; [done|]. intros (Hn & Hl & Hf). rewrite Hf, orb_false_r, orb_true_iff, N.ltb_lt in E.
      destruct E as [E|E]; [|lia]. by destruct v.
    + rewrite !orb_false_iff, str_is_empty_false, N.ltb_ge, negb_false_iff in E. tauto.
  - intros b. unfold opaque_byte. by destruct (_ && _), (b =? 34), (b =? 92).
Qed.

Lemma ReasoningContent_new_valid t s e g r : ReasoningContent_new t s e g = Ok r → reasoning_ok r.
Proof.
  unfold ReasoningContent_new. intros E. wire_inv.
  repeat match goal with
  | H : normalize_optional_text _ _ = Ok _ |- _ => apply normalize_optional_text_Ok in H
  | u : () |- _ => destruct u
  | H : validate_optional_opaque _ _ = Ok _ |- _ => apply validate_optional_opaque_Ok in H
  end.
  split; try done. intros [= -> -> -> ->]. done.
Qed.
Lemma ReasoningContent_new_id r :
  reasoning_ok r → ReasoningContent_new (rc_text r) (rc_summary r) (rc_encrypted r) (rc_signature r) = Ok r.
Proof.
  intros [Ht Hs He Hg Hn]. unfold ReasoningContent_new. rewrite !normalize_optional_text_id by done.
  cbn [mbind result_bind]. rewrite !(proj2 (validate_optional_opaque_Ok _ _)) by done. cbn [mbind result_bind].
  destruct r as [t s e g]. simpl in *.
  destruct (_ && _) eqn:E; [|done]. rewrite !andb_true_iff, !bool_decide_eq_true in E.
  destruct Hn. naive_solver.
Qed.

#[export] Instance wire_ReasoningContent : Wire ReasoningContent ReasoningContentWire :=
  {| serialize r := mkReasoningContentWire (rc_text r) (rc_summary r) (rc_encrypted r) (rc_signature r);
     deserialize := ReasoningContent_deserialize; valid := reasoning_ok |}.
#[export] Instance wire_ReasoningContent_laws : WireLaws ReasoningContent ReasoningContentWire.
Proof.
  split.
  - intros w x E. apply map_err_Ok in E. by eapply ReasoningContent_new_valid.
  - intros r Hr. by apply map_err_Ok, ReasoningContent_new_id.
Qed.

Section wire.
Context `{SerdeJson}.

(** *** Tool calls, tools and their outputs *)

(** A JSON value is read as it is. *)
#[export] Instance wire_Value : Wire Value Value := {| serialize v := v; deserialize := Ok; valid _ := True |}.
#[export] Instance wire_Value_laws : WireLaws Value Value.
Proof. done. Qed.

(** An object within the budgets of [validate_json_size]. *)
Definition object_ok (v : Value) : Prop :=
  is_object v = true ∧ json_depth v ≤ MAX_JSON_DEPTH ∧ json_nodes v ≤ MAX_JSON_NODES ∧ json_len v ≤ MAX_JSON_BYTES.

Lemma object_guard v :
  negb (is_object v) || is_err (validate_json_size v MAX_JSON_BYTES) = false ↔ object_ok v.
Proof.
  unfold object_ok. destruct (validate_json_size_exact v MAX_JSON_BYTES) as [Hv _].
  rewrite orb_false_iff, negb_false_iff. unfold is_err. rewrite negb_false_iff, is_ok_true.
  split.
  - intros [? [[] E]]. apply Hv in E. tauto.
  - intros (? & ? & ? & ?). split; [done|]. exists (). apply Hv. split; [reflexivity|done].
Qed.

(** [ToolCallWire]: its fields are read, then [new] checks. *)
Record ToolCallWire := mkToolCallWire {
  tcw_tool_call_id : ToolCallId;
  tcw_name : ToolName;
  tcw_arguments : Value;
  tcw_call_index : N;
}.
Definition ToolCall_deserialize (value : ToolCallWire) : result WireError ToolCall :=
  map_err WeModelValue
    (ToolCall_new (tcw_tool_call_id value) (tcw_name value) (tcw_arguments value) (tcw_call_index value)).

Definition RawToolCall : Type := str * str * Value * N.
Definition read_ToolCall (w : RawToolCall) : result WireError ToolCall :=
  let '(id, name, arguments, call_index) := w in
  id ← deserialize id; name ← deserialize name; arguments ← deserialize arguments;
  call_index ← deserialize_uint u32_MAX call_index;
  ToolCall_deserialize (mkToolCallWire id name arguments call_index).

Record call_ok (c : ToolCall) : Prop := {
  co_id : valid (tc_tool_call_id c);
  co_name : valid (tc_name c);
  co_arguments : object_ok (tc_arguments c);
  co_index : tc_call_index c ≤ u32_MAX;
}.

#[export] Instance wire_ToolCall : Wire ToolCall RawToolCall :=
  {| serialize c := (serialize (tc_tool_call_id c), serialize (tc_name c), tc_arguments c, tc_call_index c);
     deserialize := read_ToolCall; valid := call_ok |}.

Lemma deserialize_uint_Ok max n m : deserialize_uint max n = Ok m ↔ n ≤ max ∧ m = n.
Proof. unfold deserialize_uint. rewrite guard_err_Ok, N.ltb_ge. naive_solver. Qed.

#[export] Instance wire_ToolCall_laws : WireLaws ToolCall RawToolCall.
Proof.
  split.
  - intros [[[i n] a] k] c E. cbn [deserialize wire_ToolCall] in E. unfold read_ToolCall, ToolCall_deserialize, ToolCall_new, ToolCall_new_with_max_bytes in E.
    wire_inv. match goal with H : deserialize_uint _ _ = _ |- _ => apply deserialize_uint_Ok in H as [? ->] end.
    split; [done..| |done]. by apply object_guard.
  - intros [i n a k] [Hi Hn Ha Hk]. cbn [serialize wire_ToolCall deserialize]. unfold read_ToolCall. simpl in Hi, Hn, Hk.
    rewrite !deserialize_serialize by done. cbn [mbind result_bind]. simpl.
    rewrite (proj2 (deserialize_uint_Ok u32_MAX k k)) by done. simpl.
    unfold ToolCall_deserialize, ToolCall_new, ToolCall_new_with_max_bytes. simpl.
    by rewrite (proj2 (object_guard a) Ha).
Qed.

(** [ToolInvocationWire]. *)
Definition ToolInvocation_deserialize (id : ToolCallId) (name : ToolName) (arguments : Value) :
    result WireError ToolInvocation := map_err WeToolError (ToolInvocation_new id name arguments).

Definition RawToolInvocation : Type := str * str * Value.
#[export] Instance wire_ToolInvocation : Wire ToolInvocation RawToolInvocation :=
  {| serialize i := (serialize (ti_tool_call_id i), serialize (ti_tool_name i), ti_arguments i);
     deserialize w := let '(id, name, arguments) := w in
       id ← deserialize id; name ← deserialize name; ToolInvocation_deserialize id name arguments;
     valid i := valid (ti_tool_call_id i) ∧ valid (ti_tool_name i) ∧ object_ok (ti_arguments i) |}.
#[export] Instance wire_ToolInvocation_laws : WireLaws ToolInvocation RawToolInvocation.
Proof.
  split.
  - intros [[i n] a] c E. cbn [deserialize wire_ToolInvocation] in E. unfold ToolInvocation_deserialize, ToolInvocation_new in E. wire_inv.
    split_and!; [done..|]. by apply object_guard.
  - intros [i n a] (Hi & Hn & Ha). simpl in Hi, Hn, Ha. cbn [serialize deserialize wire_ToolInvocation].
    rewrite !deserialize_serialize by done. cbn. unfold ToolInvocation_deserialize, ToolInvocation_new.
    by rewrite (proj2 (object_guard a) Ha).
Qed.

(** [ToolSpecWire]. *)
Definition ToolSpec_deserialize (name : ToolName) (description : BoundedText) (input_schema : Value) :
    result WireError ToolSpec := map_err WeTool (ToolSpec_new name (as_str description) input_schema).

Record spec_ok (s : ToolSpec) : Prop := {
  so_name : valid (ts_name s);
  so_description : valid_text (as_str (ts_description s)) MAX_TOOL_DESCRIPTION_BYTES false = true;
  so_schema : object_ok (ts_input_schema s);
}.

Lemma ToolSpec_new_Ok name description schema s :
  ToolSpec_new name description schema = Ok s ↔
  valid_text description MAX_TOOL_DESCRIPTION_BYTES false = true ∧ object_ok schema ∧
  s = mkToolSpec name (mkBoundedText description) schema.
Proof.
  unfold ToolSpec_new. rewrite result_bind_Ok. split.
  - intros (d & (_ & _ & ->)%map_err_Ok%BoundedText_new_with_max_bytes_Ok & E). wire_inv.
    unfold ToolSpec_validate in *. wire_inv. simpl in *. rewrite negb_false_iff in *. by rewrite <- object_guard.
  - intros (Hd & Hs & ->). exists (mkBoundedText description). split.
    + apply map_err_Ok, BoundedText_new_with_max_bytes_Ok. apply valid_text_spec in Hd as (_ & ? & _). by repeat split.
    + unfold ToolSpec_validate. simpl. rewrite Hd, (proj2 (object_guard schema) Hs). done.
Qed.

Definition RawToolSpec : Type := str * str * Value.
#[export] Instance wire_ToolSpec : Wire ToolSpec RawToolSpec :=
  {| serialize s := (serialize (ts_name s), serialize (ts_description s), ts_input_schema s);
     deserialize w := let '(name, description, schema) := w in
       name ← deserialize name; description ← deserialize description; ToolSpec_deserialize name description schema;
     valid := spec_ok |}.
#[export] Instance wire_ToolSpec_laws : WireLaws ToolSpec RawToolSpec.
Proof.
  split.
  - intros [[n d] v] s E. cbn [deserialize wire_ToolSpec] in E. unfold ToolSpec_deserialize in E. wire_inv.
    match goal with H : ToolSpec_new _ _ _ = Ok _ |- _ => apply ToolSpec_new_Ok in H as (? & ? & ->) end. by split.
  - intros [n [d] v] [Hn Hd Hv]. simpl in Hn, Hd, Hv. cbn [serialize deserialize wire_ToolSpec].
    rewrite !deserialize_serialize.
    + cbn. unfold ToolSpec_deserialize. by apply map_err_Ok, ToolSpec_new_Ok.
    + done.
    + simpl. apply valid_text_spec in Hd as (_ & Hl & _). etransitivity; [exact Hl|done].
Qed.

(** [ToolOutputWire] has the one field. *)
#[export] Instance wire_ToolOutput : Wire ToolOutput str :=
  {| serialize o := serialize (to_content o);
     deserialize w := content ← deserialize w; map_err WeDe (ToolOutput_deserialize content);
     valid o := valid_text (as_str (to_content o)) MAX_TEXT_BYTES true = true |}.
#[export] Instance wire_ToolOutput_laws : WireLaws ToolOutput str.
Proof.
  split.
  - intros w o E. cbn [deserialize wire_ToolOutput] in E. unfold ToolOutput_deserialize in E. wire_inv.
    match goal with H : ToolOutput_new _ = Ok _ |- _ => apply ToolOutput_new_Ok in H as [? ->] end. done.
  - intros [[s]] Ho. simpl in Ho. cbn [serialize deserialize wire_ToolOutput]. rewrite deserialize_serialize.
    + cbn. by apply map_err_Ok, map_err_Ok, ToolOutput_new_Ok.
    + apply valid_text_spec in Ho as (_ & Hl & _). exact Hl.
Qed.

(** [Wire] of replay.rs; the byte count is recomputed. *)
Definition ProviderReplay_deserialize (format : str) (payload : Value) : result WireError ProviderReplay :=
  map_err WeReplay (ProviderReplay_new format payload).

#[export] Instance wire_ProviderReplay : Wire ProviderReplay (str * Value) :=
  {| serialize r := (pr_format r, pr_payload r);
     deserialize w := ProviderReplay_deserialize w.1 w.2;
     valid r := name_bytes symbolic_byte 128 (pr_format r) ∧
       json_depth (pr_payload r) ≤ REPLAY_MAX_DEPTH ∧ json_nodes (pr_payload r) ≤ REPLAY_MAX_NODES ∧
       json_len (replay_envelope (pr_format r) (pr_payload r)) ≤ REPLAY_MAX_BYTES ∧
       pr_bytes r = json_len (replay_envelope (pr_format r) (pr_payload r)) |}.
#[export] Instance wire_ProviderReplay_laws : WireLaws ProviderReplay (str * Value).
Proof.
  split.
  - intros [f v] r E. apply map_err_Ok, ProviderReplay_new_Ok in E as ((? & ? & Hf) & ? & ? & ? & ->).
    split; [|done]. split; [done|]. split; [done|]. by apply forallb_Forall.
  - intros [f v n] ((? & ? & Hf%forallb_Forall) & ? & ? & ? & Hn). simpl in *. subst n.
    by apply map_err_Ok, ProviderReplay_new_Ok.
Qed.

(** *** Limits and usage *)

(** [ModelLimitsWire]; its numbers are [u32]. *)
Definition ModelLimits_deserialize (context_window_tokens max_output_tokens : option N) : result WireError ModelLimits :=
  map_err WeLimits (ModelLimits_new context_window_tokens max_output_tokens).

Definition opt_uint (max : N) (n : option N) : result WireError (option N) :=
  match n with None => Ok None | Some n => Some <$> deserialize_uint max n end.
Definition opt_within (max : N) (n : option N) : Prop := from_option (λ n, n ≤ max) True n.

Lemma opt_uint_Ok max n m : opt_uint max n = Ok m ↔ opt_within max n ∧ m = n.
Proof.
  destruct n as [n|]; simpl; [|naive_solver]. destruct (deserialize_uint max n) as [k|] eqn:E.
  - apply deserialize_uint_Ok in E as [? ->]. simpl. naive_solver.
  - split; [done|]. intros [Hn _]. by rewrite (proj2 (deserialize_uint_Ok max n n)) in E.
Qed.

#[export] Instance wire_ModelLimits : Wire ModelLimits (option N * option N) :=
  {| serialize l := (context_window_tokens l, max_output_tokens l);
     deserialize w := c ← opt_uint u32_MAX w.1; m ← opt_uint u32_MAX w.2; ModelLimits_deserialize c m;
     valid l := (opt_within u32_MAX (context_window_tokens l) ∧ context_window_tokens l ≠ Some 0) ∧
       opt_within u32_MAX (max_output_tokens l) ∧ max_output_tokens l ≠ Some 0 |}.
Lemma ModelLimits_new_Ok c m l : ModelLimits_new c m = Ok l ↔ (c ≠ Some 0 ∧ m ≠ Some 0) ∧ l = mkModelLimits c m.
Proof. unfold ModelLimits_new. rewrite guard_err_Ok, orb_false_iff, !bool_decide_eq_false. naive_solver. Qed.
#[export] Instance wire_ModelLimits_laws : WireLaws ModelLimits (option N * option N).
Proof.
  split.
  - intros [c m] l E. cbn [deserialize wire_ModelLimits fst snd] in E. unfold ModelLimits_deserialize in E. wire_inv.
    repeat match goal with H : opt_uint _ _ = Ok _ |- _ => apply opt_uint_Ok in H as [? ->] end.
    match goal with H : ModelLimits_new _ _ = Ok _ |- _ => apply ModelLimits_new_Ok in H as [[? ?] ->] end. by split.
  - intros [c m] ([? ?] & ? & ?). cbn [serialize deserialize wire_ModelLimits fst snd].
    rewrite !(proj2 (opt_uint_Ok _ _ _)) by done. cbn. by apply map_err_Ok, ModelLimits_new_Ok.
Qed.

(** The derived impls of [Usage]: six numbers that may be absent. *)
Definition RawUsage : Type := option N * option N * option N * option N * option N * option N.
#[export] Instance wire_Usage : Wire Usage RawUsage :=
  {| serialize u := (input_tokens u, output_tokens u, reasoning_tokens u, cache_read_tokens u,
       cache_write_tokens u, provider_total_tokens u);
     deserialize w := let '(i, o, r, cr, cw, t) := w in
       i ← opt_uint u64_MAX i; o ← opt_uint u64_MAX o; r ← opt_uint u64_MAX r;
       cr ← opt_uint u64_MAX cr; cw ← opt_uint u64_MAX cw; t ← opt_uint u64_MAX t;
       Ok (mkUsage i o r cr cw t);
     valid u := Forall (opt_within u64_MAX) [input_tokens u; output_tokens u; reasoning_tokens u;
       cache_read_tokens u; cache_write_tokens u; provider_total_tokens u] |}.
#[export] Instance wire_Usage_laws : WireLaws Usage RawUsage.
Proof.
  split.
  - intros [[[[[i o] r] cr] cw] t] u E. cbn [deserialize wire_Usage] in E. wire_inv.
    repeat match goal with H : opt_uint _ _ = Ok _ |- _ => apply opt_uint_Ok in H as [? ->] end.
    simpl. by repeat constructor.
  - intros [i o r cr cw t] Hu. cbn [serialize deserialize wire_Usage]. cbn in Hu.
    rewrite !Forall_cons in Hu. destruct Hu as (? & ? & ? & ? & ? & ? & _).
    do 6 (rewrite (proj2 (opt_uint_Ok _ _ _)) by done; cbn [mbind result_bind]). done.
Qed.

(** *** Parts and messages *)

(** [AssistantPartWire], with its payloads still to be read. *)
Inductive RawAssistantPart :=
| RawText (text : str)
| RawReasoning (reasoning : ReasoningContentWire)
| RawToolCallPart (call : RawToolCall).

Definition read_AssistantPart (w : RawAssistantPart) : result WireError AssistantPart :=
  wire ← match w with
    | RawText text => Ok (PartText text)
    | RawReasoning reasoning => PartReasoning <$> deserialize reasoning
    | RawToolCallPart call => PartToolCall <$> deserialize call
    end;
  map_err WeModelValue (AssistantPart_deserialize wire).

Definition assistant_part_ok (p : AssistantPart) : Prop :=
  match p with
  | PartText text => valid_text text MAX_MODEL_MESSAGE_TEXT_BYTES true = true
  | PartReasoning reasoning => valid reasoning
  | PartToolCall call => valid call
  end.

#[export] Instance wire_AssistantPart : Wire AssistantPart RawAssistantPart :=
  {| serialize p := match p with
       | PartText text => RawText text
       | PartReasoning reasoning => RawReasoning (serialize reasoning)
       | PartToolCall call => RawToolCallPart (serialize call)
       end;
     deserialize := read_AssistantPart; valid := assistant_part_ok |}.

Lemma fmap_Ok {E A B} (f : A → B) (r : result E A) b : f <$> r = Ok b ↔ ∃ a, r = Ok a ∧ b = f a.
Proof. destruct r; simpl; naive_solver. Qed.

#[export] Instance wire_AssistantPart_laws : WireLaws AssistantPart RawAssistantPart.
Proof.
  split.
  - intros w p E. cbn [deserialize wire_AssistantPart] in E. unfold read_AssistantPart in E.
    apply result_bind_Ok in E as (q & Hq & E). apply map_err_Ok in E. unfold AssistantPart_deserialize in E.
    destruct w as [t|r|c].
    + injection Hq as <-. simpl in E. destruct (valid_text _ _ _) eqn:Ev; [|done]. injection E as <-. exact Ev.
    + apply fmap_Ok in Hq as (r' & Hr & ->). apply deserialize_valid in Hr. injection E as <-. exact Hr.
    + apply fmap_Ok in Hq as (c' & Hc & ->). apply deserialize_valid in Hc. injection E as <-. exact Hc.
  - intros [t|r|c] Hp; cbn [serialize deserialize wire_AssistantPart]; unfold read_AssistantPart;
    cbn [valid wire_AssistantPart assistant_part_ok] in Hp.
    + cbn. apply map_err_Ok. unfold AssistantPart_deserialize. rewrite cow_str_normalize.
      pose proof Hp as (_ & _ & Hc)%valid_text_spec. rewrite (normalize_chars_id t Hc). simpl. by rewrite Hp.
    + by rewrite (deserialize_serialize r Hp).
    + by rewrite (deserialize_serialize c Hp).
Qed.

(** [ModelMessageWire] and [AssistantMessageWire], with their payloads still to be read. *)
Inductive RawMessage :=
| RawSystem (text : str)
| RawUser (text : str)
| RawLegacy (parts : list RawAssistantPart)
| RawReplay (parts : list RawAssistantPart) (provider_replay : option (str * Value))
| RawTool (tool_call_id output : str) (outcome : string).

Definition read_ModelMessageWire (w : RawMessage) : result WireError ModelMessageWire :=
  match w with
  | RawSystem text => Ok (WireSystem text)
  | RawUser text => Ok (WireUser text)
  | RawLegacy parts => WireLegacy <$> deserialize parts
  | RawReplay parts replay => parts ← deserialize parts; replay ← deserialize replay; Ok (WireReplay parts replay)
  | RawTool id output outcome =>
      id ← deserialize id; output ← deserialize output; outcome ← deserialize outcome;
      Ok (WireTool id output outcome)
  end.

Definition write_ModelMessageWire (w : ModelMessageWire) : RawMessage :=
  match w with
  | WireSystem text => RawSystem text
  | WireUser text => RawUser text
  | WireLegacy parts => RawLegacy (serialize parts)
  | WireReplay parts replay => RawReplay (serialize parts) (serialize replay)
  | WireTool id output outcome => RawTool (serialize id) (serialize output) (serialize outcome)
  end.

Definition model_message_ok (m : ModelMessage) : Prop :=
  message_ok m ∧
  match m with
  | MsgSystem _ | MsgUser _ => True
  | MsgAssistant parts => valid parts
  | MsgAssistantWithReplay parts replay => valid parts ∧ valid replay
  | MsgTool id output _ => valid id ∧ valid output
  end.

#[export] Instance wire_ModelMessage : Wire ModelMessage RawMessage :=
  {| serialize m := write_ModelMessageWire (ModelMessage_serialize m);
     deserialize w := wire ← read_ModelMessageWire w; map_err WeModelValue (ModelMessage_deserialize wire);
     valid := model_message_ok |}.

Lemma assistant_parts_part_ok (parts : list AssistantPart) : valid parts → Forall part_ok parts.
Proof. intros Hp. eapply Forall_impl; [exact Hp|]. intros [t|r|c] Hx; [by apply part_ok_text|done|done]. Qed.

Lemma assistant_with_provider_replay_Ok parts replay m :
  Forall part_ok parts → assistant_with_provider_replay parts replay = Ok m →
  m = match replay with Some r => MsgAssistantWithReplay parts r | None => MsgAssistant parts end ∧ message_ok m.
Proof.
  intros Hp. unfold assistant_with_provider_replay. rewrite (normalize_parts_id parts Hp). intros E.
  apply result_bind_Ok in E as ([] & Hv & [= <-]). by destruct replay.
Qed.

Lemma ModelMessage_deserialize_serialize m :
  model_message_ok m → ModelMessage_deserialize (ModelMessage_serialize m) = Ok m.
Proof.
  intros [Hm Hp]. unfold message_ok in Hm. unfold ModelMessage_deserialize, ModelMessage_serialize.
  destruct m as [t|t|parts|parts r|i o oc]; try (cbn [mbind result_bind]; by rewrite Hm).
  destruct Hp as [Hp _]. unfold assistant_with_provider_replay.
  rewrite (normalize_parts_id parts (assistant_parts_part_ok parts Hp)), Hm. cbn [mbind result_bind]. by rewrite Hm.
Qed.

#[export] Instance wire_ModelMessage_laws : WireLaws ModelMessage RawMessage.
Proof.
  split.
  - intros w m E. cbn [deserialize wire_ModelMessage] in E.
    apply result_bind_Ok in E as (wm & Hw & E). apply map_err_Ok in E. unfold ModelMessage_deserialize in E.
    apply result_bind_Ok in E as (m' & Hm' & E). apply result_bind_Ok in E as ([] & Hv & [= <-]).
    split; [exact Hv|]. destruct w as [t|t|parts|parts r|i o oc]; cbn [read_ModelMessageWire] in Hw.
    + injection Hw as <-. by injection Hm' as <-.
    + injection Hw as <-. by injection Hm' as <-.
    + apply fmap_Ok in Hw as (ps & Hps & ->). apply (deserialize_valid (T := list AssistantPart)) in Hps.
      by injection Hm' as <-.
    + apply result_bind_Ok in Hw as (ps & Hps & Hw). apply (deserialize_valid (T := list AssistantPart)) in Hps.
      apply result_bind_Ok in Hw as (rs & Hrs & [= <-]). apply (deserialize_valid (T := option ProviderReplay)) in Hrs.
      apply assistant_with_provider_replay_Ok in Hm' as [-> _]; [|by apply assistant_parts_part_ok].
      by destruct rs.
    + apply result_bind_Ok in Hw as (i' & Hi & Hw). apply result_bind_Ok in Hw as (o' & Ho & Hw).
      apply result_bind_Ok in Hw as (oc' & _ & [= <-]). injection Hm' as <-.
      split; [by apply (deserialize_valid (T := ToolCallId)) in Hi|by apply (deserialize_valid (T := ToolOutput)) in Ho].
  - intros m Hm. cbn [serialize deserialize wire_ModelMessage].
    assert (read_ModelMessageWire (write_ModelMessageWire (ModelMessage_serialize m)) = Ok (ModelMessage_serialize m)) as ->.
    + destruct Hm as [_ Hp]. destruct m as [t|t|parts|parts r|i o oc]; try done;
        cbn [write_ModelMessageWire ModelMessage_serialize read_ModelMessageWire].
      * by rewrite (deserialize_serialize parts Hp).
      * rewrite (deserialize_serialize parts (proj1 Hp)), (deserialize_serialize (Some r)); [done|apply Hp].
      * rewrite (deserialize_serialize i (proj1 Hp)), (deserialize_serialize o (proj2 Hp)), deserialize_serialize; done.
    + by apply map_err_Ok, ModelMessage_deserialize_serialize.
Qed.

(** *** Requests and responses *)

(** [ModelRequestWire] and [ModelResponseWire] have the fields of the types. *)
Definition ModelRequest_deserialize (messages : list ModelMessage) (tools : list ToolSpec) (limits : ModelLimits)
    (reasoning : ReasoningPreference) : result WireError ModelRequest :=
  map_err WeModelValue (ModelRequest_new messages tools limits reasoning).

Definition RawRequest : Type := list RawMessage * list RawToolSpec * (option N * option N) * string.

Record request_ok (r : ModelRequest) : Prop := {
  ro_messages : valid (mr_messages r);
  ro_nonempty : mr_messages r ≠ [];
  ro_exchange : exchange_ok (mr_messages r);
  ro_tools : valid (mr_tools r);
  ro_sorted : StronglySorted spec_lt (mr_tools r);
  ro_limits : valid (mr_limits r);
}.

#[export] Instance wire_ModelRequest : Wire ModelRequest RawRequest :=
  {| serialize r := (serialize (mr_messages r), serialize (mr_tools r), serialize (mr_limits r),
       serialize (mr_reasoning r));
     deserialize w := let '(messages, tools, limits, reasoning) := w in
       messages ← deserialize messages; tools ← deserialize tools; limits ← deserialize limits;
       reasoning ← deserialize reasoning; ModelRequest_deserialize messages tools limits reasoning;
     valid := request_ok |}.
#[export] Instance wire_ModelRequest_laws : WireLaws ModelRequest RawRequest.
Proof.
  split.
  - intros [[[ms ts] l] p] r E. cbn [deserialize wire_ModelRequest] in E. unfold ModelRequest_deserialize in E.
    apply result_bind_Ok in E as (ms' & Hms & E). apply (deserialize_valid (T := list ModelMessage)) in Hms.
    apply result_bind_Ok in E as (ts' & Hts & E). apply (deserialize_valid (T := list ToolSpec)) in Hts.
    apply result_bind_Ok in E as (l' & Hl & E). apply (deserialize_valid (T := ModelLimits)) in Hl.
    apply result_bind_Ok in E as (p' & _ & E). apply map_err_Ok, ModelRequest_new_Ok in E as [(? & ? & ?) ->]. by split.
  - intros [ms ts l p] [? ? ? ? ? ?]. cbn [mr_messages mr_tools mr_limits mr_reasoning] in *.
    cbn [serialize deserialize wire_ModelRequest mr_messages mr_tools mr_limits mr_reasoning].
    rewrite (deserialize_serialize ms), (deserialize_serialize ts), (deserialize_serialize l), (deserialize_serialize p) by done.
    by apply map_err_Ok, ModelRequest_new_Ok.
Qed.

Definition ModelResponse_deserialize (parts : list AssistantPart) (finish_reason : ModelFinishReason)
    (usage : option Usage) (provider_replay : option ProviderReplay) : result WireError ModelResponse :=
  map_err WeModelValue (ModelResponse_new_with_provider_replay parts finish_reason usage provider_replay).

Definition RawResponse : Type := list RawAssistantPart * string * option RawUsage * option (str * Value).

Record response_ok (r : ModelResponse) : Prop := {
  rs_parts : valid (resp_parts r);
  rs_calls : parts_ok (resp_parts r);
  rs_some : resp_parts r ≠ [] ∨ resp_provider_replay r ≠ None;
  rs_usage : valid (resp_usage r);
  rs_replay : valid (resp_provider_replay r);
}.

Lemma ModelResponse_new_Ok ps f u rp r :
  Forall part_ok ps →
  ModelResponse_new_with_provider_replay ps f u rp = Ok r ↔
  ((ps ≠ [] ∨ rp ≠ None) ∧ parts_ok ps) ∧ r = mkModelResponse ps f u rp.
Proof.
  intros Hp. unfold ModelResponse_new_with_provider_replay. rewrite (normalize_parts_id ps Hp).
  rewrite guard_err_Ok, result_unit_bind, validate_tool_call_order_Ok, andb_false_iff, bool_decide_eq_false.
  destruct ps; naive_solver.
Qed.

#[export] Instance wire_ModelResponse : Wire ModelResponse RawResponse :=
  {| serialize r := (serialize (resp_parts r), serialize (resp_finish_reason r), serialize (resp_usage r),
       serialize (resp_provider_replay r));
     deserialize w := let '(parts, finish_reason, usage, replay) := w in
       parts ← deserialize parts; finish_reason ← deserialize finish_reason; usage ← deserialize usage;
       replay ← deserialize replay; ModelResponse_deserialize parts finish_reason usage replay;
     valid := response_ok |}.
#[export] Instance wire_ModelResponse_laws : WireLaws ModelResponse RawResponse.
Proof.
  split.
  - intros [[[ps f] u] rp] r E. cbn [deserialize wire_ModelResponse] in E. unfold ModelResponse_deserialize in E.
    apply result_bind_Ok in E as (ps' & Hps & E). apply (deserialize_valid (T := list AssistantPart)) in Hps.
    apply result_bind_Ok in E as (f' & _ & E).
    apply result_bind_Ok in E as (u' & Hu & E). apply (deserialize_valid (T := option Usage)) in Hu.
    apply result_bind_Ok in E as (rp' & Hrp & E). apply (deserialize_valid (T := option ProviderReplay)) in Hrp.
    apply map_err_Ok, ModelResponse_new_Ok in E as [[? ?] ->]; [by split|by apply assistant_parts_part_ok].
  - intros [ps f u rp] [? ? ? ? ?]. cbn [resp_parts resp_usage resp_provider_replay] in *.
    cbn [serialize deserialize wire_ModelResponse resp_parts resp_finish_reason resp_usage resp_provider_replay].
    rewrite (deserialize_serialize ps), (deserialize_serialize f), (deserialize_serialize u), (deserialize_serialize rp) by done.
    apply map_err_Ok, ModelResponse_new_Ok; [by apply assistant_parts_part_ok|done].
Qed.

(** *** Diagnostics and errors *)

(** [DiagnosticSummaryWire]. *)
Definition DiagnosticSummary_deserialize (code : DiagnosticCode) (category : DiagnosticCategory)
    (message : BoundedText) (retryable : bool) : result WireError DiagnosticSummary :=
  map_err WeText (DiagnosticSummary_new code category message retryable).

Definition RawDiagnostic : Type := string * string * str * bool.
#[export] Instance wire_DiagnosticSummary : Wire DiagnosticSummary RawDiagnostic :=
  {| serialize d := (serialize (ds_code d), serialize (ds_category d), serialize (ds_message d), ds_retryable d);
     deserialize w := let '(code, category, message, retryable) := w in
       code ← deserialize code; category ← deserialize category; message ← deserialize message;
       DiagnosticSummary_deserialize code category message retryable;
     valid d := valid_text (as_str (ds_message d)) BoundedText_MAX_BYTES true = true |}.
#[export] Instance wire_DiagnosticSummary_laws : WireLaws DiagnosticSummary RawDiagnostic.
Proof.
  split.
  - intros [[[c g] m] b] d E. cbn [deserialize wire_DiagnosticSummary] in E.
    apply result_bind_Ok in E as (c' & _ & E). apply result_bind_Ok in E as (g' & _ & E).
    apply result_bind_Ok in E as (m' & _ & E). apply map_err_Ok in E. unfold DiagnosticSummary_new in E.
    destruct (valid_text _ _ _) eqn:Ev; [|done]. injection E as <-. exact Ev.
  - intros [c g m b] Hd. cbn in Hd. cbn [serialize deserialize wire_DiagnosticSummary ds_code ds_category ds_message ds_retryable].
    rewrite (deserialize_serialize c), (deserialize_serialize g), (deserialize_serialize m); [|..|done].
    + cbn [mbind result_bind]. apply map_err_Ok. unfold DiagnosticSummary_new. by rewrite Hd.
    + apply valid_text_spec in Hd as (_ & Hl & _). exact Hl.
    + done.
Qed.

(** [RetryHintWire]. *)
Inductive RetryHintWire := HintNever | HintRetryable (retry_after : option N).
Definition RetryHint_deserialize (wire : RetryHintWire) : RetryHint :=
  match wire with
  | HintNever => RetryNever
  | HintRetryable retry_after => Retryable retry_after
  end.
Definition RetryHint_serialize (hint : RetryHint) : RetryHintWire :=
  match hint with
  | RetryNever => HintNever
  | Retryable retry_after => HintRetryable retry_after
  end.

(** [ModelErrorWire] with its fields still to be read. *)
Definition RawError : Type := string * string * RetryHintWire * RawDiagnostic.
#[export] Instance wire_ModelError : Wire ModelError RawError :=
  {| serialize e := let w := ModelError_serialize e in
       (serialize (mew_kind w), serialize (mew_delivery w), RetryHint_serialize (mew_retry_hint w),
        serialize (mew_diagnostic w));
     deserialize w := let '(kind, delivery, hint, diagnostic) := w in
       kind ← deserialize kind; delivery ← deserialize delivery; diagnostic ← deserialize diagnostic;
       map_err WeMessage
         (ModelError_deserialize (mkModelErrorWire kind delivery (RetryHint_deserialize hint) diagnostic));
     valid e := model_error_ok e ∧ valid (me_diagnostic e) |}.
#[export] Instance wire_ModelError_laws : WireLaws ModelError RawError.
Proof.
  split.
  - intros [[[k d] h] g] e E. cbn [deserialize wire_ModelError] in E.
    apply result_bind_Ok in E as (k' & _ & E). apply result_bind_Ok in E as (d' & _ & E).
    apply result_bind_Ok in E as (g' & Hg & E). apply (deserialize_valid (T := DiagnosticSummary)) in Hg.
    apply map_err_Ok in E. split; [by eapply model_error_ok_deserialize|].
    unfold ModelError_deserialize in E. simpl in E. destruct (RetryHint_deserialize h); [by injection E as <-|].
    by case_bool_decide; [|injection E as <-].
  - intros e [He Hg]. cbn [serialize deserialize wire_ModelError].
    pose proof (model_error_roundtrip e He) as Hr. destruct e as [k d h g]. cbn in Hg.
    cbn [ModelError_serialize mew_kind mew_delivery mew_retry_hint mew_diagnostic me_kind me_delivery me_retry_hint me_diagnostic] in *.
    rewrite (deserialize_serialize k), (deserialize_serialize d), (deserialize_serialize g) by done.
    cbn [mbind result_bind]. apply map_err_Ok. by destruct h.
Qed.

(** *** History items: derived all through *)

#[export] Instance wire_UserInput : Wire UserInput str :=
  {| serialize i := match i with UserText text => serialize text end;
     deserialize w := UserText <$> deserialize w;
     valid i := match i with UserText text => valid text end |}.
#[export] Instance wire_UserInput_laws : WireLaws UserInput str.
Proof.
  split.
  - intros w i (t & Ht & ->)%fmap_Ok. by apply (deserialize_valid (T := BoundedText)) in Ht.
  - intros [t] Ht. cbn [serialize deserialize wire_UserInput]. by rewrite (deserialize_serialize t Ht).
Qed.

Definition RawUserHistory : Type := str * string * str.
#[export] Instance wire_UserHistory : Wire UserHistory RawUserHistory :=
  {| serialize u := (serialize (uh_loop_id u), serialize (uh_kind u), serialize (uh_input u));
     deserialize w := let '(id, kind, input) := w in
       id ← deserialize id; kind ← deserialize kind; input ← deserialize input; Ok (mkUserHistory id kind input);
     valid u := valid (uh_loop_id u) ∧ valid (uh_input u) |}.
#[export] Instance wire_UserHistory_laws : WireLaws UserHistory RawUserHistory.
Proof.
  split.
  - intros [[i k] t] u E. cbn [deserialize wire_UserHistory] in E.
    apply result_bind_Ok in E as (i' & Hi & E). apply (deserialize_valid (T := LoopId)) in Hi.
    apply result_bind_Ok in E as (k' & _ & E).
    apply result_bind_Ok in E as (t' & Ht & [= <-]). by apply (deserialize_valid (T := UserInput)) in Ht.
  - intros [i k t] [Hi Ht]. cbn [serialize deserialize wire_UserHistory uh_loop_id uh_kind uh_input] in *.
    by rewrite (deserialize_serialize i Hi), (deserialize_variant k), (deserialize_serialize t Ht).
Qed.

Definition RawAssistantHistory : Type :=
  str * N * str * string * list RawAssistantPart * option (str * Value) * string * RawUsage.
Definition read_AssistantHistory (w : RawAssistantHistory) : result WireError AssistantHistory :=
  let '(id, index, model, reasoning, content, replay, finish, usage) := w in
  id ← deserialize id; index ← deserialize_uint u32_MAX index; model ← deserialize model;
  reasoning ← deserialize reasoning; content ← deserialize content; replay ← deserialize replay;
  finish ← deserialize finish; usage ← deserialize usage;
  Ok (mkAssistantHistory id index model reasoning content replay finish usage).

Record assistant_history_ok (a : AssistantHistory) : Prop := {
  aho_id : valid (ah_loop_id a);
  aho_index : ah_request_index a ≤ u32_MAX;
  aho_model : valid (ah_model a);
  aho_content : valid (ah_content a);
  aho_replay : valid (ah_provider_replay a);
  aho_usage : valid (ah_usage a);
}.

#[export] Instance wire_AssistantHistory : Wire AssistantHistory RawAssistantHistory :=
  {| serialize a := (serialize (ah_loop_id a), ah_request_index a, serialize (ah_model a), serialize (ah_reasoning a),
       serialize (ah_content a), serialize (ah_provider_replay a), serialize (ah_finish_reason a), serialize (ah_usage a));
     deserialize := read_AssistantHistory; valid := assistant_history_ok |}.
#[export] Instance wire_AssistantHistory_laws : WireLaws AssistantHistory RawAssistantHistory.
Proof.
  split.
  - intros [[[[[[[i n] m] p] c] r] f] u] a E. cbn [deserialize wire_AssistantHistory] in E. unfold read_AssistantHistory in E.
    apply result_bind_Ok in E as (i' & Hi & E). apply (deserialize_valid (T := LoopId)) in Hi.
    apply result_bind_Ok in E as (n' & [Hn ->]%deserialize_uint_Ok & E).
    apply result_bind_Ok in E as (m' & Hm & E). apply (deserialize_valid (T := ModelRef)) in Hm.
    apply result_bind_Ok in E as (p' & _ & E).
    apply result_bind_Ok in E as (c' & Hc & E). apply (deserialize_valid (T := list AssistantPart)) in Hc.
    apply result_bind_Ok in E as (r' & Hr & E). apply (deserialize_valid (T := option ProviderReplay)) in Hr.
    apply result_bind_Ok in E as (f' & _ & E).
    apply result_bind_Ok in E as (u' & Hu & [= <-]). apply (deserialize_valid (T := Usage)) in Hu. by split.
  - intros [i n m p c r f u] [Hi Hn Hm Hc Hr Hu]. cbn [serialize deserialize wire_AssistantHistory ah_loop_id
      ah_request_index ah_model ah_reasoning ah_content ah_provider_replay ah_finish_reason ah_usage] in *.
    unfold read_AssistantHistory. rewrite (deserialize_serialize i Hi), (proj2 (deserialize_uint_Ok u32_MAX n n)) by done.
    cbn [mbind result_bind].
    by rewrite (deserialize_serialize m Hm), (deserialize_variant p), (deserialize_serialize c Hc),
      (deserialize_serialize r Hr), (deserialize_variant f), (deserialize_serialize u Hu).
Qed.

Definition RawToolResultHistory : Type := str * N * str * str * string * str.
Definition read_ToolResultHistory (w : RawToolResultHistory) : result WireError ToolResultHistory :=
  let '(id, index, call_id, name, outcome, output) := w in
  id ← deserialize id; index ← deserialize_uint u32_MAX index; call_id ← deserialize call_id;
  name ← deserialize name; outcome ← deserialize outcome; output ← deserialize output;
  Ok (mkToolResultHistory id index call_id name outcome output).

#[export] Instance wire_ToolResultHistory : Wire ToolResultHistory RawToolResultHistory :=
  {| serialize r := (serialize (trh_loop_id r), trh_request_index r, serialize (trh_call_id r),
       serialize (trh_tool_name r), serialize (trh_outcome r), serialize (trh_output r));
     deserialize := read_ToolResultHistory;
     valid r := (valid (trh_loop_id r) ∧ trh_request_index r ≤ u32_MAX) ∧ valid (trh_call_id r) ∧
       valid (trh_tool_name r) ∧ valid (trh_output r) |}.
#[export] Instance wire_ToolResultHistory_laws : WireLaws ToolResultHistory RawToolResultHistory.
Proof.
  split.
  - intros [[[[[i n] c] m] oc] o] r E. cbn [deserialize wire_ToolResultHistory] in E. unfold read_ToolResultHistory in E.
    apply result_bind_Ok in E as (i' & Hi & E). apply (deserialize_valid (T := LoopId)) in Hi.
    apply result_bind_Ok in E as (n' & [Hn ->]%deserialize_uint_Ok & E).
    apply result_bind_Ok in E as (c' & Hc & E). apply (deserialize_valid (T := ToolCallId)) in Hc.
    apply result_bind_Ok in E as (m' & Hm & E). apply (deserialize_valid (T := ToolName)) in Hm.
    apply result_bind_Ok in E as (oc' & _ & E).
    apply result_bind_Ok in E as (o' & Ho & [= <-]). by apply (deserialize_valid (T := ToolOutput)) in Ho.
  - intros [i n c m oc o] ([Hi Hn] & Hc & Hm & Ho). cbn [serialize deserialize wire_ToolResultHistory trh_loop_id
      trh_request_index trh_call_id trh_tool_name trh_outcome trh_output] in *.
    unfold read_ToolResultHistory. rewrite (deserialize_serialize i Hi), (proj2 (deserialize_uint_Ok u32_MAX n n)) by done.
    cbn [mbind result_bind].
    by rewrite (deserialize_serialize c Hc), (deserialize_serialize m Hm), (deserialize_variant oc),
      (deserialize_serialize o Ho).
Qed.

Inductive RawHistoryItem :=
| RawHiUser (user : RawUserHistory)
| RawHiAssistant (assistant : RawAssistantHistory)
| RawHiToolResult (result : RawToolResultHistory)
| RawHiSummary (content : str).

#[export] Instance wire_HistoryItem : Wire HistoryItem RawHistoryItem :=
  {| serialize i := match i with
       | HiUser user => RawHiUser (serialize user)
       | HiAssistant assistant => RawHiAssistant (serialize assistant)
       | HiToolResult result => RawHiToolResult (serialize result)
       | HiSummary summary => RawHiSummary (serialize (sh_content summary))
       end;
     deserialize w := match w with
       | RawHiUser user => HiUser <$> deserialize user
       | RawHiAssistant assistant => HiAssistant <$> deserialize assistant
       | RawHiToolResult result => HiToolResult <$> deserialize result
       | RawHiSummary content => (λ content, HiSummary (mkSummaryHistory content)) <$> deserialize content
       end;
     valid i := match i with
       | HiUser user => valid user
       | HiAssistant assistant => valid assistant
       | HiToolResult result => valid result
       | HiSummary summary => valid (sh_content summary)
       end |}.
#[export] Instance wire_HistoryItem_laws : WireLaws HistoryItem RawHistoryItem.
Proof.
  split.
  - intros [u|a|r|s] i E; cbn [deserialize wire_HistoryItem] in E; apply fmap_Ok in E as (x & Hx & ->);
      by apply deserialize_valid in Hx.
  - intros [u|a|r|[s]] Hi; cbn [serialize deserialize wire_HistoryItem valid sh_content] in *;
      by rewrite (deserialize_serialize _ Hi).
Qed.

(** ** Properties *)

(** C17: what is read from a peer is well typed. Whatever tree a peer sends, a
    request that is read has only valid messages that form a complete tool
    exchange, valid tools in strict order of their names and valid limits; a
    response that is read has valid parts with correctly numbered, distinct calls
    and something in it; and an error that is read is retryable only if the request
    was not started. *)
Theorem wire_values_are_valid :
  (∀ (w : RawRequest) (r : ModelRequest), deserialize w = Ok r → request_ok r) ∧
  (∀ (w : RawResponse) (r : ModelResponse), deserialize w = Ok r → response_ok r) ∧
  (∀ (w : RawError) (e : ModelError), deserialize w = Ok e →
     model_error_ok e ∧ valid_text (as_str (ds_message (me_diagnostic e))) BoundedText_MAX_BYTES true = true).
Proof.
  split_and!.
  - intros w r E. by apply (deserialize_valid (T := ModelRequest)) in E.
  - intros w r E. by apply (deserialize_valid (T := ModelResponse)) in E.
  - intros w e E. by apply (deserialize_valid (T := ModelError)) in E.
Qed.

(** C30: what is well typed survives the wire. Every valid request, response, error
    and history can be written and is read back as it was, and nothing else can: the
    trees that are read denote exactly the valid values. *)
Theorem wire_roundtrip :
  (∀ r : ModelRequest, request_ok r ↔ deserialize (serialize r : RawRequest) = Ok r) ∧
  (∀ r : ModelResponse, response_ok r ↔ deserialize (serialize r : RawResponse) = Ok r) ∧
  (∀ e : ModelError, valid e ↔ deserialize (serialize e : RawError) = Ok e) ∧
  (∀ h : list HistoryItem, valid h ↔ deserialize (serialize h : list RawHistoryItem) = Ok h).
Proof.
  split_and!; intros x; (split; [exact (deserialize_serialize x)|intros E; by apply deserialize_valid in E]).
Qed.
End wire.

(** ** Witnesses *)

Definition demo_raw_request : RawRequest (H := demo.json) :=
  ([RawSystem (lit "be brief"); RawUser (lit "hi")], [(lit "read", lit "reads", JObject [])], (None, Some 100), "xhigh"%string).

Definition demo_request_reads : bool :=
  match deserialize demo_raw_request with Ok r => (length (mr_messages r) =? 2)%nat | Err _ => false end.

Lemma wire_values_are_valid_witness :
  ∃ r, deserialize demo_raw_request = Ok r ∧ request_ok (H := demo.json) r.
Proof.
  assert (T : demo_request_reads = true) by (vm_compute; reflexivity). unfold demo_request_reads in T.
  destruct (deserialize demo_raw_request) as [r|e] eqn:E; [|discriminate T].
  exists r. split; [reflexivity|]. exact (proj1 (wire_values_are_valid (H := demo.json)) demo_raw_request r E).
Defined.
