(* ===== verification/Prompt.v ===== *)
(** * The default prompt provider

    Models src/src/prompt.rs: the strict projection of a history into model
    messages, with the truncation of long summaries. *)

From S2P Require Import Prelude Text Json Ids Limits ToolTypes ModelError Message Request History.
Local Open Scope N_scope.

Inductive PromptError := InvalidHistory | PromptCancelled | EmptyPrompt.
#[export] Instance PromptError_eq_dec : EqDecision PromptError.
Proof. solve_decision. Defined.

Section prompt.
Context `{SerdeJson}.

Definition SUMMARY_PREFIX : str := lit "Conversation summary:" ++ [LF].

Definition assistant_message (a : AssistantHistory) : result ModelValueError ModelMessage :=
  assistant_with_provider_replay (ah_content a) (ah_provider_replay a).

(** [while end > 0 && !content.is_char_boundary(end) { end -= 1 }] *)
Fixpoint boundary_before (content : str) (end_ : nat) : nat :=
  match end_ with
  | O => O
  | S e => if is_char_boundary content (N.of_nat end_) then end_ else boundary_before content e
  end.

Definition summary_message (s : SummaryHistory) : result ModelValueError ModelMessage :=
  let content := as_str (sh_content s) in
  let end_ :=
    if MAX_MODEL_MESSAGE_TEXT_BYTES <? str_len SUMMARY_PREFIX + str_len content then
      N.of_nat (boundary_before content
        (N.to_nat (MAX_MODEL_MESSAGE_TEXT_BYTES - str_len SUMMARY_PREFIX)))
    else str_len content in
  ModelMessage_system (SUMMARY_PREFIX ++ str_slice_to content end_).

(** One turn of the [for item in request.history.iter()] loop. *)
Definition project_item (item : HistoryItem) : result PromptError ModelMessage :=
  map_err (λ _, InvalidHistory)
    match item with
    | HiUser user => match uh_input user with UserText text => Ok (MsgUser (as_str text)) end
    | HiAssistant assistant => assistant_message assistant
    | HiToolResult result =>
        tool_with_outcome (trh_call_id result) (trh_output result) (trh_outcome result)
    | HiSummary summary => summary_message summary
    end.

Fixpoint project_items (items : list HistoryItem) (messages : list ModelMessage) :
    result PromptError (list ModelMessage) :=
  match items with
  | [] => Ok messages
  | item :: items =>
      message ← project_item item;
      project_items items (messages ++ [message])
  end.

(** [DefaultPromptProvider::prepare]: [cancelled] is what the request's token
    says, [late] whether its deadline has passed when the future is made. *)
Definition DefaultPromptProvider_prepare (system_prompt : option BoundedText)
    (cancelled late : bool) (history : HistoryView) : result PromptError (list ModelMessage) :=
  if cancelled || late then Err PromptCancelled
  else
    let messages :=
      match system_prompt with
      | Some system => if BoundedText_is_empty system then [] else [MsgSystem (as_str system)]
      | None => []
      end in
    messages ← project_items (HistoryView_iter history) messages;
    guard_err (match messages with [] => true | _ => false end) EmptyPrompt $
    Ok messages.

(** ** Facts *)

Lemma boundary_before_spec content n :
  let e := boundary_before content n in
  is_char_boundary content (N.of_nat e) = true ∧ (e ≤ n)%nat ∧
  (∀ k, (e < k ≤ n)%nat → is_char_boundary content (N.of_nat k) = false).
Proof.
  induction n as [|n IH]; simpl boundary_before.
  - split; [by destruct content|]. split; [done|lia].
  - destruct (is_char_boundary content (N.of_nat (S n))) eqn:E.
    + split; [done|]. split; [done|lia].
    + destruct IH as (Hb & Hle & Hn). split; [done|]. split; [lia|].
      intros k Hk. destruct (decide (k = S n)) as [->|]; [done|]. apply Hn. lia.
Qed.

(** Where whole characters stop fitting is the last boundary before the budget. *)
Lemma slice_boundary_before content : ∀ n,
  str_slice_to content (N.of_nat (boundary_before content n)) = str_slice_to content (N.of_nat n).
Proof.
  induction n as [|n IH]; simpl boundary_before; [done|].
  destruct (is_char_boundary content (N.of_nat (S n))) eqn:E; [done|]. rewrite IH. clear IH.
  assert (∀ s m, is_char_boundary s (m + 1) = false → str_slice_to s m = str_slice_to s (m + 1)) as Hs.
  { clear. induction s as [|c s IH]; intros m; simpl; [done|].
    intros [_ Hb]%orb_false_iff. pose proof (len_utf8_pos c). revert Hb.
    destruct (N.ltb_spec m (len_utf8 c)), (N.ltb_spec (m + 1) (len_utf8 c)); try done; try lia.
    - intros Hb. replace (m + 1 - len_utf8 c) with 0 in Hb by lia. by destruct s.
    - intros Hb. f_equal. replace (m + 1 - len_utf8 c) with (m - len_utf8 c + 1) in * by lia. auto. }
  rewrite Nat2N.inj_succ in *. rewrite <- N.add_1_r in *. by apply Hs.
Qed.

Lemma project_items_Ok items : ∀ acc ms,
  project_items items acc = Ok ms ↔
  ∃ ms', ms = acc ++ ms' ∧ Forall2 (λ i m, project_item i = Ok m) items ms'.
Proof.
  induction items as [|i items IH]; intros acc ms; simpl.
  - split.
    + intros [= <-]. exists []. rewrite app_nil_r. split; [done|constructor].
    + intros (ms' & -> & ->%Forall2_nil_inv_l). by rewrite app_nil_r.
  - rewrite result_bind_Ok. setoid_rewrite IH. split.
    + intros (m & Hm & ms' & -> & Hf). exists (m :: ms'). rewrite <- app_assoc. split; [done|].
      by constructor.
    + intros (ms' & -> & (m & ms'' & Hm & Hf & ->)%Forall2_cons_inv_l).
      exists m. split; [done|]. exists ms''. by rewrite <- app_assoc.
Qed.

(** A summary of printable text is projected to the fixed prefix and the longest run
    of whole characters that fits. *)
Lemma summary_kept (s : SummaryHistory) :
  valid_text (as_str (sh_content s)) MAX_TEXT_BYTES true = true →
  ∃ kept, summary_message s = Ok (MsgSystem (SUMMARY_PREFIX ++ kept)) ∧
    kept `prefix_of` as_str (sh_content s) ∧
    str_len (SUMMARY_PREFIX ++ kept) ≤ MAX_MODEL_MESSAGE_TEXT_BYTES ∧
    (∀ c rest, as_str (sh_content s) = kept ++ c :: rest →
       MAX_MODEL_MESSAGE_TEXT_BYTES < str_len (SUMMARY_PREFIX ++ kept) + len_utf8 c).
Proof.
  intros (_ & Hlen & Hok)%valid_text_spec. unfold summary_message.
  set (content := as_str (sh_content s)) in *.
  set (budget := MAX_MODEL_MESSAGE_TEXT_BYTES - str_len SUMMARY_PREFIX).
  assert (Hp : str_len SUMMARY_PREFIX + budget = MAX_MODEL_MESSAGE_TEXT_BYTES) by done.
  assert (Hpok : Forall (λ c, text_char_ok c = true) SUMMARY_PREFIX) by (repeat constructor).
  assert (Hgen : ∀ kept, kept `prefix_of` content → str_len kept ≤ budget →
    ModelMessage_system (SUMMARY_PREFIX ++ kept) = Ok (MsgSystem (SUMMARY_PREFIX ++ kept))).
  { intros kept [r Hr] Hk. unfold ModelMessage_system.
    rewrite (proj2 (valid_text_spec (SUMMARY_PREFIX ++ kept) _ false)); [done|].
    rewrite str_len_app. split; [by right|]. split; [lia|]. apply Forall_app. split; [done|].
    rewrite Hr in Hok. by apply Forall_app in Hok as [? _]. }
  destruct (N.ltb_spec MAX_MODEL_MESSAGE_TEXT_BYTES (str_len SUMMARY_PREFIX + str_len content)) as [Hl|Hl].
  - rewrite slice_boundary_before, N2Nat.id. fold budget.
    pose proof (str_slice_to_le content budget). pose proof (str_slice_to_prefix content budget).
    eexists. split; [by apply Hgen|]. rewrite str_len_app. split; [done|]. split; [lia|].
    intros c r Hc. pose proof (str_slice_to_maximal _ _ _ _ Hc). lia.
  - rewrite str_slice_to_all. exists content. split; [by apply Hgen; [|lia]|].
    rewrite str_len_app. split; [done|]. split; [lia|].
    intros c r Hc. apply (f_equal length) in Hc. rewrite length_app in Hc. simpl in Hc. lia.
Qed.

(** A summary with a control character is refused. *)
Lemma summary_control_rejected (s : SummaryHistory) :
  str_len (as_str (sh_content s)) ≤ MAX_MODEL_MESSAGE_TEXT_BYTES - str_len SUMMARY_PREFIX →
  Exists (λ c, text_char_ok c = false) (as_str (sh_content s)) →
  project_item (HiSummary s) = Err InvalidHistory.
Proof.
  intros Hl Hx. unfold project_item, summary_message. cbv zeta.
  assert (str_len SUMMARY_PREFIX ≤ MAX_MODEL_MESSAGE_TEXT_BYTES) by done.
  rewrite (proj2 (N.ltb_ge _ _)) by lia. rewrite str_slice_to_all.
  unfold ModelMessage_system, valid_text. rewrite forallb_app.
  assert (forallb text_char_ok (as_str (sh_content s)) = false) as ->.
  { apply not_true_iff_false. rewrite forallb_Forall, Forall_forall.
    apply Exists_exists in Hx as (c & Hc & Hbad). intros Hf. specialize (Hf c Hc). congruence. }
  by rewrite !andb_false_r.
Qed.

(** ** Properties *)

(** C37: how a summary is projected. Printable text (as long as bounded text can be)
    becomes a legal system message: the fixed prefix verbatim, then the longest run
    of whole characters of the content that fits the 262144-byte ceiling. But not
    every legal bounded text has a projection: one that fits and holds a control
    character other than a line feed or a tab, such as a carriage return, is refused as
    invalid history. *)
Theorem summary_projection (s : SummaryHistory) :
  (valid_text (as_str (sh_content s)) MAX_TEXT_BYTES true = true →
    ∃ kept, summary_message s = Ok (MsgSystem (SUMMARY_PREFIX ++ kept)) ∧
      kept `prefix_of` as_str (sh_content s) ∧
      str_len (SUMMARY_PREFIX ++ kept) ≤ MAX_MODEL_MESSAGE_TEXT_BYTES ∧
      (∀ c rest, as_str (sh_content s) = kept ++ c :: rest →
         MAX_MODEL_MESSAGE_TEXT_BYTES < str_len (SUMMARY_PREFIX ++ kept) + len_utf8 c)) ∧
  (str_len (as_str (sh_content s)) ≤ MAX_MODEL_MESSAGE_TEXT_BYTES - str_len SUMMARY_PREFIX →
   Exists (λ c, text_char_ok c = false) (as_str (sh_content s)) →
   project_item (HiSummary s) = Err InvalidHistory).
Proof. split; [apply summary_kept|apply summary_control_rejected]. Qed.

(** C36: the default provider answers a live request with one message per history
    item, base first, in order, after the optional system prompt; it fails only
    for an item that has no legal projection, or for an empty result. *)
Theorem default_prompt_projection (system : option BoundedText) (history : HistoryView) :
  let lead := match system with
    | Some t => if BoundedText_is_empty t then [] else [MsgSystem (as_str t)]
    | None => []
    end in
  ∀ ms, DefaultPromptProvider_prepare system false false history = Ok ms ↔
  ∃ projected, ms = lead ++ projected ∧ ms ≠ [] ∧
    Forall2 (λ item m, project_item item = Ok m) (hv_base history ++ hv_appended history) projected.
Proof.
  intros lead ms. unfold DefaultPromptProvider_prepare. cbn [orb]. fold lead.
  rewrite result_bind_Ok. setoid_rewrite guard_err_Ok. setoid_rewrite project_items_Ok.
  unfold HistoryView_iter. split.
  - intros (x & (ms' & -> & Hf) & Hn & [= <-]). exists ms'. split; [done|]. split; [|done].
    by destruct (lead ++ ms').
  - intros (ms' & -> & Hn & Hf). exists (lead ++ ms'). split; [eauto|]. by destruct (lead ++ ms').
Qed.
End prompt.

(** ** Witnesses *)

Lemma summary_projection_witness :
  (∃ kept, summary_message (H := demo.json) (mkSummaryHistory (mkBoundedText (lit "all done")))
     = Ok (MsgSystem (SUMMARY_PREFIX ++ kept)) ∧ kept `prefix_of` lit "all done") ∧
  project_item (H := demo.json) (HiSummary (mkSummaryHistory (mkBoundedText [CR]))) = Err InvalidHistory.
Proof.
  split.
  - destruct (proj1 (summary_projection (H := demo.json) (mkSummaryHistory (mkBoundedText (lit "all done")))))
      as (kept & H1 & H2 & _ & _); [reflexivity|].
    exists kept. exact (conj H1 H2).
  - apply (summary_projection (H := demo.json) (mkSummaryHistory (mkBoundedText [CR]))).
    + vm_compute. discriminate.
    + left. reflexivity.
Defined.
