(* ===== verification/Event.v ===== *)
(** * Loop states and the event sink

    Models src/src/agent_loop/state.rs, the outcome and report types of
    src/src/agent_loop/mod.rs, and src/src/agent_loop/event.rs: the bounded,
    lossy event queue between the runner and the one consumer. The tokio channel
    is the queue, its capacity and whether the receiver is still there. *)

From S2P Require Import Prelude Text Json Ids Limits ToolTypes ModelError Message Request History.
Local Open Scope N_scope.

(** ** agent_loop/state.rs *)

Inductive LoopStatus :=
| StStarting | StRunningModel | StRunningTools | StWaitingForInput | StFinishing | StFinished.
#[export] Instance LoopStatus_eq_dec : EqDecision LoopStatus.
Proof. solve_decision. Defined.

Record LoopState := mkLoopState {
  ls_loop_id : LoopId;
  ls_status : LoopStatus;
  ls_request_index : N;
  ls_config_revision : N;
  ls_model : option ModelRef;
  ls_pending_interaction : option PendingInteraction;
}.

Definition LoopState_new (id : LoopId) (status : LoopStatus) (request_index revision : N) : LoopState :=
  mkLoopState id status request_index revision None None.

(** ** Outcomes and reports (agent_loop/mod.rs) *)

Inductive CancelReason := ReasonUser | ReasonOwnerDropped | ReasonShutdown | ReasonDeadline.
#[export] Instance CancelReason_eq_dec : EqDecision CancelReason.
Proof. solve_decision. Defined.

Inductive LoopFailureKind :=
| FkPrompt | FkModel | FkInvalidModelResponse | FkOutputLimit | FkRefused | FkContentFiltered
| FkPolicy | FkInteraction | FkMaxToolRounds | FkInternal.
#[export] Instance LoopFailureKind_eq_dec : EqDecision LoopFailureKind.
Proof. solve_decision. Defined.

Record LoopFailure := mkLoopFailure {
  lf_kind : LoopFailureKind;
  lf_diagnostic : DiagnosticSummary;
  lf_model_error : option ModelError;
}.

Inductive LoopOutcome :=
| OutCompleted
| OutCancelled (reason : CancelReason)
| OutFailed (failure : LoopFailure).

Section report.
Context `{SerdeJson}.

Record LoopReport := mkLoopReport {
  lr_loop_id : LoopId;
  lr_outcome : LoopOutcome;
  lr_appended : list HistoryItem;
  lr_usage : Usage;
  lr_requests : N;
  lr_tool_rounds : N;
  lr_final_config_revision : N;
}.
End report.

(** ** Events (agent_loop/event.rs) *)

Inductive OutputChannel := ChText | ChReasoning.

Inductive LoopOutcomeSummary :=
| SumCompleted | SumCancelled (reason : CancelReason) | SumFailed (kind : LoopFailureKind).

Inductive LoopEvent :=
| LeStarted (loop_id : LoopId)
| LeStateChanged (state : LoopState)
| LeRequestStarted (loop_id : LoopId) (request_index config_revision : N) (model : ModelRef)
    (reasoning : ReasoningPreference)
| LeOutputDelta (loop_id : LoopId) (request_index : N) (channel : OutputChannel) (delta : BoundedText)
| LeToolStarted (loop_id : LoopId) (request_index : N) (call_id : ToolCallId) (tool_name : ToolName)
| LeToolProgress (loop_id : LoopId) (request_index : N) (call_id : ToolCallId) (progress : ToolProgress)
| LeToolFinished (loop_id : LoopId) (request_index : N) (call_id : ToolCallId)
    (outcome : ToolResultOutcome) (output_bytes : N)
| LeInteractionRequested (loop_id : LoopId) (interaction : PendingInteraction)
| LeInteractionResolved (loop_id : LoopId) (interaction_id : InteractionId)
| LeFinished (loop_id : LoopId) (outcome : LoopOutcomeSummary).

Record LoopEventEnvelope := mkEnvelope { env_dropped_before : N; env_event : LoopEvent }.

(** ** The sink *)

Inductive EventSinkError := InvalidCapacity.

Definition MAX_EVENT_CAPACITY : N := 4096.

Record LoopEventSink := mkLoopEventSink {
  sk_queue : list LoopEventEnvelope;
  sk_capacity : N;
  sk_receiver_open : bool;
  sk_dropped : N;
  sk_closed : bool;
}.

(** [LoopEventSink::channel]: the sink and the stream share the queue. *)
Definition LoopEventSink_channel (capacity : N) : result EventSinkError LoopEventSink :=
  guard_err ((capacity =? 0) || (MAX_EVENT_CAPACITY <? capacity)) InvalidCapacity $
  Ok (mkLoopEventSink [] capacity true 0 false).

Definition record_dropped (s : LoopEventSink) (count : N) : LoopEventSink :=
  mkLoopEventSink (sk_queue s) (sk_capacity s) (sk_receiver_open s)
    (saturating_add u64_MAX (sk_dropped s) count) (sk_closed s).

(** [mpsc::Sender::try_send], by its three answers. *)
Inductive try_send_result := TrySent | TryFull | TryClosed.

Definition try_send_answer (s : LoopEventSink) : try_send_result :=
  if negb (sk_receiver_open s) then TryClosed
  else if N.of_nat (length (sk_queue s)) <? sk_capacity s then TrySent
  else TryFull.

Definition try_emit (s : LoopEventSink) (event : LoopEvent) : LoopEventSink :=
  if sk_closed s then s
  else
    let envelope := mkEnvelope (sk_dropped s) event in
    match try_send_answer s with
    | TrySent =>
        mkLoopEventSink (sk_queue s ++ [envelope]) (sk_capacity s) (sk_receiver_open s) 0 (sk_closed s)
    | TryFull =>
        mkLoopEventSink (sk_queue s) (sk_capacity s) (sk_receiver_open s)
          (saturating_add u64_MAX (sk_dropped s) 1) (sk_closed s)
    | TryClosed =>
        mkLoopEventSink (sk_queue s) (sk_capacity s) (sk_receiver_open s) (sk_dropped s) true
    end.

(** The consumer: [LoopEventStream::try_recv], and dropping the stream. *)
Definition stream_try_recv (s : LoopEventSink) : LoopEventSink * option LoopEventEnvelope :=
  match sk_queue s with
  | [] => (s, None)
  | envelope :: queue =>
      (mkLoopEventSink queue (sk_capacity s) (sk_receiver_open s) (sk_dropped s) (sk_closed s),
       Some envelope)
  end.

(** [Stream::poll_next], and [recv], which awaits it: [None] is pending; the stream
    ends once the queue is empty and the sender, the runner's, is gone. *)
Definition stream_poll_next (s : LoopEventSink) (sender_alive : bool) :
    LoopEventSink * option (option LoopEventEnvelope) :=
  match stream_try_recv s with
  | (s, Some envelope) => (s, Some (Some envelope))
  | (s, None) => (s, if sender_alive then None else Some None)
  end.

Definition stream_drop (s : LoopEventSink) : LoopEventSink :=
  mkLoopEventSink [] (sk_capacity s) false (sk_dropped s) (sk_closed s).

(** ** Sequences of operations of both sides, with what the consumer got *)

Inductive SinkOp := OpEmit (e : LoopEvent) | OpRecord (count : N) | OpRecv | OpDrop.

Definition sink_op (s : LoopEventSink) (op : SinkOp) : LoopEventSink * list LoopEventEnvelope :=
  match op with
  | OpEmit e => (try_emit s e, [])
  | OpRecord n => (record_dropped s n, [])
  | OpRecv => match stream_try_recv s with (s, o) => (s, option_list o) end
  | OpDrop => (stream_drop s, [])
  end.

Fixpoint sink_run (s : LoopEventSink) (ops : list SinkOp) : LoopEventSink * list LoopEventEnvelope :=
  match ops with
  | [] => (s, [])
  | op :: ops =>
      let '(s, got) := sink_op s op in
      let '(s, rest) := sink_run s ops in
      (s, got ++ rest)
  end.

(** What was lost: one per emission that met a full queue, and the recorded
    counts. [emitted] are the events of the [OpEmit]s. *)
Fixpoint losses (s : LoopEventSink) (ops : list SinkOp) : N :=
  match ops with
  | [] => 0
  | op :: ops =>
      match op with
      | OpEmit _ => match try_send_answer s with TryFull => 1 | _ => 0 end
      | OpRecord n => n
      | OpRecv | OpDrop => 0
      end + losses (sink_op s op).1 ops
  end.

Definition emitted (ops : list SinkOp) : list LoopEvent :=
  omap (λ op, match op with OpEmit e => Some e | _ => None end) ops.

Lemma emitted_app a b : emitted (a ++ b) = emitted a ++ emitted b.
Proof. apply omap_app. Qed.

Definition announced (envelopes : list LoopEventEnvelope) : N :=
  foldr (λ e n, env_dropped_before e + n) 0 envelopes.

Lemma announced_app a b : announced (a ++ b) = announced a + announced b.
Proof. induction a as [|e a IH]; simpl; lia. Qed.

Definition sink_live (s : LoopEventSink) : Prop := sk_closed s = false ∧ sk_receiver_open s = true.

Lemma sink_op_live s op : op ≠ OpDrop → sink_live s → sink_live (sink_op s op).1.
Proof.
  intros Hd [Hc Ho]. destruct op; simpl; [|done| |done].
  - unfold try_emit, try_send_answer. rewrite Hc, Ho. simpl. destruct (_ <? _); by split.
  - unfold stream_try_recv. destruct (sk_queue s); by split.
Qed.

(** One step conserves losses: what is still unannounced, queued or received. *)
Lemma sink_op_conserve s op :
  op ≠ OpDrop → sink_live s → sk_dropped s + losses s [op] ≤ u64_MAX →
  announced (sink_op s op).2 + announced (sk_queue (sink_op s op).1) + sk_dropped (sink_op s op).1
  = announced (sk_queue s) + sk_dropped s + losses s [op].
Proof.
  intros Hd [Hc Ho]. destruct op as [e|n| |]; simpl; [| | |done].
  - unfold try_emit, try_send_answer. rewrite Hc, Ho. simpl.
    destruct (_ <? _); simpl; intros Hb.
    + rewrite announced_app. simpl. lia.
    + rewrite saturating_add_exact by lia. lia.
  - intros Hb. rewrite saturating_add_exact by lia. lia.
  - intros _. unfold stream_try_recv.
    destruct (sk_queue s) as [|env q] eqn:Eq; simpl; rewrite ?Eq; simpl; lia.
Qed.

(** Along a run with a consumer, losses are conserved. *)
Lemma sink_run_conserve ops : ∀ s, OpDrop ∉ ops → sink_live s →
  announced (sk_queue s) + sk_dropped s + losses s ops ≤ u64_MAX →
  announced (sk_queue s) + sk_dropped s + losses s ops
  = announced (sink_run s ops).2 + announced (sk_queue (sink_run s ops).1) + sk_dropped (sink_run s ops).1.
Proof.
  induction ops as [|op ops IH]; intros s Hd Hl Hb; [simpl; lia|].
  apply not_elem_of_cons in Hd as [Hd Hds]. cbn [losses sink_run] in *.
  pose proof (sink_op_live s op (not_eq_sym Hd) Hl) as Hl'.
  assert (Hc := sink_op_conserve s op (not_eq_sym Hd) Hl). cbn [losses] in Hc.
  destruct (sink_op s op) as [s1 got1]. cbn [fst snd] in *. specialize (IH s1 Hds Hl').
  destruct (sink_run s1 ops) as [s' got]. cbn [fst snd] in *. rewrite announced_app.
  destruct op; lia.
Qed.

(** One step keeps the order of events, and the capacity, whoever is there. *)
Lemma sink_op_events s op :
  N.of_nat (length (sk_queue s)) ≤ sk_capacity s →
  let '(s', got) := sink_op s op in
  sk_capacity s' = sk_capacity s ∧ N.of_nat (length (sk_queue s')) ≤ sk_capacity s ∧
  env_event <$> (got ++ sk_queue s') `sublist_of` (env_event <$> sk_queue s) ++ emitted [op].
Proof.
  intros Hq. destruct op as [e|n| |]; simpl sink_op; cbv iota beta.
  - unfold try_emit, try_send_answer. destruct (sk_closed s); [|destruct (sk_receiver_open s); simpl].
    2: destruct (N.ltb_spec (N.of_nat (length (sk_queue s))) (sk_capacity s)); simpl.
    2: { split; [done|]. rewrite length_app, fmap_app. simpl. split; [lia|done]. }
    all: split; [done|]; split; [done|]; simpl; by apply sublist_inserts_r.
  - simpl. by rewrite app_nil_r.
  - unfold stream_try_recv. destruct (sk_queue s) as [|env q] eqn:Eq; simpl; rewrite ?Eq; [by auto|].
    simpl in Hq. split; [done|]. split; [lia|]. by rewrite app_nil_r.
  - simpl. split; [done|]. split; [lia|]. apply sublist_nil_l.
Qed.

(** The same along a run, from any queue. *)
Lemma sink_run_events ops : ∀ s, N.of_nat (length (sk_queue s)) ≤ sk_capacity s →
  env_event <$> ((sink_run s ops).2 ++ sk_queue (sink_run s ops).1)
    `sublist_of` (env_event <$> sk_queue s) ++ emitted ops ∧
  N.of_nat (length (sk_queue (sink_run s ops).1)) ≤ sk_capacity s.
Proof.
  induction ops as [|op ops IH]; intros s Hq; [simpl; split; [by rewrite app_nil_r|done]|].
  cbn [sink_run]. pose proof (sink_op_events s op Hq) as He.
  destruct (sink_op s op) as [s1 got1]. destruct He as (Hcap & Hq1 & He). specialize (IH s1).
  rewrite Hcap in IH. specialize (IH Hq1). destruct (sink_run s1 ops) as [s' got]. cbn [fst snd] in *.
  destruct IH as [Hs Hlen]. split; [|done].
  replace (emitted (op :: ops)) with (emitted [op] ++ emitted ops) by (by destruct op).
  rewrite <- app_assoc, fmap_app, (app_assoc _ (emitted [op])).
  etransitivity; [apply sublist_app; [reflexivity|exact Hs]|]. rewrite app_assoc, <- fmap_app. by apply sublist_app.
Qed.

(** Once its consumer is gone, a queue delivers nothing. *)
Definition sink_deserted (s : LoopEventSink) : Prop := sk_queue s = [] ∧ sk_receiver_open s = false.

Lemma sink_run_deserted ops : ∀ s, sink_deserted s → (sink_run s ops).2 = [].
Proof.
  induction ops as [|op ops IH]; intros s [Hq Ho]; [done|]. cbn [sink_run].
  assert (sink_deserted (sink_op s op).1 ∧ (sink_op s op).2 = []) as [Hd Hn].
  { unfold sink_deserted. destruct op; simpl; try done.
    - unfold try_emit, try_send_answer. rewrite Ho. simpl. by destruct (sk_closed s).
    - unfold stream_try_recv. by rewrite Hq. }
  destruct (sink_op s op) as [s1 got1]. simpl in *. subst got1. specialize (IH s1 Hd).
  by destruct (sink_run s1 ops).
Qed.

Lemma sink_run_app a : ∀ s b,
  sink_run s (a ++ b) = ((sink_run (sink_run s a).1 b).1, (sink_run s a).2 ++ (sink_run (sink_run s a).1 b).2).
Proof.
  induction a as [|op a IH]; intros s b; cbn [sink_run app fst snd]; [by destruct (sink_run s b)|].
  destruct (sink_op s op) as [s1 got]. rewrite IH. destruct (sink_run s1 a) as [s2 got2]. simpl.
  by rewrite app_assoc.
Qed.

(** ** Properties *)

(** C32: what a consumer sees of a queue. Along any interleaving of emissions,
    recorded losses, receptions and the dropping of the stream, the received and
    the queued events are among those emitted, in order, without repetition; the
    queue never exceeds its capacity; and once the stream is dropped nothing is
    received. As long as it is not (and short of 2^64 losses) the dropped counts are
    exact: the losses equal the counts announced by the received and the queued
    envelopes plus the count still waiting for the next delivered event. *)
Theorem sink_accounting (ops : list SinkOp) s :
  sink_live s → sk_queue s = [] → sk_dropped s = 0 →
  let '(s', got) := sink_run s ops in
  env_event <$> (got ++ sk_queue s') `sublist_of` emitted ops ∧
  N.of_nat (length (sk_queue s')) ≤ sk_capacity s ∧
  (∀ more, (sink_run s (ops ++ OpDrop :: more)).2 = got) ∧
  (OpDrop ∉ ops → losses s ops ≤ u64_MAX →
   losses s ops = announced got + announced (sk_queue s') + sk_dropped s').
Proof.
  intros Hl Hq Hd. pose proof (sink_run_events ops s) as He. pose proof (sink_run_conserve ops s) as Hc.
  assert (∀ more, (sink_run s (ops ++ OpDrop :: more)).2 = (sink_run s ops).2) as Hgone.
  { intros more. rewrite sink_run_app. cbn [sink_run sink_op snd].
    pose proof (sink_run_deserted more (stream_drop (sink_run s ops).1) (conj eq_refl eq_refl)) as Hn.
    destruct (sink_run (stream_drop _) more). simpl in *. by rewrite Hn, app_nil_r. }
  rewrite Hq in He, Hc. simpl in He, Hc. destruct He as [Hs Hlen]; [lia|].
  destruct (sink_run s ops) as [s' got]. simpl in *. split_and!; try done.
  intros Hn Hb. rewrite Hd in Hc. simpl in Hc. by apply Hc.
Qed.

Definition demo_sink : LoopEventSink := mkLoopEventSink [] 1 true 0 false.
Definition demo_ops : list SinkOp :=
  [OpEmit (LeStarted (mkLoopId [])); OpEmit (LeFinished (mkLoopId []) SumCompleted); OpRecord 2; OpRecv].

Lemma sink_accounting_witness :
  OpDrop ∉ demo_ops ∧ (sink_run demo_sink (demo_ops ++ [OpDrop; OpRecv])).2 = [mkEnvelope 0 (LeStarted (mkLoopId []))].
Proof.
  split; [by repeat (apply not_elem_of_cons; split; [done|]); apply not_elem_of_nil|].
  destruct (sink_accounting demo_ops demo_sink) as (_ & _ & Hd & _); [by split|done|done|].
  exact (Hd [OpRecv]).
Defined.
