(* ===== verification/EventSpec.v ===== *)
(** * What the events of a loop say: the contract of the stream

    The event stream contract (src/docs/contracts/event-stream.md) as an
    automaton. An [Observer] is what one may conclude from the events so far, none
    lost: where the loop is, the state shown last, the requests announced and the
    tool calls reported finished. [observe] accepts the next event or refuses it.
    [Observed.v] shows that the runner emits what the automaton accepts. *)

From S2P Require Import Prelude Text Json Ids Limits ToolTypes ModelError Message Request History Event.
Local Open Scope N_scope.

#[export] Instance LoopState_eq_dec : EqDecision LoopState.
Proof. solve_decision. Defined.

(** A tool call reported finished: its request, its id, the outcome and the bytes. *)
Record ToolDone := mkToolDone {
  td_request_index : N;
  td_call_id : ToolCallId;
  td_outcome : ToolResultOutcome;
  td_output_bytes : N;
}.

Inductive Stage :=
| SgNew
| SgStarted
| SgPreparing
| SgRequested (request_index revision : N) (model : ModelRef)
| SgModel
| SgTools
| SgCall (call_id : ToolCallId) (name : ToolName)
| SgAsking (call_id : ToolCallId) (name : ToolName) (pending : PendingInteraction)
| SgWaiting (call_id : ToolCallId) (name : ToolName) (pending : PendingInteraction)
| SgAnswered (call_id : ToolCallId) (name : ToolName)
| SgFinishing
| SgFinished
| SgDone (summary : LoopOutcomeSummary).

Record Observer := mkObserver {
  ob_stage : Stage;
  ob_state : LoopState;
  ob_issued : list (N * N);
  ob_tools : list ToolDone;
}.

Section stream.
Context (id : LoopId).

Definition Observer_new : Observer :=
  mkObserver SgNew (LoopState_new id StStarting 0 INITIAL_REVISION) [] [].

Definition at_stage (ob : Observer) (stage : Stage) : Observer :=
  mkObserver stage (ob_state ob) (ob_issued ob) (ob_tools ob).

(** The stages in which a loop may come to its end. *)
Definition can_end (stage : Stage) : bool :=
  match stage with
  | SgNew | SgRequested _ _ _ | SgFinishing | SgFinished | SgDone _ => false
  | _ => true
  end.

Definition last_index (ob : Observer) : option N := fst <$> last (ob_issued ob).
Definition last_revision (ob : Observer) : N := default INITIAL_REVISION (snd <$> last (ob_issued ob)).

Definition shown (s : LoopState) (status : LoopStatus) (pending : option PendingInteraction) : LoopState :=
  mkLoopState (ls_loop_id s) status (ls_request_index s) (ls_config_revision s) (ls_model s) pending.

(** The state a loop shows when it turns to [status], and the stage that starts. *)
Definition transition (ob : Observer) (status : LoopStatus) (pending : option PendingInteraction) :
    option (LoopState * Stage) :=
  let s := ob_state ob in
  match status, ob_stage ob with
  | StStarting, (SgStarted | SgPreparing) => Some (s, SgPreparing)
  | StStarting, SgTools =>
      Some (LoopState_new id StStarting (saturating_add u32_MAX (ls_request_index s) 1)
              (ls_config_revision s), SgPreparing)
  | StRunningModel, SgRequested request_index revision model =>
      Some (mkLoopState id StRunningModel request_index revision (Some model) None, SgModel)
  | StRunningTools, SgModel => Some (shown s StRunningTools None, SgTools)
  | StWaitingForInput, SgCall call_id name =>
      pending ← pending;
      if bool_decide (pi_tool_call_id pending = call_id) && bool_decide (pi_tool_name pending = name)
      then Some (shown s StWaitingForInput (Some pending), SgAsking call_id name pending)
      else None
  | StRunningTools, SgAnswered call_id name => Some (shown s StRunningTools None, SgCall call_id name)
  | StFinishing, stage =>
      if can_end stage
      then Some (mkLoopState id StFinishing (default 0 (last_index ob)) (last_revision ob)
                   (ls_model s) None, SgFinishing)
      else None
  | StFinished, SgFinishing => Some (shown s StFinished None, SgFinished)
  | _, _ => None
  end.

Definition ours (i : LoopId) (ob : option Observer) : option Observer :=
  if bool_decide (i = id) then ob else None.

Definition observe (ob : Observer) (event : LoopEvent) : option Observer :=
  let index := ls_request_index (ob_state ob) in
  match event, ob_stage ob with
  | LeStarted i, SgNew => ours i (Some (at_stage ob SgStarted))
  | LeStateChanged s, _ =>
      '(expected, stage) ← transition ob (ls_status s) (ls_pending_interaction s);
      if bool_decide (s = expected) then Some (mkObserver stage s (ob_issued ob) (ob_tools ob)) else None
  | LeRequestStarted i k revision model _, SgPreparing =>
      if k =? index
      then ours i (Some (mkObserver (SgRequested k revision model) (ob_state ob)
                           (ob_issued ob ++ [(k, revision)]) (ob_tools ob)))
      else None
  | LeOutputDelta i k _ _, SgModel => if k =? index then ours i (Some ob) else None
  | LeToolStarted i k call_id name, SgTools =>
      if k =? index then ours i (Some (at_stage ob (SgCall call_id name))) else None
  | LeToolProgress i k call_id _, SgCall current _ =>
      if (k =? index) && bool_decide (call_id = current) then ours i (Some ob) else None
  | LeToolFinished i k call_id outcome bytes, SgCall current _ =>
      if (k =? index) && bool_decide (call_id = current)
      then ours i (Some (mkObserver SgTools (ob_state ob) (ob_issued ob)
                           (ob_tools ob ++ [mkToolDone k call_id outcome bytes])))
      else None
  | LeInteractionRequested i pending, SgAsking call_id name asked =>
      if bool_decide (pending = asked)
      then ours i (Some (at_stage ob (SgWaiting call_id name asked))) else None
  | LeInteractionResolved i interaction_id, SgWaiting call_id name asked =>
      if bool_decide (interaction_id = pi_interaction_id asked)
      then ours i (Some (at_stage ob (SgAnswered call_id name))) else None
  | LeFinished i summary, SgFinished => ours i (Some (at_stage ob (SgDone summary)))
  | _, _ => None
  end.

Definition observe_all (ob : Observer) (events : list LoopEvent) : option Observer :=
  foldl (λ ob event, ob ← ob; observe ob event) (Some ob) events.

(** ** Facts *)

Lemma observe_all_snoc ob events event :
  observe_all ob (events ++ [event]) = (ob ← observe_all ob events; observe ob event).
Proof. unfold observe_all. by rewrite foldl_app. Qed.

Definition over (stage : Stage) : Prop := match stage with SgDone _ => True | _ => False end.
Definition finished_event (e : LoopEvent) : Prop := match e with LeFinished _ _ => True | _ => False end.

Lemma observe_to_done ob event ob' :
  observe ob event = Some ob' →
  match event with
  | LeFinished i summary => i = id ∧ ob_stage ob' = SgDone summary
  | _ => ¬ over (ob_stage ob')
  end ∧ ¬ over (ob_stage ob).
Proof.
  destruct ob as [stage s issued tools]. unfold observe, ours, transition, mbind, option_bind. simpl.
  intros Ho. destruct event, stage; repeat (case_match; simplify_eq/=).
  all: repeat match goal with E : bool_decide _ = true |- _ => apply bool_decide_eq_true in E end; subst.
  all: by repeat split; try (intros []).
Qed.

(** A stream that goes on has had no [Finished] event. *)
Lemma observe_all_open events : ∀ ob ob',
  observe_all ob events = Some ob' → ¬ over (ob_stage ob') → Forall (λ e, ¬ finished_event e) events.
Proof.
  induction events as [|event events IH] using rev_ind; intros ob ob' Ho Hd; [constructor|].
  rewrite observe_all_snoc in Ho. apply bind_Some in Ho as (mid & Hm & Ho).
  apply observe_to_done in Ho as [He Hm']. apply Forall_app. split; [by eapply IH|].
  constructor; [|constructor]. destruct event; try by intros []. exfalso. apply Hd.
  destruct He as [_ ->]. done.
Qed.

(** One that has come to its end ends with its one [Finished] event. *)
Lemma observe_all_done events ob ob' summary :
  observe_all ob events = Some ob' → ob_stage ob' = SgDone summary → ¬ over (ob_stage ob) →
  ∃ before, events = before ++ [LeFinished id summary] ∧ Forall (λ e, ¬ finished_event e) before.
Proof.
  intros Ho Hd Hn. destruct events as [|event before _] using rev_ind.
  { injection Ho as <-. rewrite Hd in Hn. by destruct Hn. }
  rewrite observe_all_snoc in Ho. apply bind_Some in Ho as (mid & Hm & Ho).
  apply observe_to_done in Ho as [He Hm']. exists before. split; [|by eapply observe_all_open].
  destruct event; try (rewrite Hd in He; by destruct He). destruct He as [-> He]. congruence.
Qed.
End stream.
