(* ===== verification/Redaction.v ===== *)
(** * Debug output

    Models the hand-written [Debug] impls of the crate, and the derived ones that
    reach them, as the tree the formatter builds. A text, a payload or the arguments
    of a call must not show: [alike] relates values that differ only in such
    content, and [Redacted] says that alike values print the same. *)

From S2P Require Import Prelude Text Json Ids Limits BTree ToolTypes ToolSet ModelError Message Request History Event.
Local Open Scope N_scope.

(** What [debug_struct], [debug_tuple] and the leaves give. *)
Inductive debug :=
| DbgStruct (name : string) (fields : list (string * debug)) (finished : bool)
| DbgTuple (name : string) (fields : list debug)
| DbgList (items : list debug)
| DbgText (text : str)
| DbgNumber (n : N)
| DbgBool (b : bool)
| DbgNone
| DbgSome (d : debug)
| DbgUnit (name : string).

Definition dbg_struct (name : string) (fields : list (string * debug)) : debug := DbgStruct name fields true.

Class DebugFmt (T : Type) := fmt : T → debug.
#[export] Hint Mode DebugFmt ! : typeclass_instances.

#[export] Instance debug_N : DebugFmt N := DbgNumber.
#[export] Instance debug_bool : DebugFmt bool := DbgBool.
#[export] Instance debug_option `{DebugFmt T} : DebugFmt (option T) := λ o,
  match o with Some x => DbgSome (fmt x) | None => DbgNone end.
#[export] Instance debug_list `{DebugFmt T} : DebugFmt (list T) := λ l, DbgList (fmt <$> l).

(** *** Names and identifiers: [Debug] is [Display] ([string_newtype_serde!], [runtime_id!]). *)
#[export] Instance debug_ToolCallId : DebugFmt ToolCallId := λ id, DbgText (tool_call_id_str id).
#[export] Instance debug_ToolName : DebugFmt ToolName := λ name, DbgText (tool_name_str name).
#[export] Instance debug_ModelRef : DebugFmt ModelRef := λ r, DbgText (model_ref_str r).
#[export] Instance debug_LoopId : DebugFmt LoopId := λ id, DbgText (LoopId_to_string id).
#[export] Instance debug_InteractionId : DebugFmt InteractionId := λ id, DbgText (InteractionId_to_string id).

(** *** Enums without content: the derived impl prints the variant *)
#[export] Instance debug_ToolResultOutcome : DebugFmt ToolResultOutcome := λ x, DbgUnit
  match x with
  | OutcomeSuccess => "Success" | OutcomeFailed => "Failed" | OutcomeDenied => "Denied"
  | OutcomeCancelled => "Cancelled" | OutcomeInputProvided => "InputProvided"
  end.
#[export] Instance debug_ReasoningPreference : DebugFmt ReasoningPreference := λ x, DbgUnit
  match x with
  | ReasonAuto => "Auto" | ReasonDisabled => "Disabled" | ReasonLow => "Low" | ReasonMedium => "Medium"
  | ReasonHigh => "High" | ReasonXHigh => "XHigh" | ReasonMax => "Max" | ReasonUltra => "Ultra"
  end.
#[export] Instance debug_ModelFinishReason : DebugFmt ModelFinishReason := λ x, DbgUnit
  match x with
  | FinishStop => "Stop" | FinishToolCalls => "ToolCalls" | FinishLength => "Length"
  | FinishContentFiltered => "ContentFiltered" | FinishRefused => "Refused" | FinishUnknown => "Unknown"
  end.
#[export] Instance debug_DeliveryState : DebugFmt DeliveryState := λ x, DbgUnit
  match x with NotStarted => "NotStarted" | Started => "Started" | DeliveryUnknown => "Unknown" end.
#[export] Instance debug_DiagnosticCategory : DebugFmt DiagnosticCategory := λ x, DbgUnit
  match x with
  | CatConfiguration => "Configuration" | CatModel => "Model" | CatTool => "Tool" | CatPolicy => "Policy"
  | CatContext => "Context" | CatCancellation => "Cancellation" | CatInternal => "Internal"
  end.
#[export] Instance debug_DiagnosticCode : DebugFmt DiagnosticCode := λ x, DbgUnit
  match x with
  | CodeInvalidConfiguration => "InvalidConfiguration" | CodeModelTimeout => "ModelTimeout"
  | CodeModelMalformedResponse => "ModelMalformedResponse" | CodeModelUnavailable => "ModelUnavailable"
  | CodeRuntimeTerminated => "RuntimeTerminated" | CodeContextFailed => "ContextFailed"
  | CodePolicyDenied => "PolicyDenied" | CodePolicyFailed => "PolicyFailed" | CodeToolNotFound => "ToolNotFound"
  | CodeToolTimeout => "ToolTimeout" | CodeToolFailed => "ToolFailed"
  | CodeInteractionNotFound => "InteractionNotFound" | CodeInteractionKindMismatch => "InteractionKindMismatch"
  | CodeTurnBudgetExceeded => "TurnBudgetExceeded" | CodeInternal => "Internal"
  end.
#[export] Instance debug_ModelErrorKind : DebugFmt ModelErrorKind := λ x, DbgUnit
  match x with
  | KInvalidRequest => "InvalidRequest" | KUnavailable => "Unavailable"
  | KProviderUnavailable => "ProviderUnavailable" | KAuthMissing => "AuthMissing"
  | KAuthRejected => "AuthRejected" | KRateLimited => "RateLimited" | KQuotaExceeded => "QuotaExceeded"
  | KContextOverflow => "ContextOverflow" | KTimeout => "Timeout"
  | KTransportUnavailable => "TransportUnavailable" | KCancelled => "Cancelled"
  | KInvalidProviderResponse => "InvalidProviderResponse" | KIncompleteResponse => "IncompleteResponse"
  | KStreamInterrupted => "StreamInterrupted" | KRequestOutcomeUnknown => "RequestOutcomeUnknown"
  | KUnexpectedToolCall => "UnexpectedToolCall" | KPanicked => "Panicked" | KInternal => "Internal"
  end.
#[export] Instance debug_LoopFailureKind : DebugFmt LoopFailureKind := λ x, DbgUnit
  match x with
  | FkPrompt => "Prompt" | FkModel => "Model" | FkInvalidModelResponse => "InvalidModelResponse"
  | FkOutputLimit => "OutputLimit" | FkRefused => "Refused" | FkContentFiltered => "ContentFiltered"
  | FkPolicy => "Policy" | FkInteraction => "Interaction" | FkMaxToolRounds => "MaxToolRounds"
  | FkInternal => "Internal"
  end.
#[export] Instance debug_CancelReason : DebugFmt CancelReason := λ x, DbgUnit
  match x with
  | ReasonUser => "User" | ReasonOwnerDropped => "OwnerDropped" | ReasonShutdown => "Shutdown"
  | ReasonDeadline => "Deadline"
  end.
#[export] Instance debug_UserMessageKind : DebugFmt UserMessageKind := λ x, DbgUnit
  match x with KindPrompt => "Prompt" | KindSteering => "Steering" end.
#[export] Instance debug_ToolInputAnswerKind : DebugFmt ToolInputAnswerKind := λ x, DbgUnit
  match x with KindText => "Text" | KindSingleChoice => "SingleChoice" end.
#[export] Instance debug_ApprovalRisk : DebugFmt ApprovalRisk := λ x, DbgUnit
  match x with RiskLow => "Low" | RiskMedium => "Medium" | RiskHigh => "High" end.
#[export] Instance debug_ApprovalDecision : DebugFmt ApprovalDecision := λ x, DbgUnit
  match x with AllowOnce => "AllowOnce" | DenyApproval => "Deny" end.

(** *** Texts and payloads show their sizes *)
#[export] Instance BoundedText_fmt : DebugFmt BoundedText := λ t,
  dbg_struct "BoundedText" [("bytes", fmt (byte_len t))]%string.
#[export] Instance ToolOutput_fmt : DebugFmt ToolOutput := λ o,
  dbg_struct "ToolOutput" [("content_bytes", fmt (byte_len (to_content o)))]%string.
#[export] Instance ApprovalRequest_fmt : DebugFmt ApprovalRequest := λ r,
  dbg_struct "ApprovalRequest" [("prompt_bytes", fmt (byte_len (ar_prompt r))); ("risk", fmt (ar_risk r))]%string.
#[export] Instance ToolDecision_fmt : DebugFmt ToolDecision := λ d,
  match d with
  | DecisionAllow => DbgUnit "Allow"
  | DecisionDeny reason => dbg_struct "Deny" [("reason_bytes", fmt (byte_len reason))]%string
  | DecisionRequireApproval request => dbg_struct "RequireApproval" [("request", fmt request)]%string
  end.
#[export] Instance ToolProgress_fmt : DebugFmt ToolProgress := λ p,
  dbg_struct "ToolProgress" [("message_bytes", fmt (byte_len <$> tp_message p));
    ("completed", fmt (tp_completed p)); ("total", fmt (tp_total p))]%string.
#[export] Instance InteractionKind_fmt : DebugFmt InteractionKind := λ k,
  match k with
  | KindApproval request => DbgTuple "Approval" [fmt request]
  | KindToolInput request => dbg_struct "ToolInput" [("prompt_bytes", fmt (byte_len (tir_prompt request)));
      ("choice_count", fmt (N.of_nat (length (tir_choices request))));
      ("answer_kind", fmt (tir_answer_kind request))]%string
  end.
#[export] Instance PendingInteraction_fmt : DebugFmt PendingInteraction := λ p,
  dbg_struct "PendingInteraction" [("interaction_id", fmt (pi_interaction_id p));
    ("tool_call_id", fmt (pi_tool_call_id p)); ("tool_name", fmt (pi_tool_name p)); ("kind", fmt (pi_kind p))]%string.
#[export] Instance InteractionAnswer_fmt : DebugFmt InteractionAnswer := λ a,
  match a with
  | AnswerApproval decision => DbgTuple "Approval" [fmt decision]
  | AnswerToolInput (AnswerText text) => dbg_struct "ToolInputText" [("text_bytes", fmt (byte_len text))]%string
  | AnswerToolInput (AnswerChoice index) => dbg_struct "ToolInputChoice" [("index", fmt index)]%string
  end.
#[export] Instance DiagnosticSummary_fmt : DebugFmt DiagnosticSummary := λ d,
  dbg_struct "DiagnosticSummary" [("code", fmt (ds_code d)); ("category", fmt (ds_category d));
    ("message_bytes", fmt (byte_len (ds_message d))); ("retryable", fmt (ds_retryable d))]%string.
#[export] Instance RetryHint_fmt : DebugFmt RetryHint := λ h,
  match h with
  | RetryNever => DbgUnit "Never"
  | Retryable retry_after => dbg_struct "Retryable" [("retry_after", fmt retry_after)]%string
  end.
#[export] Instance ModelError_fmt : DebugFmt ModelError := λ e,
  dbg_struct "ModelError" [("kind", fmt (me_kind e)); ("delivery", fmt (me_delivery e));
    ("retry_hint", fmt (me_retry_hint e)); ("diagnostic", fmt (me_diagnostic e))]%string.
(** The [Display] impl: what it interpolates. *)
Definition ModelError_display (e : ModelError) : list debug :=
  [fmt (me_kind e); fmt (me_delivery e); fmt (me_retry_hint e)].
#[export] Instance ReasoningContent_fmt : DebugFmt ReasoningContent := λ r,
  dbg_struct "ReasoningContent" [("text_bytes", fmt (str_len <$> rc_text r));
    ("summary_bytes", fmt (str_len <$> rc_summary r)); ("has_encrypted", fmt (bool_decide (is_Some (rc_encrypted r))));
    ("has_signature", fmt (bool_decide (is_Some (rc_signature r))))]%string.
#[export] Instance Usage_fmt : DebugFmt Usage := λ u,
  dbg_struct "Usage" [("input_tokens", fmt (input_tokens u)); ("output_tokens", fmt (output_tokens u));
    ("reasoning_tokens", fmt (reasoning_tokens u)); ("cache_read_tokens", fmt (cache_read_tokens u));
    ("cache_write_tokens", fmt (cache_write_tokens u)); ("provider_total_tokens", fmt (provider_total_tokens u))]%string.
#[export] Instance ModelLimits_fmt : DebugFmt ModelLimits := λ l,
  dbg_struct "ModelLimits" [("context_window_tokens", fmt (context_window_tokens l));
    ("max_output_tokens", fmt (max_output_tokens l))]%string.
#[export] Instance UserInput_fmt : DebugFmt UserInput := λ i,
  match i with UserText text => DbgTuple "Text" [fmt text] end.
#[export] Instance UserHistory_fmt : DebugFmt UserHistory := λ u,
  dbg_struct "UserHistory" [("loop_id", fmt (uh_loop_id u)); ("kind", fmt (uh_kind u)); ("input", fmt (uh_input u))]%string.
#[export] Instance ToolResultHistory_fmt : DebugFmt ToolResultHistory := λ r,
  dbg_struct "ToolResultHistory" [("loop_id", fmt (trh_loop_id r)); ("request_index", fmt (trh_request_index r));
    ("call_id", fmt (trh_call_id r)); ("tool_name", fmt (trh_tool_name r)); ("outcome", fmt (trh_outcome r));
    ("output", fmt (trh_output r))]%string.
#[export] Instance SummaryHistory_fmt : DebugFmt SummaryHistory := λ s,
  dbg_struct "SummaryHistory" [("content", fmt (sh_content s))]%string.
#[export] Instance ModelDescriptor_fmt : DebugFmt ModelDescriptor := λ d,
  dbg_struct "ModelDescriptor" [("model_ref", fmt (md_model_ref d)); ("context_window", fmt (md_context_window d));
    ("supported_reasoning", fmt (md_supported_reasoning d)); ("supports_tools", fmt (md_supports_tools d))]%string.

Section debug.
Context `{SerdeJson}.

#[export] Instance ToolCall_fmt : DebugFmt ToolCall := λ c,
  dbg_struct "ToolCall" [("tool_call_id", fmt (tc_tool_call_id c)); ("name", fmt (tc_name c));
    ("call_index", fmt (tc_call_index c)); ("arguments", DbgText (lit "<redacted>"))]%string.
#[export] Instance ToolInvocation_fmt : DebugFmt ToolInvocation := λ i,
  dbg_struct "ToolInvocation" [("tool_call_id", fmt (ti_tool_call_id i)); ("tool_name", fmt (ti_tool_name i));
    ("arguments", DbgText (lit "<redacted>"))]%string.
(** [None] is the panic of [json_bytes], or of the [expect] on a schema that is no object. *)
Definition ToolSpec_fmt (s : ToolSpec) : option debug :=
  schema_bytes ← json_bytes (ts_input_schema s);
  object ← value_as_object (ts_input_schema s);
  Some (dbg_struct "ToolSpec" [("name", fmt (ts_name s)); ("description_bytes", fmt (byte_len (ts_description s)));
    ("schema_object_keys", fmt (N.of_nat (length object))); ("schema_bytes", fmt schema_bytes)]%string).

(** What a port call is given; of the token only [is_cancelled] is looked at. *)
Record ModelCallContext := mkModelCallContext {
  mcc_loop_id : LoopId;
  mcc_request_index : N;
  mcc_cancelled : bool;
  mcc_deadline : N;
}.
Definition ModelCallContext_new (loop_id : LoopId) (request_index : N) (cancelled : bool) (deadline : N) :
    ModelCallContext := mkModelCallContext loop_id request_index cancelled deadline.
#[export] Instance ModelCallContext_fmt : DebugFmt ModelCallContext := λ c,
  dbg_struct "ModelCallContext" [("loop_id", fmt (mcc_loop_id c)); ("request_index", fmt (mcc_request_index c));
    ("cancelled", fmt (mcc_cancelled c)); ("deadline", fmt (mcc_deadline c))]%string.
Record ToolPolicyRequest := mkToolPolicyRequest {
  tpr_invocation : ToolInvocation;
  tpr_spec : ToolSpec;
  tpr_cancelled : bool;
  tpr_deadline : N;
}.
Definition ToolPolicyRequest_fmt (r : ToolPolicyRequest) : option debug :=
  spec ← ToolSpec_fmt (tpr_spec r);
  Some (dbg_struct "ToolPolicyRequest" [("invocation", fmt (tpr_invocation r)); ("spec", spec);
    ("cancelled", fmt (tpr_cancelled r)); ("deadline", fmt (tpr_deadline r))]%string).

(** [finish_non_exhaustive]. *)
#[export] Instance ProviderReplay_fmt : DebugFmt ProviderReplay := λ r,
  DbgStruct "ProviderReplay" [("bytes", fmt (pr_bytes r))]%string false.
#[export] Instance AssistantPart_fmt : DebugFmt AssistantPart := λ p,
  match p with
  | PartText text => dbg_struct "AssistantPart::Text" [("text_bytes", fmt (str_len text))]%string
  | PartReasoning reasoning => DbgTuple "AssistantPart::Reasoning" [fmt reasoning]
  | PartToolCall call => DbgTuple "AssistantPart::ToolCall" [fmt call]
  end.
#[export] Instance ModelMessage_fmt : DebugFmt ModelMessage := λ m,
  match m with
  | MsgSystem text => dbg_struct "ModelMessage::System" [("text_bytes", fmt (str_len text))]%string
  | MsgUser text => dbg_struct "ModelMessage::User" [("text_bytes", fmt (str_len text))]%string
  | MsgAssistant parts => dbg_struct "ModelMessage::Assistant"
      [("part_count", fmt (N.of_nat (length parts))); ("parts", fmt parts)]%string
  | MsgAssistantWithReplay parts provider_replay => dbg_struct "ModelMessage::AssistantWithReplay"
      [("provider_replay", fmt provider_replay); ("part_count", fmt (N.of_nat (length parts))); ("parts", fmt parts)]%string
  | MsgTool tool_call_id output outcome => dbg_struct "ModelMessage::Tool"
      [("tool_call_id", fmt tool_call_id); ("output", fmt output); ("outcome", fmt outcome)]%string
  end.
#[export] Instance ModelRequest_fmt : DebugFmt ModelRequest := λ r,
  dbg_struct "ModelRequest" [("message_count", fmt (N.of_nat (length (mr_messages r))));
    ("tool_count", fmt (N.of_nat (length (mr_tools r)))); ("limits", fmt (mr_limits r));
    ("reasoning", fmt (mr_reasoning r))]%string.
#[export] Instance ModelResponse_fmt : DebugFmt ModelResponse := λ r,
  dbg_struct "ModelResponse" [("part_count", fmt (N.of_nat (length (resp_parts r)))); ("parts", fmt (resp_parts r));
    ("provider_replay", fmt (resp_provider_replay r)); ("finish_reason", fmt (resp_finish_reason r));
    ("usage", fmt (resp_usage r))]%string.
#[export] Instance ModelEvent_fmt : DebugFmt ModelEvent := λ e,
  match e with
  | EvTextDelta delta => dbg_struct "TextDelta" [("delta_bytes", fmt (byte_len delta))]%string
  | EvReasoningDelta delta => dbg_struct "ReasoningDelta" [("delta_bytes", fmt (byte_len delta))]%string
  | EvToolCallStart tool_call_id tool_name => dbg_struct "ToolCallStart"
      [("tool_call_id", fmt tool_call_id); ("tool_name", fmt tool_name)]%string
  | EvToolCallArgumentsDelta tool_call_id delta => dbg_struct "ToolCallArgumentsDelta"
      [("tool_call_id", fmt tool_call_id); ("delta_bytes", fmt (byte_len delta))]%string
  | EvToolCallEnd tool_call_id => dbg_struct "ToolCallEnd" [("tool_call_id", fmt tool_call_id)]%string
  | EvUsage usage => DbgTuple "Usage" [fmt usage]
  | EvProviderReplay replay => DbgTuple "ProviderReplay" [fmt replay]
  | EvFinish reason => DbgTuple "Finish" [fmt reason]
  end.
#[export] Instance AssistantHistory_fmt : DebugFmt AssistantHistory := λ a,
  dbg_struct "AssistantHistory" [("loop_id", fmt (ah_loop_id a)); ("request_index", fmt (ah_request_index a));
    ("model", fmt (ah_model a)); ("reasoning", fmt (ah_reasoning a)); ("content", fmt (ah_content a));
    ("provider_replay", fmt (ah_provider_replay a)); ("finish_reason", fmt (ah_finish_reason a));
    ("usage", fmt (ah_usage a))]%string.
#[export] Instance HistoryItem_fmt : DebugFmt HistoryItem := λ i,
  match i with
  | HiUser user => DbgTuple "User" [fmt user]
  | HiAssistant assistant => DbgTuple "Assistant" [fmt assistant]
  | HiToolResult result => DbgTuple "ToolResult" [fmt result]
  | HiSummary summary => DbgTuple "Summary" [fmt summary]
  end.
#[export] Instance LoopFailure_fmt : DebugFmt LoopFailure := λ f,
  dbg_struct "LoopFailure" [("kind", fmt (lf_kind f)); ("diagnostic", fmt (lf_diagnostic f));
    ("model_error", fmt (lf_model_error f))]%string.
#[export] Instance LoopOutcome_fmt : DebugFmt LoopOutcome := λ o,
  match o with
  | OutCompleted => DbgUnit "Completed"
  | OutCancelled reason => DbgTuple "Cancelled" [fmt reason]
  | OutFailed failure => DbgTuple "Failed" [fmt failure]
  end.
#[export] Instance LoopReport_fmt : DebugFmt LoopReport := λ r,
  dbg_struct "LoopReport" [("loop_id", fmt (lr_loop_id r)); ("outcome", fmt (lr_outcome r));
    ("appended", fmt (lr_appended r)); ("usage", fmt (lr_usage r)); ("requests", fmt (lr_requests r));
    ("tool_rounds", fmt (lr_tool_rounds r));
    ("final_config_revision", DbgTuple "ConfigRevision" [fmt (lr_final_config_revision r)])]%string.
End debug.

(** ** What may show *)

(** Values that differ at most in what must not show. *)
Class Alike (T : Type) := alike : T → T → Prop.
#[export] Hint Mode Alike ! : typeclass_instances.

#[export] Instance alike_option `{Alike T} : Alike (option T) := option_Forall2 alike.
#[export] Instance alike_list `{Alike T} : Alike (list T) := Forall2 alike.

(** Texts of the same size. *)
#[export] Instance alike_BoundedText : Alike BoundedText := λ a b, byte_len a = byte_len b.
#[export] Instance alike_ToolOutput : Alike ToolOutput := λ a b, alike (to_content a) (to_content b).
#[export] Instance alike_Diagnostic : Alike DiagnosticSummary := λ a b,
  ds_code a = ds_code b ∧ ds_category a = ds_category b ∧ alike (ds_message a) (ds_message b) ∧
  ds_retryable a = ds_retryable b.
#[export] Instance alike_ModelError : Alike ModelError := λ a b,
  me_kind a = me_kind b ∧ me_delivery a = me_delivery b ∧ me_retry_hint a = me_retry_hint b ∧
  alike (me_diagnostic a) (me_diagnostic b).
#[export] Instance alike_Reasoning : Alike ReasoningContent := λ a b,
  str_len <$> rc_text a = str_len <$> rc_text b ∧ str_len <$> rc_summary a = str_len <$> rc_summary b ∧
  (is_Some (rc_encrypted a) ↔ is_Some (rc_encrypted b)) ∧ (is_Some (rc_signature a) ↔ is_Some (rc_signature b)).
#[export] Instance alike_UserHistory : Alike UserHistory := λ a b,
  uh_loop_id a = uh_loop_id b ∧ uh_kind a = uh_kind b ∧ str_len (as_text (uh_input a)) = str_len (as_text (uh_input b)).
#[export] Instance alike_ToolResultHistory : Alike ToolResultHistory := λ a b,
  trh_loop_id a = trh_loop_id b ∧ trh_request_index a = trh_request_index b ∧ trh_call_id a = trh_call_id b ∧
  trh_tool_name a = trh_tool_name b ∧ trh_outcome a = trh_outcome b ∧ alike (trh_output a) (trh_output b).

Section alike.
Context `{SerdeJson}.

(** Whatever the arguments. *)
#[export] Instance alike_ToolCall : Alike ToolCall := λ a b,
  tc_tool_call_id a = tc_tool_call_id b ∧ tc_name a = tc_name b ∧ tc_call_index a = tc_call_index b.
(** Whatever the format and the payload. *)
#[export] Instance alike_ProviderReplay : Alike ProviderReplay := λ a b, pr_bytes a = pr_bytes b.
#[export] Instance alike_AssistantPart : Alike AssistantPart := λ a b,
  match a, b with
  | PartText s, PartText t => str_len s = str_len t
  | PartReasoning r, PartReasoning s => alike r s
  | PartToolCall c, PartToolCall d => alike c d
  | _, _ => False
  end.
#[export] Instance alike_ModelMessage : Alike ModelMessage := λ a b,
  match a, b with
  | MsgSystem s, MsgSystem t | MsgUser s, MsgUser t => str_len s = str_len t
  | MsgAssistant p, MsgAssistant q => alike p q
  | MsgAssistantWithReplay p r, MsgAssistantWithReplay q s => alike p q ∧ alike r s
  | MsgTool i o c, MsgTool j p d => i = j ∧ alike o p ∧ c = d
  | _, _ => False
  end.
#[export] Instance alike_ModelRequest : Alike ModelRequest := λ a b,
  length (mr_messages a) = length (mr_messages b) ∧ length (mr_tools a) = length (mr_tools b) ∧
  mr_limits a = mr_limits b ∧ mr_reasoning a = mr_reasoning b.
#[export] Instance alike_ModelResponse : Alike ModelResponse := λ a b,
  alike (resp_parts a) (resp_parts b) ∧ alike (resp_provider_replay a) (resp_provider_replay b) ∧
  resp_finish_reason a = resp_finish_reason b ∧ resp_usage a = resp_usage b.
#[export] Instance alike_AssistantHistory : Alike AssistantHistory := λ a b,
  ah_loop_id a = ah_loop_id b ∧ ah_request_index a = ah_request_index b ∧ ah_model a = ah_model b ∧
  ah_reasoning a = ah_reasoning b ∧ alike (ah_content a) (ah_content b) ∧
  alike (ah_provider_replay a) (ah_provider_replay b) ∧ ah_finish_reason a = ah_finish_reason b ∧ ah_usage a = ah_usage b.
#[export] Instance alike_HistoryItem : Alike HistoryItem := λ a b,
  match a, b with
  | HiUser u, HiUser v => alike u v
  | HiAssistant x, HiAssistant y => alike x y
  | HiToolResult r, HiToolResult s => alike r s
  | HiSummary s, HiSummary t => alike (sh_content s) (sh_content t)
  | _, _ => False
  end.
#[export] Instance alike_LoopFailure : Alike LoopFailure := λ a b,
  lf_kind a = lf_kind b ∧ alike (lf_diagnostic a) (lf_diagnostic b) ∧ alike (lf_model_error a) (lf_model_error b).
#[export] Instance alike_LoopOutcome : Alike LoopOutcome := λ a b,
  match a, b with
  | OutFailed f, OutFailed g => alike f g
  | _, _ => a = b
  end.
#[export] Instance alike_LoopReport : Alike LoopReport := λ a b,
  lr_loop_id a = lr_loop_id b ∧ alike (lr_outcome a) (lr_outcome b) ∧ alike (lr_appended a) (lr_appended b) ∧
  lr_usage a = lr_usage b ∧ lr_requests a = lr_requests b ∧ lr_tool_rounds a = lr_tool_rounds b ∧
  lr_final_config_revision a = lr_final_config_revision b.
End alike.

(** ** Redaction *)

Class Redacted (T : Type) `{DebugFmt T, Alike T} : Prop := redacted (x y : T) : alike x y → fmt x = fmt y.

#[export] Instance redacted_option `{Redacted T} : Redacted (option T).
Proof. intros ? ? [x y Hxy|]; [|done]. unfold fmt, debug_option. by rewrite (redacted x y Hxy). Qed.
#[export] Instance redacted_list `{Redacted T} : Redacted (list T).
Proof.
  intros xs ys Hxy. unfold fmt, debug_list. f_equal. induction Hxy as [|x y xs ys Hx _ IH]; [done|].
  cbn [fmap list_fmap]. by rewrite (redacted x y Hx), IH.
Qed.

#[export] Instance redacted_BoundedText : Redacted BoundedText.
Proof. intros x y E. unfold fmt, BoundedText_fmt. by rewrite (E : byte_len x = byte_len y). Qed.
#[export] Instance redacted_ToolOutput : Redacted ToolOutput.
Proof. intros x y E. unfold fmt, ToolOutput_fmt. by rewrite (E : byte_len (to_content x) = byte_len (to_content y)). Qed.
#[export] Instance redacted_Diagnostic : Redacted DiagnosticSummary.
Proof.
  intros x y (Ec & Eg & Em & Er). unfold fmt, DiagnosticSummary_fmt.
  by rewrite Ec, Eg, Er, (Em : byte_len (ds_message x) = byte_len (ds_message y)).
Qed.
#[export] Instance redacted_ModelError : Redacted ModelError.
Proof. intros x y (Ek & Ed & Eh & Eg). unfold fmt at 1 2, ModelError_fmt. by rewrite Ek, Ed, Eh, (redacted _ _ Eg). Qed.
#[export] Instance redacted_Reasoning : Redacted ReasoningContent.
Proof.
  intros x y (Et & Es & Ee & Eg). unfold fmt at 1 2, ReasoningContent_fmt.
  by rewrite Et, Es, (bool_decide_ext _ _ Ee), (bool_decide_ext _ _ Eg).
Qed.
#[export] Instance redacted_UserHistory : Redacted UserHistory.
Proof.
  intros [l k [s]] [l' k' [t]] (El & Ek & Ei). simpl in El, Ek, Ei. subst.
  unfold fmt at 1 2, UserHistory_fmt. cbn [uh_loop_id uh_kind uh_input]. unfold fmt at 3 6, UserInput_fmt.
  by rewrite (redacted s t Ei).
Qed.
#[export] Instance redacted_ToolResultHistory : Redacted ToolResultHistory.
Proof.
  intros x y (El & Er & Ec & En & Eo & Eout). unfold fmt at 1 2, ToolResultHistory_fmt.
  by rewrite El, Er, Ec, En, Eo, (redacted _ _ Eout).
Qed.

Section redacted.
Context `{SerdeJson}.

#[export] Instance redacted_ToolCall : Redacted ToolCall.
Proof. intros x y (Ei & En & Ek). unfold fmt at 1 2, ToolCall_fmt. by rewrite Ei, En, Ek. Qed.
#[export] Instance redacted_ProviderReplay : Redacted ProviderReplay.
Proof. intros x y E. unfold fmt at 1 2, ProviderReplay_fmt. by rewrite (E : pr_bytes x = pr_bytes y). Qed.
#[export] Instance redacted_AssistantPart : Redacted AssistantPart.
Proof.
  intros [s|r|c] [t|r'|c'] E; try done; unfold fmt at 1 2, AssistantPart_fmt.
  - by rewrite (E : str_len s = str_len t).
  - by rewrite (redacted r r' E).
  - by rewrite (redacted c c' E).
Qed.
Lemma alike_length {T} `{Alike T} (xs ys : list T) : alike xs ys → length xs = length ys.
Proof. apply Forall2_length. Qed.
#[export] Instance redacted_ModelMessage : Redacted ModelMessage.
Proof.
  intros [s|s|ps|ps r|i o c] [t|t|qs|qs r'|j o' c'] E; try done; unfold fmt at 1 2, ModelMessage_fmt.
  - by rewrite (E : str_len s = str_len t).
  - by rewrite (E : str_len s = str_len t).
  - by rewrite (alike_length ps qs E), (redacted ps qs E).
  - destruct E as [Ep Er]. by rewrite (alike_length ps qs Ep), (redacted ps qs Ep), (redacted r r' Er).
  - destruct E as (-> & Eo & ->). by rewrite (redacted o o' Eo).
Qed.
#[export] Instance redacted_ModelRequest : Redacted ModelRequest.
Proof. intros x y (Em & Et & El & Er). unfold fmt at 1 2, ModelRequest_fmt. by rewrite Em, Et, El, Er. Qed.
#[export] Instance redacted_ModelResponse : Redacted ModelResponse.
Proof.
  intros x y (Ep & Er & Ef & Eu). unfold fmt at 1 2, ModelResponse_fmt.
  by rewrite (alike_length _ _ Ep), (redacted _ _ Ep), (redacted _ _ Er), Ef, Eu.
Qed.
#[export] Instance redacted_AssistantHistory : Redacted AssistantHistory.
Proof.
  intros x y (El & Ei & Em & Er & Ec & Ep & Ef & Eu). unfold fmt at 1 2, AssistantHistory_fmt.
  by rewrite El, Ei, Em, Er, (redacted _ _ Ec), (redacted _ _ Ep), Ef, Eu.
Qed.
#[export] Instance redacted_HistoryItem : Redacted HistoryItem.
Proof.
  intros [u|a|r|[s]] [v|b|r'|[t]] E; try done; unfold fmt at 1 2, HistoryItem_fmt.
  - by rewrite (redacted u v E).
  - by rewrite (redacted a b E).
  - by rewrite (redacted r r' E).
  - unfold fmt at 1 2, SummaryHistory_fmt. by rewrite (redacted s t E).
Qed.
#[export] Instance redacted_LoopFailure : Redacted LoopFailure.
Proof.
  intros x y (Ek & Ed & Em). unfold fmt at 1 2, LoopFailure_fmt. by rewrite Ek, (redacted _ _ Ed), (redacted _ _ Em).
Qed.
#[export] Instance redacted_LoopOutcome : Redacted LoopOutcome.
Proof.
  intros [|c|f] [|d|g] E; try done; unfold fmt at 1 2, LoopOutcome_fmt.
  - by injection E as ->.
  - by rewrite (redacted f g E).
Qed.
#[export] Instance redacted_LoopReport : Redacted LoopReport.
Proof.
  intros x y (El & Eo & Ea & Eu & Er & Et & Ec). unfold fmt at 1 2, LoopReport_fmt.
  by rewrite El, (redacted _ _ Eo), (redacted _ _ Ea), Eu, Er, Et, Ec.
Qed.

(** ** Property *)

(** C33: debug output does not leak content. Policy requests that differ only in the
    arguments of their call print the same; requests, responses, messages, model
    errors and whole reports that differ only in what was said (texts of the same
    size), in tool-call arguments, in opaque reasoning and replay payloads, or in
    diagnostic messages, print the same; and the error's display does not depend on
    the diagnostic at all. *)
Theorem debug_redacts :
  (∀ (r : ToolPolicyRequest) (arguments : Value),
     ToolPolicyRequest_fmt r = ToolPolicyRequest_fmt (mkToolPolicyRequest
       (mkToolInvocation (ti_tool_call_id (tpr_invocation r)) (ti_tool_name (tpr_invocation r)) arguments)
       (tpr_spec r) (tpr_cancelled r) (tpr_deadline r))) ∧
  (∀ r s : ModelRequest, alike r s → fmt r = fmt s) ∧
  (∀ r s : ModelResponse, alike r s → fmt r = fmt s) ∧
  (∀ m n : ModelMessage, alike m n → fmt m = fmt n) ∧
  (∀ r s : LoopReport, alike r s → fmt r = fmt s) ∧
  (∀ e f : ModelError, alike e f → fmt e = fmt f) ∧
  (∀ (e : ModelError) d, ModelError_display e
     = ModelError_display (mkModelError (me_kind e) (me_delivery e) (me_retry_hint e) d)).
Proof. split_and!; [done|intros; by apply redacted..|done]. Qed.
End redacted.
