(* ===== verification/Control.v ===== *)
(** * The control plane of a loop

    Models src/src/agent_loop/control.rs; the handles that call it are in
    [Handle.v]. Each definition that changes the shared state is one atomic step: a
    compare-exchange of the state byte, a firing of the cancellation token, or one
    critical section of the mutex ([Locking] justifies this); a method made of
    several steps ([mark_cancel], [update]) is a definition per step and their
    composition. The watch channels are their current value, a oneshot channel is
    a cell of [c_oneshots]. *)

From S2P Require Import Prelude Text Json Ids Limits ToolTypes ModelError Message Request History Event.
Local Open Scope N_scope.

Definition STATE_NONE : N := 0.
Definition STATE_CANCEL_USER : N := 1.
Definition STATE_CANCEL_OWNER_DROPPED : N := 2.
Definition STATE_CANCEL_SHUTDOWN : N := 3.
Definition STATE_FINISHED : N := 4.

Inductive FinishSeal := SealClean | SealCancelledPrior (reason : CancelReason) | SealAlreadyFinished.
#[export] Instance FinishSeal_eq_dec : EqDecision FinishSeal.
Proof. solve_decision. Defined.

Inductive CancelSource := SrcUser | SrcOwnerDropped | SrcShutdown.

Inductive UpdateError := UpInvalidConfig | UpNotActive.
#[export] Instance UpdateError_eq_dec : EqDecision UpdateError.
Proof. solve_decision. Defined.
Inductive AnswerError := AnInteractionNotFound | AnWrongInteraction | AnNotActive.
#[export] Instance AnswerError_eq_dec : EqDecision AnswerError.
Proof. solve_decision. Defined.
Inductive InteractionStateError := IsBusy.

(** A [oneshot] channel: open, answered, or its sender dropped. *)
Inductive oneshot := OsOpen | OsSent (answer : InteractionAnswer) | OsClosed.

Record InteractionSlot := mkInteractionSlot {
  is_id : InteractionId;
  is_expected : InteractionKind;
  is_reply : nat;
}.

Section control.
Context `{SerdeJson}.

Record PendingConfig := mkPendingConfig { pc_revision : N; pc_config : ExecutionConfig }.

Record LoopControl := mkLoopControl {
  c_id : LoopId;
  c_cancel : bool;
  c_limits : LoopLimits;
  c_published : LoopState;
  c_completion : option LoopReport;
  c_state : N;
  c_interaction : option InteractionSlot;
  c_accepting_updates : bool;
  c_current_revision : N;
  c_next_revision : N;
  c_pending_config : option PendingConfig;
  c_oneshots : list oneshot;
}.

Definition LoopControl_new (id : LoopId) (event_capacity : N) (limits : LoopLimits) :
    result EventSinkError (LoopControl * LoopEventSink) :=
  sink ← LoopEventSink_channel event_capacity;
  Ok (mkLoopControl id false limits (LoopState_new id StStarting 0 INITIAL_REVISION) None
        STATE_NONE None true INITIAL_REVISION (ConfigRevision_next INITIAL_REVISION) None [],
      sink).

(** Field updates. *)
Definition with_cancel (c : LoopControl) b : LoopControl :=
  mkLoopControl (c_id c) b (c_limits c) (c_published c) (c_completion c) (c_state c)
    (c_interaction c) (c_accepting_updates c) (c_current_revision c) (c_next_revision c)
    (c_pending_config c) (c_oneshots c).
Definition with_published (c : LoopControl) s : LoopControl :=
  mkLoopControl (c_id c) (c_cancel c) (c_limits c) s (c_completion c) (c_state c)
    (c_interaction c) (c_accepting_updates c) (c_current_revision c) (c_next_revision c)
    (c_pending_config c) (c_oneshots c).
Definition with_completion (c : LoopControl) r : LoopControl :=
  mkLoopControl (c_id c) (c_cancel c) (c_limits c) (c_published c) r (c_state c)
    (c_interaction c) (c_accepting_updates c) (c_current_revision c) (c_next_revision c)
    (c_pending_config c) (c_oneshots c).
Definition with_state (c : LoopControl) s : LoopControl :=
  mkLoopControl (c_id c) (c_cancel c) (c_limits c) (c_published c) (c_completion c) s
    (c_interaction c) (c_accepting_updates c) (c_current_revision c) (c_next_revision c)
    (c_pending_config c) (c_oneshots c).
Definition with_interaction (c : LoopControl) i os : LoopControl :=
  mkLoopControl (c_id c) (c_cancel c) (c_limits c) (c_published c) (c_completion c) (c_state c)
    i (c_accepting_updates c) (c_current_revision c) (c_next_revision c)
    (c_pending_config c) os.
Definition with_config (c : LoopControl) accepting current next pending : LoopControl :=
  mkLoopControl (c_id c) (c_cancel c) (c_limits c) (c_published c) (c_completion c) (c_state c)
    (c_interaction c) accepting current next pending (c_oneshots c).

(** [AtomicU8::compare_exchange]: the state afterwards, and the value found. *)
Definition compare_exchange (c : LoopControl) (current new : N) : LoopControl * result N N :=
  if c_state c =? current then (with_state c new, Ok current) else (c, Err (c_state c)).

Definition is_active (c : LoopControl) : bool := c_state c =? STATE_NONE.
Definition is_finished (c : LoopControl) : bool := c_state c =? STATE_FINISHED.

Definition cancel_reason_value (value : N) : CancelReason :=
  if value =? STATE_CANCEL_OWNER_DROPPED then ReasonOwnerDropped
  else if value =? STATE_CANCEL_SHUTDOWN then ReasonShutdown
  else ReasonUser.

Definition cancel_reason (c : LoopControl) : CancelReason := cancel_reason_value (c_state c).

(** [CancellationToken::cancel]. *)
Definition fire_token (c : LoopControl) : LoopControl := with_cancel c true.

Definition cancel_target (reason : CancelSource) : N :=
  match reason with
  | SrcUser => STATE_CANCEL_USER
  | SrcOwnerDropped => STATE_CANCEL_OWNER_DROPPED
  | SrcShutdown => STATE_CANCEL_SHUTDOWN
  end.

(** [mark_cancel]: its compare-exchange, and the whole method. *)
Definition mark_cancel_exchange (c : LoopControl) (reason : CancelSource) : LoopControl * bool :=
  let '(c, r) := compare_exchange c STATE_NONE (cancel_target reason) in (c, is_ok r).

Definition mark_cancel (c : LoopControl) (reason : CancelSource) : LoopControl * bool :=
  let '(c, won) := mark_cancel_exchange c reason in
  if won then (fire_token c, true) else (c, false).

(** The critical section of [update]. *)
Definition update_locked (c : LoopControl) (config : ExecutionConfig) : LoopControl * option N :=
  if negb (c_accepting_updates c) || negb (is_active c) then (c, None)
  else
    let revision := c_next_revision c in
    (with_config c (c_accepting_updates c) (c_current_revision c) (ConfigRevision_next revision)
       (Some (mkPendingConfig revision config)), Some revision).

(** [update] without interference between its two steps; [None] is the panic of
    [json_bytes] in the validation. *)
Definition update (c : LoopControl) (config : ExecutionConfig) :
    option (LoopControl * result UpdateError N) :=
  if negb (is_active c) then Some (c, Err UpNotActive)
  else
    valid ← validate_against_limits config (c_limits c);
    match valid with
    | Err _ => Some (c, Err UpInvalidConfig)
    | Ok _ => match update_locked c config with
              | (c, revision) => Some (c, ok_or revision UpNotActive)
              end
    end.

Definition take_config (c : LoopControl) : LoopControl * option (N * ExecutionConfig) :=
  (with_config c (c_accepting_updates c) (c_current_revision c) (c_next_revision c) None,
   (λ p, (pc_revision p, pc_config p)) <$> c_pending_config c).

Definition begin_final (c : LoopControl) : LoopControl * option ExecutionConfig :=
  (with_config c false (c_current_revision c) (c_next_revision c) None,
   pc_config <$> c_pending_config c).

Definition commit_revision (c : LoopControl) (revision : N) : LoopControl :=
  with_config c (c_accepting_updates c) revision (c_next_revision c) (c_pending_config c).

Definition applied_revision (c : LoopControl) : N := c_current_revision c.

(** [finish_once]: [None] is either [unreachable!]. *)
Definition finish_once (c : LoopControl) :
    option (LoopControl * (FinishSeal * option ExecutionConfig)) :=
  '(c, finish) ←
    match compare_exchange c STATE_NONE STATE_FINISHED with
    | (c, Ok _) => Some (c, SealClean)
    | (c, Err found) =>
        if found =? STATE_NONE then None
        else if (STATE_CANCEL_USER <=? found) && (found <=? STATE_CANCEL_SHUTDOWN) then
          let '(c, _) := compare_exchange c found STATE_FINISHED in
          Some (c, SealCancelledPrior (cancel_reason_value found))
        else if found =? STATE_FINISHED then Some (c, SealAlreadyFinished)
        else None
    end;
  let '(c, discarded) := begin_final c in
  Some (c, (finish, discarded)).

Definition publish_state (c : LoopControl) (s : LoopState) : LoopControl := with_published c s.
Definition current_state (c : LoopControl) : LoopState := c_published c.
Definition published_report (c : LoopControl) : option LoopReport := c_completion c.

(** [oneshot::channel()]: a new open cell. *)
Definition oneshot_channel (c : LoopControl) : LoopControl * nat :=
  (with_interaction c (c_interaction c) (c_oneshots c ++ [OsOpen]), length (c_oneshots c)).

(** Dropping a sender closes a channel nothing was sent on. *)
Definition drop_sender (os : list oneshot) (reply : nat) : list oneshot :=
  match os !! reply with
  | Some OsOpen => <[reply := OsClosed]> os
  | _ => os
  end.

Definition set_interaction (c : LoopControl) (slot : InteractionSlot) :
    LoopControl * result InteractionStateError () :=
  match c_interaction c with
  | Some _ => (with_interaction c (c_interaction c) (drop_sender (c_oneshots c) (is_reply slot)), Err IsBusy)
  | None => (with_interaction c (Some slot) (c_oneshots c), Ok ())
  end.

(** The critical sections of the two methods on the slot, and the drop of a slot:
    the mutex is free again when the slot that was refused, or taken, is dropped. *)
Definition ask_slot (c : LoopControl) (slot : InteractionSlot) :
    LoopControl * result InteractionStateError () :=
  match c_interaction c with
  | Some _ => (c, Err IsBusy)
  | None => (with_interaction c (Some slot) (c_oneshots c), Ok ())
  end.
Definition take_slot (c : LoopControl) : LoopControl * option InteractionSlot :=
  (with_interaction c None (c_oneshots c), c_interaction c).
Definition drop_slot (c : LoopControl) (slot : InteractionSlot) : LoopControl :=
  with_interaction c (c_interaction c) (drop_sender (c_oneshots c) (is_reply slot)).

(** [take_interaction], whose caller drops the slot. *)
Definition take_interaction (c : LoopControl) : LoopControl :=
  match c_interaction c with
  | Some slot => with_interaction c None (drop_sender (c_oneshots c) (is_reply slot))
  | None => c
  end.

Definition answer (c : LoopControl) (id : InteractionId) (a : InteractionAnswer) :
    LoopControl * result AnswerError () :=
  if negb (c_accepting_updates c) || negb (is_active c) then (c, Err AnNotActive)
  else
    match c_interaction c with
    | None => (c, Err AnInteractionNotFound)
    | Some slot =>
        if negb (bool_decide (is_id slot = id)) then (c, Err AnWrongInteraction)
        else
          match InteractionAnswer_validate a (is_expected slot) with
          | Err _ => (c, Err AnWrongInteraction)
          | Ok _ => (with_interaction c None (<[is_reply slot := OsSent a]> (c_oneshots c)), Ok ())
          end
    end.

(** ** Sequences of steps, by any number of threads *)

Inductive CtlOp :=
| CoCancel (source : CancelSource)
| CoFireToken
| CoUpdate (config : ExecutionConfig)
| CoAnswer (id : InteractionId) (a : InteractionAnswer)
| CoTakeConfig
| CoBeginFinal
| CoCommit (revision : N)
| CoFinish
| CoOneshot
| CoAskSlot (slot : InteractionSlot)
| CoTakeSlot
| CoDropSlot (slot : InteractionSlot)
| CoPublish (s : LoopState)
| CoComplete (r : LoopReport).

Inductive CtlRes :=
| ResCancel (source : CancelSource) (won : bool)
| ResUpdate (revision : option N)
| ResAnswer (r : result AnswerError ())
| ResConfig (r : option (N * ExecutionConfig))
| ResFinal (discarded : option ExecutionConfig)
| ResFinish (seal : FinishSeal) (discarded : option ExecutionConfig)
| ResAsk (r : result InteractionStateError ())
| ResSlot (slot : option InteractionSlot)
| ResUnreachable
| ResNone.

Definition ctl_op (c : LoopControl) (op : CtlOp) : LoopControl * CtlRes :=
  match op with
  | CoCancel source => let '(c, won) := mark_cancel_exchange c source in (c, ResCancel source won)
  | CoFireToken => (fire_token c, ResNone)
  | CoUpdate config => let '(c, r) := update_locked c config in (c, ResUpdate r)
  | CoAnswer id a => let '(c, r) := answer c id a in (c, ResAnswer r)
  | CoTakeConfig => let '(c, r) := take_config c in (c, ResConfig r)
  | CoBeginFinal => let '(c, discarded) := begin_final c in (c, ResFinal discarded)
  | CoCommit revision => (commit_revision c revision, ResNone)
  | CoFinish => match finish_once c with
                | Some (c, (seal, discarded)) => (c, ResFinish seal discarded)
                | None => (c, ResUnreachable)
                end
  | CoOneshot => ((oneshot_channel c).1, ResNone)
  | CoAskSlot slot => let '(c, r) := ask_slot c slot in (c, ResAsk r)
  | CoTakeSlot => let '(c, slot) := take_slot c in (c, ResSlot slot)
  | CoDropSlot slot => (drop_slot c slot, ResNone)
  | CoPublish s => (publish_state c s, ResNone)
  | CoComplete r => (with_completion c (Some r), ResNone)
  end.

Fixpoint ctl_run (c : LoopControl) (ops : list CtlOp) : LoopControl * list CtlRes :=
  match ops with
  | [] => (c, [])
  | op :: ops =>
      let '(c, r) := ctl_op c op in
      let '(c, rs) := ctl_run c ops in
      (c, r :: rs)
  end.

(** ** Facts *)

(** The two methods are their critical section and the drop. *)
Lemma set_interaction_slot c slot :
  set_interaction c slot = let '(c, r) := ask_slot c slot in (if is_err r then drop_slot c slot else c, r).
Proof. unfold set_interaction, ask_slot, drop_slot. by destruct (c_interaction c) eqn:E; rewrite ?E. Qed.
Lemma take_interaction_slot c :
  take_interaction c = match take_slot c with (c, Some slot) => drop_slot c slot | (c, None) => c end.
Proof.
  unfold take_interaction, take_slot. destruct (c_interaction c) eqn:E; [done|].
  destruct c; simpl in *; by subst.
Qed.

Definition state_ok (c : LoopControl) : Prop := c_state c ≤ STATE_FINISHED.

(** The states a loop goes through, and the one way it does. *)
Definition state_step (s s' : N) : Prop :=
  s' = s ∨ s = STATE_NONE ∧ s' ≤ STATE_FINISHED ∨ s ≠ STATE_NONE ∧ s' = STATE_FINISHED.

Lemma finish_once_spec c :
  state_ok c →
  ∃ seal, finish_once c = Some (with_config (with_state c STATE_FINISHED) false (c_current_revision c)
      (c_next_revision c) None, (seal, pc_config <$> c_pending_config c)) ∧
    seal = (if c_state c =? STATE_NONE then SealClean
            else if c_state c =? STATE_FINISHED then SealAlreadyFinished
            else SealCancelledPrior (cancel_reason_value (c_state c))).
Proof.
  unfold state_ok, finish_once, compare_exchange. intros Hs. eexists. split; [|reflexivity].
  destruct (N.eqb_spec (c_state c) STATE_NONE) as [H0|H0]; [done|].
  destruct c as [id cn li pu co st it ac cu ne pe os]. simpl in *.
  assert (st = 1 ∨ st = 2 ∨ st = 3 ∨ st = 4) as Hst.
  { change STATE_NONE with 0 in H0. change STATE_FINISHED with 4 in Hs. lia. }
  destruct Hst as [->|[->|[->| ->]]]; reflexivity.
Qed.

(** Either [unreachable!], or the seal is in place. *)
Lemma finish_once_cases c :
  finish_once c = None ∨
  ∃ seal, finish_once c = Some (with_config (with_state c STATE_FINISHED) false (c_current_revision c)
    (c_next_revision c) None, (seal, pc_config <$> c_pending_config c)).
Proof.
  unfold finish_once, compare_exchange. destruct (N.eqb_spec (c_state c) STATE_NONE) as [E|E]; [right; by eexists|].
  cbv zeta. rewrite (proj2 (N.eqb_neq _ _) E), N.eqb_refl.
  destruct (_ && _); [right; by eexists|]. destruct (N.eqb_spec (c_state c) STATE_FINISHED) as [E4|]; [|by left].
  right. eexists. destruct c. simpl in *. by subst.
Qed.

Lemma ctl_op_state c op : state_ok c → state_step (c_state c) (c_state (ctl_op c op).1).
Proof.
  intros Hs. destruct op; simpl; try (by left).
  - unfold mark_cancel_exchange, compare_exchange. destruct (N.eqb_spec (c_state c) STATE_NONE);
      [|by left]. simpl. right. left. split; [done|]. destruct source; vm_compute; discriminate.
  - unfold update_locked. destruct (_ || _); by left.
  - unfold answer. destruct (_ || _); [by left|]. destruct (c_interaction c); [|by left].
    destruct (negb _); [by left|]. destruct (InteractionAnswer_validate _ _); by left.
  - destruct (finish_once_spec c Hs) as (seal & -> & _). simpl.
    destruct (decide (c_state c = STATE_NONE)); [|by right; right].
    right; left. split; [done|]. lia.
  - unfold ask_slot. destruct (c_interaction c); by left.
Qed.

Lemma ctl_op_ok c op : state_ok c → state_ok (ctl_op c op).1.
Proof.
  intros Hs. destruct (ctl_op_state c op Hs) as [E|[[_ E]|[_ E]]]; unfold state_ok in *; rewrite ?E; try done.
Qed.

Lemma ctl_run_ok ops : ∀ c, state_ok c → state_ok (ctl_run c ops).1.
Proof.
  induction ops as [|op ops IH]; intros c Hs; simpl; [done|].
  pose proof (ctl_op_ok c op Hs) as Hs'. destruct (ctl_op c op) as [c1 r]. simpl in *.
  specialize (IH c1 Hs'). by destruct (ctl_run c1 ops).
Qed.

(** What a log says: who won the one transition out of [NONE], which seals were
    won, and which revisions were handed out. *)
Definition source_reason (s : CancelSource) : CancelReason := cancel_reason_value (cancel_target s).

Definition decisions (rs : list CtlRes) : list FinishSeal :=
  omap (λ r, match r with
    | ResCancel source true => Some (SealCancelledPrior (source_reason source))
    | ResFinish SealClean _ => Some SealClean
    | _ => None
    end) rs.

Definition seals_won (rs : list CtlRes) : list FinishSeal :=
  omap (λ r, match r with
    | ResFinish SealAlreadyFinished _ => None
    | ResFinish seal _ => Some seal
    | _ => None
    end) rs.

Definition accepted_revisions (rs : list CtlRes) : list N :=
  omap (λ r, match r with ResUpdate (Some revision) => Some revision | _ => None end) rs.

Definition count_from (k : N) (n : nat) : list N := (λ i, k + N.of_nat i) <$> seq 0 n.

Lemma count_from_snoc k n : count_from k (S n) = count_from k n ++ [k + N.of_nat n].
Proof. unfold count_from. by rewrite seq_S, fmap_app. Qed.

Record ctl_inv (rs : list CtlRes) (c : LoopControl) : Prop := {
  ci_reachable : ResUnreachable ∉ rs;
  ci_winner :
    c_state c = STATE_NONE ∧ decisions rs = [] ∧ seals_won rs = [] ∨
    (STATE_CANCEL_USER ≤ c_state c ≤ STATE_CANCEL_SHUTDOWN ∧
     decisions rs = [SealCancelledPrior (cancel_reason_value (c_state c))] ∧ seals_won rs = []) ∨
    (c_state c = STATE_FINISHED ∧ c_accepting_updates c = false ∧ c_pending_config c = None ∧
     ∃ d, decisions rs = [d] ∧ seals_won rs = [d]);
  ci_revisions : N.of_nat (length (accepted_revisions rs)) < u64_MAX →
    accepted_revisions rs = count_from 1 (length (accepted_revisions rs)) ∧
    c_next_revision c = 1 + N.of_nat (length (accepted_revisions rs));
}.

Lemma ctl_inv_state_ok rs c : ctl_inv rs c → state_ok c.
Proof.
  intros Hi. unfold state_ok. destruct (ci_winner _ _ Hi) as [(-> & _)|[(? & _)|(-> & _)]];
    change STATE_FINISHED with 4 in *; change STATE_NONE with 0 in *; change STATE_CANCEL_SHUTDOWN with 3 in *; lia.
Qed.

(** A step that changes neither the state byte, nor the configuration, and logs
    nothing that counts. *)
Lemma ctl_inv_quiet rs c c' r :
  ctl_inv rs c → c_state c' = c_state c → c_accepting_updates c' = c_accepting_updates c →
  c_next_revision c' = c_next_revision c →
  (c_pending_config c' = c_pending_config c ∨ c_pending_config c' = None) →
  r ≠ ResUnreachable → decisions [r] = [] → seals_won [r] = [] → accepted_revisions [r] = [] →
  ctl_inv (rs ++ [r]) c'.
Proof.
  intros Hi Hs Ha Hn Hp Hr Hd Hw Hv.
  assert (decisions (rs ++ [r]) = decisions rs) as Hd'.
  { unfold decisions in *. by rewrite omap_app, Hd, app_nil_r. }
  assert (seals_won (rs ++ [r]) = seals_won rs) as Hw'.
  { unfold seals_won in *. by rewrite omap_app, Hw, app_nil_r. }
  assert (accepted_revisions (rs ++ [r]) = accepted_revisions rs) as Hv'.
  { unfold accepted_revisions in *. by rewrite omap_app, Hv, app_nil_r. }
  split; rewrite ?Hd', ?Hw', ?Hv', ?Hs, ?Ha, ?Hn.
  - apply not_elem_of_app. split; [apply Hi|]. by intros E%list_elem_of_singleton.
  - destruct (ci_winner _ _ Hi) as [?|[?|(? & ? & Hpn & ?)]]; [by left|by right; left|].
    right; right. split_and!; try done. destruct Hp as [->| ->]; done.
  - apply Hi.
Qed.

(** A step that decides nothing. *)
Ltac ctl_quiet Hi := eapply (ctl_inv_quiet _ _ _ _ Hi); first [by left|by right|done].

Lemma snoc_reachable rs r : ResUnreachable ∉ rs → r ≠ ResUnreachable → ResUnreachable ∉ rs ++ [r].
Proof. intros Hrs Hr. apply not_elem_of_app. split; [done|]. by intros E%list_elem_of_singleton. Qed.

Lemma ctl_inv_cancel rs c source : ctl_inv rs c →
  ctl_inv (rs ++ [(ctl_op c (CoCancel source)).2]) (ctl_op c (CoCancel source)).1.
Proof.
  intros Hi. simpl. unfold mark_cancel_exchange, compare_exchange.
  destruct (N.eqb_spec (c_state c) STATE_NONE) as [Hn|Hn]; simpl; [|ctl_quiet Hi].
  destruct (ci_winner _ _ Hi) as [(_ & Hd & Hw)|[([Hc _] & _)|(Hc & _)]];
    [|rewrite Hn in Hc; by destruct Hc|rewrite Hn in Hc; done].
  split; unfold accepted_revisions; rewrite ?omap_app, ?app_nil_r.
  - apply snoc_reachable; [apply Hi|done].
  - right; left. unfold decisions, seals_won in *. rewrite !omap_app, Hd, Hw. simpl.
    split; [by destruct source|done].
  - apply Hi.
Qed.

Lemma ctl_inv_update rs c config : ctl_inv rs c →
  ctl_inv (rs ++ [(ctl_op c (CoUpdate config)).2]) (ctl_op c (CoUpdate config)).1.
Proof.
  intros Hi. simpl. unfold update_locked. destruct (_ || _) eqn:Eu; simpl; [ctl_quiet Hi|].
  bools. unfold is_active in *. bools.
  assert (accepted_revisions (rs ++ [ResUpdate (Some (c_next_revision c))])
    = accepted_revisions rs ++ [c_next_revision c]) as Hacc
    by (unfold accepted_revisions; by rewrite omap_app).
  split.
  - apply snoc_reachable; [apply Hi|done].
  - unfold decisions, seals_won. rewrite !omap_app, !app_nil_r.
    destruct (ci_winner _ _ Hi) as [?|[?|(? & ? & _)]]; [by left|by right; left|congruence].
  - rewrite Hacc, length_app. simpl. intros Hlt.
    destruct (ci_revisions _ _ Hi) as [Hr Hn]; [lia|]. rewrite Hn.
    rewrite Nat.add_1_r, count_from_snoc, <- Hr. split; [done|].
    unfold ConfigRevision_next. rewrite saturating_add_exact; lia.
Qed.

Lemma ctl_inv_finish rs c : ctl_inv rs c → ctl_inv (rs ++ [(ctl_op c CoFinish).2]) (ctl_op c CoFinish).1.
Proof.
  intros Hi. simpl. destruct (finish_once_spec c (ctl_inv_state_ok _ _ Hi)) as (seal & -> & Hseal). simpl.
  assert (Hw := ci_winner _ _ Hi).
  split; unfold decisions, seals_won, accepted_revisions; rewrite ?omap_app, ?app_nil_r; simpl.
  - apply snoc_reachable; [apply Hi|done].
  - right; right. split_and!; [done..|]. unfold decisions, seals_won in Hw.
    destruct Hw as [(Hs & -> & ->)|[(Hs & -> & ->)|(Hs & _ & _ & d & -> & ->)]].
    + rewrite Hs in Hseal. simpl in Hseal. subst seal. simpl. eauto.
    + change STATE_CANCEL_USER with 1 in Hs. change STATE_CANCEL_SHUTDOWN with 3 in Hs.
      change STATE_NONE with 0 in Hseal. change STATE_FINISHED with 4 in Hseal.
      rewrite (proj2 (N.eqb_neq _ _)), (proj2 (N.eqb_neq _ _)) in Hseal by lia.
      subst seal. simpl. eauto.
    + rewrite Hs in Hseal. simpl in Hseal. subst seal. simpl. eauto.
  - apply Hi.
Qed.

Lemma ctl_inv_begin_final rs c : ctl_inv rs c → ctl_inv (rs ++ [ResFinal (begin_final c).2]) (begin_final c).1.
Proof.
  intros Hi. assert (Hw := ci_winner _ _ Hi).
  split; unfold decisions, seals_won, accepted_revisions; rewrite ?omap_app, ?app_nil_r; simpl.
  - apply snoc_reachable; [apply Hi|done].
  - destruct Hw as [?|[?|(? & ? & ? & ?)]]; [by left|by right; left|right; right; done].
  - apply Hi.
Qed.

Lemma ctl_inv_step rs c op :
  ctl_inv rs c → ctl_inv (rs ++ [(ctl_op c op).2]) (ctl_op c op).1.
Proof.
  intros Hi. destruct op; [by apply ctl_inv_cancel|ctl_quiet Hi|by apply ctl_inv_update|..|ctl_quiet Hi|ctl_quiet Hi]; simpl.
  - unfold answer. destruct (_ || _); [ctl_quiet Hi|]. destruct (c_interaction c); [|ctl_quiet Hi].
    destruct (negb _); [ctl_quiet Hi|]. destruct (InteractionAnswer_validate _ _); ctl_quiet Hi.
  - ctl_quiet Hi.
  - by apply ctl_inv_begin_final.
  - ctl_quiet Hi.
  - by apply ctl_inv_finish.
  - ctl_quiet Hi.
  - unfold ask_slot. destruct (c_interaction c); ctl_quiet Hi.
  - ctl_quiet Hi.
  - ctl_quiet Hi.
Qed.

Lemma ctl_run_inv ops : ∀ rs c, ctl_inv rs c → ctl_inv (rs ++ (ctl_run c ops).2) (ctl_run c ops).1.
Proof.
  induction ops as [|op ops IH]; intros rs c Hi; simpl; [by rewrite app_nil_r|].
  pose proof (ctl_inv_step rs c op Hi) as Hi'. destruct (ctl_op c op) as [c1 r]. simpl in Hi'.
  specialize (IH _ _ Hi'). destruct (ctl_run c1 ops) as [c2 rs2]. simpl in *.
  by rewrite <- app_assoc in IH.
Qed.

Lemma ctl_inv_new id capacity limits c sink :
  LoopControl_new id capacity limits = Ok (c, sink) → ctl_inv [] c.
Proof.
  intros (s & _ & [= <- <-])%result_bind_Ok. split; simpl; try done.
  - by intros ?%elem_of_nil.
  - left. done.
Qed.

Lemma ctl_inv_decided rs c :
  ctl_inv rs c → decisions rs ≠ [] → is_active c = false.
Proof.
  intros Hi Hd. unfold is_active. apply N.eqb_neq.
  destruct (ci_winner _ _ Hi) as [(_ & ? & _)|[([Hs _] & _)|(-> & _)]]; [done| |done].
  intros E. rewrite E in Hs. by destruct Hs.
Qed.

(** *** The pending configuration *)

(** The steps with their results: the updates accepted, and the last of them that
    nobody has claimed yet, by taking it or by ending the loop. *)
Definition accepted_updates (log : list (CtlOp * CtlRes)) : list (N * ExecutionConfig) :=
  omap (λ step, match step with
    | (CoUpdate config, ResUpdate (Some revision)) => Some (revision, config)
    | _ => None
    end) log.

Definition claim (pending : option (N * ExecutionConfig)) (step : CtlOp * CtlRes) : option (N * ExecutionConfig) :=
  match step with
  | (CoUpdate config, ResUpdate (Some revision)) => Some (revision, config)
  | (_, ResConfig _) | (_, ResFinal _) | (_, ResFinish _ _) => None
  | _ => pending
  end.
Definition unclaimed (log : list (CtlOp * CtlRes)) : option (N * ExecutionConfig) := foldl claim None log.

Lemma accepted_updates_revisions ops : ∀ c,
  accepted_revisions (ctl_run c ops).2 = (accepted_updates (zip ops (ctl_run c ops).2)).*1.
Proof.
  induction ops as [|op ops IH]; intros c; simpl; [done|]. destruct (ctl_op c op) as [c1 r] eqn:E.
  specialize (IH c1). destruct (ctl_run c1 ops) as [c2 rs]. simpl in *.
  unfold accepted_revisions, accepted_updates in *. cbn [omap list_omap zip zip_with].
  destruct op; unfold ctl_op in E; repeat case_match; simplify_eq; cbn; try done; by f_equal.
Qed.

Lemma claim_step c op : (take_config (ctl_op c op).1).2 = claim (take_config c).2 (op, (ctl_op c op).2).
Proof.
  destruct op; simpl; try done.
  - unfold mark_cancel_exchange, compare_exchange. by destruct (_ =? _).
  - unfold update_locked. by destruct (_ || _).
  - unfold answer. destruct (_ || _); [done|]. destruct (c_interaction c); [|done].
    destruct (negb _); [done|]. by destruct (InteractionAnswer_validate _ _).
  - by destruct (finish_once_cases c) as [->|[seal ->]].
  - unfold ask_slot. by destruct (c_interaction c).
Qed.

Lemma claim_run ops : ∀ c,
  (take_config (ctl_run c ops).1).2 = foldl claim (take_config c).2 (zip ops (ctl_run c ops).2).
Proof.
  induction ops as [|op ops IH]; intros c; cbn [ctl_run]; [done|]. pose proof (claim_step c op) as Hc.
  destruct (ctl_op c op) as [c1 r]. specialize (IH c1). destruct (ctl_run c1 ops) as [c2 rs].
  cbn [fst snd zip zip_with foldl] in *. by rewrite <- Hc.
Qed.

(** What is unclaimed is the last accepted. *)
Lemma unclaimed_last log u : unclaimed log = Some u → last (accepted_updates log) = Some u.
Proof.
  unfold unclaimed, accepted_updates. induction log as [|step log IH] using rev_ind; [done|].
  rewrite foldl_app, omap_app, last_app. cbn. intros Hu.
  destruct step as [[] []]; simpl in *; repeat case_match; simplify_eq; simpl; try done; by rewrite IH.
Qed.

(** ** Properties *)

(** C8: cancelling and sealing a loop has one linearization point. Along any
    interleaving of the atomic steps of any number of threads, at most one step
    ever wins the transition out of [NONE] (a cancellation or a clean seal), at
    most one call wins the seal, the winning seal reports exactly that decision
    (with the reason of the winning cancellation), and neither [unreachable!] is
    reached. Once sealed, no update is accepted and none is pending. *)
Theorem control_linearization id capacity limits c0 sink (ops : list CtlOp) :
  LoopControl_new id capacity limits = Ok (c0, sink) →
  let '(c, rs) := ctl_run c0 ops in
  ResUnreachable ∉ rs ∧
  (length (decisions rs) ≤ 1)%nat ∧
  (seals_won rs = [] ∨ seals_won rs = decisions rs) ∧
  (c_state c = STATE_FINISHED ↔ seals_won rs ≠ []) ∧
  (c_state c = STATE_FINISHED → c_accepting_updates c = false ∧ c_pending_config c = None).
Proof.
  intros Hnew. pose proof (ctl_run_inv ops [] c0 (ctl_inv_new _ _ _ _ _ Hnew)) as Hi.
  destruct (ctl_run c0 ops) as [c rs]. simpl in Hi. split; [apply Hi|].
  destruct (ci_winner _ _ Hi) as [(-> & -> & ->)|[(Hs & -> & ->)|(-> & ? & ? & d & -> & ->)]];
    simpl; split_and!; auto with lia; try (by split); try (by intros).
  - split; [|done]. intros E. rewrite E in Hs. by destruct Hs.
  - intros E. rewrite E in Hs. by destruct Hs.
Qed.

(** C23: updates are serialized with the seal. In any interleaving the revisions
    handed out count up from one without gaps (short of the 64-bit ceiling). What the
    runner takes, its revision and its configuration, is that of the update accepted
    last, unless it or the end of the loop has claimed that before: nothing older is
    applied, and no accepted update is lost. Once a cancellation or a seal has won,
    updates and answers are refused and change nothing. *)
Theorem control_updates id capacity limits c0 sink (ops : list CtlOp) :
  LoopControl_new id capacity limits = Ok (c0, sink) →
  let '(c, rs) := ctl_run c0 ops in
  let log := zip ops rs in
  let accepted := accepted_updates log in
  (N.of_nat (length accepted) < u64_MAX → (fst <$> accepted) = count_from 1 (length accepted)) ∧
  (take_config c).2 = unclaimed log ∧
  (∀ taken, (take_config c).2 = Some taken → last accepted = Some taken) ∧
  (decisions rs ≠ [] →
   (∀ config, update c config = Some (c, Err UpNotActive) ∧ update_locked c config = (c, None)) ∧
   (∀ i a, answer c i a = (c, Err AnNotActive))).
Proof.
  intros Hnew. pose proof (ctl_run_inv ops [] c0 (ctl_inv_new _ _ _ _ _ Hnew)) as Hi.
  pose proof (accepted_updates_revisions ops c0) as Hrev. pose proof (claim_run ops c0) as Htaken.
  assert ((take_config c0).2 = None) as H0 by (by apply result_bind_Ok in Hnew as (s & _ & [= <- <-])).
  rewrite H0 in Htaken. destruct (ctl_run c0 ops) as [c rs]. cbn [app fst snd] in *. cbv zeta.
  split_and!; [|exact Htaken|rewrite Htaken; apply unclaimed_last|].
  - rewrite <- Hrev, <- (length_fmap fst (accepted_updates _)), <- Hrev. apply Hi.
  - intros Hd. pose proof (ctl_inv_decided _ _ Hi Hd) as Ha.
    unfold update, update_locked, answer. rewrite Ha. simpl. rewrite orb_true_r. done.
Qed.
End control.

(** ** Witnesses *)

Definition demo_control : LoopControl (H := demo.json) * LoopEventSink :=
  match LoopControl_new (mkLoopId [1]) 4 LoopLimits_default with
  | Ok p => p
  | Err _ => (mkLoopControl (mkLoopId []) false LoopLimits_default
                (LoopState_new (mkLoopId []) StStarting 0 0) None 0 None true 0 0 None [],
              mkLoopEventSink [] 0 false 0 true)
  end.
Definition demo_ctl_ops : list (CtlOp (H := demo.json)) :=
  [CoCancel SrcShutdown; CoCancel SrcUser; CoFireToken; CoFinish; CoFinish].

Lemma demo_control_new :
  LoopControl_new (H := demo.json) (mkLoopId [1]) 4 LoopLimits_default
  = Ok (demo_control.1, demo_control.2).
Proof. reflexivity. Qed.

Lemma control_linearization_witness :
  seals_won (ctl_run demo_control.1 demo_ctl_ops).2 = [SealCancelledPrior ReasonShutdown] ∧
  ResUnreachable ∉ (ctl_run demo_control.1 demo_ctl_ops).2.
Proof.
  split; [vm_compute; reflexivity|].
  apply (control_linearization (mkLoopId [1]) 4 LoopLimits_default demo_control.1 demo_control.2
    demo_ctl_ops demo_control_new).
Defined.

Lemma control_updates_witness :
  answer (ctl_run demo_control.1 demo_ctl_ops).1 (mkInteractionId [1]) (AnswerApproval AllowOnce)
  = ((ctl_run demo_control.1 demo_ctl_ops).1, Err AnNotActive).
Proof.
  destruct (control_updates (mkLoopId [1]) 4 LoopLimits_default demo_control.1 demo_control.2
    demo_ctl_ops demo_control_new) as (_ & _ & _ & Hd).
  apply Hd. intros E. apply (f_equal (length (A := FinishSeal))) in E. vm_compute in E. discriminate.
Defined.
