(* ===== verification/ControlSpec.v ===== *)
(** * What the control plane promises

    An abstract machine over the same calls as [Control.ctl_op]: a phase instead of
    a state byte, the configurations accepted so far instead of three revision
    fields, a question instead of a slot. [spec_step] says, call by call, which
    answers are allowed; [control_refines] that the control plane gives no others. *)

From S2P Require Import Prelude Text Json Ids Limits ToolTypes ModelError Message Request History Event Control.
Local Open Scope N_scope.

(** Nobody has decided; a cancellation has; the runner has taken the decision. *)
Inductive phase := PhRunning | PhCancelled (source : CancelSource) | PhSealed.

Section spec.
Context `{SerdeJson}.

Record Spec := mkSpec {
  sp_phase : phase;
  sp_closed : bool;                      (* the runner has announced its end *)
  sp_accepted : list ExecutionConfig;    (* every configuration accepted, in order *)
  sp_fresh : bool;                       (* the last of them is still to be taken *)
  sp_applied : N;                        (* the revision last issued *)
  sp_question : option InteractionSlot;
  sp_replies : list oneshot;
  sp_token : bool;
  sp_shown : LoopState;
  sp_report : option LoopReport;
}.

(** The revision of the n-th accepted configuration; the counter saturates. *)
Definition nth_revision (n : nat) : N := N.min (N.of_nat n) u64_MAX.

(** Updates and answers are welcome. *)
Definition sp_open (a : Spec) : Prop := sp_phase a = PhRunning ∧ sp_closed a = false.

Definition decided (a : Spec) p : Spec :=
  mkSpec p (sp_closed a) (sp_accepted a) (sp_fresh a) (sp_applied a) (sp_question a) (sp_replies a)
    (sp_token a) (sp_shown a) (sp_report a).
Definition configured (a : Spec) closed accepted fresh applied : Spec :=
  mkSpec (sp_phase a) closed accepted fresh applied (sp_question a) (sp_replies a)
    (sp_token a) (sp_shown a) (sp_report a).
Definition asked (a : Spec) question replies : Spec :=
  mkSpec (sp_phase a) (sp_closed a) (sp_accepted a) (sp_fresh a) (sp_applied a) question replies
    (sp_token a) (sp_shown a) (sp_report a).
Definition shown (a : Spec) token state report : Spec :=
  mkSpec (sp_phase a) (sp_closed a) (sp_accepted a) (sp_fresh a) (sp_applied a) (sp_question a)
    (sp_replies a) token state report.

Definition closing (a : Spec) : Spec := configured a true (sp_accepted a) false (sp_applied a).

(** What the seal decides. *)
Definition seal_of (p : phase) : FinishSeal :=
  match p with
  | PhRunning => SealClean
  | PhCancelled source => SealCancelledPrior (source_reason source)
  | PhSealed => SealAlreadyFinished
  end.

(** The configuration still to be taken, with its revision. *)
Definition fresh_config (a : Spec) : option (N * ExecutionConfig) :=
  if sp_fresh a then (λ config, (nth_revision (length (sp_accepted a)), config)) <$> last (sp_accepted a)
  else None.

Inductive spec_step (a : Spec) : CtlOp → CtlRes → Spec → Prop :=
| SsCancelWins source :
    sp_phase a = PhRunning →
    spec_step a (CoCancel source) (ResCancel source true) (decided a (PhCancelled source))
| SsCancelLate source :
    sp_phase a ≠ PhRunning →
    spec_step a (CoCancel source) (ResCancel source false) a
| SsFireToken :
    spec_step a CoFireToken ResNone (shown a true (sp_shown a) (sp_report a))
| SsUpdate config :
    sp_open a →
    spec_step a (CoUpdate config) (ResUpdate (Some (nth_revision (S (length (sp_accepted a))))))
      (configured a false (sp_accepted a ++ [config]) true (sp_applied a))
| SsUpdateLate config :
    ¬ sp_open a →
    spec_step a (CoUpdate config) (ResUpdate None) a
| SsAnswer id answer slot :
    sp_open a → sp_question a = Some slot → is_id slot = id →
    InteractionAnswer_validate answer (is_expected slot) = Ok () →
    spec_step a (CoAnswer id answer) (ResAnswer (Ok ()))
      (asked a None (<[is_reply slot := OsSent answer]> (sp_replies a)))
| SsAnswerLate id answer :
    ¬ sp_open a →
    spec_step a (CoAnswer id answer) (ResAnswer (Err AnNotActive)) a
| SsAnswerNothing id answer :
    sp_open a → sp_question a = None →
    spec_step a (CoAnswer id answer) (ResAnswer (Err AnInteractionNotFound)) a
| SsAnswerWrong id answer slot :
    sp_open a → sp_question a = Some slot →
    is_id slot ≠ id ∨ InteractionAnswer_validate answer (is_expected slot) ≠ Ok () →
    spec_step a (CoAnswer id answer) (ResAnswer (Err AnWrongInteraction)) a
| SsTakeConfig :
    spec_step a CoTakeConfig (ResConfig (fresh_config a))
      (configured a (sp_closed a) (sp_accepted a) false (sp_applied a))
| SsBeginFinal :
    spec_step a CoBeginFinal (ResFinal (snd <$> fresh_config a)) (closing a)
| SsCommit revision :
    spec_step a (CoCommit revision) ResNone
      (configured a (sp_closed a) (sp_accepted a) (sp_fresh a) revision)
| SsFinish :
    spec_step a CoFinish (ResFinish (seal_of (sp_phase a)) (snd <$> fresh_config a)) (decided (closing a) PhSealed)
| SsOneshot :
    spec_step a CoOneshot ResNone (asked a (sp_question a) (sp_replies a ++ [OsOpen]))
| SsAsk slot :
    sp_question a = None →
    spec_step a (CoAskSlot slot) (ResAsk (Ok ())) (asked a (Some slot) (sp_replies a))
| SsAskBusy slot open :
    sp_question a = Some open →
    spec_step a (CoAskSlot slot) (ResAsk (Err IsBusy)) a
| SsWithdraw :
    spec_step a CoTakeSlot (ResSlot (sp_question a)) (asked a None (sp_replies a))
| SsDrop slot :
    spec_step a (CoDropSlot slot) ResNone (asked a (sp_question a) (drop_sender (sp_replies a) (is_reply slot)))
| SsPublish state :
    spec_step a (CoPublish state) ResNone (shown a (sp_token a) state (sp_report a))
| SsComplete report :
    spec_step a (CoComplete report) ResNone (shown a (sp_token a) (sp_shown a) (Some report)).

(** A conversation: the calls of all threads in one order, with their answers. *)
Inductive spec_run : Spec → list (CtlOp * CtlRes) → Spec → Prop :=
| SrDone a : spec_run a [] a
| SrStep a op r a1 log a2 :
    spec_step a op r a1 → spec_run a1 log a2 → spec_run a ((op, r) :: log) a2.

Definition spec_new (id : LoopId) : Spec :=
  mkSpec PhRunning false [] false INITIAL_REVISION None [] false
    (LoopState_new id StStarting 0 INITIAL_REVISION) None.

(** ** The refinement *)

Definition phase_byte (p : phase) : N :=
  match p with
  | PhRunning => STATE_NONE
  | PhCancelled source => cancel_target source
  | PhSealed => STATE_FINISHED
  end.

(** How the fields of the control plane show the abstract state. *)
Record shows (c : LoopControl) (a : Spec) : Prop := {
  sh_phase : c_state c = phase_byte (sp_phase a);
  sh_closed : c_accepting_updates c = negb (sp_closed a);
  sh_next : c_next_revision c = nth_revision (S (length (sp_accepted a)));
  sh_pending : (λ p, (pc_revision p, pc_config p)) <$> c_pending_config c = fresh_config a;
  sh_applied : c_current_revision c = sp_applied a;
  sh_question : c_interaction c = sp_question a;
  sh_replies : c_oneshots c = sp_replies a;
  sh_token : c_cancel c = sp_token a;
  sh_shown : c_published c = sp_shown a;
  sh_report : c_completion c = sp_report a;
}.

Lemma shows_open c a : shows c a → (c_accepting_updates c && is_active c = true ↔ sp_open a).
Proof.
  intros Hs. unfold sp_open, is_active. rewrite (sh_closed _ _ Hs), (sh_phase _ _ Hs).
  destruct (sp_closed a), (sp_phase a) as [|[]|]; simpl; naive_solver.
Qed.

Lemma nth_revision_next n : ConfigRevision_next (nth_revision n) = nth_revision (S n).
Proof.
  unfold nth_revision, ConfigRevision_next, saturating_add. rewrite Nat2N.inj_succ.
  lia.
Qed.

Lemma shows_new id capacity limits c sink :
  LoopControl_new id capacity limits = Ok (c, sink) → shows c (spec_new id).
Proof. intros (s & _ & [= <- <-])%result_bind_Ok. by split. Qed.
(** A step of the control plane, read off the abstract state. *)
Ltac shows_tac Hs :=
  destruct Hs; split; simpl; unfold fresh_config in *; simpl; try done; try congruence.

Lemma simulates_cancel c a source : shows c a →
  ∃ a', spec_step a (CoCancel source) (ctl_op c (CoCancel source)).2 a' ∧ shows (ctl_op c (CoCancel source)).1 a'.
Proof.
  intros Hs. simpl. unfold mark_cancel_exchange, compare_exchange. rewrite (sh_phase _ _ Hs).
  destruct (sp_phase a) as [|s'|] eqn:Ep; cbn [phase_byte].
  - eexists. split; [by apply SsCancelWins|]. simpl. shows_tac Hs.
  - replace (cancel_target s' =? STATE_NONE) with false by (by destruct s').
    eexists. split; [apply SsCancelLate; by rewrite Ep|done].
  - eexists. split; [apply SsCancelLate; by rewrite Ep|done].
Qed.

Lemma shows_closed c a : shows c a → negb (c_accepting_updates c) || negb (is_active c) = true → ¬ sp_open a.
Proof.
  intros Hs Hb Ho. apply (shows_open _ _ Hs) in Ho. by rewrite <- negb_andb, Ho in Hb.
Qed.
Lemma shows_opened c a : shows c a → negb (c_accepting_updates c) || negb (is_active c) = false → sp_open a.
Proof. intros Hs Hb. apply (shows_open _ _ Hs). by rewrite <- negb_andb, negb_false_iff in Hb. Qed.

Lemma simulates_update c a config : shows c a →
  ∃ a', spec_step a (CoUpdate config) (ctl_op c (CoUpdate config)).2 a' ∧ shows (ctl_op c (CoUpdate config)).1 a'.
Proof.
  intros Hs. simpl. unfold update_locked. destruct (_ || _) eqn:Eb.
  - eexists. split; [by apply SsUpdateLate, (shows_closed c)|done].
  - apply (shows_opened _ _ Hs) in Eb. rewrite (sh_next _ _ Hs). eexists. split; [by apply SsUpdate|].
    destruct Eb as [_ Eb]. simpl. shows_tac Hs.
    + by rewrite sh_closed0, Eb.
    + by rewrite nth_revision_next, length_app, Nat.add_1_r.
    + by rewrite last_snoc, length_app, Nat.add_1_r.
Qed.

Lemma simulates_answer c a id answer : shows c a →
  ∃ a', spec_step a (CoAnswer id answer) (ctl_op c (CoAnswer id answer)).2 a' ∧
    shows (ctl_op c (CoAnswer id answer)).1 a'.
Proof.
  intros Hs. simpl. unfold Control.answer. destruct (_ || _) eqn:Eb.
  { eexists. split; [by apply SsAnswerLate, (shows_closed c)|done]. }
  apply (shows_opened _ _ Hs) in Eb. rewrite (sh_question _ _ Hs).
  destruct (sp_question a) as [slot|] eqn:Eq; [|eexists; split; [by apply SsAnswerNothing|done]].
  destruct (bool_decide_reflect (is_id slot = id)) as [Hi|Hi]; simpl;
    [|eexists; split; [eapply SsAnswerWrong; [done..|by left]|done]].
  destruct (InteractionAnswer_validate answer (is_expected slot)) as [[]|e] eqn:Ev; simpl.
  - eexists. split; [by eapply SsAnswer|]. shows_tac Hs.
  - eexists. split; [eapply SsAnswerWrong; [done..|right; by rewrite Ev]|done].
Qed.

Lemma seal_of_byte p :
  seal_of p = (if phase_byte p =? STATE_NONE then SealClean
               else if phase_byte p =? STATE_FINISHED then SealAlreadyFinished
               else SealCancelledPrior (cancel_reason_value (phase_byte p))).
Proof. by destruct p as [|[]|]. Qed.

Lemma discarded_shown c a : shows c a → pc_config <$> c_pending_config c = snd <$> fresh_config a.
Proof. intros Hs. rewrite <- (sh_pending _ _ Hs). by destruct (c_pending_config c). Qed.

Lemma simulates_finish c a : shows c a →
  ∃ a', spec_step a CoFinish (ctl_op c CoFinish).2 a' ∧ shows (ctl_op c CoFinish).1 a'.
Proof.
  intros Hs. exists (decided (closing a) PhSealed).
  assert (state_ok c) as Hok by (unfold state_ok; rewrite (sh_phase _ _ Hs); by destruct (sp_phase a) as [|[]|]).
  cbn [ctl_op]. destruct (finish_once_spec c Hok) as (seal & -> & ->). cbn [fst snd].
  rewrite (sh_phase _ _ Hs), <- seal_of_byte, (discarded_shown _ _ Hs). split; [constructor|shows_tac Hs].
Qed.

Lemma simulates_interaction c a op : shows c a →
  match op with CoOneshot | CoAskSlot _ | CoTakeSlot | CoDropSlot _ => True | _ => False end →
  ∃ a', spec_step a op (ctl_op c op).2 a' ∧ shows (ctl_op c op).1 a'.
Proof.
  intros Hs Hop. destruct op as [| | | | | | | | |slot| |slot| |]; try done; simpl.
  - eexists. split; [constructor|]. shows_tac Hs.
  - unfold ask_slot. rewrite (sh_question _ _ Hs). destruct (sp_question a) as [open|] eqn:Eq; simpl.
    + eexists. split; [by eapply SsAskBusy|done].
    + eexists. split; [by apply SsAsk|]. shows_tac Hs.
  - rewrite (sh_question _ _ Hs). eexists. split; [constructor|]. shows_tac Hs.
  - eexists. split; [constructor|]. shows_tac Hs.
Qed.

Lemma spec_simulates c a op : shows c a →
  ∃ a', spec_step a op (ctl_op c op).2 a' ∧ shows (ctl_op c op).1 a'.
Proof.
  intros Hs. destruct op;
    try (by apply simulates_interaction);
    try (by apply simulates_cancel); try (by apply simulates_update);
    try (by apply simulates_answer); try (by apply simulates_finish).
  1, 4, 5, 6: eexists; split; [constructor|shows_tac Hs].
  - simpl. rewrite (sh_pending _ _ Hs). eexists. split; [constructor|shows_tac Hs].
  - simpl. rewrite (discarded_shown _ _ Hs). eexists. split; [constructor|shows_tac Hs].
Qed.

Lemma spec_simulates_run ops : ∀ c a, shows c a →
  ∃ a', spec_run a (zip ops (ctl_run c ops).2) a' ∧ shows (ctl_run c ops).1 a'.
Proof.
  induction ops as [|op ops IH]; intros c a Hs; [exists a; by split; [constructor|]|].
  destruct (spec_simulates c a op Hs) as (a1 & Hstep & Hs1). simpl.
  destruct (ctl_op c op) as [c1 r]. destruct (IH c1 a1 Hs1) as (a2 & Hrun & Hs2).
  destruct (ctl_run c1 ops) as [c2 rs]. exists a2. split; [by econstructor|done].
Qed.

Lemma ctl_run_length ops : ∀ c, length (ctl_run c ops).2 = length ops.
Proof.
  induction ops as [|op ops IH]; intros c; [done|]. simpl. destruct (ctl_op c op) as [c1 r].
  specialize (IH c1). destruct (ctl_run c1 ops). simpl in *. by f_equal.
Qed.

(** ** Property *)

(** C9: the control plane implements the abstract machine. Whatever the threads
    call, in whatever order, a new control plane answers every call, the answers
    form a conversation the abstract machine allows from its start, and the fields
    of the control plane show the state the machine is then in: who has decided, how
    many configurations were accepted and which is still to be taken, the question
    that is open, what was shown and reported. *)
Theorem control_refines id capacity limits c0 sink (ops : list CtlOp) :
  LoopControl_new id capacity limits = Ok (c0, sink) →
  let '(c, rs) := ctl_run c0 ops in
  length rs = length ops ∧ ∃ a, spec_run (spec_new id) (zip ops rs) a ∧ shows c a.
Proof.
  intros Hnew. pose proof (ctl_run_length ops c0) as Hl.
  pose proof (spec_simulates_run ops c0 _ (shows_new _ _ _ _ _ Hnew)) as Hr.
  by destruct (ctl_run c0 ops).
Qed.
End spec.

(** ** Witness *)

Lemma control_refines_witness :
  ∃ a, spec_run (spec_new (mkLoopId [1])) (zip demo_ctl_ops (ctl_run demo_control.1 demo_ctl_ops).2) a ∧
    shows (ctl_run demo_control.1 demo_ctl_ops).1 a.
Proof.
  apply (control_refines (mkLoopId [1]) 4 LoopLimits_default demo_control.1 demo_control.2 demo_ctl_ops
    demo_control_new).
Defined.
