(* ===== verification/Locking.v ===== *)
(** * The control plane, access by access

    [Control] takes each critical section of agent_loop/control.rs for one step.
    Here the methods run as the code does: every access to the state byte and to a
    field behind the mutex is a step of its own, the mutex is taken and released, other
    threads run in between, and what a method lets go of is dropped where the code
    drops it. The destructor of a configuration is the host's and may call the control
    plane again. [control_linearizable] justifies the steps of [Control];
    [control_calls_end] says that the mutex never gets stuck. *)

From S2P Require Import Prelude Text Json Ids Limits ToolTypes ModelError Message Request History Event Control ControlSpec.
Local Open Scope N_scope.

Section locking.
Context `{SerdeJson}.

(** ** Data *)

(** The methods of [LoopControl], with their arguments. *)
Inductive Method :=
| MMarkCancel (reason : CancelSource)
| MUpdate (config : ExecutionConfig)
| MTakeConfig
| MBeginFinal
| MCommitRevision (revision : N)
| MAppliedRevision
| MCancelReason
| MFinishOnce
| MIsFinished
| MPublishState (state : LoopState)
| MCurrentState
| MSetInteraction (slot : InteractionSlot)
| MTakeInteraction
| MAnswer (id : InteractionId) (a : InteractionAnswer).

(** What they return; [None] is a panic. *)
Inductive Ret :=
| RetUnit
| RetBool (b : bool)
| RetUpdate (r : option (result UpdateError N))
| RetTaken (r : option (N * ExecutionConfig))
| RetFinal (discarded : option ExecutionConfig)
| RetRevision (revision : N)
| RetReason (reason : CancelReason)
| RetFinish (r : option (FinishSeal * option ExecutionConfig))
| RetState (state : LoopState)
| RetSet (r : result InteractionStateError ())
| RetSlot (slot : option InteractionSlot)
| RetAnswer (r : result AnswerError ()).

(** What is left of a method when its guard is gone: the drops of what it still
    holds, in order, and its return; a slot that was taken is dropped by the caller. *)
Inductive After :=
| AfConfig (config : ExecutionConfig)
| AfSlot (slot : InteractionSlot)
| AfReturn (m : Method) (r : Ret).

(** The places inside a critical section, named after the next access. *)
Inductive Cs :=
| CsUpdateAccepting (config : ExecutionConfig)
| CsUpdateActive (config : ExecutionConfig)
| CsUpdateNext (config : ExecutionConfig)
| CsUpdateReplace (config : ExecutionConfig) (revision : N)
| CsTakeConfig
| CsFinalClose
| CsFinalTake
| CsCommit (revision : N)
| CsApplied
| CsFinishExchange
| CsFinishCancelled (cancel : N)
| CsFinishClose (finish : FinishSeal)
| CsFinishTake (finish : FinishSeal)
| CsAsk (slot : InteractionSlot)
| CsTakeSlot
| CsAnswerAccepting (id : InteractionId) (a : InteractionAnswer)
| CsAnswerActive (id : InteractionId) (a : InteractionAnswer)
| CsAnswerSlot (id : InteractionId) (a : InteractionAnswer)
| CsAnswerSend (id : InteractionId) (a : InteractionAnswer) (slot : InteractionSlot)
| CsExit (after : list After).

(** A frame of a thread's stack: a call to make, a token to fire, a mutex to take,
    a critical section, or what comes after one. *)
Inductive Frame :=
| FrCall (m : Method)
| FrFire
| FrLock (cs : Cs)
| FrIn (cs : Cs)
| FrAfter (a : After).

(** [th_drops]: what the next destructors of configurations that run on this thread
    call; past its end they call nothing. *)
Record Thread := mkThread {
  th_stack : list Frame;
  th_drops : list (list Method);
  th_history : list (Method * Ret);
}.

(** What takes effect at one moment: a method, or one of the effects that come
    after its critical section. *)
Inductive Act := ActCall (m : Method) | ActFire | ActDrop (slot : InteractionSlot).

(** [sy_log] records, for the theorems only, which thread's call took effect when. *)
Record System := mkSystem {
  sy_ctl : LoopControl;
  sy_lock : option nat;
  sy_threads : list Thread;
  sy_log : list (nat * (Act * Ret));
}.

(** ** The accesses *)

(** The field updates of the sections. *)
Definition set_next (c : LoopControl) next : LoopControl :=
  with_config c (c_accepting_updates c) (c_current_revision c) next (c_pending_config c).
Definition set_pending (c : LoopControl) pending : LoopControl :=
  with_config c (c_accepting_updates c) (c_current_revision c) (c_next_revision c) pending.
Definition close_updates (c : LoopControl) : LoopControl :=
  with_config c false (c_current_revision c) (c_next_revision c) (c_pending_config c).

Definition discarded (c : LoopControl) : option ExecutionConfig := pc_config <$> c_pending_config c.

(** A section that ends in one go: what the call returns, and that it took effect. *)
Definition leave (m : Method) (r : Ret) (drops : list After) : Cs * option (Method * Ret) :=
  (CsExit (drops ++ [AfReturn m r]), Some (m, r)).

(** One access inside a critical section: the state afterwards, the next place, and
    the call that takes effect with this access. A call that is bound to succeed takes
    effect at its last look at the state byte. *)
Definition section_step (c : LoopControl) (cs : Cs) : LoopControl * (Cs * option (Method * Ret)) :=
  match cs with
  | CsUpdateAccepting config =>
      (c, if c_accepting_updates c then (CsUpdateActive config, None)
          else leave (MUpdate config) (RetUpdate (Some (Err UpNotActive))) [AfConfig config])
  | CsUpdateActive config =>
      (c, if is_active c then
            (CsUpdateNext config, Some (MUpdate config, RetUpdate (Some (Ok (c_next_revision c)))))
          else leave (MUpdate config) (RetUpdate (Some (Err UpNotActive))) [AfConfig config])
  | CsUpdateNext config =>
      let revision := c_next_revision c in
      (set_next c (ConfigRevision_next revision), (CsUpdateReplace config revision, None))
  | CsUpdateReplace config revision =>
      let replaced := match c_pending_config c with Some p => [AfConfig (pc_config p)] | None => [] end in
      (set_pending c (Some (mkPendingConfig revision config)),
       (CsExit (replaced ++ [AfReturn (MUpdate config) (RetUpdate (Some (Ok revision)))]), None))
  | CsTakeConfig =>
      (set_pending c None,
       leave MTakeConfig (RetTaken ((λ p, (pc_revision p, pc_config p)) <$> c_pending_config c)) [])
  | CsFinalClose => (close_updates c, (CsFinalTake, Some (MBeginFinal, RetFinal (discarded c))))
  | CsFinalTake => (set_pending c None, (CsExit [AfReturn MBeginFinal (RetFinal (discarded c))], None))
  | CsCommit revision => (commit_revision c revision, leave (MCommitRevision revision) RetUnit [])
  | CsApplied => (c, leave MAppliedRevision (RetRevision (c_current_revision c)) [])
  | CsFinishExchange =>
      let took finish := (CsFinishClose finish, Some (MFinishOnce, RetFinish (Some (finish, discarded c)))) in
      match compare_exchange c STATE_NONE STATE_FINISHED with
      | (c, Ok _) => (c, took SealClean)
      | (c, Err found) =>
          (c, if found =? STATE_NONE then leave MFinishOnce (RetFinish None) []
              else if (STATE_CANCEL_USER <=? found) && (found <=? STATE_CANCEL_SHUTDOWN) then
                (CsFinishCancelled found, None)
              else if found =? STATE_FINISHED then took SealAlreadyFinished
              else leave MFinishOnce (RetFinish None) [])
      end
  | CsFinishCancelled cancel =>
      let finish := SealCancelledPrior (cancel_reason_value cancel) in
      ((compare_exchange c cancel STATE_FINISHED).1,
       (CsFinishClose finish, Some (MFinishOnce, RetFinish (Some (finish, discarded c)))))
  | CsFinishClose finish => (close_updates c, (CsFinishTake finish, None))
  | CsFinishTake finish =>
      (set_pending c None, (CsExit [AfReturn MFinishOnce (RetFinish (Some (finish, discarded c)))], None))
  | CsAsk slot =>
      let '(c, r) := ask_slot c slot in
      (c, leave (MSetInteraction slot) (RetSet r) (if is_err r then [AfSlot slot] else []))
  | CsTakeSlot =>
      let '(c, slot) := take_slot c in
      (c, (CsExit (AfReturn MTakeInteraction (RetSlot slot) :: option_list (AfSlot <$> slot)),
           Some (MTakeInteraction, RetSlot slot)))
  | CsAnswerAccepting id a =>
      (c, if c_accepting_updates c then (CsAnswerActive id a, None)
          else leave (MAnswer id a) (RetAnswer (Err AnNotActive)) [])
  | CsAnswerActive id a =>
      (c, if is_active c then (CsAnswerSlot id a, Some (MAnswer id a, RetAnswer (answer c id a).2))
          else leave (MAnswer id a) (RetAnswer (Err AnNotActive)) [])
  | CsAnswerSlot id a =>
      let refuse e := (c, (CsExit [AfReturn (MAnswer id a) (RetAnswer (Err e))], None)) in
      match c_interaction c with
      | None => refuse AnInteractionNotFound
      | Some slot =>
          if negb (bool_decide (is_id slot = id)) then refuse AnWrongInteraction
          else
            match InteractionAnswer_validate a (is_expected slot) with
            | Err _ => refuse AnWrongInteraction
            | Ok _ => ((take_slot c).1, (CsAnswerSend id a slot, None))
            end
      end
  | CsAnswerSend id a slot =>
      (with_interaction c (c_interaction c) (<[is_reply slot := OsSent a]> (c_oneshots c)),
       (CsExit [AfReturn (MAnswer id a) (RetAnswer (Ok ()))], None))
  | CsExit after => (c, (CsExit after, None))
  end.

(** A call up to its first access, which it makes unless that is to take the mutex. *)
Definition call_step (c : LoopControl) (m : Method) : LoopControl * (list Frame * option (Method * Ret)) :=
  let returns c r := (c, ([FrAfter (AfReturn m r)], Some (m, r))) in
  let locks cs := (c, ([FrLock cs], None)) in
  match m with
  | MMarkCancel reason =>
      let '(c, won) := mark_cancel_exchange c reason in
      (c, ((if won then [FrFire] else []) ++ [FrAfter (AfReturn m (RetBool won))], Some (m, RetBool won)))
  | MUpdate config =>
      let refuse r := (c, ([FrAfter (AfConfig config); FrAfter (AfReturn m (RetUpdate r))], Some (m, RetUpdate r))) in
      if negb (is_active c) then refuse (Some (Err UpNotActive))
      else
        match validate_against_limits config (c_limits c) with
        | None => refuse None
        | Some (Err _) => refuse (Some (Err UpInvalidConfig))
        | Some (Ok _) => locks (CsUpdateAccepting config)
        end
  | MTakeConfig => locks CsTakeConfig
  | MBeginFinal => locks CsFinalClose
  | MCommitRevision revision => locks (CsCommit revision)
  | MAppliedRevision => locks CsApplied
  | MCancelReason => returns c (RetReason (cancel_reason c))
  | MFinishOnce => locks CsFinishExchange
  | MIsFinished => returns c (RetBool (is_finished c))
  | MPublishState state => returns (publish_state c state) RetUnit
  | MCurrentState => returns c (RetState (current_state c))
  | MSetInteraction slot => locks (CsAsk slot)
  | MTakeInteraction => locks CsTakeSlot
  | MAnswer id a => locks (CsAnswerAccepting id a)
  end.

Definition act_call (p : Method * Ret) : Act * Ret := (ActCall p.1, p.2).

Definition with_stack (t : Thread) (stack : list Frame) : Thread :=
  mkThread stack (th_drops t) (th_history t).

(** One step of a thread; [None] when it has nothing to do, or waits for the mutex. *)
Definition thread_step (tid : nat) (c : LoopControl) (lock : option nat) (t : Thread) :
    option (LoopControl * option nat * Thread * option (Act * Ret)) :=
  match th_stack t with
  | [] => None
  | FrCall m :: rest =>
      let '(c, (next, act)) := call_step c m in
      Some (c, lock, with_stack t (next ++ rest), act_call <$> act)
  | FrFire :: rest => Some (fire_token c, lock, with_stack t rest, Some (ActFire, RetUnit))
  | FrLock cs :: rest =>
      match lock with
      | Some _ => None
      | None => Some (c, Some tid, with_stack t (FrIn cs :: rest), None)
      end
  | FrIn (CsExit after) :: rest => Some (c, None, with_stack t ((FrAfter <$> after) ++ rest), None)
  | FrIn cs :: rest =>
      let '(c, (cs, act)) := section_step c cs in
      Some (c, lock, with_stack t (FrIn cs :: rest), act_call <$> act)
  | FrAfter (AfConfig _) :: rest =>
      Some (c, lock, mkThread ((FrCall <$> default [] (head (th_drops t))) ++ rest)
                       (tail (th_drops t)) (th_history t), None)
  | FrAfter (AfSlot slot) :: rest => Some (drop_slot c slot, lock, with_stack t rest, Some (ActDrop slot, RetUnit))
  | FrAfter (AfReturn m r) :: rest =>
      Some (c, lock, mkThread rest (th_drops t) (th_history t ++ [(m, r)]), None)
  end.

(** The scheduler picks a thread; a thread that cannot step does nothing. *)
Definition sys_step (s : System) (tid : nat) : System :=
  match t ← sy_threads s !! tid; thread_step tid (sy_ctl s) (sy_lock s) t with
  | Some (c, lock, t, act) =>
      mkSystem c lock (<[tid := t]> (sy_threads s)) (sy_log s ++ option_list (pair tid <$> act))
  | None => s
  end.
Definition sys_run (s : System) (schedule : list nat) : System := foldl sys_step s schedule.

(** Threads that are about to make their calls, and what the destructors on them call. *)
Definition sys_start (c : LoopControl) (programs : list (list Method * list (list Method))) : System :=
  mkSystem c None ((λ p, mkThread (FrCall <$> p.1) p.2 []) <$> programs) [].

(** ** The atomic reading *)

(** A method in one step, as [Control] has it; of [mark_cancel], the exchange. *)
Definition method_spec (c : LoopControl) (m : Method) : LoopControl * Ret :=
  match m with
  | MMarkCancel reason => let '(c, won) := mark_cancel_exchange c reason in (c, RetBool won)
  | MUpdate config =>
      match update c config with
      | Some (c, r) => (c, RetUpdate (Some r))
      | None => (c, RetUpdate None)
      end
  | MTakeConfig => let '(c, r) := take_config c in (c, RetTaken r)
  | MBeginFinal => let '(c, r) := begin_final c in (c, RetFinal r)
  | MCommitRevision revision => (commit_revision c revision, RetUnit)
  | MAppliedRevision => (c, RetRevision (applied_revision c))
  | MCancelReason => (c, RetReason (cancel_reason c))
  | MFinishOnce =>
      match finish_once c with
      | Some (c, r) => (c, RetFinish (Some r))
      | None => (c, RetFinish None)
      end
  | MIsFinished => (c, RetBool (is_finished c))
  | MPublishState state => (publish_state c state, RetUnit)
  | MCurrentState => (c, RetState (current_state c))
  | MSetInteraction slot => let '(c, r) := ask_slot c slot in (c, RetSet r)
  | MTakeInteraction => let '(c, r) := take_slot c in (c, RetSlot r)
  | MAnswer id a => let '(c, r) := answer c id a in (c, RetAnswer r)
  end.

Definition act_spec (c : LoopControl) (a : Act) : LoopControl * Ret :=
  match a with
  | ActCall m => method_spec c m
  | ActFire => (fire_token c, RetUnit)
  | ActDrop slot => (drop_slot c slot, RetUnit)
  end.

Fixpoint act_run (c : LoopControl) (acts : list Act) : LoopControl * list Ret :=
  match acts with
  | [] => (c, [])
  | a :: acts =>
      let '(c, r) := act_spec c a in
      let '(c, rs) := act_run c acts in
      (c, r :: rs)
  end.

(** What a section that has taken effect still has to write. *)
Definition settle_cs (cs : Cs) (c : LoopControl) : LoopControl :=
  match cs with
  | CsUpdateNext config =>
      with_config c (c_accepting_updates c) (c_current_revision c) (ConfigRevision_next (c_next_revision c))
        (Some (mkPendingConfig (c_next_revision c) config))
  | CsUpdateReplace config revision => set_pending c (Some (mkPendingConfig revision config))
  | CsFinalTake | CsFinishTake _ => set_pending c None
  | CsFinishClose _ => set_pending (close_updates c) None
  | CsAnswerSlot id a =>
      match c_interaction c with
      | Some slot =>
          if bool_decide (is_id slot = id) && is_ok (InteractionAnswer_validate a (is_expected slot)) then
            with_interaction c None (<[is_reply slot := OsSent a]> (c_oneshots c))
          else c
      | None => c
      end
  | CsAnswerSend _ a slot => with_interaction c (c_interaction c) (<[is_reply slot := OsSent a]> (c_oneshots c))
  | _ => c
  end.

(** The call a section has taken effect for, and what it is going to return. *)
Definition answer_outcome (c : LoopControl) (id : InteractionId) (a : InteractionAnswer) : result AnswerError () :=
  match c_interaction c with
  | None => Err AnInteractionNotFound
  | Some slot =>
      if negb (bool_decide (is_id slot = id)) then Err AnWrongInteraction
      else match InteractionAnswer_validate a (is_expected slot) with
           | Err _ => Err AnWrongInteraction
           | Ok _ => Ok ()
           end
  end.

Definition after_return (a : After) : option (Method * Ret) :=
  match a with AfReturn m r => Some (m, r) | _ => None end.

Definition decided_cs (c : LoopControl) (cs : Cs) : list (Method * Ret) :=
  match cs with
  | CsUpdateNext config => [(MUpdate config, RetUpdate (Some (Ok (c_next_revision c))))]
  | CsUpdateReplace config revision => [(MUpdate config, RetUpdate (Some (Ok revision)))]
  | CsFinalTake => [(MBeginFinal, RetFinal (discarded c))]
  | CsFinishClose finish | CsFinishTake finish => [(MFinishOnce, RetFinish (Some (finish, discarded c)))]
  | CsAnswerSlot id a => [(MAnswer id a, RetAnswer (answer_outcome c id a))]
  | CsAnswerSend id a _ => [(MAnswer id a, RetAnswer (Ok ()))]
  | CsExit after => omap after_return after
  | _ => []
  end.

Definition decided_frame (c : LoopControl) (f : Frame) : list (Method * Ret) :=
  match f with
  | FrIn cs => decided_cs c cs
  | FrAfter a => option_list (after_return a)
  | _ => []
  end.

(** The calls of a stack that have taken effect and not returned yet. *)
Definition undelivered (c : LoopControl) (stack : list Frame) : list (Method * Ret) :=
  stack ≫= decided_frame c.
#[local] Arguments undelivered : simpl never.

(** The control plane once the section under way has written what it has to. *)
Definition holder (s : System) : option Cs :=
  tid ← sy_lock s; t ← sy_threads s !! tid;
  match th_stack t with FrIn cs :: _ => Some cs | _ => None end.
Definition settled (s : System) : LoopControl :=
  match holder s with Some cs => settle_cs cs (sy_ctl s) | None => sy_ctl s end.

(** The calls of a thread, in the order they took effect. *)
Definition thread_call (tid : nat) (e : nat * (Act * Ret)) : option (Method * Ret) :=
  match e with
  | (i, (ActCall m, r)) => if decide (i = tid) then Some (m, r) else None
  | _ => None
  end.
Definition thread_calls (tid : nat) (log : list (nat * (Act * Ret))) : list (Method * Ret) :=
  omap (thread_call tid) log.

(** ** Facts: one access *)

(** What a section knows of the fields while it is under way. *)
Definition section_ok (c : LoopControl) (cs : Cs) : Prop :=
  match cs with
  | CsUpdateAccepting config | CsUpdateActive config =>
      validate_against_limits config (c_limits c) = Some (Ok ()) ∧
      match cs with CsUpdateActive _ => c_accepting_updates c = true | _ => True end
  | CsAnswerActive _ _ => c_accepting_updates c = true
  | CsFinishCancelled cancel =>
      c_state c = cancel ∧ STATE_CANCEL_USER ≤ cancel ≤ STATE_CANCEL_SHUTDOWN
  | _ => True
  end.
(** The places where a section begins. *)
Definition entry (cs : Cs) : bool :=
  match cs with
  | CsUpdateAccepting _ | CsTakeConfig | CsFinalClose | CsCommit _ | CsApplied | CsFinishExchange
  | CsAsk _ | CsTakeSlot | CsAnswerAccepting _ _ => true
  | _ => false
  end.
Definition in_section (cs : Cs) : Prop := match cs with CsExit _ => False | _ => True end.

(** A step of a section: either it takes effect, or what it stands for stays. *)
Definition section_moves (c : LoopControl) (cs : Cs) (c' : LoopControl) (cs' : Cs) (act : option (Method * Ret)) : Prop :=
  section_ok c' cs' ∧
  decided_cs c' cs' ≡ₚ decided_cs c cs ++ option_list act ∧
  match act with
  | Some (m, r) => method_spec (settle_cs cs c) m = (settle_cs cs' c', r)
  | None => settle_cs cs' c' = settle_cs cs c
  end.

Lemma update_refused c config :
  validate_against_limits config (c_limits c) = Some (Ok ()) →
  c_accepting_updates c = false ∨ is_active c = false → update c config = Some (c, Err UpNotActive).
Proof.
  intros Hv Hc. unfold update, update_locked. rewrite Hv. destruct (is_active c); [|done].
  destruct Hc as [->|]; [|done]. done.
Qed.

(** A step that leaves nothing open but the effect. *)
Ltac moves := split; [done|split; [done|]].

Lemma section_update_moves c cs :
  match cs with CsUpdateAccepting _ | CsUpdateActive _ | CsUpdateNext _ | CsUpdateReplace _ _ => True | _ => False end →
  section_ok c cs →
  section_moves c cs (section_step c cs).1 (section_step c cs).2.1 (section_step c cs).2.2.
Proof.
  destruct cs as [config|config|config|config revision| | | | | | | | | | | | | | | |]; try done; intros _ Hok.
  - destruct Hok as [Hv _]. cbn [section_step]. destruct (c_accepting_updates c) eqn:Ea; [by moves|].
    moves. cbn [leave snd method_spec settle_cs]. by rewrite update_refused by auto.
  - destruct Hok as [Hv Ha]. cbn [section_step]. destruct (is_active c) eqn:Es; moves.
    + cbn [snd method_spec settle_cs]. unfold update, update_locked. rewrite Es, Hv, Ha. simpl. by rewrite Ha.
    + cbn [leave snd method_spec settle_cs]. by rewrite update_refused by auto.
  - split; [done|]. cbn. by destruct (c_pending_config c).
Qed.

Lemma section_finish_moves c cs :
  match cs with CsFinishExchange | CsFinishCancelled _ | CsFinishClose _ | CsFinishTake _ => True | _ => False end →
  section_ok c cs →
  section_moves c cs (section_step c cs).1 (section_step c cs).2.1 (section_step c cs).2.2.
Proof.
  destruct cs as [| | | | | | | | | |cancel|finish|finish| | | | | | |]; try done; intros _ Hok.
  - cbn [section_step]. unfold compare_exchange.
    destruct (N.eqb_spec (c_state c) STATE_NONE) as [E0|E0].
    { moves. cbn. unfold finish_once, compare_exchange. by rewrite E0. }
    rewrite (proj2 (N.eqb_neq _ _) E0).
    destruct (_ && _) eqn:Ec; [bools; by moves|].
    destruct (N.eqb_spec (c_state c) STATE_FINISHED) as [E4|E4]; moves; cbn;
      unfold finish_once, compare_exchange; rewrite (proj2 (N.eqb_neq _ _) E0); cbv zeta;
      rewrite (proj2 (N.eqb_neq _ _) E0), Ec.
    + by rewrite E4.
    + by rewrite (proj2 (N.eqb_neq _ _) E4).
  - destruct Hok as [<- Hr]. cbn [section_step].
    assert (c_state c ≠ STATE_NONE) as E0 by (intros E; rewrite E in Hr; by destruct Hr).
    unfold compare_exchange. rewrite N.eqb_refl. moves. cbn. unfold finish_once, compare_exchange.
    rewrite (proj2 (N.eqb_neq _ _) E0), N.eqb_refl. cbv zeta. rewrite (proj2 (N.eqb_neq _ _) E0).
    by rewrite (proj2 (N.leb_le _ _) (proj1 Hr)), (proj2 (N.leb_le _ _) (proj2 Hr)).
Qed.

Lemma answer_open c id a :
  c_accepting_updates c = true → is_active c = true →
  answer c id a = (settle_cs (CsAnswerSlot id a) c, answer_outcome c id a).
Proof.
  intros Ha Hs. unfold answer, answer_outcome. rewrite Ha, Hs. cbn.
  destruct (c_interaction c) as [slot|]; [|done]. case_bool_decide; [|done]. cbn.
  by destruct (InteractionAnswer_validate _ _) as [[]|].
Qed.
Lemma answer_refused c id a :
  c_accepting_updates c = false ∨ is_active c = false → answer c id a = (c, Err AnNotActive).
Proof. intros Hc. unfold answer. destruct Hc as [->| ->]; [done|]. by rewrite orb_true_r. Qed.

Lemma section_answer_moves c cs :
  match cs with CsAnswerAccepting _ _ | CsAnswerActive _ _ | CsAnswerSlot _ _ | CsAnswerSend _ _ _ => True | _ => False end →
  section_ok c cs →
  section_moves c cs (section_step c cs).1 (section_step c cs).2.1 (section_step c cs).2.2.
Proof.
  destruct cs as [| | | | | | | | | | | | | | |id a|id a|id a|id a slot|]; try done; intros _ Hok; cbn [section_step].
  - destruct (c_accepting_updates c) eqn:Ea; [by moves|moves].
    cbn [snd leave method_spec settle_cs]. by rewrite answer_refused by auto.
  - cbn in Hok. destruct (is_active c) eqn:Es; [rewrite answer_open by done|]; moves;
      cbn [snd leave method_spec settle_cs].
    + by rewrite answer_open.
    + by rewrite answer_refused by auto.
  - unfold section_moves. cbn [decided_cs settle_cs]. unfold answer_outcome.
    destruct (c_interaction c) as [slot|] eqn:Ei; [|by cbn].
    destruct (bool_decide (is_id slot = id)); [|by cbn].
    by destruct (InteractionAnswer_validate a (is_expected slot)) as [[]|] eqn:Ev.
Qed.

Lemma section_moves_step c cs :
  in_section cs → section_ok c cs →
  section_moves c cs (section_step c cs).1 (section_step c cs).2.1 (section_step c cs).2.2.
Proof.
  intros Hin Hok. destruct cs; try done;
    try (by apply section_update_moves); try (by apply section_finish_moves); try (by apply section_answer_moves).
  all: cbn [section_step]; try (by moves).
  - unfold ask_slot. destruct (c_interaction c) eqn:Ei; moves; cbn; unfold ask_slot; by rewrite Ei.
  - split; [done|]. cbn. by destruct (c_interaction c).
Qed.

(** ** Facts: what other threads do meanwhile *)

(** A section never writes the state byte behind its effect, nor the limits. *)
Lemma settle_state cs c : c_state (settle_cs cs c) = c_state c ∧ c_limits (settle_cs cs c) = c_limits c.
Proof.
  destruct cs; try done. cbn. destruct (c_interaction c); [|done]. by destruct (_ && _).
Qed.
Lemma settle_active cs c : is_active (settle_cs cs c) = is_active c.
Proof. unfold is_active. by rewrite (proj1 (settle_state cs c)). Qed.
Lemma settle_published_value cs c : c_published (settle_cs cs c) = c_published c.
Proof. destruct cs; try done. cbn. destruct (c_interaction c); [|done]. by destruct (_ && _). Qed.

(** What it writes commutes with what needs no mutex. *)
Lemma settle_with_state cs c v : settle_cs cs (with_state c v) = with_state (settle_cs cs c) v.
Proof. destruct cs; try done. cbn. destruct (c_interaction c); [|done]. by destruct (_ && _). Qed.
Lemma settle_with_published cs c v : settle_cs cs (with_published c v) = with_published (settle_cs cs c) v.
Proof. destruct cs; try done. cbn. destruct (c_interaction c); [|done]. by destruct (_ && _). Qed.
Lemma settle_with_cancel cs c v : settle_cs cs (with_cancel c v) = with_cancel (settle_cs cs c) v.
Proof. destruct cs; try done. cbn. destruct (c_interaction c); [|done]. by destruct (_ && _). Qed.

Lemma drop_sender_sent os i j a : drop_sender (<[i := OsSent a]> os) j = <[i := OsSent a]> (drop_sender os j).
Proof.
  unfold drop_sender. destruct (decide (i = j)) as [->|Hij].
  - destruct (os !! j) as [o|] eqn:Ej.
    + rewrite list_lookup_insert_eq by (by eapply lookup_lt_Some).
      destruct o; [|done..]. by rewrite list_insert_insert_eq.
    + rewrite list_insert_ge by (by apply lookup_ge_None). by rewrite Ej.
  - rewrite list_lookup_insert_ne by done. destruct (os !! j) as [[]|]; try done. by apply list_insert_insert_ne.
Qed.
Lemma settle_drop_slot cs c slot : settle_cs cs (drop_slot c slot) = drop_slot (settle_cs cs c) slot.
Proof.
  destruct cs; try done; cbn.
  - destruct (c_interaction c); [|done]. destruct (_ && _); [|done]. cbn. unfold drop_slot, with_interaction. simpl.
    by rewrite drop_sender_sent.
  - unfold drop_slot, with_interaction. simpl. by rewrite drop_sender_sent.
Qed.

(** A step outside the mutex, seen by whatever section is under way. *)
Definition outside_move (c c' : LoopControl) (act : option (Act * Ret)) : Prop :=
  c_limits c' = c_limits c ∧
  ∀ cs, section_ok c cs →
    section_ok c' cs ∧ decided_cs c' cs = decided_cs c cs ∧
    match act with
    | Some (a, r) => act_spec (settle_cs cs c) a = (settle_cs cs c', r)
    | None => settle_cs cs c' = settle_cs cs c
    end.

(** One that changes none of the fields the sections look at. *)
Lemma outside_move_still c c' act :
  c_limits c' = c_limits c → c_state c' = c_state c → c_accepting_updates c' = c_accepting_updates c →
  c_next_revision c' = c_next_revision c → c_pending_config c' = c_pending_config c →
  c_interaction c' = c_interaction c →
  (∀ cs, match act with
    | Some (a, r) => act_spec (settle_cs cs c) a = (settle_cs cs c', r)
    | None => settle_cs cs c' = settle_cs cs c
    end) →
  outside_move c c' act.
Proof.
  intros El Es Ea En Ep Ei Hact. split; [done|]. intros cs Hok. split_and!; [| |apply Hact].
  - destruct cs; cbn in *; by rewrite ?El, ?Es, ?Ea.
  - destruct cs; cbn in *; unfold discarded, answer_outcome; by rewrite ?En, ?Ep, ?Ei.
Qed.

Lemma cancel_outside c reason :
  outside_move c (mark_cancel_exchange c reason).1
    (Some (ActCall (MMarkCancel reason), RetBool (mark_cancel_exchange c reason).2)).
Proof.
  unfold mark_cancel_exchange, compare_exchange. destruct (N.eqb_spec (c_state c) STATE_NONE) as [E0|E0].
  - split; [done|]. intros cs Hok. split_and!.
    + destruct cs; try done. destruct Hok as [<- Hr]. rewrite E0 in Hr. by destruct Hr.
    + by destruct cs.
    + cbn. unfold mark_cancel_exchange, compare_exchange.
      by rewrite (proj1 (settle_state cs c)), E0, settle_with_state.
  - apply outside_move_still; try done. intros cs. cbn. unfold mark_cancel_exchange, compare_exchange.
    by rewrite (proj1 (settle_state cs c)), (proj2 (N.eqb_neq _ _) E0).
Qed.

Lemma call_step_outside c m :
  outside_move c (call_step c m).1 (act_call <$> (call_step c m).2.2).
Proof.
  destruct m; cbn [call_step]; try (apply outside_move_still; done).
  - pose proof (cancel_outside c reason) as Hc. by destruct (mark_cancel_exchange c reason).
  - destruct (negb (is_active c)) eqn:Ea; bools; [|destruct (validate_against_limits _ _) as [[[]|]|] eqn:Ev];
      apply outside_move_still; try done; intros cs; cbn; unfold update;
      rewrite settle_active, Ea, ?(proj2 (settle_state cs c)), ?Ev; done.
  - apply outside_move_still; try done. intros cs. cbn. unfold cancel_reason. by rewrite (proj1 (settle_state cs c)).
  - apply outside_move_still; try done. intros cs. cbn. unfold is_finished. by rewrite (proj1 (settle_state cs c)).
  - apply outside_move_still; try done. intros cs. cbn. unfold publish_state. by rewrite settle_with_published.
  - apply outside_move_still; try done. intros cs. cbn. unfold current_state. by rewrite settle_published_value.
Qed.

Lemma fire_outside c : outside_move c (fire_token c) (Some (ActFire, RetUnit)).
Proof. apply outside_move_still; try done. intros cs. cbn. unfold fire_token. by rewrite settle_with_cancel. Qed.
Lemma drop_slot_outside c slot : outside_move c (drop_slot c slot) (Some (ActDrop slot, RetUnit)).
Proof. apply outside_move_still; try done. intros cs. cbn. by rewrite settle_drop_slot. Qed.
Lemma idle_outside c : outside_move c c None.
Proof. by apply outside_move_still. Qed.

(** No section writes the limits. *)
Lemma section_step_limits c cs : c_limits (section_step c cs).1 = c_limits c.
Proof.
  destruct cs; try done; cbn; unfold compare_exchange, ask_slot; repeat case_match; simplify_eq/=; done.
Qed.

(** ** Facts: the system *)

Definition outer (f : Frame) : Prop := match f with FrIn _ | FrLock _ => False | _ => True end.

(** Only the top frame is inside a section, and only while its thread has the mutex. *)
Definition shape (c : LoopControl) (lock : option nat) (tid : nat) (stack : list Frame) : Prop :=
  match stack with
  | FrIn cs :: rest => lock = Some tid ∧ section_ok c cs ∧ Forall outer rest
  | FrLock cs :: rest => lock ≠ Some tid ∧ section_ok c cs ∧ entry cs = true ∧ Forall outer rest
  | _ => lock ≠ Some tid ∧ Forall outer stack
  end.

Definition acts (log : list (nat * (Act * Ret))) : list Act := (λ e, e.2.1) <$> log.
Definition rets (log : list (nat * (Act * Ret))) : list Ret := (λ e, e.2.2) <$> log.

Record sys_inv (c0 : LoopControl) (s : System) : Prop := {
  si_lock : ∀ tid, sy_lock s = Some tid → is_Some (sy_threads s !! tid);
  si_shape : ∀ tid t, sy_threads s !! tid = Some t → shape (sy_ctl s) (sy_lock s) tid (th_stack t);
  si_calls : ∀ tid t, sy_threads s !! tid = Some t →
    thread_calls tid (sy_log s) ≡ₚ th_history t ++ undelivered (sy_ctl s) (th_stack t);
  si_run : act_run c0 (acts (sy_log s)) = (settled s, rets (sy_log s));
}.

Lemma act_run_snoc c l a :
  act_run c (l ++ [a]) =
    let '(c1, rs) := act_run c l in let '(c2, r) := act_spec c1 a in (c2, rs ++ [r]).
Proof.
  revert c. induction l as [|b l IH]; intros c; cbn [act_run app].
  - by destruct (act_spec c a).
  - destruct (act_spec c b) as [c1 r]. rewrite IH. destruct (act_run c1 l) as [c2 rs].
    by destruct (act_spec c2 a).
Qed.

Definition opt_calls (act : option (Act * Ret)) : list (Method * Ret) :=
  match act with Some (ActCall m, r) => [(m, r)] | _ => [] end.

Lemma thread_calls_log tid i log act :
  thread_calls tid (log ++ option_list (pair i <$> act)) =
    thread_calls tid log ++ (if decide (i = tid) then opt_calls act else []).
Proof.
  unfold thread_calls. rewrite omap_app. f_equal.
  destruct act as [[[m| |slot] r]|]; cbn; by case_decide.
Qed.

Lemma opt_calls_act p : opt_calls (act_call <$> p) = option_list p.
Proof. by destruct p as [[]|]. Qed.

Lemma undelivered_cons c f stack : undelivered c (f :: stack) = decided_frame c f ++ undelivered c stack.
Proof. done. Qed.
Lemma undelivered_app c s1 s2 : undelivered c (s1 ++ s2) = undelivered c s1 ++ undelivered c s2.
Proof. apply bind_app. Qed.

(** Where no section is on top, what is undelivered does not depend on the fields. *)
Lemma undelivered_outer c c' stack : Forall outer stack → undelivered c stack = undelivered c' stack.
Proof.
  unfold undelivered. induction 1 as [|f stack Hf _ IH]; [done|]. rewrite !bind_cons, IH. f_equal.
  by destruct f.
Qed.

Lemma undelivered_top c c' f rest :
  decided_frame c f = decided_frame c' f → Forall outer rest →
  undelivered c (f :: rest) = undelivered c' (f :: rest).
Proof.
  intros Hf Hr. unfold undelivered. rewrite !bind_cons, Hf. f_equal. by apply undelivered_outer.
Qed.

(** What a step has to show: for its own thread, for the others, and for the log. *)
Lemma sys_inv_update c0 s tid t c' lock' t' act :
  sys_inv c0 s → sy_threads s !! tid = Some t →
  let s' := mkSystem c' lock' (<[tid := t']> (sy_threads s)) (sy_log s ++ option_list (pair tid <$> act)) in
  (∀ i, lock' = Some i → i = tid ∨ sy_lock s = Some i) →
  shape c' lock' tid (th_stack t') →
  th_history t' ++ undelivered c' (th_stack t')
    ≡ₚ (th_history t ++ undelivered (sy_ctl s) (th_stack t)) ++ opt_calls act →
  (∀ i u, i ≠ tid → shape (sy_ctl s) (sy_lock s) i (th_stack u) →
     shape c' lock' i (th_stack u) ∧ undelivered c' (th_stack u) = undelivered (sy_ctl s) (th_stack u)) →
  match act with
  | Some (a, r) => act_spec (settled s) a = (settled s', r)
  | None => settled s' = settled s
  end →
  sys_inv c0 s'.
Proof.
  intros Hi Ht s' Hl Hs Hc Ho Ha.
  assert (∀ i u, sy_threads s' !! i = Some u → i = tid ∧ u = t' ∨ i ≠ tid ∧ sy_threads s !! i = Some u) as Hthr.
  { intros i u [(<- & <- & _)|[? ?]]%list_lookup_insert_Some; auto. }
  split.
  - intros i Hlk. cbn in Hlk |- *. apply lookup_lt_is_Some. rewrite length_insert. apply lookup_lt_is_Some.
    destruct (Hl i Hlk) as [->|Hlk']; [by exists t|by apply (si_lock _ _ Hi)].
  - intros i u [[-> ->]|[Hne Hu]]%Hthr; [done|]. apply Ho; [done|]. by apply (si_shape _ _ Hi).
  - intros i u Hu. cbn [sy_log s']. rewrite thread_calls_log. apply Hthr in Hu as [[-> ->]|[Hne Hu]].
    + rewrite decide_True by done. rewrite (si_calls _ _ Hi tid t Ht). by symmetry.
    + rewrite decide_False by done. rewrite app_nil_r, (si_calls _ _ Hi i u Hu). cbn [sy_ctl s'].
      by rewrite (proj2 (Ho i u Hne (si_shape _ _ Hi i u Hu))).
  - unfold acts, rets. cbn [sy_log s']. rewrite !fmap_app. fold (acts (sy_log s)) (rets (sy_log s)).
    destruct act as [[a r]|]; cbn; [|by rewrite !app_nil_r, (si_run _ _ Hi), Ha].
    by rewrite act_run_snoc, (si_run _ _ Hi), Ha.
Qed.

(** The others while this thread has, takes or gives back the mutex. *)
Lemma others_locked c c' lock lock' tid i stack :
  i ≠ tid → (lock = None ∨ lock = Some tid) → (lock' = None ∨ lock' = Some tid) → c_limits c' = c_limits c →
  shape c lock i stack → shape c' lock' i stack ∧ undelivered c' stack = undelivered c stack.
Proof.
  intros Hne Hl Hl' El Hs.
  assert (lock ≠ Some i) as Hi by (destruct Hl; congruence).
  assert (lock' ≠ Some i) as Hi' by (destruct Hl'; congruence).
  destruct stack as [|[m| |cs|cs|a] rest]; cbn [shape] in *; try tauto.
  3: { destruct Hs as (_ & Hok & He & Ho). split; [|by apply undelivered_top].
       split_and!; try done. destruct cs; try done. cbn in *. by rewrite El. }
  all: destruct Hs as [_ Ho]; split; [by split|by apply undelivered_outer].
Qed.

(** The others while this thread moves outside the mutex. *)
Lemma others_outside c c' act lock i stack :
  outside_move c c' act → shape c lock i stack →
  shape c' lock i stack ∧ undelivered c' stack = undelivered c stack.
Proof.
  intros [El Hm] Hs. destruct stack as [|[m| |cs|cs|a] rest]; cbn [shape] in *.
  4: { destruct Hs as (Hl & Hok & He & Ho). split; [by split_and!; [|apply Hm|..]|by apply undelivered_top]. }
  4: { destruct Hs as (Hl & Hok & Ho). destruct (Hm cs Hok) as (Hok' & Hd & _). split; [by split_and!|].
       by apply undelivered_top. }
  all: destruct Hs as [Hl Ho]; split; [by split|by apply undelivered_outer].
Qed.

Lemma settled_in s tid t cs rest :
  sy_lock s = Some tid → sy_threads s !! tid = Some t → th_stack t = FrIn cs :: rest →
  settled s = settle_cs cs (sy_ctl s).
Proof. intros Hl Ht Hs. unfold settled, holder. by rewrite Hl; cbn; rewrite Ht; cbn; rewrite Hs. Qed.
Lemma settled_free s : sy_lock s = None → settled s = sy_ctl s.
Proof. intros Hl. unfold settled, holder. by rewrite Hl. Qed.

Lemma holder_ok c0 s cs : sys_inv c0 s → holder s = Some cs → section_ok (sy_ctl s) cs.
Proof.
  intros Hi Hh. unfold holder in Hh. apply bind_Some in Hh as (tid & Hl & Hh).
  apply bind_Some in Hh as (t & Ht & Hh). pose proof (si_shape _ _ Hi tid t Ht) as Hs.
  destruct (th_stack t) as [|[| | |cs'|] rest]; try done. injection Hh as ->. apply Hs.
Qed.

Lemma sys_inv_outside c0 s tid t c' t' act :
  sys_inv c0 s → sy_threads s !! tid = Some t → sy_lock s ≠ Some tid →
  outside_move (sy_ctl s) c' act → shape c' (sy_lock s) tid (th_stack t') →
  th_history t' ++ undelivered c' (th_stack t')
    ≡ₚ (th_history t ++ undelivered (sy_ctl s) (th_stack t)) ++ opt_calls act →
  sys_inv c0 (mkSystem c' (sy_lock s) (<[tid := t']> (sy_threads s)) (sy_log s ++ option_list (pair tid <$> act))).
Proof.
  intros Hi Ht Hl Hm Hs Hc. eapply sys_inv_update; [done..|auto|done|done| |].
  - intros i u _ Hu. by eapply others_outside.
  - set (s' := mkSystem _ _ _ _). assert (holder s' = holder s) as Hh.
    { unfold holder. cbn. destruct (sy_lock s) as [i|]; [|done]. cbn. rewrite list_lookup_insert_ne by congruence. done. }
    unfold settled. rewrite Hh. destruct (holder s) as [cs|] eqn:Eh.
    + by apply Hm, (holder_ok c0 s).
    + destruct Hm as [_ Hm]. by apply (Hm (CsExit [])).
Qed.

Lemma outer_shape c lock tid stack : lock ≠ Some tid → Forall outer stack → shape c lock tid stack.
Proof.
  intros Hl Ho. destruct stack as [|[] ?]; cbn; try done; by apply Forall_cons in Ho as [[] _].
Qed.

(** A call's own frame gives way to what the call does next. *)
Lemma call_step_frames c lock tid m rest :
  lock ≠ Some tid → Forall outer rest →
  shape (call_step c m).1 lock tid ((call_step c m).2.1 ++ rest) ∧
  undelivered (call_step c m).1 ((call_step c m).2.1 ++ rest)
    = option_list (call_step c m).2.2 ++ undelivered c rest.
Proof.
  intros Hl Ho.
  assert (∀ fs c1, Forall outer fs → shape c1 lock tid (fs ++ rest)) as Hshape.
  { intros fs c1 Hfs. apply outer_shape; [done|]. by apply Forall_app. }
  assert (∀ c1 fs, undelivered c1 (fs ++ rest) = undelivered c1 fs ++ undelivered c rest) as Hund.
  { intros c1 fs. unfold undelivered at 1 2. rewrite bind_app. f_equal. by apply undelivered_outer. }
  rewrite Hund. destruct m; cbn [call_step];
    try (by (split; [apply Hshape; by repeat constructor|done]));
    try (by (split; [by split_and!|done])).
  - destruct (mark_cancel_exchange c reason) as [c1 []]; split; try done; apply Hshape; by repeat constructor.
  - destruct (negb (is_active c)); [|destruct (validate_against_limits _ _) as [[[]|]|] eqn:Ev];
      (split; [|done]); try (apply Hshape; by repeat constructor). by split_and!.
Qed.

(** Every step keeps the invariant. *)
Lemma sys_inv_locked c0 s tid t cs rest :
  sys_inv c0 s → sy_threads s !! tid = Some t → th_stack t = FrIn cs :: rest → in_section cs →
  let st := section_step (sy_ctl s) cs in
  sys_inv c0 (mkSystem st.1 (sy_lock s) (<[tid := with_stack t (FrIn st.2.1 :: rest)]> (sy_threads s))
    (sy_log s ++ option_list (pair tid <$> (act_call <$> st.2.2)))).
Proof.
  intros Hi Ht Est Hin st. pose proof (si_shape _ _ Hi tid t Ht) as Hs. rewrite Est in Hs.
  destruct Hs as (Hl & Hok & Ho). destruct (section_moves_step _ _ Hin Hok) as (Hok' & Hd & Heff). fold st in Hok', Hd, Heff.
  assert (c_limits st.1 = c_limits (sy_ctl s)) as El by apply section_step_limits.
  eapply sys_inv_update; [done..|auto| | | |].
  - by split_and!.
  - cbn [with_stack th_history th_stack]. rewrite Est, opt_calls_act, <- app_assoc. f_equiv.
    rewrite !undelivered_cons. cbn [decided_frame].
    rewrite Hd, (undelivered_outer st.1 (sy_ctl s) rest Ho), <- !app_assoc. f_equiv. apply Permutation_app_comm.
  - intros i u Hne Hu. eapply others_locked; [done|by right|by right|done|done].
  - rewrite (settled_in s tid t cs rest) by done.
    rewrite (settled_in _ tid (with_stack t (FrIn st.2.1 :: rest)) st.2.1 rest);
      [|done|by apply list_lookup_insert_eq, (lookup_lt_Some _ _ t)|done].
    by destruct st.2.2 as [[m r]|].
Qed.

Lemma sys_inv_enter c0 s tid t cs rest :
  sys_inv c0 s → sy_threads s !! tid = Some t → th_stack t = FrLock cs :: rest → sy_lock s = None →
  sys_inv c0 (mkSystem (sy_ctl s) (Some tid) (<[tid := with_stack t (FrIn cs :: rest)]> (sy_threads s))
    (sy_log s ++ [])).
Proof.
  intros Hi Ht Est Hl. pose proof (si_shape _ _ Hi tid t Ht) as Hs. rewrite Est in Hs. destruct Hs as (_ & Hok & He & Ho).
  eapply (sys_inv_update c0 s tid t _ _ _ None); [done..| | | | |].
  - intros i [= ->]. by left.
  - by split_and!.
  - cbn. rewrite Est, app_nil_r. rewrite !undelivered_cons. by destruct cs.
  - intros i u Hne Hu. eapply others_locked; [done|by left|by right|done|done].
  - rewrite (settled_free s Hl).
    rewrite (settled_in _ tid (with_stack t (FrIn cs :: rest)) cs rest);
      [|done|by apply list_lookup_insert_eq, (lookup_lt_Some _ _ t)|done].
    by destruct cs.
Qed.

Lemma after_undelivered c after : undelivered c (FrAfter <$> after) = omap after_return after.
Proof.
  induction after as [|a after IH]; [done|]. rewrite fmap_cons, undelivered_cons, IH. by destruct a.
Qed.

Lemma calls_undelivered c calls : undelivered c (FrCall <$> calls) = [].
Proof. by induction calls. Qed.

Lemma sys_inv_exit c0 s tid t after rest :
  sys_inv c0 s → sy_threads s !! tid = Some t → th_stack t = FrIn (CsExit after) :: rest →
  sys_inv c0 (mkSystem (sy_ctl s) None (<[tid := with_stack t ((FrAfter <$> after) ++ rest)]> (sy_threads s))
    (sy_log s ++ [])).
Proof.
  intros Hi Ht Est. pose proof (si_shape _ _ Hi tid t Ht) as Hs. rewrite Est in Hs. destruct Hs as (Hl & Hok & Ho).
  eapply (sys_inv_update c0 s tid t _ _ _ None); [done..| | | |].
  - apply outer_shape; [done|]. apply Forall_app. split; [|done]. by apply Forall_fmap, Forall_true.
  - cbn. rewrite Est, app_nil_r. f_equiv. rewrite undelivered_app, undelivered_cons. apply Permutation_app_tail.
    by rewrite after_undelivered.
  - intros i u Hne Hu. eapply others_locked; [done|by right|by left|done|done].
  - rewrite settled_free by done. by rewrite (settled_in s tid t (CsExit after) rest).
Qed.

Lemma sys_step_inv c0 s tid : sys_inv c0 s → sys_inv c0 (sys_step s tid).
Proof.
  intros Hi. unfold sys_step. destruct (sy_threads s !! tid) as [t|] eqn:Ht; [|done]. cbn [mbind option_bind].
  pose proof (si_shape _ _ Hi tid t Ht) as Hs. unfold thread_step. destruct (th_stack t) as [|f rest] eqn:Est; [done|].
  destruct f as [m| |cs|cs|a]; cbn [shape] in Hs.
  - destruct Hs as [Hl [_ Ho]%Forall_cons]. pose proof (call_step_outside (sy_ctl s) m) as Hm.
    pose proof (call_step_frames (sy_ctl s) (sy_lock s) tid m rest Hl Ho) as [Hs' Hu].
    destruct (call_step (sy_ctl s) m) as [c' [next act]]. cbn in Hs', Hu, Hm.
    apply (sys_inv_outside c0 s tid t); try done.
    cbn. rewrite Hu, Est, opt_calls_act. rewrite undelivered_cons. cbn.
    rewrite <- app_assoc. f_equiv. apply Permutation_app_comm.
  - destruct Hs as [Hl [_ Ho]%Forall_cons]. apply (sys_inv_outside c0 s tid t); [done..|apply fire_outside|by apply outer_shape|].
    cbn. rewrite Est, app_nil_r. rewrite undelivered_cons. by rewrite (undelivered_outer _ (sy_ctl s)).
  - destruct (sy_lock s) eqn:Hl; [done|]. by apply (sys_inv_enter c0 s tid t cs rest).
  - pose proof (sys_inv_locked c0 s tid t cs rest Hi Ht Est) as Hstep.
    destruct cs; try (specialize (Hstep I); revert Hstep; by destruct (section_step _ _) as [? [? ?]]).
    by apply (sys_inv_exit c0 s tid t after rest).
  - destruct Hs as [Hl [_ Ho]%Forall_cons]. destruct a as [config|slot|m r].
    + apply (sys_inv_outside c0 s tid t _ _ None); [done..|apply idle_outside| |].
      * apply outer_shape; [done|]. apply Forall_app. split; [|done]. by apply Forall_fmap, Forall_true.
      * cbn. rewrite Est, app_nil_r. by rewrite undelivered_app, undelivered_cons, calls_undelivered.
    + apply (sys_inv_outside c0 s tid t); [done..|apply drop_slot_outside|by apply outer_shape|].
      cbn. rewrite Est, app_nil_r. rewrite undelivered_cons. by rewrite (undelivered_outer _ (sy_ctl s)).
    + apply (sys_inv_outside c0 s tid t _ _ None); [done..|apply idle_outside|by apply outer_shape|].
      cbn. rewrite Est, app_nil_r. rewrite undelivered_cons. by rewrite <- app_assoc.
Qed.

Lemma sys_run_inv c0 schedule : ∀ s, sys_inv c0 s → sys_inv c0 (sys_run s schedule).
Proof.
  unfold sys_run. induction schedule as [|tid l IH]; intros s Hi; [done|]. by apply IH, sys_step_inv.
Qed.

Lemma sys_start_inv c programs : sys_inv c (sys_start c programs).
Proof.
  split; [done|..|done].
  - intros tid t (p & -> & _)%list_lookup_fmap_Some. apply outer_shape; [done|].
    by apply Forall_fmap, Forall_true.
  - intros tid t (p & -> & _)%list_lookup_fmap_Some. cbn. by rewrite calls_undelivered.
Qed.

(** ** Facts: the steps of [Control] *)

Lemma ctl_run_app c ops1 ops2 :
  (ctl_run c (ops1 ++ ops2)).1 = (ctl_run (ctl_run c ops1).1 ops2).1.
Proof.
  revert c. induction ops1 as [|op ops IH]; intros c; [done|]. cbn. destruct (ctl_op c op) as [c1 r].
  specialize (IH c1). by destruct (ctl_run c1 (ops ++ ops2)), (ctl_run c1 ops).
Qed.

Lemma ctl_run_one c op : (ctl_run c [op]).1 = (ctl_op c op).1.
Proof. cbn. by destruct (ctl_op c op). Qed.

(** What takes effect is at most one step of [Control]. *)
Lemma act_ctl c a : ∃ ops, (ctl_run c ops).1 = (act_spec c a).1.
Proof.
  assert (∀ c1, c1 = c → ∃ ops, (ctl_run c ops).1 = c1) as Hnone by (intros c1 ->; by exists []).
  assert (∀ op c1, (ctl_op c op).1 = c1 → ∃ ops, (ctl_run c ops).1 = c1) as Hone.
  { intros op c1 <-. exists [op]. apply ctl_run_one. }
  destruct a as [m| |slot]; cbn; [|by apply (Hone CoFireToken)|by apply (Hone (CoDropSlot slot))].
  destruct m; cbn; try (by apply Hnone).
  - apply (Hone (CoCancel reason)). cbn. by destruct (mark_cancel_exchange c reason).
  - unfold update. destruct (negb (is_active c)); [by apply Hnone|].
    destruct (validate_against_limits _ _) as [[[]|]|]; [|by apply Hnone..].
    apply (Hone (CoUpdate config)). cbn. by destruct (update_locked c config).
  - by apply (Hone CoTakeConfig).
  - by apply (Hone CoBeginFinal).
  - by apply (Hone (CoCommit revision)).
  - apply (Hone CoFinish). cbn. by destruct (finish_once c) as [[? []]|].
  - by apply (Hone (CoPublish state)).
  - apply (Hone (CoAskSlot slot)). cbn. by destruct (ask_slot c slot).
  - by apply (Hone CoTakeSlot).
  - apply (Hone (CoAnswer id a)). cbn. by destruct (answer c id a).
Qed.

Lemma act_run_ctl l : ∀ c, ∃ ops, (ctl_run c ops).1 = (act_run c l).1.
Proof.
  induction l as [|a l IH]; intros c; [by exists []|]. destruct (act_ctl c a) as [ops1 H1]. cbn.
  destruct (act_spec c a) as [c1 r]. cbn in H1. destruct (IH c1) as [ops2 H2].
  exists (ops1 ++ ops2). rewrite ctl_run_app, H1, H2. by destruct (act_run c1 l).
Qed.

(** The seal never meets a state byte it does not know. *)
Lemma act_spec_reachable c a : state_ok c → (act_spec c a).2 ≠ RetFinish None.
Proof.
  intros Hc. destruct a as [m| |slot]; [|done..]. destruct m; cbn; try done.
  - by destruct (mark_cancel_exchange c reason).
  - by destruct (update c config) as [[]|].
  - by destruct (finish_once_spec c Hc) as (seal & -> & _).
  - by destruct (ask_slot c slot).
  - by destruct (answer c id a).
Qed.
Lemma act_run_reachable l : ∀ c, state_ok c → RetFinish None ∉ (act_run c l).2.
Proof.
  induction l as [|a l IH]; intros c Hc; cbn; [by intros ?%elem_of_nil|].
  pose proof (act_spec_reachable c a Hc) as Hr. destruct (act_ctl c a) as [ops Hops].
  pose proof (ctl_run_ok ops c Hc) as Hc1. rewrite Hops in Hc1. destruct (act_spec c a) as [c1 r].
  specialize (IH c1 Hc1). destruct (act_run c1 l) as [c2 rs]. cbn in *.
  intros [?|?]%elem_of_cons; [congruence|done].
Qed.

Lemma sys_step_log s tid : sy_log s `prefix_of` sy_log (sys_step s tid).
Proof.
  unfold sys_step. destruct (_ ≫= _) as [[[[c l] t] act]|]; [|done]. by apply prefix_app_r.
Qed.
Lemma sys_run_log schedule : ∀ s, sy_log s `prefix_of` sy_log (sys_run s schedule).
Proof.
  unfold sys_run. induction schedule as [|tid l IH]; intros s; [done|]. cbn.
  etransitivity; [apply sys_step_log|apply IH].
Qed.

(** ** Property *)

(** C10: the methods of the control plane are atomic although their accesses are not.
    Let any threads make any calls, let destructors call back, and let the accesses
    interleave in any way. Then there is an order of the calls in which each takes
    effect between its first access and its return; made one after another in this
    order they return what they do return, and leave the control plane as it is up to
    the writes of the section under way. The order only grows, it holds of each thread
    just the calls that returned and those sure of what they will return, neither
    [unreachable!] is met, and it is a conversation with the abstract machine. *)
Theorem control_linearizable id capacity limits c0 sink (before : list CtlOp)
    (programs : list (list Method * list (list Method))) (schedule later : list nat) :
  LoopControl_new id capacity limits = Ok (c0, sink) →
  let c := (ctl_run c0 before).1 in
  let s := sys_run (sys_start c programs) schedule in
  act_run c (acts (sy_log s)) = (settled s, rets (sy_log s)) ∧
  RetFinish None ∉ rets (sy_log s) ∧
  (∀ tid t, sy_threads s !! tid = Some t →
     thread_calls tid (sy_log s) ≡ₚ th_history t ++ undelivered (sy_ctl s) (th_stack t)) ∧
  sy_log s `prefix_of` sy_log (sys_run s later) ∧
  ∃ ops a, (ctl_run c0 (before ++ ops)).1 = settled s ∧
    spec_run (spec_new id) (zip (before ++ ops) (ctl_run c0 (before ++ ops)).2) a ∧ shows (settled s) a.
Proof.
  intros Hnew c s. assert (sys_inv c s) as Hi by apply sys_run_inv, sys_start_inv.
  pose proof (si_run _ _ Hi) as Hrun. split; [done|]. split; [|split; [apply Hi|split; [apply sys_run_log|]]].
  - assert (state_ok c0) as Hc0 by (eapply ctl_inv_state_ok, ctl_inv_new, Hnew).
    pose proof (act_run_reachable (acts (sy_log s)) c (ctl_run_ok before c0 Hc0)) as Hr. by rewrite Hrun in Hr.
  - destruct (act_run_ctl (acts (sy_log s)) c) as [ops Hops]. rewrite Hrun in Hops. cbn in Hops.
    destruct (spec_simulates_run (before ++ ops) c0 _ (shows_new _ _ _ _ _ Hnew)) as (a & Ha & Hs).
    assert ((ctl_run c0 (before ++ ops)).1 = settled s) as E by (by rewrite ctl_run_app).
    exists ops, a. by rewrite E in Hs.
Qed.
End locking.
