(* ===== verification/LockProgress.v ===== *)
(** * The mutex of the control plane never gets stuck

    On the threads of [Locking]: the mutex is held only by a thread that is inside a
    critical section, which calls nobody and waits for nothing; so some thread can
    always step, every step uses up work, and a scheduler that keeps picking every
    thread brings all calls to their return. *)

From S2P Require Import Prelude Text Json Ids Limits ToolTypes ModelError Message Request History Event Control ControlSpec Locking.

Section progress.
Context `{SerdeJson}.

(** ** Work: the steps a thread can still take *)

Definition cs_work (cs : Cs) : nat :=
  match cs with
  | CsUpdateAccepting _ => 7
  | CsUpdateActive _ => 6
  | CsUpdateNext _ => 5
  | CsUpdateReplace _ _ => 4
  | CsFinishExchange | CsAnswerAccepting _ _ => 6
  | CsFinishCancelled _ | CsAnswerActive _ _ => 5
  | CsFinalClose | CsFinishClose _ | CsAsk _ | CsTakeSlot | CsAnswerSlot _ _ => 4
  | CsTakeConfig | CsFinalTake | CsCommit _ | CsApplied | CsFinishTake _ | CsAnswerSend _ _ _ => 3
  | CsExit after => 1 + length after
  end.

(** No call takes more than nine steps of its own. *)
Definition call_work : nat := 9.

Definition frame_work (f : Frame) : nat :=
  match f with
  | FrCall _ => call_work
  | FrLock cs => 1 + cs_work cs
  | FrIn cs => cs_work cs
  | FrFire | FrAfter _ => 1
  end.

Definition stack_work (stack : list Frame) : nat := sum_list_with frame_work stack.
#[local] Arguments stack_work : simpl never.
Definition drops_work (drops : list (list Method)) : nat := sum_list_with (λ l, call_work * length l) drops.
#[local] Arguments drops_work : simpl never.
#[local] Arguments call_work : simpl never.
Definition thread_work (t : Thread) : nat := stack_work (th_stack t) + drops_work (th_drops t).
Definition sys_work (s : System) : nat := sum_list_with thread_work (sy_threads s).

Lemma stack_work_cons f stack : stack_work (f :: stack) = frame_work f + stack_work stack.
Proof. done. Qed.
Lemma stack_work_app s1 s2 : stack_work (s1 ++ s2) = stack_work s1 + stack_work s2.
Proof. apply sum_list_with_app. Qed.
Lemma stack_work_calls calls : stack_work (FrCall <$> calls) = call_work * length calls.
Proof. unfold stack_work, call_work. induction calls as [|m l IH]; [done|]. rewrite fmap_cons. cbn [sum_list_with frame_work length].
  rewrite IH. unfold call_work. lia. Qed.
Lemma stack_work_after after : stack_work (FrAfter <$> after) = length after.
Proof. unfold stack_work. induction after as [|a l IH]; [done|]. rewrite fmap_cons. cbn [sum_list_with frame_work length].
  by rewrite IH. Qed.

Lemma section_step_work c cs : in_section cs → cs_work (section_step c cs).2.1 < cs_work cs.
Proof.
  intros Hin. destruct cs; try done; cbn; unfold compare_exchange, ask_slot;
    try destruct (c_interaction c); repeat case_match; simplify_eq/=; lia.
Qed.

Lemma call_step_work c m : stack_work (call_step c m).2.1 < call_work.
Proof.
  unfold call_work. destruct m; cbn; repeat case_match; simplify_eq/=; unfold stack_work; cbn; lia.
Qed.

Lemma thread_step_work tid c lock t c' lock' t' act :
  thread_step tid c lock t = Some (c', lock', t', act) → thread_work t' < thread_work t.
Proof.
  unfold thread_step, thread_work. destruct (th_stack t) as [|f rest] eqn:Est; [done|].
  rewrite stack_work_cons. destruct f as [m| |cs|cs|[config|slot|m r]]; cbn [frame_work].
  - pose proof (call_step_work c m) as Hw. destruct (call_step c m) as [c1 [next a]].
    intros [= <- <- <- <-]. cbn in *. rewrite stack_work_app. lia.
  - intros [= <- <- <- <-]. cbn. lia.
  - destruct lock; [done|]. intros [= <- <- <- <-]. cbn. rewrite stack_work_cons; cbn; lia.
  - pose proof (section_step_work c cs) as Hw.
    destruct cs; try (specialize (Hw I); destruct (section_step c _) as [? [? ?]];
      intros [= <- <- <- <-]; cbn in *; rewrite stack_work_cons; cbn; lia).
    intros [= <- <- <- <-]. cbn. rewrite stack_work_app, stack_work_after. lia.
  - intros [= <- <- <- <-]. cbn. rewrite stack_work_app, stack_work_calls.
    destruct (th_drops t); unfold drops_work; cbn; lia.
  - intros [= <- <- <- <-]. cbn. lia.
  - intros [= <- <- <- <-]. cbn. lia.
Qed.

Lemma sum_list_with_insert_lt {A} (f : A → nat) l i x y :
  l !! i = Some x → f y < f x → sum_list_with f (<[i := y]> l) < sum_list_with f l.
Proof.
  revert i. induction l as [|z l IH]; intros [|i] Hi Hlt; simplify_eq/=; [lia|].
  specialize (IH i Hi Hlt). lia.
Qed.

(** ** Progress *)

Definition finished (s : System) : Prop := Forall (λ t, th_stack t = []) (sy_threads s).
(** A thread that cannot step: it has returned from all its calls, or waits. *)
Definition stuck (s : System) (tid : nat) : Prop :=
  (t ← sy_threads s !! tid; thread_step tid (sy_ctl s) (sy_lock s) t) = None.

Lemma sys_step_stuck s tid : stuck s tid → sys_step s tid = s.
Proof. intros Hs. unfold sys_step. by rewrite Hs. Qed.

Lemma sys_step_work s tid : ¬ stuck s tid → sys_work (sys_step s tid) < sys_work s.
Proof.
  unfold stuck, sys_step. destruct (sy_threads s !! tid) as [t|] eqn:Ht; cbn; [|done].
  destruct (thread_step _ _ _ t) as [[[[c lock] t'] act]|] eqn:Es; [|done]. intros _.
  eapply sum_list_with_insert_lt; [done|by eapply thread_step_work].
Qed.

Instance stuck_dec s tid : Decision (stuck s tid).
Proof. unfold stuck. destruct (_ ≫= _); [by right|by left]. Defined.

Lemma sys_step_work_le s tid : sys_work (sys_step s tid) ≤ sys_work s.
Proof. destruct (decide (stuck s tid)); [by rewrite sys_step_stuck|by apply Nat.lt_le_incl, sys_step_work]. Qed.
Lemma sys_run_work_le schedule : ∀ s, sys_work (sys_run s schedule) ≤ sys_work s.
Proof.
  unfold sys_run. induction schedule as [|tid l IH]; intros s; [done|]. cbn.
  etransitivity; [apply IH|apply sys_step_work_le].
Qed.

Lemma sys_step_threads s tid : length (sy_threads (sys_step s tid)) = length (sy_threads s).
Proof. unfold sys_step. destruct (_ ≫= _) as [[[[c l] t] act]|]; [|done]. apply length_insert. Qed.
Lemma sys_run_threads schedule : ∀ s, length (sy_threads (sys_run s schedule)) = length (sy_threads s).
Proof.
  unfold sys_run. induction schedule as [|tid l IH]; intros s; [done|]. cbn. by rewrite IH, sys_step_threads.
Qed.

(** Who holds the mutex is inside a section, and can go on. *)
Lemma locked_inside c0 s tid : sys_inv c0 s → sy_lock s = Some tid →
  ∃ t cs rest, sy_threads s !! tid = Some t ∧ th_stack t = FrIn cs :: rest.
Proof.
  intros Hi Hl. destruct (si_lock _ _ Hi tid Hl) as [t Ht]. pose proof (si_shape _ _ Hi tid t Ht) as Hs.
  rewrite Hl in Hs. destruct (th_stack t) as [|[| | |cs|] rest] eqn:Est; cbn in Hs; try (by destruct Hs).
  by exists t, cs, rest.
Qed.

Lemma some_thread_steps c0 s : sys_inv c0 s → ¬ finished s → ∃ tid, tid < length (sy_threads s) ∧ ¬ stuck s tid.
Proof.
  intros Hi Hf.
  assert (∃ tid t, sy_threads s !! tid = Some t ∧ is_Some (thread_step tid (sy_ctl s) (sy_lock s) t)) as (tid & t & Ht & He).
  { destruct (sy_lock s) as [tid|] eqn:Hl.
    - destruct (locked_inside _ _ _ Hi Hl) as (t & cs & rest & Ht & Est). exists tid, t. split; [done|].
      unfold thread_step. rewrite Est. destruct cs; eauto; destruct (section_step (sy_ctl s) _) as [? []]; eauto.
    - apply not_Forall_Exists in Hf; [|intros u; destruct (th_stack u); [by left|by right]].
      apply Exists_exists in Hf as (t & (tid & Ht)%list_elem_of_lookup & Hne). exists tid, t. split; [done|].
      cbn in Hne. unfold thread_step. destruct (th_stack t) as [|[m| |cs|cs|[]] rest]; [done|..]; eauto.
      + destruct (call_step (sy_ctl s) m) as [? []]. eauto.
      + destruct cs; eauto; destruct (section_step (sy_ctl s) _) as [? []]; eauto. }
  exists tid. split; [by eapply lookup_lt_Some|]. unfold stuck. rewrite Ht. cbn. by destruct He as [x ->].
Qed.

(** A round either does something or finds every thread it asks stuck. *)
Lemma round_works round : ∀ s,
  (sys_run s round = s ∧ ∀ tid, tid ∈ round → stuck s tid) ∨ sys_work (sys_run s round) < sys_work s.
Proof.
  induction round as [|tid round IH]; intros s.
  { left. split; [done|]. by intros tid ?%elem_of_nil. }
  unfold sys_run. cbn [foldl]. fold (sys_run (sys_step s tid) round). destruct (decide (stuck s tid)) as [Hs|Hs].
  - rewrite sys_step_stuck by done. destruct (IH s) as [[-> Hall]|?]; [left|by right].
    split; [done|]. intros i [->|?]%elem_of_cons; [done|by apply Hall].
  - right. eapply Nat.le_lt_trans; [apply sys_run_work_le|by apply sys_step_work].
Qed.

(** A scheduler's round that picks each of [n] threads at least once. *)
Definition fair_round (n : nat) (round : list nat) : Prop := ∀ tid, tid < n → tid ∈ round.

Lemma finished_run s schedule : finished s → sys_run s schedule = s.
Proof.
  intros Hf. unfold sys_run. induction schedule as [|tid l IH]; [done|]. cbn. rewrite sys_step_stuck; [done|].
  unfold stuck. destruct (sy_threads s !! tid) as [t|] eqn:Ht; [|done]. cbn. unfold thread_step.
  by rewrite (proj1 (Forall_lookup _ _) Hf tid t Ht).
Qed.

Lemma rounds_finish c0 rounds : ∀ s, sys_inv c0 s →
  Forall (fair_round (length (sy_threads s))) rounds → sys_work s ≤ length rounds →
  finished (sys_run s (concat rounds)).
Proof.
  induction rounds as [|round rounds IH]; intros s Hi Hf Hw; cbn [concat length] in *;
    (destruct (decide (Forall (λ t, th_stack t = []) (sy_threads s))) as [Hd|Hd]; [by rewrite finished_run|]);
    destruct (some_thread_steps _ _ Hi Hd) as (tid & Hlt & Hs).
  - pose proof (sys_step_work s tid Hs). lia.
  - apply Forall_cons in Hf as [Hr Hf]. unfold sys_run. rewrite foldl_app. fold (sys_run s round). apply IH.
    + by apply sys_run_inv.
    + by rewrite sys_run_threads.
    + destruct (round_works round s) as [[_ Hall]|?]; [by destruct Hs; apply Hall, Hr|lia].
Qed.

(** ** The order of a program *)

(** The call a place belongs to, and the calls a stack has still to return from. *)
Definition after_method (a : After) : option Method := match a with AfReturn m _ => Some m | _ => None end.
Definition cs_methods (cs : Cs) : list Method :=
  match cs with
  | CsUpdateAccepting config | CsUpdateActive config | CsUpdateNext config | CsUpdateReplace config _ =>
      [MUpdate config]
  | CsTakeConfig => [MTakeConfig]
  | CsFinalClose | CsFinalTake => [MBeginFinal]
  | CsCommit revision => [MCommitRevision revision]
  | CsApplied => [MAppliedRevision]
  | CsFinishExchange | CsFinishCancelled _ | CsFinishClose _ | CsFinishTake _ => [MFinishOnce]
  | CsAsk slot => [MSetInteraction slot]
  | CsTakeSlot => [MTakeInteraction]
  | CsAnswerAccepting id a | CsAnswerActive id a | CsAnswerSlot id a | CsAnswerSend id a _ => [MAnswer id a]
  | CsExit after => omap after_method after
  end.
Definition frame_methods (f : Frame) : list Method :=
  match f with
  | FrCall m => [m]
  | FrFire => []
  | FrLock cs | FrIn cs => cs_methods cs
  | FrAfter a => option_list (after_method a)
  end.
Definition thread_methods (t : Thread) : list Method := (fst <$> th_history t) ++ (th_stack t ≫= frame_methods).

Lemma section_step_methods c cs : in_section cs → cs_methods (section_step c cs).2.1 = cs_methods cs.
Proof.
  intros Hin. destruct cs; try done; cbn; unfold compare_exchange, ask_slot, take_slot;
    try destruct (c_interaction c); repeat case_match; simplify_eq/=; done.
Qed.
Lemma call_step_methods c m : (call_step c m).2.1 ≫= frame_methods = [m].
Proof. destruct m; cbn; repeat case_match; simplify_eq/=; done. Qed.
Lemma after_methods after : (FrAfter <$> after) ≫= frame_methods = omap after_method after.
Proof. induction after as [|a l IH]; [done|]. rewrite fmap_cons, bind_cons, IH. by destruct a. Qed.
Lemma calls_methods calls : (FrCall <$> calls) ≫= frame_methods = calls.
Proof. induction calls as [|m l IH]; [done|]. by rewrite fmap_cons, bind_cons, IH. Qed.

(** A step forgets no call and swaps none; a destructor puts its calls in between. *)
Lemma thread_step_methods tid c lock t c' lock' t' act :
  thread_step tid c lock t = Some (c', lock', t', act) → thread_methods t `sublist_of` thread_methods t'.
Proof.
  unfold thread_step, thread_methods. destruct (th_stack t) as [|f rest] eqn:Est; [done|]. rewrite bind_cons.
  destruct f as [m| |cs|cs|[config|slot|m r]]; cbn [frame_methods].
  - pose proof (call_step_methods c m) as Hm. destruct (call_step c m) as [c1 [next a]].
    intros [= <- <- <- <-]. cbn in Hm |- *. by rewrite bind_app, Hm.
  - by intros [= <- <- <- <-].
  - destruct lock; [done|]. by intros [= <- <- <- <-].
  - pose proof (section_step_methods c cs) as Hm.
    destruct cs; try (specialize (Hm I); destruct (section_step c _) as [? [? ?]];
      intros [= <- <- <- <-]; cbn [with_stack th_stack th_history]; rewrite bind_cons; cbn in Hm |- *; by rewrite Hm).
    intros [= <- <- <- <-]. cbn. by rewrite bind_app, after_methods.
  - intros [= <- <- <- <-]. cbn. rewrite bind_app, calls_methods.
    apply sublist_app; [done|]. by apply sublist_inserts_l.
  - by intros [= <- <- <- <-].
  - intros [= <- <- <- <-]. cbn. by rewrite fmap_app, <- app_assoc.
Qed.

Lemma sys_run_methods schedule : ∀ s tid t, sy_threads s !! tid = Some t →
  ∃ t', sy_threads (sys_run s schedule) !! tid = Some t' ∧ thread_methods t `sublist_of` thread_methods t'.
Proof.
  unfold sys_run. induction schedule as [|i l IH]; intros s tid t Ht; [by exists t|]. cbn.
  assert (∃ t1, sy_threads (sys_step s i) !! tid = Some t1 ∧ thread_methods t `sublist_of` thread_methods t1) as (t1 & Ht1 & H1).
  { unfold sys_step. destruct (sy_threads s !! i) as [u|] eqn:Hu; cbn; [|by exists t].
    destruct (thread_step _ _ _ u) as [[[[c lock] u'] act]|] eqn:Es; [|by exists t]. cbn.
    destruct (decide (i = tid)) as [->|Hne].
    - simplify_eq. exists u'. split; [by apply list_lookup_insert_eq, (lookup_lt_Some _ _ t)|by eapply thread_step_methods].
    - exists t. by rewrite list_lookup_insert_ne. }
  destruct (IH _ tid t1 Ht1) as (t' & Ht' & H'). exists t'. split; [done|]. by etransitivity.
Qed.

(** The calls a program asks for, those of its destructors included. *)
Definition program_calls (programs : list (list Method * list (list Method))) : nat :=
  sum_list_with (λ p, length p.1 + sum_list_with length p.2) programs.

Lemma drops_work_calls drops : drops_work drops = call_work * sum_list_with length drops.
Proof.
  unfold drops_work, call_work. induction drops as [|l drops IH]; cbn [sum_list_with]; [done|]. rewrite IH. unfold call_work. lia.
Qed.
Lemma sys_start_work c programs : sys_work (sys_start c programs) = call_work * program_calls programs.
Proof.
  unfold sys_work, program_calls, sys_start. cbn [sy_threads].
  induction programs as [|p ps IH]; [done|]. rewrite fmap_cons. cbn [sum_list_with]. rewrite IH. unfold thread_work.
  cbn [th_stack th_drops]. rewrite stack_work_calls, drops_work_calls. unfold call_work. lia.
Qed.

(** ** Property *)

(** C11: no call of the control plane is ever stuck on its mutex, not even when
    destructors of configurations call it again. Whatever the schedule so far, the
    holder of the mutex is inside a critical section, so that it is running no host
    code and waiting for no mutex. Under any scheduler that picks every thread once
    in a round, nine rounds per call are enough: then all calls have returned, in
    the order of their program and with what the destructors called in between, the
    mutex is free, and the order of effects holds of each thread just the calls it
    returned from. *)
Theorem control_calls_end (c : LoopControl) (programs : list (list Method * list (list Method))) :
  let s0 := sys_start c programs in
  (∀ schedule tid, sy_lock (sys_run s0 schedule) = Some tid →
     ∃ t cs rest, sy_threads (sys_run s0 schedule) !! tid = Some t ∧ th_stack t = FrIn cs :: rest) ∧
  (∀ rounds, Forall (fair_round (length programs)) rounds → call_work * program_calls programs ≤ length rounds →
     let s := sys_run s0 (concat rounds) in
     sy_lock s = None ∧ act_run c (acts (sy_log s)) = (sy_ctl s, rets (sy_log s)) ∧
     ∀ tid p, programs !! tid = Some p →
       ∃ t, sy_threads s !! tid = Some t ∧ th_stack t = [] ∧
         p.1 `sublist_of` (fst <$> th_history t) ∧ thread_calls tid (sy_log s) ≡ₚ th_history t).
Proof.
  intros s0. split.
  - intros schedule tid. apply (locked_inside c). apply sys_run_inv, sys_start_inv.
  - intros rounds Hf Hw s.
    assert (sys_inv c s) as Hi by apply sys_run_inv, sys_start_inv.
    assert (finished s) as Hfin.
    { apply (rounds_finish c); [apply sys_start_inv|..]; unfold s0.
      - cbn [sys_start sy_threads]. by rewrite length_fmap.
      - by rewrite sys_start_work. }
    assert (sy_lock s = None) as Hl.
    { destruct (sy_lock s) as [tid|] eqn:El; [|done]. destruct (locked_inside c s tid Hi El) as (t & cs & rest & Ht & Est).
      by rewrite (proj1 (Forall_lookup _ _) Hfin tid t Ht) in Est. }
    split; [done|]. split; [rewrite <- (settled_free s Hl); apply Hi|]. intros tid p Hp.
    destruct (sys_run_methods (concat rounds) s0 tid (mkThread (FrCall <$> p.1) p.2 [])) as (t & Ht & Hsub).
    { unfold s0. cbn. by rewrite list_lookup_fmap, Hp. }
    exists t. pose proof (proj1 (Forall_lookup _ _) Hfin tid t Ht) as Est. split_and!; [done..| |].
    + unfold thread_methods in Hsub. rewrite Est in Hsub. cbn in Hsub. by rewrite calls_methods, app_nil_r in Hsub.
    + rewrite (si_calls _ _ Hi tid t Ht), Est. by rewrite app_nil_r.
Qed.
End progress.
