(* ===== verification/Options.v ===== *)
(** * Loop options and requests

    Models [LoopOptions], [LoopRequest] and the start errors of
    src/src/agent_loop/mod.rs. Durations and instants are nanoseconds. *)

From S2P Require Import Prelude Text Json Ids Limits ModelError Failure History.
Local Open Scope N_scope.

Definition MAX_TOOL_ROUNDS : N := 1024.
Definition MAX_EVENT_CAPACITY_OPTION : N := 4096.
Definition MAX_MODEL_RETRY_ATTEMPTS : N := 4.
Definition MAX_MODEL_CALL_TIMEOUT : N := 24 * 60 * 60 * NANOS.

Inductive LoopStartError :=
| NoTokioRuntime | InvalidOptions | InvalidConfig | InvalidInput | IdGeneration.
#[export] Instance LoopStartError_eq_dec : EqDecision LoopStartError.
Proof. solve_decision. Defined.

Record LoopOptions := mkLoopOptions {
  lo_deadline : option N;
  lo_max_tool_rounds : N;
  lo_event_capacity : N;
  lo_prompt_timeout : N;
  lo_model_timeout : N;
  lo_policy_timeout : N;
  lo_tool_timeout : N;
  lo_model_retry_attempts : N;
  lo_model_retry_base_delay : N;
  lo_limits : LoopLimits;
}.

(** [validate], with the reading of the clock as an argument. *)
Definition LoopOptions_validate (o : LoopOptions) (now : N) : result LoopStartError () :=
  guard_err
    ((MAX_TOOL_ROUNDS <? lo_max_tool_rounds o)
     || negb ((1 <=? lo_event_capacity o) && (lo_event_capacity o <=? MAX_EVENT_CAPACITY_OPTION))
     || (lo_prompt_timeout o =? 0)
     || (lo_model_timeout o =? 0)
     || (MAX_MODEL_CALL_TIMEOUT <? lo_model_timeout o)
     || (lo_policy_timeout o =? 0)
     || (lo_tool_timeout o =? 0)
     || (lo_model_retry_attempts o =? 0)
     || (MAX_MODEL_RETRY_ATTEMPTS <? lo_model_retry_attempts o)
     || (lo_model_retry_base_delay o =? 0)
     || (MAX_MODEL_RETRY_DELAY <? lo_model_retry_base_delay o)
     || match lo_deadline o with Some deadline => deadline <=? now | None => false end)
    InvalidOptions $
  map_err (λ _, InvalidOptions) (LoopLimits_validate (lo_limits o)).

Definition default_options : LoopOptions := {|
  lo_deadline := None;
  lo_max_tool_rounds := 0;
  lo_event_capacity := 256;
  lo_prompt_timeout := 30 * NANOS;
  lo_model_timeout := 10 * 60 * NANOS;
  lo_policy_timeout := 30 * NANOS;
  lo_tool_timeout := 30 * 60 * NANOS;
  lo_model_retry_attempts := 2;
  lo_model_retry_base_delay := 100000000;
  lo_limits := LoopLimits_default;
|}.

Definition LoopOptions_default_checked (now : N) : result LoopStartError LoopOptions :=
  _ ← LoopOptions_validate default_options now;
  Ok default_options.

(** What the runner relies on. *)
Record options_ok (o : LoopOptions) : Prop := {
  oo_capacity : 1 ≤ lo_event_capacity o ≤ MAX_EVENT_CAPACITY_OPTION;
  oo_attempts : 1 ≤ lo_model_retry_attempts o ≤ MAX_MODEL_RETRY_ATTEMPTS;
  oo_base_delay : 1 ≤ lo_model_retry_base_delay o ≤ MAX_MODEL_RETRY_DELAY;
  oo_model_timeout : 1 ≤ lo_model_timeout o ≤ MAX_MODEL_CALL_TIMEOUT;
  oo_timeouts : 1 ≤ lo_prompt_timeout o ∧ 1 ≤ lo_policy_timeout o ∧ 1 ≤ lo_tool_timeout o;
  oo_rounds : lo_max_tool_rounds o ≤ MAX_TOOL_ROUNDS;
  oo_limits : LoopLimits_validate (lo_limits o) = Ok ();
}.

Lemma LoopOptions_validate_ok o now : 
  LoopOptions_validate o now = Ok () ↔
  options_ok o ∧ (∀ deadline, lo_deadline o = Some deadline → now < deadline).
Proof.
  unfold LoopOptions_validate.
  rewrite guard_err_Ok, !orb_false_iff, negb_false_iff, andb_true_iff, !N.leb_le, !N.ltb_ge,
    !N.eqb_neq, map_err_Ok.
  assert ((match lo_deadline o with Some d => d <=? now | None => false end) = false ↔
    (∀ deadline, lo_deadline o = Some deadline → now < deadline)) as ->.
  { destruct (lo_deadline o) as [d|]; [rewrite N.leb_gt|]; naive_solver. }
  split.
  - intros (Ha & Hl). destruct_and?. split; [|done]. split; try done; lia.
  - intros [[] Hd]. split_and!; try done; lia.
Qed.

Section request.
Context `{SerdeJson}.

Record LoopRequest := mkLoopRequest {
  lq_history : list HistoryItem;
  lq_input : UserInput;
  lq_config : ExecutionConfig;
}.
End request.
