(* ===== verification/World.v ===== *)
(** * Execution: the runner task against its environment

    The runner is one asynchronous task. What it does is a computation of the
    monad [exec] over a [World]: the shared control plane and event queue, the
    clock, and an oracle of everything the host and the other threads do.

    - [w_env]: what other threads do between two steps of the runner. Before each
      access to shared state the runner lets one batch happen ([tick]), so every
      interleaving of atomic steps is a choice of [w_env].
    - the poll lists: what each successive poll of a future the host provided
      does. A poll may find the future pending, make it panic, or complete it. Past
      the end of its list a future is pending for good.
    - [w_sync]: which synchronous host calls (closures that build a future,
      [LoopInputs::take], destructors) panic.
    - [w_inputs], [w_entropy]: what [LoopInputs::take] hands over and the random
      source gives.
    - [w_trace]: the calls the runner made, and [w_sink_ops]: what both sides did
      to the event queue; for the theorems only.

    Timers fire as soon as they are due: an await compares the clock with its
    deadline at each poll. An await is [Paused] only once the other threads have
    nothing left to do ([patience] bounds its polls): its future is then pending,
    and nobody is left to change what it waits for. *)

From S2P Require Import Prelude Text Json Ids Limits ToolTypes ModelError Message Request Failure History Prompt Event Control Options.
Local Open Scope N_scope.

(** One poll of a future. *)
Inductive poll (T : Type) : Type := PollPending | PollPanic | PollReady (t : T).
Arguments PollPending {T}.
Arguments PollPanic {T}.
Arguments PollReady {T} t.

Section world.
Context `{SerdeJson}.

(** A poll of a future that holds its child token may also cancel it; a poll of
    a tool may also emit progress. *)
Definition model_poll (T : Type) : Type := poll T * bool.
Definition tool_poll : Type := poll (result ToolError ToolExecutionOutcome) * list ToolProgress.

(** What another thread does: steps of the public handles, of the event stream,
    and the passing of time. *)
Inductive EnvOp :=
| EnvCancel (source : CancelSource)
| EnvFireToken
| EnvUpdate (config : ExecutionConfig)
| EnvAnswer (id : InteractionId) (a : InteractionAnswer)
| EnvRecv
| EnvDropStream
| EnvTime (dt : N).

Inductive HostCall :=
| HcTake (inputs : list UserInput)
| HcPrompt (request_index : N)
| HcStart (attempt : N)
| HcEvent
| HcPolicy (call_id : ToolCallId)
| HcTool (call_id : ToolCallId)
| HcChildCancelled
| HcIssue (request_index revision : N)
| HcPublish (report : LoopReport).

Record World := mkWorld {
  w_now : N;
  w_ctl : LoopControl;
  w_sink : LoopEventSink;
  w_env : list (list EnvOp);
  w_prompt_polls : list (poll (result PromptError (list ModelMessage)));
  w_start_polls : list (model_poll (result ModelError ()));
  w_stream_polls : list (model_poll (option (result ModelError ModelEvent)));
  w_policy_polls : list (poll (result ToolPolicyError ToolDecision));
  w_tool_polls : list tool_poll;
  w_sync : list bool;
  w_inputs : list (list UserInput);
  w_entropy : list (option (list N));
  w_tool_queue : list (ToolCallId * ToolProgress);
  w_tool_dropped : N;
  w_trace : list HostCall;
  w_sink_ops : list SinkOp;
}.

(** Field updates. *)
Definition set_now (w : World) now :=
  mkWorld now (w_ctl w) (w_sink w) (w_env w) (w_prompt_polls w) (w_start_polls w)
    (w_stream_polls w) (w_policy_polls w) (w_tool_polls w) (w_sync w) (w_inputs w)
    (w_entropy w) (w_tool_queue w) (w_tool_dropped w) (w_trace w) (w_sink_ops w).
Definition set_ctl (w : World) ctl :=
  mkWorld (w_now w) ctl (w_sink w) (w_env w) (w_prompt_polls w) (w_start_polls w)
    (w_stream_polls w) (w_policy_polls w) (w_tool_polls w) (w_sync w) (w_inputs w)
    (w_entropy w) (w_tool_queue w) (w_tool_dropped w) (w_trace w) (w_sink_ops w).
Definition set_sink (w : World) sink ops :=
  mkWorld (w_now w) (w_ctl w) sink (w_env w) (w_prompt_polls w) (w_start_polls w)
    (w_stream_polls w) (w_policy_polls w) (w_tool_polls w) (w_sync w) (w_inputs w)
    (w_entropy w) (w_tool_queue w) (w_tool_dropped w) (w_trace w) ops.
Definition set_env (w : World) env :=
  mkWorld (w_now w) (w_ctl w) (w_sink w) env (w_prompt_polls w) (w_start_polls w)
    (w_stream_polls w) (w_policy_polls w) (w_tool_polls w) (w_sync w) (w_inputs w)
    (w_entropy w) (w_tool_queue w) (w_tool_dropped w) (w_trace w) (w_sink_ops w).
Definition set_prompt_polls ps (w : World) :=
  mkWorld (w_now w) (w_ctl w) (w_sink w) (w_env w) ps (w_start_polls w)
    (w_stream_polls w) (w_policy_polls w) (w_tool_polls w) (w_sync w) (w_inputs w)
    (w_entropy w) (w_tool_queue w) (w_tool_dropped w) (w_trace w) (w_sink_ops w).
Definition set_start_polls ps (w : World) :=
  mkWorld (w_now w) (w_ctl w) (w_sink w) (w_env w) (w_prompt_polls w) ps
    (w_stream_polls w) (w_policy_polls w) (w_tool_polls w) (w_sync w) (w_inputs w)
    (w_entropy w) (w_tool_queue w) (w_tool_dropped w) (w_trace w) (w_sink_ops w).
Definition set_stream_polls ps (w : World) :=
  mkWorld (w_now w) (w_ctl w) (w_sink w) (w_env w) (w_prompt_polls w) (w_start_polls w)
    ps (w_policy_polls w) (w_tool_polls w) (w_sync w) (w_inputs w)
    (w_entropy w) (w_tool_queue w) (w_tool_dropped w) (w_trace w) (w_sink_ops w).
Definition set_policy_polls ps (w : World) :=
  mkWorld (w_now w) (w_ctl w) (w_sink w) (w_env w) (w_prompt_polls w) (w_start_polls w)
    (w_stream_polls w) ps (w_tool_polls w) (w_sync w) (w_inputs w)
    (w_entropy w) (w_tool_queue w) (w_tool_dropped w) (w_trace w) (w_sink_ops w).
Definition set_tool_polls ps (w : World) :=
  mkWorld (w_now w) (w_ctl w) (w_sink w) (w_env w) (w_prompt_polls w) (w_start_polls w)
    (w_stream_polls w) (w_policy_polls w) ps (w_sync w) (w_inputs w)
    (w_entropy w) (w_tool_queue w) (w_tool_dropped w) (w_trace w) (w_sink_ops w).
Definition set_host (w : World) sync inputs entropy :=
  mkWorld (w_now w) (w_ctl w) (w_sink w) (w_env w) (w_prompt_polls w) (w_start_polls w)
    (w_stream_polls w) (w_policy_polls w) (w_tool_polls w) sync inputs
    entropy (w_tool_queue w) (w_tool_dropped w) (w_trace w) (w_sink_ops w).
Definition set_tool_queue (w : World) queue dropped :=
  mkWorld (w_now w) (w_ctl w) (w_sink w) (w_env w) (w_prompt_polls w) (w_start_polls w)
    (w_stream_polls w) (w_policy_polls w) (w_tool_polls w) (w_sync w) (w_inputs w)
    (w_entropy w) queue dropped (w_trace w) (w_sink_ops w).
Definition add_trace (w : World) c :=
  mkWorld (w_now w) (w_ctl w) (w_sink w) (w_env w) (w_prompt_polls w) (w_start_polls w)
    (w_stream_polls w) (w_policy_polls w) (w_tool_polls w) (w_sync w) (w_inputs w)
    (w_entropy w) (w_tool_queue w) (w_tool_dropped w) (w_trace w ++ [c]) (w_sink_ops w).

(** One operation on the event queue, by either side. *)
Definition sink_apply (w : World) (op : SinkOp) : World :=
  set_sink w (sink_op (w_sink w) op).1 (w_sink_ops w ++ [op]).

(** A thread that calls [LoopHandle::update] passes the check of its first step
    and the validation before it reaches the lock; one that fires the token has
    won a cancellation before. *)
Definition env_op (w : World) (op : EnvOp) : World :=
  match op with
  | EnvCancel source => set_ctl w (mark_cancel_exchange (w_ctl w) source).1
  | EnvFireToken => if is_active (w_ctl w) then w else set_ctl w (fire_token (w_ctl w))
  | EnvUpdate config =>
      match validate_against_limits config (c_limits (w_ctl w)) with
      | Some (Ok _) => set_ctl w (update_locked (w_ctl w) config).1
      | _ => w
      end
  | EnvAnswer id a => set_ctl w (answer (w_ctl w) id a).1
  | EnvRecv => sink_apply w OpRecv
  | EnvDropStream => sink_apply w OpDrop
  | EnvTime dt => set_now w (w_now w + dt)
  end.

Definition tick (w : World) : World :=
  match w_env w with
  | [] => w
  | ops :: env => foldl env_op (set_env w env) ops
  end.

(** How often an await is polled: for each poll of its own list ([own]), and for
    each batch of what the others do. *)
Definition patience (own : nat) (w : World) : nat := own + length (w_env w).

(** ** The monad *)

Inductive outcome (A : Type) : Type :=
| Done (a : A) (w : World)
| Panicked (w : World)
| Paused (w : World)
| OutOfFuel.
Arguments Done {A} a w.
Arguments Panicked {A} w.
Arguments Paused {A} w.
Arguments OutOfFuel {A}.

Definition exec (A : Type) : Type := World → outcome A.

#[export] Instance exec_ret : MRet exec := λ (A : Type) (a : A) (w : World), Done a w.
#[export] Instance exec_bind : MBind exec := λ (A B : Type) (k : A → exec B) (m : exec A) (w : World),
  match m w with
  | Done a w => k a w
  | Panicked w => Panicked w
  | Paused w => Paused w
  | OutOfFuel => OutOfFuel
  end.

Definition panic {A : Type} : exec A := λ w, Panicked w.
Definition pause {A : Type} : exec A := λ w, Paused w.
Definition out_of_fuel {A : Type} : exec A := λ w, OutOfFuel.

(** [AssertUnwindSafe(m).catch_unwind().await] *)
Definition catch_unwind {A : Type} (m : exec A) (handler : exec A) : exec A := λ w,
  match m w with
  | Panicked w => handler w
  | o => o
  end.

(** An expression that panics when it has no value. *)
Definition expect {A : Type} (o : option A) : exec A :=
  match o with Some a => mret a | None => panic end.

(** One atomic access to shared state, after whatever the others did. *)
Definition atomically {A : Type} (f : World → World * A) : exec A := λ w,
  let '(w, a) := f (tick w) in Done a w.

Definition with_ctl {A : Type} (f : LoopControl → LoopControl * A) : exec A :=
  atomically (λ w, let '(c, a) := f (w_ctl w) in (set_ctl w c, a)).
Definition read_ctl {A : Type} (f : LoopControl → A) : exec A :=
  atomically (λ w, (w, f (w_ctl w))).
Definition with_sink (op : SinkOp) : exec () := atomically (λ w, (sink_apply w op, ())).

(** The runner's two operations on the event queue. *)
Definition emit (event : LoopEvent) : exec () := with_sink (OpEmit event).
Definition record_loss (count : N) : exec () := with_sink (OpRecord count).

(** [TokioInstant::now()] and [CancellationToken::is_cancelled]. *)
Definition now : exec N := atomically (λ w, (w, w_now w)).
Definition is_cancelled : exec bool := read_ctl c_cancel.

Definition trace (c : HostCall) : exec () := λ w, Done () (add_trace w c).

(** A synchronous call into the host: whether it panics. *)
Definition host_panics : exec bool := atomically (λ w,
  match w_sync w with
  | [] => (w, false)
  | b :: sync => (set_host w sync (w_inputs w) (w_entropy w), b)
  end).
Definition host_sync : exec () := b ← host_panics; if (b : bool) then panic else mret ().

(** [LoopInputs::take]. *)
Definition take_inputs : exec (list UserInput) :=
  host_sync;;
  inputs ← atomically (λ w,
    match w_inputs w with
    | [] => (w, [])
    | i :: inputs => (set_host w (w_sync w) inputs (w_entropy w), i)
    end);
  trace (HcTake inputs);;
  mret inputs.

End world.
Arguments Done {_ A} a w.
Arguments Panicked {_ A} w.
Arguments Paused {_ A} w.
Arguments OutOfFuel {_ A}.
