(* ===== verification/Steps.v ===== *)
(** * Reasoning about executions

    What the computations of [World] are proved with: [keeps], a relation between
    where a computation starts and every place it ends; [quietly], for steps that
    make no call and do not panic; [wp], the weakest-precondition rules that give
    the result of a computation and where it may stop short. [step_ok] and [calm]
    are the relations the runner is walked through with; each is a [RunnerRel], so
    one proof by [keeps_tac] serves them all. *)

From S2P Require Import Prelude Text Json Ids Limits ToolTypes ToolSet ModelError Message Request Failure History Prompt Event Control Options World.
Local Open Scope N_scope.

Section steps.
Context `{SerdeJson}.

(** ** Steps a runner may take

    [step_ok w w'] says what every step of the runner short of issuing a request
    and of the final seal respects: a loop that is not sealed stays so, the
    identity and the limits stay, the polls of a prompt and the synchronous calls are
    only used up, and the trace only grows by calls that are neither an issue nor a
    publication. *)

Definition unissued (c : HostCall) : Prop :=
  match c with HcIssue _ _ | HcPublish _ => False | _ => True end.
Definition ordinary (c : HostCall) : Prop :=
  match c with HcTake _ => False | _ => unissued c end.

(** The inputs a trace took from the host. *)
Definition takes (t : list HostCall) : list UserInput :=
  t ≫= λ c, match c with HcTake inputs => inputs | _ => [] end.
Lemma takes_app a b : takes (a ++ b) = takes a ++ takes b.
Proof. apply bind_app. Qed.

(** What was taken is what the host handed over first. *)
Definition handed (w : World) (t : list HostCall) (w' : World) : Prop :=
  concat (w_inputs w) = takes t ++ concat (w_inputs w').

(** The configurations another thread may install were built by the crate. *)
Definition config_ok (c : ExecutionConfig) : Prop := toolset_ok (ec_tools c).
Definition op_ok (op : EnvOp) : Prop := match op with EnvUpdate c => config_ok c | _ => True end.
Definition configs_ok (w : World) : Prop :=
  Forall (Forall op_ok) (w_env w) ∧
  ∀ p, c_pending_config (w_ctl w) = Some p → config_ok (pc_config p).

Definition running (w : World) : Prop :=
  c_state (w_ctl w) < STATE_FINISHED ∧ c_completion (w_ctl w) = None.

Record step_base (w w' : World) : Prop := {
  so_running : running w → running w';
  so_id : c_id (w_ctl w') = c_id (w_ctl w);
  so_limits : c_limits (w_ctl w') = c_limits (w_ctl w);
  so_revision : c_current_revision (w_ctl w') = c_current_revision (w_ctl w);
  so_polls : (length (w_prompt_polls w') ≤ length (w_prompt_polls w))%nat;
  so_trace : ∃ t, w_trace w' = w_trace w ++ t ∧ Forall unissued t ∧ handed w t w';
  so_sync : w_sync w' `suffix_of` w_sync w;
}.

Record step_ok (w w' : World) : Prop := {
  so_base : step_base w w';
  so_configs : configs_ok w → configs_ok w';
}.

#[export] Instance step_base_preorder : PreOrder step_base.
Proof.
  split.
  - intros w. split; try done. exists []. by rewrite app_nil_r.
  - intros w1 w2 w3 [r1 i1 l1 v1 p1 (t1 & e1 & f1 & h1) s1] [r2 i2 l2 v2 p2 (t2 & e2 & f2 & h2) s2].
    split; [auto|congruence..|lia| |by transitivity (w_sync w2)]. exists (t1 ++ t2). rewrite e2, e1, app_assoc.
    split; [done|]. split; [by apply Forall_app|]. unfold handed in *. by rewrite takes_app, <- app_assoc, <- h2.
Qed.
#[export] Instance step_ok_preorder : PreOrder step_ok.
Proof.
  split; [by intros w|]. intros w1 w2 w3 [b1 c1] [b2 c2]. split; [by transitivity w2|auto].
Qed.

Lemma step_handed w w' t : step_ok w w' → w_trace w' = w_trace w ++ t → handed w t w'.
Proof. intros [[_ _ _ _ _ (t' & E & _ & Hh) _] _] Et. rewrite E in Et. by apply app_inv_head in Et as ->. Qed.
Lemma handed_app w0 t w t' w' : handed w0 t w → handed w t' w' → handed w0 (t ++ t') w'.
Proof. unfold handed. intros -> ->. by rewrite takes_app, app_assoc. Qed.

(** The relations a computation is walked through with: other threads respect
    them, and so do steps that leave alone the control plane, the other threads,
    the prompt provider, the inputs and the trace (and only use up the synchronous
    calls), ordinary calls, and the taking of inputs. *)
Class RunnerRel (R : World → World → Prop) : Prop := {
  rr_preorder :: PreOrder R;
  rr_tick : ∀ w, R w (tick w);
  rr_frame : ∀ w w', w_ctl w' = w_ctl w → w_env w' = w_env w →
    w_prompt_polls w' = w_prompt_polls w → w_inputs w' = w_inputs w → w_trace w' = w_trace w →
    w_sync w' `suffix_of` w_sync w → R w w';
  rr_trace : ∀ w c, ordinary c → R w (add_trace w c);
  rr_take : ∀ w inputs rest, concat (w_inputs w) = inputs ++ concat rest →
    R w (add_trace (set_host w (w_sync w) rest (w_entropy w)) (HcTake inputs));
}.

(** Every way a computation ends is related to where it started, and it never
    runs out of fuel. *)
Definition keeps {A : Type} (R : World → World → Prop) (m : exec A) : Prop := ∀ w,
  match m w with
  | Done _ w' | Panicked w' | Paused w' => R w w'
  | OutOfFuel => False
  end.

Lemma keeps_Done {A : Type} R (m : exec A) w a w' : keeps R m → m w = Done a w' → R w w'.
Proof. intros Hk Hm. specialize (Hk w). by rewrite Hm in Hk. Qed.

Section rules.
Context (R : World → World → Prop) `{!PreOrder R}.

Lemma keeps_ret {A} (a : A) : keeps R (mret a).
Proof. intros w. change (R w w). reflexivity. Qed.
Lemma keeps_panic {A} : keeps R (panic (A := A)).
Proof. intros w. change (R w w). reflexivity. Qed.
Lemma keeps_pause {A} : keeps R (pause (A := A)).
Proof. intros w. change (R w w). reflexivity. Qed.

Lemma keeps_bind {A B} (m : exec A) (k : A → exec B) :
  keeps R m → (∀ a, keeps R (k a)) → keeps R (m ≫= k).
Proof.
  intros Hm Hk w. unfold mbind, exec_bind. specialize (Hm w). destruct (m w) as [a w1|w1|w1|]; try done.
  specialize (Hk a w1). destruct (k a w1); try done; by etransitivity.
Qed.

Lemma keeps_catch {A} (m h : exec A) : keeps R m → keeps R h → keeps R (catch_unwind m h).
Proof.
  intros Hm Hh w. unfold catch_unwind. specialize (Hm w). destruct (m w) as [a w1|w1|w1|]; try done.
  specialize (Hh w1). destruct (h w1); try done; by etransitivity.
Qed.

Lemma keeps_atomically {A} (f : World → World * A) :
  (∀ w, R w (tick w)) → (∀ w, R w (f w).1) → keeps R (atomically f).
Proof.
  intros Ht Hf w. unfold atomically. specialize (Hf (tick w)). destruct (f (tick w)).
  etransitivity; [apply Ht|exact Hf].
Qed.
End rules.

Lemma exec_bind_Done {A B} (m : exec A) (k : A → exec B) w b w' :
  (m ≫= k) w = Done b w' ↔ ∃ a w1, m w = Done a w1 ∧ k a w1 = Done b w'.
Proof. unfold mbind, exec_bind. destruct (m w); naive_solver. Qed.

(** ** What the primitives keep *)

Lemma env_op_base w op : step_base w (env_op w op).
Proof.
  assert (Hc : ∀ c, (c_state (w_ctl w) < STATE_FINISHED → c_state c < STATE_FINISHED) →
    c_completion c = c_completion (w_ctl w) → c_id c = c_id (w_ctl w) →
    c_limits c = c_limits (w_ctl w) → c_current_revision c = c_current_revision (w_ctl w) →
    step_base w (set_ctl w c)).
  { intros c Hs Hcm Hi Hl Hr. split; simpl; try done.
    - intros [? ?]. split; simpl; [auto|congruence].
    - exists []. by rewrite app_nil_r. }
  assert (Hrefl : step_base w w) by reflexivity.
  destruct op as [s| |config|i a| | |dt]; simpl; try (split; try done; exists []; by rewrite app_nil_r).
  - apply Hc; unfold mark_cancel_exchange, compare_exchange; destruct (_ =? _); try done.
    intros _. destruct s; done.
  - destruct (is_active _); [done|]. by apply Hc.
  - destruct (validate_against_limits _ _) as [[|]|]; try done.
    apply Hc; unfold update_locked; destruct (_ || _); done.
  - apply Hc; unfold answer; destruct (_ || _); try done;
      (destruct (c_interaction (w_ctl w)); [|done]); (destruct (negb _); [done|]);
      by destruct (InteractionAnswer_validate _ _).
Qed.

Lemma env_op_configs w op : op_ok op → configs_ok w → configs_ok (env_op w op).
Proof.
  intros Ho [He Hp]. destruct op as [s| |config|i a| | |dt]; simpl; try done.
  - unfold mark_cancel_exchange, compare_exchange. by destruct (_ =? _).
  - by destruct (is_active _).
  - destruct (validate_against_limits _ _) as [[|]|]; [|done..]. unfold update_locked.
    destruct (_ || _); [done|]. split; [done|]. by intros p [= <-].
  - unfold answer. destruct (_ || _); [done|]. destruct (c_interaction _); [|done].
    destruct (negb _); [done|]. by destruct (InteractionAnswer_validate _ _).
Qed.

Lemma tick_step w : step_ok w (tick w).
Proof.
  unfold tick. destruct (w_env w) as [|ops env] eqn:E; [reflexivity|]. split.
  - transitivity (set_env w env); [split; try done; exists []; by rewrite app_nil_r|].
    generalize (set_env w env). clear w E. induction ops as [|op ops IH]; intros w; simpl; [reflexivity|].
    transitivity (env_op w op); [apply env_op_base|apply IH].
  - intros [He Hp]. rewrite E in He. apply Forall_cons in He as [Ho He].
    assert (configs_ok (set_env w env)) as Hc by done. revert Hc. generalize (set_env w env).
    clear w E Hp. induction Ho as [|op ops Ho Hos IH]; intros w Hc; simpl; [done|].
    apply IH. by apply env_op_configs.
Qed.

#[export] Instance step_ok_rel : RunnerRel step_ok.
Proof.
  split; [apply _|apply tick_step|..].
  - intros w w' Hc He Hp Hi Ht Hsync. split.
    + split; unfold running; rewrite ?Hc, ?Hp; try done. exists []. unfold handed. by rewrite Hi, Ht, app_nil_r.
    + unfold configs_ok. by rewrite Hc, He.
  - intros w c Hc. split; [|done]. split; try done. exists [c]. split; [done|]. split; [|by destruct c].
    constructor; [by destruct c|done].
  - intros w inputs rest Hi. split; [|done]. split; try done. exists [HcTake inputs]. split; [done|].
    split; [by repeat constructor|]. unfold handed. simpl. by rewrite app_nil_r.
Qed.

(** The synchronous calls into the host are used up, in order; the last of them
    panicked. *)
Definition drained (w w' : World) : Prop := w_sync w' `suffix_of` w_sync w.
Definition host_blamed (w w' : World) : Prop := ∃ calls, w_sync w = calls ++ true :: w_sync w'.

Lemma host_blamed_drained w w1 w' : drained w w1 → host_blamed w1 w' → host_blamed w w'.
Proof. intros [before E] [calls E1]. exists (before ++ calls). by rewrite E, E1, app_assoc. Qed.

Lemma env_op_sync w op : w_sync (env_op w op) = w_sync w.
Proof.
  destruct op; simpl; try done; [by destruct (is_active _)|].
  by destruct (validate_against_limits _ _) as [[|]|].
Qed.
Lemma tick_sync w : w_sync (tick w) = w_sync w.
Proof.
  unfold tick. destruct (w_env w) as [|ops env]; [done|]. change (w_sync w) with (w_sync (set_env w env)).
  generalize (set_env w env). clear w. induction ops as [|op ops IH]; intros w; simpl; [done|].
  by rewrite IH, env_op_sync.
Qed.
#[export] Instance drained_rel : RunnerRel drained.
Proof.
  split; unfold drained; try done.
  - split; [intros w; done|]. intros w1 w2 w3 H12 H23. by transitivity (w_sync w2).
  - intros w. by rewrite tick_sync.
Qed.

(** Between two host calls the trace stands still and the clock does not go back;
    a computation is quiet if that is all that happens, and no panic. *)
Definition quiet (w w' : World) : Prop := w_trace w' = w_trace w ∧ w_now w ≤ w_now w'.

#[export] Instance quiet_preorder : PreOrder quiet.
Proof.
  split; [by intros w|]. intros w1 w2 w3 [e1 l1] [e2 l2]. split; [congruence|lia].
Qed.

Definition quietly {A : Type} (m : exec A) : Prop := ∀ w,
  match m w with
  | Done _ w' | Paused w' => quiet w w'
  | Panicked _ | OutOfFuel => False
  end.

Lemma env_op_quiet w op : quiet w (env_op w op).
Proof.
  destruct op; simpl; try done; try (destruct (is_active _); done).
  - destruct (validate_against_limits _ _) as [[|]|]; done.
  - split; simpl; [done|lia].
Qed.

Lemma tick_quiet w : quiet w (tick w).
Proof.
  unfold tick. destruct (w_env w) as [|ops env]; [done|].
  transitivity (set_env w env); [done|].
  generalize (set_env w env). clear w. induction ops as [|op ops IH]; intros w; simpl; [done|].
  transitivity (env_op w op); [apply env_op_quiet|apply IH].
Qed.

Lemma quietly_ret {A} (a : A) : quietly (mret a).
Proof. intros w. change (quiet w w). reflexivity. Qed.
Lemma quietly_pause {A} : quietly (pause (A := A)).
Proof. intros w. change (quiet w w). reflexivity. Qed.
Lemma quietly_bind {A B} (m : exec A) (k : A → exec B) :
  quietly m → (∀ a, quietly (k a)) → quietly (m ≫= k).
Proof.
  intros Hm Hk w. unfold mbind, exec_bind. specialize (Hm w). destruct (m w) as [a w1|w1|w1|]; try done.
  specialize (Hk a w1). destruct (k a w1); try done; by etransitivity.
Qed.
Lemma quietly_atomically {A} (f : World → World * A) :
  (∀ w, quiet w (f w).1) → quietly (atomically f).
Proof.
  intros Hf w. unfold atomically. specialize (Hf (tick w)). destruct (f (tick w)).
  etransitivity; [apply tick_quiet|exact Hf].
Qed.
Lemma quietly_now : quietly now.
Proof. apply quietly_atomically. done. Qed.
Lemma quietly_read_ctl {A} (f : LoopControl → A) : quietly (read_ctl f).
Proof. apply quietly_atomically. done. Qed.
Lemma quietly_is_cancelled : quietly is_cancelled.
Proof. apply quietly_read_ctl. Qed.
Lemma quietly_with_sink op : quietly (with_sink op).
Proof. apply quietly_atomically. done. Qed.
Lemma quietly_emit e : quietly (emit e).
Proof. apply quietly_with_sink. Qed.
Lemma quietly_record_loss n : quietly (record_loss n).
Proof. apply quietly_with_sink. Qed.
Lemma quietly_host_panics : quietly host_panics.
Proof. apply quietly_atomically. intros w. by destruct (w_sync w). Qed.

(** How a computation that does not run out of fuel ends: [Q] of its result,
    [P] of where it stopped short, by a panic ([true]) or still waiting. *)
Definition wp {A : Type} (m : exec A) (w : World) (Q : A → World → Prop)
    (P : bool → World → Prop) : Prop :=
  match m w with
  | Done a w' => Q a w'
  | Panicked w' => P true w'
  | Paused w' => P false w'
  | OutOfFuel => False
  end.

Lemma wp_bind {A B} (m : exec A) (k : A → exec B) w (Q' : A → World → Prop) Q P :
  wp m w Q' P → (∀ a w', Q' a w' → wp (k a) w' Q P) → wp (m ≫= k) w Q P.
Proof. unfold wp, mbind, exec_bind. intros Hm Hk. destruct (m w); try done. by apply Hk. Qed.
Lemma wp_ret {A} (a : A) w Q P : Q a w → wp (mret a) w Q P.
Proof. done. Qed.
Lemma wp_quietly {A} (m : exec A) w Q P :
  quietly m → (∀ a w', quiet w w' → Q a w') → (∀ w', quiet w w' → P false w') → wp m w Q P.
Proof. intros Hm HQ HP. specialize (Hm w). unfold wp. destruct (m w); try done; auto. Qed.
Lemma wp_quiet_bind {A B} (m : exec A) (k : A → exec B) w Q P :
  quietly m → (∀ w', quiet w w' → P false w') →
  (∀ a w', m w = Done a w' → quiet w w' → wp (k a) w' Q P) → wp (m ≫= k) w Q P.
Proof.
  intros Hm HP Hk. specialize (Hm w). unfold wp, mbind, exec_bind in *.
  destruct (m w) as [a w'| | |]; try done; [by apply Hk|by apply HP].
Qed.
(** A host call that returns nothing: it returns or panics. *)
Lemma host_sync_spec w : wp host_sync w (λ _ w', quiet w w') (λ b w', b = true ∧ quiet w w').
Proof.
  unfold host_sync, wp, mbind, exec_bind. pose proof (quietly_host_panics w) as Hq.
  unfold host_panics, atomically in *. destruct (match w_sync (tick w) with [] => _ | _ => _ end) as [w1 []]; done.
Qed.
Lemma wp_trace_bind {B} c (k : () → exec B) w Q P :
  wp (k ()) (add_trace w c) Q P → wp (trace c ≫= k) w Q P.
Proof. done. Qed.
Lemma wp_mono {A} (m : exec A) w (Q Q' : A → World → Prop) (P P' : bool → World → Prop) :
  wp m w Q P → (∀ a w', Q a w' → Q' a w') → (∀ b w', P b w' → P' b w') → wp m w Q' P'.
Proof. unfold wp. intros Hm HQ HP. destruct (m w); try done; auto. Qed.

Lemma wp_keeps {A} R (m : exec A) w Q P :
  keeps R m → wp m w Q P → wp m w (λ a w', Q a w' ∧ R w w') (λ b w', P b w' ∧ R w w').
Proof. unfold wp. intros Hk Hm. specialize (Hk w). destruct (m w); done. Qed.
Lemma wp_result {A} (m : exec A) w Q P : wp m w Q P → wp m w (λ a w', Q a w' ∧ m w = Done a w') P.
Proof. unfold wp. by destruct (m w). Qed.
Lemma wp_atomically {A B} (f : World → World * A) (k : A → exec B) w Q P :
  wp (k (f (tick w)).2) (f (tick w)).1 Q P → wp (atomically f ≫= k) w Q P.
Proof. unfold wp, mbind, exec_bind, atomically. by destruct (f (tick w)). Qed.

(** Relations on the control plane alone that every step of another thread and no
    step outside the control plane respects. *)
Class CtlRel (R : World → World → Prop) : Prop := {
  ctl_rel_preorder :: PreOrder R;
  ctl_rel_same : ∀ w w', w_ctl w' = w_ctl w → R w w';
  ctl_rel_env : ∀ w op, R w (env_op w op);
}.

Section ctl_rel.
Context (R : World → World → Prop) `{!CtlRel R}.

Lemma ctl_rel_tick w : R w (tick w).
Proof.
  unfold tick. destruct (w_env w) as [|ops env]; [reflexivity|].
  transitivity (set_env w env); [by apply ctl_rel_same|].
  generalize (set_env w env). clear w. induction ops as [|op ops IH]; intros w; simpl; [reflexivity|].
  transitivity (env_op w op); [apply ctl_rel_env|apply IH].
Qed.
#[export] Instance ctl_rel_runner : RunnerRel R.
Proof.
  split; [apply _|apply ctl_rel_tick|..]; intros; by apply ctl_rel_same.
Qed.
Lemma keeps_same_ctl {A} (f : World → World * A) :
  (∀ w, w_ctl (f w).1 = w_ctl w) → keeps R (atomically f).
Proof.
  intros Hf. apply keeps_atomically; [apply _|apply ctl_rel_tick|]. intros w. by apply ctl_rel_same.
Qed.
End ctl_rel.

(** A property of the control plane that other threads cannot break. *)
Lemma env_stable (I : LoopControl → Prop) :
  (∀ c s, I c → I (mark_cancel_exchange c s).1) → (∀ c, I c → I (fire_token c)) →
  (∀ c config, I c → I (update_locked c config).1) → (∀ c i a, I c → I (answer c i a).1) →
  CtlRel (λ w w', I (w_ctl w) → I (w_ctl w')).
Proof.
  intros Hm Hf Hu Ha. split.
  - split; [by intros w|intros w1 w2 w3; auto].
  - intros w w' ->. done.
  - intros w op. destruct op; simpl; auto.
    + destruct (is_active _); simpl; auto.
    + destruct (validate_against_limits _ _) as [[|]|]; simpl; auto.
Qed.

Lemma ctl_rel_and R S : CtlRel R → CtlRel S → CtlRel (λ w w', R w w' ∧ S w w').
Proof.
  intros HR HS. split.
  - split; [intros w; split; reflexivity|].
    intros w1 w2 w3 [? ?] [? ?]. split; etransitivity; eassumption.
  - intros. split; by apply ctl_rel_same.
  - intros. split; apply ctl_rel_env.
Qed.

(** No interaction is open; a fired token stays fired. *)
Definition idle (w : World) : Prop := c_interaction (w_ctl w) = None.
Definition fired (w : World) : Prop := c_cancel (w_ctl w) = true.

Definition calm (w w' : World) : Prop := (idle w → idle w') ∧ (fired w → fired w').

#[export] Instance idle_ctl_rel : CtlRel (λ w w', idle w → idle w').
Proof.
  apply (env_stable (λ c, c_interaction c = None)).
  - intros c s. unfold mark_cancel_exchange, compare_exchange. by destruct (_ =? _).
  - done.
  - intros c config. unfold update_locked. by destruct (_ || _).
  - intros c i a Hi. unfold answer. rewrite Hi. by destruct (_ || _).
Qed.
#[export] Instance fired_ctl_rel : CtlRel (λ w w', fired w → fired w').
Proof.
  apply (env_stable (λ c, c_cancel c = true)).
  - intros c s. unfold mark_cancel_exchange, compare_exchange. by destruct (_ =? _).
  - done.
  - intros c config. unfold update_locked. by destruct (_ || _).
  - intros c i a Hi. unfold answer. destruct (_ || _); [done|].
    destruct (c_interaction c); [|done]. destruct (negb _); [done|].
    by destruct (InteractionAnswer_validate _ _).
Qed.
#[export] Instance calm_ctl_rel : CtlRel calm.
Proof. apply ctl_rel_and; apply _. Qed.

(** Steps on the control plane that are not a seal. *)
Definition ctl_keeps (f : LoopControl → LoopControl) : Prop := ∀ c,
  (c_state c < STATE_FINISHED → c_state (f c) < STATE_FINISHED) ∧
  c_completion (f c) = c_completion c ∧ c_id (f c) = c_id c ∧ c_limits (f c) = c_limits c ∧
  c_current_revision (f c) = c_current_revision c ∧
  (∀ p, c_pending_config (f c) = Some p → c_pending_config c = Some p).

Lemma keeps_step {A} (f : World → World * A) :
  (∀ w, step_ok w (f w).1) → keeps step_ok (atomically f).
Proof. apply keeps_atomically; [apply _|apply tick_step]. Qed.

Lemma step_ok_ctl w c :
  (c_state (w_ctl w) < STATE_FINISHED → c_state c < STATE_FINISHED) →
  c_completion c = c_completion (w_ctl w) → c_id c = c_id (w_ctl w) →
  c_limits c = c_limits (w_ctl w) → c_current_revision c = c_current_revision (w_ctl w) →
  (∀ p, c_pending_config c = Some p → c_pending_config (w_ctl w) = Some p) → step_ok w (set_ctl w c).
Proof.
  intros Hs Hcm Hi Hl Hr Hp. split.
  - split; simpl; try done.
    + intros [? ?]. split; simpl; [auto|congruence].
    + exists []. by rewrite app_nil_r.
  - intros [He Hc]. split; [done|]. intros p Hp'. apply Hc, Hp, Hp'.
Qed.

Lemma keeps_with_ctl {A} (f : LoopControl → LoopControl * A) :
  ctl_keeps (λ c, (f c).1) → keeps step_ok (with_ctl f).
Proof.
  intros Hf. apply keeps_step. intros w. specialize (Hf (w_ctl w)). simpl in Hf.
  destruct (f (w_ctl w)) as [c a]. by apply step_ok_ctl; apply Hf.
Qed.

Section walk.
Context (R : World → World → Prop) `{!RunnerRel R}.

Lemma keeps_frame {A} (f : World → World * A) :
  (∀ w, w_ctl (f w).1 = w_ctl w ∧ w_env (f w).1 = w_env w ∧
    w_prompt_polls (f w).1 = w_prompt_polls w ∧ w_inputs (f w).1 = w_inputs w ∧ w_trace (f w).1 = w_trace w ∧
    w_sync (f w).1 `suffix_of` w_sync w) →
  keeps R (atomically f).
Proof.
  intros Hf. apply keeps_atomically; [apply _|apply rr_tick|]. intros w. by apply rr_frame; apply Hf.
Qed.
Lemma keeps_read_ctl {A} (f : LoopControl → A) : keeps R (read_ctl f).
Proof. by apply keeps_frame. Qed.
Lemma keeps_get {A} (f : World → A) : keeps R (atomically (λ w, (w, f w))).
Proof. by apply keeps_frame. Qed.
Lemma keeps_emit e : keeps R (emit e).
Proof. by apply keeps_frame. Qed.
Lemma keeps_record_loss n : keeps R (record_loss n).
Proof. by apply keeps_frame. Qed.
Lemma keeps_now : keeps R now.
Proof. by apply keeps_frame. Qed.
Lemma keeps_is_cancelled : keeps R is_cancelled.
Proof. apply keeps_read_ctl. Qed.
Lemma keeps_trace c : ordinary c → keeps R (trace c).
Proof. intros Hc w. by apply rr_trace. Qed.
Lemma keeps_host_panics : keeps R host_panics.
Proof. apply keeps_frame. intros w. destruct (w_sync w) as [|b sync] eqn:E; simpl; split_and!; try done; [by rewrite E|by exists [b]]. Qed.
Lemma keeps_host_sync : keeps R host_sync.
Proof.
  apply keeps_bind; [apply _|apply keeps_host_panics|].
  intros []; [apply keeps_panic|apply keeps_ret]; apply _.
Qed.
Lemma keeps_expect {A} (o : option A) : keeps R (expect o).
Proof. destruct o; [apply keeps_ret|apply keeps_panic]; apply _. Qed.
Lemma keeps_take_inputs : keeps R take_inputs.
Proof.
  apply keeps_bind; [apply _|apply keeps_host_sync|intros _ w].
  unfold mbind, exec_bind, atomically.
  destruct (w_inputs (tick w)) as [|inputs rest] eqn:E; simpl; (transitivity (tick w); [apply rr_tick|]).
  - assert (concat (w_inputs (tick w)) = [] ++ concat []) as Hi by (by rewrite E).
    pose proof (rr_take (tick w) [] [] Hi) as Hr. unfold set_host in Hr. rewrite <- E in Hr. by destruct (tick w).
  - apply rr_take. by rewrite E.
Qed.
End walk.
End steps.

(** A step that leaves the fields [step_ok] is about alone. *)
Ltac step_frame := by apply rr_frame.

Create HintDb exec.
#[export] Hint Resolve quietly_ret quietly_pause quietly_now quietly_read_ctl quietly_is_cancelled quietly_emit quietly_record_loss
  quietly_host_panics : exec.
#[export] Hint Resolve keeps_read_ctl keeps_get keeps_emit keeps_record_loss keeps_now
  keeps_is_cancelled keeps_host_panics keeps_host_sync keeps_expect keeps_take_inputs : exec.
#[export] Hint Extern 1 (RunnerRel _) => apply _ : exec.
#[export] Hint Extern 1 (keeps _ (trace _)) => (apply keeps_trace; [apply _|exact I]) : exec.

Ltac quietly_tac :=
  repeat match goal with
  | |- quietly (mbind _ _) => apply quietly_bind; [|intros ?]
  | |- quietly (mret _) => apply quietly_ret
  | |- quietly (if ?b then _ else _) => destruct b
  | |- quietly (match ?x with _ => _ end) => destruct x
  | |- quietly _ => solve [eauto with exec]
  end.

(** Walks through a computation, leaving what no hint resolves. *)
Ltac keeps_tac :=
  repeat match goal with
  | |- keeps _ (mbind _ _) => apply keeps_bind; [apply _| |intros ?]
  | |- keeps _ (mret _) => apply keeps_ret, _
  | |- keeps _ panic => apply keeps_panic, _
  | |- keeps _ pause => apply keeps_pause, _
  | |- keeps _ (if ?b then _ else _) => destruct b
  | |- keeps _ (match ?x with _ => _ end) => destruct x
  | |- keeps _ _ => solve [eauto with exec]
  end.
