(* ===== verification/PortCall.v ===== *)
(** * Port calls: cancellation, deadline and panic isolation

    Models src/src/port_call.rs. The host's future is the list of its successive
    polls, kept in the world: [pop] takes the next one and does what that poll
    does besides its result, [on_pending] is what the caller's select loop does
    when the future is pending. The wait recurses on its [patience]; at zero the
    future never answers, nobody is left to act, and the run is paused. The child
    token is cancelled on every ending: the trace records it. The future is dropped
    when the call returns, and nothing here catches a destructor that panics. *)

From S2P Require Import Prelude Text Json Ids Limits ToolTypes ModelError Message Request Failure History Prompt Event Control Options World Steps.
Local Open Scope N_scope.

Inductive PortCallOutcome (T E : Type) : Type :=
| PcReturned (r : result E T)
| PcCancelled
| PcDeadlineExceeded (source : DeadlineSource)
| PcInvalidDeadline
| PcPanicked.
Arguments PcReturned {T E} r.
Arguments PcCancelled {T E}.
Arguments PcDeadlineExceeded {T E} source.
Arguments PcInvalidDeadline {T E}.
Arguments PcPanicked {T E}.

Inductive WaitOutcome (T : Type) : Type := WCancelled | WDeadline | WReady (t : T) | WPanicked.
Arguments WCancelled {T}.
Arguments WDeadline {T}.
Arguments WReady {T} t.
Arguments WPanicked {T}.

Section port.
Context `{SerdeJson} {T E : Type}.
Context (pop : World → World * poll (result E T)) (on_pending : exec ()).

(** The biased [select!]: cancellation, then the deadline, then the future. *)
Fixpoint port_wait (deadline : N) (polls : nat) : exec (WaitOutcome (result E T)) :=
  cancelled ← is_cancelled;
  if (cancelled : bool) then mret WCancelled
  else
    t ← now;
    if deadline <=? t then mret WDeadline
    else
      match polls with
      | O => pause
      | S polls =>
          p ← atomically pop;
          match (p : poll (result E T)) with
          | PollReady r => mret (WReady r)
          | PollPanic => mret WPanicked
          | PollPending => on_pending;; port_wait deadline polls
          end
      end.

Definition run_port_call (left : World → nat) (call : HostCall) (turn_deadline port_timeout : N) :
    exec (PortCallOutcome T E) :=
  cancelled ← is_cancelled;
  if (cancelled : bool) then mret PcCancelled
  else
    t ← now;
    match effective_deadline_from t turn_deadline port_timeout with
    | Err _ => mret PcInvalidDeadline
    | Ok deadline =>
        t ← now;
        if ed_tokio deadline <=? t then mret (PcDeadlineExceeded (ed_source deadline))
        else
          trace call;;
          panicked ← host_panics;
          if (panicked : bool) then trace HcChildCancelled;; mret PcPanicked
          else
            polls ← atomically (λ w, (w, patience (left w) w));
            r ← port_wait (ed_tokio deadline) polls;
            trace HcChildCancelled;;
            host_sync;;
            mret match (r : WaitOutcome (result E T)) with
                 | WCancelled => PcCancelled
                 | WDeadline => PcDeadlineExceeded (ed_source deadline)
                 | WReady r => PcReturned r
                 | WPanicked => PcPanicked
                 end
    end.

(** ** Facts *)

(** What a call keeps, if the polls and the caller's loop do. *)
Section keeps.
Context (R : World → World → Prop) `{!RunnerRel R}.
Hypothesis pop_keeps : keeps R (atomically pop).
Hypothesis on_pending_keeps : keeps R on_pending.

Lemma keeps_port_wait deadline polls : keeps R (port_wait deadline polls).
Proof. induction polls as [|n IH]; cbn [port_wait]; keeps_tac. Qed.
#[local] Hint Resolve keeps_port_wait : exec.

Lemma keeps_run_port_call left call turn timeout :
  ordinary call → keeps R (run_port_call left call turn timeout).
Proof. intros Hc. unfold run_port_call. keeps_tac. by apply keeps_trace.
Qed.
End keeps.

Section contract.
Hypothesis pop_quiet : quietly (atomically pop).
Hypothesis on_pending_quiet : quietly on_pending.

Lemma is_cancelled_Done w b w' :
  is_cancelled w = Done b w' → quiet w w' ∧ c_cancel (w_ctl w') = b.
Proof. intros [= <- <-]. split; [apply tick_quiet|done]. Qed.

Lemma now_Done w t w' : now w = Done t w' → quiet w w' ∧ w_now w' = t.
Proof. intros [= <- <-]. split; [apply tick_quiet|done]. Qed.

(** Waiting makes no call, does not panic, and each ending has its cause. *)
Lemma port_wait_spec deadline polls : ∀ w,
  match port_wait deadline polls w with
  | Done r w' => quiet w w' ∧
      match r with
      | WCancelled => c_cancel (w_ctl w') = true
      | WDeadline => deadline ≤ w_now w'
      | _ => True
      end
  | Paused w' => quiet w w'
  | _ => False
  end.
Proof.
  induction polls as [|n IH]; intros w; cbn [port_wait]; unfold mbind, exec_bind.
  all: destruct (is_cancelled w) as [b w1| | |] eqn:E1; try discriminate E1.
  all: apply is_cancelled_Done in E1 as [Hq1 Hb]; destruct b; [done|].
  all: destruct (now w1) as [t w2| | |] eqn:E2; try discriminate E2.
  all: apply now_Done in E2 as [Hq2 Ht].
  all: assert (quiet w w2) as Hq by (by transitivity w1).
  all: destruct (N.leb_spec deadline t); [split; [done|]; by rewrite Ht|].
  - done.
  - pose proof (pop_quiet w2) as Hp. destruct (atomically pop w2) as [p w3|w3|w3|]; try done.
    + assert (quiet w w3) by (by transitivity w2).
      destruct p as [| |r]; try done.
      pose proof (on_pending_quiet w3) as Ho. destruct (on_pending w3) as [[] w4|w4|w4|]; try done.
      * assert (quiet w w4) as Hq4 by (by transitivity w3).
        specialize (IH w4). destruct (port_wait deadline n w4) as [r w5|w5|w5|]; try done.
        -- destruct IH as [? ?]. split; [by transitivity w4|done].
        -- by transitivity w4.
      * by transitivity w3.
    + by transitivity w2.
Qed.

Definition port_call_result (call : HostCall) (turn timeout : N) (w : World)
    (r : PortCallOutcome T E) (w' : World) : Prop :=
  match r with
  | PcReturned _ | PcPanicked => w_trace w' = w_trace w ++ [call; HcChildCancelled]
  | PcCancelled =>
      c_cancel (w_ctl w') = true ∧
      (w_trace w' = w_trace w ∨ w_trace w' = w_trace w ++ [call; HcChildCancelled])
  | PcDeadlineExceeded source =>
      match source with DsTurn => turn ≤ w_now w' | DsPort => w_now w + timeout ≤ w_now w' end ∧
      (w_trace w' = w_trace w ∨ w_trace w' = w_trace w ++ [call; HcChildCancelled])
  | PcInvalidDeadline => w_trace w' = w_trace w ∧ INSTANT_MAX < w_now w' + timeout
  end.

Lemma run_port_call_spec left call turn timeout w :
  match run_port_call left call turn timeout w with
  | Done r w' => port_call_result call turn timeout w r w' ∧ w_now w ≤ w_now w'
  | Panicked w' => w_trace w' = w_trace w ++ [call; HcChildCancelled]
  | Paused w' => w_trace w' = w_trace w ++ [call]
  | OutOfFuel => False
  end.
Proof.
  unfold run_port_call, mbind, exec_bind.
  destruct (is_cancelled w) as [b w1| | |] eqn:E1; try discriminate E1.
  apply is_cancelled_Done in E1 as [[Ht1 Hn1] Hb]. destruct b.
  { split; [|done]. split; [done|by left]. }
  destruct (now w1) as [t w2| | |] eqn:E2; try discriminate E2.
  apply now_Done in E2 as [[Ht2 Hn2] Ht].
  destruct (effective_deadline_from t turn timeout) as [d|e] eqn:Ed.
  2: { split; [|lia]. split; [congruence|]. subst t.
       destruct (N.le_gt_cases (w_now w2 + timeout) INSTANT_MAX) as [Hle|]; [|done].
       exfalso. unfold effective_deadline_from, instant_checked_add in Ed.
       rewrite (proj2 (checked_add_Some _ _ _ (w_now w2 + timeout))) in Ed by done. simpl in Ed.
       by destruct (turn <=? w_now w2 + timeout). }
  assert (∀ w', ed_tokio d ≤ w_now w' →
    match ed_source d with DsTurn => turn ≤ w_now w' | DsPort => w_now w + timeout ≤ w_now w' end) as Hd.
  { apply effective_deadline_from_Ok in Ed as [_ ->]. intros w'. subst t.
    destruct (turn <=? w_now w2 + timeout); simpl; lia. }
  destruct (now w2) as [t3 w3| | |] eqn:E3; try discriminate E3.
  apply now_Done in E3 as [[Ht3 Hn3] Hw3].
  assert (w_trace w3 = w_trace w) as Htr by congruence.
  destruct (N.leb_spec (ed_tokio d) t3) as [Hl|Hl].
  { split; [|lia]. split; [apply Hd; lia|by left]. }
  unfold trace at 1. pose proof (quietly_host_panics (add_trace w3 call)) as Hh.
  destruct (host_panics (add_trace w3 call)) as [b w4|w4|w4|]; try done; destruct Hh as [Ht4 Hn4]; simpl in *.
  2: by rewrite Ht4, Htr.
  assert (w_trace w4 = w_trace w ++ [call]) as Htr4 by congruence.
  destruct b; cbn [trace].
  { unfold trace, mret, exec_ret. split; [|simpl; lia]. simpl. by rewrite Htr4, <- app_assoc. }
  pose proof (port_wait_spec (ed_tokio d) (patience (left (tick w4)) (tick w4)) (tick w4)) as Hw.
  destruct (tick_quiet w4) as [Ht5 Hn5].
  destruct (port_wait _ _ (tick w4)) as [r w6|w6|w6|]; try done.
  - destruct Hw as [[Ht6 Hn6] Hr]. unfold trace.
    assert (w_trace (add_trace w6 HcChildCancelled) = w_trace w ++ [call; HcChildCancelled]) as Hend.
    { simpl. rewrite Ht6, Ht5, Htr4, <- app_assoc. done. }
    pose proof (host_sync_spec (add_trace w6 HcChildCancelled)) as Hs. unfold wp in Hs.
    pose proof (keeps_host_sync (λ w w', fired w → fired w') (add_trace w6 HcChildCancelled)) as Hf.
    destruct (host_sync _) as [[] w7|w7|w7|]; try done; try (by destruct Hs as [[=] _]).
    2: { destruct Hs as [_ [Ht7 _]]. congruence. }
    destruct Hs as [Ht7 Hn7].
    rewrite Hend in Ht7. simpl in Hn7. unfold mret, exec_ret. split; [|lia].
    destruct r; simpl in *; [split; [by apply Hf|by right]|split; [apply Hd; lia|by right]|done..].
  - destruct Hw as [Ht6 Hn6]. congruence.
Qed.

(** Where a call stops short: waiting, or in the destructor of its future. *)
Definition port_stop (call : HostCall) (w : World) (panicked : bool) (w' : World) : Prop :=
  w_trace w' = w_trace w ++ call :: (if panicked then [HcChildCancelled] else []).
Definition dropping (w : World) : Prop := last (w_trace w) = Some HcChildCancelled.

Lemma port_stop_dropping call w b w' : port_stop call w b w' → b = true → dropping w'.
Proof. unfold dropping. intros Ht ->. by rewrite Ht, last_app_cons. Qed.
Lemma port_stop_rest call w b w' : port_stop call w b w' →
  ∃ q rest, w_trace w' = w_trace w ++ q ∧ q ++ rest = [call; HcChildCancelled].
Proof.
  intros Ht. exists (call :: (if b then [HcChildCancelled] else [])), (if b then [] else [HcChildCancelled]).
  split; [exact Ht|by destruct b].
Qed.

(** The same, as a rule, with what the call keeps of the control plane. *)
Lemma wp_run_port_call left call turn timeout w :
  ordinary call → keeps calm (atomically pop) → keeps calm on_pending →
  wp (run_port_call left call turn timeout) w
    (λ r w', (port_call_result call turn timeout w r w' ∧ w_now w ≤ w_now w') ∧ calm w w')
    (port_stop call w).
Proof.
  intros Hc Hp Ho. pose proof (keeps_run_port_call calm Hp Ho left call turn timeout Hc w) as Hk.
  pose proof (run_port_call_spec left call turn timeout w) as Hs. unfold wp.
  by destruct (run_port_call left call turn timeout w).
Qed.
End contract.
End port.

Section ports.
Context `{SerdeJson}.

(** The polls of the prompt provider and of the policy. *)
Definition pop_prompt (w : World) :
    World * poll (result PromptError (list ModelMessage)) :=
  match w_prompt_polls w with
  | [] => (w, PollPending)
  | p :: polls => (set_prompt_polls polls w, p)
  end.
Definition pop_policy (w : World) : World * poll (result ToolPolicyError ToolDecision) :=
  match w_policy_polls w with
  | [] => (w, PollPending)
  | p :: polls => (set_policy_polls polls w, p)
  end.

Lemma keeps_pop_prompt : keeps step_ok (atomically pop_prompt).
Proof.
  apply keeps_step. intros w. unfold pop_prompt. destruct (w_prompt_polls w) eqn:E; [reflexivity|].
  split; [split; simpl; try done; [rewrite E; simpl; lia|]|done]. exists []. by rewrite app_nil_r.
Qed.
Lemma calm_pop_prompt : keeps calm (atomically pop_prompt).
Proof. apply (keeps_same_ctl calm). intros w. unfold pop_prompt. by destruct (w_prompt_polls w). Qed.
Lemma quietly_pop_prompt : quietly (atomically pop_prompt).
Proof. apply quietly_atomically. intros w. unfold pop_prompt. by destruct (w_prompt_polls w). Qed.
Lemma keeps_pop_policy R `{!RunnerRel R} : keeps R (atomically pop_policy).
Proof. apply (keeps_frame R). intros w. unfold pop_policy. by destruct (w_policy_polls w). Qed.
Lemma quietly_pop_policy : quietly (atomically pop_policy).
Proof. apply quietly_atomically. intros w. unfold pop_policy. by destruct (w_policy_polls w). Qed.

(** C24: a call into the host is isolated. Whatever port is called (the prompt
    provider, the policy, a tool), as long as a poll of it and what the runner does
    while it is pending make no other host call and do not panic themselves, and
    whatever the host and the other threads do: the call is caught when it panics,
    unless it is the destructor of its future that does; its future is made at most
    once, and its child token is cancelled on every ending after that, a panicking one
    included; a cancelled ending means the loop's token has fired, a turn deadline that
    the loop's deadline has passed, and a port deadline that the whole timeout has gone
    by since the call. *)
Theorem port_call_contract {T E : Type} (pop : World → World * poll (result E T)) (on_pending : exec ())
    (left : World → nat) (call : HostCall) (turn timeout : N) (w : World) :
  quietly (atomically pop) → quietly on_pending →
  match run_port_call pop on_pending left call turn timeout w with
  | Done r w' => port_call_result call turn timeout w r w' ∧ w_now w ≤ w_now w'
  | Panicked w' => w_trace w' = w_trace w ++ [call; HcChildCancelled]
  | Paused w' => w_trace w' = w_trace w ++ [call]
  | OutOfFuel => False
  end.
Proof. intros Hp Ho. by apply run_port_call_spec. Qed.

(** A completed prompt used at least one poll. *)
Lemma port_wait_prompt_uses deadline polls : ∀ w r w',
  port_wait pop_prompt (mret ()) deadline polls w = Done r w' →
  match r with WReady _ => (length (w_prompt_polls w') < length (w_prompt_polls w))%nat | _ => True end.
Proof.
  assert (Htick : ∀ w, (length (w_prompt_polls (tick w)) ≤ length (w_prompt_polls w))%nat)
    by (intros w; apply tick_step).
  induction polls as [|n IH]; intros w r w'; cbn [port_wait]; rewrite exec_bind_Done;
    intros ([] & w1 & E1 & E2); try (by injection E2 as <- <-);
    apply exec_bind_Done in E2 as (t & w2 & E2 & E3);
    (destruct (deadline <=? t); [by injection E3 as <- <-|]); [discriminate E3|].
  apply exec_bind_Done in E3 as (p & w3 & E3 & E4).
  injection E1 as _ E1. injection E2 as _ E2.
  assert ((length (w_prompt_polls (tick w2)) ≤ length (w_prompt_polls w))%nat) as Hle.
  { etransitivity; [apply Htick|]. rewrite <- E2. etransitivity; [apply Htick|]. rewrite <- E1. apply Htick. }
  assert (length (w_prompt_polls w3) ≤ length (w_prompt_polls w) ∧
    ∀ r0, p = PollReady r0 → length (w_prompt_polls w3) < length (w_prompt_polls w))%nat as [Hle3 Hlt3].
  { unfold atomically, pop_prompt in E3. destruct (w_prompt_polls (tick w2)) as [|q qs] eqn:Eq;
      injection E3 as <- <-; rewrite ?Eq; simpl in *; split; intros; (done || lia). }
  destruct p as [| |r0].
  - apply exec_bind_Done in E4 as ([] & w4 & [= <-] & E5). apply IH in E5. destruct r; try done. lia.
  - by injection E4 as <- <-.
  - injection E4 as <- <-. by apply (Hlt3 r0).
Qed.

Lemma prompt_call_uses call turn timeout w r w' :
  ordinary call →
  run_port_call pop_prompt (mret ()) (λ w, length (w_prompt_polls w)) call turn timeout w
    = Done (PcReturned r) w' →
  (length (w_prompt_polls w') < length (w_prompt_polls w))%nat.
Proof.
  intros Hcall. unfold run_port_call.
  assert (∀ w w', step_ok w w' → (length (w_prompt_polls w') ≤ length (w_prompt_polls w))%nat) as Hle
    by (intros ? ? Hs; apply Hs).
  rewrite exec_bind_Done. intros ([] & w1 & E1 & E); [discriminate E|].
  apply (keeps_Done step_ok) in E1; [|auto with exec]. apply exec_bind_Done in E as (t & w2 & E2 & E).
  apply (keeps_Done step_ok) in E2; [|auto with exec].
  destruct (effective_deadline_from _ _ _) as [d|]; [|discriminate E].
  apply exec_bind_Done in E as (t3 & w3 & E3 & E). apply (keeps_Done step_ok) in E3; [|auto with exec].
  destruct (ed_tokio d <=? t3); [discriminate E|].
  apply exec_bind_Done in E as ([] & w4 & E4 & E).
  apply (keeps_Done step_ok) in E4; [|by apply (keeps_trace step_ok)].
  apply exec_bind_Done in E as ([] & w5 & E5 & E); (apply (keeps_Done step_ok) in E5; [|auto with exec]).
  { by apply exec_bind_Done in E as (? & ? & _ & [=]). }
  apply exec_bind_Done in E as (n & w6 & E6 & E). apply (keeps_Done step_ok) in E6; [|auto with exec].
  apply exec_bind_Done in E as (wo & w7 & E7 & E). apply exec_bind_Done in E as ([] & w8 & E8 & E).
  apply (keeps_Done step_ok) in E8; [|auto with exec]. apply exec_bind_Done in E as ([] & w9 & E9 & E).
  apply (keeps_Done step_ok) in E9; [|auto with exec]. injection E as E <-.
  apply port_wait_prompt_uses in E7. destruct wo as [| |r'|]; try discriminate E.
  repeat match goal with Hs : step_ok _ _ |- _ => apply Hle in Hs end. lia.
Qed.
End ports.
