(* ===== verification/Conformance.v ===== *)
(** * The crate's unit tests, on the model

    The unit tests of time.rs, usage.rs, tools/progress.rs, port_call.rs and
    agent_loop/control.rs, replayed: a test is a boolean, the conjunction of its
    assertions over the model's definitions, and is checked by computation. What a
    test leaves to the scheduler is a list here, or all lists of a kind: the test of
    port_call.rs that races two timers is run for every moment at which the time may
    pass, and the randomized race of control.rs for every interleaving of the atomic
    steps of its three tasks ([races_preserve_linearization]). The tests of
    control.rs that ask whether the mutex is held while a destructor runs are in
    [LockTests], on a model that takes a critical section access by access. *)

From S2P Require Import Prelude Text Json Ids Limits ToolTypes Progress ToolSet ModelError Message Request Failure History Prompt Event Control Options World Steps PortCall.
Local Open Scope N_scope.

Definition passes {A : Type} `{EqDecision A} (actual expected : A) : bool := bool_decide (actual = expected).

(** ** time.rs *)

Section time_tests.
Context (standard_now : N).

Definition seconds (n : N) : N := n * NANOS.

(** What the three tests of a selection assert. *)
Definition selects (turn_after port_timeout deadline_after : N) (source : DeadlineSource) : bool :=
  match effective_deadline_from standard_now (standard_now + turn_after) port_timeout with
  | Ok selected =>
      (ed_standard selected =? standard_now + deadline_after) && (ed_tokio selected =? standard_now + deadline_after)
      && passes (ed_source selected) source
  | Err _ => false
  end.

Definition effective_deadline_selects_an_earlier_turn : bool := selects (seconds 2) (seconds 5) (seconds 2) DsTurn.
Definition effective_deadline_selects_an_earlier_port_timeout : bool :=
  selects (seconds 5) (seconds 2) (seconds 2) DsPort.
Definition equal_deadlines_choose_turn_conservatively : bool := selects (seconds 3) (seconds 3) (seconds 3) DsTurn.
Definition deadline_overflow_is_checked : bool :=
  match effective_deadline_from standard_now standard_now DURATION_MAX with Err _ => true | Ok _ => false end.
End time_tests.

(** At any time of the clock that leaves room for the longest of the timeouts. *)
Lemma time_tests_pass now :
  now + seconds 5 ≤ INSTANT_MAX →
  effective_deadline_selects_an_earlier_turn now && effective_deadline_selects_an_earlier_port_timeout now
  && equal_deadlines_choose_turn_conservatively now && deadline_overflow_is_checked now = true.
Proof.
  unfold seconds at 1. intros Hnow.
  assert (∀ t p d s, p ≤ 5 → (t <=? p) = bool_decide (s = DsTurn) → d = N.min t p →
    selects now (seconds t) (seconds p) (seconds d) s = true) as Hsel.
  { intros t p d s Hp Hs ->. unfold selects, seconds, passes.
    assert (now + p * NANOS ≤ INSTANT_MAX) as Hfit by (etrans; [|exact Hnow]; unfold NANOS; lia).
    rewrite (proj2 (effective_deadline_from_Ok now (now + t * NANOS) (p * NANOS) _) (conj Hfit eq_refl)).
    replace (now + t * NANOS <=? now + p * NANOS) with (t <=? p)
      by (apply eq_true_iff_eq; rewrite !N.leb_le; unfold NANOS; lia).
    destruct (N.leb_spec t p); rewrite ?N.min_l, ?N.min_r by lia; symmetry in Hs; case_bool_decide; try done;
      simpl; rewrite N.eqb_refl; destruct s; done. }
  unfold effective_deadline_selects_an_earlier_turn, effective_deadline_selects_an_earlier_port_timeout,
    equal_deadlines_choose_turn_conservatively.
  rewrite !Hsel by done. unfold deadline_overflow_is_checked.
  destruct (effective_deadline_from now now DURATION_MAX) as [d|e] eqn:E; [|done].
  apply effective_deadline_from_Ok in E as [Hle _]. unfold DURATION_MAX, INSTANT_MAX, NANOS in *. lia.
Qed.

(** ** usage.rs *)

Definition reported : list Usage :=
  [Usage_default;
   with_cache_read_tokens (Usage_from_optional (Some 2) None None) (Some 3);
   Usage_from_optional None (Some 4) None;
   Usage_from_optional (Some 5) None None].
(** Adds and unwraps one after another. *)
Fixpoint add_all (usage : Usage) (values : list Usage) : option Usage :=
  match values with
  | [] => Some usage
  | value :: values =>
      match UsageAccumulator_add usage value with
      | (usage, Ok _) => add_all usage values
      | (_, Err _) => None
      end
  end.
Definition missing_fields_do_not_erase_reported_usage : bool :=
  match add_all Usage_default reported with
  | Some total =>
      passes (input_tokens total) (Some 7) && passes (output_tokens total) (Some 4)
      && passes (cache_read_tokens total) (Some 3) && passes (reasoning_tokens total) None
      && passes (cache_write_tokens total) None
  | None => false
  end.

Lemma usage_test_passes : missing_fields_do_not_erase_reported_usage = true.
Proof. reflexivity. Qed.

(** ** tools/progress.rs *)

(** [tokio::sync::mpsc]: what was sent, what was received, the capacity, and whether
    the receiver lives. *)
Record Channel := mkChannel {
  ch_sent : list ToolProgress;
  ch_received : nat;
  ch_capacity : nat;
  ch_open : bool;
}.

Definition try_send (c : Channel) (progress : ToolProgress) : Channel * bool :=
  if ch_open c && Nat.ltb (length (ch_sent c) - ch_received c) (ch_capacity c)
  then (mkChannel (ch_sent c ++ [progress]) (ch_received c) (ch_capacity c) true, true)
  else (c, false).
Definition try_recv (c : Channel) : Channel * option ToolProgress :=
  match ch_sent c !! ch_received c with
  | Some progress => (mkChannel (ch_sent c) (S (ch_received c)) (ch_capacity c) (ch_open c), Some progress)
  | None => (c, None)
  end.
Definition drop_receiver (c : Channel) : Channel := mkChannel (ch_sent c) (ch_received c) (ch_capacity c) false.

Lemma try_send_taken c progress :
  ch_sent (try_send c progress).1 = ch_sent c ++ (if (try_send c progress).2 then [progress] else []).
Proof. unfold try_send. destruct (_ && _); [done|]. by rewrite app_nil_r. Qed.

Definition ChannelEmitter : ToolProgressEmitter Channel := {|
  emitter_emit := try_send;
  emitter_taken := ch_sent;
  emitter_law := try_send_taken;
|}.

Definition channel (capacity : nat) : ToolProgressSink Channel * Channel :=
  (ToolProgressSink_from_emitter ChannelEmitter, mkChannel [] 0 capacity true).

Definition working_progress : ToolProgress := mkToolProgress (Some (mkBoundedText (lit "working"))) (Some 1) (Some 2).
Definition working_progress_new : bool :=
  match BoundedText_new (lit "working") with
  | Ok text => match ToolProgress_new (Some text) (Some 1) (Some 2) with
               | Ok p => passes p working_progress
               | Err _ => false
               end
  | Err _ => false
  end.

Definition try_send_is_positive_when_the_bounded_channel_accepts : bool :=
  let '(sink, c) := channel 1 in
  let '(c, sent) := ToolProgressSink_emit sink c working_progress in
  sent && bool_decide (is_Some (try_recv c).2).

Definition try_send_reports_full_and_closed_without_waiting : bool :=
  let '(sink, c) := channel 1 in
  let '(c, first) := ToolProgressSink_emit sink c working_progress in
  let '(c, full) := ToolProgressSink_emit sink c working_progress in
  let '(c, closed) := ToolProgressSink_emit sink (drop_receiver c) working_progress in
  first && negb full && negb closed.

Definition invalid_progress_is_rejected_before_the_emitter : bool :=
  let '(sink, c) := channel 1 in
  let '(c, sent) := ToolProgressSink_emit sink c (mkToolProgress None (Some 2) (Some 1)) in
  negb sent && bool_decide ((try_recv c).2 = None).

Lemma progress_tests_pass :
  working_progress_new && try_send_is_positive_when_the_bounded_channel_accepts
  && try_send_reports_full_and_closed_without_waiting && invalid_progress_is_rejected_before_the_emitter = true.
Proof. vm_compute. reflexivity. Qed.

(** ** port_call.rs *)

(** The probe's future answers [Ok(())] or an adapter's error; the world keeps the
    polls of such futures in the place of the prompt provider's. *)
Section port_tests.
Notation H := demo.json (only parsing).

Inductive Adapter := mkAdapter.

Definition probe_poll (p : poll (result PromptError (list (ModelMessage (H := H))))) : poll (result Adapter ()) :=
  match p with
  | PollPending => PollPending
  | PollPanic => PollPanic
  | PollReady (Ok _) => PollReady (Ok ())
  | PollReady (Err _) => PollReady (Err mkAdapter)
  end.
Definition ready_ok : poll (result PromptError (list (ModelMessage (H := H)))) := PollReady (Ok []).
Definition ready_adapter : poll (result PromptError (list (ModelMessage (H := H)))) := PollReady (Err InvalidHistory).
Definition pop_probe (w : World (H := H)) : World (H := H) * poll (result Adapter ()) :=
  let '(w, p) := pop_prompt w in (w, probe_poll p).

(** [polls] of the future; [construction_panics]; what the others do. *)
Definition probe_world (polls : list (poll (result PromptError (list ModelMessage)))) (construction_panics : bool)
    (env : list (list EnvOp)) : World (H := H) :=
  mkWorld (seconds 100) demo_control.1 demo_control.2 env polls [] [] [] [] [construction_panics] [] [] [] 0 [] [].

(** The call of the test, and the closure's trace. *)
Definition closure_call : HostCall (H := H) := HcPrompt 0.
Definition port_test (turn_deadline port_timeout : N) (w : World (H := H)) :
    option (PortCallOutcome () Adapter * list (HostCall (H := H))) :=
  match run_port_call pop_probe (mret ()) (λ w, length (w_prompt_polls w)) closure_call turn_deadline port_timeout w with
  | Done r w => Some (r, w_trace w)
  | _ => None
  end.

(** The outcome, and either the closure was not called, or it was, and the child token
    was cancelled when the call ended. *)
Definition ends_uncalled (expected : PortCallOutcome () Adapter → bool) (r : option (PortCallOutcome () Adapter * list (HostCall (H := H)))) : bool :=
  match r with Some (outcome, []) => expected outcome | _ => false end.
Definition ends_cancelled (expected : PortCallOutcome () Adapter → bool) (r : option (PortCallOutcome () Adapter * list (HostCall (H := H)))) : bool :=
  match r with Some (outcome, [HcPrompt _; HcChildCancelled]) => expected outcome | _ => false end.

Definition is_panicked (o : PortCallOutcome () Adapter) : bool := match o with PcPanicked => true | _ => false end.
Definition is_cancelled_outcome (o : PortCallOutcome () Adapter) : bool := match o with PcCancelled => true | _ => false end.
Definition is_invalid_deadline (o : PortCallOutcome () Adapter) : bool := match o with PcInvalidDeadline => true | _ => false end.
Definition is_returned (o : PortCallOutcome () Adapter) : bool := match o with PcReturned _ => true | _ => false end.
Definition is_exceeded (source : DeadlineSource) (o : PortCallOutcome () Adapter) : bool :=
  match o with PcDeadlineExceeded s => passes s source | _ => false end.

Definition in_30s : N := seconds 130.

(** The batches up to the first poll of the future are empty: the test acts when the
    probe was polled. *)
Definition after_first_poll (ops : list (EnvOp (H := H))) : list (list (EnvOp (H := H))) := replicate 8 [] ++ [ops].
Definition user_cancels : list (EnvOp (H := H)) := [EnvCancel SrcUser; EnvFireToken].

Definition construction_panic_is_reported_and_cancels_child : bool :=
  ends_cancelled is_panicked (port_test in_30s (seconds 30) (probe_world [] true [])).

Definition poll_panic_cancels_child_before_future_drop : bool :=
  ends_cancelled is_panicked (port_test in_30s (seconds 30) (probe_world [PollPanic] false [])).

Definition returned_ok_and_err_results_cancel_child_before_future_drop : bool :=
  forallb (λ r, ends_cancelled is_returned (port_test in_30s (seconds 30) (probe_world [r] false [])))
    [ready_ok; ready_adapter].

Definition pre_cancel_and_expired_deadline_do_not_call_closure : bool :=
  ends_uncalled is_cancelled_outcome
    (port_test in_30s (seconds 30) (foldl env_op (probe_world [ready_ok] false []) user_cancels))
  && ends_uncalled (is_exceeded DsTurn) (port_test (seconds 99) (seconds 30) (probe_world [ready_ok] false [])).

Definition cancellation_wins_when_cancel_timeout_and_result_are_ready : bool :=
  ends_cancelled is_cancelled_outcome
    (port_test in_30s (seconds 5)
      (probe_world [PollPending; ready_ok] false (after_first_poll (EnvTime (seconds 5) :: user_cancels)))).

(** The future resolves when the deadline has passed; the time may pass before the
    call begins, between any two of its steps, or while its future is pending. *)
Definition deadline_wins_when_deadline_and_result_are_ready : bool :=
  forallb (λ k, match port_test (seconds 105) (seconds 30)
                  (probe_world [PollPending; ready_ok] false (replicate k [] ++ [[EnvTime (seconds 6)]])) with
                | Some (outcome, _) => is_exceeded DsTurn outcome
                | None => false
                end) (seq 0 9).

Definition invalid_effective_deadline_is_not_a_panic_or_closure_call : bool :=
  ends_uncalled is_invalid_deadline (port_test in_30s DURATION_MAX (probe_world [ready_ok] false [])).

Definition cancellation_cancels_child_before_future_drop : bool :=
  ends_cancelled is_cancelled_outcome
    (port_test in_30s (seconds 30) (probe_world [] false (after_first_poll user_cancels))).

Definition timeout_cancels_child_before_future_drop : bool :=
  ends_cancelled (is_exceeded DsPort)
    (port_test in_30s (seconds 5) (probe_world [] false (after_first_poll [EnvTime (seconds 6)]))).

Lemma port_call_tests_pass :
  construction_panic_is_reported_and_cancels_child && poll_panic_cancels_child_before_future_drop
  && returned_ok_and_err_results_cancel_child_before_future_drop
  && pre_cancel_and_expired_deadline_do_not_call_closure
  && cancellation_wins_when_cancel_timeout_and_result_are_ready
  && deadline_wins_when_deadline_and_result_are_ready
  && invalid_effective_deadline_is_not_a_panic_or_closure_call
  && cancellation_cancels_child_before_future_drop && timeout_cancels_child_before_future_drop = true.
Proof. vm_compute. reflexivity. Qed.
End port_tests.

(** ** agent_loop/control.rs *)

Section control_tests.
Notation H := demo.json (only parsing).

(** [NoopModel]: a handle and its descriptor. *)
Definition NoopModel_descriptor : result NameError (result ModelValueError ModelDescriptor) :=
  model ← ModelRef_from_str (lit "fake/noop");
  Ok (ModelDescriptor_new model 8192 [ReasonAuto] false).

Definition config_new : option (ExecutionConfig (H := H)) :=
  match NoopModel_descriptor with
  | Ok (Ok descriptor) =>
      match ExecutionConfig_new (λ _, Some descriptor) 0 ReasonAuto ToolSet_default None 0 with
      | Ok config => Some config
      | Err _ => None
      end
  | _ => None
  end.
Definition config : ExecutionConfig (H := H) :=
  default (mkExecutionConfig 0 (mkModelDescriptor (mkModelRef []) 0 [] false) ReasonAuto ToolSet_default None 0) config_new.

Definition control_new : option (LoopControl (H := H)) :=
  match LoopId_new [Some [7]] with
  | (Ok id, _) => match LoopControl_new id 16 LoopLimits_default with
                  | Ok (control, _) => Some control
                  | Err _ => None
                  end
  | (Err _, _) => None
  end.
Definition control : LoopControl (H := H) := default demo_control.1 control_new.

(** The [unwrap]s of the two. *)
Lemma config_control_new : config_new = Some config ∧ control_new = Some control.
Proof. split; reflexivity. Qed.

(** [control.update(config)] answers so. *)
Definition updates_to (c : LoopControl (H := H)) (expected : result UpdateError N) : bool :=
  match update c config with Some (_, r) => passes r expected | None => false end.
Definition updated (c : LoopControl (H := H)) : LoopControl (H := H) :=
  match update c config with Some (c, _) => c | None => c end.
(** [control.finish_once()]: the seal, and the control afterwards. *)
Definition seals (c : LoopControl (H := H)) (expected : FinishSeal) : bool :=
  match finish_once c with Some (_, (seal, _)) => passes seal expected | None => false end.
Definition sealed (c : LoopControl (H := H)) : LoopControl (H := H) :=
  match finish_once c with Some (c, _) => c | None => c end.

Definition pending_slot : option InteractionSlot :=
  match ApprovalRequest_new (lit "approve?") RiskLow, InteractionId_new [Some [9]] with
  | Ok request, (Ok id, _) => Some (mkInteractionSlot id (KindApproval request) 0)
  | _, _ => None
  end.

Definition cancellation_closes_mutations_before_the_final_seal : bool :=
  match pending_slot with
  | None => false
  | Some slot =>
      forallb (λ source,
        let '(c, receiver) := oneshot_channel control in
        let '(c, set) := set_interaction c slot in
        let '(c, won) := mark_cancel c source in
        is_ok set && won && negb (is_finished c) && updates_to c (Err UpNotActive)
        && passes (answer c (is_id slot) (AnswerApproval AllowOnce)).2 (Err AnNotActive)
        && match c_oneshots (answer c (is_id slot) (AnswerApproval AllowOnce)).1 !! receiver with
           | Some OsOpen => true
           | _ => false
           end
        && match (take_config c).2 with None => true | Some _ => false end)
        [SrcUser; SrcShutdown; SrcOwnerDropped]
  end.

Definition finish_once_seals_exactly_once_and_closes_accepting : bool :=
  seals control SealClean && seals (sealed control) SealAlreadyFinished
  && let c := sealed (sealed control) in
     is_finished c && negb (mark_cancel c SrcUser).2 && updates_to (mark_cancel c SrcUser).1 (Err UpNotActive).

Definition mark_cancel_then_finish_reports_cancelled_prior_and_locks : bool :=
  let '(c, won) := mark_cancel control SrcUser in
  won && seals c (SealCancelledPrior ReasonUser) && seals (sealed c) SealAlreadyFinished
  && let c := sealed (sealed c) in
     let '(c, again) := mark_cancel c SrcShutdown in
     negb again && bool_decide (cancel_reason c = ReasonUser) && updates_to c (Err UpNotActive).

Definition begin_final_closes_accepting_and_returns_the_pending_config : bool :=
  let '(c, discarded) := begin_final control in
  negb (bool_decide (is_Some discarded)) && updates_to c (Err UpNotActive)
  && let '(c, discarded) := begin_final (updated control) in
     updates_to control (Ok 1) && bool_decide (is_Some discarded)
     && negb (bool_decide (is_Some (take_config c).2)) && updates_to (take_config c).1 (Err UpNotActive).

Definition updates_are_monotonic_and_latest_wins_until_commit : bool :=
  match update control config with
  | Some (c, Ok first) =>
      match update c config with
      | Some (c, Ok second) =>
          match take_config c with
          | (c, Some (revision, _)) =>
              (first <? second) && (revision =? second) && (applied_revision c =? INITIAL_REVISION)
              && (applied_revision (commit_revision c revision) =? revision)
          | (_, None) => false
          end
      | _ => false
      end
  | _ => false
  end.

Lemma control_tests_pass :
  cancellation_closes_mutations_before_the_final_seal && finish_once_seals_exactly_once_and_closes_accepting
  && mark_cancel_then_finish_reports_cancelled_prior_and_locks
  && begin_final_closes_accepting_and_returns_the_pending_config
  && updates_are_monotonic_and_latest_wins_until_commit = true.
Proof. vm_compute. reflexivity. Qed.

(** *** The randomized race: the atomic steps of its three tasks *)

Inductive RaceStep :=
| CancelExchange | CancelFire | CancelReturned
| FinishOnce
| ReadCancelReturned | ReadFinished | UpdateActive | UpdateLocked.

Definition cancel_task : list RaceStep := [CancelExchange; CancelFire; CancelReturned].
Definition finish_task : list RaceStep := [FinishOnce].
Definition update_task : list RaceStep := [ReadCancelReturned; ReadFinished; UpdateActive; UpdateLocked].

(** The control, the test's flag, and what the tasks return. *)
Record Race := mkRace {
  ra_control : LoopControl (H := H);
  ra_cancel_returned : bool;
  ra_cancelled : bool;
  ra_finish : option (FinishSeal * option (ExecutionConfig (H := H)));
  ra_stopped : bool;
  ra_updated : option (result UpdateError N);
}.
Definition race_start : Race := mkRace control false false None false None.

Definition race_step (r : Race) (s : RaceStep) : Race :=
  let '(mkRace c returned cancelled finish stopped updated) := r in
  match s with
  | CancelExchange => let '(c, won) := mark_cancel_exchange c SrcUser in mkRace c returned won finish stopped updated
  | CancelFire => mkRace (if cancelled then fire_token c else c) returned cancelled finish stopped updated
  | CancelReturned => mkRace c true cancelled finish stopped updated
  | FinishOnce =>
      match finish_once c with
      | Some (c, finish) => mkRace c returned cancelled (Some finish) stopped updated
      | None => r
      end
  | ReadCancelReturned => mkRace c returned cancelled finish returned updated
  | ReadFinished => mkRace c returned cancelled finish (stopped || is_finished c) updated
  | UpdateActive =>
      mkRace c returned cancelled finish stopped (if is_active c then None else Some (Err UpNotActive))
  | UpdateLocked =>
      match updated with
      | Some _ => r
      | None => let '(c, revision) := update_locked c config in
                mkRace c returned cancelled finish stopped (Some (ok_or revision UpNotActive))
      end
  end.

(** Between its two steps [update] validates the configuration, which is valid. *)
Lemma config_valid : validate_against_limits config (c_limits control) = Some (Ok ()).
Proof. reflexivity. Qed.

(** What the test asserts once the three tasks have returned. *)
Definition race_ok (r : Race) : bool :=
  match ra_finish r, ra_updated r with
  | Some (seal, discarded), Some result =>
      let c := ra_control r in
      passes seal (if ra_cancelled r then SealCancelledPrior ReasonUser else SealClean)
      && (if ra_stopped r then passes result (Err UpNotActive) else true)
      && match result with
         | Ok revision => (revision =? ConfigRevision_next INITIAL_REVISION) && bool_decide (is_Some discarded)
         | Err UpNotActive => negb (bool_decide (is_Some discarded))
         | Err UpInvalidConfig => false
         end
      && negb (bool_decide (is_Some (take_config c).2))
      && (applied_revision (take_config c).1 =? INITIAL_REVISION)
      && seals (take_config c).1 SealAlreadyFinished
      && negb (mark_cancel (sealed (take_config c).1) SrcUser).2
      && updates_to (mark_cancel (sealed (take_config c).1) SrcUser).1 (Err UpNotActive)
  | _, _ => false
  end.

Lemma races_checked :
  forallb (λ steps, race_ok (foldl race_step race_start steps))
    (ab ← merges cancel_task finish_task; merges ab update_task) = true.
Proof. vm_compute. reflexivity. Qed.

(** However the scheduler interleaves the tasks, the assertions hold; the test tries
    512 random schedules. *)
Lemma races_preserve_linearization both steps :
  interleaves cancel_task finish_task both → interleaves both update_task steps →
  race_ok (foldl race_step race_start steps) = true.
Proof.
  intros Hboth%merges_complete Hsteps%merges_complete.
  pose proof races_checked as Hall. rewrite forallb_forall in Hall. apply Hall, list_elem_of_In.
  apply list_elem_of_bind. eauto.
Qed.
End control_tests.
