(* ===== verification/LockTests.v ===== *)
(** * The mutex tests of the control plane

    The three tests of agent_loop/control.rs that ask whether the mutex is free while
    a pending configuration is dropped, replayed on the threads of [Locking]: their
    probe is a configuration whose destructor looks at the mutex. Then a system of
    three threads, whose destructors call back, for the theorems of [Locking] and
    [LockProgress]. *)

From S2P Require Import Prelude Text Json Ids Limits ToolTypes ToolSet ModelError Message Request History Event Control ControlSpec Locking LockProgress Conformance.
Local Open Scope N_scope.

Section lock_tests.
#[local] Existing Instance demo.json.

(** [probe_config]: the configuration of the other tests, with its own provider. *)
Definition probe_prompt : N := 1.
Definition probe_config_new : option (ExecutionConfig) :=
  match NoopModel_descriptor with
  | Ok (Ok descriptor) =>
      match ExecutionConfig_new (λ _, Some descriptor) 0 ReasonAuto ToolSet_default None probe_prompt with
      | Ok config => Some config
      | Err _ => None
      end
  | _ => None
  end.
Definition probe_config : ExecutionConfig := default config probe_config_new.
Lemma probe_config_unwraps : probe_config_new = Some probe_config.
Proof. reflexivity. Qed.

(** [ProbePromptProvider::drop]: whether [try_lock] succeeds when the next step of a
    thread drops the probe. *)
Definition probe_dropped (s : System) (tid : nat) : option bool :=
  t ← sy_threads s !! tid;
  match th_stack t with
  | FrAfter (AfConfig c) :: _ =>
      if ec_prompt c =? probe_prompt then Some (bool_decide (sy_lock s = None)) else None
  | _ => None
  end.

(** [ProbeTracker]: whether the probe was dropped in a run, and with the mutex free. *)
Record ProbeTracker := mkProbeTracker { pt_dropped : bool; pt_unlocked : bool }.
Fixpoint track (p : ProbeTracker) (s : System) (schedule : list nat) : ProbeTracker :=
  match schedule with
  | [] => p
  | tid :: schedule =>
      track (match probe_dropped s tid with Some free => mkProbeTracker true free | None => p end)
        (sys_step s tid) schedule
  end.
Definition tracker_new : ProbeTracker := mkProbeTracker false false.

(** The test's one thread: it makes calls, or drops a configuration, to the end. *)
Definition alone (s : System) (stack : list (Frame)) (p : ProbeTracker) :
    System * ProbeTracker :=
  let s := mkSystem (sy_ctl s) (sy_lock s) [mkThread stack [] []] (sy_log s) in
  let schedule := replicate (stack_work stack) 0%nat in
  (sys_run s schedule, track p s schedule).
Definition last_return (s : System) : option Ret := t ← sy_threads s !! 0%nat; snd <$> last (th_history t).
Definition accepted_update (s : System) : bool :=
  match last_return s with Some (RetUpdate (Some (Ok _))) => true | _ => false end.
Definition fresh : System := sys_start control [].

Definition pending_config_drop_on_update_replace_occurs_outside_control_mutex : bool :=
  let '(s, tracker) := alone fresh [FrCall (MUpdate probe_config)] tracker_new in
  accepted_update s && negb (pt_dropped tracker)
  && let '(s, tracker) := alone s [FrCall (MUpdate config)] tracker in
     accepted_update s && pt_dropped tracker && pt_unlocked tracker.

(** The two tests of a seal: [discarded] is what it returns. *)
Definition seal_drops_unlocked (seal : Method) (discarded : Ret → option ExecutionConfig) : bool :=
  let '(s, tracker) := alone fresh [FrCall (MUpdate probe_config)] tracker_new in
  accepted_update s && negb (pt_dropped tracker)
  && let '(s, tracker) := alone s [FrCall seal] tracker in
     match last_return s ≫= discarded with
     | None => false
     | Some config =>
         negb (pt_dropped tracker)
         && let '(_, tracker) := alone s [FrAfter (AfConfig config)] tracker in
            pt_dropped tracker && pt_unlocked tracker
     end.

Definition pending_config_drop_on_begin_final_seal_occurs_outside_control_mutex : bool :=
  seal_drops_unlocked MBeginFinal (λ r, match r with RetFinal discarded => discarded | _ => None end).
Definition pending_config_drop_on_finish_once_occurs_outside_control_mutex : bool :=
  seal_drops_unlocked MFinishOnce
    (λ r, match r with RetFinish (Some (SealClean, discarded)) => discarded | _ => None end).

Lemma lock_tests_pass :
  pending_config_drop_on_update_replace_occurs_outside_control_mutex
  && pending_config_drop_on_begin_final_seal_occurs_outside_control_mutex
  && pending_config_drop_on_finish_once_occurs_outside_control_mutex = true.
Proof. vm_compute. reflexivity. Qed.

(** ** Witnesses *)

(** One thread updates twice, and the destructor of what it replaces looks and
    cancels; the runner's thread seals; a third one answers. *)
Definition lock_programs : list (list (Method) * list (list Method)) :=
  [([MUpdate probe_config; MUpdate config; MAppliedRevision], [[MIsFinished; MMarkCancel SrcUser]]);
   ([MTakeInteraction; MFinishOnce], []);
   ([MAnswer (mkInteractionId [9]) (AnswerApproval AllowOnce)], [])].
(** The threads take turns: the second update is under way when the loop is sealed. *)
Definition lock_schedule : list nat := replicate 12 0%nat ++ concat (replicate 9 [0; 1; 2]%nat).
Definition lock_system : System := sys_run (sys_start control lock_programs) lock_schedule.
Definition lock_rounds : list (list nat) := replicate (call_work * program_calls lock_programs) [0; 1; 2]%nat.

Definition control_sink : LoopEventSink := mkLoopEventSink [] 16 true 0 false.

Lemma control_started : LoopControl_new (c_id control) 16 LoopLimits_default = Ok (control, control_sink).
Proof. reflexivity. Qed.

(** Seven effects, the last of them the token of the cancellation; the runner is
    inside its section. *)
Lemma control_linearizable_witness :
  length (sy_log lock_system) = 7%nat ∧ sy_lock lock_system = Some 1%nat ∧
  RetFinish None ∉ rets (sy_log lock_system) ∧
  sy_log lock_system `prefix_of` sy_log (sys_run lock_system [1%nat; 2%nat]).
Proof.
  destruct (control_linearizable (c_id control) 16 LoopLimits_default control control_sink [] lock_programs
    lock_schedule [1%nat; 2%nat] control_started) as (_ & Hr & _ & Hl & _).
  split; [vm_compute; reflexivity|]. split; [vm_compute; reflexivity|]. split; [exact Hr|exact Hl].
Defined.

Lemma lock_rounds_fair : Forall (fair_round (length lock_programs)) lock_rounds.
Proof.
  apply Forall_replicate. intros tid Htid. cbn in Htid.
  assert (tid = 0 ∨ tid = 1 ∨ tid = 2)%nat as [->|[->| ->]] by lia; repeat constructor.
Qed.

Lemma control_calls_end_witness :
  sy_lock (sys_run (sys_start control lock_programs) (concat lock_rounds)) = None ∧
  ∃ t, sy_threads (sys_run (sys_start control lock_programs) (concat lock_rounds)) !! 0%nat = Some t ∧
    th_stack t = [] ∧ [MUpdate probe_config; MUpdate config; MAppliedRevision] `sublist_of` (fst <$> th_history t).
Proof.
  destruct (control_calls_end control lock_programs) as [_ Hend].
  destruct (Hend lock_rounds lock_rounds_fair ltac:(vm_compute; lia)) as (Hl & _ & Ht).
  split; [exact Hl|]. destruct (Ht 0%nat _ eq_refl) as (t & H1 & H2 & H3 & _). exists t. split; [exact H1|]. split; [exact H2|exact H3].
Defined.
End lock_tests.
