(* ===== verification/Driver.v ===== *)
(** * The model driver

    Models src/src/model/driver.rs, the retry wait of
    src/src/model/driver/failure.rs, and [run_model] of
    src/src/agent_loop/runner/model.rs, which polls the driver and forwards its
    progress. The driver yields after every progress it sends, so the bounded
    progress queue is drained by [run_model] before the next event is polled
    ([yield_now]). *)

From S2P Require Import Prelude Text Json Ids Limits ToolTypes ToolSet ModelError Message Request Failure Assembler History Event Control Options World Steps.
Local Open Scope N_scope.

Section driver.
Context `{SerdeJson}.

Record ModelDriver := mkModelDriver {
  drv_descriptor : ModelDescriptor;
  drv_model_call_timeout : N;
  drv_retry_policy : RetryPolicySnapshot;
  drv_limits : LoopLimits;
}.

(** [from_validated], with the configuration [run_model] builds. *)
Definition ModelDriver_from_validated (descriptor : ModelDescriptor) (o : LoopOptions) : ModelDriver :=
  mkModelDriver descriptor (lo_model_timeout o)
    (mkRetryPolicySnapshot (lo_model_retry_attempts o) (lo_model_retry_base_delay o))
    (lo_limits o).

Definition validate_request (d : ModelDriver) (request : ModelRequest) : result ModelError () :=
  let invalid := generated_error KInvalidRequest NotStarted in
  guard_err (negb (supports_reasoning (drv_descriptor d) (mr_reasoning request))) invalid $
  guard_err (match mr_tools request with [] => false | _ => true end
             && negb (md_supports_tools (drv_descriptor d))) invalid $
  guard_err match context_window_tokens (mr_limits request) with
            | Some limit => md_context_window (drv_descriptor d) <? limit
            | None => false
            end invalid $
  Ok ().

(** ** Progress *)

Definition MODEL_PROGRESS_CAPACITY : N := 64.

(** The progress queue and the count of progress it had no room for. *)
Record ProgressChannel := mkProgressChannel {
  pg_queue : list ModelDriverProgress;
  pg_dropped : N;
}.

Definition progress_try_send (p : ProgressChannel) (value : ModelDriverProgress) : ProgressChannel :=
  if N.of_nat (length (pg_queue p)) <? MODEL_PROGRESS_CAPACITY
  then mkProgressChannel (pg_queue p ++ [value]) (pg_dropped p)
  else mkProgressChannel (pg_queue p) (wrapping_add u64_MAX (pg_dropped p) 1).

Section run.
Context (id : LoopId) (request_index : N).

Definition forward_progress (value : ModelDriverProgress) (dropped : N) : exec () :=
  let '(channel, delta) :=
    match value with
    | ProgressText delta => (ChText, delta)
    | ProgressReasoning delta => (ChReasoning, delta)
    end in
  record_loss dropped;;
  emit (LeOutputDelta id request_index channel delta).

(** Forwards everything queued; the first forwarding takes the dropped count. *)
Fixpoint drain_progress (queue : list ModelDriverProgress) (dropped : N) : exec N :=
  match queue with
  | [] => mret dropped
  | value :: queue => forward_progress value dropped;; drain_progress queue 0
  end.

Definition yield_now (p : ProgressChannel) : exec ProgressChannel :=
  dropped ← drain_progress (pg_queue p) (pg_dropped p);
  mret (mkProgressChannel [] dropped).

(** ** One attempt *)

Definition precheck (deadline : N) (source : DeadlineSource) : exec (result ModelDriverFailure ()) :=
  cancelled ← is_cancelled;
  if (cancelled : bool) then
    mret (Err (ModelDriverFailure_ordinary (generated_error KCancelled NotStarted)))
  else
    t ← now;
    if deadline <=? t then
      mret (Err (ModelDriverFailure_deadline (generated_error KTimeout NotStarted) source))
    else mret (Ok ()).

(** The attempt's token is a child of the loop's, and the provider holds it:
    [child] says whether a poll has cancelled it. *)
Definition attempt_cancelled (child : bool) : exec bool :=
  cancelled ← is_cancelled; mret (cancelled || child).

Inductive StartOutcome := SoCancelled | SoTimeout | SoReady (r : result ModelError ()) | SoPanicked.

Definition pop_start (w : World) : World * model_poll (result ModelError ()) :=
  match w_start_polls w with
  | [] => (w, (PollPending, false))
  | p :: polls => (set_start_polls polls w, p)
  end.
Definition pop_stream (w : World) :
    World * model_poll (option (result ModelError ModelEvent)) :=
  match w_stream_polls w with
  | [] => (w, (PollPending, false))
  | p :: polls => (set_stream_polls polls w, p)
  end.

Fixpoint start_wait (deadline : N) (child : bool) (polls : nat) : exec (StartOutcome * bool) :=
  cancelled ← attempt_cancelled child;
  if (cancelled : bool) then mret (SoCancelled, child)
  else
    t ← now;
    if deadline <=? t then mret (SoTimeout, child)
    else
      match polls with
      | O => pause
      | S polls =>
          p ← atomically pop_start;
          match (p : model_poll (result ModelError ())) with
          | (PollPending, cancels) => start_wait deadline (child || cancels) polls
          | (PollPanic, cancels) => mret (SoPanicked, child || cancels)
          | (PollReady r, cancels) => mret (SoReady r, child || cancels)
          end
      end.

(** The [loop] over the stream. *)
Fixpoint stream_loop (deadline : N) (source : DeadlineSource) (child : bool)
    (assembler : Assembler) (progress : ProgressChannel) (polls : nat) :
    exec (result AttemptFailure ModelResponse * ProgressChannel) :=
  let observed := as_observed_event assembler in
  cancelled ← attempt_cancelled child;
  if (cancelled : bool) then
    mret (Err (AttemptFailure_new (generated_error KCancelled (observed_delivery observed)) observed), progress)
  else
    t ← now;
    if deadline <=? t then
      mret (Err (AttemptFailure_deadline (generated_error KTimeout (observed_delivery observed))
                   observed source), progress)
    else
      match polls with
      | O => pause
      | S polls =>
          p ← atomically pop_stream;
          match (p : model_poll (option (result ModelError ModelEvent))) with
          | (item, cancels) =>
              let child := child || cancels in
              match item with
              | PollPending => stream_loop deadline source child assembler progress polls
              | PollPanic =>
                  mret (Err (AttemptFailure_new
                               (generated_error KPanicked (observed_delivery observed)) observed), progress)
              | PollReady None =>
                  response ← expect (finish assembler);
                  mret (map_err (λ error, AttemptFailure_new error observed) response, progress)
              | PollReady (Some (Err error)) =>
                  mret (Err (AttemptFailure_new (normalize_after_event error observed) observed), progress)
              | PollReady (Some (Ok event)) =>
                  trace HcEvent;;
                  '(assembler, pushed) ← expect (push (set_observed_event assembler) event);
                  match (pushed : result ModelError (option ModelDriverProgress)) with
                  | Err error => mret (Err (AttemptFailure_new error true), progress)
                  | Ok None => stream_loop deadline source child assembler progress polls
                  | Ok (Some value) =>
                      progress ← yield_now (progress_try_send progress value);
                      stream_loop deadline source child assembler progress polls
                  end
              end
          end
      end.

(** What follows the call of [start]: its future, and then the stream. *)
Definition attempt_polls (d : ModelDriver) (request : ModelRequest) (deadline : N) (source : DeadlineSource)
    (progress : ProgressChannel) : exec (result AttemptFailure ModelResponse * ProgressChannel) :=
  polls ← atomically (λ w, (w, patience (length (w_start_polls w)) w));
  '(start, child) ← start_wait deadline false polls;
  match (start : StartOutcome) with
  | SoCancelled =>
      mret (Err (AttemptFailure_new (generated_error KCancelled DeliveryUnknown) false), progress)
  | SoTimeout =>
      mret (Err (AttemptFailure_deadline (generated_error KTimeout DeliveryUnknown) false source), progress)
  | SoPanicked =>
      mret (Err (AttemptFailure_new (generated_error KPanicked DeliveryUnknown) false), progress)
  | SoReady (Err error) => mret (Err (AttemptFailure_new error false), progress)
  | SoReady (Ok _) =>
      polls ← atomically (λ w, (w, patience (length (w_stream_polls w)) w));
      stream_loop deadline source child (Assembler_new (mr_tools request) (drv_limits d)) progress polls
  end.

(** The locals of [run_attempt] go away: the guards cancel the attempt's token, then
    the destructors of the stream and of the future run, which nothing here catches. *)
Definition drop_attempt : exec () :=
  panicked ← host_panics;
  if (panicked : bool) then trace HcChildCancelled;; panic else mret ().

Definition run_attempt (d : ModelDriver) (request : ModelRequest) (attempt deadline : N)
    (source : DeadlineSource) (progress : ProgressChannel) :
    exec (result AttemptFailure ModelResponse * ProgressChannel) :=
  trace (HcStart attempt);;
  panicked ← host_panics;
  if (panicked : bool) then
    mret (Err (AttemptFailure_new (generated_error KPanicked DeliveryUnknown) false), progress)
  else
    r ← attempt_polls d request deadline source progress;
    drop_attempt;;
    mret r.

(** ** Retries *)

(** [wait_for_retry]: the biased [select!] of cancellation, deadline and delay. *)
Fixpoint retry_wait (deadline : N) (source : DeadlineSource) (retry_at : N) (error : ModelError)
    (polls : nat) : exec (result ModelDriverFailure ()) :=
  cancelled ← is_cancelled;
  if (cancelled : bool) then mret (Err (mkModelDriverFailure error None))
  else
    t ← now;
    if deadline <=? t then mret (Err (mkModelDriverFailure error (Some source)))
    else
      t ← now;
      if retry_at <=? t then mret (Ok ())
      else
        match polls with
        | O => pause
        | S polls => retry_wait deadline source retry_at error polls
        end.

Definition wait_for_retry (deadline : N) (source : DeadlineSource) (delay : N) (error : ModelError) :
    exec (result ModelDriverFailure ()) :=
  t ← now;
  retry_at ← expect (instant_checked_add t delay);
  polls ← atomically (λ w, (w, patience 0 w));
  retry_wait deadline source retry_at error polls.

(** The retry [loop]; [fuel] bounds the attempts. *)
Fixpoint attempt_loop (d : ModelDriver) (request : ModelRequest) (deadline : N)
    (source : DeadlineSource) (attempt : N) (progress : ProgressChannel) (fuel : nat) :
    exec (result ModelDriverFailure ModelResponse * ProgressChannel) :=
  match fuel with
  | O => out_of_fuel
  | S fuel =>
      pre ← precheck deadline source;
      match (pre : result ModelDriverFailure ()) with
      | Err f => mret (Err f, progress)
      | Ok _ =>
          '(r, progress) ← run_attempt d request attempt deadline source progress;
          trace HcChildCancelled;;
          match (r : result AttemptFailure ModelResponse) with
          | Ok response => mret (Ok response, progress)
          | Err failure =>
              t ← now;
              match evaluate_retry (drv_retry_policy d) attempt failure t deadline with
              | None => mret (Err (into_driver_failure failure), progress)
              | Some delay =>
                  waited ← wait_for_retry deadline source delay (af_error failure);
                  match (waited : result ModelDriverFailure ()) with
                  | Err f => mret (Err f, progress)
                  | Ok _ => attempt_loop d request deadline source (attempt + 1) progress fuel
                  end
              end
          end
      end
  end.

Definition run_detailed (d : ModelDriver) (request : ModelRequest) (turn_deadline : N)
    (progress : ProgressChannel) :
    exec (result ModelDriverFailure ModelResponse * ProgressChannel) :=
  t ← now;
  match effective_deadline_from t turn_deadline (drv_model_call_timeout d) with
  | Err _ => mret (Err (ModelDriverFailure_ordinary (generated_error KInvalidRequest NotStarted)), progress)
  | Ok deadline =>
      pre ← precheck (ed_tokio deadline) (ed_source deadline);
      match (pre : result ModelDriverFailure ()) with
      | Err f => mret (Err f, progress)
      | Ok _ =>
          match validate_request d request with
          | Err e => mret (Err (ModelDriverFailure_ordinary e), progress)
          | Ok _ =>
              attempt_loop d request (ed_tokio deadline) (ed_source deadline) 0 progress
                (N.to_nat (rp_max_attempts (drv_retry_policy d)))
          end
      end
  end.

(** [run_model]: the driver polled to its end, then the rest of its progress. *)
Definition run_model (o : LoopOptions) (snapshot : ExecutionConfig) (request : ModelRequest)
    (turn_deadline : N) : exec (result ModelDriverFailure ModelResponse) :=
  '(r, progress) ← run_detailed (ModelDriver_from_validated (ec_descriptor snapshot) o) request
    turn_deadline (mkProgressChannel [] 0);
  record_loss (pg_dropped progress);;
  drain_progress (pg_queue progress) 0;;
  mret r.

(** ** Facts: what the driver keeps *)

Section keeps.
Context (R : World → World → Prop) `{!RunnerRel R}.

Lemma keeps_forward_progress value dropped : keeps R (forward_progress value dropped).
Proof. unfold forward_progress. destruct value; keeps_tac. Qed.
Lemma keeps_drain_progress queue : ∀ dropped, keeps R (drain_progress queue dropped).
Proof.
  induction queue as [|v q IH]; intros dropped; cbn [drain_progress]; keeps_tac;
    auto using keeps_forward_progress.
Qed.
Lemma keeps_yield_now p : keeps R (yield_now p).
Proof. unfold yield_now. keeps_tac. apply keeps_drain_progress. Qed.
Lemma keeps_precheck deadline source : keeps R (precheck deadline source).
Proof. unfold precheck. keeps_tac. Qed.
Lemma keeps_attempt_cancelled child : keeps R (attempt_cancelled child).
Proof. unfold attempt_cancelled. keeps_tac. Qed.
Lemma keeps_pop_start : keeps R (atomically pop_start).
Proof. apply keeps_frame; [done|]. intros w. unfold pop_start. by destruct (w_start_polls w). Qed.
Lemma keeps_pop_stream : keeps R (atomically pop_stream).
Proof. apply keeps_frame; [done|]. intros w. unfold pop_stream. by destruct (w_stream_polls w). Qed.

#[local] Hint Resolve keeps_forward_progress keeps_drain_progress keeps_yield_now keeps_precheck
  keeps_attempt_cancelled keeps_pop_start keeps_pop_stream : exec.

Lemma keeps_start_wait deadline polls : ∀ child, keeps R (start_wait deadline child polls).
Proof. induction polls as [|n IH]; intros child; cbn [start_wait]; keeps_tac; auto. Qed.
Lemma keeps_stream_loop deadline source polls : ∀ child assembler progress,
  keeps R (stream_loop deadline source child assembler progress polls).
Proof.
  induction polls as [|n IH]; intros child assembler progress; cbn [stream_loop]; keeps_tac; auto.
Qed.
#[local] Hint Resolve keeps_start_wait keeps_stream_loop : exec.

Lemma keeps_attempt_polls d request deadline source progress :
  keeps R (attempt_polls d request deadline source progress).
Proof. unfold attempt_polls. keeps_tac. Qed.
#[local] Hint Resolve keeps_attempt_polls : exec.
Lemma keeps_drop_attempt : keeps R drop_attempt.
Proof. unfold drop_attempt. keeps_tac. Qed.
#[local] Hint Resolve keeps_drop_attempt : exec.
Lemma keeps_run_attempt d request attempt deadline source progress :
  keeps R (run_attempt d request attempt deadline source progress).
Proof. unfold run_attempt. keeps_tac. Qed.
Lemma keeps_retry_wait deadline source retry_at error polls :
  keeps R (retry_wait deadline source retry_at error polls).
Proof. induction polls as [|n IH]; cbn [retry_wait]; keeps_tac; auto. Qed.
#[local] Hint Resolve keeps_run_attempt keeps_retry_wait : exec.
Lemma keeps_wait_for_retry deadline source delay error :
  keeps R (wait_for_retry deadline source delay error).
Proof. unfold wait_for_retry. keeps_tac. Qed.
#[local] Hint Resolve keeps_wait_for_retry : exec.

Lemma keeps_attempt_loop d request deadline source fuel : ∀ attempt progress,
  attempt < rp_max_attempts (drv_retry_policy d) →
  rp_max_attempts (drv_retry_policy d) ≤ attempt + N.of_nat fuel →
  keeps R (attempt_loop d request deadline source attempt progress fuel).
Proof.
  induction fuel as [|fuel IH]; intros attempt progress Ha Hf; [lia|]. cbn [attempt_loop].
  apply keeps_bind; [apply _|auto with exec|]. intros [[]|f]; [|keeps_tac].
  apply keeps_bind; [apply _|auto with exec|]. intros [r pg].
  apply keeps_bind; [apply _|by apply keeps_trace|]. intros [].
  destruct r as [resp|failure]; [keeps_tac|].
  apply keeps_bind; [apply _|auto with exec|]. intros t.
  destruct (evaluate_retry _ _ _ _ _) as [delay|] eqn:Er; [|keeps_tac].
  apply evaluate_retry_Some in Er as (Hlt & _).
  apply keeps_bind; [apply _|auto with exec|]. intros [[]|f]; [|keeps_tac].
  apply IH; lia.
Qed.

Lemma keeps_run_detailed d request turn_deadline progress :
  1 ≤ rp_max_attempts (drv_retry_policy d) →
  keeps R (run_detailed d request turn_deadline progress).
Proof.
  intros Hm. unfold run_detailed.
  apply keeps_bind; [apply _|auto with exec|]. intros t.
  destruct (effective_deadline_from _ _ _) as [dl|]; [|keeps_tac].
  apply keeps_bind; [apply _|auto with exec|]. intros [[]|f]; [|keeps_tac].
  destruct (validate_request d request); [|keeps_tac].
  apply keeps_attempt_loop; lia.
Qed.

Lemma keeps_run_model o snapshot request turn_deadline :
  options_ok o → keeps R (run_model o snapshot request turn_deadline).
Proof.
  intros Ho. unfold run_model. apply keeps_bind; [apply _| |].
  - apply keeps_run_detailed. apply Ho.
  - intros [r pg]. keeps_tac.
Qed.
End keeps.

(** ** Facts: what one attempt does *)

Lemma quietly_forward_progress value dropped : quietly (forward_progress value dropped).
Proof. unfold forward_progress. destruct value; quietly_tac. Qed.
Lemma quietly_drain_progress queue : ∀ dropped, quietly (drain_progress queue dropped).
Proof.
  induction queue as [|v q IH]; intros dropped; cbn [drain_progress]; quietly_tac;
    auto using quietly_forward_progress.
Qed.
Lemma quietly_yield_now p : quietly (yield_now p).
Proof. unfold yield_now. quietly_tac. apply quietly_drain_progress. Qed.
Lemma quietly_attempt_cancelled child : quietly (attempt_cancelled child).
Proof. unfold attempt_cancelled. quietly_tac. Qed.
Lemma quietly_pop_start : quietly (atomically pop_start).
Proof. apply quietly_atomically. intros w. unfold pop_start. by destruct (w_start_polls w). Qed.
Lemma quietly_pop_stream : quietly (atomically pop_stream).
Proof. apply quietly_atomically. intros w. unfold pop_stream. by destruct (w_stream_polls w). Qed.
Lemma quietly_get {A} (f : World → A) : quietly (atomically (λ w, (w, f w))).
Proof. by apply quietly_atomically. Qed.
Lemma quietly_precheck deadline source : quietly (precheck deadline source).
Proof. unfold precheck. quietly_tac. Qed.
#[local] Hint Resolve quietly_yield_now quietly_attempt_cancelled quietly_pop_start
  quietly_pop_stream quietly_get quietly_precheck : exec.
Lemma quietly_start_wait deadline polls : ∀ child, quietly (start_wait deadline child polls).
Proof. induction polls as [|n IH]; intros child; cbn [start_wait]; quietly_tac; auto. Qed.
Lemma start_wait_spec deadline polls : ∀ child w Q P,
  (∀ r w', quiet w w' → (r.1 = SoTimeout → deadline ≤ w_now w') → Q r w') →
  (∀ w', quiet w w' → P false w') →
  wp (start_wait deadline child polls) w Q P.
Proof.
  induction polls as [|n IH]; intros child w Q P HQ HP; cbn [start_wait].
  all: apply wp_quiet_bind; [auto with exec..|]; intros c w1 _ Hq1; destruct c;
    [apply wp_ret, HQ; done|].
  all: apply wp_quiet_bind; [auto with exec|intros; apply HP; by transitivity w1|];
    intros t w2 [= <- <-] Hq2; assert (quiet w (tick w1)) as Hq by (by transitivity w1);
    case_match; [apply wp_ret, HQ; [done|by bools]|].
  { by apply HP. }
  apply wp_quiet_bind; [auto with exec|intros; apply HP; by transitivity (tick w1)|].
  intros p w3 _ Hq3. assert (quiet w w3) by (by transitivity (tick w1)).
  destruct p as [[| |r] cancels]; [|by apply wp_ret, HQ..].
  apply IH; intros; [apply HQ|apply HP]; try done; by transitivity w3.
Qed.
Lemma quietly_retry_wait deadline source retry_at error polls :
  quietly (retry_wait deadline source retry_at error polls).
Proof. induction polls as [|n IH]; cbn [retry_wait]; quietly_tac; auto. Qed.

(** What a response of the driver promises to the runner. *)
Record response_ok (tools : list ToolSpec) (limits : LoopLimits) (r : ModelResponse) : Prop := {
  ro_parts : parts_ok (resp_parts r);
  ro_nonempty : resp_parts r = [] → is_Some (resp_provider_replay r);
  ro_calls : N.of_nat (length (tool_calls (resp_parts r))) ≤ max_tool_calls_per_response limits;
  ro_offered : Forall (λ c, Exists (λ s, ts_name s = tc_name c) tools) (tool_calls (resp_parts r));
  ro_arguments : Forall (λ c, is_object (tc_arguments c) = true ∧
    validate_json_size (tc_arguments c) (max_tool_arguments_bytes limits) = Ok ())
    (tool_calls (resp_parts r));
}.

Lemma finish_response_ok tools limits a es resp :
  LoopLimits_validate limits = Ok () → asm_inv tools limits es a →
  finish a = Some (Ok resp) → response_ok tools limits resp.
Proof.
  intros Hl Hi Hf. destruct (finish_spec tools limits Hl a es Hi) as (r & Hf' & Hok & _).
  rewrite Hf in Hf'. injection Hf' as <-.
  destruct (proj1 (Hok resp) eq_refl) as (reason & Hreason & Hacc & ->).
  assert (is_Some (as_finish_reason a)) as Hfin by eauto.
  assert (∀ i c, tool_calls (finished_parts a) !! i = Some c →
    Exists (λ s, ts_name s = tc_name c) tools ∧ is_object (tc_arguments c) = true ∧
    validate_json_size (tc_arguments c) (max_tool_arguments_bytes limits) = Ok ()) as Hcalls.
  { intros i c Hc. destruct (finished_call_lookup tools limits a es i c Hi Hfin Hc) as (t & _ & Ht & Hcall).
    apply call_of_fields in Hcall as (_ & -> & _ & ? & Hv). split_and!; [apply Ht|done|].
    by destruct (validate_json_size _ _) as [[]|]. }
  split; simpl.
  - by apply (finished_parts_ok tools limits Hl a es).
  - intros Hn. rewrite (finished_parts_nil tools limits a es Hi Hfin) in Hn.
    destruct Hacc as (_ & _ & _ & [?|?]); done.
  - pose proof (finished_calls tools limits a es Hi Hfin) as Hc. apply (f_equal length) in Hc.
    rewrite !length_fmap in Hc. rewrite Hc. apply Hi.
  - apply Forall_lookup. intros i c Hc. by apply (Hcalls i).
  - apply Forall_lookup. intros i c Hc. by apply (Hcalls i).
Qed.
(** [n] events observed: the error is final. *)
Definition observed_final (observed : bool) (e : ModelError) : Prop :=
  observed = true → me_delivery e = Started ∧ me_retry_hint e = RetryNever.

Lemma generated_observed observed k :
  observed_final observed (generated_error k (observed_delivery observed)).
Proof. intros ->. by rewrite generated_error_delivery, generated_error_hint. Qed.

(** How an attempt's stream ends after [n] events of it. *)
Definition stream_end (tools : list ToolSpec) (limits : LoopLimits) (deadline : N)
    (source : DeadlineSource) (seen : bool) (w : World)
    (rp : result AttemptFailure ModelResponse * ProgressChannel) (w' : World) : Prop :=
  ∃ n, w_trace w' = w_trace w ++ replicate n HcEvent ∧
  match rp.1 with
  | Ok resp => response_ok tools limits resp
  | Err f => af_observed_event f = seen || (0 <? N.of_nat n) ∧
      observed_final (af_observed_event f) (af_error f) ∧
      (∀ s, af_deadline_source f = Some s → s = source ∧ deadline ≤ w_now w')
  end.

Definition stream_stop (w : World) (panicked : bool) (w' : World) : Prop :=
  panicked = false ∧ ∃ n, w_trace w' = w_trace w ++ replicate n HcEvent.

(** Where an attempt stops: waiting, or in a destructor, its token cancelled. *)
Definition attempt_stop (w : World) (panicked : bool) (w' : World) : Prop :=
  ∃ n, w_trace w' = w_trace w ++ replicate n HcEvent ++ (if panicked then [HcChildCancelled] else []).

Section stream.
Context (tools : list ToolSpec) (limits : LoopLimits) (deadline : N) (source : DeadlineSource).
Hypothesis limits_valid : LoopLimits_validate limits = Ok ().

Lemma stream_end_trace w w1 seen rp w' :
  w_trace w1 = w_trace w → stream_end tools limits deadline source seen w1 rp w' →
  stream_end tools limits deadline source seen w rp w'.
Proof. intros E (n & Ht & Hr). exists n. by rewrite Ht, E. Qed.
Lemma stream_end_quiet w w1 seen rp w' :
  quiet w1 w' → stream_end tools limits deadline source seen w rp w1 →
  stream_end tools limits deadline source seen w rp w'.
Proof.
  intros [E Hn] (n & Ht & Hr). exists n. rewrite E. split; [done|]. destruct rp.1; [done|].
  destruct Hr as (? & ? & Hs). split_and!; [done..|]. intros s ?. destruct (Hs s); [done|]. split; [done|lia].
Qed.
Lemma stream_end_event w w1 seen rp w' :
  w_trace w1 = w_trace w ++ [HcEvent] → stream_end tools limits deadline source true w1 rp w' →
  stream_end tools limits deadline source seen w rp w'.
Proof.
  intros E (n & Ht & Hr). exists (S n). rewrite Ht, E, <- app_assoc. split; [done|].
  destruct rp.1; [done|]. replace (0 <? N.of_nat (S n)) with true by (symmetry; bools; lia).
  rewrite orb_true_r. by rewrite orb_true_l in Hr.
Qed.
Lemma stream_end_now w w1 seen e s p :
  w_trace w1 = w_trace w → observed_final seen e →
  (∀ s', s = Some s' → s' = source ∧ deadline ≤ w_now w1) →
  stream_end tools limits deadline source seen w (Err (mkAttemptFailure e seen s), p) w1.
Proof.
  intros E He Hs. exists 0%nat. rewrite E, app_nil_r. split; [done|]. simpl. by rewrite orb_false_r.
Qed.

(** What follows an event that was received, given the rest of the loop. *)
Lemma stream_event_spec n child a es event r progress w w3 :
  (∀ child a es progress w, asm_inv tools limits es a →
    wp (stream_loop deadline source child a progress n) w
       (stream_end tools limits deadline source (bool_decide (es ≠ [])) w) (stream_stop w)) →
  w_trace w3 = w_trace w →
  match r with Ok _ => asm_inv tools limits (es ++ [event]) a | Err e => ∃ k, e = assembler_error k end →
  wp (match r with
      | Ok (Some value) => progress ← yield_now (progress_try_send progress value);
          stream_loop deadline source child a progress n
      | Ok None => stream_loop deadline source child a progress n
      | Err error => mret (Err (AttemptFailure_new error true), progress) end)
    (add_trace w3 HcEvent) (stream_end tools limits deadline source (bool_decide (es ≠ [])) w) (stream_stop w).
Proof.
  intros IH E3 Hr.
  assert (∀ rp w', stream_end tools limits deadline source true (add_trace w3 HcEvent) rp w' →
    stream_end tools limits deadline source (bool_decide (es ≠ [])) w rp w') as Hend.
  { intros rp w'. apply stream_end_event. simpl. by rewrite E3. }
  assert (∀ w4, quiet (add_trace w3 HcEvent) w4 → ∀ progress0, asm_inv tools limits (es ++ [event]) a →
    wp (stream_loop deadline source child a progress0 n) w4
      (stream_end tools limits deadline source (bool_decide (es ≠ [])) w) (stream_stop w)) as Hgo.
  { intros w4 [E4 _] pg Ha0. eapply wp_mono; [by apply IH| |].
    - intros rp w' Hrp. rewrite <- (observed_snoc es event) in Hrp. apply Hend. by eapply stream_end_trace.
    - intros b w' (-> & k & Hk). split; [done|]. exists (S k). rewrite Hk, E4. simpl.
      by rewrite E3, <- app_assoc. }
  destruct r as [[value|]|e].
  - apply wp_quiet_bind; [auto with exec| |].
    + intros w4 [E4 _]. split; [done|]. exists 1%nat. rewrite E4. simpl. by rewrite E3.
    + intros pg w4 _ Hq4. by apply Hgo.
  - by apply Hgo.
  - destruct Hr as [k ->]. by apply wp_ret, Hend, stream_end_now.
Qed.

Lemma stream_loop_spec polls : ∀ child a es progress w,
  asm_inv tools limits es a →
  wp (stream_loop deadline source child a progress polls) w
     (stream_end tools limits deadline source (bool_decide (es ≠ [])) w) (stream_stop w).
Proof.
  assert (∀ w w1, quiet w w1 → stream_stop w false w1) as Hstop.
  { intros w w1 [E _]. split; [done|]. exists 0%nat. by rewrite E, app_nil_r. }
  induction polls as [|n IH]; intros child a es progress w Hi; cbn [stream_loop];
    rewrite (ai_observed _ _ _ _ Hi).
  all: apply wp_quiet_bind; [auto with exec..|]; intros c w1 _ Hq1; destruct c;
    [apply wp_ret, stream_end_now; [apply Hq1|apply generated_observed|done]|].
  all: apply wp_quiet_bind; [auto with exec|intros; apply Hstop; by transitivity w1|];
    intros t w2 [= <- <-] Hq2; case_match;
    [apply wp_ret, stream_end_now;
      [destruct Hq1, Hq2; congruence|apply generated_observed|intros ? [= <-]; by bools]|].
  { apply Hstop. by transitivity w1. }
  assert (quiet w (tick w1)) as Hq by (by transitivity w1).
  apply wp_quiet_bind; [auto with exec|intros; apply Hstop; by transitivity (tick w1)|].
  intros p w3 _ Hq3. assert (quiet w w3) as [E3 _] by (by transitivity (tick w1)).
  destruct p as [item cancels]. destruct item as [| |[[event|error]|]].
  - eapply wp_mono; [by apply IH| |].
    + intros rp w'. by apply stream_end_trace.
    + intros b w' (-> & k & Hk). split; [done|]. exists k. by rewrite Hk, E3.
  - apply wp_ret, stream_end_now; [done|apply generated_observed|done].
  - apply wp_trace_bind. destruct (push_step tools limits a es event Hi) as (a' & r & -> & Hr).
    apply (stream_event_spec n (child || cancels) a' es event r progress w w3 IH E3).
    destruct r; [apply Hr|done].
  - apply wp_ret, stream_end_now; [done| |done]. intros Ho. rewrite Ho.
    apply normalize_after_event_observed.
  - destruct (finish_spec tools limits limits_valid a es Hi) as (r & Hf & _ & He). rewrite Hf.
    apply wp_ret. exists 0%nat. rewrite E3, app_nil_r. split; [done|].
    destruct r as [resp|e]; simpl.
    + by apply (finish_response_ok tools limits a es).
    + destruct (He e eq_refl) as (_ & Hh & Hd). rewrite orb_false_r. split_and!; [done| |done].
      intros Ho. split; [|done]. apply bool_decide_eq_true in Ho. naive_solver.
Qed.
End stream.

(** ** Facts: the attempts of a call *)

(** The calls of a model call: attempts numbered from [k] below [max], each before
    the last without a stream event. *)
Inductive attempts_from (max : N) : N → list HostCall → Prop :=
| attempts_none k : attempts_from max k []
| attempts_last k n : k < max →
    attempts_from max k (HcStart k :: replicate n HcEvent ++ [HcChildCancelled])
| attempts_retry k t : k < max → attempts_from max (k + 1) t →
    attempts_from max k (HcStart k :: HcChildCancelled :: t).

Definition is_event (c : HostCall) : bool := match c with HcEvent => true | _ => false end.

(** How a model call ends. *)
Definition call_end (max k : N) (tools : list ToolSpec) (limits : LoopLimits) (deadline : N)
    (source : DeadlineSource) (w : World)
    (rp : result ModelDriverFailure ModelResponse * ProgressChannel) (w' : World) : Prop :=
  ∃ t, w_trace w' = w_trace w ++ t ∧ attempts_from max k t ∧
  match rp.1 with
  | Ok resp => response_ok tools limits resp
  | Err f => observed_final (existsb is_event t) (mdf_error f) ∧
      (∀ s, mdf_deadline_source f = Some s → s = source ∧ deadline ≤ w_now w')
  end.

(** Where it stops short; after a panic no attempt's token is left. *)
Definition call_stop (max k : N) (w : World) (panicked : bool) (w' : World) : Prop :=
  ∃ t rest, w_trace w' = w_trace w ++ t ∧ attempts_from max k (t ++ rest) ∧ (panicked = true → rest = []).

Section attempts.
Context (d : ModelDriver) (request : ModelRequest) (deadline : N) (source : DeadlineSource).
Hypothesis limits_valid : LoopLimits_validate (drv_limits d) = Ok ().
Let max := rp_max_attempts (drv_retry_policy d).

Lemma attempt_polls_spec progress w :
  wp (attempt_polls d request deadline source progress) w
     (stream_end (mr_tools request) (drv_limits d) deadline source false w) (stream_stop w).
Proof.
  unfold attempt_polls.
  assert (∀ w1, quiet w w1 → stream_stop w false w1) as Hstop.
  { intros w1 [E _]. split; [done|]. exists 0%nat. by rewrite E, app_nil_r. }
  apply wp_quiet_bind; [auto with exec..|]. intros polls w2 _ Hq.
  apply wp_bind with (λ r w3, quiet w w3 ∧ (r.1 = SoTimeout → deadline ≤ w_now w3)).
  { apply start_wait_spec; [|intros; apply Hstop; by transitivity w2].
    intros r w' ? ?. split; [by transitivity w2|done]. }
  intros [start child] w3 [Hq3 Hd]. destruct start as [| |[[]|e]|].
  - apply wp_ret, stream_end_now; [apply Hq3|done|done].
  - apply wp_ret, stream_end_now; [apply Hq3|done|]. intros s [= <-]. auto.
  - apply wp_quiet_bind; [auto with exec|intros; apply Hstop; by transitivity w3|].
    intros polls' w4 _ Hq4.
    assert (w_trace w4 = w_trace w) as E4 by (destruct Hq3, Hq4; congruence).
    eapply wp_mono; [by apply stream_loop_spec, asm_inv_new| |].
    + intros rp w'. by apply stream_end_trace.
    + intros b w' (-> & k & Hk). split; [done|]. exists k. by rewrite Hk, E4.
  - apply wp_ret, stream_end_now; [apply Hq3|done|done].
  - apply wp_ret, stream_end_now; [apply Hq3|done|done].
Qed.

Lemma drop_attempt_spec w :
  wp drop_attempt w (λ _ w', quiet w w')
    (λ b w', w_trace w' = w_trace w ++ (if b then [HcChildCancelled] else [])).
Proof.
  unfold drop_attempt. apply wp_quiet_bind; [auto with exec|intros w' [E _]; by rewrite E, app_nil_r|].
  intros [] w' _ Hq; [|by apply wp_ret]. apply wp_trace_bind. destruct Hq as [E _].
  change (w_trace w' ++ [HcChildCancelled] = w_trace w ++ [HcChildCancelled]). by rewrite E.
Qed.

Lemma run_attempt_spec attempt progress w :
  wp (run_attempt d request attempt deadline source progress) w
     (stream_end (mr_tools request) (drv_limits d) deadline source false (add_trace w (HcStart attempt)))
     (attempt_stop (add_trace w (HcStart attempt))).
Proof.
  unfold run_attempt. apply wp_trace_bind. set (w0 := add_trace w (HcStart attempt)).
  apply wp_quiet_bind; [auto with exec|intros w1 [E _]; exists 0%nat; by rewrite E, app_nil_r|].
  intros [] w1 _ [E1 Hn1].
  { by apply wp_ret, stream_end_now. }
  eapply wp_bind; [eapply wp_mono; [apply attempt_polls_spec|intros a w' Hr; exact Hr|]|].
  { intros b w2 (-> & n & E). exists n. by rewrite E, E1, app_nil_r. }
  intros r w2 Hr. eapply wp_bind; [eapply wp_mono; [apply drop_attempt_spec|intros a w' Ha; exact Ha|]|].
  - intros b w3 E3. destruct Hr as (n & E2 & _). exists n. by rewrite E3, E2, E1, <- app_assoc.
  - intros [] w3 Hq3. apply wp_ret. eapply stream_end_quiet; [exact Hq3|].
    by eapply stream_end_trace.
Qed.

Lemma precheck_spec w P : (∀ w', quiet w w' → P false w') →
  wp (precheck deadline source) w (λ r w', quiet w w' ∧ (∀ f, r = Err f →
      observed_final false (mdf_error f) ∧
      (∀ s, mdf_deadline_source f = Some s → s = source ∧ deadline ≤ w_now w'))) P.
Proof.
  intros HP. unfold precheck. apply wp_quiet_bind; [auto with exec..|].
  intros [] w1 _ Hq1.
  { apply wp_ret. split; [done|]. by intros f [= <-]. }
  apply wp_quiet_bind; [auto with exec|intros; apply HP; by transitivity w1|].
  intros t w2 [= <- <-] Hq2. assert (quiet w (tick w1)) by (by transitivity w1).
  case_match; apply wp_ret; (split; [done|]); [|done].
  intros f [= <-]. split; [done|]. intros s [= <-]. split; [done|]. by bools.
Qed.

Lemma wait_for_retry_spec delay error w (Q : result ModelDriverFailure () → World → Prop) P :
  (∀ r w', quiet w w' → (∀ f, r = Err f → mdf_error f = error ∧
      (∀ s, mdf_deadline_source f = Some s → s = source ∧ deadline ≤ w_now w')) → Q r w') →
  (∀ b w', quiet w w' → P b w') →
  wp (wait_for_retry deadline source delay error) w Q P.
Proof.
  intros HQ HP. unfold wait_for_retry. apply wp_quiet_bind; [auto with exec..|]. intros t w1 _ Hq1.
  destruct (instant_checked_add t delay) as [at_|]; [|by apply HP].
  apply (wp_quiet_bind (mret at_)); [auto with exec|intros; apply HP; by transitivity w1|].
  intros retry_at w2 [= _ <-] _.
  apply wp_quiet_bind; [auto with exec|intros; apply HP; by transitivity w1|].
  intros polls w3 _ Hq3. assert (quiet w w3) as Hq by (by transitivity w1).
  clear Hq1 Hq3. revert w3 Hq. induction polls as [|n IH]; intros w3 Hq; cbn [retry_wait].
  all: apply wp_quiet_bind; [auto with exec|intros; apply HP; by transitivity w3|];
    intros c w4 _ Hq4; assert (quiet w w4) by (by transitivity w3); destruct c;
    [apply wp_ret, HQ; [done|]; by intros f [= <-]|].
  all: apply wp_quiet_bind; [auto with exec|intros; apply HP; by transitivity w4|];
    intros t' w5 [= <- <-] Hq5; assert (quiet w (tick w4)) by (by transitivity w4); case_match;
    [apply wp_ret, HQ; [done|]; intros f [= <-]; split; [done|]; intros s [= <-]; by bools|].
  all: apply wp_quiet_bind; [auto with exec|intros; apply HP; by transitivity (tick w4)|];
    intros t' w5 _ Hq5'; assert (quiet w w5) by (by transitivity (tick w4)); case_match;
    [by apply wp_ret, HQ|].
  { by apply HP. }
  by apply IH.
Qed.

Lemma attempt_observed n : ∀ k,
  existsb is_event (HcStart k :: replicate n HcEvent ++ [HcChildCancelled]) = (0 <? N.of_nat n).
Proof. intros k. by destruct n. Qed.

(** What a later attempt ends with, the call ends with. *)
Lemma call_end_retry k tools limits w w5 rp w' :
  k < max → w_trace w5 = w_trace w ++ [HcStart k; HcChildCancelled] →
  call_end max (k + 1) tools limits deadline source w5 rp w' →
  call_end max k tools limits deadline source w rp w'.
Proof.
  intros Hk E (t & E' & Ht & Hr). exists ([HcStart k; HcChildCancelled] ++ t).
  rewrite E', E, <- app_assoc. split; [done|]. split; [by apply attempts_retry|done].
Qed.
Lemma call_stop_retry k w w5 b w' :
  k < max → w_trace w5 = w_trace w ++ [HcStart k; HcChildCancelled] →
  call_stop max (k + 1) w5 b w' → call_stop max k w b w'.
Proof.
  intros Hk E (t & rest & E' & Ht & Hr). exists ([HcStart k; HcChildCancelled] ++ t), rest.
  rewrite E', E, <- !app_assoc. split; [done|]. split; [by apply attempts_retry|done].
Qed.

Lemma attempt_loop_spec fuel : ∀ attempt progress w,
  attempt < max → max ≤ attempt + N.of_nat fuel →
  wp (attempt_loop d request deadline source attempt progress fuel) w
     (call_end max attempt (mr_tools request) (drv_limits d) deadline source w)
     (call_stop max attempt w).
Proof.
  induction fuel as [|fuel IH]; intros attempt progress w Ha Hf; [lia|]. cbn [attempt_loop].
  assert (∀ b w1, quiet w w1 → call_stop max attempt w b w1) as Hstop0.
  { intros b w1 [E _]. exists [], []. rewrite E, app_nil_r. split; [done|]. split; [constructor|done]. }
  apply wp_bind with (λ r w1, quiet w w1 ∧ (∀ f, r = Err f →
      observed_final false (mdf_error f) ∧
      (∀ s, mdf_deadline_source f = Some s → s = source ∧ deadline ≤ w_now w1))).
  { apply precheck_spec. intros. by apply Hstop0. }
  intros [[]|f] w1 [Hq1 Hf1].
  2: { apply wp_ret. exists []. rewrite app_nil_r. split; [apply Hq1|]. split; [constructor|]. by apply Hf1. }
  eapply wp_bind; [eapply wp_mono; [apply run_attempt_spec|intros a w' Hr; exact Hr|]|].
  { intros b w2 (n & E).
    exists (HcStart attempt :: replicate n HcEvent ++ (if b then [HcChildCancelled] else [])),
      (if b then [] else [HcChildCancelled]).
    rewrite E. simpl. destruct Hq1 as [-> _]. rewrite <- !app_assoc. split; [done|].
    split; [by destruct b; apply attempts_last|by intros ->]. }
  intros [r pg] w2 (n & E2 & Hr). apply wp_trace_bind.
  set (t := HcStart attempt :: replicate n HcEvent ++ [HcChildCancelled]).
  assert (w_trace (add_trace w2 HcChildCancelled) = w_trace w ++ t) as E3.
  { simpl. rewrite E2. simpl. destruct Hq1 as [-> _]. unfold t. by rewrite <- !app_assoc. }
  assert (attempts_from max attempt t) as Ht by (by apply attempts_last).
  assert (w_now w2 ≤ w_now (add_trace w2 HcChildCancelled)) as Hn by done.
  generalize dependent (add_trace w2 HcChildCancelled). intros w3 E3 Hn. simpl in Hr.
  assert (∀ b w4, quiet w3 w4 → call_stop max attempt w b w4) as Hstop.
  { intros b w4 [E _]. exists t, []. by rewrite E, E3, app_nil_r. }
  destruct r as [resp|failure]; [by apply wp_ret; exists t|].
  destruct Hr as (Hobs & Hfin & Hsrc).
  apply wp_quiet_bind; [auto with exec..|]. intros now0 w4 _ Hq4.
  destruct (evaluate_retry _ _ _ _ _) as [delay|] eqn:Er.
  2: { apply wp_ret. exists t. destruct Hq4 as [E4 Hn4]. rewrite E4. split; [done|]. split; [done|]. cbn [fst]. split.
       - unfold t. by rewrite attempt_observed, <- Hobs.
       - intros s Hs. apply Hsrc in Hs as [-> ?]. split; [done|lia]. }
  apply evaluate_retry_Some in Er as (Hlt & Ho & Hd & _). rewrite Hobs in Ho. simpl in Ho.
  assert (n = 0%nat) as -> by (bools; lia). simpl in t, Ht.
  apply wp_bind with (λ r w5, quiet w3 w5 ∧ (∀ f, r = Err f → mdf_error f = af_error failure ∧
      (∀ s, mdf_deadline_source f = Some s → s = source ∧ deadline ≤ w_now w5))).
  { apply wait_for_retry_spec; intros; [split; [by transitivity w4|done]|].
    apply Hstop. by transitivity w4. }
  intros [[]|f] w5 [Hq5 Hf5].
  - assert (w_trace w5 = w_trace w ++ t) as E5 by (destruct Hq5; congruence).
    eapply wp_mono; [apply IH; lia|intros; by eapply call_end_retry|intros; by eapply call_stop_retry].
  - apply wp_ret. exists t. destruct (Hf5 f eq_refl) as [He Hs5]. destruct Hq5 as [E5 _].
    rewrite E5. done.
Qed.

(** The body of a model call behind its two checks. *)
Lemma run_checked_spec progress w : 1 ≤ max →
  wp (match validate_request d request with
      | Err e => mret (Err (ModelDriverFailure_ordinary e), progress)
      | Ok _ => attempt_loop d request deadline source 0 progress (N.to_nat max)
      end) w
     (call_end max 0 (mr_tools request) (drv_limits d) deadline source w) (call_stop max 0 w).
Proof.
  intros Hm. destruct (validate_request d request) as [[]|e] eqn:Ev; [by apply attempt_loop_spec; lia|].
  apply wp_ret. exists []. rewrite app_nil_r. split; [done|]. split; [constructor|]. done.
Qed.
End attempts.

Lemma run_detailed_spec d request turn_deadline progress w :
  LoopLimits_validate (drv_limits d) = Ok () → 1 ≤ rp_max_attempts (drv_retry_policy d) →
  let max := rp_max_attempts (drv_retry_policy d) in
  wp (run_detailed d request turn_deadline progress) w
    (λ rp w', ∃ deadline source,
       match source with DsTurn => deadline = turn_deadline
                       | DsPort => w_now w + drv_model_call_timeout d ≤ deadline end ∧
       call_end max 0 (mr_tools request) (drv_limits d) deadline source w rp w')
    (call_stop max 0 w).
Proof.
  intros Hl Hm max. unfold run_detailed.
  assert (∀ b w1, quiet w w1 → call_stop max 0 w b w1) as Hstop.
  { intros b w1 [E _]. exists [], []. rewrite E, app_nil_r. split; [done|]. split; [constructor|done]. }
  assert (∀ w1 f, quiet w w1 → observed_final false (mdf_error f) → ∀ dl src,
    (∀ s, mdf_deadline_source f = Some s → s = src ∧ dl ≤ w_now w1) →
    call_end max 0 (mr_tools request) (drv_limits d) dl src w (Err f, progress) w1) as Hnone.
  { intros w1 f [E _] Hf dl src Hs. exists []. rewrite E, app_nil_r. split; [done|]. split; [constructor|done]. }
  apply wp_quiet_bind; [auto with exec..|]. intros t w1 [= <- <-] Hq1.
  destruct (effective_deadline_from _ _ _) as [ed|] eqn:Ed.
  2: { apply wp_ret. exists turn_deadline, DsTurn. split; [done|]. by apply Hnone. }
  assert (match ed_source ed with DsTurn => ed_tokio ed = turn_deadline
      | DsPort => w_now w + drv_model_call_timeout d ≤ ed_tokio ed end) as Hed.
  { apply effective_deadline_from_Ok in Ed as [_ ->]. destruct Hq1.
    destruct (turn_deadline <=? w_now (tick w) + drv_model_call_timeout d); simpl; lia. }
  apply wp_bind with (λ r w2, quiet w w2 ∧ (∀ f, r = Err f →
      observed_final false (mdf_error f) ∧
      (∀ s, mdf_deadline_source f = Some s → s = ed_source ed ∧ ed_tokio ed ≤ w_now w2))).
  { eapply wp_mono; [by apply (precheck_spec _ _ _ (λ _ w', quiet (tick w) w'))| |].
    - intros r w2 [Hq2 Hr]. split; [by transitivity (tick w)|done].
    - intros b w2 Hq2. apply Hstop. by transitivity (tick w). }
  intros [[]|f] w2 [Hq2 Hf]; [|destruct (Hf f eq_refl); apply wp_ret; exists (ed_tokio ed), (ed_source ed); auto].
  eapply wp_mono; [by apply run_checked_spec| |].
  - intros rp w' (t & E & Ht & Hr). exists (ed_tokio ed), (ed_source ed). split; [done|].
    exists t. destruct Hq2 as [E2 _]. by rewrite E, E2.
  - intros b w' (t & rest & E & Ht & Hr). exists t, rest. destruct Hq2 as [E2 _]. by rewrite E, E2.
Qed.

(** How [run_model] ends, its deadline in terms of its arguments. *)
Definition model_end (o : LoopOptions) (tools : list ToolSpec) (turn_deadline : N) (w : World)
    (r : result ModelDriverFailure ModelResponse) (w' : World) : Prop :=
  ∃ t, w_trace w' = w_trace w ++ t ∧ attempts_from (lo_model_retry_attempts o) 0 t ∧
  match r with
  | Ok resp => response_ok tools (lo_limits o) resp
  | Err f => observed_final (existsb is_event t) (mdf_error f) ∧
      match mdf_deadline_source f with
      | Some DsTurn => turn_deadline ≤ w_now w'
      | Some DsPort => w_now w + lo_model_timeout o ≤ w_now w'
      | None => True
      end
  end.

Lemma run_model_spec o snapshot request turn_deadline w :
  options_ok o →
  wp (run_model o snapshot request turn_deadline) w
    (model_end o (mr_tools request) turn_deadline w)
    (call_stop (lo_model_retry_attempts o) 0 w).
Proof.
  intros Ho. unfold run_model. eapply wp_bind; [apply run_detailed_spec; apply Ho|].
  intros [r pg] w1 (deadline & source & Hd & t & E & Ht & Hr). simpl in *.
  assert (attempts_from (lo_model_retry_attempts o) 0 (t ++ [])) by (by rewrite app_nil_r).
  apply wp_quiet_bind; [auto with exec|intros w' [E' _]; exists t, []; by rewrite E', E|].
  intros [] w2 _ [E2 Hn2].
  apply wp_quiet_bind; [apply quietly_drain_progress|intros w' [E' _]; exists t, []; by rewrite E', E2, E|].
  intros dropped w3 _ [E3 Hn3]. apply wp_ret. exists t. rewrite E3, E2, E. split; [done|].
  split; [done|]. destruct r as [resp|f]; [done|]. destruct Hr as [Hf Hs]. split; [done|].
  destruct (mdf_deadline_source f) as [s|]; [|done]. destruct (Hs s eq_refl) as [-> ?].
  destruct source; lia.
Qed.
End run.

(** C7: a model call is retried safely. Whatever the provider and the other threads
    do, a call makes at most the configured number of attempts, numbered from 0
    without a gap; once a stream event was observed no further attempt is made and
    the failure is reported as started and not retryable; a response has been
    checked against the tools offered and the limits; a deadline failure means that
    deadline has passed; the token of every attempt is cancelled when the call ends,
    even if a destructor of the provider's future or stream panics; and the call never
    runs out of fuel. *)
Theorem model_call_contract (id : LoopId) (request_index : N) (o : LoopOptions)
    (snapshot : ExecutionConfig) (request : ModelRequest) (turn_deadline : N) (w : World) :
  options_ok o →
  match run_model id request_index o snapshot request turn_deadline w with
  | Done r w' => model_end o (mr_tools request) turn_deadline w r w'
  | Panicked w' => ∃ t, w_trace w' = w_trace w ++ t ∧ attempts_from (lo_model_retry_attempts o) 0 t
  | Paused w' =>
      ∃ t rest, w_trace w' = w_trace w ++ t ∧
        attempts_from (lo_model_retry_attempts o) 0 (t ++ rest)
  | OutOfFuel => False
  end.
Proof.
  intros Ho. pose proof (run_model_spec id request_index o snapshot request turn_deadline w Ho) as Hw.
  unfold wp in Hw. destruct (run_model _ _ _ _ _ _ w) as [| | |]; try done.
  - destruct Hw as (t & rest & E & Ht & Hr). rewrite Hr, app_nil_r in Ht by done. by exists t.
  - destruct Hw as (t & rest & E & Ht & _). by exists t, rest.
Qed.
End driver.
