(* ===== verification/RunnerTools.v ===== *)
(** * The tool phase of the runner

    Models src/src/agent_loop/runner/tools.rs, the [FailPath] of
    src/src/agent_loop/runner.rs, and the emission of progress by
    src/src/tools/progress.rs. The progress channel of the running tool is
    [w_tool_queue], its count of dropped progress [w_tool_dropped]; what the tool
    emits during a poll is in [w_tool_polls]. *)

From S2P Require Import Prelude Text Json Ids Limits BTree ToolTypes Progress ToolSet ModelError Message Request Failure History Event Control Options World Steps PortCall.
Local Open Scope N_scope.

(** What an ending loop ends with. *)
Inductive FailPath :=
| FpCompleted | FpCancelled | FpDeadline | FpPrompt | FpModel (error : ModelError)
| FpInvalidModelResponse (error : ModelError) | FpOutputLimit | FpRefused | FpContentFiltered
| FpPolicy | FpInteraction | FpMaxToolRounds | FpInternal.
#[export] Instance FailPath_eq_dec : EqDecision FailPath.
Proof. solve_decision. Defined.

Inductive ToolStep := StepResult (r : ToolResultHistory) | StepEnd (path : FailPath).

Inductive PolicyStep :=
| PsAllow | PsDenied (reason : option BoundedText) | PsRequireApproval (request : ApprovalRequest)
| PsCancelled | PsTurnDeadline | PsInvalid.

Inductive ToolPort :=
| TpCompleted (output : ToolOutput) | TpRequestInput (request : ToolInputRequest)
| TpFailed | TpEnd (path : FailPath).

(** ** Results; [None] is the panic of an [expect] *)

Definition static_output (message : str) (max_bytes : N) : option ToolOutput :=
  let value := if str_len message <=? max_bytes then message else [] in
  match ToolOutput_new value with Ok output => Some output | Err _ => None end.

Definition terminal_tool_result (id : LoopId) (request_index : N) (call_id : ToolCallId)
    (tool_name : ToolName) (outcome : ToolResultOutcome) (message : str) (max_output_bytes : N) :
    option ToolResultHistory :=
  output ← static_output message max_output_bytes;
  Some (mkToolResultHistory id request_index call_id tool_name outcome output).

Section tools.
Context `{SerdeJson}.

Definition completed_result (id : LoopId) (request_index : N) (invocation : ToolInvocation)
    (output : ToolOutput) (max_output_bytes : N) : option ToolResultHistory :=
  if byte_len (to_content output) <=? max_output_bytes then
    Some (mkToolResultHistory id request_index (ti_tool_call_id invocation)
            (ti_tool_name invocation) OutcomeSuccess output)
  else
    terminal_tool_result id request_index (ti_tool_call_id invocation) (ti_tool_name invocation)
      OutcomeFailed (lit "tool output too large") max_output_bytes.

Definition provided_input_result (id : LoopId) (request_index : N) (invocation : ToolInvocation)
    (content : str) (max_output_bytes : N) : option ToolResultHistory :=
  let too_large :=
    terminal_tool_result id request_index (ti_tool_call_id invocation) (ti_tool_name invocation)
      OutcomeFailed (lit "tool output too large") max_output_bytes in
  if str_len content <=? max_output_bytes then
    match ToolOutput_new content with
    | Ok output =>
        Some (mkToolResultHistory id request_index (ti_tool_call_id invocation)
                (ti_tool_name invocation) OutcomeInputProvided output)
    | Err _ => too_large
    end
  else too_large.

Definition denied_result (id : LoopId) (request_index : N) (invocation : ToolInvocation)
    (reason : option BoundedText) (max_output_bytes : N) : option ToolResultHistory :=
  let by_default := static_output (lit "tool denied") max_output_bytes in
  output ←
    match reason with
    | Some reason =>
        if byte_len reason <=? max_output_bytes then
          match ToolOutput_new (as_str reason) with Ok output => Some output | Err _ => None end
        else by_default
    | None => by_default
    end;
  Some (mkToolResultHistory id request_index (ti_tool_call_id invocation) (ti_tool_name invocation)
          OutcomeDenied output).

(** [turn_deadline] of runner.rs; the addition panics on overflow. *)
Definition LOOP_HORIZON : N := 24 * 60 * 60 * NANOS.

Definition turn_deadline (loop_deadline : option N) : exec N :=
  match loop_deadline with
  | Some deadline => mret deadline
  | None => t ← now; expect (instant_checked_add t LOOP_HORIZON)
  end.

(** [publish] of runner.rs. *)
Definition publish (state : LoopState) : exec () :=
  with_ctl (λ c, (publish_state c state, ()));;
  emit (LeStateChanged state).

Section run.
Context (id : LoopId) (o : LoopOptions).

Definition max_output : N := max_tool_output_bytes (lo_limits o).

(** ** The policy *)

Definition decide_policy (policy : option N) (invocation : ToolInvocation) (turn : N) :
    exec PolicyStep :=
  match policy with
  | None => mret PsAllow
  | Some _ =>
      outcome ← run_port_call pop_policy (mret ()) (λ w, length (w_policy_polls w))
        (HcPolicy (ti_tool_call_id invocation)) turn (lo_policy_timeout o);
      mret match (outcome : PortCallOutcome ToolDecision ToolPolicyError) with
           | PcReturned (Ok decision) =>
               if negb (is_ok (ToolDecision_validate decision)) then PsInvalid
               else
                 match decision with
                 | DecisionAllow => PsAllow
                 | DecisionDeny reason => PsDenied (Some reason)
                 | DecisionRequireApproval request => PsRequireApproval request
                 end
           | PcCancelled => PsCancelled
           | PcDeadlineExceeded DsTurn => PsTurnDeadline
           | PcReturned (Err _) | PcDeadlineExceeded DsPort | PcInvalidDeadline | PcPanicked =>
               PsDenied None
           end
  end.

(** ** The tool port *)

Definition TOOL_PROGRESS_CAPACITY : N := 64.

(** The runner's emitter: the channel of the call, and the count of progress it had no
    room for. The channel is open while the tool runs. *)
Definition LoopToolProgress_emit (call_id : ToolCallId) (w : World) (progress : ToolProgress) : World * bool :=
  if N.of_nat (length (w_tool_queue w)) <? TOOL_PROGRESS_CAPACITY then
    (set_tool_queue w (w_tool_queue w ++ [(call_id, progress)]) (w_tool_dropped w), true)
  else (set_tool_queue w (w_tool_queue w) (wrapping_add u64_MAX (w_tool_dropped w) 1), false).

Lemma LoopToolProgress_law call_id w progress :
  (w_tool_queue (LoopToolProgress_emit call_id w progress).1).*2
  = (w_tool_queue w).*2 ++ (if (LoopToolProgress_emit call_id w progress).2 then [progress] else []).
Proof.
  unfold LoopToolProgress_emit. destruct (_ <? _); simpl; [by rewrite fmap_app|by rewrite app_nil_r].
Qed.

Definition LoopToolProgress (call_id : ToolCallId) : ToolProgressEmitter World := {|
  emitter_emit := LoopToolProgress_emit call_id;
  emitter_taken := λ w, (w_tool_queue w).*2;
  emitter_law := LoopToolProgress_law call_id;
|}.

(** What a tool emits while it runs. *)
Definition emit_progress (call_id : ToolCallId) (w : World) (progress : ToolProgress) : World :=
  (ToolProgressSink_emit (ToolProgressSink_from_emitter (LoopToolProgress call_id)) w progress).1.

Lemma emit_progress_eq call_id w progress :
  emit_progress call_id w progress
  = if is_err (ToolProgress_validate progress) then w
    else if N.of_nat (length (w_tool_queue w)) <? TOOL_PROGRESS_CAPACITY then
      set_tool_queue w (w_tool_queue w ++ [(call_id, progress)]) (w_tool_dropped w)
    else set_tool_queue w (w_tool_queue w) (wrapping_add u64_MAX (w_tool_dropped w) 1).
Proof.
  unfold emit_progress, ToolProgressSink_emit. destruct (is_err _); [done|]. simpl. unfold LoopToolProgress_emit.
  by destruct (_ <? _).
Qed.

Definition pop_tool (call_id : ToolCallId) (w : World) :
    World * poll (result ToolError ToolExecutionOutcome) :=
  match w_tool_polls w with
  | [] => (w, PollPending)
  | (p, emitted) :: polls =>
      (foldl (emit_progress call_id) (set_tool_polls polls w) emitted, p)
  end.

(** What a poll leaves in the channel: what was answered yes, behind what was there,
    never more than its capacity; the valid rest is counted as dropped. *)
Lemma emit_all_channel call_id ps : ∀ w,
  N.of_nat (length (w_tool_queue w)) ≤ TOOL_PROGRESS_CAPACITY →
  let '(w', answers) := emit_all (ToolProgressSink_from_emitter (LoopToolProgress call_id)) w ps in
  w_tool_queue w' = w_tool_queue w ++ ((call_id,.) <$> answered ps answers) ∧
  N.of_nat (length (w_tool_queue w')) ≤ TOOL_PROGRESS_CAPACITY ∧
  foldl (emit_progress call_id) w ps = w'.
Proof.
  induction ps as [|p ps IH]; intros w Hw; [simpl; by rewrite app_nil_r|]. cbn [emit_all foldl].
  assert (emit_progress call_id w p
    = (ToolProgressSink_emit (ToolProgressSink_from_emitter (LoopToolProgress call_id)) w p).1) as Hp by done.
  assert (let '(w1, taken) := ToolProgressSink_emit (ToolProgressSink_from_emitter (LoopToolProgress call_id)) w p in
    w_tool_queue w1 = w_tool_queue w ++ (if taken then [(call_id, p)] else []) ∧
    N.of_nat (length (w_tool_queue w1)) ≤ TOOL_PROGRESS_CAPACITY) as Hone.
  { unfold ToolProgressSink_emit. destruct (ToolProgress_validate p); simpl; [|by rewrite app_nil_r]. unfold LoopToolProgress_emit.
    destruct (N.ltb_spec (N.of_nat (length (w_tool_queue w))) TOOL_PROGRESS_CAPACITY); simpl; [|by rewrite app_nil_r].
    split; [done|]. rewrite length_app. simpl. lia. }
  rewrite Hp. destruct (ToolProgressSink_emit _ w p) as [w1 taken]. destruct Hone as [Hq Hl]. specialize (IH w1 Hl).
  simpl fst. destruct (emit_all _ w1 ps) as [w' answers]. destruct IH as (Hq' & Hl' & Hf). split_and!; try done.
  rewrite Hq', Hq, <- app_assoc. by destruct taken.
Qed.

(** [dropped.swap(0)], then the loss is recorded. *)
Definition record_tool_dropped : exec () :=
  dropped ← atomically (λ w, (set_tool_queue w (w_tool_queue w) 0, w_tool_dropped w));
  record_loss dropped.

(** One [recv] of the progress channel that finds a value. *)
Definition forward_tool_progress (request_index : N) : exec bool :=
  value ← atomically (λ w, match w_tool_queue w with
    | [] => (w, None)
    | value :: queue => (set_tool_queue w queue (w_tool_dropped w), Some value)
    end);
  match (value : option (ToolCallId * ToolProgress)) with
  | None => mret false
  | Some (call_id, progress) =>
      record_tool_dropped;;
      emit (LeToolProgress id request_index call_id progress);;
      mret true
  end.

Fixpoint drain_tool_progress (request_index : N) (n : nat) : exec () :=
  match n with
  | O => mret ()
  | S n =>
      more ← forward_tool_progress request_index;
      if (more : bool) then drain_tool_progress request_index n else mret ()
  end.

(** What follows the port call: the loss is recorded and the queue drained. *)
Definition after_tool (request_index : N) : exec () :=
  record_tool_dropped;;
  queued ← atomically (λ w, (w, length (w_tool_queue w)));
  drain_tool_progress request_index queued.

Definition run_tool_port (request_index : N) (invocation : ToolInvocation) (turn : N) :
    exec ToolPort :=
  let call_id := ti_tool_call_id invocation in
  atomically (λ w, (set_tool_queue w [] 0, ()));;
  outcome ← run_port_call (pop_tool call_id) (forward_tool_progress request_index;; mret ())
    (λ w, length (w_tool_polls w)) (HcTool call_id) turn (lo_tool_timeout o);
  after_tool request_index;;
  mret match (outcome : PortCallOutcome ToolExecutionOutcome ToolError) with
       | PcReturned (Ok (ExecCompleted output)) => TpCompleted output
       | PcReturned (Ok (ExecRequestInput request)) =>
           if is_ok (ToolInputRequest_validate request) then TpRequestInput request else TpFailed
       | PcCancelled => TpEnd FpCancelled
       | PcDeadlineExceeded DsTurn => TpEnd FpDeadline
       | PcReturned (Err _) => TpFailed
       | PcDeadlineExceeded DsPort => TpFailed
       | PcInvalidDeadline => TpEnd FpInternal
       | PcPanicked => TpFailed
       end.

(** ** Interactions *)

(** [InteractionId::new()] *)
Definition new_interaction_id : exec (result IdError InteractionId) :=
  atomically (λ w, let '(r, entropy) := InteractionId_new (w_entropy w) in
    (set_host w (w_sync w) (w_inputs w) entropy, r)).

Definition release_interaction : exec () := with_ctl (λ c, (take_interaction c, ())).

(** The biased [select!] over the token, the loop's deadline and the receiver;
    [polls] bounds how often the waiting task wakes without an answer. *)
Fixpoint receive_answer (reply : nat) (polls : nat) : exec (result FailPath InteractionAnswer) :=
  cancelled ← is_cancelled;
  if (cancelled : bool) then release_interaction;; mret (Err FpCancelled)
  else
    t ← now;
    if match lo_deadline o with Some deadline => deadline <=? t | None => false end then
      release_interaction;; mret (Err FpDeadline)
    else
      cell ← read_ctl (λ c, c_oneshots c !! reply);
      match (cell : option oneshot) with
      | Some (OsSent answer) => mret (Ok answer)
      | Some OsOpen =>
          match polls with
          | O => pause
          | S polls => receive_answer reply polls
          end
      | _ => release_interaction;; mret (Err FpInteraction)
      end.

Definition with_waiting (s : LoopState) (status : LoopStatus) (pending : option PendingInteraction) :
    LoopState :=
  mkLoopState (ls_loop_id s) status (ls_request_index s) (ls_config_revision s) (ls_model s) pending.

Definition wait_interaction (invocation : ToolInvocation) (interaction_id : InteractionId)
    (kind : InteractionKind) (reply : nat) : exec (result FailPath InteractionAnswer) :=
  let pending := mkPendingInteraction interaction_id (ti_tool_call_id invocation)
    (ti_tool_name invocation) kind in
  set ← with_ctl (λ c, set_interaction c (mkInteractionSlot interaction_id kind reply));
  match (set : result InteractionStateError ()) with
  | Err _ => mret (Err FpInternal)
  | Ok _ =>
      waiting ← read_ctl current_state;
      publish (with_waiting waiting StWaitingForInput (Some pending));;
      emit (LeInteractionRequested id pending);;
      polls ← atomically (λ w, (w, patience 0 w));
      answer ← receive_answer reply polls;
      match (answer : result FailPath InteractionAnswer) with
      | Err path => mret (Err path)
      | Ok answer =>
          release_interaction;;
          emit (LeInteractionResolved id interaction_id);;
          running ← read_ctl current_state;
          publish (with_waiting running StRunningTools None);;
          mret (Ok answer)
      end
  end.

(** The id, the channel and the wait, as both uses do. *)
Definition interact (invocation : ToolInvocation) (kind : InteractionKind) :
    exec (result FailPath InteractionAnswer) :=
  interaction_id ← new_interaction_id;
  match (interaction_id : result IdError InteractionId) with
  | Err _ => mret (Err FpInternal)
  | Ok interaction_id =>
      reply ← with_ctl oneshot_channel;
      wait_interaction invocation interaction_id kind reply
  end.

(** ** One call *)

(** The call once the policy lets it run. *)
Definition execute_tool (request_index : N) (invocation : ToolInvocation) : exec ToolStep :=
  turn ← turn_deadline (lo_deadline o);
  port ← run_tool_port request_index invocation turn;
  match (port : ToolPort) with
  | TpCompleted output =>
      r ← expect (completed_result id request_index invocation output max_output);
      mret (StepResult r)
  | TpRequestInput request =>
      answer ← interact invocation (KindToolInput request);
      match (answer : result FailPath InteractionAnswer) with
      | Err path => mret (StepEnd path)
      | Ok (AnswerToolInput answer) =>
          content ← expect (encode_result answer request);
          r ← expect (provided_input_result id request_index invocation content max_output);
          mret (StepResult r)
      | Ok _ => mret (StepEnd FpInternal)
      end
  | TpFailed =>
      r ← expect (terminal_tool_result id request_index (ti_tool_call_id invocation)
                    (ti_tool_name invocation) OutcomeFailed (lit "tool failed") max_output);
      mret (StepResult r)
  | TpEnd path => mret (StepEnd path)
  end.

Definition deny_call (request_index : N) (invocation : ToolInvocation)
    (reason : option BoundedText) : exec ToolStep :=
  r ← expect (denied_result id request_index invocation reason max_output);
  mret (StepResult r).

Definition run_tool_call (request_index : N) (invocation : ToolInvocation) (policy : option N) :
    exec ToolStep :=
  turn ← turn_deadline (lo_deadline o);
  decision ← decide_policy policy invocation turn;
  match (decision : PolicyStep) with
  | PsAllow => execute_tool request_index invocation
  | PsDenied reason => deny_call request_index invocation reason
  | PsRequireApproval request =>
      answer ← interact invocation (KindApproval request);
      match (answer : result FailPath InteractionAnswer) with
      | Err path => mret (StepEnd path)
      | Ok (AnswerApproval AllowOnce) => execute_tool request_index invocation
      | Ok (AnswerApproval DenyApproval) => deny_call request_index invocation None
      | Ok _ => mret (StepEnd FpInternal)
      end
  | PsCancelled => mret (StepEnd FpCancelled)
  | PsTurnDeadline => mret (StepEnd FpDeadline)
  | PsInvalid => mret (StepEnd FpPolicy)
  end.

(** ** The batch *)

Fixpoint settle_calls (working : WorkingHistory) (request_index : N) (calls : list ToolCall)
    (outcome : ToolResultOutcome) (message : str) : option WorkingHistory :=
  match calls with
  | [] => Some working
  | call :: calls =>
      r ← terminal_tool_result id request_index (tc_tool_call_id call) (tc_name call) outcome
            message max_output;
      settle_calls (append_tool_result working r) request_index calls outcome message
  end.

(** The [for] loop; the calls left are [calls[index..]]. *)
Fixpoint run_tool_batch (working : WorkingHistory) (request_index : N)
    (snapshot : ExecutionConfig) (calls : list ToolCall) :
    exec (WorkingHistory * option FailPath) :=
  match calls with
  | [] => mret (working, None)
  | call :: rest =>
      cancelled ← is_cancelled;
      step ←
        (if (cancelled : bool) then mret (StepEnd FpCancelled)
         else
           _ ← expect (EnabledTools_get (ec_tools snapshot) (tc_name call));
           let invocation := mkToolInvocation (tc_tool_call_id call) (tc_name call) (tc_arguments call) in
           emit (LeToolStarted id request_index (tc_tool_call_id call) (tc_name call));;
           run_tool_call request_index invocation (ec_policy snapshot));
      match (step : ToolStep) with
      | StepResult r =>
          emit (LeToolFinished id request_index (tc_tool_call_id call) (trh_outcome r)
               (byte_len (to_content (trh_output r))));;
          run_tool_batch (append_tool_result working r) request_index snapshot rest
      | StepEnd path =>
          working ← expect (settle_calls working request_index calls OutcomeCancelled
                              (lit "tool batch interrupted"));
          mret (working, Some path)
      end
  end.

(** ** Facts: what the tool phase keeps *)

Lemma keeps_publish state : keeps step_ok (publish state).
Proof.
  unfold publish. apply keeps_bind; [apply _| |intros _; auto with exec].
  apply keeps_with_ctl. intros c. by split_and!.
Qed.
Lemma keeps_turn_deadline d : keeps step_ok (turn_deadline d).
Proof. unfold turn_deadline. keeps_tac. Qed.
Lemma keeps_release : keeps step_ok release_interaction.
Proof.
  apply keeps_with_ctl. intros c. simpl. unfold take_interaction.
  destruct (c_interaction c); by split_and!.
Qed.
Lemma keeps_oneshot : keeps step_ok (with_ctl oneshot_channel).
Proof. apply keeps_with_ctl. intros c. by split_and!. Qed.
Lemma keeps_set_interaction slot : keeps step_ok (with_ctl (λ c, set_interaction c slot)).
Proof.
  apply keeps_with_ctl. intros c. unfold set_interaction. destruct (c_interaction c); by split_and!.
Qed.
Lemma keeps_new_interaction_id : keeps step_ok new_interaction_id.
Proof.
  apply keeps_step. intros w. destruct (InteractionId_new _) as [r e]. step_frame.
Qed.
#[local] Hint Resolve keeps_publish keeps_turn_deadline keeps_release keeps_oneshot
  keeps_set_interaction keeps_new_interaction_id : exec.

Lemma keeps_receive_answer reply polls : keeps step_ok (receive_answer reply polls).
Proof. induction polls as [|n IH]; cbn [receive_answer]; keeps_tac; auto. Qed.
#[local] Hint Resolve keeps_receive_answer : exec.
Lemma keeps_interact invocation kind : keeps step_ok (interact invocation kind).
Proof. unfold interact, wait_interaction. keeps_tac. Qed.

Lemma emit_progress_frame call_id emitted w :
  foldl (emit_progress call_id) w emitted
  = set_tool_queue w (w_tool_queue (foldl (emit_progress call_id) w emitted))
      (w_tool_dropped (foldl (emit_progress call_id) w emitted)).
Proof.
  revert w. induction emitted as [|p ps IH]; intros w; simpl; [by destruct w|].
  rewrite IH at 1. rewrite !emit_progress_eq. destruct (is_err _); [done|]. by destruct (_ <? _).
Qed.
Lemma keeps_pop_tool call_id : keeps step_ok (atomically (pop_tool call_id)).
Proof.
  apply keeps_step. intros w. unfold pop_tool. destruct (w_tool_polls w) as [|[p e] ps]; [reflexivity|].
  cbn [fst]. rewrite emit_progress_frame. step_frame.
Qed.
Lemma keeps_pop_progress : keeps step_ok (atomically (λ w, match w_tool_queue w with
    | [] => (w, None)
    | value :: queue => (set_tool_queue w queue (w_tool_dropped w), Some value)
    end)).
Proof. apply keeps_step. intros w. destruct (w_tool_queue w); step_frame. Qed.
Lemma keeps_record_tool_dropped : keeps step_ok record_tool_dropped.
Proof. unfold record_tool_dropped. keeps_tac. apply keeps_step. intros w. step_frame. Qed.
#[local] Hint Resolve keeps_pop_tool keeps_pop_progress keeps_record_tool_dropped
  keeps_interact : exec.
Lemma keeps_forward_tool_progress i : keeps step_ok (forward_tool_progress i).
Proof. unfold forward_tool_progress. keeps_tac. Qed.
#[local] Hint Resolve keeps_forward_tool_progress : exec.
Lemma keeps_drain_tool_progress i n : keeps step_ok (drain_tool_progress i n).
Proof. induction n as [|n IH]; cbn [drain_tool_progress]; keeps_tac; auto. Qed.
Lemma keeps_decide_policy policy invocation turn : keeps step_ok (decide_policy policy invocation turn).
Proof.
  unfold decide_policy. destruct policy; [|keeps_tac]. apply keeps_bind; [apply _| |intros ?; keeps_tac].
  apply keeps_run_port_call; [apply _|apply keeps_pop_policy, _|apply keeps_ret, _|done].
Qed.
Lemma keeps_run_tool_port i invocation turn : keeps step_ok (run_tool_port i invocation turn).
Proof.
  unfold run_tool_port. apply keeps_bind; [apply _| |intros _].
  { apply keeps_step. intros w. step_frame. }
  apply keeps_bind; [apply _| |intros r].
  { apply keeps_run_port_call; [apply _|apply keeps_pop_tool| |done]. keeps_tac. }
  keeps_tac. unfold after_tool. keeps_tac. apply keeps_drain_tool_progress.
Qed.
#[local] Hint Resolve keeps_decide_policy keeps_run_tool_port : exec.
Lemma keeps_execute_tool i invocation : keeps step_ok (execute_tool i invocation).
Proof. unfold execute_tool. keeps_tac. Qed.
#[local] Hint Resolve keeps_execute_tool : exec.
Lemma keeps_run_tool_call i invocation policy : keeps step_ok (run_tool_call i invocation policy).
Proof. unfold run_tool_call, deny_call. keeps_tac. Qed.
#[local] Hint Resolve keeps_run_tool_call : exec.
Lemma keeps_run_tool_batch i snapshot calls : ∀ working,
  keeps step_ok (run_tool_batch working i snapshot calls).
Proof. induction calls as [|c cs IH]; intros working; cbn [run_tool_batch]; keeps_tac; auto. Qed.

(** ** Facts: results *)

(** The result of one call: addressed to it, and within the output limit. *)
Record result_for (request_index : N) (call_id : ToolCallId) (name : ToolName)
    (r : ToolResultHistory) : Prop := {
  rf_loop : trh_loop_id r = id;
  rf_request : trh_request_index r = request_index;
  rf_call : trh_call_id r = call_id;
  rf_name : trh_tool_name r = name;
  rf_size : byte_len (to_content (trh_output r)) ≤ max_output;
}.

Lemma static_output_spec message max :
  valid_text message MAX_TEXT_BYTES true = true →
  ∃ output, static_output message max = Some output ∧ byte_len (to_content output) ≤ max.
Proof.
  intros Hv. unfold static_output. destruct (N.leb_spec (str_len message) max) as [Hl|Hl].
  - rewrite (proj2 (ToolOutput_new_Ok message (mkToolOutput (mkBoundedText message)))) by done. eauto.
  - rewrite (proj2 (ToolOutput_new_Ok [] (mkToolOutput (mkBoundedText [])))) by done.
    eexists. split; [done|]. vm_compute. by destruct max.
Qed.

Lemma terminal_tool_result_spec i call_id name outcome message :
  valid_text message MAX_TEXT_BYTES true = true →
  ∃ r, terminal_tool_result id i call_id name outcome message max_output = Some r ∧
    result_for i call_id name r ∧ trh_outcome r = outcome.
Proof.
  intros Hv. unfold terminal_tool_result. destruct (static_output_spec message max_output Hv) as (out & -> & ?).
  eexists. split; [done|]. by split.
Qed.

Lemma completed_result_spec i inv output :
  ∃ r, completed_result id i inv output max_output = Some r ∧
    result_for i (ti_tool_call_id inv) (ti_tool_name inv) r ∧
    (trh_outcome r = OutcomeSuccess ∨ trh_outcome r = OutcomeFailed).
Proof.
  unfold completed_result. destruct (N.leb_spec (byte_len (to_content output)) max_output) as [Hl|Hl].
  - eexists. split; [done|]. split; [by split|by left].
  - destruct (terminal_tool_result_spec i (ti_tool_call_id inv) (ti_tool_name inv) OutcomeFailed
      (lit "tool output too large") eq_refl) as (r & -> & ? & ?). eauto.
Qed.

Lemma provided_input_result_spec i inv content :
  ∃ r, provided_input_result id i inv content max_output = Some r ∧
    result_for i (ti_tool_call_id inv) (ti_tool_name inv) r ∧
    (trh_outcome r = OutcomeInputProvided ∨ trh_outcome r = OutcomeFailed).
Proof.
  unfold provided_input_result.
  destruct (terminal_tool_result_spec i (ti_tool_call_id inv) (ti_tool_name inv) OutcomeFailed
    (lit "tool output too large") eq_refl) as (r & Hr & ? & ?).
  destruct (N.leb_spec (str_len content) max_output) as [Hl|Hl]; [|eauto].
  destruct (ToolOutput_new content) as [out|] eqn:Eo; [|eauto].
  apply ToolOutput_new_Ok in Eo as [_ ->]. eexists. split; [done|]. split; [by split|by left].
Qed.

(** A reason a validated decision may carry. *)
Definition reason_ok (reason : option BoundedText) : Prop :=
  from_option (λ r, validate_policy_text (as_str r) = Ok ()) True reason.

Lemma denied_result_spec i inv reason :
  reason_ok reason →
  ∃ r, denied_result id i inv reason max_output = Some r ∧
    result_for i (ti_tool_call_id inv) (ti_tool_name inv) r ∧ trh_outcome r = OutcomeDenied.
Proof.
  unfold denied_result. intros Hr.
  destruct (static_output_spec (lit "tool denied") max_output eq_refl) as (out & Ho & Hlen).
  destruct reason as [reason|]; [|rewrite Ho; eexists; split; [done|by split]].
  destruct (N.leb_spec (byte_len reason) max_output) as [Hl|Hl]; [|rewrite Ho; eexists; split; [done|by split]].
  simpl in Hr. unfold validate_policy_text in Hr. destruct (valid_text _ _ _) eqn:Hv; [|done].
  apply valid_text_spec in Hv as (_ & Hm & Hc).
  rewrite (proj2 (ToolOutput_new_Ok _ (mkToolOutput (mkBoundedText (as_str reason))))).
  - eexists. split; [done|]. by split.
  - split; [|done]. apply valid_text_spec. split; [by left|]. split; [|done].
    etransitivity; [exact Hm|done].
Qed.

Lemma encode_result_Some answer request :
  ToolInputAnswer_validate answer request = Ok () → is_Some (encode_result answer request).
Proof.
  intros Hv%ToolInputAnswer_validate_Ok. destruct answer as [text|index]; [by eexists|].
  simpl. destruct (tir_choices request !! N.to_nat index) eqn:E; [by eexists|].
  apply lookup_ge_None in E. destruct Hv as [_ Hv]. lia.
Qed.

Lemma settle_calls_spec i outcome message calls : ∀ working,
  valid_text message MAX_TEXT_BYTES true = true →
  ∃ rs, settle_calls working i calls outcome message
      = Some (mkWorkingHistory (wh_base working) (wh_appended working ++ (HiToolResult <$> rs))) ∧
    Forall2 (λ c r, result_for i (tc_tool_call_id c) (tc_name c) r ∧ trh_outcome r = outcome) calls rs.
Proof.
  induction calls as [|c cs IH]; intros working Hv; cbn [settle_calls].
  { exists []. rewrite app_nil_r. by destruct working. }
  destruct (terminal_tool_result_spec i (tc_tool_call_id c) (tc_name c) outcome message Hv) as (r & -> & ? & ?).
  cbn. destruct (IH (append_tool_result working r) Hv) as (rs & -> & ?).
  exists (r :: rs). split; [simpl; by rewrite <- app_assoc|by constructor].
Qed.

(** ** Facts: interactions *)

(** The runner waits on [slot]: it is open, or it was taken by a valid answer. *)
Definition waits (slot : InteractionSlot) (c : LoopControl) : Prop :=
  c_interaction c = Some slot ∧ c_oneshots c !! is_reply slot = Some OsOpen ∨
  c_interaction c = None ∧ ∃ a, c_oneshots c !! is_reply slot = Some (OsSent a) ∧
    InteractionAnswer_validate a (is_expected slot) = Ok ().

#[local] Instance waits_rel slot : CtlRel (λ w w', waits slot (w_ctl w) → waits slot (w_ctl w')).
Proof.
  apply env_stable.
  - intros c s. unfold mark_cancel_exchange, compare_exchange. by destruct (_ =? _).
  - done.
  - intros c config. unfold update_locked. by destruct (_ || _).
  - intros c i a Hw. unfold answer. destruct (_ || _); [done|].
    destruct Hw as [[Hi Ho]|[Hi Ho]]; rewrite Hi; [|right; by split].
    destruct (negb _); [by left|].
    destruct (InteractionAnswer_validate a (is_expected slot)) as [[]|] eqn:Ev; [|by left].
    right. split; [done|]. exists a. split; [|done]. simpl.
    apply list_lookup_insert_eq. by apply lookup_lt_Some in Ho.
Qed.

(** Why a batch ends, as far as the world can tell. *)
Definition end_cause (path : FailPath) (w : World) : Prop :=
  match path with
  | FpCancelled => fired w
  | FpDeadline => from_option (λ d, d ≤ w_now w) True (lo_deadline o)
  | FpPolicy | FpInternal => True
  | _ => False
  end.

Lemma end_cause_later path w w' : quiet w w' → calm w w' → end_cause path w → end_cause path w'.
Proof.
  intros [_ Hn] [_ Hf]. destruct path; simpl; try done.
  destruct (lo_deadline o); simpl; [lia|done].
Qed.

(** A channel made while no interaction is open stays open. *)
#[local] Instance idle_open reply : CtlRel (λ w w',
  (c_interaction (w_ctl w) = None ∧ c_oneshots (w_ctl w) !! reply = Some OsOpen) →
  c_interaction (w_ctl w') = None ∧ c_oneshots (w_ctl w') !! reply = Some OsOpen).
Proof.
  apply (env_stable (λ c, c_interaction c = None ∧ c_oneshots c !! reply = Some OsOpen)).
  - intros c s. unfold mark_cancel_exchange, compare_exchange. by destruct (_ =? _).
  - done.
  - intros c config. unfold update_locked. by destruct (_ || _).
  - intros c i a [Hi Ho]. unfold answer. rewrite Hi. by destruct (_ || _).
Qed.

Lemma take_interaction_idle c : c_interaction (take_interaction c) = None.
Proof. unfold take_interaction. by destruct (c_interaction c) eqn:E. Qed.

Lemma take_interaction_cancel c : c_cancel (take_interaction c) = c_cancel c.
Proof. unfold take_interaction. by destruct (c_interaction c). Qed.

(** The interaction is released on the way out. *)
Lemma release_end w0 w path P :
  quiet w0 w → end_cause path w →
  wp (release_interaction;; mret (Err (A := InteractionAnswer) path)) w
    (λ r w', quiet w0 w' ∧ match r with
       | Ok _ => False
       | Err path => idle w' ∧ end_cause path w'
       end) P.
Proof.
  intros Hq Hc. apply wp_atomically, wp_ret. cbn [fst].
  assert (quiet w (tick w)) as Hqt by apply tick_quiet.
  split; [by transitivity w|]. split; [apply take_interaction_idle|].
  destruct path; simpl in *; try done.
  - unfold fired. simpl. rewrite take_interaction_cancel. by apply (ctl_rel_tick calm).
  - destruct (lo_deadline o); [|done]. simpl in *. destruct Hqt. lia.
Qed.

Lemma receive_answer_spec slot polls : ∀ w,
  waits slot (w_ctl w) →
  wp (receive_answer (is_reply slot) polls) w
    (λ r w', quiet w w' ∧ match r with
       | Ok a => InteractionAnswer_validate a (is_expected slot) = Ok ()
       | Err path => idle w' ∧ end_cause path w'
       end)
    (λ b w', b = false ∧ quiet w w').
Proof.
  assert (∀ w, quiet w (tick w)) as Hq by apply tick_quiet.
  assert (∀ w, waits slot (w_ctl w) → waits slot (w_ctl (tick w))) as Hwt.
  { intros w. apply (ctl_rel_tick (λ w w', waits slot (w_ctl w) → waits slot (w_ctl w'))). }
  induction polls as [|n IH]; intros w Hw; cbn [receive_answer].
  all: apply wp_atomically; cbn [fst snd]; destruct (c_cancel (w_ctl (tick w))) eqn:Ec.
  1, 3: eapply wp_mono; [by apply (release_end w (tick w))| |intros b w' Hb; exact Hb]; intros [] w' [? Hr]; [by destruct Hr|by split].
  all: apply wp_atomically; cbn [fst snd]; set (w2 := tick (tick w));
    assert (quiet w w2) by (transitivity (tick w); [done|apply Hq]);
    destruct (match lo_deadline o with Some _ => _ | None => _ end) eqn:Ed.
  1, 3: eapply wp_mono; [apply (release_end w w2 FpDeadline); [done|]; simpl;
      revert Ed; destruct (lo_deadline o); simpl; intros Ed; [by bools|done]| |intros b w' Hb; exact Hb]; intros [] w' [? Hr]; [by destruct Hr|by split].
  all: apply wp_atomically; cbn [fst snd]; assert (waits slot (w_ctl (tick w2))) as Hw2 by (apply Hwt, Hwt, Hwt, Hw);
    assert (quiet w (tick w2)) by (transitivity w2; [done|apply Hq]);
    destruct Hw2 as [[Hi Ho]|[Hi (a & Ho & Ha)]]; rewrite Ho; [|by apply wp_ret].
  - by split.
  - eapply wp_mono; [apply IH; by left| |].
    + intros r w' [Hq' Hr]. split; [|done]. by transitivity (tick w2).
    + intros b w' [-> Hq']. split; [done|]. by transitivity (tick w2).
Qed.

Lemma quietly_read {A} (f : World → A) : quietly (atomically (λ w, (w, f w))).
Proof. by apply quietly_atomically. Qed.
Lemma quietly_publish state : quietly (publish state).
Proof.
  unfold publish. apply quietly_bind; [|intros _; auto with exec].
  apply quietly_atomically. done.
Qed.
Lemma keeps_publish_ctl R `{!CtlRel R} state :
  (∀ w, R w (set_ctl w (publish_state (w_ctl w) state))) → keeps R (publish state).
Proof.
  intros Hp. unfold publish. apply keeps_bind; [apply _| |intros _; by apply (keeps_same_ctl R)].
  apply keeps_atomically; [apply _|apply ctl_rel_tick, _|]. intros w. apply Hp.
Qed.
#[local] Hint Resolve quietly_publish quietly_read : exec.

(** A quiet step that keeps [I] on the way of a longer wait. *)
Lemma wp_hold {A B} (I : World → Prop) (m : exec A) (k : A → exec B) w0 w Q P :
  quietly m → keeps (λ w w', I w → I w') m → quiet w0 w → I w →
  (∀ a w', quiet w0 w' → I w' → wp (k a) w' Q P) → (∀ w', quiet w0 w' → P false w') →
  wp (m ≫= k) w Q P.
Proof.
  intros Hm Hk Hq Hi HQ HP. specialize (Hm w). specialize (Hk w). unfold wp, mbind, exec_bind in *.
  destruct (m w) as [a w'|w'|w'|]; try done.
  - apply HQ; [by transitivity w|by apply Hk].
  - apply HP. by transitivity w.
Qed.

Lemma set_interaction_None c slot :
  c_interaction c = None → set_interaction c slot = (with_interaction c (Some slot) (c_oneshots c), Ok ()).
Proof. unfold set_interaction. by intros ->. Qed.

Lemma wait_interaction_spec inv iid kind reply w :
  idle w → c_oneshots (w_ctl w) !! reply = Some OsOpen →
  wp (wait_interaction inv iid kind reply) w
    (λ r w', quiet w w' ∧ idle w' ∧ match r with
       | Ok a => InteractionAnswer_validate a kind = Ok ()
       | Err path => end_cause path w'
       end)
    (λ b w', b = false ∧ quiet w w').
Proof.
  intros Hi Ho. unfold wait_interaction. set (slot := mkInteractionSlot iid kind reply).
  set (I := λ c, c_interaction c = None ∧ c_oneshots c !! reply = Some OsOpen).
  assert (I (w_ctl (tick w))) as [Hi1 Ho1].
  { by apply (ctl_rel_tick _ (CtlRel0 := idle_open reply)). }
  apply wp_atomically. rewrite (set_interaction_None _ _ Hi1). cbn [fst snd].
  set (w1 := set_ctl (tick w) _).
  assert (quiet w w1) as Hq1 by apply tick_quiet.
  assert (waits slot (w_ctl w1)) as Hw1 by (by left).
  set (W := λ w, waits slot (w_ctl w)).
  assert (∀ A (f : World → World * A), (∀ w, w_ctl (f w).1 = w_ctl w) →
    keeps (λ w w', W w → W w') (atomically f)) as Hsame.
  { intros A f Hf. by apply (keeps_same_ctl _ (CtlRel0 := waits_rel slot)). }
  assert (∀ A (f : World → World * A), (∀ w, w_ctl (f w).1 = w_ctl w) →
    keeps (λ w w', idle w → idle w') (atomically f)) as Hidle.
  { intros A f Hf. by apply (keeps_same_ctl _). }
  apply (wp_hold W) with (w0 := w); [auto with exec|by apply Hsame|done|done| |done].
  intros waiting w2 Hq2 Hw2.
  apply (wp_hold W) with (w0 := w); [auto with exec|by apply (keeps_publish_ctl _ (CtlRel0 := waits_rel slot))|done|done| |done].
  intros [] w3 Hq3 Hw3.
  apply (wp_hold W) with (w0 := w); [auto with exec|by apply Hsame|done|done| |done].
  intros [] w4 Hq4 Hw4.
  apply (wp_hold W) with (w0 := w); [auto with exec|by apply Hsame|done|done| |done].
  intros polls w5 Hq5 Hw5.
  eapply wp_bind; [eapply wp_mono; [by apply (receive_answer_spec slot)|intros r w6 Hr; exact Hr|]|].
  { intros b w6 [-> Hq6]. split; [done|]. by transitivity w5. }
  intros [a|path] w6 [Hq6 Hr].
  2: { apply wp_ret. split; [by transitivity w5|done]. }
  assert (quiet w w6) as Hq by (by transitivity w5).
  apply wp_atomically. cbn [fst snd]. set (w7 := set_ctl (tick w6) _).
  assert (quiet w w7) as Hq7 by (transitivity w6; [done|apply tick_quiet]).
  assert (idle w7) as Hi7 by apply take_interaction_idle.
  apply (wp_hold idle) with (w0 := w); [auto with exec|by apply Hidle|done|done| |done].
  intros [] w8 Hq8 Hi8.
  apply (wp_hold idle) with (w0 := w); [auto with exec|by apply Hidle|done|done| |done].
  intros running w9 Hq9 Hi9.
  apply (wp_hold idle) with (w0 := w); [auto with exec|by apply (keeps_publish_ctl _)|done|done| |done].
  intros [] w10 Hq10 Hi10. by apply wp_ret.
Qed.

Lemma interact_spec inv kind w :
  idle w →
  wp (interact inv kind) w
    (λ r w', quiet w w' ∧ idle w' ∧ match r with
       | Ok a => InteractionAnswer_validate a kind = Ok ()
       | Err path => end_cause path w'
       end)
    (λ b w', b = false ∧ quiet w w').
Proof.
  intros Hi. unfold interact.
  assert (quietly new_interaction_id) as Hn.
  { apply quietly_atomically. intros w1. by destruct (InteractionId_new _). }
  assert (keeps (λ w w', idle w → idle w') new_interaction_id) as Hk.
  { apply (keeps_same_ctl _). intros w1. by destruct (InteractionId_new _). }
  apply (wp_hold idle) with (w0 := w); [done..| |done].
  intros [iid|e] w1 Hq1 Hi1; [|by apply wp_ret].
  apply wp_atomically. cbn [oneshot_channel fst snd].
  assert (quiet w (tick w1)) as Hq2 by (transitivity w1; [done|apply tick_quiet]).
  assert (idle (tick w1)) as Hi2 by (by apply (ctl_rel_tick calm w1)).
  eapply wp_mono; [apply wait_interaction_spec; simpl; [done|]| |].
  - by rewrite lookup_app_r, Nat.sub_diag.
  - intros r w' [Hq Hr]. split; [by transitivity (tick w1)|done].
  - intros b w' [-> Hq]. split; [done|]. by transitivity (tick w1).
Qed.

(** ** Facts: one call *)

(** The calls into the host a tool call makes: the policy at most once, then the
    tool at most once, and with a policy never the tool alone. *)
Definition call_trace (policy : option N) (call_id : ToolCallId) (t : list HostCall) : Prop :=
  ∃ p q, t = p ++ q ∧ (p = [] ∨ policy ≠ None ∧ p = [HcPolicy call_id; HcChildCancelled]) ∧
    (q = [] ∨ q = [HcTool call_id; HcChildCancelled]) ∧ (q ≠ [] → policy ≠ None → p ≠ []).

Definition is_tool (c : HostCall) : bool := match c with HcTool _ => true | _ => false end.

Lemma call_trace_policy policy cid : policy ≠ None → call_trace policy cid [HcPolicy cid; HcChildCancelled].
Proof. intros. exists [HcPolicy cid; HcChildCancelled], []. split_and!; [done|by right|by left|done]. Qed.
Lemma call_trace_nil policy cid : call_trace policy cid [].
Proof. exists [], []. split_and!; [done|by left|by left|done]. Qed.

(** What the decision leaves behind. *)
Definition decided (policy : option N) (call_id : ToolCallId) (turn : N) (w : World) (s : PolicyStep)
    (w' : World) : Prop :=
  calm w w' ∧ w_now w ≤ w_now w' ∧
  ∃ p, w_trace w' = w_trace w ++ p ∧
    (p = [] ∨ policy ≠ None ∧ p = [HcPolicy call_id; HcChildCancelled]) ∧
    match s with
    | PsAllow | PsRequireApproval _ => policy ≠ None → p ≠ []
    | PsDenied reason => reason_ok reason
    | PsCancelled => fired w'
    | PsTurnDeadline => turn ≤ w_now w'
    | PsInvalid => True
    end.

Lemma decide_policy_spec policy inv turn w :
  wp (decide_policy policy inv turn) w (decided policy (ti_tool_call_id inv) turn w)
    (λ b w', policy ≠ None ∧ port_stop (HcPolicy (ti_tool_call_id inv)) w b w').
Proof.
  unfold decide_policy. destruct policy as [p|].
  2: { apply wp_ret. split; [by split|]. split; [done|]. exists []. rewrite app_nil_r.
       split; [done|]. split; [by left|done]. }
  eapply wp_bind; [eapply wp_mono; [apply wp_run_port_call| |]|].
  - apply quietly_pop_policy.
  - apply quietly_ret.
  - done.
  - apply keeps_pop_policy, _.
  - apply keeps_ret, _.
  - intros r w' Hr. exact Hr.
  - by intros b w' Hs.
  - intros r w' [[Hr Hn] Hc]. apply wp_ret. split; [done|]. split; [done|].
    assert (∀ t : list HostCall, t = w_trace w ∨ t = w_trace w ++ [HcPolicy (ti_tool_call_id inv); HcChildCancelled] →
      ∃ q, t = w_trace w ++ q ∧ (q = [] ∨ Some p ≠ None ∧ q = [HcPolicy (ti_tool_call_id inv); HcChildCancelled])) as Hsplit.
    { intros t [->| ->]; [exists []; rewrite app_nil_r; split; [done|by left]|eexists; split; [done|by right]]. }
    destruct r as [[decision|e]| |[]| |]; simpl in Hr.
    + eexists. split; [exact Hr|]. split; [by right|].
      destruct (ToolDecision_validate decision) as [[]|e] eqn:Ev; [|done].
      destruct decision; simpl in *; done.
    + eexists. split; [exact Hr|]. split; [by right|done].
    + destruct Hr as [Hf Ht]. destruct (Hsplit _ Ht) as (q & ? & ?). by exists q.
    + destruct Hr as [Hf Ht]. destruct (Hsplit _ Ht) as (q & ? & ?). by exists q.
    + destruct Hr as [Hf Ht]. destruct (Hsplit _ Ht) as (q & ? & ?). by exists q.
    + destruct Hr as [Ht Hf]. destruct (Hsplit (w_trace w')) as (q & ? & ?); [by left|]. by exists q.
    + eexists. split; [exact Hr|]. split; [by right|done].
Qed.

(** What running the tool leaves behind. *)
Definition tool_ran (call_id : ToolCallId) (turn : N) (w : World) (p : ToolPort) (w' : World) : Prop :=
  calm w w' ∧ w_now w ≤ w_now w' ∧
  ∃ q, w_trace w' = w_trace w ++ q ∧ (q = [] ∨ q = [HcTool call_id; HcChildCancelled]) ∧
    match p with
    | TpCompleted _ => q ≠ []
    | TpRequestInput request => q ≠ [] ∧ ToolInputRequest_validate request = Ok ()
    | TpFailed => True
    | TpEnd FpCancelled => fired w'
    | TpEnd FpDeadline => turn ≤ w_now w'
    | TpEnd path => path = FpInternal
    end.

Lemma quietly_forward_tool_progress i : quietly (forward_tool_progress i).
Proof.
  unfold forward_tool_progress. apply quietly_bind.
  - apply quietly_atomically. intros w. by destruct (w_tool_queue w).
  - intros [[c p]|]; [|apply quietly_ret]. apply quietly_bind; [|intros _; quietly_tac].
    unfold record_tool_dropped. apply quietly_bind; [by apply quietly_atomically|auto with exec].
Qed.
Lemma calm_forward_tool_progress i : keeps calm (forward_tool_progress i).
Proof.
  assert (∀ e, keeps calm (emit e)) by (intros; by apply (keeps_same_ctl calm)).
  assert (∀ n, keeps calm (record_loss n)) by (intros; by apply (keeps_same_ctl calm)).
  unfold forward_tool_progress, record_tool_dropped. apply keeps_bind; [apply _| |].
  - apply (keeps_same_ctl calm). intros w. by destruct (w_tool_queue w).
  - intros [[c p]|]; keeps_tac. by apply (keeps_same_ctl calm).
Qed.
Lemma pop_tool_quiet call_id w : quiet w (pop_tool call_id w).1 ∧ w_ctl (pop_tool call_id w).1 = w_ctl w.
Proof.
  unfold pop_tool. destruct (w_tool_polls w) as [|[p e] ps]; [done|]. cbn [fst].
  by rewrite emit_progress_frame.
Qed.

Lemma quietly_after_tool i : quietly (after_tool i).
Proof.
  unfold after_tool, record_tool_dropped. apply quietly_bind; [|intros _].
  { apply quietly_bind; [by apply quietly_atomically|auto with exec]. }
  apply quietly_bind; [by apply quietly_atomically|]. intros n.
  induction n as [|n IH]; cbn [drain_tool_progress]; [apply quietly_ret|].
  apply quietly_bind; [apply quietly_forward_tool_progress|]. intros []; [done|apply quietly_ret].
Qed.
Lemma calm_after_tool i : keeps calm (after_tool i).
Proof.
  unfold after_tool, record_tool_dropped. apply keeps_bind; [apply _| |intros _].
  { apply keeps_bind; [apply _| |intros d]; by apply (keeps_same_ctl calm). }
  apply keeps_bind; [apply _|by apply (keeps_same_ctl calm)|]. intros n.
  induction n as [|n IH]; cbn [drain_tool_progress]; [apply keeps_ret, _|].
  apply keeps_bind; [apply _|apply calm_forward_tool_progress|]. intros []; [done|apply keeps_ret, _].
Qed.

Definition is_port_returned {T E} (r : PortCallOutcome T E) : bool :=
  match r with PcReturned _ => true | _ => false end.

Lemma run_tool_port_spec i inv turn w :
  wp (run_tool_port i inv turn) w (tool_ran (ti_tool_call_id inv) turn w)
    (λ b w', (b = true → dropping w') ∧ ∃ q rest, w_trace w' = w_trace w ++ q ∧
       q ++ rest = [HcTool (ti_tool_call_id inv); HcChildCancelled]).
Proof.
  unfold run_tool_port. set (call := HcTool (ti_tool_call_id inv)). apply wp_atomically. cbn [fst snd].
  set (w1 := set_tool_queue (tick w) [] 0).
  assert (quiet w w1) as [Ht1 Hn1] by apply tick_quiet.
  assert (calm w w1) as Hc1 by apply (ctl_rel_tick calm w).
  eapply wp_bind; [eapply wp_mono; [apply wp_run_port_call| |]|].
  - apply quietly_atomically. intros w0. apply pop_tool_quiet.
  - apply quietly_bind; [apply quietly_forward_tool_progress|]. intros _. apply quietly_ret.
  - done.
  - apply (keeps_same_ctl calm). intros w0. apply pop_tool_quiet.
  - apply keeps_bind; [apply _|apply calm_forward_tool_progress|]. intros _. apply keeps_ret, _.
  - intros r w' Hr. exact Hr.
  - intros b w' Hs. split; [by eapply port_stop_dropping|].
    apply port_stop_rest in Hs as (q & rest & Ht & ?). exists q, rest. by rewrite Ht, Ht1.
  - intros r w2 [[Hr Hn2] Hc2].
    assert (∃ q, w_trace w2 = w_trace w ++ q ∧ (q = [] ∨ q = [call; HcChildCancelled]) ∧
      (is_port_returned r = true → q ≠ [])) as (q & Ht2 & Hq & Hret).
    { rewrite <- Ht1. destruct r as [x| |s| |]; simpl in Hr; destruct_and?;
        repeat match goal with H : _ ∨ _ |- _ => destruct H end;
        first [by exists []; rewrite app_nil_r; eauto|by exists [call; HcChildCancelled]; eauto]. }
    assert (∀ w', quiet w2 w' → ∃ q' rest, w_trace w' = w_trace w ++ q' ∧ q' ++ rest = [call; HcChildCancelled]) as Hstop.
    { intros w' [-> _]. destruct Hq as [-> | ->]; [exists [], [call; HcChildCancelled]|
        exists [call; HcChildCancelled], []]; by rewrite ?app_nil_r in *. }
    apply wp_quiet_bind; [apply quietly_after_tool|intros; split; [done|by apply Hstop]|].
    intros [] w3 E3 [Ht3 Hn3]. apply wp_ret.
    assert (calm w2 w3) as Hc3.
    { pose proof (calm_after_tool i w2) as Hk. by rewrite E3 in Hk. }
    assert (calm w w3) as Hc by (transitivity w1; [done|by transitivity w2]).
    split; [done|]. split; [lia|]. exists q. rewrite Ht3. split; [done|]. split; [done|].
    destruct r as [[[out|request]|e]| |[]| |]; simpl in Hr, Hret; try done.
    + exact (Hret eq_refl).
    + destruct (ToolInputRequest_validate request) as [[]|] eqn:Ev; [|done]. simpl. split; [exact (Hret eq_refl)|done].
    + apply Hc3, Hr.
    + destruct Hr. lia.
Qed.

(** Reading the loop's deadline; without one it may overflow the clock. *)
Definition horizon_overflow (w : World) : Prop :=
  lo_deadline o = None ∧ INSTANT_MAX < w_now w + LOOP_HORIZON.

Lemma turn_deadline_spec w :
  wp (turn_deadline (lo_deadline o)) w
    (λ t w', quiet w w' ∧ calm w w' ∧ from_option (λ d, t = d) True (lo_deadline o))
    (λ b w', b = true ∧ quiet w w' ∧ horizon_overflow w').
Proof.
  unfold turn_deadline, horizon_overflow. destruct (lo_deadline o) as [d|]; [by apply wp_ret|].
  apply wp_atomically. cbn [fst snd].
  assert (quiet w (tick w)) by apply tick_quiet.
  destruct (instant_checked_add _ _) eqn:E; [apply wp_ret|].
  - split; [done|]. split; [apply (ctl_rel_tick calm)|done].
  - apply checked_add_None in E. done.
Qed.

(** Why a tool call may panic: the clock overflows, or a future was just dropped,
    whose destructor is the host's. *)
Definition panic_cause (w : World) : Prop := horizon_overflow w ∨ dropping w.

(** How a tool call ends. *)
Definition step_end (policy : option N) (i : N) (inv : ToolInvocation) (w : World) (s : ToolStep)
    (w' : World) : Prop :=
  idle w' ∧ w_now w ≤ w_now w' ∧
  ∃ t, w_trace w' = w_trace w ++ t ∧ call_trace policy (ti_tool_call_id inv) t ∧
    match s with
    | StepResult r => result_for i (ti_tool_call_id inv) (ti_tool_name inv) r ∧
        match trh_outcome r with
        | OutcomeSuccess | OutcomeInputProvided => existsb is_tool t = true
        | OutcomeDenied => existsb is_tool t = false
        | OutcomeFailed => True
        | OutcomeCancelled => False
        end
    | StepEnd path => end_cause path w'
    end.

(** Where it may stop short, by a panic or still waiting. *)
Definition step_stop (policy : option N) (call_id : ToolCallId) (w : World) (b : bool) (w' : World) : Prop :=
  (b = true → panic_cause w') ∧
  ∃ t rest, w_trace w' = w_trace w ++ t ∧ call_trace policy call_id (t ++ rest).

Section prefix.
(** The policy part of the trace is [p]; [w0] is where the call began. *)
Context (policy : option N) (i : N) (inv : ToolInvocation) (w0 : World) (p : list HostCall).
Hypothesis policy_part : p = [] ∨ policy ≠ None ∧ p = [HcPolicy (ti_tool_call_id inv); HcChildCancelled].

Lemma policy_part_silent : existsb is_tool p = false.
Proof. by destruct policy_part as [->|[_ ->]]. Qed.

Lemma policy_part_trace : call_trace policy (ti_tool_call_id inv) p.
Proof.
  destruct policy_part as [->|[? ->]]; [apply call_trace_nil|by apply call_trace_policy].
Qed.

Lemma step_stop_here w : w_trace w = w_trace w0 ++ p → step_stop policy (ti_tool_call_id inv) w0 false w.
Proof. intros Ht. split; [done|]. exists p, []. rewrite app_nil_r. split; [done|apply policy_part_trace]. Qed.

Lemma deny_call_spec reason w :
  reason_ok reason → w_trace w = w_trace w0 ++ p → idle w → w_now w0 ≤ w_now w →
  wp (deny_call i inv reason) w (step_end policy i inv w0) (step_stop policy (ti_tool_call_id inv) w0).
Proof.
  intros Hr Ht Hi Hn. unfold deny_call. destruct (denied_result_spec i inv reason Hr) as (r & -> & Hf & Ho).
  apply wp_ret. split; [done|]. split; [done|]. exists p. split; [done|]. split; [apply policy_part_trace|].
  rewrite Ho. split; [done|apply policy_part_silent].
Qed.

Lemma end_step_spec path w :
  end_cause path w → w_trace w = w_trace w0 ++ p → idle w → w_now w0 ≤ w_now w →
  step_end policy i inv w0 (StepEnd path) w.
Proof.
  intros He Ht Hi Hn. split; [done|]. split; [done|]. exists p. split; [done|].
  split; [apply policy_part_trace|done].
Qed.

Lemma tool_part_trace q :
  (policy ≠ None → p ≠ []) → q = [] ∨ q = [HcTool (ti_tool_call_id inv); HcChildCancelled] →
  call_trace policy (ti_tool_call_id inv) (p ++ q).
Proof. intros Hp Hq. exists p, q. by split_and!. Qed.

Lemma ran_result w q r :
  (policy ≠ None → p ≠ []) → q = [] ∨ q = [HcTool (ti_tool_call_id inv); HcChildCancelled] →
  w_trace w = w_trace w0 ++ p ++ q → idle w → w_now w0 ≤ w_now w →
  result_for i (ti_tool_call_id inv) (ti_tool_name inv) r →
  (trh_outcome r = OutcomeFailed ∨
    q ≠ [] ∧ (trh_outcome r = OutcomeSuccess ∨ trh_outcome r = OutcomeInputProvided)) →
  step_end policy i inv w0 (StepResult r) w.
Proof.
  intros Hp Hq Ht Hi Hn Hr Ho. split; [done|]. split; [done|]. exists (p ++ q). split; [done|].
  split; [by apply tool_part_trace|]. split; [done|].
  destruct Ho as [->|[Hne Ho]]; [done|]. destruct Hq as [->| ->]; [done|].
  rewrite existsb_app, orb_true_r by done. by destruct Ho as [->| ->].
Qed.

Lemma execute_tool_spec w :
  (policy ≠ None → p ≠ []) → w_trace w = w_trace w0 ++ p → idle w → w_now w0 ≤ w_now w →
  wp (execute_tool i inv) w (step_end policy i inv w0) (step_stop policy (ti_tool_call_id inv) w0).
Proof.
  intros Hp Ht Hi Hn. unfold execute_tool.
  eapply wp_bind; [eapply wp_mono; [apply turn_deadline_spec|intros t w1 Hr; exact Hr|]|].
  { intros b w1 (_ & [Ht1 _] & Ho). split; [by left|]. exists p, []. rewrite Ht1, app_nil_r.
    split; [done|apply policy_part_trace]. }
  intros turn w1 ([Ht1 Hn1] & Hc1 & Hturn). assert (idle w1) as Hi1 by (by apply Hc1).
  eapply wp_bind; [eapply wp_mono; [apply run_tool_port_spec|intros t w2 Hr; exact Hr|]|].
  { intros b w2 (Hb & q & rest & Ht2 & Hq). split; [by right; apply Hb|]. exists (p ++ q), rest.
    rewrite Ht2, Ht1, Ht, <- !app_assoc. split; [done|]. rewrite Hq. by apply tool_part_trace; [|right]. }
  intros port w2 (Hc2 & Hn2 & q & Ht2 & Hq & Hport).
  assert (idle w2) as Hi2 by (by apply Hc2).
  assert (w_trace w2 = w_trace w0 ++ p ++ q) as Htr by (rewrite Ht2, Ht1, Ht; by rewrite <- app_assoc).
  assert (w_now w0 ≤ w_now w2) as Hn02 by lia.
  destruct port as [output|request| |path].
  - destruct (completed_result_spec i inv output) as (r & -> & Hf & Ho). apply wp_ret.
    apply (ran_result _ q); try done. naive_solver.
  - destruct Hport as [Hne Hv].
    eapply wp_bind; [eapply wp_mono; [by apply interact_spec|intros a w3 Hr; exact Hr|]|].
    { intros b w3 [-> [Ht3 _]]. split; [done|]. exists (p ++ q), [].
      rewrite Ht3, Htr, app_nil_r. split; [done|by apply tool_part_trace]. }
    intros [a|path] w3 ([Ht3 Hn3] & Hi3 & Ha).
    + destruct a as [d|answer]; [discriminate Ha|]. simpl in Ha.
      destruct (encode_result_Some answer request Ha) as [content ->].
      destruct (provided_input_result_spec i inv content) as (r & Hr & Hf & Ho).
      change (wp (r ← expect (provided_input_result id i inv content max_output); mret (StepResult r)) w3
        (step_end policy i inv w0) (step_stop policy (ti_tool_call_id inv) w0)).
      rewrite Hr. apply wp_ret. apply (ran_result _ q); try done; [congruence|lia|naive_solver].
    + apply wp_ret. split; [done|]. split; [lia|]. exists (p ++ q). split; [congruence|].
      split; [by apply tool_part_trace|done].
  - destruct (terminal_tool_result_spec i (ti_tool_call_id inv) (ti_tool_name inv) OutcomeFailed
      (lit "tool failed") eq_refl) as (r & -> & Hf & Ho). apply wp_ret.
    apply (ran_result _ q); try done. by left.
  - apply wp_ret. split; [done|]. split; [done|]. exists (p ++ q). split; [done|].
    split; [by apply tool_part_trace|]. destruct path; try done; simpl in *.
    destruct (lo_deadline o); [|done]. simpl in *. by subst.
Qed.
End prefix.

Lemma run_tool_call_spec i inv policy w :
  idle w →
  wp (run_tool_call i inv policy) w (step_end policy i inv w) (step_stop policy (ti_tool_call_id inv) w).
Proof.
  intros Hi. unfold run_tool_call.
  eapply wp_bind; [eapply wp_mono; [apply turn_deadline_spec|intros t w1 Hr; exact Hr|]|].
  { intros b w1 (_ & [Ht1 _] & Ho). split; [by left|]. exists [], []. rewrite Ht1, app_nil_r.
    split; [done|apply call_trace_nil]. }
  intros turn w1 ([Ht1 Hn1] & Hc1 & Hturn). assert (idle w1) as Hi1 by (by apply Hc1).
  eapply wp_bind; [eapply wp_mono; [apply decide_policy_spec|intros t w2 Hr; exact Hr|]|].
  { intros b w2 (Hp & Hb). split; [right; by eapply port_stop_dropping|].
    apply port_stop_rest in Hb as (q & rest & Ht2 & Hq). exists q, rest.
    rewrite Ht2, Ht1, Hq. split; [done|by apply call_trace_policy]. }
  intros s w2 (Hc2 & Hn2 & p & Ht2 & Hp & Hs). rewrite Ht1 in Ht2.
  assert (idle w2) as Hi2 by (by apply Hc2). assert (w_now w ≤ w_now w2) as Hn by lia.
  destruct s as [|reason|request| | |].
  - by apply (execute_tool_spec policy i inv w p Hp).
  - by apply (deny_call_spec policy i inv w p Hp).
  - eapply wp_bind; [eapply wp_mono; [by apply interact_spec|intros a w3 Hr; exact Hr|]|].
    { intros b w3 [-> [Ht3 _]]. split; [done|]. exists p, [].
      rewrite Ht3, Ht2, app_nil_r. split; [done|by apply policy_part_trace]. }
    intros [a|path] w3 ([Ht3 Hn3] & Hi3 & Ha).
    + destruct a as [[]|answer]; [| |discriminate Ha].
      * apply (execute_tool_spec policy i inv w p Hp); try done; [congruence|lia].
      * apply (deny_call_spec policy i inv w p Hp); try done; [congruence|lia].
    + apply wp_ret, (end_step_spec policy i inv w p Hp); try done; [congruence|lia].
  - by apply wp_ret, (end_step_spec policy i inv w p Hp).
  - apply wp_ret, (end_step_spec policy i inv w p Hp); try done. simpl.
    destruct (lo_deadline o); [|done]. simpl in *. by subst.
  - by apply wp_ret, (end_step_spec policy i inv w p Hp).
Qed.
(** ** Facts: the batch *)

(** The calls into the host of a batch, call by call. *)
Inductive calls_trace (policy : option N) : list ToolCall → list HostCall → Prop :=
| calls_trace_nil cs : calls_trace policy cs []
| calls_trace_cons c cs t t' :
    call_trace policy (tc_tool_call_id c) t → calls_trace policy cs t' →
    calls_trace policy (c :: cs) (t ++ t').

(** A batch: every call gets its result, in order; at the first call that ends the
    loop, that call and the calls after it are settled as cancelled. *)
Inductive batch (policy : option N) (i : N) (w' : World) :
    list ToolCall → list ToolResultHistory → list HostCall → option FailPath → Prop :=
| batch_done : batch policy i w' [] [] [] None
| batch_next c cs r rs t t' e :
    call_trace policy (tc_tool_call_id c) t →
    result_for i (tc_tool_call_id c) (tc_name c) r →
    match trh_outcome r with
    | OutcomeSuccess | OutcomeInputProvided => existsb is_tool t = true
    | OutcomeDenied => existsb is_tool t = false
    | OutcomeFailed => True
    | OutcomeCancelled => False
    end →
    batch policy i w' cs rs t' e →
    batch policy i w' (c :: cs) (r :: rs) (t ++ t') e
| batch_end c cs rs t path :
    call_trace policy (tc_tool_call_id c) t →
    Forall2 (λ c r, result_for i (tc_tool_call_id c) (tc_name c) r ∧ trh_outcome r = OutcomeCancelled)
      (c :: cs) rs →
    end_cause path w' →
    batch policy i w' (c :: cs) rs t (Some path).

Definition batch_end_state (snapshot : ExecutionConfig) (i : N) (calls : list ToolCall)
    (working : WorkingHistory) (w : World) (r : WorkingHistory * option FailPath) (w' : World) : Prop :=
  idle w' ∧ w_now w ≤ w_now w' ∧
  ∃ rs t, r.1 = mkWorkingHistory (wh_base working) (wh_appended working ++ (HiToolResult <$> rs)) ∧
    w_trace w' = w_trace w ++ t ∧ batch (ec_policy snapshot) i w' calls rs t r.2.

Definition batch_stop (policy : option N) (calls : list ToolCall) (w : World) (b : bool) (w' : World) : Prop :=
  (b = true → panic_cause w') ∧
  ∃ t rest, w_trace w' = w_trace w ++ t ∧ calls_trace policy calls (t ++ rest).

Lemma batch_results policy i w' calls rs t e :
  batch policy i w' calls rs t e →
  Forall2 (λ c r, result_for i (tc_tool_call_id c) (tc_name c) r) calls rs.
Proof.
  induction 1; [constructor|by constructor|]. eapply Forall2_impl; [done|]. by intros ? ? [? _].
Qed.

Lemma calm_emit e : keeps calm (emit e).
Proof. by apply (keeps_same_ctl calm). Qed.

Lemma run_tool_batch_spec i snapshot calls : ∀ working w,
  Forall (λ c, is_Some (EnabledTools_get (ec_tools snapshot) (tc_name c))) calls → idle w →
  wp (run_tool_batch working i snapshot calls) w
    (batch_end_state snapshot i calls working w) (batch_stop (ec_policy snapshot) calls w).
Proof.
  induction calls as [|c cs IH]; intros working w Hen Hi; cbn [run_tool_batch].
  { apply wp_ret. split; [done|]. split; [done|]. exists [], []. rewrite !app_nil_r. destruct working.
    split; [done|]. split; [done|constructor]. }
  apply Forall_cons in Hen as [[enabled Hen] Hens].
  set (inv := mkToolInvocation (tc_tool_call_id c) (tc_name c) (tc_arguments c)).
  apply wp_atomically. cbn [fst snd]. assert (quiet w (tick w)) as [Ht1 Hn1] by apply tick_quiet.
  assert (calm w (tick w)) as Hc1 by apply (ctl_rel_tick calm).
  assert (∀ b w', step_stop (ec_policy snapshot) (tc_tool_call_id c) w b w' →
    batch_stop (ec_policy snapshot) (c :: cs) w b w') as Hstop.
  { intros b w' (Hb & t & rest & Ht & Hct). split; [done|]. exists t, rest. split; [done|].
    rewrite <- (app_nil_r (t ++ rest)). constructor; [done|constructor]. }
  eapply wp_bind with (step_end (ec_policy snapshot) i inv w).
  { destruct (c_cancel (w_ctl (tick w))) eqn:Ec.
    - apply wp_ret. split; [by apply Hc1|]. split; [done|]. exists []. rewrite app_nil_r.
      split; [done|]. split; [apply call_trace_nil|done].
    - rewrite Hen. cbn [expect]. apply (wp_quiet_bind (mret enabled)); [apply quietly_ret|..].
      { intros w' [Ht _]. apply Hstop, (step_stop_here _ inv w []); [by left|]. by rewrite Ht, Ht1, app_nil_r. }
      intros _ w2 [= _ <-] _.
      apply (wp_hold idle) with (w0 := w); [auto with exec|by apply (keeps_same_ctl _)|done|by apply Hc1|..].
      + intros [] w3 [Ht3 Hn3] Hi3. eapply wp_mono; [by apply run_tool_call_spec| |].
        * intros s w4 (Hi4 & Hn4 & t & Ht4 & Hct & Hs). split; [done|]. split; [lia|].
          exists t. by rewrite Ht4, Ht3.
        * intros b w4 (Hb & t & rest & Ht4 & Hct). apply Hstop. split; [done|]. exists t, rest.
          by rewrite Ht4, Ht3.
      + intros w' [Ht' _]. apply Hstop, (step_stop_here _ inv w []); [by left|]. by rewrite Ht', app_nil_r. }
  intros [r|path] w1 (Hi1 & Hnow1 & t & Ht & Hct & Hs).
  - destruct Hs as [Hr Ho].
    apply (wp_hold idle) with (w0 := w1); [auto with exec|by apply (keeps_same_ctl _)|done|done|..].
    + intros [] w2 [Ht2 Hn2] Hi2. eapply wp_mono; [by apply IH| |].
      * intros re w' (Hi' & Hn' & rs & t' & Hre & Ht' & Hb). split; [done|]. split; [lia|].
        exists (r :: rs), (t ++ t'). rewrite Hre. simpl. rewrite <- app_assoc. split; [done|].
        rewrite Ht', Ht2, Ht, <- app_assoc. split; [done|]. by constructor.
      * intros b w' (Hb & t' & rest & Ht' & Hct'). split; [done|]. exists (t ++ t'), rest.
        rewrite Ht', Ht2, Ht, <- !app_assoc. split; [done|]. by constructor.
    + intros w2 [Ht2 _]. apply Hstop. split; [done|]. exists t, []. by rewrite Ht2, Ht, app_nil_r.
  - destruct (settle_calls_spec i OutcomeCancelled (lit "tool batch interrupted") (c :: cs) working eq_refl)
      as (rs & Hrs & HF). rewrite Hrs. apply wp_ret. split; [done|]. split; [done|]. exists rs, t.
    split; [done|]. split; [done|]. by apply batch_end.
Qed.
End run.

(** ** Properties *)

(** C6: the tool phase of one response. Whatever the host and the other threads do,
    a batch whose tools are all enabled gives each call exactly one result, in
    order, addressed to it and within the output limit; a tool runs at most once
    per call, never before the policy (if there is one) has answered, never for a
    denied call, and always for a successful one; if the batch ends early then the
    token has fired, the loop's deadline has passed, the policy's decision was
    invalid or the environment failed, and the remaining calls are settled as
    cancelled without running. It panics only when the clock overflows or in the
    destructor of a future it has just dropped. *)
Theorem tool_batch_contract (id : LoopId) (o : LoopOptions) (snapshot : ExecutionConfig) (i : N)
    (calls : list ToolCall) (working : WorkingHistory) (w : World) :
  Forall (λ c, is_Some (EnabledTools_get (ec_tools snapshot) (tc_name c))) calls → idle w →
  match run_tool_batch id o working i snapshot calls w with
  | Done r w' => batch_end_state id o snapshot i calls working w r w'
  | Panicked w' => batch_stop o (ec_policy snapshot) calls w true w'
  | Paused w' => batch_stop o (ec_policy snapshot) calls w false w'
  | OutOfFuel => False
  end.
Proof.
  intros He Hi. pose proof (run_tool_batch_spec id o i snapshot calls working w He Hi) as Hw.
  unfold wp in Hw. by destruct (run_tool_batch _ _ _ _ _ _ w).
Qed.

(** C18: the policy fails closed. When the policy errs, panics, runs out of its own
    time or denies, the call is answered as denied on the spot, with a text within
    the output limit, and the tool is not run. *)
Theorem policy_fails_closed (id : LoopId) (o : LoopOptions) (p i turn : N) (inv : ToolInvocation)
    (w w1 w2 : World) (r : PortCallOutcome ToolDecision ToolPolicyError) :
  turn_deadline (lo_deadline o) w = Done turn w1 →
  run_port_call pop_policy (mret ()) (λ w, length (w_policy_polls w)) (HcPolicy (ti_tool_call_id inv))
    turn (lo_policy_timeout o) w1 = Done r w2 →
  match r with
  | PcReturned (Ok (DecisionDeny reason)) => validate_policy_text (as_str reason) = Ok ()
  | PcReturned (Err _) | PcDeadlineExceeded DsPort | PcInvalidDeadline | PcPanicked => True
  | _ => False
  end →
  ∃ result, run_tool_call id o i inv (Some p) w = Done (StepResult result) w2 ∧
    trh_outcome result = OutcomeDenied ∧ trh_call_id result = ti_tool_call_id inv ∧
    byte_len (to_content (trh_output result)) ≤ max_output o ∧
    ∃ t, w_trace w2 = w_trace w ++ t ∧ existsb is_tool t = false.
Proof.
  intros Et Ep Hr.
  assert (∃ reason, reason_ok reason ∧ decide_policy o (Some p) inv turn w1 = Done (PsDenied reason) w2)
    as (reason & Hok & Hd).
  { unfold decide_policy, mbind, exec_bind. rewrite Ep.
    destruct r as [[[|reason|]|e]| |[]| |]; try done; [|by exists None..].
    exists (Some reason). simpl. by rewrite Hr. }
  destruct (denied_result_spec id o i inv reason Hok) as (result & Hres & Hf & Ho).
  exists result. unfold run_tool_call, deny_call, mbind, exec_bind. rewrite Et, Hd. cbn. rewrite Hres.
  split; [done|]. split; [done|]. split; [apply Hf|]. split; [apply Hf|].
  pose proof (turn_deadline_spec o w) as Ht. unfold wp in Ht. rewrite Et in Ht.
  pose proof (decide_policy_spec o (Some p) inv turn w1) as Hs. unfold wp in Hs. rewrite Hd in Hs.
  destruct Ht as [[Ht _] _]. destruct Hs as (_ & _ & q & Hq & Hqp & _).
  exists q. split; [congruence|]. by destruct Hqp as [->|[_ ->]].
Qed.
End tools.
