(* ===== verification/Runner.v ===== *)
(** * The runner: one agent loop

    Models src/src/agent_loop/runner.rs, [prepare_prompt], [build_model_request]
    and [map_model_failure] of src/src/agent_loop/runner/model.rs, and
    [AgentLoop::start] of src/src/agent_loop/mod.rs.

    One turn of the runner's [loop] is [iteration] over the local variables
    [Locals]; [run_loop_turns] is the loop, its fuel one more than the polls of the
    prompt provider left (each turn that goes on has used one up). A configuration
    whose last reference goes away runs destructors of the host: [host_sync] where
    they may unwind into the runner, [drop_config] where they are caught. *)

From S2P Require Import Prelude Text Json Ids Limits BTree ToolTypes ToolSet ModelError Message Request Failure Assembler History Prompt Event Control Options World Steps PortCall Driver RunnerTools.
Local Open Scope N_scope.

(** A call that is plainly silent. *)
Ltac silent_one := split_and!; [done|done|by repeat constructor].

Inductive PromptPrep `{SerdeJson} :=
| PrepReady (messages : list ModelMessage)
| PrepEnd (path : FailPath).

(** ** Outcomes; [None] is the panic of [bounded_static] *)

Definition failure (kind : LoopFailureKind) (code : DiagnosticCode) (category : DiagnosticCategory)
    (message : string) : option LoopFailure :=
  diagnostic ← bounded_static code category message false;
  Some (mkLoopFailure kind diagnostic None).

Definition model_failure (kind : LoopFailureKind) (error : ModelError) : LoopFailure :=
  mkLoopFailure kind (me_diagnostic error) (Some error).

Definition outcome_summary (outcome : LoopOutcome) : LoopOutcomeSummary :=
  match outcome with
  | OutCompleted => SumCompleted
  | OutCancelled reason => SumCancelled reason
  | OutFailed failure => SumFailed (lf_kind failure)
  end.

Section runner.
Context `{SerdeJson}.

(** [drop_config]: a destructor that panics is caught. *)
Definition drop_config (config : option ExecutionConfig) : exec () :=
  match config with
  | None => mret ()
  | Some _ => _ ← host_panics; mret ()
  end.

(** The local variables of the loop. *)
Record Locals := mkLocals {
  l_working : WorkingHistory;
  l_config : ExecutionConfig;
  l_issued_revision : N;
  l_candidate_revision : option N;
  l_request_index : N;
  l_tool_rounds : N;
  l_requests : N;
  l_last_issued : option N;
  l_usage : Usage;
}.

Definition with_basis (l : Locals) working config candidate : Locals :=
  mkLocals working config (l_issued_revision l) candidate (l_request_index l) (l_tool_rounds l)
    (l_requests l) (l_last_issued l) (l_usage l).
Definition with_working (l : Locals) working : Locals :=
  with_basis l working (l_config l) (l_candidate_revision l).

Section run.
Context (id : LoopId) (o : LoopOptions).

(** ** The boundary *)

Definition steer (working : WorkingHistory) (input : UserInput) : WorkingHistory :=
  append_user working (mkUserHistory id KindSteering input).

(** [take_boundary]; [last_reference]: the configuration it replaces is not held
    elsewhere. The flags are what it returns and whether it replaced one. *)
Definition take_boundary (l : Locals) (last_reference : bool) : exec (Locals * bool * bool) :=
  candidate ← with_ctl take_config;
  '(l, replaced) ←
    match (candidate : option (N * ExecutionConfig)) with
    | Some (revision, config) =>
        (if last_reference then host_sync else mret ());;
        mret (with_basis l (l_working l) config (Some revision), true)
    | None => mret (l, false)
    end;
  inputs ← take_inputs;
  mret (with_working l (foldl steer (l_working l) inputs),
        replaced || match inputs with [] => false | _ => true end, replaced).

(** ** The prompt *)

Definition prepare_prompt (request_index turn : N) : exec PromptPrep :=
  outcome ← run_port_call pop_prompt (mret ()) (λ w, length (w_prompt_polls w)) (HcPrompt request_index)
    turn (lo_prompt_timeout o);
  mret match (outcome : PortCallOutcome (list ModelMessage) PromptError) with
       | PcReturned (Ok []) => PrepEnd FpPrompt
       | PcReturned (Ok messages) => PrepReady messages
       | PcCancelled => PrepEnd FpCancelled
       | PcDeadlineExceeded DsTurn => PrepEnd FpDeadline
       | PcReturned (Err _) | PcDeadlineExceeded DsPort | PcInvalidDeadline | PcPanicked =>
           PrepEnd FpPrompt
       end.

Definition build_model_request (messages : list ModelMessage) (snapshot : ExecutionConfig) :
    result ModelValueError ModelRequest :=
  with_validated_tools messages (tset_specs (ec_tools snapshot)) ModelLimits_default (ec_reasoning snapshot).

Definition map_model_failure (failure : ModelDriverFailure) : exec FailPath :=
  cancelled ← is_cancelled;
  mret (if (cancelled : bool) then FpCancelled
        else
          match mdf_deadline_source failure with
          | Some DsTurn => FpDeadline
          | _ =>
              match me_kind (mdf_error failure) with
              | KInvalidProviderResponse | KIncompleteResponse | KUnexpectedToolCall =>
                  FpInvalidModelResponse (mdf_error failure)
              | _ => FpModel (mdf_error failure)
              end
          end).

(** ** The response *)

Definition invalid_response_error : option ModelError :=
  diagnostic ← bounded_static CodeModelMalformedResponse CatModel "model returned an invalid response" false;
  Some (ModelError_started KInvalidProviderResponse diagnostic).

(** The path of a response without tool calls; the second component: it ends the
    loop before the response enters the history. *)
Definition no_tool_finish (reason : ModelFinishReason) : option (FailPath * bool) :=
  match reason with
  | FinishStop => Some (FpCompleted, false)
  | FinishLength => Some (FpOutputLimit, false)
  | FinishRefused => Some (FpRefused, false)
  | FinishContentFiltered => Some (FpContentFiltered, false)
  | FinishUnknown | FinishToolCalls =>
      error ← invalid_response_error;
      Some (FpInvalidModelResponse error, true)
  end.

Inductive Turn :=
| TurnContinue (l : Locals)
| TurnBreak (l : Locals) (path : FailPath) (discarded : option ExecutionConfig).

Definition state_of (l : Locals) (status : LoopStatus) (revision : N) : LoopState :=
  mkLoopState id status (l_request_index l) revision
    (Some (md_model_ref (ec_descriptor (l_config l)))) None.

Definition assistant_of (l : Locals) (response : ModelResponse) (usage : Usage) : AssistantHistory :=
  mkAssistantHistory id (l_request_index l) (md_model_ref (ec_descriptor (l_config l)))
    (ec_reasoning (l_config l)) (resp_parts response) (resp_provider_replay response)
    (resp_finish_reason response) usage.

(** The tool calls of a response that has some. *)
Definition tool_round (l : Locals) (calls : list ToolCall) : exec Turn :=
  if negb (lo_max_tool_rounds o =? 0) && (lo_max_tool_rounds o <=? l_tool_rounds l) then
    working ← expect (settle_calls id o (l_working l) (l_request_index l) calls OutcomeFailed
                        (lit "tool round limit reached"));
    mret (TurnBreak (with_working l working) FpMaxToolRounds None)
  else
    let l := mkLocals (l_working l) (l_config l) (l_issued_revision l) (l_candidate_revision l)
      (l_request_index l) (saturating_add u64_MAX (l_tool_rounds l) 1) (l_requests l)
      (l_last_issued l) (l_usage l) in
    publish (state_of l StRunningTools (l_issued_revision l));;
    '(working, ended) ← run_tool_batch id o (l_working l) (l_request_index l) (l_config l) calls;
    match (ended : option FailPath) with
    | Some path => mret (TurnBreak (with_working l working) path None)
    | None =>
        mret (TurnContinue
          (mkLocals working (l_config l) (l_issued_revision l) (l_candidate_revision l)
             (saturating_add u32_MAX (l_request_index l) 1) (l_tool_rounds l) (l_requests l)
             (l_last_issued l) (l_usage l)))
    end.

(** From the response to the end of the turn. *)
Definition use_response (l : Locals) (response : ModelResponse) : exec Turn :=
  let round_usage := default Usage_default (resp_usage response) in
  let '(usage, added) := UsageAccumulator_add (l_usage l) round_usage in
  let l := mkLocals (l_working l) (l_config l) (l_issued_revision l) (l_candidate_revision l)
    (l_request_index l) (l_tool_rounds l) (l_requests l) (l_last_issued l) usage in
  match (added : result () ()) with
  | Err _ => mret (TurnBreak l FpInternal None)
  | Ok _ =>
      let calls := tool_calls (resp_parts response) in
      let recorded := with_working l (append_assistant (l_working l) (assistant_of l response round_usage)) in
      match calls with
      | [] =>
          finish ← expect (no_tool_finish (resp_finish_reason response));
          match (finish : FailPath * bool) with
          | (path, true) => mret (TurnBreak l path None)
          | (FpCompleted, false) =>
              discarded ← with_ctl begin_final;
              mret (TurnBreak recorded FpCompleted discarded)
          | (path, false) => mret (TurnBreak recorded path None)
          end
      | _ => tool_round recorded calls
      end
  end.

(** The issue boundary, and the request. *)
Definition issue_request (l : Locals) (request : ModelRequest) : exec Turn :=
  let revision := default (l_issued_revision l) (l_candidate_revision l) in
  let l := mkLocals (l_working l) (l_config l) revision None (l_request_index l) (l_tool_rounds l)
    (saturating_add u32_MAX (l_requests l) 1) (Some (l_request_index l)) (l_usage l) in
  with_ctl (λ c, (commit_revision c revision, ()));;
  trace (HcIssue (l_request_index l) revision);;
  emit (LeRequestStarted id (l_request_index l) revision
    (md_model_ref (ec_descriptor (l_config l))) (ec_reasoning (l_config l)));;
  publish (state_of l StRunningModel revision);;
  turn ← turn_deadline (lo_deadline o);
  response ← run_model id (l_request_index l) o (l_config l) request turn;
  match (response : result ModelDriverFailure ModelResponse) with
  | Err driver => path ← map_model_failure driver; mret (TurnBreak l path None)
  | Ok response => use_response l response
  end.

Definition past_deadline : exec bool :=
  match lo_deadline o with
  | None => mret false
  | Some deadline => t ← now; mret (deadline <=? t)
  end.

(** One turn of the [loop]. *)
Definition iteration (l : Locals) : exec Turn :=
  cancelled ← is_cancelled;
  if (cancelled : bool) then mret (TurnBreak l FpCancelled None)
  else
    past ← past_deadline;
    if (past : bool) then mret (TurnBreak l FpDeadline None)
    else
      '(l, _, _) ← take_boundary l true;
      publish (LoopState_new id StStarting (l_request_index l) (l_issued_revision l));;
      turn ← turn_deadline (lo_deadline o);
      prep ← prepare_prompt (l_request_index l) turn;
      match (prep : PromptPrep) with
      | PrepEnd path => mret (TurnBreak l path None)
      | PrepReady messages =>
          let snapshot := l_config l in
          '(l, taken, replaced) ← take_boundary l false;
          if (taken : bool) then
            (if (replaced : bool) then host_sync else mret ());;
            mret (TurnContinue l)
          else
            match build_model_request messages snapshot with
            | Err _ => mret (TurnBreak l FpPrompt None)
            | Ok request => issue_request l request
            end
      end.

Fixpoint run_loop_turns (l : Locals) (fuel : nat) :
    exec (Locals * FailPath * option ExecutionConfig) :=
  match fuel with
  | O => out_of_fuel
  | S fuel =>
      turn ← iteration l;
      match (turn : Turn) with
      | TurnContinue l => run_loop_turns l fuel
      | TurnBreak l path discarded => mret (l, path, discarded)
      end
  end.

(** ** The end *)

Definition publish_final_states (request_index revision : N) : exec () :=
  model ← read_ctl (λ c, ls_model (current_state c));
  publish (mkLoopState id StFinishing request_index revision model None);;
  model ← read_ctl (λ c, ls_model (current_state c));
  publish (mkLoopState id StFinished request_index revision model None).

(** [send_replace] on the completion channel. *)
Definition complete (report : LoopReport) : exec () :=
  with_ctl (λ c, (with_completion c (Some report), ()));;
  trace (HcPublish report).

Definition seal : exec (FinishSeal * option ExecutionConfig) :=
  sealed ← with_ctl (λ c, match finish_once c with
    | Some (c, r) => (c, Some r)
    | None => (c, None)
    end);
  expect sealed.

(** [LoopOutcome::Failed(failure(...))]. *)
Definition failed (f : option LoopFailure) : exec LoopOutcome :=
  f ← expect f;
  mret (OutFailed f).

(** Only the cancelled path reads the control plane. *)
Definition outcome_for (path : FailPath) : exec LoopOutcome :=
  match path with
  | FpCompleted => mret OutCompleted
  | FpCancelled => reason ← read_ctl cancel_reason; mret (OutCancelled reason)
  | FpDeadline => mret (OutCancelled ReasonDeadline)
  | FpPrompt => failed (failure FkPrompt CodeContextFailed CatContext "prompt preparation failed")
  | FpModel error => mret (OutFailed (model_failure FkModel error))
  | FpInvalidModelResponse error => mret (OutFailed (model_failure FkInvalidModelResponse error))
  | FpOutputLimit => failed
      (failure FkOutputLimit CodeModelMalformedResponse CatModel "model output exceeded the configured limit")
  | FpRefused => failed (failure FkRefused CodeModelMalformedResponse CatModel "model refused to answer")
  | FpContentFiltered => failed
      (failure FkContentFiltered CodeModelMalformedResponse CatModel "model response was content filtered")
  | FpPolicy => failed (failure FkPolicy CodePolicyFailed CatPolicy "tool policy evaluation failed")
  | FpInteraction => failed
      (failure FkInteraction CodeInteractionNotFound CatInternal "pending interaction was not resolved")
  | FpMaxToolRounds => failed
      (failure FkMaxToolRounds CodeTurnBudgetExceeded CatInternal "maximum tool rounds reached")
  | FpInternal => failed (failure FkInternal CodeInternal CatInternal "loop runner hit an internal error")
  end.

Definition finish_loop (path : FailPath) (working : WorkingHistory) (usage : Usage) (requests : N)
    (last_issued_request_index : option N) (tool_rounds : N) : exec LoopReport :=
  revision ← read_ctl applied_revision;
  let final_request_index := default 0 last_issued_request_index in
  intended ← outcome_for path;
  '(finish, discarded) ← seal;
  match (finish : FinishSeal) with
  | SealAlreadyFinished => report ← read_ctl published_report; expect report
  | SealClean | SealCancelledPrior _ =>
      let outcome := match (finish : FinishSeal) with
                     | SealCancelledPrior reason => OutCancelled reason
                     | _ => intended
                     end in
      let report := mkLoopReport id outcome (wh_appended working) usage requests tool_rounds revision in
      publish_final_states final_request_index revision;;
      complete report;;
      emit (LeFinished id (outcome_summary outcome));;
      with_ctl (λ c, (fire_token c, ()));;
      drop_config discarded;;
      mret report
  end.

Definition start_locals (request : LoopRequest) : Locals :=
  mkLocals
    (append_user (WorkingHistory_new (lq_history request)) (mkUserHistory id KindPrompt (lq_input request)))
    (lq_config request) INITIAL_REVISION None 0 0 0 None Usage_default.

(** [run_loop_inner]; the last [host_sync] is the destructors of its locals. *)
Definition run_loop_inner (request : LoopRequest) : exec LoopReport :=
  emit (LeStarted id);;
  polls ← atomically (λ w, (w, length (w_prompt_polls w)));
  '(l, path, discarded_config) ← run_loop_turns (start_locals request) (S polls);
  report ← finish_loop path (l_working l) (l_usage l) (l_requests l) (l_last_issued l) (l_tool_rounds l);
  drop_config discarded_config;;
  host_sync;;
  mret report.

Definition panic_report : exec LoopReport :=
  failed ← expect (failure FkInternal CodeInternal CatInternal "loop runner panicked");
  let report := mkLoopReport id (OutFailed failed) [] Usage_default 0 0 INITIAL_REVISION in
  '(finish, discarded) ← seal;
  match (finish : FinishSeal) with
  | SealAlreadyFinished => report ← read_ctl published_report; expect report
  | _ =>
      with_ctl (λ c, (publish_state c (LoopState_new id StFinished 0 INITIAL_REVISION), ()));;
      complete report;;
      with_ctl (λ c, (fire_token c, ()));;
      drop_config discarded;;
      mret report
  end.

Definition run_loop (request : LoopRequest) : exec LoopReport :=
  catch_unwind (run_loop_inner request) panic_report.
End run.

(** ** [AgentLoop::start]: what it checks, and the control plane it starts with *)

Definition AgentLoop_start (runtime : bool) (request : LoopRequest) (o : LoopOptions) (now : N)
    (entropy : list (option (list N))) :
    option (result LoopStartError (LoopId * LoopControl * LoopEventSink)) :=
  if negb runtime then Some (Err NoTokioRuntime)
  else
    match LoopOptions_validate o now with
    | Err e => Some (Err e)
    | Ok _ =>
        config ← validate_against_limits (lq_config request) (lo_limits o);
        match config with
        | Err _ => Some (Err InvalidConfig)
        | Ok _ =>
            let input_bytes := str_len (as_text (lq_input request)) in
            if (input_bytes =? 0) || (max_user_input_bytes (lo_limits o) <? input_bytes)
            then Some (Err InvalidInput)
            else
              let '(id, _) := LoopId_new entropy in
              match id with
              | Err _ => Some (Err IdGeneration)
              | Ok id =>
                  match LoopControl_new id (lo_event_capacity o) (lo_limits o) with
                  | Err _ => Some (Err InvalidOptions)
                  | Ok (control, sink) => Some (Ok (id, control, sink))
                  end
              end
        end
    end.

(** ** What a trace says *)

Definition issues (t : list HostCall) : list (N * N) :=
  omap (λ c, match c with HcIssue k revision => Some (k, revision) | _ => None end) t.
Definition unpublished (t : list HostCall) : Prop :=
  Forall (λ c, match c with HcPublish _ => False | _ => True end) t.

(** The request indices a loop issues: 0, 1, 2, ..., saturating. *)
Definition indices (n : nat) : list N := (λ k, N.min (N.of_nat k) u32_MAX) <$> seq 0 n.

Lemma issues_app a b : issues (a ++ b) = issues a ++ issues b.
Proof. apply omap_app. Qed.
Lemma indices_snoc n : indices (S n) = indices n ++ [N.min (N.of_nat n) u32_MAX].
Proof. unfold indices. by rewrite seq_S, fmap_app. Qed.

(** Calls that are neither an issue, nor a taking of inputs, nor a publication. *)
Definition silent (t : list HostCall) : Prop :=
  issues t = [] ∧ takes t = [] ∧ unpublished t.

Lemma silent_app a b : silent a → silent b → silent (a ++ b).
Proof.
  intros (i1 & t1 & u1) (i2 & t2 & u2). split_and!.
  - by rewrite issues_app, i1, i2.
  - by rewrite takes_app, t1, t2.
  - by apply Forall_app.
Qed.
Lemma silent_prefix a b : silent (a ++ b) → silent a.
Proof.
  intros (i & t & u). rewrite issues_app in i. rewrite takes_app in t.
  apply app_eq_nil in i as [? _]. apply app_eq_nil in t as [? _]. apply Forall_app in u as [? _]. done.
Qed.
Lemma silent_nil : silent [].
Proof. split_and!; try done. constructor. Qed.
Lemma silent_cons c t : silent [c] → silent t → silent (c :: t).
Proof. apply (silent_app [c]). Qed.

Lemma attempts_silent max k t : attempts_from max k t → silent t.
Proof.
  induction 1 as [k|k n _|k t _ _ IH]; [apply silent_nil|..].
  - apply silent_cons; [silent_one|]. apply silent_app; [|silent_one].
    induction n as [|n IHn]; [apply silent_nil|]. apply silent_cons; [silent_one|done].
  - by do 2 (apply silent_cons; [silent_one|]).
Qed.
Lemma call_trace_silent policy cid t : call_trace policy cid t → silent t.
Proof.
  intros (p & q & -> & Hp & Hq & _). apply silent_app.
  - destruct Hp as [->|[_ ->]]; [apply silent_nil|silent_one].
  - destruct Hq as [->| ->]; [apply silent_nil|silent_one].
Qed.
Lemma calls_trace_silent policy cs t : calls_trace policy cs t → silent t.
Proof.
  induction 1; [apply silent_nil|]. apply silent_app; [by eapply call_trace_silent|done].
Qed.
Lemma batch_silent id o policy i w' cs rs t e : batch id o policy i w' cs rs t e → silent t.
Proof.
  induction 1; [apply silent_nil|apply silent_app; [by eapply call_trace_silent|done]|by eapply call_trace_silent].
Qed.

(** A batch never ends its loop as completed. *)
Lemma batch_not_completed id o policy i w' cs rs t : ¬ batch id o policy i w' cs rs t (Some FpCompleted).
Proof.
  remember (Some FpCompleted) as e eqn:He. intros Hb. induction Hb; try done; auto.
  by injection He as ->.
Qed.

(** Every tool the provider may call is enabled in the frozen set. *)
Lemma offered_enabled s name :
  toolset_ok s → Exists (λ spec, ts_name spec = name) (tset_specs s) → is_Some (EnabledTools_get s name).
Proof.
  intros Hs. rewrite (tset_agree _ Hs), Exists_fmap, Exists_exists. intros ([k e] & Hin & Hn).
  exists e. unfold EnabledTools_get. apply BTreeMap_In_get; [apply Hs|].
  pose proof (tset_names _ Hs) as Hnames. rewrite Forall_forall in Hnames. specialize (Hnames _ Hin).
  simpl in *. congruence.
Qed.
End runner.
