(* ===== verification/Accounts.v ===== *)
(** * Usage accounting across the turns of a loop

    The usage a loop holds against the responses it recorded. [returns m P]: what
    [m] returns satisfies [P], whatever the world; that is all an account of the
    locals needs. [settled] is the account at the end of a turn. *)

From S2P Require Import Prelude Text Json Ids Limits ToolTypes ToolSet ModelError Message Request Failure History Prompt Event Control Options World Steps PortCall Driver RunnerTools Runner.
Local Open Scope N_scope.

Section accounts.
Context `{SerdeJson}.

(** ** What a computation returns *)

Definition returns {A : Type} (m : exec A) (P : A → Prop) : Prop := ∀ w a w', m w = Done a w' → P a.

Lemma returns_ret {A} (a : A) (P : A → Prop) : P a → returns (mret a) P.
Proof. by intros Ha w a' w' [= <- _]. Qed.
Lemma returns_bind {A B} (m : exec A) (k : A → exec B) P Q :
  returns m P → (∀ a, P a → returns (k a) Q) → returns (m ≫= k) Q.
Proof.
  intros Hm Hk w b w'. unfold mbind, exec_bind. destruct (m w) as [a w1|w1|w1|] eqn:E; try done.
  intros Eb. eapply Hk; [by eapply Hm|exact Eb].
Qed.
Lemma returns_any {A B} (m : exec A) (k : A → exec B) Q : (∀ a, returns (k a) Q) → returns (m ≫= k) Q.
Proof. intros Hk. by apply (returns_bind _ _ (λ _, True)); [|intros a _]. Qed.
Lemma returns_mono {A} (m : exec A) (P Q : A → Prop) : returns m P → (∀ a, P a → Q a) → returns m Q.
Proof. intros Hm HQ w a w' E. by eapply HQ, Hm. Qed.
Lemma returns_expect {A B} (a : option A) (k : A → exec B) Q :
  (∀ x, a = Some x → returns (k x) Q) → returns (expect a ≫= k) Q.
Proof.
  intros Hk. eapply (returns_bind _ _ (λ x, a = Some x)); [|exact Hk].
  destruct a; intros w x w'; [by intros [= -> _]|done].
Qed.
Lemma wp_returns {A} (m : exec A) w Q P R :
  wp m w Q P → returns m R → wp m w (λ a w', Q a w' ∧ R a) P.
Proof. unfold wp. intros Hm Hr. destruct (m w) eqn:E; try done. split; [done|]. by eapply Hr. Qed.

(** ** The account *)

(** The usage of the recorded responses. *)
Definition usages (items : list HistoryItem) : list Usage :=
  omap (λ item, match item with HiAssistant a => Some (ah_usage a) | _ => None end) items.

Lemma usages_app a b : usages (a ++ b) = usages a ++ usages b.
Proof. apply omap_app. Qed.
Lemma usages_users id kind inputs : usages ((λ i, HiUser (mkUserHistory id kind i)) <$> inputs) = [].
Proof. by induction inputs. Qed.
Lemma usages_results rs : usages (HiToolResult <$> rs) = [].
Proof. by induction rs. Qed.

Definition account (working : WorkingHistory) (extra : list Usage) (usage : Usage) : Prop :=
  accumulate Usage_default (usages (wh_appended working) ++ extra) = Ok usage.

(** A response without tool calls that finished as no answer does. *)
Definition refused (response : ModelResponse) : Prop :=
  tool_calls (resp_parts response) = [] ∧
  (resp_finish_reason response = FinishUnknown ∨ resp_finish_reason response = FinishToolCalls).

(** A loop ends on [path] because the runner refused a response that used [u]. *)
Definition refusal (path : FailPath) (u : Usage) : Prop :=
  ∃ response error, refused response ∧ u = default Usage_default (resp_usage response) ∧
    invalid_response_error = Some error ∧ path = FpInvalidModelResponse error.

(** At the end of a turn, at most one response is counted that was not recorded:
    the one the runner ends on because it refused it. *)
Definition settled (l : Locals) (path : FailPath) : Prop :=
  account (l_working l) [] (l_usage l) ∨ ∃ u, refusal path u ∧ account (l_working l) [u] (l_usage l).

Definition turn_settled (t : Turn) : Prop :=
  match t with
  | TurnContinue l => account (l_working l) [] (l_usage l)
  | TurnBreak l path _ => settled l path
  end.

Lemma accumulate_snoc us u : ∀ acc a b,
  accumulate acc us = Ok a → UsageAccumulator_add a u = (b, Ok ()) → accumulate acc (us ++ [u]) = Ok b.
Proof.
  induction us as [|v us IH]; intros acc a b; cbn [accumulate app].
  - intros [= ->] ->. done.
  - destruct (UsageAccumulator_add acc v) as [acc' [[]|[]]]; [apply IH|done].
Qed.

(** Items that are not responses do not change the account. *)
Lemma account_append working items extra usage :
  usages items = [] → account working extra usage →
  account (mkWorkingHistory (wh_base working) (wh_appended working ++ items)) extra usage.
Proof. intros Hi Ha. unfold account. simpl. by rewrite usages_app, Hi, app_nil_r. Qed.

Lemma account_steer id inputs extra usage : ∀ working,
  account working extra usage → account (foldl (steer id) working inputs) extra usage.
Proof.
  induction inputs as [|input inputs IH]; intros working Ha; simpl; [done|]. by apply IH, account_append.
Qed.

Lemma account_settle id o i outcome message usage calls : ∀ working working',
  settle_calls id o working i calls outcome message = Some working' →
  account working [] usage → account working' [] usage.
Proof.
  induction calls as [|c cs IH]; intros working working'; simpl; [by intros [= <-]|].
  intros (r & _ & Hs)%bind_Some Ha. eapply IH; [exact Hs|]. by apply account_append.
Qed.

Section turns.
Context (id : LoopId) (o : LoopOptions).

Lemma batch_account i snapshot usage calls : ∀ working,
  account working [] usage →
  returns (run_tool_batch id o working i snapshot calls) (λ r, account r.1 [] usage).
Proof.
  induction calls as [|c cs IH]; intros working Ha; cbn [run_tool_batch]; [by apply returns_ret|].
  apply returns_any. intros cancelled. apply returns_any. intros [r|path].
  - apply returns_any. intros _. by apply IH, account_append.
  - apply returns_expect. intros w2 Hw2. apply returns_ret. by eapply account_settle.
Qed.

Lemma boundary_account l last_reference :
  account (l_working l) [] (l_usage l) →
  returns (take_boundary id l last_reference) (λ r, account (l_working r.1.1) [] (l_usage r.1.1)).
Proof.
  intros Ha. unfold take_boundary. apply returns_any. intros candidate.
  apply (returns_bind _ _ (λ r, l_working r.1 = l_working l ∧ l_usage r.1 = l_usage l)).
  - destruct candidate as [[revision config]|]; [apply returns_any; intros []|]; by apply returns_ret.
  - intros [l1 replaced] [Hw Hu]. simpl in *. apply returns_any. intros inputs. apply returns_ret. simpl.
    rewrite Hw, Hu. by apply account_steer.
Qed.

Lemma tool_round_account l calls :
  account (l_working l) [] (l_usage l) → returns (tool_round id o l calls) turn_settled.
Proof.
  intros Ha. unfold tool_round. destruct (_ && _).
  - apply returns_expect. intros w2 Hw2. apply returns_ret. left. by eapply account_settle.
  - apply returns_any. intros _. eapply returns_bind; [by apply batch_account|].
    intros [working [path|]] Hb; apply returns_ret; [by left|done].
Qed.

Lemma response_account l response :
  account (l_working l) [] (l_usage l) → returns (use_response id o l response) turn_settled.
Proof.
  intros Ha. unfold use_response. set (round_usage := default _ _).
  destruct (UsageAccumulator_add (l_usage l) round_usage) as [usage added] eqn:Eu.
  destruct added as [[]|[]].
  2: { apply returns_ret. left. unfold UsageAccumulator_add in Eu.
       destruct (sum_usage _ _); [done|]. by injection Eu as <-. }
  set (l1 := mkLocals _ _ _ _ _ _ _ _ _). set (l2 := with_working l1 _).
  assert (account (l_working l) [round_usage] usage) as Hone.
  { unfold account in *. rewrite app_nil_r in Ha. by eapply accumulate_snoc. }
  assert (account (l_working l2) [] (l_usage l2)) as Htwo.
  { unfold account in *. simpl. by rewrite usages_app, app_nil_r. }
  destruct (tool_calls (resp_parts response)) eqn:Ecalls; [|by apply tool_round_account].
  apply returns_expect. intros [path []] Hpath.
  - assert (settled l1 path) as Hs.
    { right. exists round_usage. split; [|done]. exists response. unfold no_tool_finish in Hpath.
      destruct (resp_finish_reason response) eqn:Er; try done;
        apply bind_Some in Hpath as (error & He & [= <-]); exists error; unfold refused; auto 6. }
    destruct path; by apply returns_ret.
  - destruct path; try (apply returns_ret; by left). apply returns_any. intros discarded. apply returns_ret. by left.
Qed.

Lemma issue_account l request :
  account (l_working l) [] (l_usage l) → returns (issue_request id o l request) turn_settled.
Proof.
  intros Ha. unfold issue_request. do 5 (apply returns_any; intros ?). apply returns_any. intros [response|driver].
  - by apply response_account.
  - apply returns_any. intros path. apply returns_ret. by left.
Qed.

Lemma iteration_account l :
  account (l_working l) [] (l_usage l) → returns (iteration id o l) turn_settled.
Proof.
  intros Ha. unfold iteration. apply returns_any. intros []; [apply returns_ret; by left|].
  apply returns_any. intros []; [apply returns_ret; by left|].
  eapply returns_bind; [by apply boundary_account|]. intros [[l1 taken1] replaced1] Ha1. cbn [fst] in Ha1.
  apply returns_any. intros _. apply returns_any. intros turn. apply returns_any.
  intros [messages|path]; [|apply returns_ret; by left].
  eapply returns_bind; [by apply boundary_account|]. intros [[l2 taken] replaced] Ha2. cbn [fst] in Ha2.
  destruct taken; [apply returns_any; intros _; by apply returns_ret|].
  destruct (build_model_request _ _); [by apply issue_account|apply returns_ret; by left].
Qed.

(** Every turn settles, so the loop does. *)
Lemma run_loop_turns_account fuel : ∀ l,
  account (l_working l) [] (l_usage l) → returns (run_loop_turns id o l fuel) (λ r, settled r.1.1 r.1.2).
Proof.
  induction fuel as [|fuel IH]; intros l Ha; cbn [run_loop_turns]; [done|].
  eapply returns_bind; [by apply iteration_account|]. intros [l'|l' path discarded] Ht; [by apply IH|by apply returns_ret].
Qed.
End turns.
End accounts.
