(* ===== verification/RunnerInv.v ===== *)
(** * The invariant of a loop

    The invariant of the runner's local variables against the control plane and
    the calls made so far ([core]), that every turn keeps it ([iteration_spec]),
    the end of the loop ([finish_loop_spec], [panic_report_spec]) and of its body
    ([run_loop_inner_spec]), and the projection of what a loop appends. *)

From S2P Require Import Prelude Text Json Ids Limits BTree ToolTypes ToolSet ModelError Message Request Failure Assembler History Prompt Event Control Options World Steps PortCall Driver RunnerTools Runner Accounts.
Local Open Scope N_scope.

Section spec.
Context `{SerdeJson} (id : LoopId) (o : LoopOptions) (request : LoopRequest).
Hypothesis options_valid : options_ok o.

(** ** The appended history *)

(** A user item, or an assistant item followed by the result of each of its calls,
    in order. *)
Inductive segment_ok : list HistoryItem → Prop :=
| segment_user u : uh_loop_id u = id → segment_ok [HiUser u]
| segment_assistant a rs :
    ah_loop_id a = id → parts_ok (ah_content a) →
    (ah_content a = [] → is_Some (ah_provider_replay a)) →
    Forall2 (λ c r, result_for id o (ah_request_index a) (tc_tool_call_id c) (tc_name c) r)
      (tool_calls (ah_content a)) rs →
    segment_ok (HiAssistant a :: (HiToolResult <$> rs)).

Definition segments_ok (items : list HistoryItem) : Prop :=
  ∃ segs, items = concat segs ∧ Forall segment_ok segs.

Lemma segments_app a b : segments_ok a → segments_ok b → segments_ok (a ++ b).
Proof.
  intros (s1 & -> & H1) (s2 & -> & H2). exists (s1 ++ s2).
  rewrite concat_app. split; [done|]. by apply Forall_app.
Qed.
Lemma segments_one seg : segment_ok seg → segments_ok seg.
Proof. intros Hs. exists [seg]. simpl. rewrite app_nil_r. split; [done|]. by constructor. Qed.

(** The user items, with their kind. *)
Definition user_inputs (items : list HistoryItem) : list (UserMessageKind * UserInput) :=
  omap (λ i, match i with HiUser u => Some (uh_kind u, uh_input u) | _ => None end) items.

Lemma user_inputs_app a b : user_inputs (a ++ b) = user_inputs a ++ user_inputs b.
Proof. apply omap_app. Qed.
Lemma user_inputs_results (rs : list ToolResultHistory) : user_inputs (HiToolResult <$> rs) = [].
Proof. by induction rs. Qed.

Lemma user_inputs_steered inputs :
  user_inputs ((λ i, HiUser (mkUserHistory id KindSteering i)) <$> inputs) = (KindSteering,.) <$> inputs.
Proof. induction inputs as [|i inputs IH]; [done|]. cbn. f_equal. exact IH. Qed.

Lemma steer_spec inputs : ∀ working,
  wh_base (foldl (steer id) working inputs) = wh_base working ∧
  wh_appended (foldl (steer id) working inputs)
  = wh_appended working ++ ((λ i, HiUser (mkUserHistory id KindSteering i)) <$> inputs).
Proof.
  induction inputs as [|i inputs IH]; intros working; simpl; [by rewrite app_nil_r|].
  destruct (IH (steer id working i)) as [-> ->]. simpl. by rewrite <- app_assoc.
Qed.

(** ** The invariant *)

(** The tool rounds against the requests issued: at most one request is without its
    round. Both counters saturate. *)
Definition rounds_follow (rounds : N) (t : list HostCall) : Prop :=
  rounds ≤ N.min (N.of_nat (length (issues t))) u64_MAX ≤ rounds + 1.

(** [t]: the calls made since the loop started in [w0]. *)
Record core (w0 : World) (t : list HostCall) (l : Locals) (w : World) : Prop := {
  co_running : running w;
  co_idle : idle w;
  co_configs : configs_ok w;
  co_config : config_ok (l_config l);
  co_trace : w_trace w = w_trace w0 ++ t;
  co_unpublished : unpublished t;
  co_base : wh_base (l_working l) = lq_history request;
  co_segments : segments_ok (wh_appended (l_working l));
  co_inputs : user_inputs (wh_appended (l_working l))
    = (KindPrompt, lq_input request) :: ((KindSteering,.) <$> takes t);
  co_requests : l_requests l = N.min (N.of_nat (length (issues t))) u32_MAX;
  co_issues : (issues t).*1 = indices (length (issues t));
  co_last : l_last_issued l = last (issues t).*1;
  co_revision : default INITIAL_REVISION (last (issues t).*2) = l_issued_revision l;
  co_current : c_current_revision (w_ctl w) = l_issued_revision l;
  co_rounds : lo_max_tool_rounds o ≠ 0 → l_tool_rounds l ≤ lo_max_tool_rounds o;
  co_follow : rounds_follow (l_tool_rounds l) t;
  co_handed : handed w0 t w;
}.

Lemma rounds_follow_app rounds t t' : issues t' = [] → rounds_follow rounds t → rounds_follow rounds (t ++ t').
Proof. intros Hi. unfold rounds_follow. by rewrite issues_app, Hi, app_nil_r. Qed.

(** Silent steps keep it. *)
Lemma core_silent w0 t l w t' w' :
  core w0 t l w → step_ok w w' → (idle w → idle w') → w_trace w' = w_trace w ++ t' → silent t' →
  core w0 (t ++ t') l w'.
Proof.
  intros [] Hst Hi Ht (Hs & Htk & Hu). pose proof (step_handed _ _ _ Hst Ht) as Hh.
  destruct Hst as [[] Hc]. split; try done; auto.
  - by rewrite Ht, co_trace0, app_assoc.
  - by apply Forall_app.
  - by rewrite takes_app, Htk, app_nil_r.
  - by rewrite issues_app, Hs, app_nil_r.
  - by rewrite issues_app, Hs, app_nil_r.
  - by rewrite issues_app, Hs, app_nil_r.
  - by rewrite issues_app, Hs, app_nil_r.
  - congruence.
  - by apply rounds_follow_app.
  - by eapply handed_app.
Qed.
Lemma core_quiet w0 t l w w' :
  core w0 t l w → step_ok w w' → (idle w → idle w') → quiet w w' → core w0 t l w'.
Proof.
  intros Hc Hs Hi [Ht _]. rewrite <- (app_nil_r t). eapply core_silent; [done..| |apply silent_nil].
  by rewrite Ht, app_nil_r.
Qed.

(** Where a turn may stop short. *)
Definition turn_stop (w0 w' : World) : Prop :=
  running w' ∧ ∃ t, w_trace w' = w_trace w0 ++ t ∧ unpublished t.

Lemma core_stop w0 t l w t' w' :
  core w0 t l w → step_ok w w' → w_trace w' = w_trace w ++ t' → silent t' → turn_stop w0 w'.
Proof.
  intros Hc Hs Ht (_ & _ & Hu). split; [apply Hs, Hc|]. exists (t ++ t').
  rewrite Ht, (co_trace _ _ _ _ Hc), app_assoc. split; [done|]. apply Forall_app. split; [apply Hc|done].
Qed.

(** One silent computation inside a turn. *)
Lemma core_bind {A B} (m : exec A) (k : A → exec B) (S : A → World → Prop) w0 t l w Q :
  core w0 t l w → keeps step_ok m →
  wp m w (λ a w', (idle w → idle w') ∧ S a w' ∧ ∃ t', w_trace w' = w_trace w ++ t' ∧ silent t')
    (λ _ w', ∃ t', w_trace w' = w_trace w ++ t' ∧ silent t') →
  (∀ a t' w', core w0 (t ++ t') l w' → S a w' → step_ok w w' → silent t' →
     wp (k a) w' Q (λ _ w', turn_stop w0 w')) →
  wp (m ≫= k) w Q (λ _ w', turn_stop w0 w').
Proof.
  intros Hc Hk Hm HQ. eapply wp_bind.
  - eapply wp_mono; [apply (wp_keeps step_ok); [done|exact Hm]|intros a w' Hr; exact Hr|].
    intros b w' [(t' & Ht & Hs) Hst]. by eapply core_stop.
  - intros a w' [(Hi & HS & t' & Ht & Hs) Hst]. eapply HQ; [by eapply core_silent|done..].
Qed.
Lemma core_bind_quiet {A B} (m : exec A) (k : A → exec B) w0 t l w Q :
  core w0 t l w → keeps step_ok m → keeps calm m → quietly m →
  (∀ a w', core w0 t l w' → m w = Done a w' → step_ok w w' → wp (k a) w' Q (λ _ w', turn_stop w0 w')) →
  wp (m ≫= k) w Q (λ _ w', turn_stop w0 w').
Proof.
  intros Hc Hk Hcm Hq HQ. specialize (Hk w). specialize (Hcm w). specialize (Hq w).
  unfold wp, mbind, exec_bind in *. destruct (m w) as [a w'|w'|w'|]; try done.
  - apply HQ; try done. eapply core_quiet; try done. apply Hcm.
  - eapply core_stop; [done..| |apply silent_nil]. by rewrite app_nil_r; apply Hq.
Qed.

(** ** The phases of a turn *)

Lemma core_same_locals w0 t l l' w :
  core w0 t l w → l_working l' = l_working l → l_config l' = l_config l →
  l_requests l' = l_requests l → l_last_issued l' = l_last_issued l →
  l_issued_revision l' = l_issued_revision l →
  (lo_max_tool_rounds o ≠ 0 → l_tool_rounds l' ≤ lo_max_tool_rounds o) → rounds_follow (l_tool_rounds l') t →
  core w0 t l' w.
Proof. intros [] E1 E2 E3 E4 E5 Hr Hf. split; rewrite ?E1, ?E2, ?E3, ?E4, ?E5; done. Qed.

Lemma keeps_take_config : keeps step_ok (with_ctl take_config).
Proof. apply keeps_with_ctl. intros c. by split_and!. Qed.
Lemma calm_take_config : keeps calm (with_ctl take_config).
Proof.
  apply keeps_atomically; [apply _|apply ctl_rel_tick, _|]. intros w. by split.
Qed.

(** The inputs taken become the end of the history; the configuration is the
    candidate's, if there was one. *)
Definition taken_from (l : Locals) (inputs : list UserInput) (r : Locals * bool * bool) : Prop :=
  let '(l', taken, replaced) := r in
  l_working l' = foldl (steer id) (l_working l) inputs ∧
  l_issued_revision l' = l_issued_revision l ∧ l_request_index l' = l_request_index l ∧
  l_tool_rounds l' = l_tool_rounds l ∧ l_requests l' = l_requests l ∧
  l_last_issued l' = l_last_issued l ∧ l_usage l' = l_usage l ∧
  (taken = false → inputs = [] ∧ l_config l' = l_config l).

Lemma core_taken w0 t l w inputs w' l' taken replaced :
  core w0 t l w → step_ok w w' → (idle w → idle w') → w_trace w' = w_trace w ++ [HcTake inputs] →
  config_ok (l_config l') → taken_from l inputs (l', taken, replaced) →
  core w0 (t ++ [HcTake inputs]) l' w'.
Proof.
  intros Hc Hs Hi Ht Hcfg (Hw & Hrev & _ & Hr & Hq & Hl & _).
  pose proof (step_handed _ _ _ Hs Ht) as Hh. destruct Hs as [Hb Hcf]. destruct (steer_spec inputs (l_working l)) as [Hbase Happ].
  split; rewrite ?Hw, ?Hrev, ?Hr, ?Hq, ?Hl, ?issues_app, ?app_nil_r; try apply Hc.
  - apply Hb, Hc.
  - apply Hi, Hc.
  - apply Hcf, Hc.
  - done.
  - by rewrite Ht, (co_trace _ _ _ _ Hc), app_assoc.
  - apply Forall_app. split; [apply Hc|by repeat constructor].
  - rewrite Hbase. apply Hc.
  - rewrite Happ. apply segments_app; [apply Hc|].
    exists ((λ i, [HiUser (mkUserHistory id KindSteering i)]) <$> inputs). split.
    + clear. induction inputs as [|i inputs IH]; [done|]. by rewrite !fmap_cons, IH.
    + apply Forall_fmap, Forall_true. intros i. by constructor.
  - rewrite Happ, user_inputs_app, (co_inputs _ _ _ _ Hc), takes_app, fmap_app. simpl.
    rewrite app_nil_r. f_equal. f_equal. apply user_inputs_steered.
  - rewrite (so_revision _ _ Hb). apply Hc.
  - apply rounds_follow_app; [done|apply Hc].
  - eapply handed_app; [apply Hc|exact Hh].
Qed.

Lemma take_inputs_spec w :
  wp take_inputs w (λ inputs w', w_trace w' = w_trace w ++ [HcTake inputs])
    (λ _ w', w_trace w' = w_trace w).
Proof.
  unfold take_inputs. eapply wp_bind; [eapply wp_mono; [apply host_sync_spec|intros a w' Hr; exact Hr|]|].
  { intros b w' (_ & Ht & _). done. }
  intros _ w1 [Ht1 _].
  apply wp_quiet_bind; [apply quietly_atomically; intros w2; by destruct (w_inputs w2)|..].
  - intros w2 [Ht2 _]. congruence.
  - intros inputs w2 _ [Ht2 _]. apply wp_trace_bind, wp_ret. simpl. congruence.
Qed.

Definition boundary_end (w0 : World) (t : list HostCall) (l : Locals) (w : World)
    (r : Locals * bool * bool) (w' : World) : Prop :=
  step_ok w w' ∧ ∃ inputs, taken_from l inputs r ∧ core w0 (t ++ [HcTake inputs]) r.1.1 w'.

(** Taking the inputs, whether or not a configuration was taken first. *)
Lemma take_boundary_inputs w0 t l w l' replaced w2 :
  core w0 t l' w2 → step_ok w w2 → l_working l' = l_working l →
  (∀ inputs, taken_from l inputs (with_working l' (foldl (steer id) (l_working l') inputs),
      replaced || match inputs with [] => false | _ => true end, replaced)) →
  wp (inputs ← take_inputs; mret (with_working l' (foldl (steer id) (l_working l') inputs),
      replaced || match inputs with [] => false | _ => true end, replaced)) w2
    (boundary_end w0 t l w) (λ _ w', turn_stop w0 w').
Proof.
  intros Hc2 Hs2 Hw2 Htf. eapply wp_bind.
  - eapply wp_mono; [apply (wp_keeps step_ok); [apply keeps_take_inputs, _|];
      apply (wp_keeps calm); [apply keeps_take_inputs, _|apply take_inputs_spec]|intros a w' Hr; exact Hr|].
    intros b w' [[Ht _] Hst]. eapply core_stop; [done..| |apply silent_nil]. by rewrite app_nil_r.
  - intros inputs w3 [[Ht Hcalm] Hst]. apply wp_ret. split; [by transitivity w2|]. exists inputs.
    split; [apply Htf|].
    apply (core_taken w0 t l' w2 inputs w3 _ (replaced || match inputs with [] => false | _ => true end) replaced);
      [done|done|apply Hcalm|done|apply Hc2|].
    split; [done|]. split_and!; try done. intros Hf. apply orb_false_iff in Hf as [_ Hf].
    by destruct inputs.
Qed.

Lemma take_boundary_spec w0 t l w last_reference :
  core w0 t l w →
  wp (take_boundary id l last_reference) w (boundary_end w0 t l w) (λ _ w', turn_stop w0 w').
Proof.
  intros Hc. unfold take_boundary. apply wp_atomically.
  assert (step_ok w (tick w)) as Hs0 by apply tick_step.
  assert (core w0 t l (tick w)) as Hc0.
  { eapply core_quiet; [done..| |apply tick_quiet]. apply (ctl_rel_tick calm). }
  set (w1 := set_ctl (tick w) (take_config (w_ctl (tick w))).1).
  assert (step_ok (tick w) w1) as Hs1 by (apply step_ok_ctl; done).
  assert (core w0 t l w1) as Hc1 by (eapply core_quiet; [done|done|done|by split]).
  change (fst (let '(c, a) := take_config (w_ctl (tick w)) in (set_ctl (tick w) c, a))) with w1.
  change (snd (let '(c, a) := take_config (w_ctl (tick w)) in (set_ctl (tick w) c, a)))
    with (take_config (w_ctl (tick w))).2.
  assert (∀ p, c_pending_config (w_ctl (tick w)) = Some p → config_ok (pc_config p)) as Hpend by apply Hc0.
  destruct (take_config (w_ctl (tick w))).2 as [[revision config]|] eqn:Ep.
  - assert (config_ok config) as Hcfg.
    { simpl in Ep. destruct (c_pending_config (w_ctl (tick w))) as [p|]; [|done].
      injection Ep as _ <-. by apply Hpend. }
    assert (core w0 t (with_basis l (l_working l) config (Some revision)) w1) as Hc1'.
    { destruct Hc1. by split. }
    eapply wp_bind.
    + apply (wp_bind _ _ _ (λ _ w2, core w0 t (with_basis l (l_working l) config (Some revision)) w2 ∧
        step_ok w w2)); [|intros [] w2 Hr; apply (wp_ret _ _ (λ r w2,
          r = (with_basis l (l_working l) config (Some revision), true) ∧ core w0 t r.1 w2 ∧ step_ok w w2)); done].
      assert (step_ok w w1) as Hsw by (by transitivity (tick w)).
      destruct last_reference; [|by apply wp_ret].
      eapply wp_mono; [apply (wp_keeps step_ok); [apply keeps_host_sync, _|];
        apply (wp_keeps calm); [apply keeps_host_sync, _|apply host_sync_spec]|..].
      * intros [] w2 [[Hq Hcalm] Hst]. split; [|by transitivity w1]. eapply core_quiet; try done. apply Hcalm.
      * intros b w2 [[(_ & Ht & _) _] Hst]. eapply core_stop; [exact Hc1|done| |apply silent_nil]. by rewrite app_nil_r.
    + intros [l' replaced] w2 ([= -> ->] & Hc2 & Hs2). by apply take_boundary_inputs.
  - eapply wp_bind; [by apply (wp_ret (l, false) w1 (λ r w2, r = (l, false) ∧ w2 = w1))|].
    intros [l' replaced] w2 ([= -> ->] & ->). apply take_boundary_inputs; [done|by transitivity (tick w)|done|].
    intros inputs. split_and!; try done. intros Hf. by destruct inputs.
Qed.

(** The prompt call is silent, and a prompt that is ready has used up a poll. *)
Lemma prepare_prompt_spec k turn w :
  wp (prepare_prompt o k turn) w
    (λ p w', (idle w → idle w') ∧
       match p with
       | PrepReady _ => (length (w_prompt_polls w') < length (w_prompt_polls w))%nat
       | PrepEnd path => path ≠ FpCompleted
       end ∧ ∃ t', w_trace w' = w_trace w ++ t' ∧ silent t')
    (λ _ w', ∃ t', w_trace w' = w_trace w ++ t' ∧ silent t').
Proof.
  unfold prepare_prompt. set (call := HcPrompt k).
  assert (silent [call; HcChildCancelled]) as Hsil by silent_one.
  pose proof (wp_run_port_call pop_prompt (mret ()) quietly_pop_prompt (quietly_ret ())
    (λ w, length (w_prompt_polls w)) call turn (lo_prompt_timeout o) w I calm_pop_prompt
    (keeps_ret calm ())) as Hw.
  unfold wp, mbind, exec_bind in *.
  destruct (run_port_call _ _ _ _ _ _ w) as [r w'|w'|w'|] eqn:E; try done.
  - destruct Hw as [[Hr _] Hcalm]. split; [apply Hcalm|]. split.
    + destruct r as [[[|m ms]|e]| |[]| |]; try done.
      by apply (prompt_call_uses call turn (lo_prompt_timeout o) w (Ok (m :: ms)) w').
    + destruct r as [x| |[]| |]; simpl in Hr; destruct_and?;
        repeat match goal with Hd : _ ∨ _ |- _ => destruct Hd end;
        first [by exists [call; HcChildCancelled]
              |exists []; rewrite app_nil_r; split; [done|apply silent_nil]].
  - by exists [call; HcChildCancelled].
  - exists [call]. split; [done|]. by apply (silent_prefix _ [HcChildCancelled]).
Qed.

Definition at_boundary (t : list HostCall) (l : Locals) : Prop :=
  l_request_index l = N.min (N.of_nat (length (issues t))) u32_MAX ∧
  l_tool_rounds l = N.min (N.of_nat (length (issues t))) u64_MAX.

Definition final_ok (l : Locals) (path : FailPath) : Prop :=
  path = FpCompleted → ∃ pre a, wh_appended (l_working l) = pre ++ [HiAssistant a] ∧
    ah_finish_reason a = FinishStop ∧ tool_calls (ah_content a) = [].

Definition turn_end (w0 : World) (t : list HostCall) (r : Turn) (w' : World) : Prop :=
  ∃ t', match r with
        | TurnContinue l' => core w0 (t ++ t') l' w' ∧ at_boundary (t ++ t') l'
        | TurnBreak l' path _ => core w0 (t ++ t') l' w' ∧ final_ok l' path
        end.

Lemma core_recorded w0 t l w working a rs :
  core w0 t l w → wh_base working = wh_base (l_working l) →
  wh_appended working = wh_appended (l_working l) ++ HiAssistant a :: (HiToolResult <$> rs) →
  segment_ok (HiAssistant a :: (HiToolResult <$> rs)) →
  core w0 t (with_working l working) w.
Proof.
  intros [] Hb Ha Hs. split; simpl; try done.
  - by rewrite Hb.
  - rewrite Ha. apply segments_app; [done|by apply segments_one].
  - rewrite Ha, user_inputs_app, co_inputs0. change (HiAssistant a :: (HiToolResult <$> rs))
      with ([HiAssistant a] ++ (HiToolResult <$> rs)).
    rewrite user_inputs_app, user_inputs_results. simpl. by rewrite app_nil_r.
Qed.

(** After an issue the index is the one just issued. *)
Definition just_issued (t : list HostCall) (l : Locals) : Prop :=
  ∃ n, length (issues t) = S n ∧ l_request_index l = N.min (N.of_nat n) u32_MAX ∧
    l_tool_rounds l = N.min (N.of_nat n) u64_MAX.

Lemma just_issued_next t l :
  just_issued t l →
  saturating_add u32_MAX (l_request_index l) 1 = N.min (N.of_nat (length (issues t))) u32_MAX ∧
  saturating_add u64_MAX (l_tool_rounds l) 1 = N.min (N.of_nat (length (issues t))) u64_MAX.
Proof. intros (n & -> & -> & ->). unfold saturating_add. lia. Qed.

Lemma keeps_publish_any R `{!RunnerRel R} s :
  (∀ w, R w (set_ctl w (publish_state (w_ctl w) s))) → keeps R (publish s).
Proof.
  intros Hp. unfold publish. apply keeps_bind; [apply _| |intros _; apply keeps_emit, _].
  apply keeps_atomically; [apply _|apply rr_tick|]. intros w. apply Hp.
Qed.

(** The batch of a response, from the running tools to the end of the turn:
    [l] has counted the round and not yet recorded the response [a]. *)
Lemma run_batch_turn w0 t l w a :
  core w0 t l w →
  saturating_add u32_MAX (l_request_index l) 1 = N.min (N.of_nat (length (issues t))) u32_MAX →
  l_tool_rounds l = N.min (N.of_nat (length (issues t))) u64_MAX →
  ah_loop_id a = id → ah_request_index a = l_request_index l → parts_ok (ah_content a) →
  (ah_content a = [] → is_Some (ah_provider_replay a)) →
  Forall (λ c, is_Some (EnabledTools_get (ec_tools (l_config l)) (tc_name c))) (tool_calls (ah_content a)) →
  wp ('(working, ended) ← run_tool_batch id o (append_assistant (l_working l) a) (l_request_index l)
        (l_config l) (tool_calls (ah_content a));
      match (ended : option FailPath) with
      | Some path => mret (TurnBreak (with_working l working) path None)
      | None => mret (TurnContinue (mkLocals working (l_config l) (l_issued_revision l) (l_candidate_revision l)
          (saturating_add u32_MAX (l_request_index l) 1) (l_tool_rounds l) (l_requests l) (l_last_issued l)
          (l_usage l)))
      end) w (λ r w', turn_end w0 t r w' ∧ step_ok w w') (λ _ w', turn_stop w0 w').
Proof.
  intros Hc Hix Hrd Hid Hidx Hparts Hne Hen.
  pose proof (run_tool_batch_spec id o (l_request_index l) (l_config l) (tool_calls (ah_content a))
    (append_assistant (l_working l) a) w Hen (co_idle _ _ _ _ Hc)) as Hb.
  eapply wp_bind; [eapply wp_mono; [apply (wp_keeps step_ok); [apply keeps_run_tool_batch|exact Hb]
    |intros r w2 Hr; exact Hr|]|].
  { intros b w2 [(_ & t' & rest & Ht & Hct) Hst]. eapply core_stop; [exact Hc|done|exact Ht|].
    eapply silent_prefix, calls_trace_silent, Hct. }
  intros [working ended] w2 [(Hi2 & _ & rs & t' & Hw2 & Ht & Hbatch) Hs2]. simpl in Hw2. subst working.
  assert (core w0 (t ++ t') l w2) as Hc2.
  { eapply core_silent; [exact Hc|done|done|exact Ht|by eapply batch_silent]. }
  assert (segment_ok (HiAssistant a :: (HiToolResult <$> rs))) as Hseg.
  { constructor; try done. rewrite Hidx. by eapply batch_results. }
  assert (length (issues (t ++ t')) = length (issues t)) as Hlen.
  { destruct (batch_silent _ _ _ _ _ _ _ _ _ Hbatch) as (Hi & _). by rewrite issues_app, Hi, app_nil_r. }
  pose proof (core_recorded w0 (t ++ t') l w2
    (mkWorkingHistory (wh_base (l_working l)) ((wh_appended (l_working l) ++ [HiAssistant a]) ++ (HiToolResult <$> rs)))
    a rs Hc2 eq_refl) as Hrec.
  rewrite <- app_assoc in Hrec. specialize (Hrec eq_refl Hseg).
  destruct ended as [path|]; apply wp_ret; (split; [|done]); exists t'.
  - split; [by rewrite <- app_assoc|]. intros ->. by apply batch_not_completed in Hbatch.
  - split.
    + eapply core_same_locals; [exact Hrec|by rewrite <- app_assoc|done..|apply Hc|apply Hc2].
    + unfold at_boundary. by rewrite Hlen.
Qed.

(** The calls of a response, when [l] is the state before it was recorded. *)
Lemma tool_round_spec w0 t l w a :
  core w0 t l w → just_issued t l →
  ah_loop_id a = id → ah_request_index a = l_request_index l → parts_ok (ah_content a) →
  (ah_content a = [] → is_Some (ah_provider_replay a)) →
  Forall (λ c, Exists (λ s, ts_name s = tc_name c) (tset_specs (ec_tools (l_config l))))
    (tool_calls (ah_content a)) →
  wp (tool_round id o (with_working l (append_assistant (l_working l) a)) (tool_calls (ah_content a))) w
    (λ r w', turn_end w0 t r w' ∧ step_ok w w') (λ _ w', turn_stop w0 w').
Proof.
  intros Hc Hj Hid Hidx Hparts Hne Hoff. unfold tool_round.
  assert (Forall (λ c, is_Some (EnabledTools_get (ec_tools (l_config l)) (tc_name c))) (tool_calls (ah_content a)))
    as Hen.
  { eapply Forall_impl; [exact Hoff|]. intros c. apply offered_enabled, Hc. }
  cbn [with_working with_basis l_working l_request_index l_config l_issued_revision
    l_candidate_revision l_tool_rounds l_requests l_last_issued l_usage].
  destruct (negb (lo_max_tool_rounds o =? 0) && _) eqn:Elim.
  - destruct (settle_calls_spec id o (l_request_index l) OutcomeFailed (lit "tool round limit reached")
      (tool_calls (ah_content a)) (append_assistant (l_working l) a) eq_refl) as (rs & -> & HF).
    apply wp_ret. split; [|reflexivity]. exists []. rewrite app_nil_r. split; [|done].
    eapply (core_recorded w0 t l w _ a rs); [exact Hc|done|simpl; by rewrite <- app_assoc|].
    constructor; try done. eapply Forall2_impl; [exact HF|]. intros c r [Hr _]. by rewrite Hidx.
  - set (l1 := mkLocals (l_working l) (l_config l) (l_issued_revision l) (l_candidate_revision l)
      (l_request_index l) (saturating_add u64_MAX (l_tool_rounds l) 1) (l_requests l) (l_last_issued l) (l_usage l)).
    assert (core w0 t l1 w) as Hc1.
    { eapply core_same_locals; [exact Hc|done..| |].
      - intros Hm. simpl. unfold saturating_add. apply andb_false_iff in Elim as [E|E]; bools; [congruence|lia].
      - simpl. rewrite (proj2 (just_issued_next t l Hj)). unfold rounds_follow. lia. }
    eapply (core_bind_quiet _ _ w0 t l1); [done| | | |].
    + apply keeps_publish.
    + by apply (keeps_publish_any calm).
    + apply quietly_publish.
    + intros [] w1 Hc1' _ Hs1.
      destruct (just_issued_next t l Hj) as [Hix Hrd].
      eapply wp_mono; [by apply (run_batch_turn w0 t l1)| |done]. intros r w2 [He Hs2]. split; [done|by transitivity w1].
Qed.

Lemma core_break w0 t l w path discarded :
  core w0 t l w → final_ok l path → turn_end w0 t (TurnBreak l path discarded) w.
Proof. intros Hc Hf. exists []. by rewrite app_nil_r. Qed.

Lemma no_tool_finish_Some reason : ∃ path invalid, no_tool_finish reason = Some (path, invalid) ∧
  (path = FpCompleted ↔ reason = FinishStop) ∧ (path = FpCompleted → invalid = false).
Proof.
  destruct reason; simpl; try (do 2 eexists; split; [done|]; by split).
  all: unfold invalid_response_error; rewrite bounded_static_spec by done; simpl;
    do 2 eexists; (split; [done|]); by split.
Qed.

Lemma keeps_begin_final : keeps step_ok (with_ctl begin_final).
Proof. apply keeps_with_ctl. intros c. by split_and!. Qed.
Lemma calm_begin_final : keeps calm (with_ctl begin_final).
Proof. apply keeps_atomically; [apply _|apply ctl_rel_tick, _|]. intros w. by split. Qed.
Lemma quietly_begin_final : quietly (with_ctl begin_final).
Proof. by apply quietly_atomically. Qed.

Lemma use_response_spec w0 t l w response :
  core w0 t l w → just_issued t l →
  response_ok (tset_specs (ec_tools (l_config l))) (lo_limits o) response →
  wp (use_response id o l response) w
    (λ r w', turn_end w0 t r w' ∧ step_ok w w') (λ _ w', turn_stop w0 w').
Proof.
  intros Hc Hj [Hparts Hne _ Hoff _]. unfold use_response.
  set (round_usage := default Usage_default (resp_usage response)).
  destruct (UsageAccumulator_add (l_usage l) round_usage) as [usage added].
  set (l1 := mkLocals (l_working l) (l_config l) (l_issued_revision l) (l_candidate_revision l)
    (l_request_index l) (l_tool_rounds l) (l_requests l) (l_last_issued l) usage).
  assert (core w0 t l1 w) as Hc1 by (eapply core_same_locals; [exact Hc|done..|apply Hc|apply Hc]).
  destruct added as [[]|]; [|apply wp_ret; split; [by apply core_break|reflexivity]].
  set (a := assistant_of id l1 response round_usage).
  destruct (tool_calls (resp_parts response)) as [|call calls] eqn:Ecalls.
  - destruct (no_tool_finish_Some (resp_finish_reason response)) as (path & invalid & -> & Hstop & Hinv).
    assert (core w0 t (with_working l1 (append_assistant (l_working l1) a)) w) as Hrec.
    { apply (core_recorded w0 t l1 w _ a []); [done|done|done|]. constructor; try done.
      simpl. rewrite Ecalls. constructor. }
    change (wp (match (path, invalid) with
      | (path, true) => mret (TurnBreak l1 path None)
      | (FpCompleted, false) => discarded ← with_ctl begin_final;
          mret (TurnBreak (with_working l1 (append_assistant (l_working l1) a)) FpCompleted discarded)
      | (path, false) => mret (TurnBreak (with_working l1 (append_assistant (l_working l1) a)) path None)
      end) w (λ r w', turn_end w0 t r w' ∧ step_ok w w') (λ _ w', turn_stop w0 w')).
    destruct invalid.
    { assert (turn_end w0 t (TurnBreak l1 path None) w ∧ step_ok w w) as Hend.
      { split; [|reflexivity]. apply core_break; [done|]. intros E. by specialize (Hinv E). }
      by destruct path. }
    destruct (decide (path = FpCompleted)) as [->|Hp].
    + eapply (core_bind_quiet _ _ w0 t _ _ _ Hrec keeps_begin_final calm_begin_final quietly_begin_final).
      intros discarded w1 Hc2 _ Hs. apply wp_ret. split; [|done]. apply core_break; [done|].
      intros _. exists (wh_appended (l_working l1)), a. split; [done|]. split; [by apply Hstop|done].
    + assert (turn_end w0 t (TurnBreak (with_working l1 (append_assistant (l_working l1) a)) path None) w ∧
        step_ok w w) as Hend.
      { split; [|reflexivity]. apply core_break; [done|]. by intros E. }
      by destruct path.
  - rewrite <- Ecalls.
    apply (tool_round_spec w0 t l1 w a); try done. simpl. by rewrite Ecalls.
Qed.

(** Committing a revision is not an ordinary step, but keeps a running loop. *)
Lemma core_issue w0 t l w revision :
  core w0 t l w → at_boundary t l → revision = default (l_issued_revision l) (l_candidate_revision l) →
  let l' := mkLocals (l_working l) (l_config l) revision None (l_request_index l) (l_tool_rounds l)
    (saturating_add u32_MAX (l_requests l) 1) (Some (l_request_index l)) (l_usage l) in
  let w' := add_trace (set_ctl (tick w) (commit_revision (w_ctl (tick w)) revision))
    (HcIssue (l_request_index l) revision) in
  core w0 (t ++ [HcIssue (l_request_index l) revision]) l' w' ∧
  just_issued (t ++ [HcIssue (l_request_index l) revision]) l' ∧
  (length (w_prompt_polls w') ≤ length (w_prompt_polls w))%nat.
Proof.
  intros Hc [Hb Hrounds] Hrev l' w'. destruct (tick_step w) as [[] Hcf].
  assert (idle (tick w)) as Hi by (apply (ctl_rel_tick calm), Hc).
  destruct (tick_quiet w) as [Ht _].
  assert (length (issues (t ++ [HcIssue (l_request_index l) revision])) = S (length (issues t))) as Hlen.
  { rewrite issues_app, length_app. simpl. lia. }
  split; [|split; [exists (length (issues t)); done|done]].
  destruct Hc. split; simpl; try done.
  - by apply so_running.
  - by apply Hcf.
  - by rewrite Ht, co_trace0, app_assoc.
  - apply Forall_app. split; [done|]. by repeat constructor.
  - by rewrite takes_app, app_nil_r.
  - rewrite Hlen, co_requests0. unfold saturating_add. lia.
  - rewrite Hlen, indices_snoc, <- co_issues0, issues_app, fmap_app. simpl. by rewrite Hb.
  - rewrite issues_app, fmap_app. simpl. by rewrite last_snoc.
  - rewrite issues_app, fmap_app. simpl. by rewrite last_snoc.
  - unfold rounds_follow. rewrite Hlen, Hrounds. lia.
  - eapply handed_app; [exact co_handed0|]. unfold handed. cbn [w_inputs add_trace set_ctl].
    by rewrite (step_handed w (tick w) [] (tick_step w)) by (by rewrite Ht, app_nil_r).
Qed.

Lemma turn_end_later w0 t t' r w : turn_end w0 (t ++ t') r w → turn_end w0 t r w.
Proof. intros [t2 Hr]. exists (t' ++ t2). destruct r; by rewrite app_assoc. Qed.

(** Quiet computations that may panic on the clock, inside a turn. *)
Lemma core_deadline {B} (k : N → exec B) w0 t l w Q :
  core w0 t l w →
  (∀ turn w', core w0 t l w' → step_ok w w' → wp (k turn) w' Q (λ _ w', turn_stop w0 w')) →
  wp (turn_deadline (lo_deadline o) ≫= k) w Q (λ _ w', turn_stop w0 w').
Proof.
  intros Hc Hk.
  eapply (core_bind _ _ (λ _ w', w_trace w' = w_trace w) w0 t l w); [done|apply keeps_turn_deadline| |].
  - eapply wp_mono; [apply turn_deadline_spec| |].
    + intros turn w' ([Ht _] & Hcalm & _). split; [apply Hcalm|]. split; [done|].
      exists []. rewrite app_nil_r. split; [done|apply silent_nil].
    + intros b w' (_ & [Ht _] & _). exists []. rewrite app_nil_r. split; [done|apply silent_nil].
  - intros turn t' w' Hc' Ht Hs Hsil. apply Hk; [|done].
    assert (t' = []) as ->; [|by rewrite app_nil_r in Hc'].
    pose proof (co_trace _ _ _ _ Hc') as E'. rewrite Ht, (co_trace _ _ _ _ Hc) in E'.
    apply app_inv_head in E'. rewrite <- (app_nil_r t) in E' at 1. by apply app_inv_head in E'.
Qed.

(** A model call inside a turn, with what it promises of its response. *)
Lemma core_run_model {B} (k : result ModelDriverFailure ModelResponse → exec B) w0 t l w req turn Q :
  core w0 t l w →
  (∀ r t' w', core w0 (t ++ t') l w' →
     match r with Ok resp => response_ok (mr_tools req) (lo_limits o) resp | Err _ => True end →
     step_ok w w' → silent t' → wp (k r) w' Q (λ _ w', turn_stop w0 w')) →
  wp (run_model id (l_request_index l) o (l_config l) req turn ≫= k) w Q (λ _ w', turn_stop w0 w').
Proof.
  intros Hc. apply core_bind; [done|apply keeps_run_model; [apply _|done]|].
  pose proof (keeps_run_model id (l_request_index l) calm o (l_config l) req turn options_valid w) as Hcalm.
  pose proof (run_model_spec id (l_request_index l) o (l_config l) req turn w options_valid) as Hw.
  unfold wp in *. destruct (run_model _ _ _ _ _ _ w) as [r w'|w'|w'|]; try done.
  - destruct Hw as (t' & Ht & Ha & Hr). split; [apply Hcalm|]. split; [by destruct r|].
    exists t'. split; [done|]. by eapply attempts_silent.
  - destruct Hw as (t' & rest & Ht & Ha & _). exists t'. split; [done|]. by eapply silent_prefix, attempts_silent.
  - destruct Hw as (t' & rest & Ht & Ha & _). exists t'. split; [done|]. by eapply silent_prefix, attempts_silent.
Qed.

(** A failed call breaks the turn, never as completed. *)
Lemma model_failure_turn w0 t l w driver :
  core w0 t l w →
  wp (path ← map_model_failure driver; mret (TurnBreak l path None)) w
    (λ r w', turn_end w0 t r w' ∧ step_ok w w') (λ _ w', turn_stop w0 w').
Proof.
  intros Hc. unfold map_model_failure.
  eapply wp_bind with (λ path w', core w0 t l w' ∧ step_ok w w' ∧ path ≠ FpCompleted).
  - eapply (core_bind_quiet _ _ w0 t l); [done|apply keeps_is_cancelled, _|apply keeps_is_cancelled, _|auto with exec|].
    intros c w6 Hc6 _ Hs6. apply wp_ret. split; [done|]. split; [done|].
    destruct c; [done|]. destruct (mdf_deadline_source driver) as [[]|]; try done; by destruct (me_kind _).
  - intros path w6 (Hc6 & Hs6 & Hp). apply wp_ret. split; [|done]. apply core_break; [done|]. by intros E.
Qed.

Lemma issue_request_spec w0 t l w req :
  core w0 t l w → at_boundary t l → mr_tools req = tset_specs (ec_tools (l_config l)) →
  wp (issue_request id o l req) w
    (λ r w', turn_end w0 t r w' ∧ (length (w_prompt_polls w') ≤ length (w_prompt_polls w))%nat)
    (λ _ w', turn_stop w0 w').
Proof.
  intros Hc Hb Htools. unfold issue_request. apply wp_atomically. cbn [fst snd].
  set (revision := default (l_issued_revision l) (l_candidate_revision l)).
  destruct (core_issue w0 t l w revision Hc Hb eq_refl) as (Hc1 & Hj & Hle).
  apply wp_trace_bind. cbn [l_request_index].
  set (l1 := mkLocals (l_working l) (l_config l) revision None (l_request_index l) (l_tool_rounds l)
    (saturating_add u32_MAX (l_requests l) 1) (Some (l_request_index l)) (l_usage l)) in *.
  set (t1 := t ++ [HcIssue (l_request_index l) revision]) in *.
  set (w1 := add_trace _ _) in *.
  cut (wp (emit (LeRequestStarted id (l_request_index l) revision
      (md_model_ref (ec_descriptor (l_config l))) (ec_reasoning (l_config l)));;
    publish (state_of id l1 StRunningModel revision);;
    turn ← turn_deadline (lo_deadline o);
    response ← run_model id (l_request_index l) o (l_config l) req turn;
    match (response : result ModelDriverFailure ModelResponse) with
    | Err driver => path ← map_model_failure driver; mret (TurnBreak l1 path None)
    | Ok response => use_response id o l1 response
    end) w1 (λ r w', turn_end w0 t1 r w' ∧ step_ok w1 w') (λ _ w', turn_stop w0 w')).
  { intros Hw. eapply wp_mono; [exact Hw| |done]. intros r w' [Hr [Hs _]].
    split; [by eapply turn_end_later|]. etransitivity; [apply Hs|done]. }
  eapply (core_bind_quiet _ _ w0 t1 l1); [done|apply keeps_emit, _|apply keeps_emit, _|auto with exec|].
  intros [] w2 Hc2 _ Hs2.
  eapply (core_bind_quiet _ _ w0 t1 l1); [done|apply keeps_publish|by apply (keeps_publish_any calm)|apply quietly_publish|].
  intros [] w3 Hc3 _ Hs3. eapply core_deadline; [done|]. intros turn w4 Hc4 Hs4.
  eapply (core_run_model _ w0 t1 l1); [done|]. intros r t' w5 Hc5 Hr Hs5 Hsil.
  assert (step_ok w1 w5) as Hs by (transitivity w2; [done|]; transitivity w3; [done|]; by transitivity w4).
  assert (just_issued (t1 ++ t') l1) as Hj5.
  { destruct Hj as (n & Hn & Hx), Hsil as (Hi & _). exists n. by rewrite issues_app, Hi, app_nil_r. }
  destruct r as [resp|driver].
  - rewrite Htools in Hr. eapply wp_mono; [by apply use_response_spec| |done].
    intros r w' [He Hs']. split; [by eapply turn_end_later|by transitivity w5].
  - eapply wp_mono; [by apply model_failure_turn| |done].
    intros r w' [He Hs']. split; [by eapply turn_end_later|by transitivity w5].
Qed.

Definition polls (w : World) : nat := length (w_prompt_polls w).

Lemma polls_step w w' : step_ok w w' → (polls w' ≤ polls w)%nat.
Proof. intros [[] _]. done. Qed.

Definition iteration_end (w0 : World) (t : list HostCall) (w : World) (r : Turn) (w' : World) : Prop :=
  turn_end w0 t r w' ∧ match r with TurnContinue _ => (polls w' < polls w)%nat | _ => True end.

Lemma boundary_index t l inputs r :
  at_boundary t l → taken_from l inputs r → at_boundary (t ++ [HcTake inputs]) r.1.1.
Proof.
  destruct r as [[l' taken] replaced]. intros [Hb Hr] (_ & _ & Hi & Ht & _). unfold at_boundary.
  simpl. by rewrite Hi, Ht, issues_app, app_nil_r.
Qed.

Lemma at_boundary_silent t t' l : silent t' → at_boundary t l → at_boundary (t ++ t') l.
Proof. intros (Hi & _) Hb. unfold at_boundary. by rewrite issues_app, Hi, app_nil_r. Qed.

Lemma build_model_request_tools messages snapshot req :
  build_model_request messages snapshot = Ok req → mr_tools req = tset_specs (ec_tools snapshot).
Proof. unfold build_model_request, with_validated_tools. intros Hb. by ok_inv. Qed.

(** From a prompt that is ready. *)
Lemma prompt_ready_spec w0 t l w messages :
  core w0 t l w → at_boundary t l →
  wp ('(l', taken, replaced) ← take_boundary id l false;
      if (taken : bool) then
        (if (replaced : bool) then host_sync else mret ());; mret (TurnContinue l')
      else
        match build_model_request messages (l_config l) with
        | Err _ => mret (TurnBreak l' FpPrompt None)
        | Ok req => issue_request id o l' req
        end) w
    (λ r w', turn_end w0 t r w' ∧ (polls w' ≤ polls w)%nat) (λ _ w', turn_stop w0 w').
Proof.
  intros Hc Hb. eapply wp_bind; [by apply take_boundary_spec|].
  intros [[l1 taken] replaced] w1 (Hs1 & inputs & Htf & Hc1). simpl in Hc1.
  pose proof (boundary_index _ _ _ _ Hb Htf) as Hb1. simpl in Hb1.
  pose proof (polls_step _ _ Hs1) as Hp1. destruct taken.
  - assert (wp (if replaced then host_sync else mret ()) w1
      (λ _ w', (idle w1 → idle w') ∧ True ∧ ∃ t', w_trace w' = w_trace w1 ++ t' ∧ silent t')
      (λ _ w', ∃ t', w_trace w' = w_trace w1 ++ t' ∧ silent t')) as Hsync.
    { assert (∀ w', w_trace w' = w_trace w1 → ∃ t', w_trace w' = w_trace w1 ++ t' ∧ silent t') as Hn.
      { intros w' Ht. exists []. rewrite app_nil_r. split; [done|apply silent_nil]. }
      destruct replaced; [|apply wp_ret; auto].
      eapply wp_mono; [apply (wp_keeps calm); [apply keeps_host_sync, _|apply host_sync_spec]|..].
      - intros [] w' [[Ht _] Hcalm]. split; [apply Hcalm|]. auto.
      - intros b w' [(_ & Ht & _) _]. auto. }
    eapply (core_bind _ _ (λ _ _, True) w0 _ l1 w1); [done| |exact Hsync|].
    { destruct replaced; [apply keeps_host_sync, _|apply keeps_ret, _]. }
    intros [] t' w2 Hc2 _ Hs2 Hsil. apply wp_ret. split.
    + exists ([HcTake inputs] ++ t'). rewrite app_assoc. split; [done|by apply at_boundary_silent].
    + etransitivity; [by apply polls_step|done].
  - destruct Htf as (_ & _ & _ & _ & _ & _ & _ & Hsame). destruct (Hsame eq_refl) as [_ Hcfg].
    destruct (build_model_request messages (l_config l)) as [req|e] eqn:Ebuild.
    + eapply wp_mono; [apply issue_request_spec; [exact Hc1|done|]| |done].
      * rewrite Hcfg. by eapply build_model_request_tools.
      * intros r w2 [He Hle]. split; [by eapply turn_end_later|]. unfold polls in *. lia.
    + apply wp_ret. split; [|done]. eapply turn_end_later, core_break; [done|]. by intros E.
Qed.

Lemma quietly_past_deadline : quietly (past_deadline o).
Proof. unfold past_deadline. quietly_tac. Qed.
Lemma keeps_past_deadline R `{!RunnerRel R} : keeps R (past_deadline o).
Proof. unfold past_deadline. keeps_tac. Qed.

Lemma iteration_spec w0 t l w :
  core w0 t l w → at_boundary t l →
  wp (iteration id o l) w (iteration_end w0 t w) (λ _ w', turn_stop w0 w').
Proof.
  intros Hc Hb. unfold iteration.
  eapply (core_bind_quiet _ _ w0 t l); [done|apply keeps_is_cancelled, _|apply keeps_is_cancelled, _|auto with exec|].
  intros cancelled w1 Hc1 _ Hs1. destruct cancelled.
  { apply wp_ret. split; [|done]. apply core_break; [done|]. by intros E. }
  eapply (core_bind_quiet _ _ w0 t l); [done|apply keeps_past_deadline, _|apply keeps_past_deadline, _|apply quietly_past_deadline|].
  intros past w2 Hc2 _ Hs2. destruct past.
  { apply wp_ret. split; [|done]. apply core_break; [done|]. by intros E. }
  eapply wp_bind; [by apply take_boundary_spec|].
  intros [[l1 taken] replaced] w3 (Hs3 & inputs & Htf & Hc3). simpl in Hc3.
  pose proof (boundary_index _ _ _ _ Hb Htf) as Hb1. simpl in Hb1.
  eapply (core_bind_quiet _ _ w0 _ l1); [done|apply keeps_publish|by apply (keeps_publish_any calm)|apply quietly_publish|].
  intros [] w4 Hc4 _ Hs4. eapply core_deadline; [done|]. intros turn w5 Hc5 Hs5.
  assert (polls w5 ≤ polls w)%nat as Hp5.
  { apply polls_step in Hs1, Hs2, Hs3, Hs4, Hs5. lia. }
  eapply (core_bind _ _ (λ p w', match p with PrepReady _ => (polls w' < polls w5)%nat
    | PrepEnd path => path ≠ FpCompleted end) w0 _ l1 w5); [done| |apply prepare_prompt_spec|].
  { unfold prepare_prompt. apply keeps_bind; [apply _| |intros r; apply keeps_ret, _].
    apply keeps_run_port_call; [apply _|apply keeps_pop_prompt|apply keeps_ret, _|done]. }
  intros p t' w6 Hc6 Hp Hs6 Hsil. destruct p as [messages|path].
  - eapply wp_mono; [apply prompt_ready_spec; [exact Hc6|by apply at_boundary_silent]| |done].
    intros r w' [He Hle]. split.
    + rewrite <- app_assoc in He. by eapply turn_end_later.
    + destruct r; [lia|done].
  - apply wp_ret. split; [|done]. eapply turn_end_later, turn_end_later, core_break; [done|].
    by intros E.
Qed.

(** ** The loop *)

Lemma run_loop_turns_spec w0 fuel : ∀ t l w,
  core w0 t l w → at_boundary t l → (polls w < fuel)%nat →
  wp (run_loop_turns id o l fuel) w
    (λ r w', ∃ t', core w0 (t ++ t') r.1.1 w' ∧ final_ok r.1.1 r.1.2) (λ _ w', turn_stop w0 w').
Proof.
  induction fuel as [|fuel IH]; intros t l w Hc Hb Hf; [lia|]. cbn [run_loop_turns].
  eapply wp_bind; [by apply iteration_spec|]. intros [l1|l1 path discarded] w1 [[t' Ht] Hp].
  - destruct Ht as [Hc1 Hb1]. eapply wp_mono; [apply IH; [exact Hc1|done|lia]| |done].
    intros r w' (t2 & Hr & Hfin). exists (t' ++ t2). by rewrite app_assoc.
  - apply wp_ret. by exists t'.
Qed.

(** ** The end *)

(** A sealed control plane, with what was published on it. *)
Definition sealed (completion : option LoopReport) (w : World) : Prop :=
  c_state (w_ctl w) = STATE_FINISHED ∧ c_accepting_updates (w_ctl w) = false ∧
  c_pending_config (w_ctl w) = None ∧ c_completion (w_ctl w) = completion.

#[local] Instance sealed_rel completion : CtlRel (λ w w', sealed completion w → sealed completion w').
Proof.
  apply (env_stable (λ c, c_state c = STATE_FINISHED ∧ c_accepting_updates c = false ∧
    c_pending_config c = None ∧ c_completion c = completion)).
  - intros c s (Hs & Ha & Hp & Hc). unfold mark_cancel_exchange, compare_exchange. by rewrite Hs.
  - done.
  - intros c config (Hs & Ha & Hp & Hc). unfold update_locked. by rewrite Ha.
  - intros c i a (Hs & Ha & Hp & Hc). unfold answer. by rewrite Ha.
Qed.

(** The state the watchers see last. *)
Definition shows (status : LoopStatus) (w : World) : Prop := ls_status (c_published (w_ctl w)) = status.
#[local] Instance shows_rel status : CtlRel (λ w w', shows status w → shows status w').
Proof.
  apply (env_stable (λ c, ls_status (c_published c) = status)).
  - intros c s. unfold mark_cancel_exchange, compare_exchange. by destruct (_ =? _).
  - done.
  - intros c config. unfold update_locked. by destruct (_ || _).
  - intros c i a Hs. unfold answer. destruct (_ || _); [done|]. destruct (c_interaction c); [|done].
    destruct (negb _); [done|]. by destruct (InteractionAnswer_validate _ _).
Qed.
Lemma tick_shows status w : shows status w → shows status (tick w).
Proof. apply (ctl_rel_tick _ (CtlRel0 := shows_rel status)). Qed.

Lemma tick_sealed completion w : sealed completion w → sealed completion (tick w).
Proof. apply (ctl_rel_tick _ (CtlRel0 := sealed_rel completion)). Qed.

Lemma sealed_set completion w c :
  sealed completion w → c_state c = c_state (w_ctl w) →
  c_accepting_updates c = c_accepting_updates (w_ctl w) →
  c_pending_config c = c_pending_config (w_ctl w) →
  sealed (c_completion c) (set_ctl w c).
Proof. intros (Hs & Ha & Hp & _) E1 E2 E3. unfold sealed. simpl. by rewrite E1, E2, E3. Qed.

Lemma publish_sealed {B} completion s w (k : () → exec B) Q P :
  sealed completion w →
  (∀ w', sealed completion w' → shows (ls_status s) w' → quiet w w' → wp (k ()) w' Q P) →
  wp (publish s ≫= k) w Q P.
Proof.
  intros Hs Hk. unfold publish. apply (wp_bind _ _ _ (λ u w', wp (k u) w' Q P)); [|done].
  apply wp_atomically. cbn [fst snd]. unfold wp at 1, emit, with_sink, atomically. cbn -[wp].
  apply Hk.
  - assert (sealed completion (set_ctl (tick w) (publish_state (w_ctl (tick w)) s))) as Hs1.
    { apply tick_sealed in Hs. pose proof (sealed_set completion (tick w) (publish_state (w_ctl (tick w)) s) Hs) as H1.
      simpl in H1. rewrite (proj2 (proj2 (proj2 Hs))) in H1. by apply H1. }
    by apply tick_sealed in Hs1.
  - by apply (tick_shows (ls_status s) (set_ctl (tick w) (publish_state (w_ctl (tick w)) s))).
  - transitivity (tick w); [apply tick_quiet|].
    transitivity (set_ctl (tick w) (publish_state (w_ctl (tick w)) s)); [done|].
    etransitivity; [apply tick_quiet|]. done.
Qed.

Lemma publish_sealed_last completion s w (Q : () → World → Prop) P :
  sealed completion w →
  (∀ w', sealed completion w' → shows (ls_status s) w' → quiet w w' → Q () w') →
  wp (publish s) w Q P.
Proof.
  intros Hs HQ. eapply (wp_mono _ _ (λ _ w', Q () w') _ P); [|by intros []|done].
  pose proof (publish_sealed completion s w mret (λ _ w', Q () w') P Hs) as Hp.
  unfold wp, mbind, exec_bind, mret, exec_ret in *. destruct (publish s w); by apply Hp.
Qed.

Definition outcome_by (path : FailPath) (outcome : LoopOutcome) : Prop :=
  (∃ reason, outcome = OutCancelled reason) ∨ ∃ w w', outcome_for path w = Done outcome w'.

Lemma outcome_for_returns path w : ∃ outcome w', outcome_for path w = Done outcome w' ∧ (w' = w ∨ w' = tick w) ∧
  (outcome = OutCompleted → path = FpCompleted).
Proof.
  destruct path; simpl; unfold failed, failure; rewrite ?bounded_static_spec by done;
    try (do 2 eexists; split; [reflexivity|]; split; [by left|done]).
  do 2 eexists. split; [reflexivity|]. split; [by right|done].
Qed.

(** What sealing a running loop does. *)
Lemma seal_spec {B} (k : FinishSeal * option ExecutionConfig → exec B) w Q P :
  running w →
  (∀ finish discarded w', sealed None w' → quiet w w' →
     c_current_revision (w_ctl w') = c_current_revision (w_ctl w) →
     finish = (if c_state (w_ctl (tick w)) =? STATE_NONE then SealClean
               else SealCancelledPrior (cancel_reason_value (c_state (w_ctl (tick w))))) →
     wp (k (finish, discarded)) w' Q P) →
  wp (seal ≫= k) w Q P.
Proof.
  intros Hr Hk. destruct (tick_step w) as [[] _]. apply so_running in Hr as [Hs Hc].
  destruct (finish_once_spec (w_ctl (tick w))) as (finish & Hf & Hfin).
  { unfold state_ok. lia. }
  unfold seal. apply (wp_bind _ _ _ (λ u w', wp (k u) w' Q P)); [|done]. apply wp_atomically. rewrite Hf. cbn [fst snd expect].
  apply wp_ret, Hk.
  - split_and!; try done.
  - apply tick_quiet.
  - simpl. done.
  - rewrite Hfin. destruct (c_state (w_ctl (tick w)) =? STATE_NONE); [done|].
    destruct (N.eqb_spec (c_state (w_ctl (tick w))) STATE_FINISHED); [lia|done].
Qed.

(** A report was delivered: once, to every waiter, and the loop is over. *)
Definition delivered (w0 : World) (t : list HostCall) (report : LoopReport) (w : World) : Prop :=
  sealed (Some report) w ∧ shows StFinished w ∧ fired w ∧ w_trace w = w_trace w0 ++ t ++ [HcPublish report].

Lemma tick_delivered w0 t report w : delivered w0 t report w → delivered w0 t report (tick w).
Proof.
  intros (Hs & Hsh & Hf & Ht). split_and!.
  - by apply tick_sealed.
  - by apply tick_shows.
  - by apply (ctl_rel_tick calm).
  - by rewrite (proj1 (tick_quiet w)).
Qed.

(** From the last state to the delivery, with and without the last event. *)
Lemma fire_spec w0 t report discarded w :
  sealed (Some report) w → shows StFinished w → w_trace w = w_trace w0 ++ t ++ [HcPublish report] →
  wp (with_ctl (λ c, (fire_token c, ()));; drop_config discarded;; mret report) w
    (λ r w', r = report ∧ delivered w0 t report w') (λ _ _, False).
Proof.
  intros Hs Hsh Ht. apply wp_atomically. cbn [fst snd].
  assert (delivered w0 t report (set_ctl (tick w) (fire_token (w_ctl (tick w))))) as Hd.
  { apply tick_sealed in Hs. apply tick_shows in Hsh. split_and!; try done; try apply Hs.
    by rewrite <- Ht; apply tick_quiet. }
  generalize dependent (set_ctl (tick w) (fire_token (w_ctl (tick w)))). intros w3 Hd.
  destruct discarded as [config|]; [|by apply wp_ret].
  apply (wp_bind _ _ _ (λ _ w', delivered w0 t report w')); [|by intros [] w' Hd'; apply wp_ret].
  apply wp_atomically. apply tick_delivered in Hd. destruct (w_sync (tick w3)); by apply wp_ret.
Qed.

Lemma complete_spec {B} w0 t report (k : () → exec B) w Q P :
  sealed None w → shows StFinished w → w_trace w = w_trace w0 ++ t →
  (∀ w', sealed (Some report) w' → shows StFinished w' →
     w_trace w' = w_trace w0 ++ t ++ [HcPublish report] → wp (k ()) w' Q P) →
  wp (complete report ≫= k) w Q P.
Proof.
  intros Hs Hsh Ht Hk. unfold complete.
  set (w1 := add_trace (set_ctl (tick w) (with_completion (w_ctl (tick w)) (Some report))) (HcPublish report)).
  apply (wp_bind _ _ _ (λ _ w', w' = w1)); [by apply wp_atomically|]. intros [] w' ->. apply Hk.
  - apply tick_sealed in Hs. destruct Hs as (? & ? & ? & _). by split_and!.
  - by apply tick_shows in Hsh.
  - simpl. rewrite (proj1 (tick_quiet w)), Ht. by rewrite app_assoc.
Qed.

Lemma silent_deliver w0 t report discarded w :
  sealed None w → shows StFinished w → w_trace w = w_trace w0 ++ t →
  wp (complete report;; with_ctl (λ c, (fire_token c, ()));; drop_config discarded;; mret report) w
    (λ r w', r = report ∧ delivered w0 t report w') (λ _ _, False).
Proof.
  intros Hs Hsh Ht. eapply (complete_spec w0 t); [done..|]. intros. by apply fire_spec.
Qed.

Lemma deliver_spec w0 t report summary discarded w :
  sealed None w → shows StFinished w → w_trace w = w_trace w0 ++ t →
  wp (complete report;;
      emit (LeFinished id summary);;
      with_ctl (λ c, (fire_token c, ()));;
      drop_config discarded;;
      mret report) w
    (λ r w', r = report ∧ delivered w0 t report w') (λ _ _, False).
Proof.
  intros Hs Hsh Ht. eapply (complete_spec w0 t); [done..|]. intros w1 Hs1 Hsh1 Ht1.
  apply wp_atomically. cbn [fst snd]. apply fire_spec.
  - by apply tick_sealed in Hs1.
  - by apply tick_shows in Hsh1.
  - rewrite <- Ht1. apply tick_quiet.
Qed.

(** A cancellation that won stays won. *)
#[local] Instance marker_rel s : s ≠ STATE_NONE → CtlRel (λ w w', c_state (w_ctl w) = s → c_state (w_ctl w') = s).
Proof.
  intros Hs. apply (env_stable (λ c, c_state c = s)).
  - intros c r Hc. unfold mark_cancel_exchange, compare_exchange. rewrite Hc.
    by destruct (N.eqb_spec s STATE_NONE).
  - done.
  - intros c config Hc. unfold update_locked. by destruct (_ || _).
  - intros c i a Hc. unfold answer. destruct (_ || _); [done|]. destruct (c_interaction c); [|done].
    destruct (negb _); [done|]. by destruct (InteractionAnswer_validate _ _).
Qed.
Lemma tick_marker s w : s ≠ STATE_NONE → c_state (w_ctl w) = s → c_state (w_ctl (tick w)) = s.
Proof. intros Hs. apply (ctl_rel_tick _ (CtlRel0 := marker_rel s Hs)). Qed.

(** The outcome of a loop that ends on [path] in [w]: a cancellation that had won
    overrides the path. *)
Definition end_outcome (w : World) (path : FailPath) (outcome : LoopOutcome) : Prop :=
  outcome_by path outcome ∧
  (c_state (w_ctl w) ≠ STATE_NONE → outcome = OutCancelled (cancel_reason_value (c_state (w_ctl w)))).

(** A running loop is sealed by its end and delivers the report it built. *)
Lemma finish_loop_spec w path working usage requests last_issued rounds :
  running w →
  wp (finish_loop id path working usage requests last_issued rounds) w
    (λ report w', delivered w [] report w' ∧ ∃ outcome, end_outcome w path outcome ∧
       report = mkLoopReport id outcome (wh_appended working) usage requests rounds
         (c_current_revision (w_ctl w)))
    (λ _ _, False).
Proof.
  intros Hr. unfold finish_loop. apply wp_atomically. cbn [fst snd]. set (w1 := tick w).
  destruct (outcome_for_returns path w1) as (intended & w2 & Hint & Hw2 & _).
  apply (wp_bind _ _ _ (λ r w', r = intended ∧ w' = w2)); [unfold wp; by rewrite Hint|]. intros r w' [-> ->].
  assert (step_ok w w2) as [Hb2 _] by (transitivity w1; [|destruct Hw2 as [->| ->]; [done|]]; apply tick_step).
  assert (quiet w w2) as [Ht2 _] by (transitivity w1; [|destruct Hw2 as [->| ->]; [done|]]; apply tick_quiet).
  apply seal_spec; [by apply Hb2|]. intros finish discarded w3 Hs3 [Ht3 _] _ Hfin.
  set (outcome := match finish with SealCancelledPrior reason => OutCancelled reason | _ => intended end).
  set (report := mkLoopReport id outcome (wh_appended working) usage requests rounds (applied_revision (w_ctl w1))).
  assert (end_outcome w path outcome) as Hout.
  { split.
    - subst outcome finish. destruct (c_state _ =? STATE_NONE); [right; eauto|left; eauto].
    - intros Hn. pose proof (tick_marker _ w Hn eq_refl) as H1.
      assert (c_state (w_ctl w2) = c_state (w_ctl w)) as H2 by (destruct Hw2 as [->| ->]; [done|by apply tick_marker]).
      pose proof (tick_marker _ w2 Hn H2) as H3. subst outcome finish. rewrite H3.
      by destruct (N.eqb_spec (c_state (w_ctl w)) STATE_NONE). }
  assert (applied_revision (w_ctl w1) = c_current_revision (w_ctl w)) as Hrev by apply tick_step.
  cut (wp (publish_final_states id (default 0 last_issued) (applied_revision (w_ctl w1));;
      complete report;;
      emit (LeFinished id (outcome_summary outcome));;
      with_ctl (λ c, (fire_token c, ()));;
      drop_config discarded;;
      mret report) w3 (λ r w', r = report ∧ delivered w [] report w') (λ _ _, False)).
  { intros Hw. assert (finish ≠ SealAlreadyFinished) as Hne by (subst finish; by destruct (_ =? STATE_NONE)).
    destruct finish; [| |done]; (eapply wp_mono; [exact Hw| |done]); intros r w' [-> Hd]; (split; [done|]);
      exists outcome; (split; [done|]); unfold report; by rewrite Hrev. }
  unfold publish_final_states.
  apply (wp_bind _ _ _ (λ _ w', sealed None w' ∧ shows StFinished w' ∧ w_trace w' = w_trace w ++ [])).
  - apply wp_atomically. cbn [fst snd]. apply (publish_sealed None); [by apply tick_sealed|].
    intros w4 Hs4 _ [Ht4 _]. apply wp_atomically. cbn [fst snd].
    apply (publish_sealed_last None); [by apply tick_sealed|]. intros w5 Hs5 Hsh5 [Ht5 _].
    split; [done|]. split; [done|].
    by rewrite Ht5, (proj1 (tick_quiet w4)), Ht4, (proj1 (tick_quiet w3)), Ht3, Ht2, app_nil_r.
  - intros [] w4 (Hs4 & Hsh4 & Ht4). by apply deliver_spec.
Qed.

Lemma delivered_from w0 t w report w' :
  w_trace w = w_trace w0 ++ t → delivered w [] report w' → delivered w0 t report w'.
Proof. intros Ht (Hs & Hsh & Hf & Ht'). split_and!; try done; try apply Hs. by rewrite Ht', Ht, <- app_assoc. Qed.

(** The path the turns of a loop end on, and the outcome it gave the report. *)
Definition entered (w0 : World) : World := tick (sink_apply (tick w0) (OpEmit (LeStarted id))).
Definition ended (w0 : World) (path : FailPath) (report : LoopReport) : Prop :=
  outcome_by path (lr_outcome report) ∧
  ∃ l discarded w, run_loop_turns id o (start_locals id request)
    (S (length (w_prompt_polls (entered w0)))) (entered w0) = Done (l, path, discarded) w.

(** The usage of a report is that of the responses in its history; at most one more
    counts, the one the loop ended on because it refused it. *)
Definition usage_told (path : FailPath) (report : LoopReport) : Prop :=
  accumulate Usage_default (usages (lr_appended report)) = Ok (lr_usage report) ∨
  ∃ u, refusal path u ∧ accumulate Usage_default (usages (lr_appended report) ++ [u]) = Ok (lr_usage report).

Lemma settled_told l path outcome requests rounds revision :
  settled l path →
  usage_told path (mkLoopReport id outcome (wh_appended (l_working l)) (l_usage l) requests rounds revision).
Proof. unfold settled, account. by rewrite app_nil_r. Qed.

(** What a report says about the calls [t] of its loop, started in [w0]. *)
Record report_of (w0 : World) (t : list HostCall) (report : LoopReport) : Prop := {
  ro_id : lr_loop_id report = id;
  ro_segments : segments_ok (lr_appended report);
  ro_inputs : user_inputs (lr_appended report)
    = (KindPrompt, lq_input request) :: ((KindSteering,.) <$> takes t);
  ro_requests : lr_requests report = N.min (N.of_nat (length (issues t))) u32_MAX;
  ro_indices : (issues t).*1 = indices (length (issues t));
  ro_revision : lr_final_config_revision report = default INITIAL_REVISION (last (issues t).*2);
  ro_rounds : lo_max_tool_rounds o ≠ 0 → lr_tool_rounds report ≤ lo_max_tool_rounds o;
  ro_follow : rounds_follow (lr_tool_rounds report) t;
  ro_handed : takes t `prefix_of` concat (w_inputs w0);
  ro_usage : ∃ path, ended w0 path report ∧ usage_told path report;
  ro_completed : lr_outcome report = OutCompleted →
    ∃ pre a, lr_appended report = pre ++ [HiAssistant a] ∧ ah_finish_reason a = FinishStop ∧
      tool_calls (ah_content a) = [];
}.

Lemma outcome_by_completed path : outcome_by path OutCompleted → path = FpCompleted.
Proof.
  intros [[reason E]|(w & w' & E)]; [done|]. destruct (outcome_for_returns path w) as (outcome & w2 & E2 & _ & Hc).
  apply Hc. rewrite E in E2. by injection E2 as <- _.
Qed.

Lemma core_report w0 t l w path outcome discarded :
  core w0 t l w → final_ok l path → settled l path → outcome_by path outcome →
  run_loop_turns id o (start_locals id request) (S (length (w_prompt_polls (entered w0)))) (entered w0)
  = Done (l, path, discarded) w →
  report_of w0 t (mkLoopReport id outcome (wh_appended (l_working l)) (l_usage l) (l_requests l)
    (l_tool_rounds l) (l_issued_revision l)).
Proof.
  intros [] Hf Hs Ho E. split; simpl; try done.
  - rewrite co_handed0. by apply prefix_app_r.
  - exists path. split; [split; [done|eauto]|by apply settled_told].
  - intros ->. by apply Hf, outcome_by_completed.
Qed.

(** Where a loop starts. *)
Record ready (w0 : World) : Prop := {
  rd_running : running w0;
  rd_idle : idle w0;
  rd_configs : configs_ok w0;
  rd_revision : c_current_revision (w_ctl w0) = INITIAL_REVISION;
  rd_config : config_ok (lq_config request);
}.

Lemma core_start w0 w :
  ready w0 → step_ok w0 w → (idle w0 → idle w) → quiet w0 w → core w0 [] (start_locals id request) w.
Proof.
  intros [] Hs Hi [Ht _]. assert (handed w0 [] w) as Hh by (apply (step_handed _ _ _ Hs); by rewrite app_nil_r).
  destruct Hs as [[] Hcf]. split; simpl; try done; auto.
  - by rewrite app_nil_r.
  - constructor.
  - apply segments_one. by constructor.
  - congruence.
  - lia.
Qed.

Definition crash_report (failed : LoopFailure) : LoopReport :=
  mkLoopReport id (OutFailed failed) [] Usage_default 0 0 INITIAL_REVISION.

Definition finished_end (w0 : World) (report : LoopReport) (w' : World) : Prop :=
  ∃ t, delivered w0 t report w' ∧ unpublished t ∧ report_of w0 t report.

(** The destructors of the runner's locals, after the delivery. *)
Lemma last_sync_spec w0 t report w :
  delivered w0 t report w →
  wp (host_sync;; mret report) w (λ r w', r = report ∧ delivered w0 t report w')
    (λ b w', b = true ∧ delivered w0 t report w').
Proof.
  intros Hd. unfold host_sync, host_panics.
  apply (wp_bind _ _ _ (λ _ w', delivered w0 t report w')); [|by intros [] w' Hd'; apply wp_ret].
  apply wp_atomically. apply tick_delivered in Hd. destruct (w_sync (tick w)) as [|[] sync]; simpl.
  - by apply wp_ret.
  - by split.
  - by apply wp_ret.
Qed.

(** Past its first event, the runner is where a loop starts. *)
Lemma core_entered w0 :
  ready w0 → core w0 [] (start_locals id request) (entered w0).
Proof.
  intros Hr. unfold entered. set (w1 := sink_apply (tick w0) _). apply core_start; [done|..].
  - transitivity (tick w0); [apply tick_step|]. transitivity w1; [by apply rr_frame|apply tick_step].
  - intros Hi. by apply (ctl_rel_tick calm), (ctl_rel_tick calm w0).
  - transitivity (tick w0); [apply tick_quiet|]. transitivity w1; [done|apply tick_quiet].
Qed.

Lemma drop_config_delivered w0 t report discarded w :
  delivered w0 t report w →
  wp (drop_config discarded) w (λ _ w', delivered w0 t report w') (λ _ _, False).
Proof.
  intros Hd. destruct discarded as [config|]; [|by apply wp_ret].
  apply wp_atomically. apply tick_delivered in Hd. destruct (w_sync (tick w)); by apply wp_ret.
Qed.

Lemma run_loop_inner_spec w0 :
  ready w0 →
  wp (run_loop_inner id o request) w0 (finished_end w0)
    (λ b w', turn_stop w0 w' ∨ b = true ∧ ∃ report, finished_end w0 report w').
Proof.
  intros Hr. unfold run_loop_inner. apply wp_atomically. cbn [fst snd].
  apply wp_atomically. cbn [fst snd]. pose proof (core_entered w0 Hr) as Hc. fold (entered w0).
  eapply wp_bind.
  { eapply wp_mono; [apply wp_returns; [apply wp_result; apply (run_loop_turns_spec w0 (S (polls (entered w0))) _ _ _ Hc);
      [done|unfold polls; lia]|by apply run_loop_turns_account]|intros r w3 Hx; exact Hx|].
    intros b w3 Hs. by left. }
  intros [[l path] discarded] w3 [[(t & Hc3 & Hfin) E] Hsettled]. simpl in Hc3, Hfin, Hsettled.
  eapply wp_bind; [eapply wp_mono; [apply finish_loop_spec, Hc3|intros r w4 Hx; exact Hx|done]|].
  intros report w4 (Hd & outcome & [Hout _] & ->). rewrite (co_current _ _ _ _ Hc3) in *.
  apply (delivered_from w0 t) in Hd; [|apply Hc3].
  set (report := mkLoopReport _ _ _ _ _ _ _) in *.
  assert (∀ w', delivered w0 t report w' → finished_end w0 report w') as Hend.
  { intros w' Hd'. exists t. split; [done|]. split; [apply Hc3|]. by eapply core_report. }
  eapply wp_bind; [eapply wp_mono; [by apply drop_config_delivered|intros r w' Hx; exact Hx|done]|].
  intros [] w5 Hd5. eapply wp_mono; [by apply (last_sync_spec w0 t)| |].
  - intros r w' [-> Hd6]. by apply Hend.
  - intros b w' [-> Hd6]. right. split; [done|]. exists report. by apply Hend.
Qed.

Lemma seal_again_spec {B} w0 t report (k : FinishSeal * option ExecutionConfig → exec B) w Q P :
  delivered w0 t report w →
  (∀ discarded w', delivered w0 t report w' → wp (k (SealAlreadyFinished, discarded)) w' Q P) →
  wp (seal ≫= k) w Q P.
Proof.
  intros Hd Hk. apply tick_delivered in Hd. pose proof Hd as ((Hs & Ha & Hp & Hcm) & Hsh & Hf & Ht).
  destruct (finish_once_spec (w_ctl (tick w))) as (finish & Hfo & Hfin); [unfold state_ok; by rewrite Hs|].
  rewrite Hs in Hfin. simpl in Hfin. subst finish.
  unfold seal. apply (wp_bind _ _ _ (λ u w', wp (k u) w' Q P)); [|done].
  apply wp_atomically. rewrite Hfo. cbn [fst snd expect]. apply wp_ret, Hk. by split_and!.
Qed.

(** Sealing again finds the report, and changes nothing a waiter sees. *)
Lemma reseal_spec w0 t report w :
  delivered w0 t report w →
  wp (panic_report id) w (λ r w', r = report ∧ delivered w0 t report w') (λ _ _, False).
Proof.
  intros Hd. unfold panic_report, failure. rewrite bounded_static_spec by done. cbn -[wp].
  apply (wp_bind _ _ _ (λ _ w', w' = w)); [by apply wp_ret|]. intros failed w' ->.
  apply (seal_again_spec w0 t report); [done|]. intros discarded w1 Hd1. cbn -[wp].
  apply wp_atomically. cbn [fst snd]. apply tick_delivered in Hd1.
  unfold published_report. rewrite (proj2 (proj2 (proj2 (proj1 Hd1)))). by apply wp_ret.
Qed.

(** A panic before the end: the runner's own report. *)
Lemma panic_report_spec w0 w :
  turn_stop w0 w →
  wp (panic_report id) w (λ r w', ∃ t failed, r = crash_report failed ∧ delivered w0 t r w' ∧
    unpublished t ∧ lf_kind failed = FkInternal) (λ _ _, False).
Proof.
  intros (Hr & t & Ht & Hu). unfold panic_report, failure. rewrite bounded_static_spec by done. cbn -[wp].
  set (failed := mkLoopFailure FkInternal _ None).
  apply (wp_bind _ _ _ (λ r w', r = failed ∧ w' = w)); [by apply wp_ret|]. intros r w' [-> ->].
  apply seal_spec; [done|]. intros finish discarded w1 Hs1 [Ht1 _] _ Hfin.
  assert (finish ≠ SealAlreadyFinished) as Hne by (subst finish; by destruct (_ =? STATE_NONE)).
  cut (wp (with_ctl (λ c, (publish_state c (LoopState_new id StFinished 0 INITIAL_REVISION), ()));;
      complete (crash_report failed);;
      with_ctl (λ c, (fire_token c, ()));;
      drop_config discarded;;
      mret (crash_report failed)) w1
    (λ r w', r = crash_report failed ∧ delivered w0 t (crash_report failed) w') (λ _ _, False)).
  { intros Hw. assert (∀ r w', r = crash_report failed ∧ delivered w0 t (crash_report failed) w' →
      ∃ t failed, r = crash_report failed ∧ delivered w0 t r w' ∧ unpublished t ∧ lf_kind failed = FkInternal)
      as Hend by (intros r w' [-> Hd]; by exists t, failed).
    destruct finish; [| |done]; (eapply wp_mono; [exact Hw|exact Hend|done]). }
  apply wp_atomically. cbn [fst snd]. set (w2 := set_ctl (tick w1) _).
  apply (silent_deliver w0 t).
  - apply tick_sealed in Hs1. destruct Hs1 as (? & ? & ? & ?). by split_and!.
  - done.
  - simpl. by rewrite (proj1 (tick_quiet w1)), Ht1.
Qed.

End spec.

(** ** The appended history, projected *)

Section projection.
Context `{SerdeJson} (id : LoopId) (o : LoopOptions).

Definition user_ok (m : ModelMessage) : Prop := match m with MsgUser _ => message_ok m | _ => True end.

Lemma project_segment seg ms rest :
  segment_ok id o seg → Forall2 (λ i m, project_item i = Ok m) seg ms → Forall user_ok ms →
  exchange_ok rest → exchange_ok (ms ++ rest).
Proof.
  intros Hseg Hp Hu Hrest. destruct Hseg as [u _|a rs _ Hparts _ HF].
  - apply Forall2_cons_inv_l in Hp as (m & ms' & Hm & ->%Forall2_nil_inv_l & ->).
    apply Forall_cons in Hu as [Hu _]. unfold project_item in Hm.
    destruct (uh_input u) as [text]. injection Hm as <-. by apply exchange_plain.
  - apply Forall2_cons_inv_l in Hp as (m & ms' & Hm & Hrs & ->).
    assert (ms' = result_message <$> ((λ r, (trh_call_id r, trh_output r, trh_outcome r)) <$> rs)) as ->.
    { clear -Hrs. revert ms' Hrs. induction rs as [|r rs IH]; intros ms' Hrs.
      - by apply Forall2_nil_inv_l in Hrs as ->.
      - apply Forall2_cons_inv_l in Hrs as (m & ms2 & Hm & Hrs & ->). unfold project_item in Hm.
        injection Hm as <-. cbn. f_equal. by apply IH. }
    unfold project_item, assistant_message, assistant_with_provider_replay in Hm.
    apply map_err_Ok in Hm. rewrite result_unit_bind in Hm. destruct Hm as [Hv Hm]. injection Hm as Hm.
    eapply (exchange_assistant m (normalize_parts (ah_content a))).
    + rewrite <- Hm. by destruct (ah_provider_replay a).
    + by rewrite <- Hm.
    + unfold call_ids. rewrite normalize_parts_tool_calls, <- list_fmap_compose.
      clear -HF. induction HF as [|c r cs rs Hr HF IH]; [done|]. cbn. rewrite (rf_call _ _ _ _ _ _ Hr).
      by apply Permutation_skip.
    + done.
Qed.

Lemma project_segments segs rest : ∀ ms,
  Forall (segment_ok id o) segs → Forall2 (λ i m, project_item i = Ok m) (concat segs) ms →
  Forall user_ok ms → exchange_ok rest → exchange_ok (ms ++ rest).
Proof.
  induction segs as [|seg segs IH]; intros ms Hs Hp Hu Hrest.
  - by apply Forall2_nil_inv_l in Hp as ->.
  - apply Forall_cons in Hs as [Hseg Hs]. simpl in Hp. apply Forall2_app_inv_l in Hp as (m1 & m2 & Hp1 & Hp2 & ->).
    apply Forall_app in Hu as [Hu1 Hu2]. rewrite <- app_assoc. eapply project_segment; [done..|]. by apply IH.
Qed.

(** An exchange has only valid user messages. *)
Lemma exchange_users ms : exchange_ok ms → Forall user_ok ms.
Proof.
  induction 1 as [|m ms Hm Hok _ IH|m parts results ms Hm Hok _ _ IH]; [done| |].
  - constructor; [|done]. by destruct m.
  - constructor; [by destruct m|]. apply Forall_app. split; [|done].
    apply Forall_fmap, Forall_true. by intros [[]].
Qed.

(** What a request can be built from, given a history that is an exchange as soon as
    its user texts are legal. *)
Definition reissues (ms : list ModelMessage) : Prop := ∀ snapshot,
  (∃ req, build_model_request ms snapshot = Ok req ∧ mr_messages req = ms ∧ mr_tools req = tset_specs (ec_tools snapshot))
  ↔ Forall user_ok ms.

Lemma exchange_reissues ms : ms ≠ [] → (Forall user_ok ms → exchange_ok ms) → reissues ms.
Proof.
  intros Hn He snapshot. unfold build_model_request, with_validated_tools. split.
  - intros (req & E & _). apply exchange_users, validate_tool_exchange_Ok. destruct ms; [done|].
    by destruct (validate_tool_exchange _) as [[]|].
  - intros Hu. apply He, validate_tool_exchange_Ok in Hu. destruct ms; [done|]. rewrite Hu. cbn. eauto.
Qed.
End projection.

