(* ===== verification/Blame.v ===== *)
(** * Who is to blame for a panic

    A loop catches what its ports do. What it does not catch, it reports as a panic of
    the runner: [blamed] says what that comes from, a synchronous call into the host
    that panicked ([LoopInputs::take] or a destructor) or a clock at the end of its
    range. Nothing the crate does by itself panics: [faults] walks the computations of
    the runner once more, with the facts of [RunnerInv] for every [expect]. *)

From S2P Require Import Prelude Text Json Ids Limits BTree ToolTypes ToolSet ModelError Message Request Failure Assembler History Prompt Event Control Options World Steps PortCall Driver RunnerTools Runner Accounts RunnerInv.
Local Open Scope N_scope.

Section blame.
Context `{SerdeJson}.

(** An instant cannot be a day later than the clock. *)
Definition clock_ends (w : World) : Prop := INSTANT_MAX < w_now w + LOOP_HORIZON.
Definition blamed (w w' : World) : Prop := host_blamed w w' ∨ clock_ends w'.

Lemma blamed_drained w w1 w' : drained w w1 → blamed w1 w' → blamed w w'.
Proof. intros Hd [Hb|Hc]; [left; by eapply host_blamed_drained|by right]. Qed.

(** [m], started in [w], panics only with somebody to blame. *)
Definition faults {A : Type} (m : exec A) (w : World) : Prop :=
  match m w with Panicked w' => blamed w w' | _ => True end.

(** ** Rules *)

Lemma keeps_drained {A} (m : exec A) : keeps step_ok m → keeps drained m.
Proof. intros Hk w. specialize (Hk w). destruct (m w); try done; apply Hk. Qed.

Lemma faults_bind {A B} (m : exec A) (k : A → exec B) w :
  keeps drained m → faults m w → (∀ a w', m w = Done a w' → faults (k a) w') → faults (m ≫= k) w.
Proof.
  unfold faults, mbind, exec_bind. intros Hd Hm Hk. specialize (Hd w). destruct (m w) as [a w1|w1|w1|]; try done.
  specialize (Hk a w1 eq_refl). destruct (k a w1); try done. by eapply blamed_drained.
Qed.
Lemma faults_wp_bind {A B} (m : exec A) (k : A → exec B) w Q P :
  wp m w Q P → keeps drained m → faults m w → (∀ a w', Q a w' → faults (k a) w') → faults (m ≫= k) w.
Proof. unfold wp. intros Hw Hd Hm Hk. apply faults_bind; [done..|]. intros a w' E. apply Hk. by rewrite E in Hw. Qed.

Lemma faults_never {A} (m : exec A) w Q P : wp m w Q P → (∀ w', ¬ P true w') → faults m w.
Proof. unfold wp, faults. intros Hw Hp. destruct (m w); try done. by apply Hp in Hw. Qed.
Lemma faults_quietly {A} (m : exec A) w : quietly m → faults m w.
Proof. intros Hq. specialize (Hq w). unfold faults. by destruct (m w). Qed.
Lemma faults_ret {A} (a : A) w : faults (mret a) w.
Proof. done. Qed.
Lemma faults_atomically {A} (f : World → World * A) w : faults (atomically f) w.
Proof. unfold faults, atomically. by destruct (f (tick w)). Qed.
Lemma faults_with_ctl {A} (f : LoopControl → LoopControl * A) w : faults (with_ctl f) w.
Proof. apply faults_atomically. Qed.
Lemma faults_trace c w : faults (trace c) w.
Proof. done. Qed.

Lemma faults_host_sync w : faults host_sync w.
Proof.
  unfold faults, host_sync, host_panics, atomically, mbind, exec_bind. rewrite tick_sync.
  destruct (w_sync w) as [|[] sync] eqn:E; simpl; try done. left. by exists [].
Qed.
Lemma faults_take_inputs w : faults take_inputs w.
Proof.
  unfold take_inputs. apply faults_bind; [apply keeps_host_sync, _|apply faults_host_sync|].
  intros [] w1 _. unfold faults, atomically, mbind, exec_bind. by destruct (w_inputs (tick w1)).
Qed.
End blame.

#[export] Hint Resolve faults_ret faults_atomically faults_with_ctl faults_trace faults_host_sync faults_take_inputs : exec.
#[export] Hint Resolve faults_quietly | 5 : exec.

(** ** Calls into the host *)

Section port.
Context `{SerdeJson} {T E : Type} (pop : World → World * poll (result E T)) (on_pending : exec ()).
Hypothesis pop_quiet : quietly (atomically pop).
Hypothesis on_pending_quiet : quietly on_pending.
Hypothesis pop_drained : keeps drained (atomically pop).
Hypothesis on_pending_drained : keeps drained on_pending.

Lemma faults_run_port_call left call turn timeout w :
  ordinary call → faults (run_port_call pop on_pending left call turn timeout) w.
Proof.
  intros Hc. unfold run_port_call. apply faults_bind; [auto with exec..|]. intros [] w1 _; [done|].
  apply faults_bind; [auto with exec..|]. intros t w2 _. destruct (effective_deadline_from _ _ _); [|done].
  apply faults_bind; [auto with exec..|]. intros t' w3 _. destruct (_ <=? _); [done|].
  apply faults_bind; [by apply keeps_trace; [apply _|]|done|]. intros [] w4 _.
  apply faults_bind; [auto with exec..|]. intros [] w5 _; [done|].
  apply faults_bind; [auto with exec..|]. intros polls w6 _.
  apply faults_bind; [by apply keeps_port_wait; [apply _|..]| |].
  { unfold faults. pose proof (port_wait_spec pop on_pending pop_quiet on_pending_quiet (ed_tokio a) polls w6) as Hw.
    by destruct (port_wait _ _ _ _ w6). }
  intros r w7 _. apply faults_bind; [by apply keeps_trace; [apply _|]|done|]. intros [] w8 _.
  apply faults_bind; [auto with exec..|]. done.
Qed.
End port.

(** ** The model driver *)

Section driver.
Context `{SerdeJson} (id : LoopId) (request_index : N) (d : ModelDriver) (request : ModelRequest).
Hypothesis limits_valid : LoopLimits_validate (drv_limits d) = Ok ().
Hypothesis delay_capped : rp_base_delay (drv_retry_policy d) ≤ MAX_MODEL_RETRY_DELAY.

Lemma faults_drop_attempt w : faults drop_attempt w.
Proof.
  unfold faults, drop_attempt, host_panics, atomically, mbind, exec_bind. rewrite tick_sync.
  destruct (w_sync w) as [|[] sync] eqn:E; simpl; try done. left. by exists [].
Qed.

(** The polls of an attempt do not panic: the assembler's [expect]s hold. *)
Lemma faults_run_attempt attempt deadline source progress w :
  faults (run_attempt id request_index d request attempt deadline source progress) w.
Proof.
  unfold run_attempt. apply faults_bind; [by apply keeps_trace; [apply _|]|done|]. intros [] w1 _.
  apply faults_bind; [auto with exec..|]. intros [] w2 _; [done|].
  apply faults_bind; [apply keeps_attempt_polls, _| |].
  { eapply faults_never; [by apply attempt_polls_spec|]. by intros w' [[=] _]. }
  intros r w3 _. apply faults_bind; [apply keeps_drop_attempt, _|apply faults_drop_attempt|done].
Qed.

Lemma faults_wait_for_retry deadline source delay error w :
  delay ≤ MAX_MODEL_RETRY_DELAY → faults (wait_for_retry deadline source delay error) w.
Proof.
  intros Hd. unfold wait_for_retry. apply faults_bind; [auto with exec..|]. intros t w1 [= <- <-].
  assert (MAX_MODEL_RETRY_DELAY ≤ LOOP_HORIZON) as Hh by (vm_compute; discriminate).
  apply faults_bind; [auto with exec|..].
  - unfold instant_checked_add. destruct (checked_add _ _ _) eqn:E; [done|]. right. apply checked_add_None in E.
    unfold clock_ends. lia.
  - intros at_ w2 _. apply faults_bind; [auto with exec..|]. intros polls w3 _.
    apply faults_quietly, quietly_retry_wait.
Qed.

Lemma faults_attempt_loop deadline source fuel : ∀ attempt progress w,
  faults (attempt_loop id request_index d request deadline source attempt progress fuel) w.
Proof.
  induction fuel as [|fuel IH]; intros attempt progress w; cbn [attempt_loop]; [done|].
  apply faults_bind; [apply keeps_precheck, _|apply faults_quietly, quietly_precheck|]. intros [[]|f] w1 _; [|done].
  apply faults_bind; [apply keeps_run_attempt, _|apply faults_run_attempt|]. intros [r progress'] w2 _.
  apply faults_bind; [by apply keeps_trace; [apply _|]|done|]. intros [] w3 _. destruct r as [response|failure]; [done|].
  apply faults_bind; [auto with exec..|]. intros t w4 _.
  destruct (evaluate_retry _ _ _ _ _) as [delay|] eqn:Er; [|done]. apply evaluate_retry_delay in Er; [|done].
  apply faults_bind; [apply keeps_wait_for_retry, _|by apply faults_wait_for_retry|]. intros [[]|f] w5 _; [apply IH|done].
Qed.
End driver.

Section runner.
Context `{SerdeJson} (id : LoopId) (o : LoopOptions) (request : LoopRequest).
Hypothesis options_valid : options_ok o.

Lemma faults_run_model k snapshot req turn w : faults (run_model id k o snapshot req turn) w.
Proof.
  set (d := ModelDriver_from_validated (ec_descriptor snapshot) o).
  assert (LoopLimits_validate (drv_limits d) = Ok ()) as Hl by apply options_valid.
  assert (rp_base_delay (drv_retry_policy d) ≤ MAX_MODEL_RETRY_DELAY) as Hb by apply (oo_base_delay _ options_valid).
  assert (1 ≤ rp_max_attempts (drv_retry_policy d)) as Hm by apply (oo_attempts _ options_valid).
  unfold run_model. apply faults_bind; [by apply keeps_run_detailed; [apply _|..]| |].
  - unfold run_detailed. apply faults_bind; [auto with exec..|]. intros t w1 _.
    destruct (effective_deadline_from _ _ _); [|done].
    apply faults_bind; [apply keeps_precheck, _|apply faults_quietly, quietly_precheck|]. intros [[]|f] w2 _; [|done].
    fold d. destruct (validate_request d req); [by apply faults_attempt_loop|done].
  - intros [r progress] w1 _. apply faults_bind; [auto with exec..|]. intros [] w2 _.
    apply faults_bind; [apply keeps_drain_progress, _|apply faults_quietly, quietly_drain_progress|done].
Qed.

(** ** The tool phase *)

Lemma faults_turn_deadline w : faults (turn_deadline (lo_deadline o)) w.
Proof.
  unfold turn_deadline. destruct (lo_deadline o); [done|]. apply faults_bind; [auto with exec..|].
  intros t w1 [= <- <-]. unfold instant_checked_add. destruct (checked_add _ _ _) eqn:E; [done|].
  right. by apply checked_add_None in E.
Qed.

Lemma faults_decide_policy policy inv turn w : faults (decide_policy o policy inv turn) w.
Proof.
  unfold decide_policy. destruct policy; [|done].
  apply faults_bind; [apply keeps_run_port_call; [apply _|apply keeps_pop_policy, _|apply keeps_ret, _|done]| |done].
  apply faults_run_port_call; [apply quietly_pop_policy|apply quietly_ret|apply keeps_pop_policy, _|apply keeps_ret, _|done].
Qed.

Lemma drained_forward_tool_progress i : keeps drained (forward_tool_progress id i;; mret ()).
Proof. apply keeps_bind; [apply _|apply keeps_drained, keeps_forward_tool_progress|intros; apply keeps_ret, _]. Qed.

Lemma faults_run_tool_port i inv turn w : faults (run_tool_port id o i inv turn) w.
Proof.
  unfold run_tool_port. apply faults_bind; [by apply keeps_frame; [apply _|]|apply faults_atomically|]. intros [] w1 _.
  pose proof (keeps_drained _ (keeps_pop_tool (ti_tool_call_id inv))).
  pose proof (drained_forward_tool_progress i).
  apply faults_bind; [by apply keeps_run_port_call; [apply _|..]| |].
  - apply faults_run_port_call; try done; [apply quietly_atomically; intros w2; apply pop_tool_quiet|].
    apply quietly_bind; [apply quietly_forward_tool_progress|intros; apply quietly_ret].
  - intros r w2 _. apply faults_bind; [|apply faults_quietly, quietly_after_tool|done].
    apply keeps_drained. unfold after_tool. keeps_tac; [apply keeps_record_tool_dropped|apply keeps_drain_tool_progress].
Qed.

Lemma faults_interact inv kind w : idle w → faults (interact id o inv kind) w.
Proof. intros Hi. eapply faults_never; [by apply interact_spec|]. by intros w' [[=] _]. Qed.

Lemma faults_execute_tool i inv w : idle w → faults (execute_tool id o i inv) w.
Proof.
  intros Hi. unfold execute_tool.
  eapply faults_wp_bind; [apply turn_deadline_spec|apply keeps_drained, keeps_turn_deadline|apply faults_turn_deadline|].
  intros turn w1 (_ & Hc1 & _).
  eapply faults_wp_bind; [apply run_tool_port_spec|apply keeps_drained, keeps_run_tool_port|apply faults_run_tool_port|].
  intros port w2 (Hc2 & _ & q & _ & _ & Hport). assert (idle w2) as Hi2 by (by apply Hc2, Hc1).
  destruct port as [output|req| |path]; [|destruct Hport as [_ Hv]| |done].
  - by destruct (completed_result_spec id o i inv output) as (r & -> & _).
  - eapply faults_wp_bind; [by apply interact_spec|apply keeps_drained, keeps_interact|by apply faults_interact|].
    intros [[d|answer]|path] w3 (_ & _ & Ha); [done| |done]. simpl in Ha.
    destruct (encode_result_Some answer req Ha) as [content ->].
    apply faults_bind; [apply keeps_ret, _|done|]. intros content' w4 [= -> ->].
    by destruct (provided_input_result_spec id o i inv content') as (r & -> & _).
  - by destruct (terminal_tool_result_spec id o i (ti_tool_call_id inv) (ti_tool_name inv) OutcomeFailed
      (lit "tool failed") eq_refl) as (r & -> & _).
Qed.

Lemma faults_deny_call i inv reason w : reason_ok reason → faults (deny_call id o i inv reason) w.
Proof. intros Hr. unfold deny_call. by destruct (denied_result_spec id o i inv reason Hr) as (r & -> & _). Qed.

Lemma faults_run_tool_call i inv policy w : idle w → faults (run_tool_call id o i inv policy) w.
Proof.
  intros Hi. unfold run_tool_call.
  eapply faults_wp_bind; [apply turn_deadline_spec|apply keeps_drained, keeps_turn_deadline|apply faults_turn_deadline|].
  intros turn w1 (_ & Hc1 & _).
  eapply faults_wp_bind; [apply decide_policy_spec|apply keeps_drained, keeps_decide_policy|apply faults_decide_policy|].
  intros s w2 (Hc2 & _ & p & _ & _ & Hs). assert (idle w2) as Hi2 by (by apply Hc2, Hc1).
  destruct s as [|reason|req| | |]; [by apply faults_execute_tool|by apply faults_deny_call| |done..].
  eapply faults_wp_bind; [by apply interact_spec|apply keeps_drained, keeps_interact|by apply faults_interact|].
  intros [[[]|answer]|path] w3 (_ & Hi3 & _); [by apply faults_execute_tool|by apply faults_deny_call|done..].
Qed.

Lemma faults_run_tool_batch i snapshot calls : ∀ working w,
  Forall (λ c, is_Some (EnabledTools_get (ec_tools snapshot) (tc_name c))) calls → idle w →
  faults (run_tool_batch id o working i snapshot calls) w.
Proof.
  induction calls as [|c cs IH]; intros working w Hen Hi; cbn [run_tool_batch]; [done|].
  apply Forall_cons in Hen as [[enabled Hen] Hens]. apply faults_bind; [auto with exec..|].
  intros cancelled w1 [= _ <-]. assert (idle (tick w)) as Hi1 by (by apply (ctl_rel_tick calm)).
  set (inv := mkToolInvocation _ _ _). rewrite Hen.
  assert (wp (if cancelled then mret (StepEnd FpCancelled)
      else _ ← expect (Some enabled); emit (LeToolStarted id i (tc_tool_call_id c) (tc_name c));;
           run_tool_call id o i inv (ec_policy snapshot)) (tick w) (λ _ w', idle w') (λ _ _, True)) as Hwp.
  { destruct cancelled; [by apply wp_ret|]. apply (wp_bind _ _ _ (λ _ w', idle w')); [by apply wp_ret|]. intros _ w2 Hi2.
    apply (wp_bind _ _ _ (λ _ w', idle w')); [by apply (calm_emit (LeToolStarted id i (tc_tool_call_id c) (tc_name c)) w2)|].
    intros [] w3 Hi3. eapply wp_mono; [by apply run_tool_call_spec| |done]. by intros s w4 [? _]. }
  eapply faults_wp_bind; [exact Hwp| | |].
  - destruct cancelled; [apply keeps_ret, _|]. apply keeps_bind; [apply _|apply keeps_ret, _|intros _].
    apply keeps_bind; [apply _|apply keeps_emit, _|intros _]. apply keeps_drained, keeps_run_tool_call.
  - destruct cancelled; [done|]. apply faults_bind; [apply keeps_ret, _|done|]. intros _ w2 [= _ <-].
    apply faults_bind; [auto with exec..|]. intros [] w3 E. apply faults_run_tool_call.
    pose proof (calm_emit (LeToolStarted id i (tc_tool_call_id c) (tc_name c)) (tick w)) as Hk. rewrite E in Hk. by apply Hk.
  - intros [r|path] w2 Hi2.
    + apply faults_bind; [auto with exec..|]. intros [] w3 E. apply IH; [done|].
      pose proof (calm_emit (LeToolFinished id i (tc_tool_call_id c) (trh_outcome r) (byte_len (to_content (trh_output r)))) w2)
        as Hk. rewrite E in Hk. by apply Hk.
    + by destruct (settle_calls_spec id o i OutcomeCancelled (lit "tool batch interrupted") (c :: cs) working eq_refl)
        as (rs & -> & _).
Qed.

(** ** The turns *)

Lemma drained_with_ctl {A} (f : LoopControl → LoopControl * A) : keeps drained (with_ctl f).
Proof.
  apply keeps_atomically; [apply _|apply rr_tick|]. intros w. unfold drained. by destruct (f (w_ctl w)).
Qed.
Lemma drained_trace c : keeps drained (trace c).
Proof. intros w. unfold trace, drained. done. Qed.
Lemma drained_run_tool_batch working i snapshot calls : keeps drained (run_tool_batch id o working i snapshot calls).
Proof. apply keeps_drained, keeps_run_tool_batch. Qed.
Lemma drained_publish state : keeps drained (publish state).
Proof. apply keeps_drained, keeps_publish. Qed.
Lemma drained_turn_deadline d : keeps drained (turn_deadline d).
Proof. apply keeps_drained, keeps_turn_deadline. Qed.
Lemma drained_run_model k snapshot req turn : keeps drained (run_model id k o snapshot req turn).
Proof. apply keeps_run_model; [apply _|done]. Qed.
Lemma drained_prepare_prompt k turn : keeps drained (prepare_prompt o k turn).
Proof.
  unfold prepare_prompt. apply keeps_bind; [apply _| |intros; apply keeps_ret, _].
  apply keeps_run_port_call; [apply _|apply keeps_drained, keeps_pop_prompt|apply keeps_ret, _|done].
Qed.
Lemma drained_past_deadline : keeps drained (past_deadline o).
Proof. apply keeps_past_deadline, _. Qed.
Lemma drained_is_cancelled : keeps drained is_cancelled.
Proof. apply keeps_is_cancelled, _. Qed.
#[local] Hint Resolve drained_with_ctl drained_trace drained_run_tool_batch drained_publish drained_turn_deadline
  drained_run_model drained_prepare_prompt drained_past_deadline : exec.

Lemma drained_take_boundary l last_reference : keeps drained (take_boundary id l last_reference).
Proof. unfold take_boundary. keeps_tac. Qed.
Lemma drained_tool_round l calls : keeps drained (tool_round id o l calls).
Proof. unfold tool_round. keeps_tac. Qed.
#[local] Hint Resolve drained_take_boundary drained_tool_round : exec.
Lemma drained_use_response l response : keeps drained (use_response id o l response).
Proof. unfold use_response. destruct (UsageAccumulator_add _ _). keeps_tac. Qed.
#[local] Hint Resolve drained_use_response : exec.
Lemma drained_issue_request l req : keeps drained (issue_request id o l req).
Proof. unfold issue_request, map_model_failure. keeps_tac. Qed.
#[local] Hint Resolve drained_issue_request : exec.
Lemma drained_iteration l : keeps drained (iteration id o l).
Proof. unfold iteration. keeps_tac. Qed.

Lemma faults_publish state w : faults (publish state) w.
Proof. apply faults_quietly, quietly_publish. Qed.
#[local] Hint Resolve faults_publish faults_turn_deadline faults_run_model : exec.

Lemma faults_take_boundary l last_reference w : faults (take_boundary id l last_reference) w.
Proof.
  unfold take_boundary. apply faults_bind; [auto with exec..|]. intros candidate w1 _.
  apply faults_bind; [keeps_tac| |].
  - destruct candidate as [[revision config]|]; [|done].
    apply faults_bind; [destruct last_reference; [auto with exec|apply keeps_ret, _]| |done].
    destruct last_reference; [auto with exec|done].
  - intros [l' replaced] w2 _. apply faults_bind; [auto with exec..|done].
Qed.

Lemma faults_prepare_prompt k turn w : faults (prepare_prompt o k turn) w.
Proof.
  unfold prepare_prompt. apply faults_bind; [|apply faults_run_port_call|done].
  - apply keeps_run_port_call; [apply _|apply keeps_drained, keeps_pop_prompt|apply keeps_ret, _|done].
  - apply quietly_pop_prompt.
  - apply quietly_ret.
  - apply keeps_drained, keeps_pop_prompt.
  - apply keeps_ret, _.
  - done.
Qed.

Lemma faults_use_response w0 t l w response :
  core id o request w0 t l w → response_ok (tset_specs (ec_tools (l_config l))) (lo_limits o) response →
  faults (use_response id o l response) w.
Proof.
  intros Hc [_ _ _ Hoff _]. unfold use_response. destruct (UsageAccumulator_add _ _) as [usage []]; [|done].
  destruct (tool_calls (resp_parts response)) as [|c cs] eqn:Ecalls.
  - destruct (no_tool_finish_Some (resp_finish_reason response)) as (path & invalid & -> & _).
    apply faults_bind; [apply keeps_ret, _|done|]. intros [path' []] w1 _; [by destruct path'|].
    by destruct path'.
  - rewrite <- Ecalls in *. unfold tool_round. destruct (_ && _).
    + match goal with |- context [settle_calls id o ?working ?i ?calls _ ?message] =>
        by destruct (settle_calls_spec id o i OutcomeFailed message calls working eq_refl) as (rs & -> & _)
      end.
    + apply faults_bind; [auto with exec..|]. intros [] w1 E.
      apply faults_bind; [auto with exec| |by intros [working [path|]] w2 _].
      apply faults_run_tool_batch.
      * eapply Forall_impl; [exact Hoff|]. intros c'. apply offered_enabled, Hc.
      * pose proof (keeps_publish_any calm) as Hk.
        match type of E with publish ?s w = _ => specialize (Hk s (λ w, conj (λ x, x) (λ x, x)) w) end. rewrite E in Hk. apply Hk, Hc.
Qed.

(** The invariant behind a quiet step, a reading of the deadline and a model call. *)
Lemma core_after_quiet {A} (m : exec A) w0 t l w :
  core id o request w0 t l w → keeps step_ok m → keeps calm m → quietly m →
  wp m w (λ _ w', core id o request w0 t l w') (λ _ _, True).
Proof.
  intros Hc Hk Hcm Hq. eapply wp_mono; [apply (wp_keeps step_ok), (wp_keeps calm); [done..|]| |done].
  - eapply (wp_quietly m w (λ _ w', quiet w w') (λ _ _, True)); [done..].
  - intros a w' [[Hqw Hcw] Hs]. eapply core_quiet; [done..|apply Hcw|done].
Qed.
Lemma core_after_deadline w0 t l w :
  core id o request w0 t l w →
  wp (turn_deadline (lo_deadline o)) w (λ _ w', core id o request w0 t l w') (λ _ _, True).
Proof.
  intros Hc. eapply wp_mono; [apply (wp_keeps step_ok); [apply keeps_turn_deadline|apply turn_deadline_spec]| |done].
  intros turn w' [(Hq & Hcalm & _) Hs]. eapply core_quiet; [done..|apply Hcalm|done].
Qed.
Lemma core_after_model w0 t l w k req turn :
  core id o request w0 t l w →
  wp (run_model id k o (l_config l) req turn) w
    (λ r w', (∃ t', core id o request w0 (t ++ t') l w') ∧
       match r with Ok resp => response_ok (mr_tools req) (lo_limits o) resp | Err _ => True end) (λ _ _, True).
Proof.
  intros Hc. eapply wp_mono; [apply (wp_keeps step_ok), (wp_keeps calm);
    [by apply keeps_run_model; [apply _|]..|by apply run_model_spec]| |done].
  intros r w' [[(t' & Ht & Ha & Hr) Hcalm] Hs]. split; [|by destruct r].
  exists t'. eapply core_silent; [done..|apply Hcalm|done|by eapply attempts_silent].
Qed.
Lemma core_after_prompt w0 t l w k turn :
  core id o request w0 t l w →
  wp (prepare_prompt o k turn) w (λ _ w', ∃ t', core id o request w0 (t ++ t') l w' ∧ silent t') (λ _ _, True).
Proof.
  intros Hc. eapply wp_mono; [apply (wp_keeps step_ok); [|apply prepare_prompt_spec]| |done].
  - unfold prepare_prompt. apply keeps_bind; [apply _| |intros; apply keeps_ret, _].
    apply keeps_run_port_call; [apply _|apply keeps_pop_prompt|apply keeps_ret, _|done].
  - intros p w' [(Hi & _ & t' & Ht & Hsil) Hs]. exists t'. split; [|done].
    exact (core_silent id o request w0 t l w t' w' Hc Hs Hi Ht Hsil).
Qed.

Lemma faults_issue_request w0 t l w req :
  core id o request w0 t l w → at_boundary t l → mr_tools req = tset_specs (ec_tools (l_config l)) →
  faults (issue_request id o l req) w.
Proof.
  intros Hc Hb Htools. unfold issue_request. set (revision := default _ _).
  destruct (core_issue id o request w0 t l w revision Hc Hb eq_refl) as (Hc1 & _).
  apply faults_bind; [auto with exec..|]. intros [] w1 [= <-]. apply faults_bind; [auto with exec..|]. intros [] w2 [= <-].
  cbn [l_request_index l_config] in *. set (l1 := mkLocals _ _ _ _ _ _ _ _ _) in *.
  eapply faults_wp_bind; [eapply core_after_quiet; [exact Hc1|apply keeps_emit, _|apply keeps_emit, _|auto with exec]|auto with exec..|].
  intros [] w3 Hc3. eapply faults_wp_bind; [eapply core_after_quiet;
    [exact Hc3|apply keeps_publish|by apply (keeps_publish_any calm)|apply quietly_publish]|auto with exec..|].
  intros [] w4 Hc4. eapply faults_wp_bind; [by apply core_after_deadline|auto with exec..|].
  intros turn w5 Hc5. eapply faults_wp_bind; [by apply (core_after_model w0 _ l1 _ (l_request_index l) req turn Hc5)|auto with exec..|].
  intros [response|driver] w6 [[t' Hc6] Hr].
  - rewrite Htools in Hr. by eapply faults_use_response.
  - apply faults_quietly. unfold map_model_failure. quietly_tac.
Qed.

Lemma faults_iteration w0 t l w :
  core id o request w0 t l w → at_boundary t l → faults (iteration id o l) w.
Proof.
  intros Hc Hb. unfold iteration.
  eapply faults_wp_bind; [eapply core_after_quiet; [exact Hc|apply keeps_is_cancelled, _|apply keeps_is_cancelled, _|auto with exec]
    |auto with exec..|]. intros [] w1 Hc1; [done|].
  eapply faults_wp_bind; [eapply core_after_quiet; [exact Hc1|apply keeps_past_deadline, _|apply keeps_past_deadline, _|
    apply quietly_past_deadline]|auto with exec|apply faults_quietly, quietly_past_deadline|]. intros [] w2 Hc2; [done|].
  eapply faults_wp_bind; [by apply take_boundary_spec|auto with exec|apply faults_take_boundary|].
  intros [[l1 taken] replaced] w3 (_ & inputs & Htf & Hc3). pose proof (boundary_index _ _ _ _ _ Hb Htf) as Hb3. simpl in Hc3, Hb3.
  eapply faults_wp_bind; [eapply core_after_quiet;
    [exact Hc3|apply keeps_publish|by apply (keeps_publish_any calm)|apply quietly_publish]|auto with exec..|].
  intros [] w4 Hc4. eapply faults_wp_bind; [by apply core_after_deadline|auto with exec..|]. intros turn w5 Hc5.
  eapply faults_wp_bind; [exact (core_after_prompt w0 _ l1 w5 (l_request_index l1) turn Hc5)|auto with exec|apply faults_prepare_prompt|].
  intros [messages|path] w6 (t' & Hc6 & Hsil); [|done].
  eapply faults_wp_bind; [by apply take_boundary_spec|auto with exec|apply faults_take_boundary|].
  intros [[l2 taken2] replaced2] w7 (_ & inputs2 & Htf2 & Hc7). simpl in Hc7.
  pose proof (boundary_index _ _ _ _ _ (at_boundary_silent _ _ _ Hsil Hb3) Htf2) as Hb7. simpl in Hb7. destruct taken2.
  - apply faults_bind; [destruct replaced2; [auto with exec|apply keeps_ret, _]|destruct replaced2; [auto with exec|done]|done].
  - destruct Htf2 as (_ & _ & _ & _ & _ & _ & _ & Hsame). destruct (Hsame eq_refl) as [_ Hcfg].
    destruct (build_model_request messages (l_config l1)) as [req|e] eqn:Ebuild; [|done].
    eapply faults_issue_request; [exact Hc7|done|]. rewrite Hcfg. by eapply build_model_request_tools.
Qed.

Lemma faults_run_loop_turns w0 fuel : ∀ t l w,
  core id o request w0 t l w → at_boundary t l → (polls w < fuel)%nat → faults (run_loop_turns id o l fuel) w.
Proof.
  induction fuel as [|fuel IH]; intros t l w Hc Hb Hf; [lia|]. cbn [run_loop_turns].
  eapply faults_wp_bind; [by apply iteration_spec|apply drained_iteration|by eapply faults_iteration|].
  intros [l1|l1 path discarded] w1 [[t' Ht] Hp]; [|done]. destruct Ht as [Hc1 Hb1]. eapply IH; [exact Hc1|done|lia].
Qed.

(** ** The body of a loop *)

(** From the end of the loop on, a panic comes after the loop is sealed. *)
Lemma ending_sealed path working usage requests last_issued rounds discarded w :
  running w →
  wp (report ← finish_loop id path working usage requests last_issued rounds; drop_config discarded;; host_sync;; mret report)
    w (λ _ _, True) (λ _ w', ¬ running w').
Proof.
  intros Hr. eapply wp_bind; [eapply wp_mono; [by apply finish_loop_spec|intros r w1 Hx; exact Hx|done]|].
  intros report w1 (Hd & _).
  eapply wp_bind; [eapply wp_mono; [by apply drop_config_delivered|intros r w2 Hx; exact Hx|done]|].
  intros [] w2 Hd2. eapply wp_mono; [by apply last_sync_spec|done|].
  intros b w3 [_ ((Hs & _) & _)] [Hlt _]. rewrite Hs in Hlt. by apply N.lt_irrefl in Hlt.
Qed.

(** A body that panics before its end has somebody to blame. *)
Theorem body_blamed w0 w1 :
  ready request w0 → run_loop_inner id o request w0 = Panicked w1 → running w1 → blamed w0 w1.
Proof.
  intros Hr E Hrun. pose proof (core_entered id o request w0 Hr) as Hc.
  change (run_loop_inner id o request w0) with
    (('(l, path, discarded) ← run_loop_turns id o (start_locals id request) (S (length (w_prompt_polls (entered id w0))));
      report ← finish_loop id path (l_working l) (l_usage l) (l_requests l) (l_last_issued l) (l_tool_rounds l);
      drop_config discarded;; host_sync;; mret report) (entered id w0)) in E.
  assert (drained w0 (entered id w0)) as Hd by (unfold drained, entered; rewrite tick_sync; simpl; by rewrite tick_sync).
  eapply blamed_drained; [exact Hd|].
  pose proof (run_loop_turns_spec id o request options_valid w0 _ _ _ _ Hc ltac:(done) ltac:(by apply Nat.lt_succ_diag_r)) as Hw.
  pose proof (faults_run_loop_turns w0 _ _ _ _ Hc ltac:(done) ltac:(by apply Nat.lt_succ_diag_r)) as Hf.
  unfold wp, faults, polls in Hw, Hf. unfold mbind at 1, exec_bind at 1 in E.
  destruct (run_loop_turns _ _ _ _ _) as [[[l path] discarded] w3|w3|w3|]; try done; [|by injection E as <-].
  destruct Hw as (t & Hc3 & _). exfalso.
  pose proof (ending_sealed path (l_working l) (l_usage l) (l_requests l) (l_last_issued l) (l_tool_rounds l) discarded
    w3 (co_running _ _ _ _ _ _ _ Hc3)) as Hend. unfold wp in Hend. by rewrite E in Hend.
Qed.

(** What the report of a panic looks like, and when there is one: the body of the loop
    panicked before its end, and not by itself. *)
Definition crashed (w0 : World) (report : LoopReport) : Prop :=
  ∃ w1 failed, run_loop_inner id o request w0 = Panicked w1 ∧ running w1 ∧ blamed w0 w1 ∧
    report = crash_report id failed ∧ lf_kind failed = FkInternal.

Lemma crashed_report w0 report : crashed w0 report → ∃ failed, report = crash_report id failed ∧ lf_kind failed = FkInternal.
Proof. intros (w1 & failed & _ & _ & _ & Hr & Hk). by exists failed. Qed.
End runner.
