(* ===== verification/RunnerSpec.v ===== *)
(** * What a loop guarantees

    The properties of [run_loop], from the invariant of [RunnerInv] and the causes of
    a panic of [Blame]. *)

From S2P Require Import Prelude Text Json Ids Limits BTree ToolTypes ToolSet ModelError Message Request Failure Assembler History Prompt Event Control Options World Steps PortCall Driver RunnerTools Runner Accounts RunnerInv Blame.
Local Open Scope N_scope.

Section spec.
Context `{SerdeJson} (id : LoopId) (o : LoopOptions) (request : LoopRequest).
Hypothesis options_valid : options_ok o.

(** A loop reports what it did, unless its body crashed. *)
Definition reports (w0 : World) (t : list HostCall) (report : LoopReport) : Prop :=
  report_of id o request w0 t report ∨ crashed id o request w0 report.

Lemma run_loop_spec w0 :
  ready request w0 →
  wp (run_loop id o request) w0
    (λ report w', ∃ t, delivered w0 t report w' ∧ unpublished t ∧ reports w0 t report)
    (λ b w', b = false ∧ turn_stop w0 w').
Proof.
  intros Hr. unfold run_loop, wp, catch_unwind. pose proof (run_loop_inner_spec id o request options_valid w0 Hr) as Hw.
  unfold wp in Hw. destruct (run_loop_inner id o request w0) as [report w'|w'|w'|] eqn:E; try done.
  - destruct Hw as (t & Hd & Hu & Hrep). exists t. split; [done|]. split; [done|by left].
  - destruct Hw as [Hs|(_ & report & t & Hd & Hu & Hrep)].
    + pose proof (panic_report_spec id w0 w' Hs) as Hp. unfold wp in Hp.
      destruct (panic_report id w') as [r w1|w1|w1|]; try done.
      destruct Hp as (t & failed & -> & Hd & Hu & Hk). exists t. split; [done|]. split; [done|]. right.
      exists w', failed. split_and!; try done; try apply Hs. by eapply body_blamed; [| |exact E|apply Hs].
    + pose proof (reseal_spec id w0 t report w' Hd) as Hp. unfold wp in Hp.
      destruct (panic_report id w') as [r w1|w1|w1|]; try done.
      destruct Hp as [-> Hd1]. exists t. split; [done|]. split; [done|by left].
  - destruct Hw as [Hs|[[=] _]]. done.
Qed.
End spec.

(** ** Properties *)

Section properties.
Context `{SerdeJson} (id : LoopId) (o : LoopOptions) (request : LoopRequest) (w : World).
Hypothesis options_valid : options_ok o.
Hypothesis start : ready request w.

Lemma run_loop_Done report w' :
  run_loop id o request w = Done report w' →
  ∃ t, delivered w t report w' ∧ unpublished t ∧ reports id o request w t report.
Proof.
  intros E. pose proof (run_loop_spec id o request options_valid w start) as Hw.
  unfold wp in Hw. by rewrite E in Hw.
Qed.

(** C1: a loop ends exactly once. Whatever the host and the other threads do, the
    runner never panics and never exhausts its turns; when it returns, the control
    plane is sealed and refuses updates, the token has fired, the last state shown
    is Finished, and exactly one report was published: the one returned, which the
    completion channel holds. Until then nothing is published. *)
Theorem run_loop_delivers_once :
  match run_loop id o request w with
  | Done report w' => ∃ t, delivered w t report w' ∧ unpublished t
  | Paused w' => running w' ∧ ∃ t, w_trace w' = w_trace w ++ t ∧ unpublished t
  | Panicked _ | OutOfFuel => False
  end.
Proof.
  pose proof (run_loop_spec id o request options_valid w start) as Hw. unfold wp in Hw.
  destruct (run_loop id o request w) as [report w'|w'|w'|]; try done.
  - destruct Hw as (t & Hd & Hu & _). eauto.
  - by destruct Hw.
  - by destruct Hw.
Qed.

(** C13: the report accounts for the requests. It counts the model requests issued,
    their indices are 0, 1, 2, ... without a gap (saturating at the end of u32), the
    final revision is that of the last request issued (a configuration that was only
    taken does not show). Every request but the last had its tool round and no other
    round was counted; so a limit of k > 0 rounds bounds the requests by k + 1. The
    one exception is a body that panicked before its end, for which host code that no
    port isolates is to blame (a destructor or the taking of the inputs), or a clock
    within a day of the end of its range: the report of the panic says that no request
    was issued. *)
Theorem run_loop_accounts report w' :
  run_loop id o request w = Done report w' →
  crashed id o request w report ∨
  ∃ t, w_trace w' = w_trace w ++ t ++ [HcPublish report] ∧
    lr_requests report = N.min (N.of_nat (length (issues t))) u32_MAX ∧
    (fst <$> issues t) = indices (length (issues t)) ∧
    lr_final_config_revision report = default INITIAL_REVISION (last (snd <$> issues t)) ∧
    lr_tool_rounds report ≤ N.min (N.of_nat (length (issues t))) u64_MAX ≤ lr_tool_rounds report + 1 ∧
    (lo_max_tool_rounds o ≠ 0 → lr_tool_rounds report ≤ lo_max_tool_rounds o ∧
       N.of_nat (length (issues t)) ≤ lo_max_tool_rounds o + 1).
Proof.
  intros E. destruct (run_loop_Done report w' E) as (t & (_ & _ & _ & Ht) & _ & [[]|Hc]); [right|by left].
  exists t. split_and!; try done; try apply ro_follow. intros Hm. specialize (ro_rounds Hm). split; [done|].
  pose proof (oo_rounds o options_valid) as Hmax. assert (MAX_TOOL_ROUNDS + 1 < u64_MAX) by done.
  unfold rounds_follow in *. lia.
Qed.

(** C4: the history a loop appends is well formed. The appended items are the prompt,
    then the inputs the host had to hand over, from the first one on, in their order,
    none lost and none twice, interleaved with assistant items each followed by exactly
    one result per tool call, in order; a completed loop ends with an assistant item
    without tool calls that finished normally. The one exception is a body that
    panicked before its end, for which host code that no port isolates is to blame (a
    destructor or the taking of the inputs), or a clock within a day of the end of its
    range: the report of the panic appends nothing, and the inputs taken are lost. *)
Theorem run_loop_history report w' :
  run_loop id o request w = Done report w' →
  crashed id o request w report ∨
  segments_ok id o (lr_appended report) ∧
  (∃ t, w_trace w' = w_trace w ++ t ++ [HcPublish report] ∧
    user_inputs (lr_appended report) = (KindPrompt, lq_input request) :: ((KindSteering,.) <$> takes t) ∧
    takes t `prefix_of` concat (w_inputs w)) ∧
  (lr_outcome report = OutCompleted → ∃ pre a, lr_appended report = pre ++ [HiAssistant a] ∧
    ah_finish_reason a = FinishStop ∧ tool_calls (ah_content a) = []).
Proof.
  intros E. destruct (run_loop_Done report w' E) as (t & (_ & _ & _ & Ht) & _ & [[]|Hc]); [right|by left].
  split; [done|]. split; [by exists t|done].
Qed.

(** C14: the report accounts for the usage. The turns of the loop end on a path, which
    gave the report its outcome (a cancellation that won may override it). The usage
    of the report is the checked sum of the usage of the responses in the appended
    history: a response is recorded and counted, or neither. If the path is the
    runner's own refusal of a response (without tool calls, with a finish reason that
    no answer has), that one response is counted and not recorded. A completed loop
    counts what it recorded. The one exception is a body that panicked before its end,
    with host code that no port isolates or the end of the clock to blame: the report
    of the panic counts and records nothing. *)
Theorem run_loop_usage report w' :
  run_loop id o request w = Done report w' →
  crashed id o request w report ∨
  ∃ path, ended id o request w path report ∧ usage_told path report ∧
    (lr_outcome report = OutCompleted →
     accumulate Usage_default (usages (lr_appended report)) = Ok (lr_usage report)).
Proof.
  intros E. destruct (run_loop_Done report w' E) as (t & _ & _ & [[]|Hc]); [right|by left].
  destruct ro_usage as (path & Hp & Hu). exists path. split; [done|]. split; [done|].
  intros Ho. destruct Hp as [Hout _], Hu as [?|(u & (? & ? & _ & _ & _ & ->) & _)]; [done|].
  rewrite Ho in Hout. by apply outcome_by_completed in Hout.
Qed.

(** C15: the loop's history can be issued again. Whatever the loop appended, if the
    default projection gives a message for every item, then a request can be built
    from these messages exactly when the user texts among them are legal message
    texts: no tool call is left without its result, and no result without its call.
    (A user text the host took in, with a carriage return say, is the one thing that
    can make the history of a loop unusable.) *)
Theorem run_loop_history_reissues report w' ms :
  run_loop id o request w = Done report w' →
  Forall2 (λ item m, project_item item = Ok m) (lr_appended report) ms → ms ≠ [] → reissues ms.
Proof.
  intros E Hp Hn. apply exchange_reissues; [done|]. intros Hu.
  destruct (run_loop_Done report w' E) as (t & _ & _ & [[_ (segs & Hsegs & HF)]|(failed & -> & _)%crashed_report]).
  - rewrite Hsegs in Hp. rewrite <- (app_nil_r ms). by eapply project_segments; [..|constructor].
  - simpl in Hp. apply Forall2_nil_inv_l in Hp as ->. constructor.
Qed.
End properties.

Section endings.
Context `{SerdeJson} (id : LoopId) (o : LoopOptions).

(** C2: cancellation is authoritative. If a cancellation has won by the time the
    runner comes to its end, the report says cancelled for that reason, whatever
    the runner was about to report (a completion included); otherwise it reports
    the path's own outcome or a cancellation that still won the race. The end
    itself never panics and never waits. (The report of a body that panicked before
    this end does not come this way: it says failed.) *)
Theorem cancellation_is_authoritative path working usage requests last_issued rounds w :
  running w →
  match finish_loop id path working usage requests last_issued rounds w with
  | Done report w' => end_outcome w path (lr_outcome report) ∧ delivered w [] report w'
  | _ => False
  end.
Proof.
  intros Hr. pose proof (finish_loop_spec id w path working usage requests last_issued rounds Hr) as Hw.
  unfold wp in Hw. destruct (finish_loop _ _ _ _ _ _ _ w) as [report w'|w'|w'|]; try done.
  destruct Hw as (Hd & outcome & Ho & ->). done.
Qed.

(** How a loop ends that was cancelled before it took a step. *)
Definition cancelled_end (request : LoopRequest) (w : World) (report : LoopReport) (w' : World) : Prop :=
  delivered w [] report w' ∧
  lr_outcome report = OutCancelled (cancel_reason_value (c_state (w_ctl w))) ∧
  lr_appended report = [HiUser (mkUserHistory id KindPrompt (lq_input request))].

(** The turn such a loop starts with is its last: it breaks off at the token. *)
Lemma cancelled_turn l w : fired w →
  wp (run_loop_turns id o l (S (length (w_prompt_polls w)))) w
    (λ r w', r = (l, FpCancelled, None) ∧ w' = tick w) (λ _ _, False).
Proof.
  intros Hf. cbn [run_loop_turns]. unfold iteration.
  apply (wp_bind _ _ _ (λ r w', r = TurnBreak l FpCancelled None ∧ w' = tick w)).
  - apply wp_atomically. cbn [fst snd]. pose proof (ctl_rel_tick calm w) as [_ Hc]. rewrite (Hc Hf). by apply wp_ret.
  - intros r w' [-> ->]. by apply wp_ret.
Qed.

Lemma cancelled_inner request w :
  ready request w → fired w → c_state (w_ctl w) ≠ STATE_NONE →
  wp (run_loop_inner id o request) w (cancelled_end request w)
    (λ b w', b = true ∧ ∃ report, cancelled_end request w report w').
Proof.
  intros Hr Hf Hn. unfold run_loop_inner.
  apply wp_atomically. cbn [fst snd]. set (w1 := sink_apply (tick w) _).
  apply wp_atomically. cbn [fst snd]. set (w2 := tick w1).
  assert (step_ok w (tick w2)) as [Hb3 _].
  { transitivity (tick w); [apply tick_step|]. transitivity w1; [by apply rr_frame|].
    transitivity w2; apply tick_step. }
  assert (quiet w (tick w2)) as [Ht3 _].
  { transitivity (tick w); [apply tick_quiet|]. transitivity w1; [done|]. transitivity w2; apply tick_quiet. }
  assert (fired w2) as Hf2 by (apply (ctl_rel_tick calm); by apply (ctl_rel_tick calm w)).
  assert (c_state (w_ctl (tick w2)) = c_state (w_ctl w)) as Hs3
    by (do 2 (apply tick_marker; [done|]); by apply (tick_marker _ w)).
  eapply wp_bind; [eapply wp_mono; [by apply cancelled_turn|intros r w' Hx; exact Hx|done]|].
  intros r w' [-> ->].
  eapply wp_bind; [eapply wp_mono; [apply finish_loop_spec; apply Hb3, Hr|intros r w4 Hx; exact Hx|done]|].
  intros report w4 (Hd & outcome & [_ Hout] & Hrep). rewrite Hs3 in Hout. specialize (Hout Hn).
  apply (delivered_from w []) in Hd; [|by rewrite app_nil_r].
  assert (∀ w', delivered w [] report w' → cancelled_end request w report w') as Hgood
    by (intros w' Hd'; by subst report outcome).
  apply (wp_bind _ _ _ (λ _ w', w' = w4)); [by apply wp_ret|]. intros [] w' ->.
  eapply wp_mono; [by apply (last_sync_spec w [])| |].
  - intros r w' [-> Hd']. by apply Hgood.
  - intros b w' [-> Hd']. split; [done|]. exists report. by apply Hgood.
Qed.

(** C22: a cancelled loop ends at once. If the token has fired and a cancellation
    has won before the runner starts, the runner returns without calling the
    prompt provider, the model, the policy or a tool and without taking an input,
    and reports that cancellation, with nothing but the prompt appended. *)
Theorem cancelled_loop_ends request w :
  ready request w → fired w → c_state (w_ctl w) ≠ STATE_NONE →
  ∃ report w', run_loop id o request w = Done report w' ∧
    w_trace w' = w_trace w ++ [HcPublish report] ∧
    lr_outcome report = OutCancelled (cancel_reason_value (c_state (w_ctl w))) ∧
    lr_appended report = [HiUser (mkUserHistory id KindPrompt (lq_input request))].
Proof.
  intros Hr Hf Hn. pose proof (cancelled_inner request w Hr Hf Hn) as Hw.
  assert (∀ report w', cancelled_end request w report w' → run_loop id o request w = Done report w' →
    ∃ report w', run_loop id o request w = Done report w' ∧
      w_trace w' = w_trace w ++ [HcPublish report] ∧
      lr_outcome report = OutCancelled (cancel_reason_value (c_state (w_ctl w))) ∧
      lr_appended report = [HiUser (mkUserHistory id KindPrompt (lq_input request))]) as Hend.
  { intros report w' [(_ & _ & _ & Ht) Ho] E. exists report, w'. done. }
  unfold wp in Hw. destruct (run_loop_inner id o request w) as [report w'|w'|w'|] eqn:E; [| |by destruct Hw|done].
  - apply (Hend report w' Hw). unfold run_loop, catch_unwind. by rewrite E.
  - destruct Hw as (_ & report & Hg & Hg'). pose proof (reseal_spec id w [] report w' Hg) as Hp. unfold wp in Hp.
    destruct (panic_report id w') as [r w1|w1|w1|] eqn:Ep; try done. destruct Hp as [-> Hd].
    apply (Hend report w1); [by split|]. unfold run_loop, catch_unwind. by rewrite E, Ep.
Qed.

Lemma started_ready runtime request now entropy control sink w :
  AgentLoop_start runtime request o now entropy = Some (Ok (id, control, sink)) →
  w_ctl w = control → Forall (Forall op_ok) (w_env w) → config_ok (lq_config request) → ready request w.
Proof.
  unfold AgentLoop_start. destruct runtime; [|done]. cbn [negb].
  destruct (LoopOptions_validate o now); [|done].
  destruct (validate_against_limits (lq_config request) (lo_limits o)) as [[[]|]|]; try done. cbn.
  destruct (_ || _); [done|]. destruct (LoopId_new entropy) as [[lid|] rest]; try done. cbn.
  unfold LoopControl_new. destruct (LoopEventSink_channel _) as [s|]; cbn; [|done].
  intros [= <- <- <-] Hw Henv Hcfg. split; unfold running, idle, configs_ok; rewrite ?Hw; done.
Qed.

(** What a started loop starts from. When [AgentLoop::start] succeeds, the
    options are within every bound and the deadline ahead, the configuration fits
    the limits and the input is non-empty and within its limit; the control plane
    accepts updates and nobody has cancelled it, and a runner that is given it in
    a world whose configurations were built by the crate is ready to run. *)
Theorem agent_loop_start_ready runtime request now entropy control sink :
  AgentLoop_start runtime request o now entropy = Some (Ok (id, control, sink)) →
  options_ok o ∧ (∀ deadline, lo_deadline o = Some deadline → now < deadline) ∧
  validate_against_limits (lq_config request) (lo_limits o) = Some (Ok ()) ∧
  1 ≤ str_len (as_text (lq_input request)) ≤ max_user_input_bytes (lo_limits o) ∧
  c_id control = id ∧ is_active control = true ∧ c_accepting_updates control = true ∧
  c_cancel control = false ∧
  ∀ w, w_ctl w = control → Forall (Forall op_ok) (w_env w) → config_ok (lq_config request) → ready request w.
Proof.
  intros E. pose proof (λ w, started_ready runtime request now entropy control sink w E) as Hready. unfold AgentLoop_start in E. destruct runtime; [|done]. cbn [negb] in E.
  destruct (LoopOptions_validate o now) as [[]|] eqn:Ev; [|done].
  apply LoopOptions_validate_ok in Ev as [Ho Hd].
  destruct (validate_against_limits (lq_config request) (lo_limits o)) as [[[]|]|]; try done. cbn in E.
  destruct (_ || _) eqn:Ei; [done|]. apply orb_false_iff in Ei as [Ei1 Ei2]. bools.
  destruct (LoopId_new entropy) as [[lid|] rest]; try done. cbn in E.
  unfold LoopControl_new in E. destruct (LoopEventSink_channel _) as [s|]; cbn in E; [|done].
  injection E as <- <- <-. split_and!; try done. lia.
Qed.
End endings.
