(* ===== verification/Cooperative.v ===== *)
(** * A host that does its part

    Everything the other files show of a loop holds whatever the host does; this one
    shows what the loop does when the host behaves. [serves m h a h']: with the host
    in the state [h] (no other thread acts, nothing panics, the clock stands) [m]
    returns [a] and leaves the host in [h']. A future resolves once its pending polls
    are used up ([resolves], [delivers]). [script] describes a whole conversation from
    the host's side: the answers to the prompts, the streams and the tools' results;
    [run_loop_completes] says that the loop gets through it and what it reports. *)

From S2P Require Import Prelude Text Json Ids Limits BTree ToolTypes ToolSet ModelError Message Request Failure Assembler History Prompt Event Control Options World Steps PortCall Driver RunnerTools Runner Accounts RunnerInv Blame RunnerSpec.
Local Open Scope N_scope.

Section cooperative.
Context `{SerdeJson}.

(** ** The host *)

Record Host := mkHost {
  h_now : N;
  h_cancel : bool;
  h_state : N;
  h_revision : N;
  h_prompts : list (poll (result PromptError (list ModelMessage)));
  h_starts : list (model_poll (result ModelError ()));
  h_streams : list (model_poll (option (result ModelError ModelEvent)));
  h_policies : list (poll (result ToolPolicyError ToolDecision));
  h_tools : list tool_poll;
  h_inputs : list (list UserInput);
}.

Record at_host (h : Host) (w : World) : Prop := {
  at_env : w_env w = [];
  at_sync : w_sync w = [];
  at_inputs : w_inputs w = h_inputs h;
  at_pending : c_pending_config (w_ctl w) = None;
  at_now : w_now w = h_now h;
  at_cancel : c_cancel (w_ctl w) = h_cancel h;
  at_state : c_state (w_ctl w) = h_state h;
  at_revision : c_current_revision (w_ctl w) = h_revision h;
  at_prompts : w_prompt_polls w = h_prompts h;
  at_starts : w_start_polls w = h_starts h;
  at_streams : w_stream_polls w = h_streams h;
  at_policies : w_policy_polls w = h_policies h;
  at_tools : w_tool_polls w = h_tools h;
}.

Definition with_state_of (h : Host) cancel state revision : Host :=
  mkHost (h_now h) cancel state revision (h_prompts h) (h_starts h) (h_streams h) (h_policies h) (h_tools h) (h_inputs h).
Definition with_prompts (h : Host) polls : Host :=
  mkHost (h_now h) (h_cancel h) (h_state h) (h_revision h) polls (h_starts h) (h_streams h) (h_policies h) (h_tools h) (h_inputs h).
Definition with_starts (h : Host) polls : Host :=
  mkHost (h_now h) (h_cancel h) (h_state h) (h_revision h) (h_prompts h) polls (h_streams h) (h_policies h) (h_tools h) (h_inputs h).
Definition with_streams (h : Host) polls : Host :=
  mkHost (h_now h) (h_cancel h) (h_state h) (h_revision h) (h_prompts h) (h_starts h) polls (h_policies h) (h_tools h) (h_inputs h).
Definition with_policies (h : Host) polls : Host :=
  mkHost (h_now h) (h_cancel h) (h_state h) (h_revision h) (h_prompts h) (h_starts h) (h_streams h) polls (h_tools h) (h_inputs h).
Definition with_tools (h : Host) polls : Host :=
  mkHost (h_now h) (h_cancel h) (h_state h) (h_revision h) (h_prompts h) (h_starts h) (h_streams h) (h_policies h) polls (h_inputs h).
Definition with_inputs (h : Host) inputs : Host :=
  mkHost (h_now h) (h_cancel h) (h_state h) (h_revision h) (h_prompts h) (h_starts h) (h_streams h) (h_policies h) (h_tools h) inputs.

(** What the host hands over at its next boundary; past the end of the list, nothing. *)
Definition next_inputs (h : Host) : list UserInput := default [] (head (h_inputs h)).
Definition handed_over (h : Host) : Host := with_inputs h (tail (h_inputs h)).

Definition serves {A : Type} (m : exec A) (h : Host) (a : A) (h' : Host) : Prop :=
  ∀ w, at_host h w → ∃ w', m w = Done a w' ∧ at_host h' w'.

(** ** Rules *)

Lemma at_host_tick h w : at_host h w → tick w = w.
Proof. intros Hw. unfold tick. by rewrite (at_env _ _ Hw). Qed.

Lemma serves_ret {A} (a : A) h : serves (mret a) h a h.
Proof. intros w Hw. by exists w. Qed.
Lemma serves_bind {A B} (m : exec A) (k : A → exec B) h a h' b h'' :
  serves m h a h' → serves (k a) h' b h'' → serves (m ≫= k) h b h''.
Proof.
  intros Hm Hk w (w1 & E1 & H1)%Hm. destruct (Hk w1 H1) as (w2 & E2 & H2). exists w2.
  split; [|done]. apply exec_bind_Done. eauto.
Qed.
(** Of a value that is read and only shown, it does not matter what it is. *)
Lemma serves_any {A B} (f : World → World * A) (k : A → exec B) h h1 b h' :
  (∀ w, at_host h w → at_host h1 (f w).1) → (∀ a, serves (k a) h1 b h') → serves (atomically f ≫= k) h b h'.
Proof.
  intros Hf Hk w Hw. unfold mbind, exec_bind, atomically. rewrite (at_host_tick h w Hw). specialize (Hf w Hw).
  destruct (f w) as [w1 a]. by apply Hk.
Qed.
Lemma serves_catch {A} (m handler : exec A) h a h' : serves m h a h' → serves (catch_unwind m handler) h a h'.
Proof. intros Hm w (w' & E & Hw)%Hm. exists w'. unfold catch_unwind. by rewrite E. Qed.
Lemma serves_atomically {A} (f : World → World * A) h a h' :
  (∀ w, at_host h w → (f w).2 = a ∧ at_host h' (f w).1) → serves (atomically f) h a h'.
Proof.
  intros Hf w Hw. unfold atomically. rewrite (at_host_tick h w Hw). destruct (Hf w Hw) as [Ha Hw'].
  destruct (f w) as [w' a']. simpl in *. subst. by exists w'.
Qed.

(** A step that touches no field of the host. *)
Lemma at_host_frame h w w' :
  at_host h w →
  w_env w' = w_env w → w_sync w' = w_sync w → w_inputs w' = w_inputs w →
  c_pending_config (w_ctl w') = c_pending_config (w_ctl w) → w_now w' = w_now w →
  c_cancel (w_ctl w') = c_cancel (w_ctl w) → c_state (w_ctl w') = c_state (w_ctl w) →
  c_current_revision (w_ctl w') = c_current_revision (w_ctl w) →
  w_prompt_polls w' = w_prompt_polls w → w_start_polls w' = w_start_polls w →
  w_stream_polls w' = w_stream_polls w → w_policy_polls w' = w_policy_polls w →
  w_tool_polls w' = w_tool_polls w → at_host h w'.
Proof. intros []. split; congruence. Qed.

Lemma serves_is_cancelled h : serves is_cancelled h (h_cancel h) h.
Proof. apply serves_atomically. intros w Hw. split; [apply Hw|done]. Qed.
Lemma serves_now h : serves now h (h_now h) h.
Proof. apply serves_atomically. intros w Hw. split; [apply Hw|done]. Qed.
Lemma serves_with_sink op h : serves (with_sink op) h () h.
Proof. apply serves_atomically. intros w Hw. split; [done|]. by apply (at_host_frame h w). Qed.
Lemma serves_emit e h : serves (emit e) h () h.
Proof. apply serves_with_sink. Qed.
Lemma serves_record_loss n h : serves (record_loss n) h () h.
Proof. apply serves_with_sink. Qed.
Lemma serves_trace c h : serves (trace c) h () h.
Proof. intros w Hw. exists (add_trace w c). split; [done|]. by apply (at_host_frame h w). Qed.
Lemma serves_host_panics h : serves host_panics h false h.
Proof. apply serves_atomically. intros w Hw. rewrite (at_sync _ _ Hw). by split. Qed.
Lemma serves_host_sync h : serves host_sync h () h.
Proof. eapply serves_bind; [apply serves_host_panics|apply serves_ret]. Qed.
Lemma serves_expect {A} (a : A) h : serves (expect (Some a)) h a h.
Proof. apply serves_ret. Qed.
Lemma serves_publish s h : serves (publish s) h () h.
Proof.
  apply (serves_bind _ _ _ () h); [|apply serves_emit]. apply serves_atomically. intros w Hw. split; [done|]. by apply (at_host_frame h w).
Qed.
Lemma serves_take_inputs h : serves take_inputs h (next_inputs h) (handed_over h).
Proof.
  eapply serves_bind; [apply serves_host_sync|]. eapply serves_bind; [|eapply serves_bind; [apply serves_trace|apply serves_ret]].
  apply (serves_atomically _ h (next_inputs h) (handed_over h)). intros w Hw. unfold next_inputs, handed_over.
  pose proof (at_inputs _ _ Hw) as Hi. destruct (w_inputs w) as [|inputs rest] eqn:Ew; rewrite <- Hi; simpl;
    (split; [done|]); destruct Hw; by split.
Qed.
Lemma serves_turn_deadline d h :
  match d with Some deadline => True | None => h_now h + LOOP_HORIZON ≤ INSTANT_MAX end →
  serves (turn_deadline d) h (default (h_now h + LOOP_HORIZON) d) h.
Proof.
  intros Hd. unfold turn_deadline. destruct d as [d|]; [apply serves_ret|].
  eapply serves_bind; [apply serves_now|]. unfold instant_checked_add. rewrite checked_add_exact by done. apply serves_expect.
Qed.
End cooperative.

#[export] Hint Resolve serves_ret serves_is_cancelled serves_now serves_emit serves_record_loss serves_trace
  serves_host_panics serves_host_sync serves_expect serves_publish : exec.

(** One step whose result is known by a hint. *)
Ltac serves_step := eapply serves_bind; [solve [eauto with exec]|cbv beta].

(** ** Calls into the host *)

(** The polls of a future that resolves: [seen] is what the caller sees of a poll. *)
Inductive resolves {P T : Type} (seen : P → poll T → Prop) (t : T) : list P → list P → Prop :=
| ResolvesNow p rest : seen p (PollReady t) → resolves seen t (p :: rest) rest
| ResolvesLater p polls rest : seen p PollPending → resolves seen t polls rest → resolves seen t (p :: polls) rest.

Section port.
Context `{SerdeJson} {T E P : Type}.
Context (pop : World → World * poll (result E T)) (on_pending : exec ()) (left : World → nat).
Context (seen : P → poll (result E T) → Prop) (put : Host → list P → Host).
Hypothesis pop_serves : ∀ h p polls q, seen p q → serves (atomically pop) (put h (p :: polls)) q (put h polls).
Hypothesis pending_serves : ∀ h, serves on_pending h () h.
Hypothesis left_all : ∀ h polls w, at_host (put h polls) w → left w = length polls.
Hypothesis put_frame : ∀ h polls, h_cancel (put h polls) = h_cancel h ∧ h_now (put h polls) = h_now h.

Lemma serves_port_wait h deadline r polls rest :
  resolves seen r polls rest → h_cancel h = false → h_now h < deadline → ∀ n, (length polls ≤ n)%nat →
  serves (port_wait pop on_pending deadline n) (put h polls) (WReady r) (put h rest).
Proof.
  intros Hr Hc Hd.
  induction Hr as [p rest Hs|p polls rest Hs Hr IH]; intros [|n] Hn; simpl in Hn; try lia; cbn [port_wait].
  - eapply serves_bind; [apply serves_is_cancelled|]. rewrite (proj1 (put_frame _ _)), Hc.
    eapply serves_bind; [apply serves_now|]. rewrite (proj2 (put_frame _ _)), (proj2 (N.leb_gt _ _) Hd).
    eapply serves_bind; [by apply pop_serves|]. apply serves_ret.
  - eapply serves_bind; [apply serves_is_cancelled|]. rewrite (proj1 (put_frame _ _)), Hc.
    eapply serves_bind; [apply serves_now|]. rewrite (proj2 (put_frame _ _)), (proj2 (N.leb_gt _ _) Hd).
    eapply serves_bind; [by apply pop_serves|]. eapply serves_bind; [apply pending_serves|]. apply IH. lia.
Qed.

(** A call whose future resolves in time returns what it resolved to. *)
Lemma serves_run_port_call h call turn timeout r polls rest :
  resolves seen r polls rest → h_cancel h = false → h_now h < turn → 0 < timeout → h_now h + timeout ≤ INSTANT_MAX →
  serves (run_port_call pop on_pending left call turn timeout) (put h polls) (PcReturned r) (put h rest).
Proof.
  intros Hr Hc Ht Hto Hfit. unfold run_port_call.
  eapply serves_bind; [apply serves_is_cancelled|]. rewrite (proj1 (put_frame _ _)), Hc.
  eapply serves_bind; [apply serves_now|]. rewrite (proj2 (put_frame _ _)).
  set (d := if turn <=? h_now h + timeout then mkEffectiveDeadline turn turn DsTurn
            else mkEffectiveDeadline (h_now h + timeout) (h_now h + timeout) DsPort).
  rewrite (proj2 (effective_deadline_from_Ok (h_now h) turn timeout d) (conj Hfit eq_refl)).
  assert (h_now h < ed_tokio d) as Hd by (unfold d; destruct (turn <=? _); simpl; lia).
  eapply serves_bind; [apply serves_now|]. rewrite (proj2 (put_frame _ _)), (proj2 (N.leb_gt _ _) Hd).
  serves_step. serves_step.
  apply (serves_bind _ _ _ (length polls) (put h polls)).
  { apply serves_atomically. intros w Hw. split; [|done]. simpl. unfold patience.
    rewrite (left_all h polls w Hw), (at_env _ _ Hw). simpl. lia. }
  eapply serves_bind; [by apply serves_port_wait|]. serves_step. serves_step. apply serves_ret.
Qed.
End port.

Section host_calls.
Context `{SerdeJson}.

(** [prompts], [policies] and [tools]: the provider's future, the policy's and a tool's. *)
Lemma serves_prompt h call turn timeout r polls rest :
  resolves eq r polls rest → h_cancel h = false → h_now h < turn → 0 < timeout → h_now h + timeout ≤ INSTANT_MAX →
  serves (run_port_call pop_prompt (mret ()) (λ w, length (w_prompt_polls w)) call turn timeout)
    (with_prompts h polls) (PcReturned r) (with_prompts h rest).
Proof.
  apply serves_run_port_call; [|intros; apply serves_ret|by intros ??? [_ _ _ _ _ _ _ _ -> _ _ _ _]|done].
  intros h' p polls' q <-. apply (serves_atomically _ _ p). intros w Hw. unfold pop_prompt.
  rewrite (at_prompts _ _ Hw). simpl. split; [done|]. destruct Hw. by split.
Qed.

Lemma serves_policy h call turn timeout r polls rest :
  resolves eq r polls rest → h_cancel h = false → h_now h < turn → 0 < timeout → h_now h + timeout ≤ INSTANT_MAX →
  serves (run_port_call pop_policy (mret ()) (λ w, length (w_policy_polls w)) call turn timeout)
    (with_policies h polls) (PcReturned r) (with_policies h rest).
Proof.
  apply serves_run_port_call; [|intros; apply serves_ret|by intros ??? [_ _ _ _ _ _ _ _ _ _ _ -> _]|done].
  intros h' p polls' q <-. apply (serves_atomically _ _ p). intros w Hw. unfold pop_policy.
  rewrite (at_policies _ _ Hw). simpl. split; [done|]. destruct Hw. by split.
Qed.

(** The progress a tool emits reaches the event queue; the host does not see it. *)
Lemma at_host_progress h call_id ps : ∀ w,
  at_host h w → at_host h (foldl (emit_progress call_id) w ps).
Proof.
  induction ps as [|p ps IH]; intros w Hw; [done|]. apply IH. rewrite emit_progress_eq.
  destruct (is_err _); [done|]. destruct (_ <? _); by apply (at_host_frame h w).
Qed.
Lemma serves_record_tool_dropped h : serves record_tool_dropped h () h.
Proof.
  apply (serves_any _ _ _ h); [|intros dropped; apply serves_record_loss].
  intros w Hw. by apply (at_host_frame h w).
Qed.
#[local] Hint Resolve serves_record_tool_dropped : exec.

(** Progress that is forwarded, or none, whatever is in the channel. *)
Lemma serves_forward id k h {B} (rest : bool → exec B) b h' :
  (∀ more, serves (rest more) h b h') → serves (forward_tool_progress id k ≫= rest) h b h'.
Proof.
  intros Hrest w Hw. unfold forward_tool_progress, mbind at 1, exec_bind at 1, mbind at 1, exec_bind at 1, atomically.
  rewrite (at_host_tick h w Hw). destruct (w_tool_queue w) as [|[call_id progress] queue]; [by apply Hrest|].
  assert (serves (record_tool_dropped;; emit (LeToolProgress id k call_id progress);; mret true) h true h) as Hs
    by (repeat serves_step; apply serves_ret).
  destruct (Hs (set_tool_queue w queue (w_tool_dropped w))) as (w' & E & Hw'); [by apply (at_host_frame h w)|].
  rewrite E. by apply Hrest.
Qed.
Lemma serves_drain_tool_progress id k n : ∀ h, serves (drain_tool_progress id k n) h () h.
Proof.
  induction n as [|n IH]; intros h; [apply serves_ret|]. cbn [drain_tool_progress]. apply serves_forward.
  intros []; [apply IH|apply serves_ret].
Qed.
Lemma serves_after_tool id k h : serves (after_tool id k) h () h.
Proof.
  unfold after_tool. serves_step. apply (serves_any _ _ _ h); [done|]. intros n. apply serves_drain_tool_progress.
Qed.

Definition seen_tool (p : tool_poll) (q : poll (result ToolError ToolExecutionOutcome)) : Prop := p.1 = q.

Lemma serves_tool_port id o k invocation turn h output polls rest :
  resolves seen_tool (Ok (ExecCompleted output)) polls rest →
  h_cancel h = false → h_now h < turn → 0 < lo_tool_timeout o → h_now h + lo_tool_timeout o ≤ INSTANT_MAX →
  serves (run_tool_port id o k invocation turn) (with_tools h polls) (TpCompleted output) (with_tools h rest).
Proof.
  intros Hr Hc Ht Hto Hfit. unfold run_tool_port.
  apply (serves_any _ _ _ (with_tools h polls)); [intros w Hw; by apply (at_host_frame (with_tools h polls) w)|intros _].
  eapply serves_bind.
  { apply (serves_run_port_call _ _ _ seen_tool); [| | |done|exact Hr|done..].
    - intros h' [p emitted] polls' q Hq. unfold seen_tool in Hq. simpl in Hq. subst q.
      apply (serves_atomically _ _ p). intros w Hw. unfold pop_tool. rewrite (at_tools _ _ Hw). simpl. split; [done|].
      apply at_host_progress. destruct Hw. by split.
    - intros h'. apply serves_forward. intros _. apply serves_ret.
    - by intros ??? [_ _ _ _ _ _ _ _ _ _ _ _ ->]. }
  eapply serves_bind; [apply serves_after_tool|]. apply serves_ret.
Qed.
End host_calls.

(** ** The tool calls of a response *)

Section loop.
Context `{SerdeJson} (id : LoopId) (o : LoopOptions).

(** Each call of the host has time left, and no clock value overflows. *)
Record timely (now : N) : Prop := {
  ty_options : options_ok o;
  ty_horizon : now + LOOP_HORIZON ≤ INSTANT_MAX;
  ty_prompt : now + lo_prompt_timeout o ≤ INSTANT_MAX;
  ty_model : now + lo_model_timeout o ≤ INSTANT_MAX;
  ty_policy : now + lo_policy_timeout o ≤ INSTANT_MAX;
  ty_tool : now + lo_tool_timeout o ≤ INSTANT_MAX;
  ty_deadline : ∀ deadline, lo_deadline o = Some deadline → now < deadline;
}.

Lemma timely_turn now : timely now → now < default (now + LOOP_HORIZON) (lo_deadline o).
Proof.
  intros [_ _ _ _ _ _ Hd]. destruct (lo_deadline o) as [d|]; [by apply Hd|]. simpl.
  assert (0 < LOOP_HORIZON) by done. lia.
Qed.
Lemma serves_turn h : timely (h_now h) →
  serves (turn_deadline (lo_deadline o)) h (default (h_now h + LOOP_HORIZON) (lo_deadline o)) h.
Proof. intros Ht. apply serves_turn_deadline. destruct (lo_deadline o); [done|apply Ht]. Qed.

Definition invocation_of (call : ToolCall) : ToolInvocation :=
  mkToolInvocation (tc_tool_call_id call) (tc_name call) (tc_arguments call).

(** The policy, if there is one, allows the call; the tool completes it. *)
Definition allowed (policy : option N) (polls rest : list (poll (result ToolPolicyError ToolDecision))) : Prop :=
  match policy with
  | None => rest = polls
  | Some _ => resolves eq (Ok DecisionAllow) polls rest
  end.

Lemma serves_decide_policy h policy invocation polls rest :
  timely (h_now h) → h_cancel h = false → allowed policy polls rest →
  serves (decide_policy o policy invocation (default (h_now h + LOOP_HORIZON) (lo_deadline o)))
    (with_policies h polls) PsAllow (with_policies h rest).
Proof.
  intros Ht Hc Ha. unfold decide_policy. destruct policy as [p|]; simpl in Ha; [|subst; apply serves_ret].
  eapply serves_bind; [apply serves_policy; [exact Ha|done|by apply timely_turn| |apply Ht]|apply serves_ret].
  destruct (oo_timeouts _ (ty_options _ Ht)) as (_ & ? & _). lia.
Qed.

Lemma serves_execute_tool h k call output r polls rest :
  timely (h_now h) → h_cancel h = false → resolves seen_tool (Ok (ExecCompleted output)) polls rest →
  completed_result id k (invocation_of call) output (max_output o) = Some r →
  serves (execute_tool id o k (invocation_of call)) (with_tools h polls) (StepResult r) (with_tools h rest).
Proof.
  intros Ht Hc Hr Hres. unfold execute_tool.
  eapply serves_bind; [apply (serves_turn (with_tools h polls) Ht)|]. cbn [with_tools h_now].
  eapply serves_bind; [apply serves_tool_port; [exact Hr|done|by apply timely_turn| |apply Ht]|].
  { destruct (oo_timeouts _ (ty_options _ Ht)) as (_ & _ & ?). lia. }
  cbv iota. rewrite Hres. serves_step. apply serves_ret.
Qed.

Definition after_call (h : Host) policies tools : Host := with_tools (with_policies h policies) tools.

Inductive calls_served (config : ExecutionConfig) (k : N) :
    Host → list ToolCall → list ToolResultHistory → Host → Prop :=
| CallsServed h : calls_served config k h [] [] h
| CallServed h policies tools call output r calls rs h' :
    is_Some (EnabledTools_get (ec_tools config) (tc_name call)) →
    allowed (ec_policy config) (h_policies h) policies →
    resolves seen_tool (Ok (ExecCompleted output)) (h_tools h) tools →
    completed_result id k (invocation_of call) output (max_output o) = Some r →
    calls_served config k (after_call h policies tools) calls rs h' →
    calls_served config k h (call :: calls) (r :: rs) h'.

Lemma serves_tool_batch config k h calls rs h' :
  calls_served config k h calls rs h' → timely (h_now h) → h_cancel h = false → ∀ working,
  serves (run_tool_batch id o working k config calls) h
    (mkWorkingHistory (wh_base working) (wh_appended working ++ (HiToolResult <$> rs)), None) h'.
Proof.
  induction 1 as [h|h policies tools call output r calls rs h' [tool Ht] Ha Hr Hres _ IH]; intros Hti Hc working.
  - cbn [run_tool_batch]. rewrite app_nil_r. destruct working. apply serves_ret.
  - cbn [run_tool_batch]. serves_step. rewrite Hc. eapply serves_bind.
    { rewrite Ht. serves_step. serves_step. unfold run_tool_call. eapply serves_bind; [by apply serves_turn|].
      replace h with (with_policies h (h_policies h)) at 2 by by destruct h.
      eapply serves_bind; [by apply serves_decide_policy|]. cbv iota.
      replace (with_policies h policies) with (with_tools (with_policies h policies) (h_tools h)) by by destruct h.
      by eapply serves_execute_tool. }
    serves_step. specialize (IH Hti Hc (append_tool_result working r)).
    revert IH. unfold append_tool_result. simpl. by rewrite <- app_assoc.
Qed.
End loop.

(** ** The model *)

Section model.
Context `{SerdeJson} (id : LoopId) (k : N).

(** A poll that leaves the child token alone. *)
Definition seen_model {T : Type} (p : model_poll T) (q : poll T) : Prop := p = (q, false).

(** A stream that yields the events and ends. *)
Inductive delivers : list ModelEvent → list (model_poll (option (result ModelError ModelEvent))) →
    list (model_poll (option (result ModelError ModelEvent))) → Prop :=
| StreamEnd rest : delivers [] ((PollReady None, false) :: rest) rest
| StreamLater events polls rest : delivers events polls rest → delivers events ((PollPending, false) :: polls) rest
| StreamEvent event events polls rest :
    delivers events polls rest → delivers (event :: events) ((PollReady (Some (Ok event)), false) :: polls) rest.

(** What the events assemble to, if each of them is accepted and their end is. *)
Definition assembled (tools : list ToolSpec) (limits : LoopLimits) (events : list ModelEvent) : option ModelResponse :=
  match push_all (Assembler_new tools limits) events with
  | Some (Ok (a, _)) => match finish a with Some (Ok response) => Some response | _ => None end
  | _ => None
  end.

Lemma serves_attempt_cancelled child h : serves (attempt_cancelled child) h (h_cancel h || child) h.
Proof. unfold attempt_cancelled. serves_step. apply serves_ret. Qed.
Lemma serves_precheck deadline source h :
  h_cancel h = false → h_now h < deadline → serves (precheck deadline source) h (Ok ()) h.
Proof.
  intros Hc Hd. unfold precheck. serves_step. rewrite Hc. serves_step. rewrite (proj2 (N.leb_gt _ _) Hd). apply serves_ret.
Qed.

Lemma serves_start_wait h deadline r polls rest :
  resolves seen_model r polls rest → h_cancel h = false → h_now h < deadline → ∀ n, (length polls ≤ n)%nat →
  serves (start_wait deadline false n) (with_starts h polls) (SoReady r, false) (with_starts h rest).
Proof.
  intros Hr Hc Hd.
  assert (∀ p polls, serves (atomically pop_start) (with_starts h (p :: polls)) p (with_starts h polls)) as Hpop.
  { intros p ps. apply (serves_atomically _ _ p). intros w Hw. unfold pop_start. rewrite (at_starts _ _ Hw).
    split; [done|]. destruct Hw. by split. }
  induction Hr as [p rest ->|p polls rest -> Hr IH]; intros [|n] Hn; simpl in Hn; try lia; cbn [start_wait];
    (eapply serves_bind; [apply serves_attempt_cancelled|]); cbn [with_starts h_cancel]; rewrite Hc; cbn [orb];
    (eapply serves_bind; [apply serves_now|]); cbn [with_starts h_now]; rewrite (proj2 (N.leb_gt _ _) Hd);
    (eapply serves_bind; [apply Hpop|]).
  - apply serves_ret.
  - apply IH. lia.
Qed.

Lemma serves_forward_progress value dropped h : serves (forward_progress id k value dropped) h () h.
Proof. unfold forward_progress. destruct value; serves_step; apply serves_emit. Qed.
Lemma serves_yield value h :
  serves (yield_now id k (progress_try_send (mkProgressChannel [] 0) value)) h (mkProgressChannel [] 0) h.
Proof.
  unfold yield_now. apply (serves_bind _ _ _ 0 h); [|apply serves_ret]. cbn.
  eapply serves_bind; [apply serves_forward_progress|apply serves_ret].
Qed.

Lemma push_all_cons a event events a' ps :
  push_all a (event :: events) = Some (Ok (a', ps)) →
  ∃ a1 progress ps', push (set_observed_event a) event = Some (a1, Ok progress) ∧
    push_all a1 events = Some (Ok (a', ps')).
Proof.
  cbn [push_all]. destruct (push _ event) as [[a1 [progress|e]]|]; simpl; [|done..].
  destruct (push_all a1 events) as [[[a2 ps2]|e]|] eqn:E; simpl; [|done..].
  intros [= -> _]. exists a1, progress, ps2. by rewrite E.
Qed.

Lemma serves_stream_loop h deadline source events polls rest a' response :
  delivers events polls rest → h_cancel h = false → h_now h < deadline → finish a' = Some (Ok response) →
  ∀ n a ps, (length polls ≤ n)%nat → push_all a events = Some (Ok (a', ps)) →
  serves (stream_loop id k deadline source false a (mkProgressChannel [] 0) n) (with_streams h polls)
    (Ok response, mkProgressChannel [] 0) (with_streams h rest).
Proof.
  intros Hr Hc Hd Hf.
  assert (∀ p polls, serves (atomically pop_stream) (with_streams h (p :: polls)) p (with_streams h polls)) as Hpop.
  { intros p ps. apply (serves_atomically _ _ p). intros w Hw. unfold pop_stream. rewrite (at_streams _ _ Hw).
    split; [done|]. destruct Hw. by split. }
  induction Hr as [rest|events polls rest Hr IH|event events polls rest Hr IH]; intros [|n] a ps Hn Hp; simpl in Hn; try lia;
    cbn [stream_loop];
    (eapply serves_bind; [apply serves_attempt_cancelled|]); cbn [with_streams h_cancel]; rewrite Hc; cbn [orb];
    (eapply serves_bind; [apply serves_now|]); cbn [with_streams h_now]; rewrite (proj2 (N.leb_gt _ _) Hd);
    (eapply serves_bind; [apply Hpop|]); cbv iota zeta; cbn [orb].
  - injection Hp as -> _. rewrite Hf. serves_step. apply serves_ret.
  - eapply IH; [lia|done].
  - apply push_all_cons in Hp as (a1 & progress & ps' & Hpush & Hp). serves_step.
    rewrite Hpush. serves_step. destruct progress as [value|]; [|eapply IH; [lia|done]].
    eapply serves_bind; [apply serves_yield|]. eapply IH; [lia|done].
Qed.

Definition after_model (h : Host) starts streams : Host := with_streams (with_starts h starts) streams.

Lemma serves_drop_attempt h : serves drop_attempt h () h.
Proof. unfold drop_attempt. serves_step. apply serves_ret. Qed.

(** The whole call: the provider starts at its first attempt, and the stream it
    answers with is accepted and assembled. *)
Lemma serves_run_model o config request turn h starts events streams response :
  timely o (h_now h) → h_cancel h = false → h_now h < turn →
  supports_reasoning (ec_descriptor config) (mr_reasoning request) = true →
  (mr_tools request = [] ∨ md_supports_tools (ec_descriptor config) = true) →
  mr_limits request = ModelLimits_default →
  resolves seen_model (Ok ()) (h_starts h) starts → delivers events (h_streams h) streams →
  assembled (mr_tools request) (lo_limits o) events = Some response →
  serves (run_model id k o config request turn) h (Ok response) (after_model h starts streams).
Proof.
  intros Ht Hc Hturn Hreason Htools Hlimits Hs Hd Ha. unfold run_model, run_detailed.
  assert (∃ a ps, push_all (Assembler_new (mr_tools request) (lo_limits o)) events = Some (Ok (a, ps)) ∧
    finish a = Some (Ok response)) as (a & ps & Hp & Hf).
  { unfold assembled in Ha. destruct (push_all _ events) as [[[a ps]|]|] eqn:Ep; [|done..]. exists a, ps. split; [done|].
    destruct (finish a) as [[r|]|]; [|done..]. by injection Ha as ->. }
  set (d := ModelDriver_from_validated (ec_descriptor config) o).
  pose proof (oo_model_timeout _ (ty_options _ _ Ht)) as Hto. pose proof (oo_attempts _ (ty_options _ _ Ht)) as Hat.
  set (ed := if turn <=? h_now h + lo_model_timeout o then mkEffectiveDeadline turn turn DsTurn
             else mkEffectiveDeadline (h_now h + lo_model_timeout o) (h_now h + lo_model_timeout o) DsPort).
  assert (h_now h < ed_tokio ed) as Hed by (unfold ed; destruct (turn <=? _); simpl; lia).
  assert (validate_request d request = Ok ()) as Hv.
  { unfold validate_request, d. simpl. rewrite Hreason, Hlimits. simpl. destruct Htools as [-> | ->]; [done|].
    by destruct (mr_tools request). }
  assert (serves (run_attempt id k d request 0 (ed_tokio ed) (ed_source ed) (mkProgressChannel [] 0)) h
    (Ok response, mkProgressChannel [] 0) (after_model h starts streams)) as Hrun.
  { unfold run_attempt. serves_step. serves_step.
    eapply serves_bind; [unfold attempt_polls|eapply serves_bind; [apply serves_drop_attempt|apply serves_ret]].
    apply (serves_bind _ _ _ (length (h_starts h)) h).
    { apply serves_atomically. intros w Hw. split; [|done]. simpl. unfold patience.
      rewrite (at_starts _ _ Hw), (at_env _ _ Hw). simpl. lia. }
    replace h with (with_starts h (h_starts h)) at 2 by by destruct h.
    eapply serves_bind; [by apply serves_start_wait|]. cbv iota.
    apply (serves_bind _ _ _ (length (h_streams h)) (with_starts h starts)).
    { apply serves_atomically. intros w Hw. split; [|done]. simpl. unfold patience.
      rewrite (at_streams _ _ Hw), (at_env _ _ Hw). simpl. lia. }
    replace (with_starts h starts) with (with_streams (with_starts h starts) (h_streams h)) by by destruct h.
    by eapply serves_stream_loop. }
  eapply serves_bind.
  { serves_step. change (drv_model_call_timeout d) with (lo_model_timeout o).
    rewrite (proj2 (effective_deadline_from_Ok (h_now h) turn (lo_model_timeout o) ed)
      (conj (ty_model _ _ Ht) eq_refl)).
    eapply serves_bind; [by apply serves_precheck|]. cbv iota. rewrite Hv.
    change (rp_max_attempts (drv_retry_policy d)) with (lo_model_retry_attempts o).
    destruct (N.to_nat (lo_model_retry_attempts o)) as [|n] eqn:En; [lia|]. cbn [attempt_loop].
    eapply serves_bind; [by apply serves_precheck|]. cbv iota.
    eapply serves_bind; [exact Hrun|]. cbv iota. serves_step. apply serves_ret. }
  cbv iota. cbn [pg_dropped pg_queue drain_progress]. serves_step. serves_step. apply serves_ret.
Qed.
End model.

(** ** A conversation, and the loop that has it *)

Section conversation.
Context `{SerdeJson} (id : LoopId) (o : LoopOptions) (config : ExecutionConfig).

(** What [ExecutionConfig::new] checked. *)
Record usable : Prop := {
  us_reasoning : supports_reasoning (ec_descriptor config) (ec_reasoning config) = true;
  us_tools : tset_specs (ec_tools config) = [] ∨ md_supports_tools (ec_descriptor config) = true;
}.

(** The host answers one request: the provider with a prompt, and hands over nothing
    more meanwhile; the model with a stream that assembles to the response, whose usage
    can be added. *)
Inductive answers (usage : Usage) (h : Host) : ModelResponse → Usage → Host → Prop :=
| Answers messages request prompts starts events streams response usage' :
    resolves eq (Ok messages) (h_prompts h) prompts → messages ≠ [] →
    next_inputs (handed_over h) = [] →
    build_model_request messages config = Ok request →
    resolves seen_model (Ok ()) (h_starts h) starts → delivers events (h_streams h) streams →
    assembled (mr_tools request) (lo_limits o) events = Some response →
    UsageAccumulator_add usage (default Usage_default (resp_usage response)) = (usage', Ok ()) →
    answers usage h response usage'
      (after_model (with_prompts (handed_over (handed_over h)) prompts) starts streams).

(** What the loop records of inputs. *)
Definition steering_items (inputs : list UserInput) : list HistoryItem :=
  (λ input, HiUser (mkUserHistory id KindSteering input)) <$> inputs.

Definition response_item (k : N) (response : ModelResponse) : HistoryItem :=
  HiAssistant (mkAssistantHistory id k (md_model_ref (ec_descriptor config)) (ec_reasoning config)
    (resp_parts response) (resp_provider_replay response) (resp_finish_reason response)
    (default Usage_default (resp_usage response))).

(** From request [k] on: the items the loop adds, its usage, and how many of the
    responses called tools; the last one stops. Inputs that arrive while a prompt is
    prepared make the loop ask for another prompt. *)
Inductive script : N → Usage → Host → list HistoryItem → Usage → nat → Host → Prop :=
| ScriptStop k usage h response usage' h' :
    answers usage h response usage' h' →
    tool_calls (resp_parts response) = [] → resp_finish_reason response = FinishStop →
    script k usage h (steering_items (next_inputs h) ++ [response_item k response]) usage' 0 h'
| ScriptTools k usage h response usage1 h1 results h2 items usage' rounds h' :
    answers usage h response usage1 h1 →
    tool_calls (resp_parts response) ≠ [] →
    calls_served id o config k h1 (tool_calls (resp_parts response)) results h2 →
    script (k + 1) usage1 h2 items usage' rounds h' →
    script k usage h
      (steering_items (next_inputs h) ++ response_item k response :: (HiToolResult <$> results) ++ items)
      usage' (S rounds) h'
| ScriptSteer k usage h messages prompts items usage' rounds h' :
    resolves eq (Ok messages) (h_prompts h) prompts → messages ≠ [] →
    next_inputs (handed_over h) ≠ [] →
    script k usage (with_prompts (handed_over (handed_over h)) prompts) items usage' rounds h' →
    script k usage h
      (steering_items (next_inputs h) ++ steering_items (next_inputs (handed_over h)) ++ items) usage' rounds h'.

(** What no step of a script changes. *)
Lemma answers_frame usage h response usage' h' :
  answers usage h response usage' h' →
  h_now h' = h_now h ∧ h_cancel h' = h_cancel h ∧ h_state h' = h_state h ∧ h_revision h' = h_revision h.
Proof. by destruct 1. Qed.
Lemma calls_served_frame k h calls rs h' :
  calls_served id o config k h calls rs h' →
  h_now h' = h_now h ∧ h_cancel h' = h_cancel h ∧ h_state h' = h_state h ∧ h_revision h' = h_revision h.
Proof. induction 1; done. Qed.

Lemma serves_prepare_prompt h k messages prompts :
  timely o (h_now h) → h_cancel h = false →
  resolves eq (Ok messages) (h_prompts h) prompts → messages ≠ [] →
  serves (prepare_prompt o k (default (h_now h + LOOP_HORIZON) (lo_deadline o))) h (PrepReady messages) (with_prompts h prompts).
Proof.
  intros Ht Hc Hr Hm. unfold prepare_prompt. eapply serves_bind.
  - replace h with (with_prompts h (h_prompts h)) at 2 by by destruct h.
    apply serves_prompt; [exact Hr|done|by apply timely_turn| |apply Ht].
    destruct (oo_timeouts _ (ty_options _ _ Ht)) as (? & _ & _). lia.
  - cbv iota. destruct messages; [done|]. apply serves_ret.
Qed.

(** The locals at the head of turn [k], and after the last. *)
Definition locals_at (revision k : N) (working : WorkingHistory) (usage : Usage) (last_issued : option N) : Locals :=
  mkLocals working config revision None k k k last_issued usage.
Definition locals_end (revision k : N) (working : WorkingHistory) (usage : Usage) : Locals :=
  mkLocals working config revision None k k (k + 1) (Some k) usage.

Definition recording (working : WorkingHistory) (items : list HistoryItem) : WorkingHistory :=
  mkWorkingHistory (wh_base working) (wh_appended working ++ items).
Lemma recording_app working a b : recording (recording working a) b = recording working (a ++ b).
Proof. unfold recording. simpl. by rewrite app_assoc. Qed.

Lemma steer_recording inputs : ∀ working, foldl (steer id) working inputs = recording working (steering_items inputs).
Proof.
  induction inputs as [|i l IH]; intros working; cbn [foldl].
  - destruct working. unfold recording. simpl. by rewrite app_nil_r.
  - rewrite IH. unfold recording, steer, append_user. simpl. by rewrite <- app_assoc.
Qed.

Lemma serves_take_boundary h revision k working usage last_issued last_reference :
  serves (take_boundary id (locals_at revision k working usage last_issued) last_reference) h
    (locals_at revision k (recording working (steering_items (next_inputs h))) usage last_issued,
     match next_inputs h with [] => false | _ => true end, false) (handed_over h).
Proof.
  unfold take_boundary. apply (serves_bind _ _ _ None h).
  { apply (serves_atomically _ _ None). intros w Hw. simpl. rewrite (at_pending _ _ Hw). split; [done|].
    destruct Hw. by split. }
  serves_step. eapply serves_bind; [apply serves_take_inputs|]. rewrite <- steer_recording. apply serves_ret.
Qed.

(** The first half of a turn, up to the prompt: [ready] is what it does with that. *)
Definition prompted (l : Locals) (messages : list ModelMessage) : exec Turn :=
  '(l', taken, replaced) ← take_boundary id l false;
  if (taken : bool) then (if (replaced : bool) then host_sync else mret ());; mret (TurnContinue l')
  else
    match build_model_request messages (l_config l) with
    | Err _ => mret (TurnBreak l' FpPrompt None)
    | Ok request => issue_request id o l' request
    end.

Lemma serves_to_prompt h k working usage last_issued messages prompts turn h' :
  timely o (h_now h) → h_cancel h = false → resolves eq (Ok messages) (h_prompts h) prompts → messages ≠ [] →
  serves (prompted (locals_at (h_revision h) k (recording working (steering_items (next_inputs h))) usage last_issued) messages)
    (with_prompts (handed_over h) prompts) turn h' →
  serves (iteration id o (locals_at (h_revision h) k working usage last_issued)) h turn h'.
Proof.
  intros Ht Hc Hp Hm Hrest. unfold iteration. serves_step. rewrite Hc. apply (serves_bind _ _ _ false h).
  { unfold past_deadline. pose proof (ty_deadline _ _ Ht) as Hdl. destruct (lo_deadline o) as [d|]; [|apply serves_ret].
    serves_step. rewrite (proj2 (N.leb_gt _ _) (Hdl d eq_refl)). apply serves_ret. }
  eapply serves_bind; [apply serves_take_boundary|]. serves_step.
  eapply serves_bind; [by apply (serves_turn o (handed_over h))|].
  eapply serves_bind; [by apply (serves_prepare_prompt (handed_over h) k messages prompts)|]. exact Hrest.
Qed.

(** Inputs that came with the prompt: the turn starts over, with them. *)
Lemma serves_steered h k working usage last_issued messages prompts :
  timely o (h_now h) → h_cancel h = false → resolves eq (Ok messages) (h_prompts h) prompts → messages ≠ [] →
  next_inputs (handed_over h) ≠ [] →
  serves (iteration id o (locals_at (h_revision h) k working usage last_issued)) h
    (TurnContinue (locals_at (h_revision h) k
       (recording working (steering_items (next_inputs h) ++ steering_items (next_inputs (handed_over h)))) usage last_issued))
    (with_prompts (handed_over (handed_over h)) prompts).
Proof.
  intros Ht Hc Hp Hm Hn. eapply serves_to_prompt; [done..|]. unfold prompted.
  eapply serves_bind; [apply (serves_take_boundary (with_prompts (handed_over h) prompts))|]. cbv iota.
  change (next_inputs (with_prompts (handed_over h) prompts)) with (next_inputs (handed_over h)).
  destruct (next_inputs (handed_over h)) eqn:En; [done|]. serves_step. rewrite recording_app. apply serves_ret.
Qed.

Context (Husable : usable).

(** Up to the response, every turn that gets one is the same. *)
Lemma serves_iteration h k working usage last_issued response usage' h1 turn h2 :
  answers usage h response usage' h1 → timely o (h_now h) → h_cancel h = false → k < u32_MAX →
  serves (use_response id o (locals_end (h_revision h) k (recording working (steering_items (next_inputs h))) usage) response)
    h1 turn h2 →
  serves (iteration id o (locals_at (h_revision h) k working usage last_issued)) h turn h2.
Proof.
  intros [messages request prompts starts events streams response' usage'' Hp Hm Hn Hb Hs Hd Ha _] Ht Hc Hk Huse.
  eapply serves_to_prompt; [done..|]. unfold prompted.
  eapply serves_bind; [apply (serves_take_boundary (with_prompts (handed_over h) prompts))|]. cbv iota.
  change (next_inputs (with_prompts (handed_over h) prompts)) with (next_inputs (handed_over h)). rewrite Hn.
  change (handed_over (with_prompts (handed_over h) prompts)) with (with_prompts (handed_over (handed_over h)) prompts).
  rewrite recording_app, app_nil_r. set (h0 := with_prompts (handed_over (handed_over h)) prompts).
  cbn [locals_at l_config]. rewrite Hb.
  unfold issue_request. cbn [locals_at l_working l_config l_issued_revision l_candidate_revision l_request_index l_tool_rounds
    l_requests l_last_issued l_usage default from_option].
  rewrite (saturating_add_exact u32_MAX k 1) by lia.
  apply (serves_bind _ _ _ () h0).
  { apply serves_atomically. intros w Hw. split; [done|]. destruct Hw. by split. }
  serves_step. serves_step. serves_step.
  eapply serves_bind; [by apply (serves_turn o h0)|].
  pose proof Hb as Hreq. unfold build_model_request, with_validated_tools in Hreq. ok_inv.
  eapply serves_bind; [eapply (serves_run_model id k o config _ _ h0 starts events streams)|]; try done.
  - by apply (timely_turn o (h_now h0)).
  - simpl. apply Husable.
  - simpl. apply Husable.
Qed.

Lemma serves_stop h revision k working usage response usage' :
  UsageAccumulator_add usage (default Usage_default (resp_usage response)) = (usage', Ok ()) →
  tool_calls (resp_parts response) = [] → resp_finish_reason response = FinishStop →
  serves (use_response id o (locals_end revision k working usage) response) h
    (TurnBreak (locals_end revision k (recording working [response_item k response]) usage') FpCompleted None) h.
Proof.
  intros Hu Hc Hr. unfold use_response. cbn [locals_end l_usage]. rewrite Hu. cbv iota zeta. rewrite Hc, Hr.
  serves_step. apply (serves_bind _ _ _ None h); [|apply serves_ret].
  apply serves_atomically. intros w Hw. simpl. rewrite (at_pending _ _ Hw). split; [done|]. destruct Hw. by split.
Qed.

Lemma serves_tools h revision k working usage response usage' results h' :
  UsageAccumulator_add usage (default Usage_default (resp_usage response)) = (usage', Ok ()) →
  tool_calls (resp_parts response) ≠ [] →
  calls_served id o config k h (tool_calls (resp_parts response)) results h' →
  timely o (h_now h) → h_cancel h = false → k < u32_MAX → (lo_max_tool_rounds o = 0 ∨ k < lo_max_tool_rounds o) →
  serves (use_response id o (locals_end revision k working usage) response) h
    (TurnContinue (locals_at revision (k + 1)
       (recording working (response_item k response :: (HiToolResult <$> results))) usage' (Some k))) h'.
Proof.
  intros Hu Hn Hcalls Ht Hc Hk Hmax. unfold use_response. cbn [locals_end l_usage]. rewrite Hu. cbv iota zeta.
  destruct (tool_calls (resp_parts response)) as [|call calls]; [done|].
  unfold tool_round. cbn [locals_end with_working with_basis l_working l_config l_issued_revision l_candidate_revision
    l_request_index l_tool_rounds l_requests l_last_issued l_usage].
  replace (negb (lo_max_tool_rounds o =? 0) && (lo_max_tool_rounds o <=? k)) with false.
  2: { symmetry. apply andb_false_iff. destruct Hmax as [->|Hlt]; [by left|right; by apply N.leb_gt]. }
  rewrite (saturating_add_exact u64_MAX k 1) by (change u32_MAX with 4294967295 in Hk; change u64_MAX with 18446744073709551615; lia).
  rewrite (saturating_add_exact u32_MAX k 1) by lia.
  serves_step. eapply serves_bind; [by apply serves_tool_batch|]. cbv iota zeta.
  unfold append_assistant. cbn [wh_base wh_appended]. rewrite <- app_assoc. apply serves_ret.
Qed.

(** Every turn takes at least one poll of the provider. *)
Lemma resolves_shorter {P T : Type} (seen : P → poll T → Prop) t polls rest :
  resolves seen t polls rest → (length rest < length polls)%nat.
Proof. induction 1; simpl; lia. Qed.
Lemma calls_served_prompts k h calls rs h' :
  calls_served id o config k h calls rs h' → h_prompts h' = h_prompts h.
Proof. induction 1; done. Qed.
Lemma answers_prompts usage h response usage' h' :
  answers usage h response usage' h' → (length (h_prompts h') < length (h_prompts h))%nat.
Proof. intros [???????? Hp]. by apply resolves_shorter in Hp. Qed.

(** The whole loop of turns. *)
Lemma serves_turns k usage h items usage' rounds h' :
  script k usage h items usage' rounds h' → timely o (h_now h) → h_cancel h = false →
  k + N.of_nat rounds < u32_MAX →
  (lo_max_tool_rounds o = 0 ∨ k + N.of_nat rounds ≤ lo_max_tool_rounds o) →
  ∀ working last_issued fuel, (length (h_prompts h) < fuel)%nat →
  serves (run_loop_turns id o (locals_at (h_revision h) k working usage last_issued) fuel) h
    (locals_end (h_revision h) (k + N.of_nat rounds) (recording working items) usage', FpCompleted, None) h'.
Proof.
  induction 1 as [k usage h response usage' h' Ha Hn Hr|k usage h response usage1 h1 results h2 items usage' rounds h' Ha Hn Hcalls Hs IH
      |k usage h messages prompts items usage' rounds h' Hp Hm Hn Hs IH];
    intros Ht Hc Hk Hmax working last_issued [|fuel] Hfuel; try lia; cbn [run_loop_turns].
  - assert (UsageAccumulator_add usage (default Usage_default (resp_usage response)) = (usage', Ok ())) as Hu by (by destruct Ha).
    eapply serves_bind.
    { eapply serves_iteration; [exact Ha|done|done|lia|]. by apply serves_stop. }
    rewrite N.add_0_r, recording_app. apply serves_ret.
  - assert (UsageAccumulator_add usage (default Usage_default (resp_usage response)) = (usage1, Ok ())) as Hu by (by destruct Ha).
    pose proof (answers_frame _ _ _ _ _ Ha) as (Hnow & Hcan & _ & Hrev).
    pose proof (calls_served_frame _ _ _ _ _ Hcalls) as (Hnow2 & Hcan2 & _ & Hrev2).
    eapply serves_bind.
    { eapply serves_iteration; [exact Ha|done|done|lia|]. eapply serves_tools; [exact Hu|done|exact Hcalls|..].
      - by rewrite Hnow.
      - by rewrite Hcan.
      - lia.
      - destruct Hmax; [by left|right; lia]. }
    cbv iota. replace (k + N.of_nat (S rounds)) with (k + 1 + N.of_nat rounds) in * by lia.
    rewrite <- Hrev, <- Hrev2, app_comm_cons, app_assoc, <- !recording_app.
    apply IH; [congruence..|done|done|]. apply answers_prompts in Ha. apply calls_served_prompts in Hcalls. rewrite Hcalls. lia.
  - eapply serves_bind; [by eapply serves_steered|]. cbv iota. rewrite app_assoc, <- (recording_app working _ items).
    apply IH; try done. apply resolves_shorter in Hp. simpl. lia.
Qed.

Lemma script_frame k usage h items usage' rounds h' :
  script k usage h items usage' rounds h' → h_state h' = h_state h ∧ h_revision h' = h_revision h.
Proof.
  induction 1 as [? ? ? ? ? ? Ha|? ? ? ? ? ? ? ? ? ? ? ? Ha _ Hcalls _ [IH1 IH2]|? ? ? ? ? ? ? ? ? _ _ _ _ IH]; [| |done];
    apply answers_frame in Ha as (_ & _ & Ha1 & Ha2); [done|].
  apply calls_served_frame in Hcalls as (_ & _ & Hc1 & Hc2). split; congruence.
Qed.
End conversation.

(** ** The end *)

Section ending.
Context `{SerdeJson} (id : LoopId) (o : LoopOptions).

Lemma serves_complete report h : serves (complete report) h () h.
Proof.
  unfold complete. apply (serves_bind _ _ _ () h); [|apply serves_trace]. apply serves_atomically.
  intros w Hw. split; [done|]. by apply (at_host_frame h w).
Qed.
Lemma serves_publish_final k revision h : serves (publish_final_states id k revision) h () h.
Proof.
  unfold publish_final_states, read_ctl. apply (serves_any _ _ _ h); [done|]. intros model. serves_step.
  apply (serves_any _ _ _ h); [done|]. intros model'. apply serves_publish.
Qed.
Lemma serves_seal h : h_state h = STATE_NONE →
  serves seal h (SealClean, None) (with_state_of h (h_cancel h) STATE_FINISHED (h_revision h)).
Proof.
  intros Hs. unfold seal.
  apply (serves_bind _ _ _ (Some (SealClean, None)) (with_state_of h (h_cancel h) STATE_FINISHED (h_revision h)));
    [|apply serves_expect].
  apply serves_atomically. intros w Hw. cbv beta.
  destruct (finish_once_spec (w_ctl w)) as (finish & -> & ->); [unfold state_ok; by rewrite (at_state _ _ Hw), Hs|].
  rewrite (at_state _ _ Hw), Hs, (at_pending _ _ Hw). simpl. split; [done|]. destruct Hw. by split.
Qed.

(** A completed loop is sealed, reported and its token fired. *)
Lemma serves_finish_loop h working usage requests last_issued rounds :
  h_state h = STATE_NONE →
  serves (finish_loop id FpCompleted working usage requests last_issued rounds) h
    (mkLoopReport id OutCompleted (wh_appended working) usage requests rounds (h_revision h))
    (with_state_of h true STATE_FINISHED (h_revision h)).
Proof.
  intros Hs. unfold finish_loop. apply (serves_bind _ _ _ (h_revision h) h).
  { apply serves_atomically. intros w Hw. split; [apply Hw|done]. }
  serves_step. eapply serves_bind; [by apply serves_seal|]. cbv iota zeta.
  eapply serves_bind; [apply serves_publish_final|]. eapply serves_bind; [apply serves_complete|]. serves_step.
  apply (serves_bind _ _ _ () (with_state_of h true STATE_FINISHED (h_revision h))).
  { apply serves_atomically. intros w Hw. split; [done|]. destruct Hw. by split. }
  serves_step. apply serves_ret.
Qed.

(** A loop that nobody else acts on: its host, as the world begins. *)
Definition host_of (w : World) : Host :=
  mkHost (w_now w) false STATE_NONE INITIAL_REVISION (w_prompt_polls w) (w_start_polls w) (w_stream_polls w)
    (w_policy_polls w) (w_tool_polls w) (w_inputs w).
Definition undisturbed (w : World) : Prop := at_host (host_of w) w.

Definition completed_report (request : LoopRequest) (items : list HistoryItem) (usage : Usage) (rounds : nat) : LoopReport :=
  mkLoopReport id OutCompleted (HiUser (mkUserHistory id KindPrompt (lq_input request)) :: items) usage
    (N.of_nat rounds + 1) (N.of_nat rounds) INITIAL_REVISION.

Lemma serves_run_loop request h items usage rounds h' :
  script id o (lq_config request) 0 Usage_default h items usage rounds h' → usable (lq_config request) →
  timely o (h_now h) → h_cancel h = false → h_state h = STATE_NONE → h_revision h = INITIAL_REVISION →
  N.of_nat rounds < u32_MAX → (lo_max_tool_rounds o = 0 ∨ N.of_nat rounds ≤ lo_max_tool_rounds o) →
  serves (run_loop id o request) h (completed_report request items usage rounds)
    (with_state_of h' true STATE_FINISHED INITIAL_REVISION).
Proof.
  intros Hs Hu Ht Hc Hst Hrev Hr Hmax. apply serves_catch. unfold run_loop_inner. serves_step.
  apply (serves_bind _ _ _ (length (h_prompts h)) h).
  { apply serves_atomically. intros w Hw. split; [|done]. simpl. by rewrite (at_prompts _ _ Hw). }
  pose proof (script_frame _ _ _ _ _ _ _ _ _ _ Hs) as [Hst' Hrev'].
  eapply serves_bind.
  { pose proof (serves_turns id o (lq_config request) Hu 0 Usage_default h items usage rounds h' Hs Ht Hc) as Hturns.
    rewrite N.add_0_l in Hturns. specialize (Hturns Hr Hmax
      (append_user (WorkingHistory_new (lq_history request)) (mkUserHistory id KindPrompt (lq_input request))) None
      (S (length (h_prompts h))) (Nat.lt_succ_diag_r _)).
    rewrite Hrev in Hturns. exact Hturns. }
  cbv iota zeta. eapply serves_bind; [apply serves_finish_loop; congruence|]. rewrite Hrev', Hrev.
  serves_step. serves_step. apply serves_ret.
Qed.

(** C3: a loop whose host does its part completes. Let nobody else act on the loop:
    if the provider's prompts make requests, each stream the model answers with is
    accepted and assembles to a response, the responses that call tools find them
    enabled, allowed by the policy (if there is one) and completed in time, and the
    last response stops, then the loop returns: completed, its history the input, the
    inputs handed over at the boundaries, the responses and the tools' results in
    order, its usage that of the responses, one request more than rounds; and it has
    used exactly these answers of the host. The futures may be pending any number of
    times; inputs that arrive with a prompt cost that prompt and no request; the limit
    on the rounds does not cut the conversation before it is exceeded. *)
Theorem run_loop_completes request w items usage rounds h' :
  undisturbed w → timely o (w_now w) → usable (lq_config request) →
  script id o (lq_config request) 0 Usage_default (host_of w) items usage rounds h' →
  N.of_nat rounds < u32_MAX → (lo_max_tool_rounds o = 0 ∨ N.of_nat rounds ≤ lo_max_tool_rounds o) →
  ∃ w', run_loop id o request w = Done (completed_report request items usage rounds) w' ∧
    at_host (with_state_of h' true STATE_FINISHED INITIAL_REVISION) w'.
Proof.
  intros Hw Ht Hu Hs Hr Hmax. by apply (serves_run_loop request (host_of w) items usage rounds h').
Qed.
End ending.
