(* ===== verification/Observed.v ===== *)
(** * The runner emits the stream its contract describes

    The runner of [Runner.v] against the automaton of [EventSpec.v]. [seen ob w]:
    the events emitted so far are accepted and lead to [ob], which agrees with the
    requests issued, with the retained state and with the applied revision. [sees]
    is a Hoare triple over the observer; [stays] is one whose observer does not
    move. The rules are followed through the driver, the tool phase and the turns of
    the loop to its end. *)

From S2P Require Import Prelude Text Json Ids Limits BTree ToolTypes ToolSet ModelError Message Request Failure Assembler History Prompt Event EventSpec Control Options World Steps PortCall Driver RunnerTools Runner RunnerInv Blame RunnerSpec.
Local Open Scope N_scope.

Section rules.
Context `{SerdeJson} (id : LoopId) (s0 : LoopEventSink).
(** What holds of the progress queue of the running tool. *)
Context (W : list (ToolCallId * ToolProgress) → Prop).

(** What the log of the queue holds, which other threads cannot change. *)
Record logged (events : list LoopEvent) (issued : list (N * N)) (w : World) : Prop := {
  lg_events : emitted (w_sink_ops w) = events;
  lg_issued : issues (w_trace w) = issued;
  lg_sink : w_sink w = (sink_run s0 (w_sink_ops w)).1;
}.
Definition told (ob : Observer) (w : World) : Prop :=
  ∃ events, logged events (ob_issued ob) w ∧ observe_all id (Observer_new id) events = Some ob.

(** The control plane shows the same. *)
Definition shows_same (ob : Observer) (c : LoopControl) : Prop :=
  c_published c = ob_state ob ∧ c_current_revision c = last_revision ob.

Definition seen (ob : Observer) (w : World) : Prop :=
  told ob w ∧ shows_same ob (w_ctl w) ∧ W (w_tool_queue w).

#[local] Instance shows_same_rel ob : CtlRel (λ w w', shows_same ob (w_ctl w) → shows_same ob (w_ctl w')).
Proof.
  apply env_stable; try done; intros c; intros; unfold shows_same.
  - unfold mark_cancel_exchange, compare_exchange. by destruct (_ =? _).
  - unfold update_locked. by destruct (_ || _).
  - unfold answer. destruct (_ || _); [done|]. destruct (c_interaction c); [|done].
    destruct (negb _); [done|]. by destruct (InteractionAnswer_validate _ _).
Qed.

Lemma sink_apply_logged events issued w op :
  logged events issued w → logged (events ++ emitted [op]) issued (sink_apply w op).
Proof.
  intros [<- Hi Hs]. split; [apply emitted_app|done|simpl].
  rewrite Hs, sink_run_app. simpl. by destruct (sink_op _ op).
Qed.

Lemma env_op_logged events issued w op : logged events issued w → logged events issued (env_op w op).
Proof.
  intros Hl. pose proof (λ o, sink_apply_logged events issued w o Hl) as Ha.
  destruct op; simpl; repeat case_match; try done; try (by destruct Hl); rewrite <- (app_nil_r events);
    [apply (Ha OpRecv)|apply (Ha OpDrop)].
Qed.

Lemma tick_logged events issued w : logged events issued w → logged events issued (tick w).
Proof.
  intros Ht. unfold tick. destruct (w_env w) as [|ops env]; [done|].
  assert (logged events issued (set_env w env)) as Ht' by (by destruct Ht). revert Ht'. generalize (set_env w env).
  clear w Ht. induction ops as [|op ops IH]; intros w Ht; simpl; [done|]. by apply IH, env_op_logged.
Qed.

Lemma tick_shows_same ob w : shows_same ob (w_ctl w) → shows_same ob (w_ctl (tick w)).
Proof. apply (ctl_rel_tick _ (CtlRel0 := shows_same_rel ob)). Qed.
Lemma tick_told ob w : told ob w → told ob (tick w).
Proof. intros (events & Hl & Ho). exists events. split; [by apply tick_logged|done]. Qed.
Lemma env_op_queue w op : w_tool_queue (env_op w op) = w_tool_queue w.
Proof. destruct op; simpl; repeat case_match; done. Qed.
Lemma tick_queue w : w_tool_queue (tick w) = w_tool_queue w.
Proof.
  unfold tick. destruct (w_env w) as [|ops env]; [done|]. change (w_tool_queue w) with (w_tool_queue (set_env w env)).
  generalize (set_env w env). clear w. induction ops as [|op ops IH]; intros w; simpl; [done|]. by rewrite IH, env_op_queue.
Qed.
Lemma tick_seen ob w : seen ob w → seen ob (tick w).
Proof.
  intros (Ht & Hs & Hq). split_and!; [by apply tick_told|by apply tick_shows_same|by rewrite tick_queue].
Qed.

(** One more event. *)
Lemma told_emit ob ob' e events w :
  logged events (ob_issued ob') w → observe_all id (Observer_new id) events = Some ob →
  observe id ob e = Some ob' → told ob' (sink_apply w (OpEmit e)).
Proof.
  intros Hl Ho He. exists (events ++ [e]). split; [by apply (sink_apply_logged _ _ _ (OpEmit e))|].
  by rewrite observe_all_snoc, Ho.
Qed.

(** ** Triples *)

Section triples.
Context (E : Observer → Prop).

Definition ends {A : Type} (Q : A → Observer → Prop) (r : outcome A) : Prop :=
  match r with
  | Done a w => ∃ ob, Q a ob ∧ seen ob w
  | Panicked w | Paused w => ∃ ob, E ob ∧ seen ob w
  | OutOfFuel => True
  end.
Definition sees {A : Type} (m : exec A) (ob : Observer) (Q : A → Observer → Prop) : Prop :=
  ∀ w, seen ob w → ends Q (m w).
Definition stays {A : Type} (ob : Observer) (m : exec A) : Prop := sees m ob (λ _ ob', ob' = ob).

Lemma sees_mono {A} (m : exec A) ob (Q Q' : A → Observer → Prop) :
  sees m ob Q → (∀ a ob', Q a ob' → Q' a ob') → sees m ob Q'.
Proof. intros Hm HQ w Hw. specialize (Hm w Hw). destruct (m w); try done. naive_solver. Qed.
Lemma sees_ret {A} (a : A) ob (Q : A → Observer → Prop) : Q a ob → sees (mret a) ob Q.
Proof. intros HQ w Hw. by exists ob. Qed.
Lemma sees_panic {A} ob (Q : A → Observer → Prop) : E ob → sees panic ob Q.
Proof. intros HE w Hw. by exists ob. Qed.
Lemma sees_bind {A B} (m : exec A) (k : A → exec B) ob Q' Q :
  sees m ob Q' → (∀ a ob', Q' a ob' → sees (k a) ob' Q) → sees (m ≫= k) ob Q.
Proof.
  intros Hm Hk w Hw. specialize (Hm w Hw). unfold mbind, exec_bind. destruct (m w) as [a w1|w1|w1|]; try done.
  destruct Hm as (ob' & HQ & Hs). by apply (Hk a ob').
Qed.
Lemma sees_expect {A} (a : option A) ob (Q : A → Observer → Prop) :
  E ob → (∀ x, a = Some x → Q x ob) → sees (expect a) ob Q.
Proof. intros HE HQ. destruct a; [by apply sees_ret, HQ|by apply sees_panic]. Qed.

Lemma sees_atomically {A} (f : World → World * A) ob Q :
  (∀ w, seen ob w → ∃ ob', Q (f w).2 ob' ∧ seen ob' (f w).1) → sees (atomically f) ob Q.
Proof.
  intros Hf w Hw%tick_seen. destruct (Hf _ Hw) as (ob' & HQ & Hs). unfold atomically.
  destruct (f (tick w)). by exists ob'.
Qed.
Lemma sees_read_ctl {A} (f : LoopControl → A) ob (Q : A → Observer → Prop) :
  (∀ c, shows_same ob c → Q (f c) ob) → sees (read_ctl f) ob Q.
Proof. intros HQ. apply sees_atomically. intros w Hw. exists ob. split; [|done]. apply HQ, Hw. Qed.

(** An emission the automaton accepts, unless it announces a state or a request. *)
Lemma sees_emit e ob ob' (Q : () → Observer → Prop) :
  observe id ob e = Some ob' → ob_state ob' = ob_state ob → ob_issued ob' = ob_issued ob → Q () ob' →
  sees (emit e) ob Q.
Proof.
  intros Ho Hst Hi HQ. apply sees_atomically. intros w [(events & Hl & He) [[Hp Hc] Hq]]. exists ob'. split; [done|].
  split; [|split; [split; simpl; [by rewrite Hp|unfold last_revision; by rewrite Hi]|done]].
  eapply told_emit; [by rewrite Hi|done|done].
Qed.

(** A state is first kept, then announced. *)
Lemma sees_publish s ob stage (Q : () → Observer → Prop) :
  transition id ob (ls_status s) (ls_pending_interaction s) = Some (s, stage) →
  Q () (mkObserver stage s (ob_issued ob) (ob_tools ob)) → sees (publish s) ob Q.
Proof.
  intros Ht HQ w Hw%tick_seen. destruct Hw as [(events & Hl & He) [[Hp Hc] Hq]]. unfold publish, mbind, exec_bind.
  cbv beta iota delta [with_ctl emit with_sink atomically]. cbn [fst snd].
  set (w1 := set_ctl _ _). assert (logged events (ob_issued ob) w1) as Hw1 by (by destruct Hl). apply tick_logged in Hw1.
  assert (shows_same (mkObserver stage s (ob_issued ob) (ob_tools ob)) (w_ctl w1)) as Hc1 by done.
  apply tick_shows_same in Hc1. eexists. split; [exact HQ|]. split; [|split; [done|by simpl; rewrite tick_queue]].
  eapply told_emit; [exact Hw1|exact He|]. simpl. rewrite Ht. simpl. by rewrite bool_decide_true.
Qed.

(** The issue of a request: the revision is applied, the call made, the event sent. *)
Lemma sees_issue {B} k revision model reasoning (next : () → exec B) ob Q :
  ob_stage ob = SgPreparing → k = ls_request_index (ob_state ob) →
  sees (next ()) (mkObserver (SgRequested k revision model) (ob_state ob)
    (ob_issued ob ++ [(k, revision)]) (ob_tools ob)) Q →
  sees (with_ctl (λ c, (commit_revision c revision, ()));;
        trace (HcIssue k revision);;
        (emit (LeRequestStarted id k revision model reasoning) ≫= next)) ob Q.
Proof.
  intros Hst -> Hn w Hw%tick_seen. set (ob' := mkObserver _ _ _ _) in *.
  destruct Hw as [(events & Hl & He) [[Hp Hc] Hq]]. unfold mbind, exec_bind.
  cbv beta iota delta [with_ctl trace emit with_sink atomically]. cbn [fst snd].
  apply Hn. set (w1 := set_ctl _ _). set (w2 := add_trace w1 _).
  assert (logged events (ob_issued ob') w2) as Hw2.
  { destruct Hl as [? Hi ?]. split; simpl; [done| |done]. by rewrite issues_app, Hi. }
  assert (shows_same ob' (w_ctl w2)) as Hc2 by (split; [done|]; unfold last_revision; simpl; by rewrite last_snoc).
  apply tick_logged in Hw2. apply tick_shows_same in Hc2. split; [|split; [done|by simpl; rewrite tick_queue]].
  eapply told_emit; [exact Hw2|exact He|]. simpl. rewrite Hst, N.eqb_refl. unfold ours.
  by rewrite bool_decide_true.
Qed.

Lemma ours_id (ob : option Observer) : ours id id ob = ob.
Proof. unfold ours. by rewrite bool_decide_true. Qed.

(** Follows a step that stays, or an emission. *)
Lemma sees_stays_bind {A B} (m : exec A) (k : A → exec B) ob Q :
  stays ob m → (∀ a, sees (k a) ob Q) → sees (m ≫= k) ob Q.
Proof. intros Hm Hk. eapply sees_bind; [exact Hm|]. intros a ob' ->. apply Hk. Qed.
Lemma sees_emit_bind {B} e (k : () → exec B) ob ob' Q :
  observe id ob e = Some ob' → ob_state ob' = ob_state ob → ob_issued ob' = ob_issued ob →
  sees (k ()) ob' Q → sees (emit e ≫= k) ob Q.
Proof.
  intros. eapply sees_bind; [by eapply (sees_emit e ob ob' (λ _ ob2, ob2 = ob'))|]. by intros [] ob2 ->.
Qed.
Lemma sees_publish_bind {B} s (k : () → exec B) ob stage Q :
  transition id ob (ls_status s) (ls_pending_interaction s) = Some (s, stage) →
  sees (k ()) (mkObserver stage s (ob_issued ob) (ob_tools ob)) Q → sees (publish s ≫= k) ob Q.
Proof.
  intros Ht Hk. eapply sees_bind; [by apply (sees_publish s ob stage (λ _ ob2, ob2 = mkObserver stage s (ob_issued ob) (ob_tools ob)))|].
  by intros [] ob2 ->.
Qed.
Lemma sees_current_bind {B} (k : LoopState → exec B) ob Q :
  sees (k (ob_state ob)) ob Q → sees (read_ctl current_state ≫= k) ob Q.
Proof.
  intros Hk. eapply sees_bind; [apply (sees_read_ctl _ ob (λ s ob2, ob2 = ob ∧ s = ob_state ob))|by intros s ob2 [-> ->]].
  intros c [Hc _]. done.
Qed.

(** ** Computations that leave the observer where it is *)

Section walk.
Context (ob : Observer).

Lemma stays_ret {A} (a : A) : stays ob (mret a).
Proof. by apply sees_ret. Qed.
Lemma stays_bind {A B} (m : exec A) (k : A → exec B) :
  stays ob m → (∀ a, stays ob (k a)) → stays ob (m ≫= k).
Proof. intros Hm Hk. eapply sees_bind; [exact Hm|]. intros a ob' ->. apply Hk. Qed.
Lemma stays_fuel {A} : stays ob (out_of_fuel (A := A)).
Proof. by intros w _. Qed.

(** A step beside the control plane, the queue and the trace. *)
Lemma stays_frame {A} (f : World → World * A) :
  (∀ w, w_ctl (f w).1 = w_ctl w ∧ w_sink (f w).1 = w_sink w ∧ w_sink_ops (f w).1 = w_sink_ops w ∧
    w_trace (f w).1 = w_trace w ∧ w_tool_queue (f w).1 = w_tool_queue w) → stays ob (atomically f).
Proof.
  intros Hf. apply sees_atomically. intros w Hw. exists ob. split; [done|].
  destruct (Hf w) as (Hc & Hs & Ho & Ht & Hq). destruct Hw as [(events & [] & He) Hsh].
  split; [|unfold shows_same in *; by rewrite Hc, Hq]. exists events. split; [|done]. split; congruence.
Qed.
Lemma stays_with_ctl {A} (f : LoopControl → LoopControl * A) :
  (∀ c, c_published (f c).1 = c_published c ∧ c_current_revision (f c).1 = c_current_revision c) →
  stays ob (with_ctl f).
Proof.
  intros Hf. apply sees_atomically. intros w [(events & [] & He) Hsh]. exists ob.
  specialize (Hf (w_ctl w)). destruct (f (w_ctl w)) as [c a]. split; [done|].
  split; [by exists events|]. unfold shows_same in *. simpl in *. by destruct Hf as [-> ->].
Qed.
Lemma stays_read_ctl {A} (f : LoopControl → A) : stays ob (read_ctl f).
Proof. by apply stays_frame. Qed.
Lemma stays_get {A} (f : World → A) : stays ob (atomically (λ w, (w, f w))).
Proof. by apply stays_frame. Qed.
Lemma stays_now : stays ob now.
Proof. by apply stays_frame. Qed.
Lemma stays_is_cancelled : stays ob is_cancelled.
Proof. by apply stays_frame. Qed.
Lemma stays_host_panics : stays ob host_panics.
Proof. apply stays_frame. intros w. by destruct (w_sync w). Qed.
Lemma stays_trace c : issues [c] = [] → stays ob (trace c).
Proof.
  intros Hc w [(events & [] & He) Hsh]. exists ob. split; [done|]. split; [|done].
  exists events. split; [|done]. split; simpl; [done| |done]. by rewrite issues_app, Hc, app_nil_r.
Qed.
Lemma stays_record_loss n : stays ob (record_loss n).
Proof.
  apply sees_atomically. intros w [(events & Hl & He) Hsh]. exists ob. split; [done|]. split; [|done].
  exists events. split; [|done]. rewrite <- (app_nil_r events). by apply (sink_apply_logged _ _ _ (OpRecord n)).
Qed.
Lemma stays_emit e : observe id ob e = Some ob → stays ob (emit e).
Proof. intros He. by eapply sees_emit. Qed.

Context (open : E ob).
Lemma stays_panic {A} : stays ob (panic (A := A)).
Proof. by apply sees_panic. Qed.
Lemma stays_pause {A} : stays ob (pause (A := A)).
Proof. intros w Hw. by exists ob. Qed.
Lemma stays_expect {A} (a : option A) : stays ob (expect a).
Proof. by apply sees_expect. Qed.
Lemma stays_host_sync : stays ob host_sync.
Proof. apply stays_bind; [apply stays_host_panics|]. intros []; [apply stays_panic|apply stays_ret]. Qed.
Lemma stays_take_inputs : stays ob take_inputs.
Proof.
  unfold take_inputs. apply stays_bind; [apply stays_host_sync|]. intros [].
  apply stays_bind; [apply stays_frame; intros w; by destruct (w_inputs w)|]. intros inputs.
  apply stays_bind; [by apply stays_trace|]. intros []. apply stays_ret.
Qed.
End walk.
End triples.

End rules.

(** What holds of the tool queue may be forgotten. *)
Lemma ends_weaken `{SerdeJson} id s0 W E {A} (Q : A → Observer → Prop) r :
  ends id s0 W E Q r → ends id s0 (λ _, True) E Q r.
Proof. unfold ends, seen. destruct r; naive_solver. Qed.

Create HintDb observed.
#[export] Hint Resolve stays_read_ctl stays_get stays_now stays_is_cancelled stays_host_panics
  stays_record_loss stays_expect stays_host_sync stays_take_inputs : observed.
#[export] Hint Extern 1 (stays _ _ _ _ _ (trace _)) => (by apply stays_trace) : observed.

(** Walks through a computation that leaves the observer in place, up to what no hint resolves. *)
Ltac stays_tac :=
  repeat match goal with
  | |- sees ?id ?s0 ?W ?E ?m ?ob (λ _ ob', ob' = ?ob) => change (stays id s0 W E ob m)
  | |- stays _ _ _ _ _ (mbind _ _) => apply stays_bind; [|intros ?]
  | |- stays _ _ _ _ _ (mret _) => apply stays_ret
  | |- stays _ _ _ _ _ panic => apply stays_panic; assumption
  | |- stays _ _ _ _ _ pause => apply stays_pause; assumption
  | |- stays _ _ _ _ _ out_of_fuel => apply stays_fuel
  | |- stays _ _ _ _ _ (if ?b then _ else _) => destruct b
  | |- stays _ _ _ _ _ (match ?x with _ => _ end) => destruct x
  | |- stays _ _ _ _ _ _ => solve [eauto with observed]
  end.

(** ** Waits, port calls and the model driver *)

Section calls.
Context `{SerdeJson} (id : LoopId) (s0 : LoopEventSink) (W : list (ToolCallId * ToolProgress) → Prop) (E : Observer → Prop) (ob : Observer).
Context (open : E ob).
Notation stays := (stays id s0 W E ob).

Section port.
Context {T Er : Type} (pop : World → World * poll (result Er T)) (on_pending : exec ()).
Context (pop_stays : stays (atomically pop)) (pending_stays : stays on_pending).

Lemma stays_port_wait deadline polls : stays (port_wait pop on_pending deadline polls).
Proof. induction polls as [|n IH]; cbn [port_wait]; stays_tac. Qed.
Lemma stays_run_port_call left call turn timeout :
  issues [call] = [] → stays (run_port_call pop on_pending left call turn timeout).
Proof.
  intros Hc. unfold run_port_call. pose proof stays_port_wait. stays_tac.
Qed.
End port.

Section driver.
Context (k : N) (at_model : ob_stage ob = SgModel) (index : k = ls_request_index (ob_state ob)).

Lemma stays_forward_progress value dropped : stays (forward_progress id k value dropped).
Proof.
  unfold forward_progress. destruct value; stays_tac; apply stays_emit; simpl;
    by rewrite at_model, index, N.eqb_refl; unfold ours; rewrite bool_decide_true.
Qed.
#[local] Hint Resolve stays_forward_progress : observed.
Lemma stays_drain_progress queue : ∀ dropped, stays (drain_progress id k queue dropped).
Proof. induction queue as [|v q IH]; intros dropped; cbn [drain_progress]; stays_tac. Qed.
#[local] Hint Resolve stays_drain_progress : observed.
Lemma stays_yield_now p : stays (yield_now id k p).
Proof. unfold yield_now. stays_tac. Qed.
Lemma stays_attempt_cancelled child : stays (attempt_cancelled child).
Proof. unfold attempt_cancelled. stays_tac. Qed.
Lemma stays_precheck deadline source : stays (precheck deadline source).
Proof. unfold precheck. stays_tac. Qed.
Lemma stays_pop_start : stays (atomically pop_start).
Proof. apply stays_frame. intros w. unfold pop_start. by destruct (w_start_polls w). Qed.
Lemma stays_pop_stream : stays (atomically pop_stream).
Proof. apply stays_frame. intros w. unfold pop_stream. by destruct (w_stream_polls w). Qed.
#[local] Hint Resolve stays_yield_now stays_attempt_cancelled stays_precheck stays_pop_start stays_pop_stream : observed.

Lemma stays_start_wait deadline polls : ∀ child, stays (start_wait deadline child polls).
Proof. induction polls as [|n IH]; intros child; cbn [start_wait]; stays_tac. Qed.
Lemma stays_stream_loop deadline source polls : ∀ child assembler progress,
  stays (stream_loop id k deadline source child assembler progress polls).
Proof. induction polls as [|n IH]; intros child assembler progress; cbn [stream_loop]; stays_tac. Qed.
Lemma stays_retry_wait deadline source retry_at error polls :
  stays (retry_wait deadline source retry_at error polls).
Proof. induction polls as [|n IH]; cbn [retry_wait]; stays_tac. Qed.
#[local] Hint Resolve stays_start_wait stays_stream_loop stays_retry_wait : observed.
Lemma stays_run_attempt d request attempt deadline source progress :
  stays (run_attempt id k d request attempt deadline source progress).
Proof. unfold run_attempt, attempt_polls, drop_attempt. stays_tac. Qed.
Lemma stays_wait_for_retry deadline source delay error : stays (wait_for_retry deadline source delay error).
Proof. unfold wait_for_retry. stays_tac. Qed.
#[local] Hint Resolve stays_run_attempt stays_wait_for_retry : observed.
Lemma stays_attempt_loop d request deadline source fuel : ∀ attempt progress,
  stays (attempt_loop id k d request deadline source attempt progress fuel).
Proof. induction fuel as [|fuel IH]; intros attempt progress; cbn [attempt_loop]; stays_tac. Qed.
#[local] Hint Resolve stays_attempt_loop : observed.
Lemma stays_run_detailed d request turn_deadline progress :
  stays (run_detailed id k d request turn_deadline progress).
Proof. unfold run_detailed. stays_tac. Qed.
#[local] Hint Resolve stays_run_detailed : observed.
Lemma stays_run_model o snapshot request turn_deadline : stays (run_model id k o snapshot request turn_deadline).
Proof. unfold run_model. stays_tac. Qed.
End driver.
End calls.

(** ** The tool phase *)

(** The loop may come to its end. *)
Definition live (ob : Observer) : Prop := can_end (ob_stage ob) = true.

(** Neither a request was announced nor a tool reported finished in between. *)
Definition kept (ob ob' : Observer) : Prop := ob_issued ob' = ob_issued ob ∧ ob_tools ob' = ob_tools ob.

Section tools.
Context `{SerdeJson} (id : LoopId) (o : LoopOptions) (s0 : LoopEventSink).
Notation anything := (λ _ : list (ToolCallId * ToolProgress), True).
Notation sees := (sees id s0 anything live).
Notation stays := (stays id s0 anything live).

Lemma stays_turn_deadline ob d : live ob → stays ob (turn_deadline d).
Proof. intros Hl. unfold turn_deadline. stays_tac. Qed.
Lemma stays_release ob : stays ob release_interaction.
Proof. apply stays_with_ctl. intros c. simpl. unfold take_interaction. by destruct (c_interaction c). Qed.
Lemma stays_oneshot ob : stays ob (with_ctl oneshot_channel).
Proof. by apply stays_with_ctl. Qed.
Lemma stays_set_interaction ob slot : stays ob (with_ctl (λ c, set_interaction c slot)).
Proof. apply stays_with_ctl. intros c. unfold set_interaction. by destruct (c_interaction c). Qed.
Lemma stays_new_interaction_id ob : stays ob new_interaction_id.
Proof. apply stays_frame. intros w. by destruct (InteractionId_new _). Qed.
#[local] Hint Resolve stays_turn_deadline stays_release stays_oneshot stays_set_interaction
  stays_new_interaction_id : observed.
Lemma stays_receive_answer ob reply polls : live ob → stays ob (receive_answer o reply polls).
Proof. intros Hl. induction polls as [|n IH]; cbn [receive_answer]; stays_tac. Qed.
Lemma stays_decide_policy ob policy invocation turn : live ob → stays ob (decide_policy o policy invocation turn).
Proof.
  intros Hl. unfold decide_policy. destruct policy; stays_tac. apply stays_run_port_call; [done| |stays_tac|done].
  apply stays_frame. intros w. unfold pop_policy. by destruct (w_policy_polls w).
Qed.

(** A call is under way: its tool runs, and nothing is asked. *)
Record calling (i : N) (c : ToolCallId) (name : ToolName) (ob : Observer) : Prop := {
  cl_stage : ob_stage ob = SgCall c name;
  cl_index : ls_request_index (ob_state ob) = i;
  cl_state : ob_state ob = shown (ob_state ob) StRunningTools None;
}.
Lemma calling_live i c name ob : calling i c name ob → live ob.
Proof. intros []. unfold live. by rewrite cl_stage0. Qed.
#[local] Hint Resolve calling_live : observed.

(** *** Progress: what is queued is the running tool's. *)

Definition all_of (c : ToolCallId) (queue : list (ToolCallId * ToolProgress)) : Prop :=
  Forall (λ p, p.1 = c) queue.

Section progress.
Context (i : N) (c : ToolCallId) (name : ToolName) (ob : Observer) (call : calling i c name ob).
Notation sees_own := (Observed.sees id s0 (all_of c) live).
Notation stays_own := (Observed.stays id s0 (all_of c) live ob).

Lemma stays_own_queue {A} (f : World → World * A) :
  (∀ w, all_of c (w_tool_queue w) → all_of c (w_tool_queue (f w).1)) →
  (∀ w, ∃ ps queue dropped, (f w).1 = set_tool_queue (set_tool_polls ps w) queue dropped) →
  stays_own (atomically f).
Proof.
  intros Hq Hf. apply sees_atomically. intros w ((events & [] & He) & Hsh & HW). exists ob. split; [done|].
  specialize (Hq w HW). destruct (Hf w) as (ps & queue & dropped & Ew). rewrite Ew in *.
  split; [|by split]. exists events. by split.
Qed.

Lemma emit_progress_own ps : ∀ w,
  all_of c (w_tool_queue w) → all_of c (w_tool_queue (foldl (emit_progress c) w ps)).
Proof.
  induction ps as [|p ps IH]; intros w Hw; simpl; [done|]. apply IH. rewrite emit_progress_eq.
  destruct (is_err _); [done|]. destruct (_ <? _); [|done]. simpl. apply Forall_app. split; [done|by repeat constructor].
Qed.

Lemma stays_pop_tool : stays_own (atomically (pop_tool c)).
Proof.
  apply stays_own_queue; intros w; unfold pop_tool; destruct (w_tool_polls w) as [|[p ps] polls] eqn:Ep; simpl.
  - done.
  - intros Hw. by apply emit_progress_own.
  - exists (w_tool_polls w), (w_tool_queue w), (w_tool_dropped w). by destruct w.
  - rewrite emit_progress_frame. by eexists _, _, _.
Qed.
Lemma stays_record_tool_dropped : stays_own record_tool_dropped.
Proof.
  unfold record_tool_dropped. stays_tac. apply stays_own_queue; [done|]. intros w.
  exists (w_tool_polls w), (w_tool_queue w), 0. by destruct w.
Qed.
#[local] Hint Resolve stays_record_tool_dropped : observed.

Lemma stays_forward_tool_progress : stays_own (forward_tool_progress id i).
Proof.
  unfold forward_tool_progress. eapply sees_bind.
  - apply (sees_atomically _ _ _ _ _ ob (λ v ob', ob' = ob ∧ ∀ p, v = Some p → p.1 = c)).
    intros w ((events & [] & He) & Hsh & HW). exists ob.
    destruct (w_tool_queue w) as [|v queue] eqn:Eq; cbn [fst snd].
    + split; [done|]. split; [by exists events|]. split; [done|by rewrite Eq].
    + apply Forall_cons in HW as [Hv HW]. split; [split; [done|by intros p [= <-]]|].
      split; [exists events; by split|]. by split.
  - intros v ob' [-> Hv]. destruct v as [[call_id progress]|]; [|stays_tac].
    specialize (Hv _ eq_refl). simpl in Hv. subst call_id. stays_tac. apply stays_emit. simpl. destruct call.
    rewrite cl_stage0, cl_index0, N.eqb_refl, bool_decide_true by done. unfold ours. by rewrite bool_decide_true.
Qed.
#[local] Hint Resolve stays_forward_tool_progress : observed.
Lemma stays_drain_tool_progress n : stays_own (drain_tool_progress id i n).
Proof. induction n as [|n IH]; cbn [drain_tool_progress]; stays_tac. Qed.
#[local] Hint Resolve stays_drain_tool_progress : observed.

(** The channel of a call starts empty. *)
Lemma sees_fresh_queue {B} (k : () → exec B) Q :
  sees_own (k ()) ob Q → sees (atomically (λ w, (set_tool_queue w [] 0, ())) ≫= k) ob Q.
Proof.
  intros Hk w (Ht & Hsh & _)%tick_seen. unfold mbind, exec_bind, atomically. set (w1 := set_tool_queue _ _ _).
  assert (Observed.seen id s0 (all_of c) ob w1) as Hw.
  { destruct Ht as (events & [] & He). split; [by exists events|]. split; [done|constructor]. }
  specialize (Hk w1 Hw). by eapply ends_weaken in Hk.
Qed.

Lemma stays_run_tool_port invocation turn :
  ti_tool_call_id invocation = c → stays ob (run_tool_port id o i invocation turn).
Proof.
  intros Hc. apply calling_live in call as Hl. unfold run_tool_port, after_tool. rewrite Hc.
  apply sees_fresh_queue. stays_tac. apply stays_run_port_call; [done|apply stays_pop_tool|stays_tac|done].
Qed.
End progress.

(** *** Interactions and one call *)

(** What a step leaves that either comes back to the running call or ends the loop. *)
Definition back_or_end {A} (ok : A → Prop) (back : A → bool) (ob : Observer) (a : A) (ob' : Observer) : Prop :=
  if back a then ob' = ob ∧ ok a else live ob' ∧ kept ob ob'.

Lemma sees_wait_interaction i c name ob invocation iid kind reply :
  calling i c name ob → ti_tool_call_id invocation = c → ti_tool_name invocation = name →
  sees (wait_interaction id o invocation iid kind reply) ob (back_or_end (λ _, True) is_ok ob).
Proof.
  intros Hcl Hc Hn. apply calling_live in Hcl as Hl. destruct Hcl as [Hst Hi Hs].
  unfold wait_interaction. rewrite Hc, Hn. set (pending := mkPendingInteraction _ _ _ _).
  apply sees_stays_bind; [stays_tac|]. intros [[]|]; [|apply sees_ret; by split].
  apply sees_current_bind.
  eapply sees_publish_bind; [simpl; rewrite Hst; simpl; by rewrite !bool_decide_true|].
  eapply sees_emit_bind; [simpl; rewrite bool_decide_true by done; apply ours_id|done|done|].
  set (waiting := at_stage _ _). assert (live waiting ∧ kept ob waiting) as [Hw Hk] by done.
  apply sees_stays_bind; [stays_tac|]. intros polls.
  apply sees_stays_bind; [by apply stays_receive_answer|]. intros [a|path]; [|apply sees_ret; by split].
  apply sees_stays_bind; [stays_tac|]. intros [].
  eapply sees_emit_bind; [simpl; rewrite bool_decide_true by done; apply ours_id|done|done|].
  apply sees_current_bind. eapply sees_publish_bind; [done|]. apply sees_ret. split; [|done].
  unfold shown in Hs. unfold with_waiting. simpl. rewrite <- Hs, <- Hst. by destruct ob.
Qed.

Lemma sees_interact i c name ob invocation kind :
  calling i c name ob → ti_tool_call_id invocation = c → ti_tool_name invocation = name →
  sees (interact id o invocation kind) ob (back_or_end (λ _, True) is_ok ob).
Proof.
  intros Hcl Hc Hn. apply calling_live in Hcl as Hl. unfold interact.
  apply sees_stays_bind; [stays_tac|]. intros [iid|]; [|apply sees_ret; by split].
  apply sees_stays_bind; [stays_tac|]. intros reply. by eapply sees_wait_interaction.
Qed.

(** A result addressed to its call. *)
Definition addressed (i : N) (c : ToolCallId) (r : ToolResultHistory) : Prop :=
  trh_request_index r = i ∧ trh_call_id r = c.
Definition step_addressed (i : N) (c : ToolCallId) (step : ToolStep) : Prop :=
  match step with StepResult r => addressed i c r | StepEnd _ => True end.
Definition is_result (step : ToolStep) : bool := match step with StepResult _ => true | StepEnd _ => false end.

Lemma terminal_addressed i c name outcome message max r :
  terminal_tool_result id i c name outcome message max = Some r → addressed i c r.
Proof. unfold terminal_tool_result. intros (out & _ & [= <-])%bind_Some. done. Qed.
Lemma completed_addressed i inv output max r :
  completed_result id i inv output max = Some r → addressed i (ti_tool_call_id inv) r.
Proof. unfold completed_result. destruct (_ <=? _); [by intros [= <-]|apply terminal_addressed]. Qed.
Lemma provided_addressed i inv content max r :
  provided_input_result id i inv content max = Some r → addressed i (ti_tool_call_id inv) r.
Proof.
  unfold provided_input_result. destruct (_ <=? _); [|apply terminal_addressed].
  destruct (ToolOutput_new content); [by intros [= <-]|apply terminal_addressed].
Qed.
Lemma denied_addressed i inv reason max r :
  denied_result id i inv reason max = Some r → addressed i (ti_tool_call_id inv) r.
Proof. unfold denied_result. intros (out & _ & [= <-])%bind_Some. done. Qed.

Section call.
Context (i : N) (invocation : ToolInvocation) (ob : Observer).
Context (call : calling i (ti_tool_call_id invocation) (ti_tool_name invocation) ob).
Notation answers m := (sees m ob (back_or_end (step_addressed i (ti_tool_call_id invocation)) is_result ob)).

Lemma sees_result (r : option ToolResultHistory) :
  (∀ x, r = Some x → addressed i (ti_tool_call_id invocation) x) → answers (x ← expect r; mret (StepResult x)).
Proof.
  intros Hr. apply calling_live in call as Hl.
  eapply sees_bind; [apply (sees_expect _ _ _ _ r ob (λ x ob', ob' = ob ∧ addressed i (ti_tool_call_id invocation) x)); [done|]|].
  - intros x Hx. split; [done|by apply Hr].
  - intros x ob' [-> Hx]. by apply sees_ret.
Qed.
Lemma sees_end path : answers (mret (StepEnd path)).
Proof. apply sees_ret. split; [by eapply calling_live|done]. Qed.

Lemma sees_execute_tool : answers (execute_tool id o i invocation).
Proof.
  apply calling_live in call as Hl. unfold execute_tool.
  apply sees_stays_bind; [stays_tac|]. intros turn.
  apply sees_stays_bind; [by eapply stays_run_tool_port|]. intros [output|request| |path].
  - apply sees_result. intros r. apply completed_addressed.
  - eapply sees_bind; [by eapply sees_interact|]. intros [a|path] ob' Hx.
    + destruct Hx as [-> _]. destruct a as [decision|a]; [apply sees_end|].
      apply sees_stays_bind; [stays_tac|]. intros content. apply sees_result. intros r. apply provided_addressed.
    + by apply sees_ret.
  - apply sees_result. intros r. apply terminal_addressed.
  - apply sees_end.
Qed.

Lemma sees_run_tool_call policy : answers (run_tool_call id o i invocation policy).
Proof.
  apply calling_live in call as Hl. unfold run_tool_call, deny_call.
  apply sees_stays_bind; [stays_tac|]. intros turn.
  apply sees_stays_bind; [by apply stays_decide_policy|]. intros [|reason|request| | |]; try apply sees_end.
  - apply sees_execute_tool.
  - apply sees_result. intros r. apply denied_addressed.
  - eapply sees_bind; [by eapply sees_interact|]. intros [a|path] ob' Hx; [|by apply sees_ret].
    destruct Hx as [-> _]. destruct a as [[]|a]; [apply sees_execute_tool| |apply sees_end].
    apply sees_result. intros r. apply denied_addressed.
Qed.
End call.

(** *** The batch *)

(** The results of a history, as the events report them. *)
Definition tool_done (r : ToolResultHistory) : ToolDone :=
  mkToolDone (trh_request_index r) (trh_call_id r) (trh_outcome r) (byte_len (to_content (trh_output r))).
Definition results_done (items : list HistoryItem) : list ToolDone :=
  omap (λ item, match item with HiToolResult r => Some (tool_done r) | _ => None end) items.

(** Every call reported finished has its result recorded, in the same order. *)
Definition recorded (working : WorkingHistory) (ob : Observer) : Prop :=
  ob_tools ob `sublist_of` results_done (wh_appended working).

Lemma recorded_append working items ob :
  recorded working ob → recorded (mkWorkingHistory (wh_base working) (wh_appended working ++ items)) ob.
Proof. unfold recorded, results_done. simpl. rewrite omap_app. by apply sublist_inserts_r. Qed.
Lemma recorded_kept working ob ob' : kept ob ob' → recorded working ob → recorded working ob'.
Proof. unfold recorded. by intros [_ ->]. Qed.

Lemma settle_calls_appends i outcome message calls : ∀ working working',
  settle_calls id o working i calls outcome message = Some working' →
  ∃ items, working' = mkWorkingHistory (wh_base working) (wh_appended working ++ items).
Proof.
  induction calls as [|c cs IH]; intros working working'; simpl.
  - intros [= <-]. exists []. rewrite app_nil_r. by destruct working.
  - intros (r & _ & Hs)%bind_Some. apply IH in Hs as (items & ->). simpl. rewrite <- app_assoc. eauto.
Qed.

(** The loop runs tools, and nothing else. *)
Record in_tools (i : N) (ob : Observer) : Prop := {
  it_stage : ob_stage ob = SgTools;
  it_index : ls_request_index (ob_state ob) = i;
  it_state : ob_state ob = shown (ob_state ob) StRunningTools None;
}.
Lemma in_tools_live i ob : in_tools i ob → live ob.
Proof. intros []. unfold live. by rewrite it_stage0. Qed.

(** Where a batch leaves the observer: with the tools, or at an end of the loop. *)
Definition batch_seen (i : N) (ob : Observer) (r : WorkingHistory * option FailPath) (ob' : Observer) : Prop :=
  recorded r.1 ob' ∧ ob_issued ob' = ob_issued ob ∧
  match r.2 with
  | None => in_tools i ob' ∧ ls_config_revision (ob_state ob') = ls_config_revision (ob_state ob)
  | Some _ => live ob'
  end.

Lemma sees_run_tool_batch i snapshot calls : ∀ working ob,
  in_tools i ob → recorded working ob →
  sees (run_tool_batch id o working i snapshot calls) ob (batch_seen i ob).
Proof.
  induction calls as [|c cs IH]; intros working ob Ht Hrep; cbn [run_tool_batch]; [by apply sees_ret|].
  apply in_tools_live in Ht as Hl.
  apply sees_stays_bind; [stays_tac|]. intros cancelled.
  set (inv := mkToolInvocation _ _ _).
  eapply (sees_bind _ _ _ _ _ _ _ (λ step ob', match step with
    | StepResult r => addressed i (tc_tool_call_id c) r ∧ ob' = at_stage ob (SgCall (tc_tool_call_id c) (tc_name c))
    | StepEnd _ => live ob' ∧ kept ob ob'
    end)).
  - destruct cancelled; [by apply sees_ret|]. apply sees_stays_bind; [stays_tac|]. intros _.
    destruct Ht. eapply sees_emit_bind; [simpl; rewrite it_stage0, it_index0, N.eqb_refl; apply ours_id|done|done|].
    eapply sees_mono; [apply (sees_run_tool_call i inv); by split|].
    intros [r|path] ob' Hx; [by destruct Hx as [-> ?]|done].
  - intros [r|path] ob' Hx.
    + destruct Hx as [[Hri Hrc] ->].
      eapply sees_emit_bind.
      { simpl. rewrite (it_index _ _ Ht), N.eqb_refl, bool_decide_true by done. apply ours_id. }
      1,2: done.
      eapply sees_mono; [apply IH; [by destruct Ht|]|by intros].
      unfold recorded, results_done. simpl. rewrite omap_app. apply sublist_app; [done|]. simpl.
      unfold tool_done. by rewrite Hri, Hrc.
    + destruct Hx as [Hl' Hk]. eapply sees_bind.
      { apply (sees_expect _ _ _ _ _ _ (λ w2 ob2, ob2 = ob' ∧ recorded w2 ob')); [done|].
        intros w2 (items & ->)%settle_calls_appends. split; [done|]. by eapply recorded_append, recorded_kept. }
      intros w2 ob2 [-> Hrep2]. apply sees_ret. split; [done|]. by destruct Hk.
Qed.
End tools.

(** ** The turns of the loop *)

Section turns.
Context `{SerdeJson} (id : LoopId) (o : LoopOptions) (s0 : LoopEventSink).
Notation sees := (sees id s0 (λ _, True) live).
Notation stays := (stays id s0 (λ _, True) live).

(** The locals agree with what was announced. *)
Record accounted (l : Locals) (ob : Observer) : Prop := {
  ac_live : live ob;
  ac_issued : l_last_issued l = last_index ob;
  ac_recorded : recorded (l_working l) ob;
}.

(** Before a turn: the state it will show first is the next one. *)
Definition turn_ready (l : Locals) (ob : Observer) : Prop :=
  accounted l ob ∧
  transition id ob StStarting None
    = Some (LoopState_new id StStarting (l_request_index l) (l_issued_revision l), SgPreparing).

Definition turn_seen (t : Turn) (ob : Observer) : Prop :=
  match t with
  | TurnContinue l => turn_ready l ob
  | TurnBreak l _ _ => accounted l ob
  end.

(** What a boundary does to the locals: it appends user items, and may replace the
    configuration. *)
Record rebased (l l' : Locals) : Prop := {
  rb_index : l_request_index l' = l_request_index l;
  rb_revision : l_issued_revision l' = l_issued_revision l;
  rb_last : l_last_issued l' = l_last_issued l;
  rb_recorded : ∀ ob, recorded (l_working l) ob → recorded (l_working l') ob;
}.

Lemma rebased_accounted l l' ob : rebased l l' → accounted l ob → accounted l' ob.
Proof. intros [] []. split; [done|congruence|auto]. Qed.
Lemma rebased_ready l l' ob : rebased l l' → turn_ready l ob → turn_ready l' ob.
Proof.
  intros Hr [Ha Ht]. split; [by eapply rebased_accounted|]. destruct Hr. by rewrite Ht, rb_index0, rb_revision0.
Qed.

Lemma steer_recorded inputs ob : ∀ working,
  recorded working ob → recorded (foldl (steer id) working inputs) ob.
Proof. induction inputs as [|input inputs IH]; intros working Hr; simpl; [done|]. by apply IH, recorded_append. Qed.

Lemma sees_take_boundary l last_reference ob :
  live ob → sees (take_boundary id l last_reference) ob (λ r ob', ob' = ob ∧ rebased l r.1.1).
Proof.
  intros Hl. unfold take_boundary. apply sees_stays_bind; [by apply stays_with_ctl|]. intros candidate.
  apply (sees_bind _ _ _ _ _ _ _ (λ (r : Locals * bool) ob', ob' = ob ∧ rebased l r.1)).
  - destruct candidate as [[revision config]|]; [|by apply sees_ret].
    apply sees_stays_bind; [stays_tac|]. intros []. by apply sees_ret.
  - intros [l1 replaced] ob' [-> []]. apply sees_stays_bind; [stays_tac|]. intros inputs. apply sees_ret.
    split; [done|]. split; [done..|]. intros ob' Hob'. by apply steer_recorded, rb_recorded0.
Qed.

Lemma stays_prepare_prompt ob k turn : live ob → stays ob (prepare_prompt o k turn).
Proof.
  intros Hl. unfold prepare_prompt. stays_tac. apply stays_run_port_call; [done| |stays_tac|done].
  apply stays_frame. intros w. unfold pop_prompt. by destruct (w_prompt_polls w).
Qed.
Lemma stays_map_model_failure ob failure : stays ob (map_model_failure failure).
Proof. unfold map_model_failure. stays_tac. Qed.
Lemma stays_past_deadline ob : stays ob (past_deadline o).
Proof. unfold past_deadline. stays_tac. Qed.
#[local] Hint Resolve stays_prepare_prompt stays_map_model_failure stays_past_deadline stays_turn_deadline : observed.

(** The model runs under the state that was shown. *)
Record in_model (l : Locals) (ob : Observer) : Prop := {
  im_stage : ob_stage ob = SgModel;
  im_state : ob_state ob = state_of id l StRunningModel (l_issued_revision l);
  im_accounted : accounted l ob;
}.

Lemma sees_tool_round l calls ob : in_model l ob → sees (tool_round id o l calls) ob turn_seen.
Proof.
  intros [Hst Hs Ha]. pose proof Ha as [Hl Hlast Hrep]. unfold tool_round. destruct (_ && _).
  - eapply sees_bind.
    { apply (sees_expect _ _ _ _ _ _ (λ w2 ob2, ob2 = ob ∧ recorded w2 ob)); [done|].
      intros w2 (items & ->)%settle_calls_appends. split; [done|]. by apply recorded_append. }
    intros w2 ob2 [-> Hrep2]. apply sees_ret. by split.
  - set (l1 := mkLocals _ _ _ _ _ _ _ _ _).
    eapply sees_publish_bind; [simpl; rewrite Hst, Hs; done|]. cbn [ob_issued ob_tools].
    eapply sees_bind; [apply sees_run_tool_batch; [by split|done]|].
    intros [working [path|]] ob2 (Hrep2 & Hi & Hx); apply sees_ret.
    + split; [done| |done]. unfold last_index. by rewrite Hi.
    + destruct Hx as [[Hst2 Hi2 Hs2] Hr2]. cbn [snd fst ob_state] in *.
      split; [split; [by eapply in_tools_live|unfold last_index; by rewrite Hi|done]|].
      simpl. rewrite Hst2, Hi2, Hr2. done.
Qed.

Lemma sees_use_response l response ob : in_model l ob → sees (use_response id o l response) ob turn_seen.
Proof.
  intros [Hst Hs [Hl Hlast Hrep]]. unfold use_response.
  destruct (UsageAccumulator_add _ _) as [usage added]. destruct added as [[]|[]]; [|by apply sees_ret].
  set (l1 := mkLocals _ _ _ _ _ _ _ _ _). set (l2 := with_working l1 _).
  assert (accounted l2 ob) as Ha2 by (split; [done..|by apply recorded_append]).
  assert (accounted l1 ob) as Ha1 by done.
  destruct (tool_calls (resp_parts response)) as [|c cs]; [|by apply sees_tool_round].
  apply sees_stays_bind; [stays_tac|]. intros [path []]; [destruct path; by apply sees_ret|].
  destruct path; try by apply sees_ret. apply sees_stays_bind; [by apply stays_with_ctl|]. intros discarded. by apply sees_ret.
Qed.

Lemma sees_issue_request l request ob :
  ob_stage ob = SgPreparing → ls_request_index (ob_state ob) = l_request_index l →
  recorded (l_working l) ob → sees (issue_request id o l request) ob turn_seen.
Proof.
  intros Hst Hi Hrep. unfold issue_request. set (l1 := mkLocals _ _ _ _ _ _ _ _ _).
  apply sees_issue; [done..|].
  eapply sees_publish_bind; [done|]. cbn [ob_issued ob_tools]. set (ob1 := mkObserver _ _ _ _).
  assert (in_model l1 ob1) as Hm.
  { split; [done..|]. split; [done| |done]. unfold last_index, ob1. simpl. by rewrite last_snoc. }
  assert (live ob1) as Hl by done.
  apply sees_stays_bind; [stays_tac|]. intros turn.
  apply sees_stays_bind; [by apply stays_run_model|]. intros [response|driver]; [by apply sees_use_response|].
  apply sees_stays_bind; [stays_tac|]. intros path. apply sees_ret. apply Hm.
Qed.

Lemma sees_iteration l ob : turn_ready l ob → sees (iteration id o l) ob turn_seen.
Proof.
  intros [Ha Ht]. pose proof Ha as [Hl _ _]. unfold iteration.
  apply sees_stays_bind; [stays_tac|]. intros []; [by apply sees_ret|].
  apply sees_stays_bind; [stays_tac|]. intros []; [by apply sees_ret|].
  eapply sees_bind; [by apply sees_take_boundary|]. intros [[l1 taken1] replaced1] ob' [-> Hr1]. cbn [fst] in Hr1.
  destruct (rebased_ready _ _ _ Hr1 (conj Ha Ht)) as [[_ Hlast1 Hrep1] Ht1].
  eapply sees_publish_bind; [exact Ht1|]. set (ob1 := mkObserver _ _ _ _).
  assert (turn_ready l1 ob1) as Hready by (by split).
  assert (live ob1) as Hl1 by done.
  apply sees_stays_bind; [stays_tac|]. intros turn.
  apply sees_stays_bind; [stays_tac|]. intros [messages|path]; [|by apply sees_ret; apply Hready].
  eapply sees_bind; [by apply sees_take_boundary|]. intros [[l2 taken] replaced] ob' [-> Hr2]. cbn [fst] in Hr2.
  pose proof (rebased_ready _ _ _ Hr2 Hready) as Hready2.
  destruct taken.
  - apply sees_stays_bind; [stays_tac|]. intros []. by apply sees_ret.
  - destruct (build_model_request messages _); [|by apply sees_ret; apply Hready2].
    apply sees_issue_request; [done| |apply Hready2]. simpl. by rewrite (rb_index _ _ Hr2).
Qed.

Lemma sees_run_loop_turns fuel : ∀ l ob,
  turn_ready l ob → sees (run_loop_turns id o l fuel) ob (λ r ob', accounted r.1.1 ob').
Proof.
  induction fuel as [|fuel IH]; intros l ob Hr; cbn [run_loop_turns]; [by intros w _|].
  eapply sees_bind; [by apply sees_iteration|]. intros [l'|l' path discarded] ob' Ht; [by apply IH|by apply sees_ret].
Qed.
End turns.

(** ** The end *)

Lemma wp_sees `{SerdeJson} id s0 W E {A} (m : exec A) w ob Q P Q' :
  wp m w Q P → seen id s0 W ob w → sees id s0 W E m ob Q' →
  wp m w (λ a w', Q a w' ∧ ∃ ob', Q' a ob' ∧ seen id s0 W ob' w') (λ b w', P b w' ∧ ∃ ob', E ob' ∧ seen id s0 W ob' w').
Proof.
  intros Hm Hw Hs. specialize (Hs w Hw). unfold wp in *. destruct (m w); simpl in *; try done; by split.
Qed.

(** A step whose result is known. *)
Lemma ends_step `{SerdeJson} id s0 W E {A B} (m : exec A) (k : A → exec B) w a w1 Q :
  m w = Done a w1 → ends id s0 W E Q (k a w1) → ends id s0 W E Q ((m ≫= k) w).
Proof. unfold mbind, exec_bind. by intros ->. Qed.

Section ending.
Context `{SerdeJson} (id : LoopId) (o : LoopOptions) (s0 : LoopEventSink).
Notation seen := (seen id s0 (λ _, True)).
Notation stays := (stays id s0 (λ _, True)).

(** The stream has come to the end the report tells. *)
Definition announced (report : LoopReport) (ob : Observer) : Prop :=
  ob_stage ob = SgDone (outcome_summary (lr_outcome report)) ∧
  ob_tools ob `sublist_of` results_done (lr_appended report).

Lemma stays_drop_config E ob config : stays E ob (drop_config config).
Proof. unfold drop_config. stays_tac. Qed.

Lemma seal_running w : running w →
  ∃ finish discarded w', seal w = Done (finish, discarded) w' ∧ finish ≠ SealAlreadyFinished ∧
    ∀ ob, seen ob w → seen ob w'.
Proof.
  intros Hr. destruct (tick_step w) as [[] _]. apply so_running in Hr as [Hs Hc].
  destruct (finish_once_spec (w_ctl (tick w))) as (finish & Hf & Hfin); [unfold state_ok; lia|].
  unfold seal, mbind, exec_bind, with_ctl, atomically. rewrite Hf. do 3 eexists. split; [done|]. split.
  - rewrite Hfin. destruct (_ =? STATE_NONE); [done|].
    destruct (N.eqb_spec (c_state (w_ctl (tick w))) STATE_FINISHED); [lia|done].
  - intros ob Hw%tick_seen. destruct Hw as ((events & [] & He) & Hsh & _). split; [|by split].
    exists events. by split.
Qed.

(** From the seal to the report: both final states, the report, and its event. *)
Lemma sees_deliver ob report last_issued revision discarded :
  live ob → last_issued = last_index ob → revision = last_revision ob →
  ob_tools ob `sublist_of` results_done (lr_appended report) →
  Observed.sees id s0 (λ _, True) (λ _, False)
    (publish_final_states id (default 0 last_issued) revision;;
     complete report;;
     emit (LeFinished id (outcome_summary (lr_outcome report)));;
     with_ctl (λ c, (fire_token c, ()));;
     drop_config discarded;;
     mret report) ob (λ r ob', r = report ∧ announced report ob').
Proof.
  intros Hl -> -> Hrep. unfold publish_final_states.
  eapply sees_bind.
  - eapply sees_bind; [apply (sees_read_ctl _ _ _ _ _ ob (λ m ob', ob' = ob ∧ m = ls_model (ob_state ob)))|].
    { intros c [Hc _]. split; [done|]. unfold current_state. by rewrite Hc. }
    intros model ob' [-> ->]. eapply sees_publish_bind; [simpl; by rewrite Hl|].
    set (ob1 := mkObserver _ _ _ _).
    eapply sees_bind; [apply (sees_read_ctl _ _ _ _ _ ob1 (λ m ob', ob' = ob1 ∧ m = ls_model (ob_state ob1)))|].
    { intros c [Hc _]. split; [done|]. unfold current_state. by rewrite Hc. }
    intros model ob' [-> ->].
    by apply (sees_publish _ _ _ _ _ ob1 SgFinished (λ _ ob', ob_stage ob' = SgFinished ∧ ob_tools ob' = ob_tools ob)).
  - intros [] ob2 [Hst Ht]. eapply sees_stays_bind; [unfold complete; stays_tac; by apply stays_with_ctl|]. intros [].
    eapply sees_emit_bind; [simpl; rewrite Hst; apply ours_id|done|done|].
    eapply sees_stays_bind; [by apply stays_with_ctl|]. intros [].
    eapply sees_stays_bind; [apply stays_drop_config|]. intros []. apply sees_ret.
    split; [done|]. split; [done|]. simpl. by rewrite Ht.
Qed.

Lemma finish_loop_seen path working usage requests last_issued rounds ob w :
  running w → seen ob w → live ob → last_issued = last_index ob → recorded working ob →
  wp (finish_loop id path working usage requests last_issued rounds) w
    (λ report w', delivered w [] report w' ∧ ∃ ob', announced report ob' ∧ seen ob' w') (λ _ _, False).
Proof.
  intros Hr Hw Hl Hli Hrep. pose proof (finish_loop_spec id w path working usage requests last_issued rounds Hr) as Hspec.
  assert (ends id s0 (λ _, True) (λ _, False) announced
    (finish_loop id path working usage requests last_issued rounds w)) as Hends.
  { unfold finish_loop. assert (running (tick w)) as Hr1 by (by apply (tick_step w)). apply tick_seen in Hw.
    eapply ends_step; [done|]. replace (applied_revision (w_ctl (tick w))) with (last_revision ob) by (symmetry; apply Hw).
    destruct (outcome_for_returns path (tick w)) as (intended & w2 & Hint & Hw2 & _). eapply ends_step; [exact Hint|].
    assert (running w2 ∧ seen ob w2) as [Hr2 Hs2].
    { destruct Hw2 as [->| ->]; [done|]. split; [by apply (tick_step (tick w))|by apply tick_seen]. }
    destruct (seal_running w2 Hr2) as (finish & discarded & w3 & Hseal & Hne & Hs3). apply Hs3 in Hs2.
    eapply ends_step; [exact Hseal|].
    destruct finish; [| |done]; (eapply (sees_mono _ _ _ _ _ ob); [by apply sees_deliver|by intros r ob' [-> ?]|done]). }
  unfold wp, ends in *. destruct (finish_loop _ _ _ _ _ _ _ w); try done. split; [apply Hspec|done].
Qed.
End ending.

(** ** The whole loop *)

Section whole.
Context `{SerdeJson} (id : LoopId) (o : LoopOptions) (request : LoopRequest) (w0 : World).
Hypothesis options_valid : options_ok o.
Hypothesis start : ready request w0.
Notation seen := (seen id (w_sink w0) (λ _, True)).
Notation told := (told id (w_sink w0)).

Lemma last_sync_seen t report ob w :
  delivered w0 t report w → seen ob w → announced report ob →
  wp (host_sync;; mret report) w (λ r w', r = report ∧ ∃ ob', announced report ob' ∧ seen ob' w')
    (λ b w', b = true ∧ delivered w0 t report w' ∧ ∃ ob', announced report ob' ∧ seen ob' w').
Proof.
  intros Hd Hw Ha. eapply wp_mono; [eapply (wp_sees _ _ _ (announced report) _ _ ob _ _ (λ _ ob', announced report ob')); [by apply (last_sync_spec w0 t)|done|]| |].
  - apply (sees_mono _ _ _ _ _ _ (λ _ ob', ob' = ob)); [stays_tac|by intros r ob' ->].
  - by intros r w' [[-> _] Hs].
  - by intros b w' [[-> Hd'] Hs].
Qed.

Lemma run_loop_inner_seen :
  seen (Observer_new id) w0 →
  wp (run_loop_inner id o request) w0 (λ report w', ∃ ob, announced report ob ∧ seen ob w')
    (λ b w', (turn_stop w0 w' ∧ ∃ ob, live ob ∧ seen ob w') ∨
       b = true ∧ ∃ t report, delivered w0 t report w' ∧ ∃ ob, announced report ob ∧ seen ob w').
Proof.
  intros Hseen. unfold run_loop_inner. apply wp_atomically. cbn [fst snd].
  apply wp_atomically. cbn [fst snd]. pose proof (core_entered id o request w0 start) as Hc. set (ob := at_stage (Observer_new id) SgStarted).
  fold (entered id w0). assert (seen ob (entered id w0)) as Hw2.
  { unfold entered. apply tick_seen. assert (Observed.sees id (w_sink w0) (λ _, True) live (emit (LeStarted id)) (Observer_new id) (λ _ ob', ob' = ob)) as Hem
      by (eapply (sees_emit _ _ _ _ _ _ ob); [apply ours_id|done..]).
    destruct (Hem w0 Hseen) as (ob' & -> & Hs). exact Hs. }
  set (w2 := entered id w0) in *.
  assert (turn_ready id (start_locals id request) ob) as Hready.
  { split; [|done]. split; [done|done|]. apply sublist_nil_l. }
  eapply wp_bind.
  { eapply wp_mono; [eapply (wp_sees _ _ _ live _ w2); [apply (run_loop_turns_spec id o request options_valid w0 (S (polls w2)) _ _ _ Hc);
      [done|unfold polls; lia]|exact Hw2|by apply sees_run_loop_turns]|intros r w3 Hx; exact Hx|by left]. }
  intros [[l path] discarded] w3 [(t & Hc3 & _) (ob3 & [Hl Hli Hrep] & Hs3)]. simpl in *.
  eapply wp_bind; [eapply wp_mono; [apply (finish_loop_seen id (w_sink w0) _ _ _ _ _ _ ob3); [apply Hc3|done..]|intros r w4 Hx; exact Hx|done]|].
  intros report w4 (Hd & ob4 & Ha4 & Hs4). apply (delivered_from w0 t) in Hd; [|apply Hc3].
  eapply wp_bind.
  { eapply wp_mono; [eapply (wp_sees _ _ _ live _ w4); [by apply (drop_config_delivered w0 t)|exact Hs4|apply stays_drop_config]|
      intros r w5 Hx; exact Hx|by intros b w5 [[] _]]. }
  intros [] w5 (Hd5 & ob5 & -> & Hs5). eapply wp_mono; [by eapply last_sync_seen| |].
  - by intros r w' [-> Hx].
  - intros b w' (-> & Hd6 & Hx). right. split; [done|]. by exists t, report.
Qed.

(** The report of a panic is not announced: the events stay as they are. *)
Definition silent_step (w w' : World) : Prop := ∀ ob, told ob w → told ob w'.
#[local] Instance silent_step_preorder : PreOrder silent_step.
Proof. split; [by intros w ob|]. intros w1 w2 w3 H12 H23 ob Hw. by apply H23, H12. Qed.

Lemma silent_atomically {A} (f : World → World * A) :
  (∀ w, w_sink (f w).1 = w_sink w ∧ w_sink_ops (f w).1 = w_sink_ops w ∧ w_trace (f w).1 = w_trace w) →
  keeps silent_step (atomically f).
Proof.
  intros Hf. apply keeps_atomically; [apply _|intros w ob; apply tick_told|].
  intros w ob (events & [] & He). destruct (Hf w) as (Hs & Ho & Ht). exists events. split; [|done]. split; congruence.
Qed.
Lemma silent_with_ctl {A} (f : LoopControl → LoopControl * A) : keeps silent_step (with_ctl f).
Proof. apply silent_atomically. intros w. by destruct (f (w_ctl w)). Qed.

Lemma silent_panic_report : keeps silent_step (panic_report id).
Proof.
  unfold panic_report, seal, complete, drop_config.
  assert (∀ r, keeps silent_step (trace (HcPublish r))).
  { intros r w ob (events & [] & He). exists events. split; [|done]. split; simpl; [done| |done].
    by rewrite issues_app, lg_issued0, app_nil_r. }
  assert (keeps silent_step host_panics) by (apply silent_atomically; intros w; by destruct (w_sync w)).
  assert (∀ A (a : option A), keeps silent_step (expect a)) by (intros A []; [apply keeps_ret, _|apply keeps_panic, _]).
  assert (∀ A (f : LoopControl → A), keeps silent_step (read_ctl f)) by (intros; by apply silent_atomically).
  repeat (first [apply keeps_bind; [apply _| |intros ?]|apply keeps_ret, _|apply silent_with_ctl|
    match goal with |- keeps _ (match ?x with _ => _ end) => destruct x end|solve [auto]]).
Qed.

Lemma run_loop_seen :
  seen (Observer_new id) w0 →
  wp (run_loop id o request) w0
    (λ report w', ∃ ob, told ob w' ∧ (announced report ob ∨
       live ob ∧ crashed id o request w0 report))
    (λ b w', b = false ∧ ∃ ob, seen ob w' ∧ live ob).
Proof.
  intros Hseen. pose proof (run_loop_inner_seen Hseen) as Hw. unfold run_loop, wp, catch_unwind in *.
  destruct (run_loop_inner id o request w0) as [report w'|w'|w'|] eqn:E; try done.
  - destruct Hw as (ob & Ha & [Ht _]). exists ob. eauto.
  - pose proof (silent_panic_report w') as Hsilent.
    destruct Hw as [[Hs (ob & Hl & [Ht _])]|(_ & t & report & Hd & ob & Ha & [Ht _])].
    + pose proof (panic_report_spec id w0 w' Hs) as Hp. unfold wp in Hp.
      destruct (panic_report id w') as [r w1|w1|w1|]; try done.
      destruct Hp as (t & failed & -> & Hd & _ & Hk). exists ob. split; [by apply Hsilent|]. right. split; [done|].
      exists w', failed. split_and!; try done; try apply Hs. by eapply body_blamed; [| |exact E|apply Hs].
    + pose proof (reseal_spec id w0 t report w' Hd) as Hp. unfold wp in Hp.
      destruct (panic_report id w') as [r w1|w1|w1|]; try done.
      destruct Hp as [-> _]. exists ob. split; [by apply Hsilent|by left].
  - destruct Hw as [[_ (ob & Hl & Hs)]|[[=] _]]. split; [done|]. by exists ob.
Qed.

(** ** Properties *)

(** Where a stream starts: an empty queue and log, and the first state shown. *)
Record unobserved : Prop := {
  un_log : w_sink_ops w0 = [];
  un_queue : sk_queue (w_sink w0) = [];
  un_issues : issues (w_trace w0) = [];
  un_state : current_state (w_ctl w0) = LoopState_new id StStarting 0 INITIAL_REVISION;
}.

(** What the queue of [w'] was told since: the automaton accepts it, its requests are
    those issued, the queue is what the log makes of it, and the consumer received a
    part of it, in order. *)
Record streamed (ob : Observer) (w' : World) : Prop := {
  st_accepted : observe_all id (Observer_new id) (emitted (w_sink_ops w')) = Some ob;
  st_issued : ob_issued ob = issues (w_trace w');
  st_queue : w_sink w' = (sink_run (w_sink w0) (w_sink_ops w')).1;
  st_received : env_event <$> (sink_run (w_sink w0) (w_sink_ops w')).2 `sublist_of` emitted (w_sink_ops w');
}.

Lemma told_streamed ob w' : sk_queue (w_sink w0) = [] → told ob w' → streamed ob w'.
Proof.
  intros Hq (events & [<- Hi Hs] & He). split; [done..|].
  pose proof (sink_run_events (w_sink_ops w') (w_sink w0)) as Hr. rewrite Hq in Hr. simpl in Hr.
  destruct Hr as [Hr _]; [lia|]. etransitivity; [|exact Hr]. rewrite fmap_app. by apply sublist_inserts_r.
Qed.

Lemma unobserved_seen : unobserved → seen (Observer_new id) w0.
Proof.
  intros []. split; [|split; [|done]].
  - exists []. split; [|done]. split; by rewrite ?un_log0.
  - split; [done|]. by destruct start.
Qed.

(** The end of a stream: its one Finished event, which tells the outcome of the report;
    only the report of a crashed body has none. *)
Definition stream_ended (report : LoopReport) (ob : Observer) (w' : World) : Prop :=
  (∃ before, emitted (w_sink_ops w') = before ++ [LeFinished id (outcome_summary (lr_outcome report))] ∧
     Forall (λ e, ¬ finished_event e) before ∧ ob_tools ob `sublist_of` results_done (lr_appended report)) ∨
  crashed id o request w0 report ∧ Forall (λ e, ¬ finished_event e) (emitted (w_sink_ops w')).

(** C5: the event stream keeps its contract. Whatever the host and the other threads
    do, the sequence of emitted events is one the automaton of the stream accepts: it
    starts with Started, every state it announces is the one the loop turned to, the
    requests announced are those issued, with their index and revision; deltas only
    come while the model runs, progress only for the call under way; a call that was
    started is finished before the next is started, asks for input at most once at a
    time, and is answered before it goes on. When the loop returns its report, the
    stream has ended with its one Finished event, which tells the outcome of the
    report, and every call reported finished has its result in the report, in order.
    The one exception is a body that panicked before its end, with host code that no
    port isolates (a destructor or the taking of the inputs) or the end of the clock to
    blame: no Finished event announces its report, which has no results. While the loop
    is paused, the retained state and the applied revision are those the events
    announced last. *)
Theorem event_stream_contract :
  unobserved →
  match run_loop id o request w0 with
  | Done report w' => ∃ ob, streamed ob w' ∧ stream_ended report ob w'
  | Paused w' => ∃ ob, streamed ob w' ∧ Forall (λ e, ¬ finished_event e) (emitted (w_sink_ops w')) ∧
      current_state (w_ctl w') = ob_state ob ∧ applied_revision (w_ctl w') = last_revision ob
  | Panicked _ | OutOfFuel => False
  end.
Proof.
  intros Hun. pose proof (run_loop_seen (unobserved_seen Hun)) as Hw. unfold wp in Hw.
  assert (∀ ob w', streamed ob w' → live ob → Forall (λ e, ¬ finished_event e) (emitted (w_sink_ops w'))) as Hopen.
  { intros ob w' [] Hl. eapply observe_all_open; [done|]. unfold live in Hl. destruct (ob_stage ob); by intros []. }
  destruct (run_loop id o request w0) as [report w'|w'|w'|]; [|by destruct Hw| |done].
  - destruct Hw as (ob & Ht & Ha). apply told_streamed in Ht; [|apply Hun]. exists ob. split; [done|].
    destruct Ha as [[Hst Hrep]|[Hl Hf]]; [left|right; eauto].
    destruct (observe_all_done id _ _ _ _ (st_accepted _ _ Ht) Hst) as (before & -> & Hb); [by intros []|eauto].
  - destruct Hw as (_ & ob & (Ht & [Hp Hc] & _) & Hl). apply told_streamed in Ht; [|apply Hun]. exists ob. eauto.
Qed.
End whole.
