(* ===== verification/Responsive.v ===== *)
(** * A loop never sleeps through its end

    Where a run may be paused, and when it cannot be. [resting]: the other threads
    are done, and neither the token nor the deadline has come. [advances] walks
    through a computation like [keeps]: whatever is bound to end the loop stays so,
    and a pause is a rest. *)

From S2P Require Import Prelude Text Json Ids Limits BTree ToolTypes ToolSet ModelError Message Request Failure Assembler History Prompt Event Control Options World Steps PortCall Driver RunnerTools Runner RunnerInv Blame RunnerSpec.
Local Open Scope N_scope.

Section responsive.
Context `{SerdeJson} (o : LoopOptions).

(** ** What ends a loop *)

(** A cancellation whose thread also fires the token. *)
Fixpoint cancel_coming (ops : list EnvOp) : Prop :=
  match ops with
  | [] => False
  | op :: ops =>
      match op with EnvCancel _ => EnvFireToken ∈ ops | _ => False end ∨ cancel_coming ops
  end.

Fixpoint elapsed (ops : list EnvOp) : N :=
  match ops with
  | [] => 0
  | op :: ops => match op with EnvTime dt => dt | _ => 0 end + elapsed ops
  end.

(** The loop is cancelled, or will be by [ops], or its deadline passes by their end. *)
Definition ends_by (ops : list EnvOp) (w : World) : Prop :=
  fired w ∨ (c_state (w_ctl w) ≠ STATE_NONE ∧ EnvFireToken ∈ ops) ∨ cancel_coming ops ∨
  ∃ deadline, lo_deadline o = Some deadline ∧ deadline ≤ w_now w + elapsed ops.

Definition will_end (w : World) : Prop := ends_by (concat (w_env w)) w.

(** Nobody is left to act, and nothing has ended the loop. *)
Definition resting (w : World) : Prop :=
  w_env w = [] ∧ c_cancel (w_ctl w) = false ∧ ∀ deadline, lo_deadline o = Some deadline → w_now w < deadline.

Lemma resting_not_ending w : resting w → ¬ will_end w.
Proof.
  intros (He & Hc & Hd). unfold will_end, ends_by, fired. rewrite He, Hc. simpl.
  intros [?|[[_ Hin]|[[]|(d & Ed & Hle)]]]; [done|by apply not_elem_of_nil in Hin|]. specialize (Hd d Ed). lia.
Qed.

(** ** Steps towards the end *)

Definition onward (w w' : World) : Prop :=
  (length (w_env w') ≤ length (w_env w))%nat ∧ (will_end w → will_end w').

#[export] Instance onward_preorder : PreOrder onward.
Proof. split; [by intros w|]. intros w1 w2 w3 [? ?] [? ?]. split; [lia|auto]. Qed.

#[export] Instance marked_ctl_rel : CtlRel (λ w w',
  c_state (w_ctl w) ≠ STATE_NONE → c_state (w_ctl w') ≠ STATE_NONE).
Proof.
  apply (env_stable (λ c, c_state c ≠ STATE_NONE)).
  - intros c s Hc. unfold mark_cancel_exchange, compare_exchange.
    by rewrite (proj2 (N.eqb_neq _ _) Hc).
  - done.
  - intros c config. unfold update_locked. by destruct (_ || _).
  - intros c i a Hi. unfold answer. destruct (_ || _); [done|].
    destruct (c_interaction c); [|done]. destruct (negb _); [done|].
    by destruct (InteractionAnswer_validate _ _).
Qed.

Lemma env_op_env w op : w_env (env_op w op) = w_env w.
Proof. destruct op; simpl; try done; repeat case_match; done. Qed.
Lemma env_op_now w op : w_now (env_op w op) = w_now w + elapsed [op].
Proof. destruct op; simpl; try lia; repeat case_match; simpl; lia. Qed.

Lemma ends_by_step op ops w : ends_by (op :: ops) w → ends_by ops (env_op w op).
Proof.
  unfold ends_by. rewrite env_op_now. intros [Hf|[[Hs Hin]|[[Hc|Hc]|(d & Ed & Hd)]]].
  - left. by apply (ctl_rel_env (CtlRel := fired_ctl_rel) w op).
  - apply elem_of_cons in Hin as [<-|Hin].
    + left. simpl. unfold is_active. by rewrite (proj2 (N.eqb_neq _ _) Hs).
    + right. left. split; [|done]. by apply (ctl_rel_env (CtlRel := marked_ctl_rel) w op).
  - destruct op as [source| | | | | |]; try done. right. left. split; [|done]. simpl.
    unfold mark_cancel_exchange, compare_exchange.
    destruct (N.eqb_spec (c_state (w_ctl w)) STATE_NONE); [|done]. by destruct source.
  - by do 2 right; left.
  - do 3 right. exists d. split; [done|]. simpl in *. lia.
Qed.

Lemma tick_env w : w_env (tick w) = tail (w_env w).
Proof.
  unfold tick. destruct (w_env w) as [|ops env] eqn:E; simpl; [done|].
  change env with (w_env (set_env w env)) at 2. generalize (set_env w env). clear w E.
  induction ops as [|op ops IH]; intros w; simpl; [done|]. by rewrite IH, env_op_env.
Qed.

Lemma onward_tick w : onward w (tick w).
Proof.
  split; [rewrite tick_env; destruct (w_env w); simpl; lia|]. unfold will_end. rewrite tick_env.
  unfold tick. destruct (w_env w) as [|ops env] eqn:E; simpl; [done|].
  assert (ends_by (ops ++ concat env) w → ends_by (ops ++ concat env) (set_env w env)) as H0 by done.
  intros Hw. apply H0 in Hw. clear H0. revert Hw. generalize (set_env w env). clear w E.
  induction ops as [|op ops IH]; intros w; simpl; [done|]. intros Hw. by apply IH, ends_by_step.
Qed.

Lemma tick_last w : w_env w = [] → tick w = w.
Proof. unfold tick. by intros ->. Qed.

Lemma onward_same w w' :
  w_env w' = w_env w → w_now w' = w_now w →
  (c_cancel (w_ctl w) = true → c_cancel (w_ctl w') = true) →
  (c_state (w_ctl w) ≠ STATE_NONE → c_state (w_ctl w') ≠ STATE_NONE) → onward w w'.
Proof.
  intros He Hn Hc Hs. split; [by rewrite He|]. unfold will_end, ends_by, fired. rewrite He, Hn. naive_solver.
Qed.

(** ** Computations *)

Definition advances_at {A : Type} (m : exec A) (w : World) : Prop :=
  match m w with
  | Done _ w' | Panicked w' => onward w w'
  | Paused w' => onward w w' ∧ resting w'
  | OutOfFuel => True
  end.
Definition advances {A : Type} (m : exec A) : Prop := ∀ w, advances_at m w.

Lemma advances_at_bind {A B} (m : exec A) (k : A → exec B) w :
  advances_at m w → (∀ a w1, m w = Done a w1 → advances_at (k a) w1) → advances_at (m ≫= k) w.
Proof.
  unfold advances_at, mbind, exec_bind. intros Hm Hk. destruct (m w) as [a w1|w1|w1|]; try done.
  specialize (Hk a w1 eq_refl). destruct (k a w1); try done; [by etransitivity..|].
  destruct Hk. split; [by etransitivity|done].
Qed.
Lemma advances_bind {A B} (m : exec A) (k : A → exec B) :
  advances m → (∀ a, advances (k a)) → advances (m ≫= k).
Proof. intros Hm Hk w. apply advances_at_bind; [apply Hm|]. intros a w1 _. apply Hk. Qed.
Lemma advances_Done {A} (m : exec A) w a w' :
  advances m → m w = Done a w' → (length (w_env w') ≤ length (w_env w))%nat.
Proof. intros Hm E. specialize (Hm w). unfold advances_at in Hm. rewrite E in Hm. apply Hm. Qed.
Lemma advances_catch {A} (m h : exec A) : advances m → advances h → advances (catch_unwind m h).
Proof.
  intros Hm Hh w. specialize (Hm w). unfold advances_at, catch_unwind in *. destruct (m w) as [a w1|w1|w1|]; try done.
  specialize (Hh w1). unfold advances_at in Hh. destruct (h w1); try done; [by etransitivity..|].
  destruct Hh. split; [by etransitivity|done].
Qed.
Lemma advances_ret {A} (a : A) : advances (mret a).
Proof. intros w. change (onward w w). reflexivity. Qed.
Lemma advances_panic {A} : advances (panic (A := A)).
Proof. intros w. change (onward w w). reflexivity. Qed.
Lemma advances_fuel {A} : advances (out_of_fuel (A := A)).
Proof. by intros w. Qed.
Lemma advances_expect {A} (a : option A) : advances (expect a).
Proof. destruct a; [apply advances_ret|apply advances_panic]. Qed.

Lemma advances_atomically {A} (f : World → World * A) :
  (∀ w, onward w (f w).1) → advances (atomically f).
Proof.
  intros Hf w. unfold advances_at, atomically. specialize (Hf (tick w)). destruct (f (tick w)).
  etransitivity; [apply onward_tick|exact Hf].
Qed.
(** A step that leaves the clock, the other threads and the control plane alone. *)
Lemma advances_frame {A} (f : World → World * A) :
  (∀ w, w_env (f w).1 = w_env w ∧ w_now (f w).1 = w_now w ∧ w_ctl (f w).1 = w_ctl w) → advances (atomically f).
Proof.
  intros Hf. apply advances_atomically. intros w. destruct (Hf w) as (He & Hn & Hc).
  by apply onward_same; rewrite ?Hc.
Qed.
Lemma advances_with_ctl {A} (f : LoopControl → LoopControl * A) :
  (∀ c, (c_cancel c = true → c_cancel (f c).1 = true) ∧ (c_state c ≠ STATE_NONE → c_state (f c).1 ≠ STATE_NONE)) →
  advances (with_ctl f).
Proof.
  intros Hf. apply advances_atomically. intros w. specialize (Hf (w_ctl w)).
  destruct (f (w_ctl w)) as [c a]. by apply onward_same; simpl; try apply Hf.
Qed.
Lemma advances_read_ctl {A} (f : LoopControl → A) : advances (read_ctl f).
Proof. by apply advances_frame. Qed.
Lemma advances_get {A} (f : World → A) : advances (atomically (λ w, (w, f w))).
Proof. by apply advances_frame. Qed.
Lemma advances_emit e : advances (emit e).
Proof. by apply advances_frame. Qed.
Lemma advances_record_loss n : advances (record_loss n).
Proof. by apply advances_frame. Qed.
Lemma advances_trace c : advances (trace c).
Proof. intros w. by apply onward_same. Qed.
Lemma advances_host_panics : advances host_panics.
Proof. apply advances_frame. intros w. by destruct (w_sync w). Qed.
Lemma advances_host_sync : advances host_sync.
Proof. apply advances_bind; [apply advances_host_panics|]. intros []; [apply advances_panic|apply advances_ret]. Qed.
End responsive.

Create HintDb responsive.
#[export] Hint Resolve advances_expect advances_read_ctl advances_get advances_emit advances_record_loss advances_trace advances_host_panics advances_host_sync : responsive.

(** Walks through a computation, leaving what no hint resolves. *)
Ltac advances_tac :=
  repeat match goal with
  | |- advances _ (mbind _ _) => apply advances_bind; [|intros ?]
  | |- advances _ (mret _) => apply advances_ret
  | |- advances _ panic => apply advances_panic
  | |- advances _ out_of_fuel => apply advances_fuel
  | |- advances _ (if ?b then _ else _) => destruct b
  | |- advances _ (match ?x with _ => _ end) => destruct x
  | |- advances _ _ => solve [eauto with responsive]
  end.

(** ** Waits *)

Section waits.
Context `{SerdeJson} (id : LoopId) (o : LoopOptions).
Notation advances := (advances o).
Notation advances_at := (advances_at o).

(** A deadline no later than the loop's, if it has one. *)
Definition within (deadline : N) : Prop := ∀ d, lo_deadline o = Some d → deadline ≤ d.

(** The checks at the head of a wait: past them the token has not fired, and the
    deadline is ahead; with nobody left to act that is a rest. *)
Lemma wait_head {A} (check : exec bool) (extra : bool) (past : N → bool) (stop late k : exec A) n w :
  check w = Done (c_cancel (w_ctl (tick w)) || extra) (tick w) →
  (∀ t, past t = false → ∀ d, lo_deadline o = Some d → t < d) →
  advances stop → advances late → (length (w_env w) ≤ n)%nat →
  (∀ w1, (length (w_env w1) ≤ pred n)%nat → (n = O → resting o w1) → advances_at k w1) →
  advances_at (cancelled ← check; if (cancelled : bool) then stop
    else t ← now; if past t then late else k) w.
Proof.
  intros Hc Hp Hs Hl Hn Hk. apply advances_at_bind.
  { unfold Responsive.advances_at. rewrite Hc. apply onward_tick. }
  intros c w1 E. rewrite Hc in E. injection E as <- <-.
  destruct (c_cancel (w_ctl (tick w)) || extra) eqn:Ec; [apply Hs|]. apply orb_false_iff in Ec as [Ec _].
  apply advances_at_bind; [by apply advances_frame|]. intros t w2 [= <- <-].
  destruct (past (w_now (tick (tick w)))) eqn:Ep; [apply Hl|]. apply Hk.
  - rewrite !tick_env. destruct (w_env w) as [|? [|? ?]]; simpl in *; lia.
  - intros ->. destruct (w_env w) eqn:Ew; [|simpl in Hn; lia].
    rewrite (tick_last w Ew) in *. rewrite (tick_last w Ew) in *. split; [done|]. split; [done|]. by apply Hp.
Qed.

Lemma within_past deadline t : within deadline → (deadline <=? t) = false → ∀ d, lo_deadline o = Some d → t < d.
Proof. intros Hw Ht d Ed. specialize (Hw d Ed). bools. lia. Qed.

Lemma within_effective t turn timeout d : within turn → effective_deadline_from t turn timeout = Ok d → within (ed_tokio d).
Proof.
  intros Ht [_ ->]%effective_deadline_from_Ok d' Ed'. specialize (Ht d' Ed'). simpl.
  destruct (turn <=? _) eqn:El; simpl; bools; lia.
Qed.

Lemma advances_at_pause {A} w : resting o w → advances_at (pause (A := A)) w.
Proof. by split. Qed.

Lemma advances_patience {A} own (k : nat → exec A) :
  (∀ n w, (length (w_env w) ≤ n)%nat → advances_at (k n) w) →
  advances (polls ← atomically (λ w, (w, patience (own w) w)); k polls).
Proof.
  intros Hk w. apply advances_at_bind; [apply advances_get|]. intros n w1 [= <- <-]. apply Hk.
  unfold patience. lia.
Qed.

(** *** Port calls *)

Section port.
Context {T E : Type} (pop : World → World * poll (result E T)) (on_pending : exec ()).
Hypothesis pop_advances : advances (atomically pop).
Hypothesis on_pending_advances : advances on_pending.

Lemma advances_at_port_wait deadline polls : within deadline → ∀ w,
  (length (w_env w) ≤ polls)%nat → advances_at (port_wait pop on_pending deadline polls) w.
Proof.
  intros Hd. induction polls as [|n IH]; intros w Hn; cbn [port_wait];
    (eapply (wait_head is_cancelled false (N.leb deadline)); [by rewrite orb_false_r|intros t0; by apply within_past|
      apply advances_ret..|exact Hn|]); intros w1 Hn1 Hr.
  - by apply advances_at_pause, Hr.
  - apply advances_at_bind; [apply pop_advances|]. intros p w2 E2.
    assert (length (w_env w2) ≤ n)%nat by (etransitivity; [eapply (advances_Done o _ w1); [apply pop_advances|exact E2]|exact Hn1]).
    destruct p as [| |r]; [|apply advances_ret..].
    apply advances_at_bind; [apply on_pending_advances|]. intros [] w3 E3. apply IH.
    etransitivity; [eapply (advances_Done o _ w2); [apply on_pending_advances|exact E3]|done].
Qed.

Lemma advances_run_port_call left call turn timeout :
  within turn → advances (run_port_call pop on_pending left call turn timeout).
Proof.
  intros Ht. unfold run_port_call.
  apply advances_bind; [apply advances_read_ctl|]. intros []; [apply advances_ret|].
  apply advances_bind; [by apply advances_frame|]. intros t.
  destruct (effective_deadline_from t turn timeout) as [d|] eqn:Ed; [|apply advances_ret].
  apply (within_effective _ _ _ _ Ht) in Ed as Hd.
  apply advances_bind; [by apply advances_frame|]. intros t'. destruct (_ <=? _); [apply advances_ret|].
  apply advances_bind; [apply advances_trace|]. intros _.
  apply advances_bind; [apply advances_host_panics|]. intros [].
  { apply advances_bind; [apply advances_trace|]. intros _. apply advances_ret. }
  apply advances_patience. intros n w Hn. apply advances_at_bind; [by apply advances_at_port_wait|].
  intros r w1 _. apply advances_at_bind; [apply advances_trace|]. intros _ w2 _.
  apply advances_at_bind; [apply advances_host_sync|]. intros _ w3 _. apply advances_ret.
Qed.
End port.

(** *** The model driver *)

#[local] Hint Extern 1 (Responsive.advances _ now) => (by apply advances_frame) : responsive.
#[local] Hint Extern 1 (Responsive.advances _ is_cancelled) => (apply advances_read_ctl) : responsive.

Lemma advances_attempt_cancelled child : advances (attempt_cancelled child).
Proof. unfold attempt_cancelled. advances_tac. Qed.
Lemma advances_pop_start : advances (atomically pop_start).
Proof. apply advances_frame. intros w. unfold pop_start. by destruct (w_start_polls w). Qed.
Lemma advances_pop_stream : advances (atomically pop_stream).
Proof. apply advances_frame. intros w. unfold pop_stream. by destruct (w_stream_polls w). Qed.

Lemma advances_at_start_wait deadline polls : within deadline → ∀ child w,
  (length (w_env w) ≤ polls)%nat → advances_at (start_wait deadline child polls) w.
Proof.
  intros Hd. induction polls as [|n IH]; intros child w Hn; cbn [start_wait];
    (eapply (wait_head (attempt_cancelled child) child (N.leb deadline)); [done|intros t0; by apply within_past|
      apply advances_ret..|exact Hn|]); intros w1 Hn1 Hr.
  - by apply advances_at_pause, Hr.
  - apply advances_at_bind; [apply advances_pop_start|]. intros [[| |r] cancels] w2 E2; [|apply advances_ret..].
    apply IH. etransitivity; [eapply (advances_Done o _ w1); [apply advances_pop_start|exact E2]|exact Hn1].
Qed.

Lemma advances_yield_now request_index progress : advances (yield_now id request_index progress).
Proof.
  unfold yield_now. apply advances_bind; [|intros; apply advances_ret].
  generalize (pg_dropped progress). induction (pg_queue progress) as [|v q IH]; intros n; cbn [drain_progress].
  - apply advances_ret.
  - apply advances_bind; [|intros _; apply IH]. unfold forward_progress. destruct v; advances_tac.
Qed.

Lemma advances_at_stream_loop request_index deadline source polls : within deadline →
  ∀ child a progress w, (length (w_env w) ≤ polls)%nat →
  advances_at (stream_loop id request_index deadline source child a progress polls) w.
Proof.
  intros Hd. induction polls as [|n IH]; intros child a progress w Hn; cbn [stream_loop];
    (eapply (wait_head (attempt_cancelled child) child (N.leb deadline)); [done|intros t0; by apply within_past|
      apply advances_ret..|exact Hn|]); intros w1 Hn1 Hr.
  - by apply advances_at_pause, Hr.
  - apply advances_at_bind; [apply advances_pop_stream|]. intros [item cancels] w2 E2.
    assert (length (w_env w2) ≤ n)%nat
      by (etransitivity; [eapply (advances_Done o _ w1); [apply advances_pop_stream|exact E2]|exact Hn1]).
    destruct item as [| |[[event|error]|]]; [by apply IH|apply advances_ret| |apply advances_ret|].
    + apply advances_at_bind; [apply advances_trace|]. intros _ w3 [= _ <-].
      apply advances_at_bind; [apply advances_expect|]. intros [a' pushed] w4 E4.
      assert (length (w_env w4) ≤ n)%nat
        by (etransitivity; [eapply (advances_Done o _ (add_trace w2 HcEvent)); [apply advances_expect|exact E4]|done]).
      destruct pushed as [[value|]|e]; [|by apply IH|apply advances_ret].
      apply advances_at_bind; [apply advances_yield_now|]. intros p w5 E5. apply IH.
      etransitivity; [eapply (advances_Done o _ w4); [apply advances_yield_now|exact E5]|done].
    + apply advances_at_bind; [apply advances_expect|]. intros. apply advances_ret.
Qed.

Lemma advances_attempt_polls request_index d request deadline source progress :
  within deadline → advances (attempt_polls id request_index d request deadline source progress).
Proof.
  intros Hd. unfold attempt_polls. apply advances_patience. intros n w Hn. apply advances_at_bind; [by apply advances_at_start_wait|].
  intros [start child] w1 _. destruct start as [| |[[]|e]|]; try apply advances_ret.
  apply advances_patience. intros n' w' Hn'. by apply advances_at_stream_loop.
Qed.
Lemma advances_drop_attempt : advances drop_attempt.
Proof. unfold drop_attempt. advances_tac. Qed.
#[local] Hint Resolve advances_attempt_polls advances_drop_attempt : responsive.
Lemma advances_run_attempt request_index d request attempt deadline source progress :
  within deadline → advances (run_attempt id request_index d request attempt deadline source progress).
Proof. intros Hd. unfold run_attempt. advances_tac. Qed.

Lemma advances_wait_for_retry deadline source delay error :
  within deadline → advances (wait_for_retry deadline source delay error).
Proof.
  intros Hd. unfold wait_for_retry. apply advances_bind; [auto with responsive|]. intros t.
  apply advances_bind; [apply advances_expect|]. intros retry_at. apply advances_patience.
  intros n. induction n as [|n IH]; intros w Hn; cbn [retry_wait];
    (eapply (wait_head is_cancelled false (N.leb deadline)); [by rewrite orb_false_r|intros t0; by apply within_past|
      apply advances_ret..|exact Hn|]); intros w1 Hn1 Hr;
    (apply advances_at_bind; [by apply advances_frame|]); intros t' w2 [= <- <-]; (destruct (_ <=? _); [apply advances_ret|]).
  - destruct (Hr eq_refl) as [He Hr']. rewrite (tick_last w1 He). by apply advances_at_pause.
  - apply IH. rewrite tick_env. destruct (w_env w1); simpl in *; lia.
Qed.

Lemma advances_precheck deadline source : advances (precheck deadline source).
Proof. unfold precheck. advances_tac. Qed.

Lemma advances_attempt_loop request_index d request deadline source fuel : within deadline →
  ∀ attempt progress, advances (attempt_loop id request_index d request deadline source attempt progress fuel).
Proof.
  intros Hd. induction fuel as [|fuel IH]; intros attempt progress; cbn [attempt_loop]; [apply advances_fuel|].
  apply advances_bind; [apply advances_precheck|]. intros [[]|f]; [|apply advances_ret].
  apply advances_bind; [by apply advances_run_attempt|]. intros [r p].
  apply advances_bind; [apply advances_trace|]. intros _. destruct r as [|failure]; [apply advances_ret|].
  apply advances_bind; [auto with responsive|]. intros t. destruct (evaluate_retry _ _ _ _ _); [|apply advances_ret].
  apply advances_bind; [by apply advances_wait_for_retry|]. intros [[]|f]; [apply IH|apply advances_ret].
Qed.

Lemma advances_run_model request_index snapshot request turn :
  within turn → advances (run_model id request_index o snapshot request turn).
Proof.
  intros Ht. unfold run_model. apply advances_bind.
  - unfold run_detailed. apply advances_bind; [auto with responsive|]. intros t.
    destruct (effective_deadline_from t turn _) as [d|] eqn:Ed; [|apply advances_ret].
    apply advances_bind; [apply advances_precheck|]. intros [[]|f]; [|apply advances_ret].
    destruct (validate_request _ _); [|apply advances_ret]. apply advances_attempt_loop. by eapply within_effective.
  - intros [r progress]. apply advances_bind; [apply advances_record_loss|]. intros _.
    apply advances_bind; [|intros; apply advances_ret].
    generalize 0. induction (pg_queue progress) as [|v q IH]; intros n; cbn [drain_progress]; [apply advances_ret|].
    apply advances_bind; [|intros _; apply IH]. unfold forward_progress. destruct v; advances_tac.
Qed.
(** *** The tool phase *)

Lemma advances_turn_bind {A} (k : N → exec A) :
  (∀ turn, within turn → advances (k turn)) → advances (turn ← turn_deadline (lo_deadline o); k turn).
Proof.
  intros Hk w. unfold turn_deadline. destruct (lo_deadline o) as [d|] eqn:Ed; apply advances_at_bind.
  - apply advances_ret.
  - intros t w1 [= <- _]. apply Hk. intros d' E'. rewrite Ed in E'. injection E' as <-. reflexivity.
  - apply advances_bind; [by apply advances_frame|]. intros t. apply advances_expect.
  - intros t w1 _. apply Hk. intros d' E'. by rewrite Ed in E'.
Qed.

Lemma advances_publish state : advances (publish state).
Proof.
  unfold publish. apply advances_bind; [by apply advances_with_ctl|]. intros _. apply advances_emit.
Qed.
Lemma advances_release : advances release_interaction.
Proof. apply advances_with_ctl. intros c. simpl. unfold take_interaction. by destruct (c_interaction c). Qed.
Lemma advances_set_interaction slot : advances (with_ctl (λ c, set_interaction c slot)).
Proof. apply advances_with_ctl. intros c. unfold set_interaction. by destruct (c_interaction c). Qed.
Lemma advances_oneshot : advances (with_ctl oneshot_channel).
Proof. by apply advances_with_ctl. Qed.
Lemma advances_new_interaction_id : advances new_interaction_id.
Proof. apply advances_frame. intros w. by destruct (InteractionId_new _). Qed.
#[local] Hint Resolve advances_publish advances_release advances_set_interaction advances_oneshot
  advances_new_interaction_id : responsive.

Lemma advances_at_receive_answer reply polls : ∀ w,
  (length (w_env w) ≤ polls)%nat → advances_at (receive_answer o reply polls) w.
Proof.
  induction polls as [|n IH]; intros w Hn; cbn [receive_answer];
    (eapply (wait_head is_cancelled false (λ t, match lo_deadline o with Some d => d <=? t | None => false end));
      [by rewrite orb_false_r|intros t0 Ht d Ed; rewrite Ed in Ht; by bools
      |apply advances_bind; [auto with responsive|intros; apply advances_ret]
      |apply advances_bind; [auto with responsive|intros; apply advances_ret]|exact Hn|]);
    intros w1 Hn1 Hr;
    (apply advances_at_bind; [by apply advances_frame|]); intros cell w2 [= _ <-];
    destruct cell as [[|a|]|];
    try (apply advances_bind; [auto with responsive|intros; apply advances_ret]); try apply advances_ret.
  - pose proof (Hr eq_refl) as Hr'. rewrite (tick_last w1 (proj1 Hr')). by apply advances_at_pause.
  - apply IH. rewrite tick_env. destruct (w_env w1); simpl in *; lia.
Qed.

Lemma advances_interact invocation kind : advances (interact id o invocation kind).
Proof.
  unfold interact. apply advances_bind; [auto with responsive|]. intros [iid|]; [|apply advances_ret].
  apply advances_bind; [auto with responsive|]. intros reply. unfold wait_interaction.
  apply advances_bind; [auto with responsive|]. intros [[]|]; [|apply advances_ret].
  do 3 (apply advances_bind; [auto with responsive|intros ?]). apply advances_patience.
  intros n w Hn. apply advances_at_bind; [by apply advances_at_receive_answer|]. intros [answer|path] w1 _; [|apply advances_ret].
  apply advances_bind; [auto with responsive|]. intros _. advances_tac.
Qed.

Lemma advances_pop_tool call_id : advances (atomically (pop_tool call_id)).
Proof.
  apply advances_frame. intros w. unfold pop_tool. destruct (w_tool_polls w) as [|[p e] ps]; [done|].
  cbn [fst]. by rewrite emit_progress_frame.
Qed.
Lemma advances_record_tool_dropped : advances record_tool_dropped.
Proof. unfold record_tool_dropped. apply advances_bind; [by apply advances_frame|]. intros ?. auto with responsive. Qed.
#[local] Hint Resolve advances_pop_tool advances_record_tool_dropped advances_interact : responsive.
Lemma advances_forward_tool_progress i : advances (forward_tool_progress id i).
Proof.
  unfold forward_tool_progress. apply advances_bind; [apply advances_frame; intros w; by destruct (w_tool_queue w)|].
  intros r. advances_tac.
Qed.
Lemma advances_drain_tool_progress i n : advances (drain_tool_progress id i n).
Proof.
  induction n as [|n IH]; cbn [drain_tool_progress]; [apply advances_ret|].
  apply advances_bind; [apply advances_forward_tool_progress|]. intros []; [apply IH|apply advances_ret].
Qed.

Lemma advances_decide_policy policy invocation turn :
  within turn → advances (decide_policy o policy invocation turn).
Proof.
  intros Ht. unfold decide_policy. destruct policy; [|apply advances_ret].
  apply advances_bind; [|intros ?; apply advances_ret]. apply advances_run_port_call; [|apply advances_ret|done].
  apply advances_frame. intros w. unfold pop_policy. by destruct (w_policy_polls w).
Qed.

Lemma advances_run_tool_port i invocation turn :
  within turn → advances (run_tool_port id o i invocation turn).
Proof.
  intros Ht. unfold run_tool_port. apply advances_bind; [by apply advances_frame|]. intros _.
  apply advances_bind.
  { apply advances_run_port_call; [apply advances_pop_tool| |done].
    apply advances_bind; [apply advances_forward_tool_progress|]. intros _. apply advances_ret. }
  intros r. unfold after_tool. advances_tac. apply advances_drain_tool_progress.
Qed.

Lemma advances_execute_tool i invocation : advances (execute_tool id o i invocation).
Proof.
  unfold execute_tool. apply advances_turn_bind. intros turn Ht.
  apply advances_bind; [by apply advances_run_tool_port|]. intros port. advances_tac.
Qed.
#[local] Hint Resolve advances_execute_tool : responsive.

Lemma advances_run_tool_call i invocation policy : advances (run_tool_call id o i invocation policy).
Proof.
  unfold run_tool_call. apply advances_turn_bind. intros turn Ht.
  apply advances_bind; [by apply advances_decide_policy|]. intros decision. unfold deny_call. advances_tac.
Qed.
#[local] Hint Resolve advances_run_tool_call : responsive.

Lemma advances_run_tool_batch i snapshot calls : ∀ working,
  advances (run_tool_batch id o working i snapshot calls).
Proof. induction calls as [|c cs IH]; intros working; cbn [run_tool_batch]; advances_tac. Qed.

(** *** The runner *)

Lemma advances_take_config : advances (with_ctl take_config).
Proof. by apply advances_with_ctl. Qed.
Lemma advances_begin_final : advances (with_ctl begin_final).
Proof. by apply advances_with_ctl. Qed.
Lemma advances_commit revision : advances (with_ctl (λ c, (commit_revision c revision, ()))).
Proof. by apply advances_with_ctl. Qed.
Lemma advances_fire : advances (with_ctl (λ c, (fire_token c, ()))).
Proof. by apply advances_with_ctl. Qed.
Lemma advances_drop_config config : advances (drop_config config).
Proof. unfold drop_config. advances_tac. Qed.
Lemma advances_take_inputs : advances take_inputs.
Proof.
  unfold take_inputs. apply advances_bind; [apply advances_host_sync|]. intros _. apply advances_bind; [|intros; advances_tac].
  apply advances_frame. intros w. by destruct (w_inputs w).
Qed.
Lemma advances_complete report : advances (complete report).
Proof. unfold complete. apply advances_bind; [by apply advances_with_ctl|]. intros _. auto with responsive. Qed.
Lemma advances_seal : advances seal.
Proof.
  unfold seal. apply advances_bind; [|intros; apply advances_expect]. apply advances_with_ctl. intros c.
  destruct (finish_once_cases c) as [->|(seal & ->)]; by split.
Qed.
#[local] Hint Resolve advances_take_config advances_begin_final advances_commit advances_fire
  advances_drop_config advances_take_inputs advances_complete advances_seal advances_run_tool_batch : responsive.

Lemma advances_take_boundary l last_reference : advances (take_boundary id l last_reference).
Proof. unfold take_boundary. advances_tac. Qed.
Lemma advances_prepare_prompt i turn : within turn → advances (prepare_prompt o i turn).
Proof.
  intros Ht. unfold prepare_prompt. apply advances_bind; [|intros; apply advances_ret].
  apply advances_run_port_call; [|apply advances_ret|done].
  apply advances_frame. intros w. unfold pop_prompt. by destruct (w_prompt_polls w).
Qed.
Lemma advances_tool_round l calls : advances (tool_round id o l calls).
Proof. unfold tool_round. advances_tac. Qed.
#[local] Hint Resolve advances_take_boundary advances_tool_round : responsive.
Lemma advances_use_response l response : advances (use_response id o l response).
Proof. unfold use_response. destruct (UsageAccumulator_add _ _). advances_tac. Qed.
#[local] Hint Resolve advances_use_response : responsive.

Lemma advances_issue_request l request : advances (issue_request id o l request).
Proof.
  unfold issue_request. do 4 (apply advances_bind; [auto with responsive|intros ?]).
  apply advances_turn_bind. intros turn Ht. apply advances_bind; [by apply advances_run_model|].
  intros r. unfold map_model_failure. advances_tac.
Qed.
#[local] Hint Resolve advances_issue_request : responsive.

Lemma advances_iteration l : advances (iteration id o l).
Proof.
  unfold iteration. apply advances_bind; [auto with responsive|]. intros []; [apply advances_ret|].
  apply advances_bind; [unfold past_deadline; destruct (lo_deadline o); [|apply advances_ret]; advances_tac|].
  intros []; [apply advances_ret|].
  apply advances_bind; [auto with responsive|]. intros [[l' ?] ?].
  apply advances_bind; [auto with responsive|]. intros _. apply advances_turn_bind. intros turn Ht.
  apply advances_bind; [by apply advances_prepare_prompt|]. intros prep. advances_tac.
Qed.
#[local] Hint Resolve advances_iteration : responsive.

Lemma advances_run_loop_turns fuel : ∀ l, advances (run_loop_turns id o l fuel).
Proof. induction fuel as [|fuel IH]; intros l; cbn [run_loop_turns]; advances_tac. Qed.
#[local] Hint Resolve advances_run_loop_turns : responsive.

Lemma advances_finish_loop path working usage requests last_issued rounds :
  advances (finish_loop id path working usage requests last_issued rounds).
Proof. unfold finish_loop, outcome_for, failed, publish_final_states. advances_tac. Qed.

Lemma advances_run_loop request : advances (run_loop id o request).
Proof.
  unfold run_loop. apply advances_catch.
  - unfold run_loop_inner. advances_tac; apply advances_finish_loop.
  - unfold panic_report. advances_tac; by apply advances_with_ctl.
Qed.

(** A loop waits for good only when nobody is left to act: every step of every other
    thread is behind it, its token has not fired and its deadline has not passed. *)
Lemma paused_resting request w w' : run_loop id o request w = Paused w' → resting o w'.
Proof.
  intros E. pose proof (advances_run_loop request w) as Ha. unfold Responsive.advances_at in Ha. rewrite E in Ha. apply Ha.
Qed.

(** ** Properties *)

(** C12: a loop that something ends does end. If the loop has been cancelled, or another
    thread will cancel it and fire its token, or its deadline will pass, then the runner
    returns a report, whatever the host's futures do, were they all to hang: it neither
    waits for good nor runs out of the turns the model allows. And it waits for good
    only when nobody is left to act: every step of every other thread is behind it, its
    token has not fired and no deadline of its own has passed. *)
Theorem run_loop_returns request w :
  options_ok o → ready request w →
  (will_end o w → ∃ report w', run_loop id o request w = Done report w') ∧
  (∀ w', run_loop id o request w = Paused w' → resting o w').
Proof.
  intros Ho Hr. split; [|intros w'; apply paused_resting]. intros Hend.
  pose proof (run_loop_spec id o request Ho w Hr) as Hw. pose proof (advances_run_loop request w) as Ha.
  unfold wp in Hw. unfold Responsive.advances_at in Ha. destruct (run_loop id o request w) as [report w'|w'|w'|].
  - eauto.
  - by destruct Hw.
  - destruct Ha as [[_ Ha] Hrest]. by destruct (resting_not_ending o w' Hrest); apply Ha.
  - done.
Qed.
End waits.
