(* ===== verification/Handle.v ===== *)
(** * Handles and the owner of a loop

    Models src/src/agent_loop/handle.rs and [AgentLoop] of
    src/src/agent_loop/mod.rs: what a thread of the host does with a loop while the
    runner's task and other threads go on. [Shared] is what they share; every atomic
    step of the thread is preceded by a batch of [s_env], what the others did since
    the last one. A [call] that gives [None] waits for good.

    Of tokio's channels: a [watch] receiver sees the value last sent, [changed]
    resolves when a version it has not seen was sent, and fails when the sender is
    gone; a [JoinHandle] resolves when the task has ended. *)

From S2P Require Import Prelude Text Json Ids Limits ToolTypes ModelError Message Request History Event Control Options World Steps Runner RunnerInv Blame RunnerSpec.
Local Open Scope N_scope.

Inductive LoopWaitError := CompletionClosed.
Inductive LoopJoinError := TaskCancelled.
Inductive TakeEventsError := AlreadyTaken.

(** The receiving half of the event queue, and the handle of the runner's task. *)
Inductive LoopEventStream := EventStream.
Inductive JoinHandle := RunnerTask.

Section handle.
Context `{SerdeJson}.

(** What the others do: a step on the control plane, the drop of the completion
    sender, the end of the runner's task ([None]: aborted). *)
Inductive HostOp :=
| HoCtl (op : CtlOp)
| HoDropSender
| HoTaskEnd (report : option LoopReport).

Record Shared := mkShared {
  s_ctl : LoopControl;
  s_version : nat;                          (* how often the completion was sent *)
  s_sender : bool;                          (* the completion sender lives *)
  s_task : option (option LoopReport);      (* how the task ended *)
  s_env : list (list HostOp);
}.

Definition set_shared (s : Shared) (c : LoopControl) : Shared :=
  mkShared c (s_version s) (s_sender s) (s_task s) (s_env s).

Definition host_op (s : Shared) (op : HostOp) : Shared :=
  match op with
  | HoCtl op =>
      mkShared (ctl_op (s_ctl s) op).1
        (match op with CoComplete _ => S (s_version s) | _ => s_version s end)
        (s_sender s) (s_task s) (s_env s)
  | HoDropSender => mkShared (s_ctl s) (s_version s) false (s_task s) (s_env s)
  | HoTaskEnd r => mkShared (s_ctl s) (s_version s) (s_sender s) (Some r) (s_env s)
  end.

Definition turn (s : Shared) : Shared :=
  match s_env s with
  | [] => s
  | ops :: env => foldl host_op (mkShared (s_ctl s) (s_version s) (s_sender s) (s_task s) env) ops
  end.

Definition call (A : Type) : Type := Shared → Shared * option A.

#[export] Instance call_ret : MRet call := λ A a s, (s, Some a).
#[export] Instance call_bind : MBind call := λ A B k m s,
  match m s with
  | (s, Some a) => k a s
  | (s, None) => (s, None)
  end.
Definition parked {A : Type} : call A := λ s, (s, None).
Definition look {A : Type} (f : Shared → A) : call A := λ s, let s := turn s in (s, Some (f s)).
Definition on_ctl {A : Type} (f : LoopControl → LoopControl * A) : call A := λ s,
  let s := turn s in
  let '(c, a) := f (s_ctl s) in
  (set_shared s c, Some a).

(** ** [LoopHandle] *)

Definition mark_cancel_call (source : CancelSource) : call bool :=
  won ← on_ctl (λ c, mark_cancel_exchange c source);
  if (won : bool) then on_ctl (λ c, (fire_token c, ()));; mret true else mret false.

Definition LoopHandle_id : call LoopId := look (λ s, c_id (s_ctl s)).
Definition LoopHandle_state : call LoopState := look (λ s, current_state (s_ctl s)).
Definition LoopHandle_answer (id : InteractionId) (a : InteractionAnswer) : call (result AnswerError ()) :=
  on_ctl (λ c, answer c id a).
Definition LoopHandle_cancel : call bool := mark_cancel_call SrcUser.
Definition LoopHandle_shutdown : call bool := mark_cancel_call SrcShutdown.
Definition LoopHandle_is_finished : call bool := look (λ s, is_finished (s_ctl s)).

(** [None] inside is the panic of the validation. *)
Definition LoopHandle_update (config : ExecutionConfig) : call (option (result UpdateError N)) :=
  active ← look (λ s, is_active (s_ctl s));
  if negb (active : bool) then mret (Some (Err UpNotActive))
  else
    limits ← look (λ s, c_limits (s_ctl s));
    match validate_against_limits config limits with
    | None => mret None
    | Some (Err _) => mret (Some (Err UpInvalidConfig))
    | Some (Ok _) =>
        revision ← on_ctl (λ c, update_locked c config);
        mret (Some (ok_or revision UpNotActive))
    end.

(** The [loop] of [wait]: at its head the value is borrowed, then [changed] awaits a
    version later than [seen]. [polls] bounds the steps. *)
Fixpoint wait_loop (seen : nat) (in_changed : bool) (polls : nat) :
    call (result LoopWaitError LoopReport) :=
  let again seen in_changed :=
    match polls with O => parked | S polls => wait_loop seen in_changed polls end in
  if in_changed then
    '(version, sender) ← look (λ s, (s_version s, s_sender s));
    if negb (Nat.eqb version seen) then again version false
    else if negb sender then mret (Err CompletionClosed)
    else again seen true
  else
    value ← look (λ s, published_report (s_ctl s));
    match (value : option LoopReport) with
    | Some report => mret (Ok report)
    | None => again seen true
    end.

(** The receiver is a clone of the seed, which has seen the initial value. *)
Definition LoopHandle_wait : call (result LoopWaitError LoopReport) := λ s,
  wait_loop 0 false (S (length (s_env s))) s.

(** ** [AgentLoop] *)

Record AgentLoop := mkAgentLoop {
  al_events : option LoopEventStream;
  al_join : option JoinHandle;
}.

(** The owner a successful [AgentLoop::start] returns. *)
Definition AgentLoop_started : AgentLoop := mkAgentLoop (Some EventStream) (Some RunnerTask).

Definition AgentLoop_id : call LoopId := look (λ s, c_id (s_ctl s)).

Definition AgentLoop_take_events (a : AgentLoop) : AgentLoop * result TakeEventsError LoopEventStream :=
  (mkAgentLoop None (al_join a), ok_or (al_events a) AlreadyTaken).

Definition AgentLoop_drop : call () := _ ← mark_cancel_call SrcOwnerDropped; mret ().

(** [join.await]: [None] inside means that the future was dropped after [abandon]
    polls. *)
Fixpoint await_task (abandon : option nat) (polls : nat) :
    call (option (result LoopJoinError LoopReport)) :=
  task ← look s_task;
  match (task : option (option LoopReport)) with
  | Some ended => mret (Some (ok_or ended TaskCancelled))
  | None =>
      match abandon, polls with
      | Some O, _ => mret None
      | _, O => parked
      | _, S polls => await_task (pred <$> abandon) polls
      end
  end.

(** What both do with the task; [self] is dropped on every way out. *)
Definition await_owned (a : AgentLoop) (abandon : option nat) :
    call (option (result LoopJoinError LoopReport)) :=
  r ← match al_join a with
      | None => mret (Some (Err TaskCancelled))
      | Some _ => λ s, await_task abandon (default 0%nat abandon + length (s_env s)) s
      end;
  AgentLoop_drop;;
  mret r.

Definition AgentLoop_join (a : AgentLoop) (abandon : option nat) :
    call (option (result LoopJoinError LoopReport)) := await_owned a abandon.

Definition AgentLoop_shutdown (a : AgentLoop) (abandon : option nat) :
    call (option (result LoopJoinError LoopReport)) :=
  mark_cancel_call SrcShutdown;;
  await_owned a abandon.
(** ** The completion channel *)

Definition sends (ops : list HostOp) : list LoopReport :=
  omap (λ op, match op with HoCtl (CoComplete r) => Some r | _ => None end) ops.
Definition drops (ops : list HostOp) : list () :=
  omap (λ op, match op with HoDropSender => Some () | _ => None end) ops.
Definition ends (ops : list HostOp) : list (option LoopReport) :=
  omap (λ op, match op with HoTaskEnd r => Some r | _ => None end) ops.

(** Nothing is sent after a send, nor after the sender is gone. *)
Fixpoint disciplined (ops : list HostOp) : Prop :=
  match ops with
  | [] => True
  | HoDropSender :: ops | HoCtl (CoComplete _) :: ops => sends ops = []
  | _ :: ops => disciplined ops
  end.

(** A completion channel nobody has used. *)
Record unsent (s : Shared) : Prop := {
  un_value : c_completion (s_ctl s) = None;
  un_version : s_version s = 0%nat;
  un_sender : s_sender s = true;
}.

(** What a wait must answer, given what the others are going to do. *)
Definition wait_answer (ops : list HostOp) : option (result LoopWaitError LoopReport) :=
  match sends ops, drops ops with
  | report :: _, _ => Some (Ok report)
  | [], _ :: _ => Some (Err CompletionClosed)
  | [], [] => None
  end.

(** Where the channel is, with [ops] to come, and what a wait will then answer. *)
Inductive channel (s : Shared) (ops : list HostOp) : option (result LoopWaitError LoopReport) → Prop :=
| ChUnsent : unsent s → disciplined ops → channel s ops (wait_answer ops)
| ChClosed : c_completion (s_ctl s) = None → s_version s = 0%nat → s_sender s = false → sends ops = [] →
    channel s ops (Some (Err CompletionClosed))
| ChSent report : c_completion (s_ctl s) = Some report → s_version s = 1%nat → sends ops = [] →
    channel s ops (Some (Ok report)).

Lemma ctl_op_completion c op :
  c_completion (ctl_op c op).1 = match op with CoComplete r => Some r | _ => c_completion c end.
Proof.
  destruct op; try done; simpl.
  - unfold mark_cancel_exchange, compare_exchange. by destruct (_ =? _).
  - unfold update_locked. by destruct (_ || _).
  - unfold answer. destruct (_ || _); [done|]. destruct (c_interaction c); [|done].
    destruct (negb _); [done|]. by destruct (InteractionAnswer_validate _ _).
  - by destruct (finish_once_cases c) as [->|(seal & ->)].
  - unfold ask_slot. by destruct (c_interaction c).
Qed.

Lemma channel_op s op ops ans : channel s (op :: ops) ans → channel (host_op s op) ops ans.
Proof.
  destruct 1 as [[Hv Hn Hs] Hd|Hv Hn Hs Hno|report Hv Hn Hno].
  - destruct op as [[]| |r]; 
      try (apply (ChUnsent (host_op s _) ops); [split; cbn [host_op s_ctl s_version s_sender]; rewrite ?ctl_op_completion; done|exact Hd]).
    + simpl in Hd. apply ChSent; simpl; [done|by rewrite Hn|done].
    + simpl in Hd. unfold wait_answer. simpl. rewrite Hd. by apply ChClosed.
  - destruct op as [[]| |r]; try done; apply ChClosed; cbn [host_op s_ctl s_version s_sender]; rewrite ?ctl_op_completion; done.
  - destruct op as [[]| |r]; try done; apply ChSent; cbn [host_op s_ctl s_version s_sender]; rewrite ?ctl_op_completion; done.
Qed.

Lemma host_op_env s op : s_env (host_op s op) = s_env s.
Proof. by destruct op. Qed.
Lemma turn_env s : s_env (turn s) = tail (s_env s).
Proof.
  unfold turn. destruct (s_env s) as [|ops env] eqn:E; [done|]. simpl.
  change env with (s_env (mkShared (s_ctl s) (s_version s) (s_sender s) (s_task s) env)) at 2.
  generalize (mkShared (s_ctl s) (s_version s) (s_sender s) (s_task s) env). clear E.
  induction ops as [|op ops IH]; intros s1; [done|]. cbn [foldl].
  by rewrite IH, host_op_env.
Qed.

(** A relation every act of the others respects is respected by a turn. *)
Lemma turn_ind (P : Shared → list HostOp → Prop) s :
  (∀ s op ops, P s (op :: ops) → P (host_op s op) ops) →
  (∀ env, P s (concat (s_env s)) →
    P (mkShared (s_ctl s) (s_version s) (s_sender s) (s_task s) env) (concat (s_env s))) →
  P s (concat (s_env s)) → P (turn s) (concat (s_env (turn s))).
Proof.
  intros Hop Hset Hp. rewrite turn_env. unfold turn. destruct (s_env s) as [|ops env] eqn:E; [exact Hp|].
  simpl in *. apply (Hset env) in Hp. clear Hset E. revert Hp.
  generalize (mkShared (s_ctl s) (s_version s) (s_sender s) (s_task s) env).
  induction ops as [|op ops IH]; intros s1 Hp; [done|]. cbn [foldl]. apply IH, Hop, Hp.
Qed.

Lemma channel_turn s ans : channel s (concat (s_env s)) ans → channel (turn s) (concat (s_env (turn s))) ans.
Proof.
  apply (turn_ind (λ s ops, channel s ops ans)); [intros; by apply channel_op|].
  intros env. destruct 1 as [[]| |]; by econstructor.
Qed.

(** A report that was sent is what the head of the loop returns. *)
Lemma wait_loop_sent s report seen polls :
  c_completion (s_ctl s) = Some report → sends (concat (s_env s)) = [] →
  (wait_loop seen false polls s).2 = Some (Ok report).
Proof.
  intros Hc Hs.
  assert (c_completion (s_ctl (turn s)) = Some report ∧ sends (concat (s_env (turn s))) = []) as [Ht _].
  { apply (turn_ind (λ s ops, c_completion (s_ctl s) = Some report ∧ sends ops = [])); [|done|done].
    intros s1 op ops [Hc1 Hs1]. destruct op as [[]| |]; try done;
      (split; [cbn [host_op s_ctl]; by rewrite ?ctl_op_completion|done]). }
  destruct polls; cbn [wait_loop]; unfold mbind, call_bind, look, published_report; by rewrite Ht.
Qed.

(** The steps left are enough: by then the others are done, and the next head or
    [changed] tells. *)
Lemma wait_loop_answers polls : ∀ b s ans,
  channel s (concat (s_env s)) ans → (length (s_env s) ≤ polls)%nat →
  (polls = O → match ans with Some (Ok _) => b = false | Some (Err _) => b = true | None => True end) →
  (wait_loop 0 b polls s).2 = ans.
Proof.
  induction polls as [|n IH]; intros b s ans Hc Hl Hz; cbn [wait_loop]; unfold mbind, call_bind, look;
    pose proof (channel_turn s ans Hc) as Ht; pose proof (turn_env s) as He; set (s1 := turn s) in *;
    assert (length (s_env s1) ≤ pred (length (s_env s)))%nat as Hl1 by (rewrite He; destruct (s_env s); simpl; lia).
  - assert (s_env s1 = []) as He1 by (rewrite He; destruct (s_env s); [done|simpl in Hl; lia]).
    destruct b; cbv beta; fold s1; destruct Ht as [[Hv Hn Hs] Hd|Hv Hn Hs _|r Hv Hn _]; unfold published_report;
      rewrite ?Hv, ?Hn, ?Hs, ?He1; try done; by specialize (Hz eq_refl).
  - assert (ans = wait_answer (concat (s_env s1)) → n = O →
      match ans with Some (Ok _) => true = false | Some (Err _) => true = true | None => True end) as Hu.
    { intros -> ->. destruct (s_env s1); [done|simpl in Hl1; lia]. }
    destruct b; cbv beta; fold s1; destruct Ht as [[Hv Hn Hs] Hd|Hv Hn Hs Hno|r Hv Hn Hno]; unfold published_report;
      rewrite ?Hv, ?Hn, ?Hs; cbn [Nat.eqb negb]; try done.
    + apply IH; [by apply ChUnsent|lia|exact (Hu eq_refl)].
    + by apply wait_loop_sent.
    + apply IH; [by apply ChUnsent|lia|exact (Hu eq_refl)].
    + apply IH; [by apply ChClosed|lia|done].
Qed.

(** A wait never misses the end of its loop. Whatever other threads do in
    between, and however the completion falls between the steps of the wait, it
    returns the report that was sent, fails with [CompletionClosed] only when the
    sender is gone without having sent one, and otherwise keeps waiting. *)
Theorem handle_wait_delivers s :
  unsent s → disciplined (concat (s_env s)) →
  (LoopHandle_wait s).2 = wait_answer (concat (s_env s)).
Proof. intros Hu Hd. apply wait_loop_answers; [by apply ChUnsent|lia|done]. Qed.
(** ** The runner's task *)

(** What awaiting the task must answer. *)
Definition task_answer (ops : list HostOp) : option (option (result LoopJoinError LoopReport)) :=
  match ends ops with
  | ended :: _ => Some (Some (ok_or ended TaskCancelled))
  | [] => None
  end.

Inductive ending (s : Shared) (ops : list HostOp) : option (option (result LoopJoinError LoopReport)) → Prop :=
| EnRunning : s_task s = None → (length (ends ops) ≤ 1)%nat → ending s ops (task_answer ops)
| EnEnded ended : s_task s = Some ended → ends ops = [] → ending s ops (Some (Some (ok_or ended TaskCancelled))).

Lemma ending_turn s ans : ending s (concat (s_env s)) ans → ending (turn s) (concat (s_env (turn s))) ans.
Proof.
  apply (turn_ind (λ s ops, ending s ops ans)).
  - intros s1 op ops [Ht Hl|ended Ht He].
    + destruct op as [op| |ended]; try (apply (EnRunning (host_op s1 _) ops); [done|exact Hl]).
      simpl in Hl. change (task_answer _) with (Some (Some (ok_or ended TaskCancelled))).
      apply EnEnded; [done|]. by destruct (ends ops); [|simpl in Hl; lia].
    + by destruct op; try done; apply EnEnded.
  - intros env [Ht Hl|ended Ht He]; [by apply EnRunning|by apply EnEnded].
Qed.

Lemma ctl_op_decided c op : is_active c = false → is_active (ctl_op c op).1 = false.
Proof.
  unfold is_active. intros Hc. destruct op; try done; simpl.
  - unfold mark_cancel_exchange, compare_exchange. by rewrite Hc.
  - unfold update_locked. by destruct (_ || _).
  - unfold answer. destruct (_ || _); [done|]. destruct (c_interaction c); [|done].
    destruct (negb _); [done|]. by destruct (InteractionAnswer_validate _ _).
  - by destruct (finish_once_cases c) as [->|(seal & ->)].
  - unfold ask_slot. by destruct (c_interaction c).
Qed.

Lemma turn_decided s : is_active (s_ctl s) = false → is_active (s_ctl (turn s)) = false.
Proof.
  intros Hs. apply (turn_ind (λ s _, is_active (s_ctl s) = false)); [|done|done].
  intros s1 [op| |] ops Hs1; try done. by apply ctl_op_decided.
Qed.

(** A cancellation always leaves the loop decided, and the task alone. *)
Lemma mark_cancel_call_spec source s :
  ∃ s' won, mark_cancel_call source s = (s', Some won) ∧ is_active (s_ctl s') = false ∧
    (∀ ans, ending s (concat (s_env s)) ans → ending s' (concat (s_env s')) ans).
Proof.
  unfold mark_cancel_call, mbind, call_bind, on_ctl, mark_cancel_exchange, compare_exchange.
  destruct (c_state (s_ctl (turn s)) =? STATE_NONE) eqn:E; cbn [is_ok].
  - set (s1 := set_shared (turn s) _). exists (set_shared (turn s1) (fire_token (s_ctl (turn s1)))), true.
    split; [done|]. split; [apply (turn_decided s1); by destruct source|].
    intros ans He. apply ending_turn in He.
    assert (ending s1 (concat (s_env s1)) ans) as H1 by (by destruct He; constructor).
    apply ending_turn in H1. by destruct H1; constructor.
  - exists (turn s), false. split; [|split; [exact E|by intros; apply ending_turn]]. by destruct (turn s).
Qed.

Lemma await_task_spec polls : ∀ abandon s ans,
  ending s (concat (s_env s)) ans → (default 0 abandon + length (s_env s) ≤ polls)%nat →
  ∃ s' r, await_task abandon polls s = (s', r) ∧
    (r = ans ∧ (r = None → abandon = None) ∨ r = Some None ∧ is_Some abandon).
Proof.
  induction polls as [|n IH]; intros g s ans Hend Hl; cbn [await_task]; unfold mbind, call_bind, look;
    apply ending_turn in Hend; pose proof (turn_env s) as He; set (s1 := turn s) in *;
    assert (length (s_env s1) ≤ pred (length (s_env s)))%nat as Hl1 by (rewrite He; destruct (s_env s); simpl; lia).
  - destruct Hend as [Ht Hle|ended Ht Hno]; rewrite Ht; [|by do 2 eexists; split; [done|left]].
    destruct g as [[|k]|]; simpl in Hl; [do 2 eexists; split; [done|right; by split]|lia|].
    destruct (s_env s1); [|simpl in Hl1; lia]. do 2 eexists. split; [done|by left].
  - destruct Hend as [Ht Hle|ended Ht Hno]; rewrite Ht; [|by do 2 eexists; split; [done|left]].
    destruct g as [[|k]|]; simpl in Hl; [do 2 eexists; split; [done|right; by split]|..].
    + destruct (IH (Some k) s1 (task_answer (concat (s_env s1)))) as (s' & r & E & Hr);
        [by constructor|simpl; lia|]. exists s', r. split; [exact E|]. destruct Hr as [[? Hr]|[? _]]; [left|right; by split].
      split; [done|]. intros Hn. by specialize (Hr Hn).
    + destruct (IH None s1 (task_answer (concat (s_env s1)))) as (s' & r & E & Hr);
        [by constructor|simpl; lia|]. exists s', r. split; [exact E|]. destruct Hr as [[? _]|[_ [? ?]]]; [by left|done].
Qed.

(** What the owner's last call comes to: it gives the task's end unless it was
    abandoned, and the loop is then decided. *)
Definition owner_end (abandon : option nat) (ans : option (option (result LoopJoinError LoopReport)))
    (r : Shared * option (option (result LoopJoinError LoopReport))) : Prop :=
  match r with
  | (s', Some r) => is_active (s_ctl s') = false ∧ (ans = Some r ∨ r = None ∧ is_Some abandon)
  | (_, None) => ans = None ∧ abandon = None
  end.

Lemma await_owned_spec a abandon s ans :
  is_Some (al_join a) → ending s (concat (s_env s)) ans → owner_end abandon ans (await_owned a abandon s).
Proof.
  intros [j Hj] Hend. unfold await_owned, owner_end. rewrite Hj. unfold mbind, call_bind.
  destruct (await_task_spec (default 0%nat abandon + length (s_env s)) abandon s ans Hend) as (s' & r & -> & Hr); [done|].
  destruct r as [r|]; [|by destruct Hr as [[<- ?]|[? _]]; [split; auto|]].
  unfold AgentLoop_drop, mbind, call_bind.
  destruct (mark_cancel_call_spec SrcOwnerDropped s') as (s1 & won & -> & Hd & _). simpl. split; [exact Hd|].
  destruct Hr as [[-> _]|[[= ->] ?]]; [by left|by right].
Qed.

(** C31: the owner's last call, [join] or [shutdown], ends with the loop decided:
    cancelled, or sealed by the runner. It returns the end of the runner's task
    (the report the task returned, or [TaskCancelled] when it was aborted) unless
    its own future was dropped first, and waits for good only when the task never
    ends. *)
Theorem owner_call_ends s abandon :
  s_task s = None → (length (ends (concat (s_env s))) ≤ 1)%nat →
  owner_end abandon (task_answer (concat (s_env s))) (AgentLoop_join AgentLoop_started abandon s) ∧
  owner_end abandon (task_answer (concat (s_env s))) (AgentLoop_shutdown AgentLoop_started abandon s).
Proof.
  intros Ht Hl. assert (ending s (concat (s_env s)) (task_answer (concat (s_env s)))) as Hend by (by constructor).
  split; [by apply await_owned_spec|]. unfold AgentLoop_shutdown. unfold mbind at 1, call_bind at 1.
  destruct (mark_cancel_call_spec SrcShutdown s) as (s1 & won & -> & _ & Hs1).
  apply await_owned_spec; [done|by apply Hs1].
Qed.

(** ** The runner and its waiters *)

Definition published (t : list HostCall) : list LoopReport :=
  omap (λ c, match c with HcPublish report => Some report | _ => None end) t.

(** What the others do contains what a runner's task does that went from [w] to [w']
    and returned [report]: its sends, then the drop of the sender, and its end. *)
Record task_of (w w' : World) (report : LoopReport) (ops : list HostOp) : Prop := {
  to_disciplined : disciplined ops;
  to_sends : ∃ t, w_trace w' = w_trace w ++ t ∧ sends ops = published t;
  to_ends : ends ops = [Some report];
}.

Lemma unpublished_published t : unpublished t → published t = [].
Proof. induction 1 as [|c t Hc _ IH]; [done|]. by destruct c. Qed.

(** C16: the report a loop returns is the one everybody gets. If the runner's task
    goes through and returns a report, then a wait on a handle, from any moment
    before that on, and the owner's join both return that very report. *)
Theorem report_reaches_waiters id o request w report w' s :
  options_ok o → ready request w → run_loop id o request w = Done report w' →
  unsent s → s_task s = None → task_of w w' report (concat (s_env s)) →
  (LoopHandle_wait s).2 = Some (Ok report) ∧
  (AgentLoop_join AgentLoop_started None s).2 = Some (Some (Ok report)).
Proof.
  intros Ho Hr E Hu Ht Htask.
  destruct (run_loop_Done id o request w Ho Hr report w' E) as (t & (_ & _ & _ & Htr) & Hunp & _).
  destruct (to_sends _ _ _ _ Htask) as (t' & Htr' & Hsends). rewrite Htr in Htr'.
  apply app_inv_head in Htr' as <-. unfold published in Hsends.
  rewrite omap_app in Hsends. change (omap _ t) with (published t) in Hsends.
  rewrite (unpublished_published t Hunp) in Hsends. simpl in Hsends. split.
  - unfold LoopHandle_wait. rewrite (wait_loop_answers _ _ _ (wait_answer (concat (s_env s)))).
    + unfold wait_answer. by rewrite Hsends.
    + by apply ChUnsent; [|apply Htask].
    + lia.
    + done.
  - assert (ending s (concat (s_env s)) (task_answer (concat (s_env s)))) as Hend
      by (apply EnRunning; [done|by rewrite (to_ends _ _ _ _ Htask)]).
    pose proof (await_owned_spec AgentLoop_started None s _ ltac:(done) Hend) as Hj.
    unfold task_answer in Hj. rewrite (to_ends _ _ _ _ Htask) in Hj. unfold AgentLoop_join.
    destruct (await_owned AgentLoop_started None s) as [s' [r|]]; [|by destruct Hj].
    by destruct Hj as [_ [[= <-]|[_ [? ?]]]].
Qed.
End handle.
