(* ===== verification/Session.v ===== *)
(** * A conversation of loops: [examples/memory_agent.rs]

    The host of the library's composition pattern: [MemoryAgent] keeps the history
    of a conversation, runs one fresh loop per question and folds what the loop
    appended back into its history. A chat puts together the start of a loop
    ([AgentLoop::start]), the runner's task, and the owner's [join]; the host's
    other code, the clock and the entropy source are the chat's [Surroundings].
    The theorems carry what one loop guarantees over to the whole conversation. *)

From S2P Require Import Prelude Text Json Ids Limits BTree ToolTypes ToolSet ModelError Message Request Failure Assembler History Prompt Event Control Options World Steps PortCall Driver RunnerTools Runner Accounts RunnerInv Blame RunnerSpec Cooperative Responsive Handle.
Local Open Scope N_scope.

Section session.
Context `{SerdeJson}.

(** ** The agent *)

Record MemoryAgent := mkMemoryAgent {
  ma_history : list HistoryItem;
  ma_config : ExecutionConfig;
}.

Definition MemoryAgent_new (config : ExecutionConfig) : MemoryAgent := mkMemoryAgent [] config.

(** What [?] boxes. *)
Inductive ChatError :=
| ChatInput (e : UserInputError)
| ChatStart (e : LoopStartError)
| ChatJoin (e : LoopJoinError).

(** [find_map] over the appended items, then the text of the part. *)
Definition reply_of (appended : list HistoryItem) : str :=
  default [] ((λ part, match part with PartText text => text | _ => [] end) <$>
    head (omap (λ item, match item with HiAssistant assistant => head (ah_content assistant) | _ => None end) appended)).

(** ** One chat *)

(** What surrounds a chat: the clock and the entropy at its start, the world its
    loop runs in, and how many polls the joiner makes before the task's end. *)
Record Surroundings := mkSurroundings {
  su_now : N;
  su_entropy : list (option (list N));
  su_world : World;
  su_delay : nat;
}.

(** [NoInputs]: the world hands over no input; the control plane and the sink are
    the new loop's. *)
Definition loop_world (s : Surroundings) (control : LoopControl) (sink : LoopEventSink) : World :=
  let w := su_world s in
  set_now (set_ctl (set_sink (set_host w (w_sync w) [] (w_entropy w)) sink []) control) (su_now s).

(** What the others see of the spawned task that went from [w] to [out]. *)
Definition task_ops (w : World) (out : outcome LoopReport) : list HostOp :=
  match out with
  | Done report w' =>
      ((λ r, HoCtl (CoComplete r)) <$> published (drop (length (w_trace w)) (w_trace w'))) ++
      [HoDropSender; HoTaskEnd (Some report)]
  | Panicked _ => [HoDropSender; HoTaskEnd None]
  | Paused _ | OutOfFuel => []
  end.

Inductive chat_end :=
| ChatReturned (r : result ChatError str)
| ChatPending                               (* the joiner waits for good *)
| ChatPanicked.

Definition chat (agent : MemoryAgent) (input : str) (s : Surroundings) : MemoryAgent * chat_end :=
  match UserInput_text input with
  | Err e => (agent, ChatReturned (Err (ChatInput e)))
  | Ok text =>
      let request := mkLoopRequest (ma_history agent) text (ma_config agent) in
      match LoopOptions_default_checked (su_now s) with
      | Err e => (agent, ChatReturned (Err (ChatStart e)))
      | Ok options =>
          match AgentLoop_start true request options (su_now s) (su_entropy s) with
          | None => (agent, ChatPanicked)
          | Some (Err e) => (agent, ChatReturned (Err (ChatStart e)))
          | Some (Ok (id, control, sink)) =>
              let w := loop_world s control sink in
              let others := replicate (su_delay s) [] ++ [task_ops w (run_loop id options request w)] in
              match (AgentLoop_join AgentLoop_started None (mkShared control 0 true None others)).2 with
              | Some (Some (Ok report)) =>
                  (mkMemoryAgent (ma_history agent ++ lr_appended report) (ma_config agent),
                   ChatReturned (Ok (reply_of (lr_appended report))))
              | Some (Some (Err e)) => (agent, ChatReturned (Err (ChatJoin e)))
              | _ => (agent, ChatPending)
              end
          end
      end
  end.

(** A conversation: the questions in order, each in its own surroundings. *)
Definition converse (agent : MemoryAgent) (turns : list (str * Surroundings)) : MemoryAgent :=
  foldl (λ agent turn, (chat agent turn.1 turn.2).1) agent turns.

(** ** The join and the runner's task *)

Lemma ends_sent (reports : list LoopReport) ops : ends (((λ r, HoCtl (CoComplete r)) <$> reports) ++ ops) = ends ops.
Proof. induction reports as [|r reports IH]; [done|exact IH]. Qed.

(** How the spawned task ends, as its [JoinHandle] says. *)
Definition task_end (out : outcome LoopReport) : option (option LoopReport) :=
  match out with
  | Done report _ => Some (Some report)
  | Panicked _ => Some None
  | Paused _ | OutOfFuel => None
  end.

Lemma ends_task_ops w out : ends (task_ops w out) = option_list (task_end out).
Proof. destruct out; simpl; try done. by rewrite ends_sent. Qed.

Lemma join_task w out control delay :
  (AgentLoop_join AgentLoop_started None (mkShared control 0 true None (replicate delay [] ++ [task_ops w out]))).2
  = (λ e, Some (ok_or e TaskCancelled)) <$> task_end out.
Proof.
  set (s := mkShared _ _ _ _ _).
  assert (concat (s_env s) = task_ops w out) as Hops.
  { unfold s. cbn [s_env]. rewrite concat_app. simpl. rewrite app_nil_r. by induction delay. }
  assert (ending s (concat (s_env s)) (task_answer (concat (s_env s)))) as Hend.
  { constructor; [done|]. rewrite Hops, ends_task_ops. by destruct (task_end out) as [[]|]; simpl; lia. }
  pose proof (await_owned_spec AgentLoop_started None s _ ltac:(done) Hend) as Hj.
  unfold task_answer in Hj. rewrite Hops, ends_task_ops in Hj. unfold AgentLoop_join.
  destruct (await_owned AgentLoop_started None s) as [s' [r|]]; simpl in *.
  - destruct Hj as [_ [Hr|[_ [? ?]]]]; [|done]. destruct (task_end out) as [e|]; simpl in Hr; [|done]. by injection Hr as <-.
  - destruct Hj as [Hr _]. by destruct (task_end out).
Qed.

(** ** What one chat comes to *)

(** The surroundings' other threads install configurations the crate built. *)
Definition surroundings_ok (s : Surroundings) : Prop := Forall (Forall op_ok) (w_env (su_world s)).

(** The loop a chat starts for its question. *)
Definition question (agent : MemoryAgent) (text : UserInput) : LoopRequest :=
  mkLoopRequest (ma_history agent) text (ma_config agent).
Definition chat_start (agent : MemoryAgent) (text : UserInput) (s : Surroundings) :=
  AgentLoop_start true (question agent text) default_options (su_now s) (su_entropy s).

(** The question is legal and its loop started: as [id], in the world [w]. *)
Definition asked (agent : MemoryAgent) (input : str) (s : Surroundings) (text : UserInput) (id : LoopId) (w : World) : Prop :=
  UserInput_text input = Ok text ∧
  ∃ control sink, chat_start agent text s = Some (Ok (id, control, sink)) ∧ w = loop_world s control sink.

(** What the loop adds to the history: segments whose one user item is the question;
    nothing if its body crashed. *)
Definition addition (agent : MemoryAgent) (text : UserInput) (id : LoopId) (w : World) (report : LoopReport) : Prop :=
  segments_ok id default_options (lr_appended report) ∧ user_inputs (lr_appended report) = [(KindPrompt, text)] ∨
  crashed id default_options (question agent text) w report ∧ lr_appended report = [].

Inductive chat_result (agent : MemoryAgent) (input : str) (s : Surroundings) : MemoryAgent * chat_end → Prop :=
| CrInput e : UserInput_text input = Err e → chat_result agent input s (agent, ChatReturned (Err (ChatInput e)))
| CrStart text e :
    UserInput_text input = Ok text → chat_start agent text s = Some (Err e) →
    chat_result agent input s (agent, ChatReturned (Err (ChatStart e)))
| CrPanicked text :
    UserInput_text input = Ok text → chat_start agent text s = None →
    validate_against_limits (ma_config agent) (lo_limits default_options) = None →
    chat_result agent input s (agent, ChatPanicked)
| CrPending text id w w' :
    asked agent input s text id w →
    run_loop id default_options (question agent text) w = Paused w' → resting default_options w' →
    chat_result agent input s (agent, ChatPending)
| CrReplied text id w report w' :
    asked agent input s text id w →
    run_loop id default_options (question agent text) w = Done report w' → addition agent text id w report →
    (lr_outcome report = OutCompleted → ∃ pre a, lr_appended report = pre ++ [HiAssistant a] ∧
       ah_finish_reason a = FinishStop ∧ tool_calls (ah_content a) = []) →
    chat_result agent input s
      (mkMemoryAgent (ma_history agent ++ lr_appended report) (ma_config agent),
       ChatReturned (Ok (reply_of (lr_appended report)))).

Lemma addition_segments agent text id w report :
  addition agent text id w report → segments_ok id default_options (lr_appended report).
Proof. intros [[? _]|[_ ->]]; [done|by exists []]. Qed.

Lemma start_panics runtime request o now entropy :
  AgentLoop_start runtime request o now entropy = None → validate_against_limits (lq_config request) (lo_limits o) = None.
Proof.
  unfold AgentLoop_start. destruct runtime; [|done]. cbn [negb]. destruct (LoopOptions_validate o now); [|done].
  destruct (validate_against_limits _ _) as [[[]|?]|]; cbn; try done.
  destruct (_ || _); [done|]. destruct (LoopId_new entropy) as [[?|?] ?]; cbn; [|done].
  by destruct (LoopControl_new _ _ _) as [[]|?].
Qed.

Lemma default_options_ok : options_ok default_options.
Proof. exact (proj1 (proj1 (LoopOptions_validate_ok default_options 0) eq_refl)). Qed.

Lemma chat_spec agent input s :
  config_ok (ma_config agent) → surroundings_ok s → chat_result agent input s (chat agent input s).
Proof.
  intros Hc Hs. unfold chat. destruct (UserInput_text input) as [text|e] eqn:Et; [|by constructor].
  change (LoopOptions_default_checked (su_now s)) with (Ok default_options : result LoopStartError LoopOptions).
  cbv iota beta zeta. fold (question agent text). fold (chat_start agent text s).
  destruct (chat_start agent text s) as [[[[id control] sink]|e]|] eqn:Es; [|by econstructor|].
  2: { apply (CrPanicked _ _ _ text); [done..|]. by apply start_panics in Es. }
  set (w := loop_world s control sink). rewrite join_task.
  assert (asked agent input s text id w) as Hask by (split; eauto).
  assert (ready (question agent text) w) as Hr by by eapply started_ready.
  pose proof (run_loop_spec id default_options (question agent text) default_options_ok w Hr) as Hw. unfold wp in Hw.
  destruct (run_loop id default_options (question agent text) w) as [report w'|w'|w'|] eqn:E; try done; simpl.
  - apply (CrReplied _ _ _ text id w report w'); [done..| |]; destruct Hw as (t & _ & _ & [[]|Hcr]); try done.
    + left. split; [done|]. simpl in ro_handed. apply prefix_nil_inv in ro_handed. by rewrite ro_inputs, ro_handed.
    + right. split; [done|]. by apply crashed_report in Hcr as (failed & -> & _).
    + by apply crashed_report in Hcr as (failed & -> & _).
  - by destruct Hw.
  - apply (CrPending _ _ _ text id w w'); [done..|]. by eapply paused_resting.
Qed.

(** *** When the host does its part *)

Lemma started_undisturbed request o now entropy id control sink s :
  AgentLoop_start true request o now entropy = Some (Ok (id, control, sink)) →
  w_env (su_world s) = [] → w_sync (su_world s) = [] → undisturbed (loop_world s control sink).
Proof.
  unfold AgentLoop_start. cbn [negb]. destruct (LoopOptions_validate o now); [|done].
  destruct (validate_against_limits (lq_config request) (lo_limits o)) as [[[]|]|]; try done. cbn.
  destruct (_ || _); [done|]. destruct (LoopId_new entropy) as [[lid|] rest]; try done. cbn.
  unfold LoopControl_new. destruct (LoopEventSink_channel _) as [sk|]; cbn; [|done].
  by intros [= <- <- <-] Henv Hsync.
Qed.

(** The chat then replies, and the history grows by what the script says. *)
Lemma chat_replies agent input text s id control sink items usage rounds h' :
  UserInput_text input = Ok text →
  AgentLoop_start true (mkLoopRequest (ma_history agent) text (ma_config agent)) default_options (su_now s) (su_entropy s)
    = Some (Ok (id, control, sink)) →
  w_env (su_world s) = [] → w_sync (su_world s) = [] → timely default_options (su_now s) → usable (ma_config agent) →
  script id default_options (ma_config agent) 0 Usage_default (host_of (loop_world s control sink)) items usage rounds h' →
  N.of_nat rounds < u32_MAX →
  let appended := HiUser (mkUserHistory id KindPrompt text) :: items in
  chat agent input s = (mkMemoryAgent (ma_history agent ++ appended) (ma_config agent), ChatReturned (Ok (reply_of appended))).
Proof.
  intros Ht Hstart Henv Hsync Htime Hu Hs Hr appended. unfold chat. rewrite Ht.
  change (LoopOptions_default_checked (su_now s)) with (Ok default_options : result LoopStartError LoopOptions).
  cbv iota beta zeta. rewrite Hstart, join_task.
  destruct (serves_run_loop id default_options (mkLoopRequest (ma_history agent) text (ma_config agent)) _ items usage rounds h'
    Hs Hu Htime eq_refl eq_refl eq_refl Hr (or_introl eq_refl) (loop_world s control sink)) as (w' & -> & _); [|done].
  by eapply started_undisturbed.
Qed.

(** ** Conversations *)

Definition turn_ok (turn : str * Surroundings) : Prop := surroundings_ok turn.2.

(** A history that loops have appended, one after the other. *)
Definition appended_by_loops (h : list HistoryItem) : Prop :=
  ∃ parts, h = concat parts ∧ Forall (λ part, ∃ id, segments_ok id default_options part) parts.

Lemma appended_by_loops_app h items :
  appended_by_loops h → (∃ id, segments_ok id default_options items) → appended_by_loops (h ++ items).
Proof.
  intros (parts & -> & HF) Hi. exists (parts ++ [items]). rewrite concat_app. simpl. rewrite app_nil_r.
  split; [done|]. apply Forall_app. by repeat constructor.
Qed.

Lemma chat_appends agent input s :
  config_ok (ma_config agent) → surroundings_ok s → appended_by_loops (ma_history agent) →
  ma_config (chat agent input s).1 = ma_config agent ∧ appended_by_loops (ma_history (chat agent input s).1) ∧
  ma_history agent `prefix_of` ma_history (chat agent input s).1.
Proof.
  intros Hc Hs Hh. destruct (chat_spec agent input s Hc Hs) as [e _|text e _ _|text _ _ _|text id w w' _ _ _|text id w report w' _ _ Ha _];
    try (by split_and!).
  split; [done|]. split; [eapply appended_by_loops_app; [done|]; eexists; by eapply addition_segments|]. by exists (lr_appended report).
Qed.

Lemma converse_appends turns : ∀ agent,
  config_ok (ma_config agent) → Forall turn_ok turns → appended_by_loops (ma_history agent) →
  ma_config (converse agent turns) = ma_config agent ∧ appended_by_loops (ma_history (converse agent turns)) ∧
  ma_history agent `prefix_of` ma_history (converse agent turns).
Proof.
  induction turns as [|[input s] turns IH]; intros agent Hc Ht Hh; [by split_and!|].
  apply Forall_cons in Ht as [Hs Ht]. destruct (chat_appends agent input s Hc Hs Hh) as (Hcfg & Ha & Hp).
  destruct (IH (chat agent input s).1) as (Hcfg' & Ha' & Hp'); [by rewrite Hcfg|done..|].
  split; [by rewrite <- Hcfg|]. split; [done|]. by etrans.
Qed.

Lemma project_conversation parts : ∀ ms,
  Forall (λ part, ∃ id, segments_ok id default_options part) parts →
  Forall2 (λ i m, project_item i = Ok m) (concat parts) ms → Forall user_ok ms → exchange_ok ms.
Proof.
  induction parts as [|part parts IH]; intros ms Hs Hp Hu.
  - apply Forall2_nil_inv_l in Hp as ->. constructor.
  - apply Forall_cons in Hs as [(id & segs & -> & HF) Hs]. simpl in Hp.
    apply Forall2_app_inv_l in Hp as (m1 & m2 & Hp1 & Hp2 & ->). apply Forall_app in Hu as [Hu1 Hu2].
    eapply project_segments; [done..|]. by apply IH.
Qed.


(** C20: a conversation can always go on. However many chats are held, with whatever
    questions and in whatever surroundings (chats that fail, are cancelled or panic
    included), the host's history only grows, and if the default projection gives a
    message for each of its items, then a request can be built from them exactly when
    the user texts are legal message texts: no chat leaves a tool call without its
    result behind. *)
Theorem conversation_reissues config turns more ms :
  config_ok config → Forall turn_ok turns → Forall turn_ok more →
  let before := converse (MemoryAgent_new config) turns in
  let after := converse before more in
  ma_history before `prefix_of` ma_history after ∧
  (Forall2 (λ item m, project_item item = Ok m) (ma_history after) ms → ms ≠ [] → reissues ms).
Proof.
  intros Hc Ht Hm before after.
  destruct (converse_appends turns (MemoryAgent_new config) Hc Ht) as (Hcfg & Ha & _); [by exists []|].
  destruct (converse_appends more before) as (_ & (parts & Hparts & HF) & Hp); [unfold before; by rewrite Hcfg|done..|].
  split; [done|]. intros Hproj Hn. apply exchange_reissues; [done|]. intros Hu.
  fold after in Hparts. rewrite Hparts in Hproj. by eapply project_conversation.
Qed.
End session.
