(* ===== verification/Echo.v ===== *)
(** * The echo agent: examples/memory_agent.rs

    The example's own model and its [main]: [EchoModel] answers each request with the
    text of its last user message, and [ask] puts the questions to a [MemoryAgent] one
    after the other. [echo_surroundings] is the host the example is: the default
    provider's prompt of the loop's history, and the stream the model starts for the
    request made of it. [memory_agent_echoes]: whatever the questions, each is echoed. *)

From S2P Require Import Prelude Text Json Ids Limits BTree ToolTypes ToolSet ModelError Message Request Failure Assembler History Prompt Event Control Options World Steps PortCall Driver RunnerTools Runner Accounts RunnerInv Blame RunnerSpec Cooperative Responsive Handle Session.
Local Open Scope N_scope.

(** ** [EchoModel] *)

(** [Display for u64]: at most twenty decimal digits. *)
Fixpoint display_digits (fuel : nat) (n : N) : str :=
  match fuel with
  | O => []
  | S fuel => (if n <? 10 then [] else display_digits fuel (n / 10)) ++ [48 + n mod 10]
  end.
Definition display_u64 (n : N) : str := display_digits 20 n.

Section echo.
Context `{SerdeJson}.

(** [request.messages().iter().rev().find_map(...).unwrap_or_default()] *)
Definition last_user (messages : list ModelMessage) : str :=
  default [] (head (omap (λ m, match m with MsgUser text => Some text | _ => None end) (reverse messages))).

(** [format!("[turn {turn}] you said: {user_text}")] *)
Definition echo_reply (turn : N) (user_text : str) : str :=
  lit "[turn " ++ display_u64 turn ++ lit "] you said: " ++ user_text.

(** [start]: what the stream yields; [None]: the future panics ([unwrap]). *)
Definition EchoModel_start (turn : N) (request : ModelRequest) : option (list ModelEvent) :=
  match ModelEvent_text_delta (echo_reply turn (last_user (mr_messages request))) with
  | Ok delta => Some [delta; EvFinish FinishStop]
  | Err _ => None
  end.

(** [Box::pin(stream::iter(events))]: ready at every poll, then at its end. *)
Definition stream_iter (events : list ModelEvent) : list (model_poll (option (result ModelError ModelEvent))) :=
  ((λ event, (PollReady (Some (Ok event)), false)) <$> events) ++ [(PollReady None, false)].

Lemma delivers_iter events : delivers events (stream_iter events) [].
Proof. induction events as [|e events IH]; constructor. apply IH. Qed.

(** ** The host of one chat *)

(** The control plane and the queue of a chat's world are its loop's. *)
Definition echo_host (prompt : result PromptError (list ModelMessage)) (events : option (list ModelEvent)) : World := {|
  w_now := 0;
  w_ctl := mkLoopControl (mkLoopId []) false LoopLimits_default (LoopState_new (mkLoopId []) StStarting 0 0) None 0 None false 0 0 None [];
  w_sink := mkLoopEventSink [] 0 false 0 false;
  w_env := [];
  w_prompt_polls := [PollReady prompt];
  w_start_polls := [(match events with Some _ => PollReady (Ok ()) | None => PollPanic end, false)];
  w_stream_polls := stream_iter (default [] events);
  w_policy_polls := []; w_tool_polls := []; w_sync := []; w_inputs := []; w_entropy := [];
  w_tool_queue := []; w_tool_dropped := 0; w_trace := []; w_sink_ops := [];
|}.

(** [clock] when the chat starts, [fill] the bytes of the loop's id. *)
Definition echo_surroundings (clock : N) (fill : list N) (agent : MemoryAgent) (turn : N) (question : str) : Surroundings :=
  let view := mkHistoryView (ma_history agent)
    [HiUser (mkUserHistory (mkLoopId fill) KindPrompt (UserText (mkBoundedText question)))] in
  let prompt := DefaultPromptProvider_prepare None false false view in
  let events :=
    match prompt with
    | Ok messages =>
        match build_model_request messages (ma_config agent) with
        | Ok request => EchoModel_start turn request
        | Err _ => None
        end
    | Err _ => None
    end in
  mkSurroundings clock [Some fill] (echo_host prompt events) 0.

(** [str::contains] *)
Definition str_contains (s p : str) : bool :=
  existsb (λ n, bool_decide (is_Some (strip_prefix p (drop n s)))) (seq 0 (S (length s))).

(** The [for] loop of [main]: the replies and the agent; [None]: [?] returns or the
    assertion fails. Each question comes with the bytes of its loop's id. *)
Fixpoint ask (clock : N) (agent : MemoryAgent) (turn : N) (questions : list (str * list N)) : option (list str * MemoryAgent) :=
  match questions with
  | [] => Some ([], agent)
  | (question, fill) :: questions =>
      match chat agent question (echo_surroundings clock fill agent turn question) with
      | (agent, ChatReturned (Ok reply)) =>
          if str_contains reply question then
            '(replies, agent) ← ask clock agent (wrapping_add u64_MAX turn 1) questions;
            Some (reply :: replies, agent)
          else None
      | _ => None
      end
  end.

(** ** Facts *)

Lemma display_digits_ok fuel : ∀ n,
  str_len (display_digits fuel n) ≤ N.of_nat fuel ∧ Forall (λ c, text_char_ok c = true) (display_digits fuel n).
Proof.
  induction fuel as [|fuel IH]; intros n; [by split|]. cbn [display_digits]. rewrite str_len_app, Forall_app.
  assert (48 + n mod 10 < 58) as Hd by (pose proof (N.mod_lt n 10 ltac:(done)); lia).
  assert (str_len [48 + n mod 10] = 1) as ->.
  { unfold str_len. simpl. unfold len_utf8. rewrite (proj2 (N.ltb_lt _ _)) by lia. done. }
  assert (text_char_ok (48 + n mod 10) = true) as Hok.
  { unfold text_char_ok, is_control. clear IH. remember (n mod 10) as d.
    assert (48 + d <? 0x20 = false) as -> by (apply N.ltb_ge; lia).
    assert (0x7F <=? 48 + d = false) as -> by (apply N.leb_gt; lia). done. }
  destruct (n <? 10); [simpl; split; [lia|by repeat constructor]|]. destruct (IH (n / 10)) as [Hl Hf].
  split; [lia|]. split; [done|by repeat constructor].
Qed.

(** What the example may ask: a text the limits let through, whole characters only. *)
Definition good_question (q : str) : Prop := valid_text q 65000 false = true.

Lemma echo_reply_ok turn q : good_question q → valid_text (echo_reply turn q) 65536 false = true.
Proof.
  unfold good_question. rewrite !valid_text_spec. intros (_ & Hl & Hf). destruct (display_digits_ok 20 turn) as [Hd Hdf].
  unfold echo_reply, display_u64. rewrite !str_len_app, !Forall_app. change (str_len (lit "[turn ")) with 6.
  change (str_len (lit "] you said: ")) with 12. split; [by right|]. split; [lia|]. split_and!; try done; by repeat constructor.
Qed.

Lemma valid_text_mono t m m' e : m ≤ m' → valid_text t m false = true → valid_text t m' e = true.
Proof. rewrite !valid_text_spec. intros Hm ([|] & Hl & Hf); [done|]. split; [by right|]. split; [lia|done]. Qed.

Lemma strip_prefix_self p s : strip_prefix p (p ++ s) = Some s.
Proof. induction p as [|c p IH]; [done|]. simpl. by rewrite N.eqb_refl. Qed.

Lemma echo_contains turn q : str_contains (echo_reply turn q) q = true.
Proof.
  set (before := lit "[turn " ++ display_u64 turn ++ lit "] you said: ").
  assert (echo_reply turn q = before ++ q) as ->.
  { unfold echo_reply, before. by rewrite <- !app_assoc. }
  apply existsb_exists. exists (length before). split; [apply in_seq; rewrite length_app; lia|].
  apply bool_decide_eq_true. rewrite drop_app_length. exists [].
  rewrite <- (app_nil_r q) at 2. apply strip_prefix_self.
Qed.

Lemma text_parts_ok t : valid_text t 65536 false = true → parts_ok [PartText t].
Proof.
  intros Hv. split_and!; [|done|constructor|done]. repeat constructor. apply part_ok_text.
  by apply (valid_text_mono t 65536).
Qed.
Lemma text_response t : valid_text t 65536 false = true →
  ModelResponse_new_with_provider_replay [PartText t] FinishStop (Some Usage_default) None
  = Ok (mkModelResponse [PartText t] FinishStop (Some Usage_default) None).
Proof.
  intros Hv%text_parts_ok. unfold ModelResponse_new_with_provider_replay. rewrite normalize_parts_id by apply Hv.
  simpl guard_err. by rewrite (proj2 (validate_tool_call_order_Ok _) Hv).
Qed.

(** A single delta of ordinary text, and a stop, assemble to that text. *)
Lemma text_assembled tools t : valid_text t 65536 false = true →
  assembled tools LoopLimits_default [EvTextDelta (mkBoundedText t); EvFinish FinishStop]
  = Some (mkModelResponse [PartText t] FinishStop (Some Usage_default) None).
Proof.
  intros Hv. pose proof Hv as (Hn & Hl & Hf)%valid_text_spec. destruct Hn as [|Hn]; [done|].
  assert (str_is_empty t = false) as He by by apply str_is_empty_false.
  assert (normalized_delta (mkBoundedText t) false = Some (mkBoundedText t, ends_with_char CR t)) as Hd.
  { unfold normalized_delta, BoundedText_is_empty. simpl. rewrite He. unfold normalize_model_text.
    rewrite (valid_text_mono t 65536 usize_MAX true) by done. by rewrite N.eqb_refl. }
  assert (is_err (ModelEvent_validate (EvTextDelta (mkBoundedText t))) = false) as Hev.
  { simpl. unfold byte_len. simpl. by rewrite (proj2 (N.leb_le _ MAX_MODEL_EVENT_TEXT_BYTES)). }
  assert (append_bounded [] t BoundedText_MAX_BYTES = Ok t) as Hap.
  { unfold append_bounded. rewrite checked_add_exact by (change (str_len []) with 0; change usize_MAX with 18446744073709551615; lia).
    simpl. by rewrite (proj2 (N.ltb_ge _ _)) by (change BoundedText_MAX_BYTES with 262144; lia). }
  set (a := mkAssembler tools LoopLimits_default [SlotText] t [] (ends_with_char CR t) false [] None None None true).
  assert (push (set_observed_event (Assembler_new tools LoopLimits_default)) (EvTextDelta (mkBoundedText t))
    = Some (a, Ok (Some (ProgressText (mkBoundedText t))))) as Hp.
  { unfold push. rewrite Hev. simpl. unfold push_text_delta. simpl. rewrite Hd. simpl.
    unfold BoundedText_is_empty. simpl. rewrite He. simpl.
    by rewrite Hap. }
  assert (finish (set_ends a None None (Some FinishStop) true)
    = Some (Ok (mkModelResponse [PartText t] FinishStop (Some Usage_default) None))) as Hfin.
  { unfold finish. cbn [set_ends as_finish_reason as_tools as_slots as_text as_reasoning as_usage as_provider_replay finish_slots a
      app default from_option]. simpl. by rewrite text_response. }
  assert (push (set_observed_event a) (EvFinish FinishStop) = Some (set_ends a None None (Some FinishStop) true, Ok None)) as Hp2 by done.
  unfold assembled. cbn [push_all]. rewrite Hp. cbv [mbind option_bind result_bind]. cbv iota beta.
  rewrite Hp2. cbv iota beta. by rewrite Hfin.
Qed.

Lemma exchange_app a b : exchange_ok a → exchange_ok b → exchange_ok (a ++ b).
Proof.
  intros Ha Hb. induction Ha as [|m ms Hp Hm _ IH|m parts results ms Hp Hm Hr _ IH]; [done|by apply exchange_plain|].
  simpl. rewrite <- app_assoc. by eapply exchange_assistant.
Qed.

(** ** One chat, and all of them *)

Section talk.
Context (config : ExecutionConfig) (clock : N).
Hypothesis config_usable : usable config.
Hypothesis config_toolless : tset_specs (ec_tools config) = [].
Hypothesis clock_early : timely default_options clock.

(** A history the next request can be made of. *)
Definition talks (agent : MemoryAgent) (messages : list ModelMessage) : Prop :=
  ma_config agent = config ∧ Forall2 (λ i m, project_item i = Ok m) (ma_history agent) messages ∧ exchange_ok messages.

Definition question_item (fill : list N) (q : str) : HistoryItem :=
  HiUser (mkUserHistory (mkLoopId fill) KindPrompt (UserText (mkBoundedText q))).
Definition reply_item (fill : list N) (turn : N) (q : str) : HistoryItem :=
  response_item (mkLoopId fill) config 0 (mkModelResponse [PartText (echo_reply turn q)] FinishStop (Some Usage_default) None).
Definition spoken (agent : MemoryAgent) (fill : list N) (turn : N) (q : str) : MemoryAgent :=
  mkMemoryAgent (ma_history agent ++ [question_item fill q; reply_item fill turn q]) config.

Lemma question_bounds q : good_question q → str_len q ≤ 65000 ∧ q ≠ [].
Proof. intros ([|] & Hl & _)%valid_text_spec; done. Qed.

Lemma question_text q : good_question q → UserInput_text q = Ok (UserText (mkBoundedText q)).
Proof.
  intros [Hl Hn]%question_bounds. unfold UserInput_text.
  rewrite (proj2 (BoundedText_new_Ok q (mkBoundedText q))) by (split; [change BoundedText_MAX_BYTES with 262144; lia|done]).
  simpl. unfold BoundedText_is_empty. simpl. by rewrite (proj2 (str_is_empty_false q)).
Qed.

Lemma echo_start agent fill q :
  good_question q → ma_config agent = config → existsb (λ b, negb (b =? 0)) fill = true →
  ∃ control sink, AgentLoop_start true (mkLoopRequest (ma_history agent) (UserText (mkBoundedText q)) (ma_config agent))
    default_options clock [Some fill] = Some (Ok (mkLoopId fill, control, sink)).
Proof.
  intros [Hl Hn]%question_bounds Hc Hf. unfold AgentLoop_start. cbn [negb].
  rewrite (proj2 (LoopOptions_validate_ok default_options clock)) by (split; [apply default_options_ok|done]).
  cbn [lq_config lq_input]. unfold validate_against_limits. rewrite Hc, config_toolless. cbn.
  rewrite (proj2 (N.eqb_neq _ _)), (proj2 (N.ltb_ge _ _)).
  - unfold LoopId_new. simpl. rewrite Hf. eauto.
  - change BoundedText_MAX_BYTES with 262144. lia.
  - intros H0. apply Hn. destruct q as [|c q]; [done|]. simpl in H0. pose proof (len_utf8_pos c). lia.
Qed.

Lemma talks_spoken agent messages fill turn q :
  good_question q → talks agent messages →
  talks (spoken agent fill turn q) (messages ++ [MsgUser q; MsgAssistant [PartText (echo_reply turn q)]]).
Proof.
  intros Hq (_ & Hp & He). pose proof (echo_reply_ok turn q Hq) as Hr. split; [done|]. split.
  - apply Forall2_app; [done|]. constructor; [done|]. constructor; [|done].
    unfold project_item, reply_item, response_item. simpl. unfold assistant_message, assistant_with_provider_replay. cbn [ah_content ah_provider_replay].
    pose proof (text_parts_ok _ Hr) as Hok. rewrite normalize_parts_id by apply Hok. cbn [ModelMessage_validate].
    by rewrite (proj2 (validate_tool_call_order_Ok _) Hok).
  - apply exchange_app; [done|]. apply exchange_plain; [done| |].
    + unfold message_ok. simpl. by rewrite (valid_text_mono q 65000).
    + apply (exchange_assistant _ [PartText (echo_reply turn q)] []); [done| |done|constructor].
      unfold message_ok. cbn [ModelMessage_validate]. by apply validate_tool_call_order_Ok, text_parts_ok.
Qed.

Lemma last_user_snoc messages q : last_user (messages ++ [MsgUser q]) = q.
Proof. unfold last_user. by rewrite reverse_app. Qed.

(** The chat: the provider's prompt makes a request, whose last user text the model
    echoes. *)
Lemma echo_chat agent messages fill turn q :
  good_question q → talks agent messages → existsb (λ b, negb (b =? 0)) fill = true →
  chat agent q (echo_surroundings clock fill agent turn q) = (spoken agent fill turn q, ChatReturned (Ok (echo_reply turn q))).
Proof.
  intros Hq Htalk Hf. pose proof Htalk as (Hc & Hp & He).
  destruct (echo_start agent fill q Hq Hc Hf) as (control & sink & Hstart).
  pose proof (echo_reply_ok turn q Hq) as Hr.
  set (asked := messages ++ [MsgUser q]).
  assert (DefaultPromptProvider_prepare None false false (mkHistoryView (ma_history agent) [question_item fill q]) = Ok asked) as Hprompt.
  { unfold DefaultPromptProvider_prepare. simpl.
    rewrite (proj2 (project_items_Ok _ [] asked)).
    - simpl. unfold asked. by destruct messages.
    - exists asked. split; [done|]. unfold HistoryView_iter. simpl. apply Forall2_app; [done|]. by repeat constructor. }
  assert (exchange_ok asked) as Hex.
  { apply exchange_app; [done|]. apply exchange_plain; [done| |constructor]. unfold message_ok. simpl. by rewrite (valid_text_mono q 65000). }
  set (request := mkModelRequest asked [] ModelLimits_default (ec_reasoning config)).
  assert (build_model_request asked config = Ok request) as Hbuild.
  { unfold build_model_request, with_validated_tools. rewrite (proj2 (validate_tool_exchange_Ok _) Hex), config_toolless.
    unfold asked. by destruct messages. }
  assert (EchoModel_start turn request = Some [EvTextDelta (mkBoundedText (echo_reply turn q)); EvFinish FinishStop]) as Hevents.
  { unfold EchoModel_start. cbn [request mr_messages]. unfold asked. rewrite last_user_snoc.
    unfold ModelEvent_text_delta, checked_event_text.
    rewrite (proj2 (BoundedText_new_with_max_bytes_Ok _ _ (mkBoundedText (echo_reply turn q)))); [done|].
    apply valid_text_spec in Hr. split_and!; [done|apply Hr|done]. }
  pose (surroundings := echo_surroundings clock fill agent turn q).
  assert (surroundings = mkSurroundings clock [Some fill]
    (echo_host (Ok asked) (Some [EvTextDelta (mkBoundedText (echo_reply turn q)); EvFinish FinishStop])) 0) as Hsur.
  { unfold surroundings, echo_surroundings. fold (question_item fill q). by rewrite Hprompt, Hc, Hbuild, Hevents. }
  fold surroundings. rewrite Hsur.
  set (items := [reply_item fill turn q]).
  transitivity (mkMemoryAgent (ma_history agent ++ question_item fill q :: items) (ma_config agent),
    ChatReturned (Ok (reply_of (question_item fill q :: items)))); [|by rewrite Hc].
  eapply (chat_replies agent q _ _ (mkLoopId fill) control sink items Usage_default 0);
    [by apply question_text|exact Hstart|done..|by rewrite Hc| |done].
  rewrite Hc. change items with (steering_items (mkLoopId fill) [] ++ items). apply ScriptStop; [|done..].
  eapply (Answers default_options config Usage_default _ asked request [] [] _ []);
    [by apply ResolvesNow|unfold asked; by destruct messages|done|done|by apply ResolvesNow|apply delivers_iter|
     by apply text_assembled|done].
Qed.

Lemma ask_spec questions : ∀ agent messages turn,
  talks agent messages → Forall (λ x, good_question x.1 ∧ existsb (λ b, negb (b =? 0)) x.2 = true) questions →
  turn + N.of_nat (length questions) ≤ u64_MAX →
  ∃ agent', ask clock agent turn questions
    = Some (imap (λ n x, echo_reply (turn + N.of_nat n) x.1) questions, agent') ∧
    length (ma_history agent') = (length (ma_history agent) + 2 * length questions)%nat.
Proof.
  induction questions as [|[q fill] questions IH]; intros agent messages turn Ht HF Hn.
  { exists agent. split; [done|]. simpl. lia. }
  apply Forall_cons in HF as [[Hq Hf] HF]. simpl in Hq, Hf. cbn [ask].
  rewrite (echo_chat agent messages fill turn q Hq Ht Hf), echo_contains.
  rewrite wrapping_add_exact by (cbn [length] in Hn; lia).
  destruct (IH (spoken agent fill turn q) _ (turn + 1) (talks_spoken _ _ _ _ _ Hq Ht) HF) as (agent' & E & Hlen);
    [cbn [length] in Hn; lia|].
  exists agent'. rewrite E. simpl. split.
  - rewrite N.add_0_r. do 3 f_equal. apply imap_ext. intros n x _. simpl. f_equal. lia.
  - rewrite Hlen. unfold spoken. simpl. rewrite length_app. simpl. lia.
Qed.

(** C21: the example's conversation works, whatever is asked. For every list of
    questions, each a non-empty text of at most 65000 bytes of ordinary characters, the
    loop of [main] gets an answer to every one of them, the answer is the question with
    its turn in front, the assertion holds, and the host's history then holds two items
    for each. This is the whole path: the input's check, the loop's start, the default
    projection of a history that grows, the request, the stream, its assembly, the
    report, the join, and the fold into the history. *)
Theorem memory_agent_echoes questions :
  Forall (λ x, good_question x.1 ∧ existsb (λ b, negb (b =? 0)) x.2 = true) questions →
  N.of_nat (length questions) ≤ u64_MAX →
  ∃ agent, ask clock (MemoryAgent_new config) 0 questions
    = Some (imap (λ turn x, echo_reply (N.of_nat turn) x.1) questions, agent) ∧
    length (ma_history agent) = (2 * length questions)%nat.
Proof.
  intros HF Hn. destruct (ask_spec questions (MemoryAgent_new config) [] 0) as (agent & E & Hl); try done.
  { split; [done|]. split; constructor. }
  exists agent. by rewrite E.
Qed.
End talk.

(** ** [main] *)

Definition echo_descriptor : result NameError (result ModelValueError ModelDescriptor) :=
  model ← ModelRef_from_str (lit "fake/echo");
  Ok (ModelDescriptor_new model 8192 [ReasonAuto] false).

Definition main_config : option (ExecutionConfig) :=
  match echo_descriptor with
  | Ok (Ok descriptor) =>
      match ExecutionConfig_new (λ _, Some descriptor) 0 ReasonAuto ToolSet_default None 0 with
      | Ok config => Some config
      | Err _ => None
      end
  | _ => None
  end.

(** [main]: the replies, and how many items the host's history holds. *)
Definition main (clock : N) (fills : list (list N)) : option (list str * N) :=
  config ← main_config;
  '(replies, agent) ← ask clock (MemoryAgent_new config) 0
    (zip [lit "hello"; lit "what is the time"; lit "goodbye"] fills);
  Some (replies, N.of_nat (length (ma_history agent))).
End echo.

(** The example prints these. *)
Definition main_fills : list (list N) := [[1]; [2]; [3]].
Example main_prints :
  bool_decide (main (H := demo.json) 5 main_fills
    = Some ([lit "[turn 0] you said: hello"; lit "[turn 1] you said: what is the time"; lit "[turn 2] you said: goodbye"], 6)) = true.
Proof. vm_compute. reflexivity. Qed.

Definition echo_config : ExecutionConfig (H := demo.json) :=
  mkExecutionConfig 0 (mkModelDescriptor (mkModelRef (lit "fake/echo")) 8192 [ReasonAuto] false) ReasonAuto ToolSet_default None 0.
Definition echo_questions : list (str * list N) := [(lit "hello", [1]); (lit "again", [0; 2])].

Lemma memory_agent_echoes_witness :
  main_config = Some echo_config ∧
  ∃ agent, ask 5 (MemoryAgent_new echo_config) 0 echo_questions
    = Some ([lit "[turn 0] you said: hello"; lit "[turn 1] you said: again"], agent) ∧ length (ma_history agent) = 4%nat.
Proof.
  split; [reflexivity|].
  apply (memory_agent_echoes echo_config 5).
  - split; [reflexivity|by left].
  - reflexivity.
  - split; [apply default_options_ok|..]; try (vm_compute; discriminate).
  - constructor; [split; reflexivity|]. constructor; [split; reflexivity|]. constructor.
  - vm_compute. discriminate.
Defined.
