(* ===== verification/HostExample.v ===== *)
(** * The example host: examples/agent_loop.rs

    The adapters of the example (its models, its tool, its input queue) and its four
    scenarios, run on the model of the loop and checked by computation. A model is the
    stream it starts for a request; [served] puts the streams of the requests in a row
    and answers each prompt with the default provider's projection of the history the
    scenario expects, and the check that the report's history is exactly the expected
    one closes the circle. What the example prints is data here ([Line], [Summary]). *)

From S2P Require Import Prelude Text Json Ids Limits BTree ToolTypes ToolSet ModelError Message Request Failure Assembler History Prompt Event Control Options World Steps PortCall Driver RunnerTools Runner Accounts RunnerInv Blame RunnerSpec Cooperative Responsive Handle Session Echo.
Local Open Scope N_scope.

(** ** JSON: the schema and the arguments of the example's tool *)

Module clock_json.
Notation V := (@Value demo.number) (only parsing).
Definition schema : V :=
  JObject [(lit "properties", JObject [(lit "question", JObject [(lit "type", JString (lit "string"))])]);
           (lit "type", JString (lit "object"))].
Definition arguments : V := JObject [(lit "question", JString (lit "what time is it"))].

#[export] Instance json : SerdeJson := {
  sj_number := demo.number;
  to_writer_chunks v := [str_bytes (demo.render v)];
  to_string := demo.render;
  from_str s := if bool_decide (s = demo.render arguments) then Some arguments else None;
}.
End clock_json.
Import clock_json.
Notation J := clock_json.json (only parsing).

(** ** The adapters *)

(** [HostInputs]: [push] queues an input, [take] hands over the queue. *)
Definition HostInputs : Type := list UserInput.
Definition HostInputs_push (queue : HostInputs) (text : str) : option HostInputs :=
  match UserInput_text text with Ok input => Some (queue ++ [input]) | Err _ => None end.
Definition HostInputs_take (queue : HostInputs) : HostInputs * list UserInput := ([], queue).

(** What the takes of the loop give, [None] standing for a take and [Some text] for a
    push of the host. *)
Fixpoint takes_of (queue : HostInputs) (ops : list (option str)) : option (list (list UserInput)) :=
  match ops with
  | [] => Some []
  | None :: ops => let '(queue, taken) := HostInputs_take queue in rest ← takes_of queue ops; Some (taken :: rest)
  | Some text :: ops => queue ← HostInputs_push queue text; takes_of queue ops
  end.

Definition Events : Type := list (ModelEvent (H := J)).
Definition Stream : Type := list (model_poll (option (result ModelError (ModelEvent (H := J))))).

Definition clock_call_events : option Events :=
  match ToolCallId_new (lit "call_clock_0001"), ToolName_from_str (lit "clock") with
  | Ok call_id, Ok name =>
      match ModelEvent_tool_call_arguments_delta call_id (demo.render arguments) with
      | Ok delta => Some [EvToolCallStart call_id name; delta; EvToolCallEnd call_id; EvFinish FinishToolCalls]
      | Err _ => None
      end
  | _, _ => None
  end.

(** The delta and the [Stop] of a model that answers with a fixed text. *)
Definition text_answer (text : str) : option Events :=
  match ModelEvent_text_delta text with Ok delta => Some [delta; EvFinish FinishStop] | Err _ => None end.

Definition iterated (events : option Events) : option Stream := stream_iter <$> events.

Definition EchoModel_stream (request_index : N) : option Stream := iterated (text_answer (lit "Hello from the model")).
Definition ToolModel_stream (request_index : N) : option Stream :=
  iterated (if request_index =? 0 then clock_call_events else text_answer (lit "It is 12:00")).
(** [held]: how often the stream is pending until it is released ([None]: it never is). *)
Definition FirstModel_stream (held : option nat) (request_index : N) : option Stream :=
  if request_index =? 0 then
    match held with
    | Some n => (λ s, replicate n (PollPending, false) ++ s) <$> iterated clock_call_events
    | None => Some []
    end
  else iterated (text_answer (lit "first-again")).
Definition SecondModel_stream (request_index : N) : option Stream := iterated (text_answer (lit "after-update")).

(** [ClockTool]: completes at its first poll. *)
Definition ClockTool_execute : option tool_poll :=
  match ToolOutput_new (lit "12:00") with
  | Ok output => Some (PollReady (Ok (ExecCompleted output)), [])
  | Err _ => None
  end.
Definition ClockTool_spec : option (ToolSpec (H := J)) :=
  match ToolName_from_str (lit "clock") with
  | Ok name => match ToolSpec_new name (lit "Reads the current time") schema with Ok spec => Some spec | Err _ => None end
  | Err _ => None
  end.

Definition descriptor (model_name : str) (supports_tools : bool) : option ModelDescriptor :=
  match ModelRef_from_str (lit "fake/" ++ model_name) with
  | Ok model => match ModelDescriptor_new model 8192 [ReasonAuto] supports_tools with Ok d => Some d | Err _ => None end
  | Err _ => None
  end.

(** The tool's handle is 0. *)
Definition clock_toolset : option (ToolSet (H := J)) :=
  match build (register_all (λ _, ClockTool_spec) [0]) with Ok set => Some set | Err _ => None end.

(** The handle of the model stands for its descriptor. *)
Definition config (model : ModelDescriptor) (tools : ToolSet (H := J)) : option (ExecutionConfig (H := J)) :=
  match ExecutionConfig_new (λ _, Some model) 0 ReasonAuto tools None 0 with Ok c => Some c | Err _ => None end.

(** [start]: the request and what the loop starts with. *)
Definition start (model : ModelDescriptor) (tools : ToolSet (H := J)) (clock : N) (fill : list N) :
    option (LoopRequest (H := J) * (LoopId * LoopControl * LoopEventSink)) :=
  match UserInput_text (lit "hello"), config model tools, LoopOptions_default_checked clock with
  | Ok input, Some config, Ok options =>
      let request := mkLoopRequest [] input config in
      match AgentLoop_start true request options clock [Some fill] with
      | Some (Ok started) => Some (request, started)
      | _ => None
      end
  | _, _, _ => None
  end.

(** ** What is printed *)

Inductive Line :=
| PrStarted (loop_id : LoopId)
| PrRequest (request_index revision : N)
| PrDelta (channel : OutputChannel) (delta : str)
| PrToolStarted (tool_name : ToolName)
| PrToolFinished (call_id : ToolCallId) (outcome : ToolResultOutcome)
| PrFinished (outcome : LoopOutcomeSummary)
| PrOther.

Definition printable (event : LoopEvent) : Line :=
  match event with
  | LeStarted loop_id => PrStarted loop_id
  | LeRequestStarted _ request_index revision _ _ => PrRequest request_index revision
  | LeOutputDelta _ _ channel delta => PrDelta channel (as_str delta)
  | LeToolStarted _ _ _ tool_name => PrToolStarted tool_name
  | LeToolFinished _ _ call_id outcome _ => PrToolFinished call_id outcome
  | LeFinished _ outcome => PrFinished outcome
  | _ => PrOther
  end.

(** [stream_events]: the runner has ended; the stream is drained to its end. *)
Fixpoint stream_events (fuel : nat) (s : LoopEventSink) : option (list (N * Line)) :=
  match fuel with
  | O => None
  | S fuel =>
      match stream_poll_next s false with
      | (s, Some (Some envelope)) =>
          lines ← stream_events fuel s;
          Some ((env_dropped_before envelope, printable (env_event envelope)) :: lines)
      | (_, Some None) => Some []
      | (_, None) => None
      end
  end.

(** The queue holds what is left, so that many receptions and one end drain it. *)
Lemma stream_events_drain s : ∀ fuel, (length (sk_queue s) < fuel)%nat →
  stream_events fuel s = Some ((λ e, (env_dropped_before e, printable (env_event e))) <$> sk_queue s).
Proof.
  destruct s as [queue capacity open dropped closed]. simpl.
  induction queue as [|e queue IH]; intros [|fuel] Hf; simpl in *; try lia; [done|].
  unfold stream_poll_next. simpl. by rewrite IH by lia.
Qed.

Record Summary := mkSummary {
  su_outcome : LoopOutcome;
  su_requests : N;
  su_tool_rounds : N;
  su_appended : nat;
  su_text : list (AssistantPart (H := J));
}.
Definition summarize (report : LoopReport (H := J)) : Summary :=
  mkSummary (lr_outcome report) (lr_requests report) (lr_tool_rounds report) (length (lr_appended report))
    (omap (λ item, match item with HiAssistant assistant => head (ah_content assistant) | _ => None end) (lr_appended report)).

(** ** A scenario *)

Record Scenario := mkScenario {
  sc_streams : list Stream;                          (* of the requests, in order *)
  sc_views : list (list (HistoryItem (H := J)));     (* the history each prompt is made of *)
  sc_tools : list tool_poll;
  sc_takes : list (list UserInput);
  sc_env : list (list (EnvOp (H := J)));
}.

Definition served (sc : Scenario) (clock : N) (control : LoopControl (H := J)) (sink : LoopEventSink) : World (H := J) := {|
  w_now := clock; w_ctl := control; w_sink := sink; w_env := sc_env sc;
  w_prompt_polls := (λ view, PollReady (DefaultPromptProvider_prepare None false false (mkHistoryView [] view))) <$> sc_views sc;
  w_start_polls := (λ _, (PollReady (Ok ()), false)) <$> sc_streams sc;
  w_stream_polls := concat (sc_streams sc);
  w_policy_polls := []; w_tool_polls := sc_tools sc; w_sync := []; w_inputs := sc_takes sc; w_entropy := [];
  w_tool_queue := []; w_tool_dropped := 0; w_trace := []; w_sink_ops := [];
|}.

(** The history before each response. *)
Definition views_of (items : list (HistoryItem (H := J))) : list (list (HistoryItem (H := J))) :=
  omap (λ n, match items !! n with Some (HiAssistant _) => Some (take n items) | _ => None end) (seq 0 (length items)).

(** A started loop, run and joined: the report, what the host received while it ran,
    and what is left in the stream. *)
Definition run_scenario (sc : Scenario) (clock : N) (started : LoopRequest (H := J) * (LoopId * LoopControl * LoopEventSink)) :
    option (LoopReport (H := J) * list LoopEventEnvelope * LoopEventSink) :=
  let '(request, (id, control, sink)) := started in
  match AgentLoop_take_events AgentLoop_started with
  | (_, Err _) => None
  | (agent, Ok _) =>
      let w := served sc clock control sink in
      let out := run_loop id default_options request w in
      match out, (AgentLoop_join agent None (mkShared control 0 true None [task_ops w out])).2 with
      | Done _ w', Some (Some (Ok report)) => Some (report, (sink_run sink (w_sink_ops w')).2, w_sink w')
      | _, _ => None
      end
  end.

(** The clock and the id of every scenario, and the items of its history. *)
Definition clock : N := 5.
Definition loop_id : LoopId := mkLoopId [7].
Definition hello_item : HistoryItem (H := J) := HiUser (mkUserHistory loop_id KindPrompt (UserText (mkBoundedText (lit "hello")))).
Definition model_item (request_index : N) (model_name : str) (parts : list (AssistantPart (H := J))) (finish : ModelFinishReason) :
    HistoryItem (H := J) :=
  HiAssistant (mkAssistantHistory loop_id request_index (mkModelRef (lit "fake/" ++ model_name)) ReasonAuto parts None finish Usage_default).
Definition clock_call : AssistantPart (H := J) :=
  PartToolCall (mkToolCall (mkToolCallId (lit "call_clock_0001")) (mkToolName (lit "clock")) arguments 0).
Definition clock_item : HistoryItem (H := J) :=
  HiToolResult (mkToolResultHistory loop_id 0 (mkToolCallId (lit "call_clock_0001")) (mkToolName (lit "clock")) OutcomeSuccess
    (mkToolOutput (mkBoundedText (lit "12:00")))).

Definition is_completed (outcome : LoopOutcome) : bool := match outcome with OutCompleted => true | _ => false end.

(** The report is that of a completed loop with this history. *)
Definition reports (report : LoopReport (H := J)) (items : list (HistoryItem (H := J))) (requests rounds revision : N) : bool :=
  is_completed (lr_outcome report) && bool_decide (lr_appended report = items) && (lr_requests report =? requests)
  && (lr_tool_rounds report =? rounds) && (lr_final_config_revision report =? revision).

(** ** [simple_text_loop] *)

Definition simple_items : list (HistoryItem (H := J)) :=
  [hello_item; model_item 0 (lit "echo") [PartText (lit "Hello from the model")] FinishStop].

Definition simple_text_loop : option (LoopReport (H := J) * option (list (N * Line))) :=
  model ← descriptor (lit "echo") false;
  stream ← EchoModel_stream 0;
  started ← start model ToolSet_default clock [7];
  '(report, _, sink) ← run_scenario (mkScenario [stream] (views_of simple_items) [] [] []) clock started;
  Some (report, stream_events 100 sink).

Example simple_text_loop_runs :
  match simple_text_loop with
  | Some (report, Some lines) =>
      reports report simple_items 1 0 0 && bool_decide (su_text (summarize report) = [PartText (lit "Hello from the model")])
      && forallb (λ line, line.1 =? 0) lines && (N.of_nat (length lines) =? 8)
      && match lines with
         | (_, PrStarted id) :: (_, PrOther) :: (_, PrRequest 0 0) :: (_, PrOther) :: (_, PrDelta ChText delta) :: lines =>
             bool_decide (id = loop_id) && bool_decide (delta = lit "Hello from the model")
             && match last lines with Some (_, PrFinished SumCompleted) => true | _ => false end
         | _ => false
         end
  | _ => false
  end = true.
Proof. vm_compute. reflexivity. Qed.

(** ** [tool_loop] *)

Definition tool_items : list (HistoryItem (H := J)) :=
  [hello_item; model_item 0 (lit "toolbot") [clock_call] FinishToolCalls; clock_item;
   model_item 1 (lit "toolbot") [PartText (lit "It is 12:00")] FinishStop].

Definition tool_loop : option (LoopReport (H := J) * option (list (N * Line))) :=
  model ← descriptor (lit "toolbot") true;
  tools ← clock_toolset;
  first ← ToolModel_stream 0;
  second ← ToolModel_stream 1;
  clock_tool ← ClockTool_execute;
  started ← start model tools clock [7];
  '(report, _, sink) ← run_scenario (mkScenario [first; second] (views_of tool_items) [clock_tool] [] []) clock started;
  Some (report, stream_events 100 sink).

Definition shows_line (line : Line) (lines : list (N * Line)) : bool :=
  existsb (λ l, match l.2, line with
    | PrRequest k r, PrRequest k' r' => (k =? k') && (r =? r')
    | PrToolStarted name, PrToolStarted name' => bool_decide (name = name')
    | PrToolFinished id outcome, PrToolFinished id' outcome' => bool_decide (id = id') && bool_decide (outcome = outcome')
    | PrFinished SumCompleted, PrFinished SumCompleted => true
    | PrFinished (SumCancelled ReasonUser), PrFinished (SumCancelled ReasonUser) => true
    | _, _ => false
    end) lines.

Example tool_loop_runs :
  match tool_loop with
  | Some (report, Some lines) =>
      reports report tool_items 2 1 0
      && bool_decide (su_text (summarize report) = [clock_call; PartText (lit "It is 12:00")])
      && forallb (λ line, shows_line line lines)
           [PrRequest 0 0; PrToolStarted (mkToolName (lit "clock"));
            PrToolFinished (mkToolCallId (lit "call_clock_0001")) OutcomeSuccess; PrRequest 1 0; PrFinished SumCompleted]
  | _ => false
  end = true.
Proof. vm_compute. reflexivity. Qed.

(** ** [input_update_boundaries] *)

(** [wait_for_request]: what is received after the awaited event; [None]: the stream
    ends, or has nothing more yet, before it. *)
Fixpoint wait_for_request (received : list LoopEventEnvelope) (request_index : N) : option (list LoopEventEnvelope) :=
  match received with
  | [] => None
  | envelope :: received =>
      match env_event envelope with
      | LeRequestStarted _ index _ _ _ =>
          if index =? request_index then Some received else wait_for_request received request_index
      | _ => wait_for_request received request_index
      end
  end.

Definition steering_item : HistoryItem (H := J) :=
  HiUser (mkUserHistory loop_id KindSteering (UserText (mkBoundedText (lit "please focus on the time")))).
Definition update_items : list (HistoryItem (H := J)) :=
  [hello_item; model_item 0 (lit "first") [clock_call] FinishToolCalls; clock_item; steering_item;
   model_item 1 (lit "second") [PartText (lit "after-update")] FinishStop].

(** The host receives until request 0 is issued, pushes its input and updates, after
    [delay] steps of the runner; the model is held for [held] polls. The loop takes the
    inputs twice before the first request and, after the push, twice before the second. *)
Definition input_update_boundaries (delay held : nat) :
    option (LoopReport (H := J) * list LoopEventEnvelope * list LoopEventEnvelope) :=
  first ← descriptor (lit "first") true;
  second ← descriptor (lit "second") true;
  tools ← clock_toolset;
  held_stream ← FirstModel_stream (Some held) 0;
  update_stream ← SecondModel_stream 1;
  clock_tool ← ClockTool_execute;
  updated ← config second tools;
  takes ← takes_of [] [None; None; Some (lit "please focus on the time"); None; None];
  started ← start first tools clock [7];
  '(report, received, sink) ← run_scenario
    (mkScenario [held_stream; update_stream] (views_of update_items) [clock_tool] takes
       (replicate delay [] ++ [[EnvRecv; EnvRecv; EnvRecv; EnvUpdate updated]])) clock started;
  Some (report, received, sk_queue sink).

Definition texts_of (report : LoopReport (H := J)) : list str :=
  omap (λ part, match part with PartText text => Some text | _ => None end) (su_text (summarize report)).

(** The example's assertions. *)
Definition update_asserts (r : option (LoopReport (H := J) * list LoopEventEnvelope * list LoopEventEnvelope)) : bool :=
  match r with
  | Some (report, received, rest) =>
      match wait_for_request received 0 with
      | Some [] =>
          reports report update_items 2 1 1
          && existsb (λ item, match item with HiUser user => bool_decide (as_text (uh_input user) = lit "please focus on the time") | _ => false end)
               (lr_appended report)
          && existsb (λ text, str_contains text (lit "after-update")) (texts_of report)
          && negb (existsb (λ text, str_contains text (lit "first-again")) (texts_of report))
          && match omap (λ e, match env_event e with LeRequestStarted _ 1 revision _ _ => Some revision | _ => None end) rest with
             | [revision] => revision =? 1
             | _ => false
             end
      | _ => false
      end
  | None => false
  end.

(** At whatever step the host gets to act between the issue of request 0 and the
    release of the model. *)
Example input_update_boundaries_hold :
  forallb (λ delay, update_asserts (input_update_boundaries delay 20)) (seq 23 50) = true.
Proof. vm_compute. reflexivity. Qed.

(** ** [cancel_held_loop] *)

Definition cancel_held_loop (delay : nat) : option (LoopReport (H := J) * list LoopEventEnvelope) :=
  held ← descriptor (lit "held") true;
  tools ← clock_toolset;
  held_stream ← FirstModel_stream None 0;
  started ← start held tools clock [7];
  '(report, received, _) ← run_scenario
    (mkScenario [held_stream] [[hello_item]] [] []
       (replicate delay [] ++ [[EnvRecv; EnvRecv; EnvRecv; EnvCancel SrcUser]; [EnvFireToken]])) clock started;
  Some (report, received).

Definition cancel_asserts (r : option (LoopReport (H := J) * list LoopEventEnvelope)) : bool :=
  match r with
  | Some (report, received) =>
      match wait_for_request received 0, lr_outcome report with
      | Some [], OutCancelled ReasonUser => bool_decide (lr_appended report = [hello_item])
      | _, _ => false
      end
  | None => false
  end.

Example cancel_held_loop_holds : forallb (λ delay, cancel_asserts (cancel_held_loop delay)) (seq 23 50) = true.
Proof. vm_compute. reflexivity. Qed.

(** Nobody cancels: the loop waits for good. *)
Example held_loop_waits :
  match (model ← descriptor (lit "held") true; tools ← clock_toolset; stream ← FirstModel_stream None 0;
         started ← start model tools clock [7]; Some (stream, started)) with
  | Some (stream, (request, (id, control, sink))) =>
      match run_loop id default_options request (served (mkScenario [stream] [[hello_item]] [] [] []) clock control sink) with
      | Paused _ => true
      | _ => false
      end
  | None => false
  end = true.
Proof. vm_compute. reflexivity. Qed.
