(* ===== verification/Witnesses.v ===== *)
(** * Witnesses of the runner's properties

    One concrete loop, on the small JSON instance of [Json.demo]: a host that
    offers one tool behind a policy, hands over one input, and a provider that
    first calls the tool and then answers. Each theorem about executions is
    applied to it, or to a world cut to its own hypotheses. *)

From S2P Require Import Prelude Text Json Ids Limits BTree ToolTypes ToolSet ModelError Message Request Failure Assembler History Prompt Event EventSpec Control Options World Steps PortCall Driver RunnerTools Runner Accounts RunnerInv Blame RunnerSpec Cooperative Observed Responsive Handle Session.
Local Open Scope N_scope.

(** ** The demonstration *)

Definition demo_tools : ToolSet (H := demo.json) :=
  mkToolSet [demo_spec] [(mkToolName (lit "read"), mkEnabledTool 0 demo_spec)].
Definition demo_config (policy : option N) : ExecutionConfig (H := demo.json) :=
  mkExecutionConfig 0 (mkModelDescriptor (mkModelRef (lit "p/m")) 8192 [ReasonAuto] true) ReasonAuto
    demo_tools policy 0.
Definition demo_loop : LoopRequest (H := demo.json) :=
  mkLoopRequest [] (UserText (mkBoundedText (lit "go"))) (demo_config (Some 0)).

Definition demo_stream : list (model_poll (option (result ModelError (ModelEvent (H := demo.json))))) :=
  ((λ e, (PollReady (Some (Ok e)), false)) <$>
    [EvToolCallStart demo_call_id (mkToolName (lit "read"));
     EvToolCallArgumentsDelta demo_call_id (mkBoundedText (lit "{}"));
     EvToolCallEnd demo_call_id; EvFinish FinishToolCalls])
  ++ [(PollReady None, false)]
  ++ ((λ e, (PollReady (Some (Ok e)), false)) <$>
    [EvTextDelta (mkBoundedText (lit "done")); EvUsage (Usage_from_optional (Some 7) (Some 3) None);
     EvFinish FinishStop])
  ++ [(PollReady None, false)].

Definition demo_world (env : list (list (EnvOp (H := demo.json)))) : World (H := demo.json) := {|
  w_now := 5;
  w_ctl := demo_control.1;
  w_sink := demo_control.2;
  w_env := env;
  w_prompt_polls := [PollPending; PollReady (Ok [MsgUser (lit "go")]); PollReady (Ok [MsgUser (lit "go")])];
  w_start_polls := [(PollReady (Ok ()), false); (PollReady (Ok ()), false)];
  w_stream_polls := demo_stream;
  w_policy_polls := [PollReady (Ok DecisionAllow)];
  w_tool_polls := [(PollPending, [mkToolProgress None (Some 1) (Some 2)]);
                   (PollReady (Ok (ExecCompleted (mkToolOutput (mkBoundedText (lit "out"))))), [])];
  w_sync := [];
  w_inputs := [[UserText (mkBoundedText (lit "also"))]];
  w_entropy := [];
  w_tool_queue := [];
  w_tool_dropped := 0;
  w_trace := []; w_sink_ops := [];
|}.

Definition demo_id : LoopId := mkLoopId [1].

(** What a computation that returns gives. *)
Definition is_done {A : Type} (r : outcome (H := demo.json) A) : bool :=
  match r with Done _ _ => true | _ => false end.
Definition given {A : Type} (r : outcome (H := demo.json) A) (d : A) : A :=
  match r with Done a _ => a | _ => d end.
Definition given_world {A : Type} (r : outcome (H := demo.json) A) : World (H := demo.json) :=
  match r with Done _ w => w | _ => demo_world [] end.

Lemma is_done_eq {A : Type} (r : outcome (H := demo.json) A) (d : A) :
  is_done r = true → r = Done (given r d) (given_world r).
Proof. by destruct r. Qed.

(** A property of every return holds of the one that was computed. *)
Lemma at_given {A : Type} (r : outcome (H := demo.json) A) (d : A) (Q : A → World (H := demo.json) → Prop)
    (R S : World (H := demo.json) → Prop) :
  is_done r = true →
  match r with Done a w => Q a w | Panicked w => R w | Paused w => S w | OutOfFuel => False end →
  Q (given r d) (given_world r).
Proof. by destruct r. Qed.

Definition demo_empty_report : LoopReport (H := demo.json) :=
  mkLoopReport demo_id OutCompleted [] Usage_default 0 0 0.
Local Notation demo_run := (run_loop demo_id default_options demo_loop (demo_world [])).
Definition demo_report : LoopReport (H := demo.json) := given demo_run demo_empty_report.

Lemma demo_run_is_done : is_done demo_run = true.
Proof. vm_compute. reflexivity. Qed.
Lemma demo_run_done :
  demo_run = Done demo_report (given_world demo_run).
Proof. apply (is_done_eq _ demo_empty_report demo_run_is_done). Qed.

Lemma demo_options : options_ok default_options.
Proof. by apply (LoopOptions_validate_ok default_options 0). Qed.

Lemma demo_config_ok policy : config_ok (demo_config policy).
Proof.
  split; simpl.
  - constructor; [constructor|constructor].
  - unfold btree_ok. constructor; [constructor|constructor].
  - done.
  - by constructor.
Qed.

Lemma demo_ready : ready demo_loop (demo_world []).
Proof.
  split; [by split|done|split; [constructor|done]|done|apply demo_config_ok].
Qed.

(** ** The whole loop *)

Lemma run_loop_delivers_once_witness :
  ∃ t, delivered (demo_world []) t demo_report (given_world demo_run) ∧ unpublished t.
Proof.
  eapply (at_given demo_run demo_empty_report
    (λ report w', ∃ t, delivered (demo_world []) t report w' ∧ unpublished t) _ _ demo_run_is_done).
  apply (run_loop_delivers_once demo_id default_options demo_loop (demo_world []) demo_options demo_ready).
Defined.

Lemma run_loop_accounts_witness :
  lr_requests demo_report = 2 ∧
  ∃ t, w_trace (given_world demo_run) = w_trace (demo_world []) ++ t ++ [HcPublish demo_report] ∧
    length (issues t) = 2%nat.
Proof.
  assert (lr_requests demo_report = 2) as H2 by (vm_compute; reflexivity).
  split; [exact H2|].
  destruct (run_loop_accounts demo_id default_options demo_loop (demo_world []) demo_options demo_ready
    demo_report (given_world demo_run) demo_run_done) as [(f & fl & _ & _ & _ & Hr & _)|(t & Ht & Hr & _)].
  - exfalso. rewrite Hr in H2. discriminate H2.
  - exists t. split; [exact Ht|]. rewrite H2 in Hr. change u32_MAX with 4294967295 in Hr. lia.
Defined.

Lemma run_loop_usage_witness :
  lr_usage demo_report = Usage_from_optional (Some 7) (Some 3) None ∧
  accumulate Usage_default (usages (lr_appended demo_report)) = Ok (lr_usage demo_report).
Proof.
  assert (lr_outcome demo_report = OutCompleted) as Ho by (vm_compute; reflexivity).
  split; [vm_compute; reflexivity|].
  destruct (run_loop_usage demo_id default_options demo_loop (demo_world []) demo_options demo_ready
    demo_report (given_world demo_run) demo_run_done) as [(f & fl & _ & _ & _ & Hr & _)|(path & _ & _ & Hu)].
  - exfalso. rewrite Hr in Ho. discriminate Ho.
  - exact (Hu Ho).
Defined.

Lemma run_loop_history_witness :
  lr_outcome demo_report = OutCompleted ∧ segments_ok demo_id default_options (lr_appended demo_report).
Proof.
  assert (lr_outcome demo_report = OutCompleted) as Ho by (vm_compute; reflexivity).
  split; [exact Ho|].
  destruct (run_loop_history demo_id default_options demo_loop (demo_world []) demo_options demo_ready
    demo_report (given_world demo_run) demo_run_done) as [(f & fl & _ & _ & _ & Hr & _)|(Hs & _)].
  - exfalso. rewrite Hr in Ho. discriminate Ho.
  - exact Hs.
Defined.

(** The demonstration's host does its part. It hands over an input before the first
    prompt, one while that is prepared, so that there is another, and one before the
    second request. *)
Definition demo_input (text : String.string) : UserInput := UserText (mkBoundedText (lit text)).
Definition demo_prompt : poll (result PromptError (list (ModelMessage (H := demo.json)))) :=
  PollReady (Ok [MsgUser (lit "go")]).
Definition demo_served : World (H := demo.json) :=
  set_prompt_polls [demo_prompt; PollPending; demo_prompt; demo_prompt]
    (set_host (demo_world []) [] [[demo_input "also"]; [demo_input "look"]; []; []; [demo_input "again"]] []).
Definition demo_script_end : Host (H := demo.json) := mkHost 5 false STATE_NONE INITIAL_REVISION [] [] [] [] [] [].
Definition demo_calls : list (ToolCall (H := demo.json)) :=
  [mkToolCall demo_call_id (mkToolName (lit "read")) (JObject []) 0].
Definition demo_responses : ModelResponse (H := demo.json) * ModelResponse (H := demo.json) :=
  (mkModelResponse (PartToolCall <$> demo_calls) FinishToolCalls (Some Usage_default) None,
   mkModelResponse [PartText (lit "done")] FinishStop (Some (Usage_from_optional (Some 7) (Some 3) None)) None).
Definition demo_result : ToolResultHistory :=
  mkToolResultHistory demo_id 0 demo_call_id (mkToolName (lit "read")) OutcomeSuccess (mkToolOutput (mkBoundedText (lit "out"))).
Local Notation demo_steering := (steering_items (H := demo.json) demo_id).
Definition demo_items : list (HistoryItem (H := demo.json)) :=
  demo_steering [demo_input "also"] ++ demo_steering [demo_input "look"] ++
  demo_steering [] ++ response_item demo_id (demo_config (Some 0)) 0 demo_responses.1 :: (HiToolResult <$> [demo_result]) ++
  demo_steering [demo_input "again"] ++ [response_item demo_id (demo_config (Some 0)) 1 demo_responses.2].

(** The host after the first prompt, the first response, and its tools. *)
Definition demo_steered : Host (H := demo.json) :=
  with_prompts (handed_over (handed_over (host_of demo_served))) [PollPending; demo_prompt; demo_prompt].
Definition demo_answered : Host (H := demo.json) :=
  after_model (with_prompts (handed_over (handed_over demo_steered)) [demo_prompt]) [(PollReady (Ok ()), false)] (drop 5 demo_stream).
Definition demo_tooled : Host (H := demo.json) := after_call demo_answered [] [].

(** One answered request: the provider is pending first, or not. *)
Ltac answered := eapply Answers;
  [first [apply ResolvesNow; reflexivity|apply ResolvesLater; [reflexivity|]; apply ResolvesNow; reflexivity]
  |intros Hnil; discriminate Hnil|reflexivity|reflexivity|apply ResolvesNow; reflexivity
  |repeat first [apply StreamEnd|apply StreamEvent]|apply (bool_decide_unpack _); vm_compute; exact I|reflexivity].

Lemma demo_script :
  script demo_id default_options (demo_config (Some 0)) 0 Usage_default (host_of demo_served) demo_items
    (Usage_from_optional (Some 7) (Some 3) None) 1 demo_script_end.
Proof.
  eapply (ScriptSteer demo_id default_options (demo_config (Some 0)) 0 _ (host_of demo_served));
    [by apply ResolvesNow|done|done|]. fold demo_steered.
  apply (ScriptTools demo_id default_options (demo_config (Some 0)) 0 _ demo_steered demo_responses.1 Usage_default
    demo_answered [demo_result] demo_tooled).
  - unfold demo_answered. answered.
  - discriminate.
  - eapply CallServed; [by eexists|by apply ResolvesNow|by apply ResolvesLater, ResolvesNow|reflexivity|apply CallsServed].
  - apply (ScriptStop demo_id default_options (demo_config (Some 0)) 1 _ demo_tooled demo_responses.2); [|reflexivity..].
    change demo_script_end with (after_model (with_prompts (handed_over (handed_over demo_tooled)) []) [] []). answered.
Qed.

Lemma run_loop_completes_witness :
  ∃ w', run_loop demo_id default_options demo_loop demo_served
    = Done (completed_report demo_id demo_loop demo_items (Usage_from_optional (Some 7) (Some 3) None) 1) w'.
Proof.
  destruct (run_loop_completes demo_id default_options demo_loop demo_served demo_items
    (Usage_from_optional (Some 7) (Some 3) None) 1 demo_script_end) as (w' & E & _).
  - split; reflexivity.
  - split; [apply demo_options|..]; try (vm_compute; discriminate).
  - split; [reflexivity|by right].
  - apply demo_script.
  - reflexivity.
  - left. reflexivity.
  - exists w'. exact E.
Defined.

(** What the loop emitted: 2 requests, one call with one progress report, the end. *)
Definition demo_events : list LoopEvent := emitted (w_sink_ops (given_world demo_run)).

Lemma event_stream_contract_witness :
  length demo_events = 15%nat ∧
  ∃ ob before, streamed demo_id (demo_world []) ob (given_world demo_run) ∧
    demo_events = before ++ [LeFinished demo_id SumCompleted].
Proof.
  split; [vm_compute; reflexivity|].
  assert (outcome_summary (lr_outcome demo_report) = SumCompleted) as Ho by (vm_compute; reflexivity).
  assert (unobserved demo_id (demo_world [])) as Hun by (split; reflexivity).
  assert (∃ ob, streamed demo_id (demo_world []) ob (given_world demo_run) ∧
    stream_ended demo_id default_options demo_loop (demo_world []) demo_report ob (given_world demo_run)) as (ob & Hs & Hend).
  { eapply (at_given demo_run demo_empty_report
      (λ report w', ∃ ob, streamed demo_id (demo_world []) ob w' ∧ stream_ended demo_id default_options demo_loop (demo_world []) report ob w') _ _ demo_run_is_done).
    apply (event_stream_contract demo_id default_options demo_loop (demo_world []) demo_options demo_ready Hun). }
  destruct Hend as [(before & Hb & _)|[(w1 & failed & _ & _ & _ & Hf & _) _]].
  - exists ob, before. split; [exact Hs|]. rewrite <- Ho. exact Hb.
  - exfalso. rewrite Hf in Ho. discriminate Ho.
Defined.

(** The default projection of a history, where it has one. *)
Definition projected (h : list (HistoryItem (H := demo.json))) : list (ModelMessage (H := demo.json)) :=
  match project_items h [] with Ok ms => ms | Err _ => [] end.
Definition user_fits (m : ModelMessage (H := demo.json)) : bool :=
  match m with MsgUser _ => is_ok (ModelMessage_validate m) | _ => true end.
Definition projects (h : list (HistoryItem (H := demo.json))) : bool :=
  match project_items h [] with Ok ms => forallb user_fits ms && negb (Nat.eqb (length ms) 0) | Err _ => false end.

Lemma projected_ok h : projects h = true →
  Forall2 (λ item m, project_item item = Ok m) h (projected h) ∧ Forall user_ok (projected h) ∧ projected h ≠ [].
Proof.
  unfold projects, projected. destruct (project_items h []) as [ms|] eqn:E; [|discriminate].
  intros [Hu Hn]%andb_true_iff. apply project_items_Ok in E as (ms' & -> & HF). split; [exact HF|]. split.
  - apply forallb_Forall in Hu. eapply Forall_impl; [exact Hu|]. intros m Hm. destruct m; try exact I.
    unfold user_ok, message_ok. cbn [user_fits] in Hm. destruct (ModelMessage_validate _) as [[]|]; [reflexivity|discriminate Hm].
  - intros Hn'. simpl in *. rewrite Hn' in Hn. discriminate Hn.
Qed.

Definition demo_messages : list (ModelMessage (H := demo.json)) := projected (lr_appended demo_report).
Lemma demo_messages_ok :
  Forall2 (λ item m, project_item item = Ok m) (lr_appended demo_report) demo_messages ∧
  Forall user_ok demo_messages ∧ demo_messages ≠ [].
Proof. apply projected_ok. vm_compute. reflexivity. Qed.

Lemma run_loop_history_reissues_witness :
  ∃ req, build_model_request demo_messages (demo_config None) = Ok req ∧ mr_messages req = demo_messages ∧
    mr_tools req = tset_specs (ec_tools (demo_config None)).
Proof.
  apply (run_loop_history_reissues demo_id default_options demo_loop (demo_world []) demo_options demo_ready
    demo_report (given_world demo_run) demo_messages demo_run_done);
    apply demo_messages_ok.
Defined.

(** ** Cancelled loops *)

(** The user cancels while the runner is still before its first step. *)
Definition demo_cancelled : World (H := demo.json) :=
  env_op (env_op (demo_world []) (EnvCancel SrcUser)) EnvFireToken.

Lemma demo_cancelled_ready : ready demo_loop demo_cancelled.
Proof. split; [by split|done|split; [constructor|done]|done|apply demo_config_ok]. Qed.

Lemma cancelled_loop_ends_witness :
  ∃ report w', run_loop demo_id default_options demo_loop demo_cancelled = Done report w' ∧
    lr_outcome report = OutCancelled ReasonUser.
Proof.
  destruct (cancelled_loop_ends demo_id default_options demo_loop demo_cancelled demo_cancelled_ready
    eq_refl ltac:(discriminate)) as (report & w' & E & _ & Ho & _).
  exists report, w'. split; [exact E|exact Ho].
Defined.

Lemma cancellation_is_authoritative_witness :
  match finish_loop demo_id FpCompleted (WorkingHistory_new []) Usage_default 0 None 0 demo_cancelled with
  | Done report w' => end_outcome demo_cancelled FpCompleted (lr_outcome report) ∧
      delivered demo_cancelled [] report w'
  | _ => False
  end.
Proof.
  apply (cancellation_is_authoritative demo_id FpCompleted (WorkingHistory_new []) Usage_default 0 None 0
    demo_cancelled). split; reflexivity.
Defined.

(** ** Loops that wait, and loops that must end *)

(** A host whose prompt provider never resolves. *)
Definition demo_stuck (env : list (list (EnvOp (H := demo.json)))) : World (H := demo.json) :=
  mkWorld 5 demo_control.1 demo_control.2 env [] [] [] [] [] [] [] [] [] 0 [] [].

Definition is_paused {A : Type} (r : outcome (H := demo.json) A) : bool :=
  match r with Paused _ => true | _ => false end.
Definition paused_world {A : Type} (r : outcome (H := demo.json) A) : World (H := demo.json) :=
  match r with Paused w => w | _ => demo_world [] end.
Lemma is_paused_eq {A : Type} (r : outcome (H := demo.json) A) :
  is_paused r = true → r = Paused (paused_world r).
Proof. by destruct r. Qed.
Local Notation demo_stuck_run := (run_loop demo_id default_options demo_loop (demo_stuck [])).

(** Another thread cancels while the loop waits. *)
Definition demo_rescue : World (H := demo.json) := demo_stuck [[]; [EnvCancel SrcUser]; [EnvFireToken]].

Lemma run_loop_returns_witness :
  (∃ report w', run_loop demo_id default_options demo_loop demo_rescue = Done report w') ∧
  resting default_options (paused_world demo_stuck_run).
Proof.
  assert (∀ env, Forall (Forall op_ok) env → ready demo_loop (demo_stuck env)) as Hready.
  { intros env Henv. split; [by split|done|by split|done|apply demo_config_ok]. }
  split.
  - apply (run_loop_returns demo_id default_options demo_loop demo_rescue demo_options); [apply Hready; repeat constructor|].
    right. right. left. left. apply list_elem_of_here.
  - apply (run_loop_returns demo_id default_options demo_loop (demo_stuck []) demo_options); [apply Hready; constructor|].
    apply is_paused_eq. vm_compute. reflexivity.
Defined.

(** ** Handles *)

Definition demo_others : list (list (HostOp (H := demo.json))) :=
  [[HoCtl (CoCancel SrcUser)]; []; [HoCtl (CoComplete demo_report); HoDropSender]; [HoTaskEnd (Some demo_report)]].
Definition demo_shared : Shared (H := demo.json) := mkShared demo_control.1 0 true None demo_others.

Lemma demo_unsent : unsent demo_shared.
Proof. split; reflexivity. Qed.

Lemma demo_task : task_of (demo_world []) (given_world demo_run) demo_report (concat (s_env demo_shared)).
Proof.
  destruct (run_loop_Done demo_id default_options demo_loop (demo_world []) demo_options demo_ready
    demo_report (given_world demo_run) demo_run_done) as (t & (_ & _ & _ & Ht) & Hu & _).
  split; [reflexivity| |reflexivity]. exists (t ++ [HcPublish demo_report]). split; [exact Ht|].
  unfold published. rewrite omap_app. change (omap _ t) with (published t).
  rewrite (unpublished_published t Hu). reflexivity.
Qed.

Lemma report_reaches_waiters_witness :
  (LoopHandle_wait demo_shared).2 = Some (Ok demo_report) ∧
  (AgentLoop_join AgentLoop_started None demo_shared).2 = Some (Some (Ok demo_report)).
Proof.
  apply (report_reaches_waiters demo_id default_options demo_loop (demo_world []) demo_report
    (given_world demo_run) demo_shared demo_options demo_ready demo_run_done demo_unsent eq_refl demo_task).
Defined.

(** The runner's task is aborted before it delivered. *)
Definition demo_aborted : Shared (H := demo.json) :=
  mkShared demo_control.1 0 true None [[]; [HoDropSender]; [HoTaskEnd None]].

Lemma handle_wait_delivers_witness : (LoopHandle_wait demo_aborted).2 = Some (Err CompletionClosed).
Proof.
  apply (handle_wait_delivers demo_aborted); [split; reflexivity|reflexivity].
Defined.

Lemma owner_call_ends_witness :
  owner_end (Some 1%nat) (Some (Some (Err TaskCancelled)))
    (AgentLoop_shutdown AgentLoop_started (Some 1%nat) demo_aborted).
Proof.
  apply (owner_call_ends demo_aborted (Some 1%nat)); [reflexivity|apply le_n].
Defined.

(** ** The start *)

Definition demo_start :=
  match AgentLoop_start true demo_loop default_options 0 [Some [1]] with
  | Some (Ok (_, control, sink)) => (control, sink)
  | _ => (demo_control.1, demo_control.2)
  end.
Definition demo_started : World (H := demo.json) :=
  mkWorld 5 demo_start.1 demo_start.2 [] [] [] [] [] [] [] [] [] [] 0 [] [].

Lemma agent_loop_start_ready_witness :
  AgentLoop_start true demo_loop default_options 0 [Some [1]] = Some (Ok (demo_id, demo_start.1, demo_start.2)) ∧
  ready demo_loop demo_started.
Proof.
  assert (AgentLoop_start true demo_loop default_options 0 [Some [1]]
    = Some (Ok (demo_id, demo_start.1, demo_start.2))) as E by reflexivity.
  split; [exact E|].
  apply (agent_loop_start_ready demo_id default_options true demo_loop 0 [Some [1]] demo_start.1 demo_start.2 E);
    [reflexivity|constructor|apply demo_config_ok].
Defined.

(** ** Calls into the host *)

Definition demo_model_request : ModelRequest (H := demo.json) :=
  mkModelRequest [MsgUser (lit "go")] [demo_spec] ModelLimits_default ReasonAuto.
Definition demo_no_response : result ModelDriverFailure (ModelResponse (H := demo.json)) :=
  Err (ModelDriverFailure_ordinary (generated_error KInternal NotStarted)).
Local Notation demo_call :=
  (run_model demo_id 0 default_options (demo_config None) demo_model_request (100 * NANOS) (demo_world [])).

Lemma model_call_contract_witness :
  model_end default_options [demo_spec] (100 * NANOS) (demo_world []) (given demo_call demo_no_response)
    (given_world demo_call).
Proof.
  assert (is_done demo_call = true) as Hd by (vm_compute; reflexivity).
  eapply (at_given demo_call demo_no_response
    (model_end default_options [demo_spec] (100 * NANOS) (demo_world [])) _ _ Hd).
  apply (model_call_contract demo_id 0 default_options (demo_config None) demo_model_request
    (100 * NANOS) (demo_world []) demo_options).
Defined.

Local Notation demo_batch :=
  (run_tool_batch demo_id default_options (WorkingHistory_new []) 0 (demo_config (Some 0)) demo_calls
    (demo_world [])).

Lemma tool_batch_contract_witness :
  batch_end_state demo_id default_options (demo_config (Some 0)) 0 demo_calls (WorkingHistory_new [])
    (demo_world []) (given demo_batch (WorkingHistory_new [], None)) (given_world demo_batch).
Proof.
  assert (is_done demo_batch = true) as Hd by (vm_compute; reflexivity).
  eapply (at_given demo_batch (WorkingHistory_new [], None)
    (batch_end_state demo_id default_options (demo_config (Some 0)) 0 demo_calls (WorkingHistory_new [])
      (demo_world [])) _ _ Hd).
  apply (tool_batch_contract demo_id default_options (demo_config (Some 0)) 0 demo_calls
    (WorkingHistory_new []) (demo_world [])); [constructor; [by eexists|constructor]|reflexivity].
Defined.

(** A policy that panics. *)
Definition demo_bad_policy : World (H := demo.json) :=
  mkWorld 5 demo_control.1 demo_control.2 [] [] [] [] [PollPanic] [] [] [] [] [] 0 [] [].
Definition demo_invocation : ToolInvocation (H := demo.json) :=
  mkToolInvocation demo_call_id (mkToolName (lit "read")) (JObject []).
Local Notation demo_verdict :=
  (run_port_call pop_policy (mret ()) (λ w, length (w_policy_polls w)) (HcPolicy demo_call_id)
    (5 + LOOP_HORIZON) (lo_policy_timeout default_options) demo_bad_policy).

Lemma policy_fails_closed_witness :
  ∃ result, run_tool_call demo_id default_options 0 demo_invocation (Some 0) demo_bad_policy
    = Done (StepResult result) (given_world demo_verdict) ∧ trh_outcome result = OutcomeDenied.
Proof.
  destruct (policy_fails_closed demo_id default_options 0 0 (5 + LOOP_HORIZON) demo_invocation
    demo_bad_policy demo_bad_policy (given_world demo_verdict) (given demo_verdict PcCancelled))
    as (result & E & Ho & _).
  - reflexivity.
  - apply (is_done_eq demo_verdict). vm_compute. reflexivity.
  - assert (match given demo_verdict PcCancelled with PcPanicked => true | _ => false end = true) as Hp
      by (vm_compute; reflexivity).
    destruct (given demo_verdict PcCancelled); try discriminate Hp. exact I.
  - exists result. split; [exact E|exact Ho].
Defined.

(** A call of each port, in the demonstration's world. *)
Definition port_turn : N := 5 + LOOP_HORIZON.
Local Notation demo_prompt_call :=
  (run_port_call pop_prompt (mret ()) (λ w, length (w_prompt_polls w)) (HcPrompt 0) port_turn 50 (demo_world [])).
Local Notation demo_policy_call :=
  (run_port_call pop_policy (mret ()) (λ w, length (w_policy_polls w)) (HcPolicy demo_call_id) port_turn 50 (demo_world [])).
Local Notation demo_tool_call :=
  (run_port_call (pop_tool demo_call_id) (forward_tool_progress demo_id 0;; mret ()) (λ w, length (w_tool_polls w))
    (HcTool demo_call_id) port_turn 50 (demo_world [])).

Lemma port_call_contract_witness :
  port_call_result (HcPrompt 0) port_turn 50 (demo_world []) (given demo_prompt_call PcCancelled) (given_world demo_prompt_call) ∧
  port_call_result (HcPolicy demo_call_id) port_turn 50 (demo_world []) (given demo_policy_call PcCancelled)
    (given_world demo_policy_call) ∧
  port_call_result (HcTool demo_call_id) port_turn 50 (demo_world []) (given demo_tool_call PcCancelled)
    (given_world demo_tool_call).
Proof.
  assert (is_done demo_prompt_call = true ∧ is_done demo_policy_call = true ∧ is_done demo_tool_call = true) as (H1 & H2 & H3)
    by (vm_compute; done).
  split; [|split].
  - eapply (at_given demo_prompt_call PcCancelled (λ r w', port_call_result _ _ _ _ r w' ∧ _ ≤ w_now w') _ _ H1).
    apply port_call_contract; [apply quietly_pop_prompt|apply quietly_ret].
  - eapply (at_given demo_policy_call PcCancelled (λ r w', port_call_result _ _ _ _ r w' ∧ _ ≤ w_now w') _ _ H2).
    apply port_call_contract; [apply quietly_pop_policy|apply quietly_ret].
  - eapply (at_given demo_tool_call PcCancelled (λ r w', port_call_result _ _ _ _ r w' ∧ _ ≤ w_now w') _ _ H3).
    apply port_call_contract; [apply quietly_atomically; intros w; apply pop_tool_quiet|].
    apply quietly_bind; [apply quietly_forward_tool_progress|intros; apply quietly_ret].
Defined.

(** ** A conversation *)

(** The provider of the example: one delta that echoes the question, and a stop. *)
Definition echo_world (reply : str) : World (H := demo.json) := {|
  w_now := 5; w_ctl := demo_control.1; w_sink := demo_control.2; w_env := [];
  w_prompt_polls := [PollReady (Ok [MsgUser (lit "q")])];
  w_start_polls := [(PollReady (Ok ()), false)];
  w_stream_polls := ((λ e, (PollReady (Some (Ok e)), false)) <$>
      [EvTextDelta (mkBoundedText reply); EvFinish FinishStop]) ++ [(PollReady None, false)];
  w_policy_polls := []; w_tool_polls := []; w_sync := []; w_inputs := []; w_entropy := [];
  w_tool_queue := []; w_tool_dropped := 0; w_trace := []; w_sink_ops := [];
|}.
Definition echo_turn (turn : N) (question reply : str) : str * Surroundings (H := demo.json) :=
  (question, mkSurroundings 5 [Some [turn + 1]] (echo_world reply) 2).
Definition demo_turns : list (str * Surroundings (H := demo.json)) :=
  [echo_turn 0 (lit "hello") (lit "[turn 0] you said: hello");
   echo_turn 1 (lit "what is the time") (lit "[turn 1] you said: what is the time")].
Definition demo_more : list (str * Surroundings (H := demo.json)) :=
  [echo_turn 2 (lit "goodbye") (lit "[turn 2] you said: goodbye")].
Definition demo_agent : MemoryAgent (H := demo.json) := MemoryAgent_new (demo_config None).
Definition demo_conversation : MemoryAgent (H := demo.json) := converse demo_agent (demo_turns ++ demo_more).

(** Each reply echoes its question, and the host's history then holds six items. *)
Definition replies (turn : str * Surroundings (H := demo.json)) (reply : str) : bool :=
  match (chat demo_agent turn.1 turn.2).2 with ChatReturned (Ok r) => bool_decide (r = reply) | _ => false end.
Example demo_replies :
  forallb (λ t, replies t (lit "[turn 0] you said: hello")) (take 1 demo_turns) &&
  Nat.eqb (length (ma_history demo_conversation)) 6 = true.
Proof. vm_compute. reflexivity. Qed.


Lemma conversation_reissues_witness :
  ma_history (converse demo_agent demo_turns) `prefix_of` ma_history (converse (converse demo_agent demo_turns) demo_more) ∧
  ∃ req, build_model_request (projected (ma_history (converse (converse demo_agent demo_turns) demo_more))) (demo_config None)
    = Ok req.
Proof.
  destruct (conversation_reissues (demo_config None) demo_turns demo_more
    (projected (ma_history (converse (converse demo_agent demo_turns) demo_more)))
    (demo_config_ok None)) as [Hp Hreq]; [repeat constructor..|].
  split; [exact Hp|].
  assert (projects (ma_history (converse (converse demo_agent demo_turns) demo_more)) = true) as Hok by (vm_compute; reflexivity).
  destruct (projected_ok _ Hok) as (HF & Hu & Hn).
  destruct (proj2 (Hreq HF Hn (demo_config None)) Hu) as (req & E & _). exists req. exact E.
Defined.
