(* ===== verification/DriverTests.v ===== *)
(** * The tests of the model driver

    src/src/model/driver/tests.rs and the tests of its directory, replayed: a scripted
    model is turned into the polls of a [World], the driver runs in it, and a test is
    the conjunction of its assertions, checked by computation. Where a test waits for
    its model to get somewhere before it cancels or lets time pass, the environment is
    idle for that many accesses ([after]). A run that is left waiting is the prefix a
    test looks at in between. What the driver sends to its progress channel is what
    the runner forwards at once, so the receiver's view is the emitted deltas. The
    probes of dropped streams, the channels of the tests that are full or closed, and
    the two calls that run at the same time have no counterpart. *)

From S2P Require Import Prelude Text Json Ids Limits ToolTypes ModelError Message Request Failure Assembler History Event Control Options World Steps Driver Echo.
Local Open Scope N_scope.

(** ** A reader for the JSON of the tests

    Objects, arrays, numbers, strings without escapes, null and white space. *)
Module reader.
Notation V := (@Value demo.number) (only parsing).

Definition is_digit (c : N) : bool := (48 <=? c) && (c <=? 57).
Fixpoint skip (s : str) : str :=
  match s with
  | c :: s' => if (c =? 32) || (c =? 10) then skip s' else s
  | [] => []
  end.
(** The characters up to the first that fails, and the rest. *)
Fixpoint span (p : N → bool) (s : str) : str * str :=
  match s with
  | c :: s' => if p c then let '(a, b) := span p s' in (c :: a, b) else ([], s)
  | [] => ([], [])
  end.
Definition decimal (s : str) : N := foldl (λ n c, 10 * n + (c - 48)) 0 s.
Definition text (s : str) : option (str * str) :=
  match span (λ c, negb (c =? 34)) s with
  | (t, _ :: rest) => Some (t, rest)
  | (_, []) => None
  end.
Definition expect (c : N) (s : str) : option str :=
  match skip s with d :: rest => if d =? c then Some rest else None | [] => None end.

Fixpoint value (fuel : nat) (s : str) : option (V * str) :=
  match fuel with
  | O => None
  | S fuel =>
      match skip s with
      | [] => None
      | c :: s =>
          if c =? 123 then
            match expect 125 s with
            | Some s => Some (JObject [], s)
            | None => '(kvs, s) ← members fuel s; Some (JObject kvs, s)
            end
          else if c =? 91 then
            match expect 93 s with
            | Some s => Some (JArray [], s)
            | None => '(vs, s) ← elements fuel s; Some (JArray vs, s)
            end
          else if c =? 34 then '(t, s) ← text s; Some (JString t, s)
          else if is_digit c then let '(digits, s) := span is_digit (c :: s) in Some (JNumber (@number_of_u64 demo.number (decimal digits)), s)
          else if bool_decide (take 4 (c :: s) = lit "null") then Some (JNull, drop 3 s)
          else None
      end
  end
with members (fuel : nat) (s : str) : option (list (str * V) * str) :=
  match fuel with
  | O => None
  | S fuel =>
      s ← expect 34 s;
      '(key, s) ← text s;
      s ← expect 58 s;
      '(v, s) ← value fuel s;
      match expect 44 s with
      | Some s => '(kvs, s) ← members fuel s; Some ((key, v) :: kvs, s)
      | None => s ← expect 125 s; Some ([(key, v)], s)
      end
  end
with elements (fuel : nat) (s : str) : option (list V * str) :=
  match fuel with
  | O => None
  | S fuel =>
      '(v, s) ← value fuel s;
      match expect 44 s with
      | Some s => '(vs, s) ← elements fuel s; Some (v :: vs, s)
      | None => s ← expect 93 s; Some ([v], s)
      end
  end.

Definition read (s : str) : option V :=
  '(v, rest) ← value (S (length s)) s;
  match skip rest with [] => Some v | _ => None end.

#[export] Instance json : SerdeJson := {
  sj_number := demo.number;
  to_writer_chunks v := [str_bytes (demo.render v)];
  to_string := demo.render;
  from_str := read;
}.

Example reads_what_it_renders :
  let v : V := JObject [(lit "a", JArray [JNull; JNumber (@number_of_u64 demo.number 10); JObject []]); (lit "b", JString (lit "x"))] in
  read (demo.render v) = Some v.
Proof. reflexivity. Qed.
End reader.

Section driver_tests.
#[local] Existing Instance reader.json.

(** ** tests.rs *)

Definition unwrap {E A : Type} (r : result E A) : option A := match r with Ok a => Some a | Err _ => None end.
Definition seconds (n : N) : N := n * NANOS.

Record ModelDriverConfig := mkModelDriverConfig {
  model_call_timeout : N;
  retry_policy : RetryPolicySnapshot;
  limits : LoopLimits;
}.
Definition ModelDriverConfig_default : ModelDriverConfig :=
  mkModelDriverConfig (seconds 60) (mkRetryPolicySnapshot 2 0) LoopLimits_default.
Definition with_retry (retry : RetryPolicySnapshot) : ModelDriverConfig :=
  mkModelDriverConfig (seconds 60) retry LoopLimits_default.
Definition with_limits (limits : LoopLimits) : ModelDriverConfig :=
  mkModelDriverConfig (seconds 60) (mkRetryPolicySnapshot 2 0) limits.

(** [format!("call_{value:032}")] *)
Definition call_id (value : N) : ToolCallId :=
  let digits := demo.digits 3 value in
  default (mkToolCallId [])
    (unwrap (ToolCallId_new (lit "call_" ++ replicate (32 - length digits) 48 ++ digits))).
Lemma call_ids_parse : forallb (λ n, negb (bool_decide (call_id (N.of_nat n) = mkToolCallId []))) (seq 0 40) = true.
Proof. vm_compute. reflexivity. Qed.

Definition tool_spec (name : str) : option ToolSpec :=
  name ← unwrap (ToolName_from_str name);
  unwrap (ToolSpec_new name (lit "tool") (JObject [(lit "type", JString (lit "object"))])).
Definition descriptor : option ModelDescriptor :=
  model ← unwrap (ModelRef_from_str (lit "host:driver"));
  unwrap (ModelDescriptor_new model 128 [ReasonAuto; ReasonDisabled; ReasonHigh] true).
Definition request_with (reasoning : ReasoningPreference) (tools : list str) (context_window : option N) :
    option ModelRequest :=
  message ← unwrap (ModelMessage_user (lit "request"));
  tools ← mapM tool_spec tools;
  limits ← unwrap (ModelLimits_new context_window (Some 32));
  unwrap (ModelRequest_new [message] tools limits reasoning).
Definition request : option ModelRequest := request_with ReasonHigh [] (Some 64).
Definition tool_request : option ModelRequest := request_with ReasonHigh [lit "search"] (Some 64).

(** An item of a stream; [None] when a test could not build it. *)
Definition Item : Type := option (result ModelError ModelEvent).
Definition delta (text : str) : Item := Ok <$> unwrap (ModelEvent_text_delta text).
Definition reasoning (text : str) : Item := Ok <$> unwrap (ModelEvent_reasoning_delta text).
Definition finish (reason : ModelFinishReason) : Item := Some (Ok (EvFinish reason)).
Definition start (id : ToolCallId) (name : str) : Item :=
  name ← unwrap (ToolName_from_str name); Some (Ok (EvToolCallStart id name)).
Definition args (id : ToolCallId) (value : str) : Item := Ok <$> unwrap (ModelEvent_tool_call_arguments_delta id value).
Definition ended (id : ToolCallId) : Item := Some (Ok (EvToolCallEnd id)).
Definition text_success (value : str) : list Item := [delta value; finish FinishStop].

Definition diagnostic (code : DiagnosticCode) (message : str) (retryable : bool) : DiagnosticSummary :=
  default (mkDiagnosticSummary code CatModel (mkBoundedText []) retryable)
    (message ← unwrap (BoundedText_new message);
     unwrap (DiagnosticSummary_new code CatModel message retryable)).
Definition retryable_error (retry_after : option N) : ModelError :=
  ModelError_not_started KProviderUnavailable retry_after
    (diagnostic CodeModelUnavailable (lit "provider unavailable") true).
Definition test_error (kind : ModelErrorKind) : ModelError :=
  ModelError_permanent kind NotStarted (diagnostic CodeInternal (lit "test model error") false).

(** ** The scripted model *)

Inductive StreamTerminal := TerminalEof | TerminalPending | TerminalPanic.
Inductive Behavior :=
| Events (events : list Item)
| StartError (error : ModelError)
| StartPanic
| FuturePanic
| PendingStart
| ProbedStream (events : list Item) (terminal : StreamTerminal).

Definition Poll : Type := model_poll (option (result ModelError ModelEvent)).
(** What the polls of a stream find. The driver stops at an error. *)
Fixpoint polls_of (events : list Item) (terminal : StreamTerminal) : option (list Poll) :=
  match events with
  | [] =>
      Some match terminal with
           | TerminalEof => [(PollReady None, false)]
           | TerminalPending => []
           | TerminalPanic => [(PollPanic, false)]
           end
  | item :: events =>
      item ← item;
      match item with
      | Err _ => Some [(PollReady (Some item), false)]
      | Ok _ => rest ← polls_of events terminal; Some ((PollReady (Some item), false) :: rest)
      end
  end.

(** The calls to [start]: whether each panics and, unless it does, whether what it
    made panics when it goes away, which the model's never does; the polls of its
    future and those of its stream. Behind a future or a stream that is pending for good nothing starts;
    a model out of behaviors has its default one once. *)
Record Script := mkScript {
  sc_panics : list bool;
  sc_starts : list (model_poll (result ModelError ()));
  sc_streams : list Poll;
}.
Definition called (rest : Script) : list bool := false :: false :: sc_panics rest.
Definition started (polls : list Poll) (rest : Script) : Script :=
  mkScript (called rest) ((PollReady (Ok ()), false) :: sc_starts rest) (polls ++ sc_streams rest).
Fixpoint script (behaviors : list Behavior) : option Script :=
  match behaviors with
  | [] => polls ← polls_of (text_success (lit "default")) TerminalEof; Some (started polls (mkScript [] [] []))
  | PendingStart :: _ => Some (mkScript [] [] [])
  | ProbedStream events TerminalPending :: _ =>
      polls ← polls_of events TerminalPending; Some (started polls (mkScript [] [] []))
  | behavior :: behaviors =>
      rest ← script behaviors;
      match behavior with
      | Events events => polls ← polls_of events TerminalEof; Some (started polls rest)
      | ProbedStream events terminal => polls ← polls_of events terminal; Some (started polls rest)
      | StartError error =>
          Some (mkScript (called rest) ((PollReady (Err error), false) :: sc_starts rest) (sc_streams rest))
      | StartPanic => Some (mkScript (true :: sc_panics rest) (sc_starts rest) (sc_streams rest))
      | FuturePanic => Some (mkScript (called rest) ((PollPanic, false) :: sc_starts rest) (sc_streams rest))
      | PendingStart => Some rest
      end
  end.

(** ** A run *)

Definition clock : N := seconds 1000.
Definition loop_id : option LoopId := unwrap (LoopId_from_str (lit "lup_00000000000000000000000000000041")).

Definition test_world (env : list (list EnvOp)) (s : Script) : option World :=
  id ← loop_id;
  '(control, sink) ← unwrap (LoopControl_new id 16 LoopLimits_default);
  Some (mkWorld clock control sink env [] (sc_starts s) (sc_streams s) [] [] (sc_panics s) [] [] [] 0 [] []).

(** What a test can see: the result ([None]: the run is pending), the calls to
    [start], the progress, and whether the tokens are cancelled: the parent, and one
    child per attempt. *)
Record Run := mkRun {
  run_result : option (result ModelDriverFailure ModelResponse);
  run_starts : nat;
  run_progress : list ModelDriverProgress;
  run_parent_cancelled : bool;
  run_children_cancelled : nat;
}.
Definition progress_of (op : SinkOp) : option ModelDriverProgress :=
  match op with
  | OpEmit (LeOutputDelta _ _ ChText delta) => Some (ProgressText delta)
  | OpEmit (LeOutputDelta _ _ ChReasoning delta) => Some (ProgressReasoning delta)
  | _ => None
  end.
Definition count_calls (p : HostCall → bool) (w : World) : nat := length (List.filter p (w_trace w)).
Definition observe (result : option (result ModelDriverFailure ModelResponse)) (w : World) : Run :=
  mkRun result
    (count_calls (λ c, match c with HcStart _ => true | _ => false end) w)
    (omap progress_of (w_sink_ops w)) (c_cancel (w_ctl w))
    (count_calls (λ c, match c with HcChildCancelled => true | _ => false end) w).

Definition driver (descriptor : ModelDescriptor) (kernel : ModelDriverConfig) : ModelDriver :=
  mkModelDriver descriptor (model_call_timeout kernel) (retry_policy kernel) (limits kernel).
Definition run_model_driver (d : ModelDriver) (request : ModelRequest) (deadline : N) (w : World) : option Run :=
  id ← loop_id;
  match run_detailed id 0 d request deadline (mkProgressChannel [] 0) w with
  | Done (r, _) w => Some (observe (Some r) w)
  | Paused w => Some (observe None w)
  | _ => None
  end.
Definition run_in (env : list (list EnvOp)) (kernel : ModelDriverConfig) (request : option ModelRequest)
    (deadline_after : N) (behaviors : list Behavior) : option Run :=
  d ← descriptor; r ← request; s ← script behaviors; w ← test_world env s;
  run_model_driver (driver d kernel) r (clock + deadline_after) w.
(** Nobody interferes. *)
Definition run (kernel : ModelDriverConfig) (request : option ModelRequest) (behaviors : list Behavior) : option Run :=
  run_in [] kernel request (seconds 30) behaviors.
Definition run_events (request : option ModelRequest) (events : list Item) (kernel : ModelDriverConfig) : option Run :=
  run kernel request [Events events].

(** The environment is idle for some accesses, and then acts. *)
Definition after (accesses : nat) (ops : list EnvOp) : list (list EnvOp) := replicate accesses [] ++ [ops].
Definition cancels : list EnvOp := [EnvCancel SrcUser; EnvFireToken].
Definition advance (n : N) : list EnvOp := [EnvTime (seconds n)].

(** ** Assertions *)

Definition holds (o : option bool) : bool := default false o.
Definition same {A : Type} `{EqDecision A} (actual expected : A) : bool := bool_decide (actual = expected).
Definition on_response (p : ModelResponse → bool) (r : option Run) : bool :=
  match r ≫= run_result with Some (Ok response) => p response | _ => false end.
Definition on_error (p : ModelError → bool) (r : option Run) : bool :=
  match r ≫= run_result with Some (Err failure) => p (mdf_error failure) | _ => false end.
Definition fails (kind : ModelErrorKind) : option Run → bool := on_error (λ e, same (me_kind e) kind).
Definition delivered (delivery : DeliveryState) : option Run → bool := on_error (λ e, same (me_delivery e) delivery).
Definition final : option Run → bool := on_error (λ e, same (me_retry_hint e) RetryNever).
Definition sourced (source : option DeadlineSource) (r : option Run) : bool :=
  match r ≫= run_result with
  | Some (Err failure) => same (mdf_deadline_source failure) source
  | _ => false
  end.
Definition starts (n : nat) (r : option Run) : bool := match r with Some r => same (run_starts r) n | None => false end.
Definition pending (r : option Run) : bool :=
  match r with Some r => match run_result r with None => true | Some _ => false end | None => false end.
Definition assert_text (expected : str) : option Run → bool :=
  on_response (λ r, match resp_parts r with [PartText text] => same text expected | _ => false end).
#[local] Instance ModelDriverProgress_eq_dec : EqDecision ModelDriverProgress.
Proof. solve_decision. Defined.
Definition progresses (expected : list ModelDriverProgress) (r : option Run) : bool :=
  match r with Some r => same (run_progress r) expected | None => false end.
Definition text_progress (t : str) : ModelDriverProgress := ProgressText (mkBoundedText t).
Definition reasoning_progress (t : str) : ModelDriverProgress := ProgressReasoning (mkBoundedText t).
Definition all_of (tests : list (option Run → bool)) (r : option Run) : bool := forallb (λ p, p r) tests.

(** ** semantics.rs *)

Definition once : ModelDriverConfig := with_retry (mkRetryPolicySnapshot 1 0).
(** The parts of a response that are tool calls as expected, in order. *)
Definition tool_call (part : AssistantPart) (id : ToolCallId) (index : N) (arguments : str) : bool :=
  match part with
  | PartToolCall call =>
      same (tc_tool_call_id call) id && (tc_call_index call =? index) && same (Some (tc_arguments call)) (from_str arguments)
  | _ => false
  end.
Definition parts_are (tests : list (AssistantPart → bool)) : option Run → bool :=
  on_response (λ r, same (length (resp_parts r)) (length tests)
    && forallb (λ x, x.1 x.2) (zip tests (resp_parts r))).
Definition text_part (expected : str) (part : AssistantPart) : bool :=
  match part with PartText text => same text expected | _ => false end.
Definition reasoning_part (expected : str) (part : AssistantPart) : bool :=
  match part with PartReasoning r => same (rc_text r) (Some expected) | _ => false end.
Definition finished_with (reason : ModelFinishReason) : option Run → bool :=
  on_response (λ r, same (resp_finish_reason r) reason).

Definition complete_tool_response_accepts_unknown_finish_reason : bool :=
  let id := call_id 20 in
  let query := demo.render (JObject [(lit "query", JString (lit "rust"))]) in
  all_of [finished_with FinishUnknown; parts_are [λ part, tool_call part id 0 query]]
    (run_events tool_request
       [start id (lit "search"); args id query; ended id; finish FinishUnknown] once).

Definition two_tools : option ModelRequest := request_with ReasonHigh [lit "lookup"; lit "search"] (Some 64).

Definition interleaved_open_tools_allow_out_of_order_matching_ends : bool :=
  let '(first, second) := (call_id 21, call_id 22) in
  let arguments name n := demo.render (JObject [(name, JNumber n)]) in
  parts_are [λ part, tool_call part first 0 (arguments (lit "first") 1);
             λ part, tool_call part second 1 (arguments (lit "second") 2)]
    (run_events two_tools
       [start first (lit "search"); start second (lit "lookup");
        args first (take 9 (arguments (lit "first") 1)); args second (take 10 (arguments (lit "second") 2));
        args first (drop 9 (arguments (lit "first") 1)); args second (drop 10 (arguments (lit "second") 2));
        ended second; ended first; finish FinishToolCalls] once).

Definition one_tool_call : LoopLimits :=
  mkLoopLimits (max_user_input_bytes LoopLimits_default) (max_model_text_bytes LoopLimits_default)
    (max_model_reasoning_bytes LoopLimits_default) 1 (max_tool_name_bytes LoopLimits_default)
    (max_tool_schema_bytes LoopLimits_default) (max_tool_arguments_bytes LoopLimits_default)
    (max_tool_output_bytes LoopLimits_default).
(** A whole call and the start of a second one. *)
Definition second_call (first second : ToolCallId) (name : str) : list Item :=
  [start first name; args first (lit "{}"); ended first; start second (lit "search")].

Definition eof_with_open_tool_and_provider_tool_count_overflow_are_rejected : bool :=
  let open := call_id 23 in
  all_of [fails KIncompleteResponse; delivered Started]
    (run_events tool_request [start open (lit "search"); args open (lit "{}")] once)
  && all_of [fails KInvalidProviderResponse; delivered Started]
       (run_events tool_request (second_call (call_id 24) (call_id 25) (lit "search")) (with_limits one_tool_call)).

Definition repeated_text_and_reasoning_aggregate_in_first_occurrence_order : bool :=
  let id := call_id 26 in
  parts_are [text_part (lit "answer-continued"); λ part, tool_call part id 0 (lit "{}");
             reasoning_part (lit "reason-continued")]
    (run_events tool_request
       [delta (lit "answer-"); start id (lit "search"); reasoning (lit "reason-"); delta (lit "continued");
        args id (lit "{}"); reasoning (lit "continued"); ended id; finish FinishToolCalls] once).

Definition refused_and_filtered_require_nonempty_text_not_reasoning_only : bool :=
  forallb (λ reason,
    all_of [finished_with reason; assert_text (lit "provider message")]
      (run_events request [delta (lit "provider message"); finish reason] once)
    && all_of [fails KInvalidProviderResponse; delivered Started]
         (run_events request [reasoning (lit "internal reason"); finish reason] once))
    [FinishRefused; FinishContentFiltered].

Definition multiple_tool_specs_allow_text_response_when_limit_is_one : bool :=
  all_of [assert_text (lit "done"); starts 1]
    (run (with_limits one_tool_call) two_tools [Events (text_success (lit "done"))]).

Definition multiple_tool_specs_allow_single_tool_call_when_limit_is_one : bool :=
  let id := call_id 30 in
  let query := demo.render (JObject [(lit "query", JString (lit "rust"))]) in
  all_of [finished_with FinishToolCalls; parts_are [λ part, tool_call part id 0 query]]
    (run_events two_tools
       [start id (lit "lookup"); args id query; ended id; finish FinishToolCalls] (with_limits one_tool_call)).

Definition multiple_tool_specs_reject_second_tool_call_when_limit_is_one : bool :=
  all_of [fails KInvalidProviderResponse; delivered Started]
    (run_events two_tools (second_call (call_id 31) (call_id 32) (lit "lookup")) (with_limits one_tool_call)).

Lemma semantics_tests_pass :
  complete_tool_response_accepts_unknown_finish_reason
  && interleaved_open_tools_allow_out_of_order_matching_ends
  && eof_with_open_tool_and_provider_tool_count_overflow_are_rejected
  && repeated_text_and_reasoning_aggregate_in_first_occurrence_order
  && refused_and_filtered_require_nonempty_text_not_reasoning_only
  && multiple_tool_specs_allow_text_response_when_limit_is_one
  && multiple_tool_specs_allow_single_tool_call_when_limit_is_one
  && multiple_tool_specs_reject_second_tool_call_when_limit_is_one = true.
Proof. vm_compute. reflexivity. Qed.

(** ** assembly.rs *)

Definition eof_delivery_depends_on_whether_an_event_was_observed : bool :=
  forallb (λ c, all_of [fails KIncompleteResponse; delivered c.2; final; starts 1]
                  (run ModelDriverConfig_default request [Events c.1]))
    [([], DeliveryUnknown); ([delta (lit "partial")], Started)].

(** Pushes the events of a chunk: the assembler, and what was forwarded per channel. *)
Fixpoint push_chunk (a : Assembler) (text reasoning : str) (events : list ModelEvent) :
    option (Assembler * str * str) :=
  match events with
  | [] => Some (a, text, reasoning)
  | event :: events =>
      match push a event with
      | Some (a, Ok (Some (ProgressText d))) =>
          if BoundedText_is_empty d then None else push_chunk a (text ++ as_str d) reasoning events
      | Some (a, Ok (Some (ProgressReasoning d))) =>
          if BoundedText_is_empty d then None else push_chunk a text (reasoning ++ as_str d) events
      | Some (a, Ok None) => push_chunk a text reasoning events
      | _ => None
      end
  end.
Definition both_deltas (direct : bool) (chunk : str) : option (list ModelEvent) :=
  if direct then d ← unwrap (BoundedText_new chunk); Some [EvTextDelta d; EvReasoningDelta d]
  else t ← unwrap (ModelEvent_text_delta chunk); r ← unwrap (ModelEvent_reasoning_delta chunk); Some [t; r].

Definition crlf_raw : str := [0xE9; 13; 10] ++ lit "A" ++ [13] ++ lit "B" ++ [13; 13; 10; 9] ++ lit "end" ++ [13].
Definition crlf_expected : str := [0xE9; 10] ++ lit "A" ++ [10] ++ lit "B" ++ [10; 10; 9] ++ lit "end" ++ [10].
Definition split_at (split : nat) (direct : bool) : option bool :=
  before ← both_deltas direct (take split crlf_raw);
  empty ← both_deltas direct [];
  rest ← both_deltas direct (drop split crlf_raw);
  '(a, text, reasoning) ← push_chunk (Assembler_new [] LoopLimits_default) [] [] before;
  let early := same text (cow_str (normalize_model_text (take split crlf_raw))) && same reasoning text in
  '(a, text, reasoning) ← push_chunk a text reasoning (empty ++ rest);
  '(a, _) ← push a (EvFinish FinishStop);
  r ← Assembler.finish a;
  r ← unwrap r;
  Some (early && same text crlf_expected && same reasoning crlf_expected
    && match resp_parts r with
       | [PartText text; PartReasoning reasoning] =>
           same text crlf_expected && same (rc_text reasoning) (Some crlf_expected)
       | _ => false
       end).
Definition split_crlf_matches_whole_text_in_each_channel_and_progress : bool :=
  same (cow_str (normalize_model_text crlf_raw)) crlf_expected
  && forallb (λ split, holds (split_at split false) && holds (split_at split true)) (seq 0 (S (length crlf_raw))).

(** A raw text, what it is normalised to and whether an event may hold it. *)
Definition size_cases : list (str * str * bool) :=
  let limit := N.to_nat MAX_MODEL_EVENT_TEXT_BYTES in
  let half := N.to_nat (MAX_MODEL_EVENT_TEXT_BYTES / 2) in
  let crlf n := concat (replicate n [13; 10]) in
  [(replicate limit 0, replicate limit 32, true);
   (replicate limit 27, replicate limit 32, true);
   (replicate half 0x85, replicate half 32, true);
   (crlf half, replicate half 10, true);
   (replicate limit 97, replicate limit 97, true);
   (replicate (S limit) 0, replicate (S limit) 32, false);
   (crlf (S half), replicate (S half) 10, false);
   (replicate (S limit) 97, replicate (S limit) 97, false)].
Definition size_case (reasoning : bool) (c : str * str * bool) : option bool :=
  let '(raw, normalized, accepted) := c in
  delta ← unwrap (BoundedText_new raw);
  let direct := if reasoning then EvReasoningDelta delta else EvTextDelta delta in
  let constructed := if reasoning then ModelEvent_reasoning_delta raw else ModelEvent_text_delta raw in
  let result item := run_events request [item; finish FinishStop] ModelDriverConfig_default in
  let direct_result := result (Some (Ok direct)) in
  Some (same (is_ok constructed) accepted && same (is_ok (ModelEvent_validate direct)) accepted
    && if accepted then
         (* both, compared in the test, are compared with the expected text here *)
         let text := parts_are [if reasoning then reasoning_part normalized else text_part normalized] in
         text direct_result && text (result (Ok <$> unwrap constructed))
       else fails KInvalidProviderResponse direct_result).
Definition direct_and_constructed_deltas_enforce_normalized_byte_limits : bool :=
  forallb (λ c, holds (size_case false c) && holds (size_case true c)) size_cases.

Definition model_text_is_normalized_and_empty_deltas_do_not_emit_progress : bool :=
  let id := call_id 1 in
  let direct raw : option BoundedText := unwrap (BoundedText_new raw) in
  let text := lit "a" ++ [10] ++ lit "b" ++ [10] ++ lit "c  " ++ [9] in
  let reason := lit "r" ++ [10] ++ lit " " in
  let arguments sep := lit "{" ++ [13; 10] ++ demo.quote (lit "q") ++ lit ":" ++ demo.quote (lit "a" ++ sep ++ lit "b") ++ lit "}" in
  let r := run ModelDriverConfig_default tool_request
    [Events
       [delta []; reasoning [];
        (λ d, Ok (EvTextDelta d)) <$> direct (lit "a" ++ [13; 10] ++ lit "b" ++ [13] ++ lit "c" ++ [0; 27; 9]);
        reasoning (lit "r" ++ [13; 10; 127]);
        start id (lit "search"); args id [];
        (λ d, Ok (EvToolCallArgumentsDelta id d)) <$> direct (arguments [27]);
        ended id; finish FinishToolCalls]] in
  all_of [parts_are [text_part text; reasoning_part reason;
                     λ part, tool_call part id 0 (demo.render (JObject [(lit "q", JString (lit "a b"))]))];
          progresses [text_progress text; reasoning_progress reason];
          λ r, match r with Some r => negb (run_parent_cancelled r) | None => false end] r.

Definition assembles_text_reasoning_tool_usage_and_preserves_first_slot_order : bool :=
  let id := call_id 1 in
  let q := demo.render (JObject [(lit "q", JString (lit "rust"))]) in
  all_of [finished_with FinishToolCalls;
          on_response (λ r, same (resp_usage r) (Some (Usage_new 7 5 3)));
          parts_are [reasoning_part (lit "reason"); λ part, tool_call part id 0 q
                       && match part with PartToolCall call => same (tool_name_str (tc_name call)) (lit "search") | _ => false end;
                     text_part (lit "answer")];
          progresses [reasoning_progress (lit "reason"); text_progress (lit "answer")]]
    (run once tool_request
       [Events
          [reasoning (lit "reason"); start id (lit "search"); delta (lit "answer"); args id (take 5 q); args id (drop 5 q);
           ended id; Some (Ok (EvUsage (Usage_new 7 5 3))); finish FinishToolCalls]]).

Definition absent_usage_defaults_and_refusal_requires_text : bool :=
  on_response (λ r, same (resp_usage r) (Some Usage_default)) (run_events request (text_success (lit "ok")) once)
  && fails KInvalidProviderResponse (run_events request [finish FinishRefused] once).

Definition tool_call_indices_follow_start_order_not_request_order : bool :=
  let named name part := match part with PartToolCall call => same (tool_name_str (tc_name call)) name | _ => false end in
  parts_are [λ part, named (lit "search") part && tool_call part (call_id 6) 0 (lit "{}");
             λ part, named (lit "lookup") part && tool_call part (call_id 7) 1 (lit "{}")]
    (run_events two_tools
       [start (call_id 6) (lit "search"); args (call_id 6) (lit "{}"); ended (call_id 6);
        start (call_id 7) (lit "lookup"); args (call_id 7) (lit "{}"); ended (call_id 7); finish FinishToolCalls] once).

(** The cases of the table. *)
Definition malformed : list (option ModelRequest * list Item * ModelErrorKind) :=
  let '(id, other) := (call_id 2, call_id 3) in
  let usage : Item := Some (Ok (EvUsage Usage_default)) in
  let call := [start id (lit "search"); args id (lit "{}"); ended id] in
  [(tool_request, [args id (lit "{}")], KInvalidProviderResponse);
   (tool_request, [ended id], KInvalidProviderResponse);
   (tool_request, [start id (lit "search"); start id (lit "search")], KInvalidProviderResponse);
   (tool_request, [start id (lit "search"); ended other], KInvalidProviderResponse);
   (tool_request, call ++ [args id (lit "{}")], KInvalidProviderResponse);
   (tool_request, call ++ [ended id], KInvalidProviderResponse);
   (tool_request, [start id (lit "search"); finish FinishToolCalls], KInvalidProviderResponse);
   (request, [usage; usage], KInvalidProviderResponse);
   (request, [delta (lit "x"); finish FinishStop; finish FinishStop], KInvalidProviderResponse);
   (request, [delta (lit "x"); finish FinishStop; usage], KInvalidProviderResponse);
   (request, [delta (lit "x")], KIncompleteResponse);
   (request, [finish FinishStop], KInvalidProviderResponse);
   (tool_request, [start id (lit "other")], KUnexpectedToolCall);
   (tool_request, [start id (lit "search"); args id (lit "{"); ended id], KInvalidProviderResponse);
   (tool_request, [start id (lit "search"); ended id], KInvalidProviderResponse);
   (tool_request, [start id (lit "search"); args id (lit "[]"); ended id], KInvalidProviderResponse);
   (request, [delta (lit "x"); finish FinishToolCalls], KInvalidProviderResponse);
   (tool_request, call ++ [finish FinishStop], KInvalidProviderResponse)].
Definition rejects_every_malformed_stream_sequence : bool :=
  forallb (λ c, all_of [fails c.2; delivered Started] (run_events c.1.1 c.1.2 once)) malformed.

Definition tool_arguments_use_centralized_json_depth_and_node_validation : bool :=
  let depth := S (N.to_nat MAX_JSON_DEPTH) in
  let nested := concat (replicate depth (lit "{" ++ demo.quote (lit "x") ++ lit ":")) ++ lit "{}" ++ replicate depth 125 in
  let many_nodes := demo.render (JObject [(lit "items", JArray (replicate (N.to_nat MAX_JSON_NODES) JNull))]) in
  let id := call_id 5 in
  forallb (λ arguments,
    fails KInvalidProviderResponse
      (run_events tool_request [start id (lit "search"); args id arguments; ended id] once))
    [nested; many_nodes].

Definition small_limits : ModelDriverConfig :=
  with_limits (mkLoopLimits (max_user_input_bytes LoopLimits_default) 3 3
    (max_tool_calls_per_response LoopLimits_default) (max_tool_name_bytes LoopLimits_default)
    (max_tool_schema_bytes LoopLimits_default) 7 (max_tool_output_bytes LoopLimits_default)).
Definition aggregate_text_reasoning_and_arguments_enforce_exact_semantic_boundaries : bool :=
  let ends item := run_events request [item; finish FinishStop] small_limits in
  let calls n := run_events tool_request
    [start (call_id 4) (lit "search"); args (call_id 4) (demo.render (JObject [(lit "a", JNumber n)])); ended (call_id 4);
     finish FinishToolCalls] small_limits in
  let succeeds := on_response (λ _, true) in
  succeeds (ends (delta (lit "abc"))) && fails KInvalidProviderResponse (ends (delta (lit "abcd")))
  && succeeds (ends (reasoning (lit "abc"))) && fails KInvalidProviderResponse (ends (reasoning (lit "abcd")))
  && succeeds (calls 1) && fails KInvalidProviderResponse (calls 10).

Definition opaque : Value := JObject [(lit "opaque", JString (lit "secret"))].
Definition replay_event : Item := (λ replay, Ok (EvProviderReplay replay)) <$> unwrap (ProviderReplay_new (lit "test/v1") opaque).
Definition replay_is_retained_once_never_forwarded_and_requires_finish : bool :=
  forallb (λ with_text : bool,
    all_of [on_response (λ r, same (pr_payload <$> resp_provider_replay r) (Some opaque));
            progresses (if with_text then [text_progress (lit "answer")] else [])]
      (run once request
         [Events ([replay_event] ++ (if with_text then [delta (lit "answer")] else []) ++ [finish FinishStop])]))
    [false; true]
  && forallb (λ c, fails c.2 (run_events request c.1 once))
       [([replay_event], KIncompleteResponse);
        ([replay_event; replay_event; finish FinishStop], KInvalidProviderResponse);
        ([delta (lit "ok"); finish FinishStop; replay_event], KInvalidProviderResponse)].

Lemma assembly_tests_pass :
  eof_delivery_depends_on_whether_an_event_was_observed
  && split_crlf_matches_whole_text_in_each_channel_and_progress
  && direct_and_constructed_deltas_enforce_normalized_byte_limits
  && model_text_is_normalized_and_empty_deltas_do_not_emit_progress
  && assembles_text_reasoning_tool_usage_and_preserves_first_slot_order
  && absent_usage_defaults_and_refusal_requires_text
  && tool_call_indices_follow_start_order_not_request_order
  && rejects_every_malformed_stream_sequence
  && tool_arguments_use_centralized_json_depth_and_node_validation
  && aggregate_text_reasoning_and_arguments_enforce_exact_semantic_boundaries
  && replay_is_retained_once_never_forwarded_and_requires_finish = true.
Proof. vm_compute. reflexivity. Qed.

(** ** retry.rs *)

(** Enough idle accesses for the driver to reach its next wait, and the moments of
    such a wait at which a test may act. *)
Definition settled : nat := 30.
Definition moments : list nat := seq settled 4.
(** The sleep of a retry looks at the clock twice in a poll, for the deadline and for
    its end. The paused clock of a test moves between polls only. *)
Definition between_polls : list nat := [settled + 2; settled + 5; settled + 8]%nat.

Definition retry_script : list Behavior :=
  [StartError (retryable_error None); StartError (retryable_error (Some (seconds 5))); Events (text_success (lit "done"))].
Definition not_started_errors_retry_with_exact_attempts_and_delays : bool :=
  let go env := run_in env (with_retry (mkRetryPolicySnapshot 3 (seconds 2))) request (seconds 30) retry_script in
  forallb (λ n,
    let first := after n (advance 1) in
    let second := first ++ after n (advance 1) in
    let third := second ++ after n (advance 4) in
    all_of [pending; starts 1] (go first) && all_of [pending; starts 2] (go second)
    && all_of [pending; starts 2] (go third)
    && all_of [assert_text (lit "done"); starts 3] (go (third ++ after n (advance 1)))) moments.

Definition excessive_retry_after_started_unknown_and_nonretryable_do_not_retry : bool :=
  let diag := diagnostic CodeModelUnavailable (lit "test model error") false in
  forallb (λ error,
    all_of [fails (me_kind error); starts 1]
      (run (with_retry (mkRetryPolicySnapshot 4 0)) request [StartError error; Events (text_success (lit "unexpected"))]))
    [ModelError_not_started KProviderUnavailable (Some (seconds 31)) diag;
     ModelError_started KProviderUnavailable diag;
     ModelError_unknown KProviderUnavailable diag;
     ModelError_permanent KAuthRejected NotStarted diag].

Definition semantic_event_blocks_retry_and_normalizes_lying_not_started_error : bool :=
  all_of [progresses [text_progress (lit "partial")]; fails KProviderUnavailable; delivered Started; final; starts 1]
    (run (with_retry (mkRetryPolicySnapshot 4 0)) request
       [Events [delta (lit "partial"); Some (Err (retryable_error None))]; Events (text_success (lit "unexpected"))]).

Definition no_event_stream_error_can_retry_but_retry_must_fit_overall_deadline : bool :=
  all_of [assert_text (lit "retried"); starts 2]
    (run (with_retry (mkRetryPolicySnapshot 2 0)) request
       [Events [Some (Err (retryable_error None))]; Events (text_success (lit "retried"))])
  && all_of [fails KProviderUnavailable; starts 1]
       (run_in [] (with_retry (mkRetryPolicySnapshot 2 (seconds 10))) request (seconds 5)
          [StartError (retryable_error None); Events (text_success (lit "unexpected"))]).

Definition retryable_event_free_stream_is_dropped_before_next_attempt_starts : bool :=
  all_of [assert_text (lit "retried"); starts 2]
    (run (with_retry (mkRetryPolicySnapshot 2 0)) request
       [ProbedStream [Some (Err (retryable_error None))] TerminalEof; Events (text_success (lit "retried"))]).

(** The error of the first attempt comes back as it was. *)
Definition unretried : option Run → bool :=
  all_of [on_error (λ e, same e (retryable_error None)); delivered NotStarted; starts 1].
Definition failing_once : list Behavior := [StartError (retryable_error None); Events (text_success (lit "unexpected"))].
Definition overall_deadline_can_expire_during_retry_sleep : bool :=
  forallb (λ n,
    unretried (run_in (after n (advance 10)) (with_retry (mkRetryPolicySnapshot 2 (seconds 5))) request (seconds 9) failing_once))
    between_polls.
Definition cancellation_interrupts_retry_sleep_without_another_attempt : bool :=
  forallb (λ n,
    unretried (run_in (after n cancels) (with_retry (mkRetryPolicySnapshot 2 (seconds 10))) request (seconds 30) failing_once))
    moments.

Lemma retry_tests_pass :
  not_started_errors_retry_with_exact_attempts_and_delays
  && excessive_retry_after_started_unknown_and_nonretryable_do_not_retry
  && semantic_event_blocks_retry_and_normalizes_lying_not_started_error
  && no_event_stream_error_can_retry_but_retry_must_fit_overall_deadline
  && retryable_event_free_stream_is_dropped_before_next_attempt_starts
  && overall_deadline_can_expire_during_retry_sleep
  && cancellation_interrupts_retry_sleep_without_another_attempt = true.
Proof. vm_compute. reflexivity. Qed.

(** ** cancellation.rs *)

Definition parent_cancelled (b : bool) (r : option Run) : bool :=
  match r with Some r => same (run_parent_cancelled r) b | None => false end.
Definition children_cancelled (r : option Run) : bool :=
  match r with Some r => same (run_children_cancelled r) (run_starts r) | None => false end.

Definition each_attempt_cancels_its_child_without_cancelling_the_parent : bool :=
  forallb (λ behaviors,
    all_of [parent_cancelled false; children_cancelled] (run ModelDriverConfig_default request behaviors))
    [[Events (text_success (lit "done"))]; [StartPanic]; [FuturePanic]; [Events [finish FinishStop]];
     [StartError (retryable_error None); Events (text_success (lit "retry"))]].

Definition cancellation_and_timeout_before_invocation_are_not_started : bool :=
  let unused := [Events (text_success (lit "unused"))] in
  all_of [fails KCancelled; delivered NotStarted; starts 0] (run_in (after 0 cancels) once request (seconds 30) unused)
  && all_of [fails KTimeout; delivered NotStarted; starts 0] (run_in [] once request 0 unused).

Definition short : ModelDriverConfig := mkModelDriverConfig (seconds 5) (mkRetryPolicySnapshot 1 0) LoopLimits_default.
(** A run that waits until it is cancelled, and one that waits for its deadline. *)
Definition cancelled_while (behaviors : list Behavior) (check : option Run → bool) : bool :=
  forallb (λ n, pending (run once request behaviors)
    && all_of [fails KCancelled; check] (run_in (after n cancels) once request (seconds 30) behaviors)) moments.
Definition timed_out_while (behaviors : list Behavior) (check : option Run → bool) : bool :=
  forallb (λ n, pending (run short request behaviors)
    && all_of [fails KTimeout; check] (run_in (after n (advance 5)) short request (seconds 30) behaviors)) moments.

Definition cancellation_during_start_drops_future_and_reports_unknown : bool :=
  cancelled_while [PendingStart] (delivered DeliveryUnknown).
Definition timeout_during_start_drops_future_and_reports_unknown : bool :=
  timed_out_while [PendingStart] (delivered DeliveryUnknown).
Definition cancellation_during_stream_drops_stream_and_tracks_delivery : bool :=
  cancelled_while [ProbedStream [] TerminalPending] (delivered DeliveryUnknown)
  && cancelled_while [ProbedStream [delta (lit "seen")] TerminalPending]
       (all_of [delivered Started; progresses [text_progress (lit "seen")]]).
Definition timeout_during_stream_drops_stream_and_reports_unknown : bool :=
  timed_out_while [ProbedStream [] TerminalPending] (delivered DeliveryUnknown).
Definition start_and_stream_panics_become_unknown_nonretryable_errors : bool :=
  forallb (λ behavior,
    all_of [fails KPanicked; delivered DeliveryUnknown; final; starts 1]
      (run (with_retry (mkRetryPolicySnapshot 4 0)) request [behavior]))
    [StartPanic; FuturePanic; ProbedStream [] TerminalPanic].

Lemma cancellation_tests_pass :
  each_attempt_cancels_its_child_without_cancelling_the_parent
  && cancellation_and_timeout_before_invocation_are_not_started
  && cancellation_during_start_drops_future_and_reports_unknown
  && timeout_during_start_drops_future_and_reports_unknown
  && cancellation_during_stream_drops_stream_and_tracks_delivery
  && timeout_during_stream_drops_stream_and_reports_unknown
  && start_and_stream_panics_become_unknown_nonretryable_errors = true.
Proof. vm_compute. reflexivity. Qed.

(** ** deadline.rs *)

Definition deadline_with_retry (model_timeout : N) (retry : RetryPolicySnapshot) : ModelDriverConfig :=
  mkModelDriverConfig model_timeout retry LoopLimits_default.

Definition pending_stream_reports_exact_turn_or_port_deadline_source : bool :=
  forallb (λ c, forallb (λ n,
      all_of [fails KTimeout; sourced (Some c.2)]
        (run_in (after n (advance 6)) (deadline_with_retry (seconds c.1.2) (mkRetryPolicySnapshot 1 0)) request
           (seconds c.1.1) [ProbedStream [] TerminalPending])) moments)
    [(5, 30, DsTurn); (30, 5, DsPort)].

Definition adapter_timeout_has_no_core_deadline_provenance : bool :=
  all_of [fails KTimeout; sourced None] (run short request [StartError (test_error KTimeout)]).

(** The deadline is a second in the past. *)
Definition expired_turn_deadline_is_reported_before_model_invocation : bool :=
  let r :=
    d ← descriptor; request ← request; s ← script []; w ← test_world [] s;
    run_model_driver (driver d (deadline_with_retry (seconds 30) (mkRetryPolicySnapshot 1 0))) request (clock - seconds 1) w in
  all_of [fails KTimeout; sourced (Some DsTurn); starts 0] r.

Definition cancellation_and_panic_have_no_deadline_provenance : bool :=
  all_of [fails KCancelled; sourced None] (run_in (after 0 cancels) short request (seconds 30) [])
  && all_of [fails KPanicked; sourced None] (run short request [StartPanic]).

Definition retry_timeout_source (turn_after model_timeout : N) (source : DeadlineSource) : bool :=
  forallb (λ n,
    all_of [unretried; sourced (Some source)]
      (run_in (after n (advance 10)) (deadline_with_retry (seconds model_timeout) (mkRetryPolicySnapshot 2 (seconds 5)))
         request (seconds turn_after) failing_once)) between_polls.
Definition retry_sleep_timeout_reports_turn_source : bool := retry_timeout_source 9 30 DsTurn.
Definition retry_sleep_timeout_reports_port_source : bool := retry_timeout_source 30 9 DsPort.

Lemma deadline_tests_pass :
  pending_stream_reports_exact_turn_or_port_deadline_source
  && adapter_timeout_has_no_core_deadline_provenance
  && expired_turn_deadline_is_reported_before_model_invocation
  && cancellation_and_panic_have_no_deadline_provenance
  && retry_sleep_timeout_reports_turn_source
  && retry_sleep_timeout_reports_port_source = true.
Proof. vm_compute. reflexivity. Qed.

(** ** settlement.rs *)

Definition complete_looking : list Item := [delta (lit "complete-looking"); replay_event; finish FinishStop].

Definition finish_then_stream_error_is_not_success_or_retryable_after_observation : bool :=
  all_of [fails KProviderUnavailable; delivered Started; final; starts 1]
    (run (with_retry (mkRetryPolicySnapshot 4 0)) request
       [ProbedStream (complete_looking ++ [Some (Err (retryable_error None))]) TerminalEof;
        Events (text_success (lit "unexpected retry"))]).
Definition finish_then_pending_requires_eof_and_drops_on_cancel_or_observed_timeout : bool :=
  cancelled_while [ProbedStream complete_looking TerminalPending] (delivered Started)
  && timed_out_while [ProbedStream complete_looking TerminalPending] (delivered Started).
Definition event_then_stream_poll_panic_is_started_dropped_and_never_retried : bool :=
  all_of [progresses [text_progress (lit "observed")]; fails KPanicked; delivered Started; final; starts 1]
    (run (with_retry (mkRetryPolicySnapshot 4 0)) request
       [ProbedStream [delta (lit "observed")] TerminalPanic; Events (text_success (lit "unexpected retry"))]).

Lemma settlement_tests_pass :
  finish_then_stream_error_is_not_success_or_retryable_after_observation
  && finish_then_pending_requires_eof_and_drops_on_cancel_or_observed_timeout
  && event_then_stream_poll_panic_is_started_dropped_and_never_retried = true.
Proof. vm_compute. reflexivity. Qed.

(** ** preflight_progress.rs *)

(** [ModelDriver::new]: the descriptor is read, which may panic, and validated. *)
Definition ModelDriver_new (descriptor : option ModelDescriptor) (kernel : ModelDriverConfig) : result ModelError ModelDriver :=
  match descriptor with
  | None => Err (generated_error KPanicked NotStarted)
  | Some descriptor =>
      _ ← map_err (λ _, generated_error KInvalidRequest NotStarted) (ModelDescriptor_validate descriptor);
      Ok (driver descriptor kernel)
  end.
Definition constructor_catches_descriptor_panic_and_rejects_invalid_descriptor : bool :=
  let fails_with kind r := match r with Err e => same (me_kind e) kind | Ok _ => false end in
  fails_with KPanicked (ModelDriver_new None ModelDriverConfig_default)
  && match descriptor with
     | Some d =>
         fails_with KInvalidRequest
           (ModelDriver_new (Some (mkModelDescriptor (md_model_ref d) 0 (md_supported_reasoning d) (md_supports_tools d)))
              ModelDriverConfig_default)
     | None => false
     end.

(** A model with another descriptor and without behaviors. *)
Definition preflight (change : ModelDescriptor → ModelDescriptor) (request : option ModelRequest) : bool :=
  let r :=
    d ← descriptor; request ← request; s ← script []; w ← test_world [] s;
    run_model_driver (driver (change d) ModelDriverConfig_default) request (clock + seconds 30) w in
  all_of [fails KInvalidRequest; starts 0] r.
Definition preflight_rejects_reasoning_tools_context_and_mutated_tool_specs_before_start : bool :=
  preflight (λ d, mkModelDescriptor (md_model_ref d) (md_context_window d) [ReasonAuto] (md_supports_tools d)) request
  && preflight (λ d, mkModelDescriptor (md_model_ref d) (md_context_window d) (md_supported_reasoning d) false) tool_request
  && preflight id (request_with ReasonHigh [] (Some 129))
  && forallb (λ schema, match ToolName_from_str (lit "search") with
                        | Ok name => is_err (ToolSpec_new name (lit "tool") schema)
                        | Err _ => false
                        end)
       [JArray []; JObject [(lit "padding", JString (replicate (N.to_nat MAX_JSON_BYTES) 120))]].

Lemma preflight_tests_pass :
  constructor_catches_descriptor_panic_and_rejects_invalid_descriptor
  && preflight_rejects_reasoning_tools_context_and_mutated_tool_specs_before_start = true.
Proof. vm_compute. reflexivity. Qed.
End driver_tests.
