(* ===== verification/RunnerTests.v ===== *)
(** * The tests of the runner

    src/src/agent_loop/runner/tests.rs, replayed on the model of the loop: a test is
    the conjunction of its assertions, checked by computation. The loops are started
    and observed like those of [HostExample]; where a test lets something happen at a
    moment the scheduler chooses, it is checked at every such moment. That a waiter
    holds the same [Arc] as the owner is that it holds an equal report. What the
    destructor of the last test looks at, that the report is published by then, is the
    order of [finish_loop]. What the report of a panic leaves out, against the documents,
    is checked beside the test that has one. *)

From S2P Require Import Prelude Text Json Ids Limits BTree ToolTypes ToolSet ModelError Message Request Failure Assembler History Prompt Event Control Options World Steps PortCall Driver RunnerTools Runner Accounts RunnerInv Blame RunnerSpec Cooperative Responsive Handle Session Echo HostExample.
Import clock_json.
Local Open Scope N_scope.

#[local] Instance LoopFailure_eq_dec : EqDecision LoopFailure.
Proof. solve_decision. Defined.
#[local] Instance LoopOutcome_eq_dec : EqDecision LoopOutcome.
Proof. solve_decision. Defined.
#[local] Instance LoopReport_eq_dec : EqDecision (LoopReport (H := J)).
Proof. solve_decision. Defined.
#[local] Instance LoopWaitError_eq_dec : EqDecision LoopWaitError.
Proof. solve_decision. Defined.
#[local] Instance LoopJoinError_eq_dec : EqDecision LoopJoinError.
Proof. solve_decision. Defined.
#[local] Instance result_dec {E A : Type} `{EqDecision E, EqDecision A} : EqDecision (result E A).
Proof. solve_decision. Defined.

Definition same {A : Type} `{EqDecision A} (actual expected : A) : bool := bool_decide (actual = expected).
Definition failed_as (kind : LoopFailureKind) (report : LoopReport (H := J)) : bool :=
  match lr_outcome report with OutFailed failure => bool_decide (lf_kind failure = kind) | _ => false end.

(** ** Loops of the tests *)

Definition HoldingModel_descriptor : option ModelDescriptor := descriptor (lit "holding") false.
Definition holding_config : option (ExecutionConfig (H := J)) :=
  model ← HoldingModel_descriptor; config model ToolSet_default.
Definition holding_start : option (LoopRequest (H := J) * (LoopId * LoopControl * LoopEventSink)) :=
  model ← HoldingModel_descriptor; start model ToolSet_default clock [7].

(** A world that serves one request with a stream; [sync] says which synchronous
    calls into the host panic: [LoopInputs::take], the making of the prompt, the drop
    of its future, [LoopInputs::take], the start of the model, the drop of its stream,
    and then what the runner drops. *)
Definition one_request (stream : Stream) (sync : list bool) (env : list (list (EnvOp (H := J))))
    (control : LoopControl (H := J)) (sink : LoopEventSink) : World (H := J) :=
  let w := served (mkScenario [stream] [[hello_item]] [] [] env) clock control sink in
  set_host w sync [] [].
Definition calm (n : nat) : list bool := replicate n false.

Definition answer_with (text : str) (reason : ModelFinishReason) : option Stream :=
  iterated match ModelEvent_text_delta text with Ok delta => Some [delta; EvFinish reason] | Err _ => None end.

(** What a waiter is told when the others do [ops] after [delay] of its steps. *)
Definition waited (control : LoopControl (H := J)) (delay : nat) (ops : list (HostOp (H := J))) :
    option (result LoopWaitError (LoopReport (H := J))) :=
  (LoopHandle_wait (mkShared control 0 true None (replicate delay [] ++ [ops]))).2.

(** ** A destructor that panics outside the isolation of a port *)

Definition a_real_runner_panic_publishes_one_report_for_join_and_all_waiters : option bool :=
  stream ← answer_with (lit "answer") FinishStop;
  '(request, (id, control, sink)) ← holding_start;
  let w := one_request stream (calm 5 ++ [true]) [] control sink in
  let out := run_loop id default_options request w in
  match out with
  | Done report w' =>
      let ops := task_ops w out in
      let joined := (AgentLoop_join AgentLoop_started None (mkShared control 0 true None [ops])).2 in
      Some (same (length (w_sync w')) 0%nat
        && failed_as FkInternal report
        && same joined (Some (Some (Ok report)))
        && forallb (λ delay, same (waited control delay ops) (Some (Ok report))) (seq 0 5)
        && same (published (w_trace w')) [report]
        && c_cancel (w_ctl w'))
  | _ => None
  end.

(** *** What the report of such a panic leaves out

    The documents promise it for every ending: the inputs the loop took, the request it
    issued, and the cancellation that won. *)

(** The stream of request 0 panics when it is dropped, in a loop that took an input. *)
Definition steering_input : UserInput := UserText (mkBoundedText (lit "one more thing")).
Definition crash_after_input : option (World (H := J) * LoopReport (H := J)) :=
  stream ← answer_with (lit "answer") FinishStop;
  '(request, (id, control, sink)) ← holding_start;
  let w := set_host (one_request stream (calm 5 ++ [true]) [] control sink) (calm 5 ++ [true]) [[steering_input]] [] in
  match run_loop id default_options request w with Done report w' => Some (w', report) | _ => None end.

Definition holds_of {A : Type} (o : option A) (check : A → bool) : bool := match o with Some a => check a | None => false end.

Lemma panic_loses_taken_inputs :
  holds_of crash_after_input (λ '(w, report),
    same (takes (w_trace w)) [steering_input] && same (length (lr_appended report)) 0%nat) = true.
Proof. vm_compute. reflexivity. Qed.

Lemma panic_denies_issued_request :
  holds_of crash_after_input (λ '(w, report),
    same (issues (w_trace w)) [(0, INITIAL_REVISION)] && (lr_requests report =? 0)) = true.
Proof. vm_compute. reflexivity. Qed.

(** The user cancels while the prompt is prepared, and the future of the prompt panics
    when it is dropped: what the body of the loop leaves, and what is reported. *)
Definition cancelled_crash : option (World (H := J) * LoopReport (H := J)) :=
  '(request, (id, control, sink)) ← holding_start;
  let w := set_prompt_polls (replicate 20 PollPending)
    (one_request [] (calm 2 ++ [true]) (replicate 20 [] ++ [[EnvCancel SrcUser; EnvFireToken]]) control sink) in
  match run_loop_inner id default_options request w, run_loop id default_options request w with
  | Panicked crashed, Done report _ => Some (crashed, report)
  | _, _ => None
  end.

Lemma panic_overrides_cancellation :
  holds_of cancelled_crash (λ '(w, report),
    (c_state (w_ctl w) =? STATE_CANCEL_USER) && failed_as FkInternal report) = true.
Proof. vm_compute. reflexivity. Qed.

(** ** A runner that is aborted *)

Definition aborted_runner_makes_wait_return_completion_closed : option bool :=
  '(request, (id, control, sink)) ← holding_start;
  Some (match run_loop id default_options request (one_request [] [] [] control sink) with Paused _ => true | _ => false end
    && forallb (λ delay, same (waited control delay [HoDropSender; HoTaskEnd None]) (Some (Err CompletionClosed))) (seq 0 5)).

(** ** The seal *)

(** A control plane of its own, and the world of a runner that is about to finish. *)
Definition own_control : option (LoopControl (H := J) * LoopEventSink) :=
  match LoopControl_new loop_id 8 LoopLimits_default with Ok parts => Some parts | Err _ => None end.
Definition about_to_finish (control : LoopControl (H := J)) (sink : LoopEventSink) : World (H := J) :=
  served (mkScenario [] [] [] [] []) clock control sink.
Definition finish_completed (tool_rounds : N) : exec (LoopReport (H := J)) :=
  finish_loop loop_id FpCompleted (WorkingHistory_new []) Usage_default 0 None tool_rounds.
(** A waiter that comes when everything has happened, one send included. *)
Definition waited_after (control : LoopControl (H := J)) : option (result LoopWaitError (LoopReport (H := J))) :=
  (LoopHandle_wait (mkShared control 1 true None [])).2.

Definition completed_report : LoopReport (H := J) :=
  mkLoopReport loop_id OutCompleted [] Usage_default 0 0 INITIAL_REVISION.
Definition finish_loop_losing_the_seal_returns_the_published_arc : option bool :=
  '(control, sink) ← own_control;
  '(control, (finish, _)) ← finish_once (with_completion control (Some completed_report));
  match finish_completed 3 (about_to_finish control sink) with
  | Done report w =>
      Some (match finish with SealClean => true | _ => false end
        && same report completed_report && same (waited_after (w_ctl w)) (Some (Ok completed_report)))
  | _ => None
  end.

Definition completion_preserves_tool_round_counts_beyond_u16 : option bool :=
  '(control, sink) ← own_control;
  Some (forallb (λ tool_rounds,
    match finish_completed tool_rounds (about_to_finish control sink) with
    | Done report w => (lr_tool_rounds report =? tool_rounds) && same (waited_after (w_ctl w)) (Some (Ok report))
    | _ => false
    end) [65535; 65536; 70000]).

Definition completion_is_exactly_once_and_token_cancel_is_terminal : option bool :=
  '(control, sink) ← own_control;
  match panic_report loop_id (about_to_finish control sink) with
  | Done first w =>
      let finished := is_finished (w_ctl w) && c_cancel (w_ctl w) in
      match panic_report loop_id w with
      | Done second w =>
          '(control, (seal, _)) ← finish_once (w_ctl w);
          Some (failed_as FkInternal first && finished && same second first
            && match seal with SealAlreadyFinished => true | _ => false end
            && same (waited_after control) (Some (Ok first))
            && negb (mark_cancel control SrcUser).2 && negb (mark_cancel control SrcShutdown).2
            && is_finished (mark_cancel control SrcUser).1)
      | _ => None
      end
  | _ => None
  end.

(** ** Terminal results *)

Definition terminal_tool_result_messages_are_bounded_to_max_output_bytes : bool :=
  match ToolCallId_new (lit "call_1"), ToolName_from_str (lit "echo") with
  | Ok call_id, Ok name =>
      forallb (λ message,
        match terminal_tool_result loop_id 0 call_id name OutcomeFailed message 1 with
        | Some result => byte_len (to_content (trh_output result)) <=? 1
        | None => false
        end) [lit "tool batch interrupted"; lit "tool round limit reached"]
  | _, _ => false
  end.

(** ** A discarded configuration whose destructor panics

    The update comes from inside the model's [start] in the test, and from another
    thread, [delay] accesses after the run began, here. The last entry of the list is
    for the runner's locals, which are dropped after the configuration. *)

Definition discarded_config (finish : ModelFinishReason) (delay : nat) : option bool :=
  stream ← answer_with (lit "retained output") finish;
  pending ← holding_config;
  '(request, (id, control, sink)) ← holding_start;
  let w := one_request stream (calm 6 ++ [true; false]) (replicate delay [] ++ [[EnvUpdate pending]]) control sink in
  let out := run_loop id default_options request w in
  match out with
  | Done report w' =>
      Some (same (length (w_sync w')) 0%nat
        && (lr_requests report =? 1) && same (length (lr_appended report)) 2%nat
        && same (waited control 0 (task_ops w out)) (Some (Ok report))
        && match finish with
           | FinishStop => same (lr_outcome report) OutCompleted
           | _ => failed_as FkOutputLimit report
           end)
  | _ => None
  end.

(** From the last boundary before the request to the decision on the end; the start
    of the model is in between. *)
Definition discarded_config_drop_panics_cannot_lose_or_replace_the_report : bool :=
  forallb (λ delay, forallb (λ finish, default false (discarded_config finish delay)) [FinishStop; FinishLength])
    (seq 19 32).

Lemma runner_tests_pass :
  a_real_runner_panic_publishes_one_report_for_join_and_all_waiters = Some true
  ∧ aborted_runner_makes_wait_return_completion_closed = Some true
  ∧ finish_loop_losing_the_seal_returns_the_published_arc = Some true
  ∧ completion_preserves_tool_round_counts_beyond_u16 = Some true
  ∧ completion_is_exactly_once_and_token_cancel_is_terminal = Some true
  ∧ terminal_tool_result_messages_are_bounded_to_max_output_bytes = true
  ∧ discarded_config_drop_panics_cannot_lose_or_replace_the_report = true.
Proof. vm_compute. split_and!; reflexivity. Qed.
